(* ===== verification/_CoqProject ===== *)
-Q . S2P
Prelude.v
F64.v
Account.v
Serial.v
ShortVec.v
Features.v
BTreeMap.v
Sysvar.v
SysvarProps.v
SlotHistory.v
RollingBitField.v
Message.v
MessageProps.v
CostModel.v
MerkleTree.v
Fees.v
FeesProps.v
System.v
SystemProps.v
Transaction.v
Poh.v
PohProps.v
AccountLocks.v
StatusCache.v
MessageProcessor.v
AccountRules.v
MessageProcessorProps.v
MessageDepth.v
MessageFrame.v
MessageReadonly.v
MessageRecorder.v
MessageSafety.v
BpfLoader.v
BpfLoaderProps.v
VoteState.v
VoteTower.v
VoteProps.v
VoteWf.v
VoteProgram.v
Bank.v
BankProps.v
BankExecutor.v
BankBatch.v
BankOnce.v
BankExample.v
RentPartition.v
BankFreeze.v
FreezeProps.v
Timestamp.v
Stake.v
StakeProps.v
Config.v
StakeProgram.v
StakeInv.v
StakeSafety.v
VoteStakeTracker.v
Commitment.v
BankForks.v
ForkChoice.v
ForkTree.v
ForkOps.v
ForkInv.v
ForkVotes.v
ForkMarks.v
ForkEdit.v
ForkProps.v
Tower.v
TowerProps.v
TowerStakes.v
TowerStorage.v
