(* ===== verification/Prelude.v ===== *)
(** * Verification of the Solana validator core (garious/phist)

    ** The program and its parts

    A validator executes transactions against accounts and votes on the blocks
    it has executed.  A transaction carries a message; the message processor
    runs the message's instructions one by one, each by a program, and checks
    afterwards what the program did to its accounts.  The native programs
    modelled here are the system, vote, stake and config programs and the BPF
    loaders.  They read
    the cluster's state through sysvars (clock, rent, epoch schedule, slot
    hashes, stake history, recent blockhashes) and feature gates.  The bank
    takes batches of transactions: it locks their accounts, looks up whether
    they were processed before, loads the accounts, charges fees and rent, has
    the message processor run the messages and stores the results.  When a
    slot is complete the bank is frozen: rent is collected from the accounts of
    the slot's partition, fees and rent are paid out, and the votes' timestamps
    give the clock.  The bank forks hold the banks that are not yet rooted.  A
    block is a list of entries that a hash chain, the proof of history, puts in
    order; the cost model limits what a leader packs into it.  The fork choice
    turns the votes into the slot to build on, the tower decides whether the
    validator may vote for it, and the commitment service adds up the stake
    behind a slot.

    ** Files

    Paths are relative to [src/].

    - [Prelude]: machine integers at their width, results with errors and
      panics, the state-and-error monad [ST], sorting, general lemmas and the
      tactics and hints of the development.
    - [F64]: the [f64] operations of the stake and rent code, on the standard
      library's IEEE 754 floats.
    - [Account], [Serial], [Features]: accounts in shared cells behind keyed
      accounts ([sdk/src/account.rs], [keyed_account.rs], [account_utils.rs],
      [sdk/program/src/instruction.rs]); a concrete codec for examples; feature
      gates and ids ([sdk/src/feature_set.rs]).
    - [ShortVec], [SlotHistory]: [sdk/program/src/short_vec.rs] and
      [slot_history.rs].
    - [BTreeMap], [Sysvar], [SysvarProps]: ordered maps; clock, rent, epoch
      schedule, slot hashes, stake history ([sdk/program/src/]).
    - [Message], [MessageProps]: [sdk/program/src/message.rs], instruction
      types and [serialize_utils.rs].
    - [Fees], [FeesProps]: [fee_calculator.rs], [rent_collector.rs],
      [blockhash_queue.rs], [recent_blockhashes.rs].
    - [System], [SystemProps]: [runtime/src/system_instruction_processor.rs] and
      the nonce accounts of [sdk/].
    - [MessageProcessor], with [AccountRules], [MessageProcessorProps],
      [MessageDepth], [MessageFrame], [MessageReadonly], [MessageRecorder],
      [MessageSafety]: [runtime/src/message_processor.rs]; [MessageReadonly] and
      [MessageRecorder] show that read-only accounts stay as they are and that
      recording the inner instructions changes nothing else.
    - [BpfLoader], [BpfLoaderProps]: program derived addresses
      ([sdk/program/src/pubkey.rs]) and the loaders' instructions
      ([programs/bpf_loader/src/lib.rs]).
    - [MerkleTree], [Poh], [PohProps]: [merkle-tree/src/merkle_tree.rs],
      [entry/src/poh.rs] and [entry.rs].
    - [CostModel]: [core/src/execute_cost_table.rs], [cost_model.rs] and
      [cost_tracker.rs].
    - [VoteState], [VoteTower], [VoteProps], [VoteWf], [VoteProgram]: the vote
      state, its authorized voters and the vote program ([programs/vote/src/]).
    - [Stake], [StakeProps], [StakeProgram], [StakeInv], [StakeSafety]: stake
      state, rewards and the stake program ([sdk/program/src/stake/],
      [programs/stake/src/]); [Config]: [programs/config/src/].
    - [ForkChoice], with [ForkTree], [ForkOps], [ForkInv], [ForkVotes],
      [ForkMarks], [ForkEdit], [ForkProps]:
      [core/src/heaviest_subtree_fork_choice.rs], [tree_diff.rs] and
      [latest_validator_votes_for_frozen_banks.rs].
    - [Transaction], [AccountLocks], [StatusCache]: sanitized transactions and
      durable nonces ([sdk/src/]), the locks of [runtime/src/accounts.rs] and
      [transaction_batch.rs], and [runtime/src/status_cache.rs].
    - [Bank], with [BankProps], [BankExecutor], [BankBatch], [BankOnce],
      [BankExample]: checking, loading, executing and committing a batch
      ([runtime/src/bank.rs], [accounts.rs]).  The bank's theorems are about
      the class [Executor]; [BankExecutor] makes the message processor with
      orderly programs an instance of it.
    - [RentPartition], [BankFreeze], [FreezeProps]: the partitions of the eager
      rent collection and [Bank::freeze]; [Timestamp]: the clock
      ([runtime/src/stake_weighted_timestamp.rs] and [Bank::update_clock]).
    - [RollingBitField]: the bit field of [runtime/src/accounts_index.rs] and
      [ancestors.rs]; [BankForks]: [runtime/src/bank_forks.rs].
    - [VoteStakeTracker], [Commitment]: [core/src/vote_stake_tracker.rs],
      [runtime/src/commitment.rs] and [core/src/commitment_service.rs].
    - [Tower], with [TowerProps], [TowerStakes], [TowerStorage]:
      [core/src/consensus.rs].

    ** How code is modelled

    Functions keep their names.  A [Result] is [res E A], which also has
    [Panic] for [unwrap], [expect], [assert!] and slices out of range; code that
    changes state is in [ST S E A := S → S * res E A], so that what an error
    leaves behind is part of the model.  Integers are [Z] with the wrapping,
    checked or saturating operation the source uses; the release profile does
    not check overflow, so plain [+] and [-] wrap.  A [RefCell] is a location
    in a store, and keyed accounts with one location alias.  Hash maps are
    [gmap]s; where the source iterates one, the theorems hold for the order of
    [map_to_list], and no property depends on it.

    Code outside [src/] is an argument: bincode is [Account.Codec] with its
    round-trip law, SHA-256 is a function, a loaded program is a tree of the
    calls it makes on its invocation context; the native hashing libraries, the
    virtual machine's verifier and the test for curve points are classes.
    Where security rests on the hash, a theorem's conclusion has the collision
    as its other case.  Every theorem with such an
    argument has an example that instantiates it.

    ** What the theorems show

    - Messages and instructions: a processed message conserves lamports and an
      instruction changes an account only as its owner and the account rules
      allow, for programs that pass on the errors of their invocations and
      invoke instructions of the shapes the theorems state;
      [PreAccount::verify] accepts exactly the allowed changes; compiling
      instructions into a message of fewer than 256 keys keeps them, and their
      privileges where no signer is promoted to writable; a sanitized message
      indexes within bounds; the instructions sysvar reads back.
    - Vote program: lockouts are respected, roots and credits advance, states
      stay well formed, and only the right authority changes an account.
    - Stake program: delegations stay backed, rewards stay within their budget
      and are paid once, withdrawals respect lockup and reserve; the loops of
      warm-up and cool-down end.
    - System program: accounts change under the right signature only, nonce
      accounts stay funded and a nonce is used once; lamports are conserved.
    - BPF loader: but for deployments, a program's data or a buffer changes only
      under its authority's signature; an upgrade replaces the program and
      moves the lamports; derived addresses lie off the curve.
    - Entries: what the hash chain records verifies; the scalar, vector and
      device verifiers agree; a verified chain fixes its transactions; a Merkle
      path is accepted for the items of the tree.
    - Fees and rent: the blockhash queue refines the list of registered hashes;
      the fee rate converges; rent is collected once an epoch.
    - Sysvars: the epoch schedule partitions the slots; the histories keep
      their newest entries and bisection finds them.
    - Fork choice: a node's recorded stake is the stake of the latest votes in
      its subtree, the recommended slot is the one of the GHOST rule, counting
      votes panics exactly if a validator has two in a batch, the other calls
      return, and marking a fork invalid is undone by marking it valid.
    - Bank: account locks are exclusive; the status cache remembers; a batch
      creates no lamports, for orderly programs, and a message is committed
      once; where the collection cycle is an epoch, the partitions of an epoch
      cover all keys; freezing makes the capitalization the sum of
      the accounts, and the rent is distributed to the last lamport; the clock
      stays within its drift.
    - Forks of banks: the descendants are exact, setting a root keeps the banks
      on its fork; the rolling bit field refines a set when keys grow.
    - Block costs: the limits hold of the block and of every account, and the
      cost table stays within its capacity.
    - Commitment: the stake behind a slot is that of the votes on it, and what
      is counted twice; an
      optimistic threshold is reported once.
    - Tower: a validator's votes never conflict, leaving a fork takes a proof,
      the collected stakes are those of the votes, a restored tower is brought
      in line with the ledger, and saving one is safe against a crash of the
      process (of a loss of power, only that what is restored is signed).
    - Encodings and histories: compact lengths have one encoding; the slot
      history refines the set of added slots.
    - Some theorems show behaviour the code or its comments do not intend; their
      names end in [_unbacked], [_bypass], [_swaps_privileges],
      [_privileges_shifted], [_lost], [_panic], [_panics], [_loses_rent],
      [_nonce_stays], [_same_root], [_excess_item], [_counted_twice],
      [_drops_gap] and [_under_loader].

    ** Fuel and bounds

    Recursion that is not structural takes fuel.  The invocations of a message
    take one unit a level and the depth is bounded by the compute budget
    ([MessageDepth.run_fuel_enough]); the loops of warm-up and cool-down take
    one round more than the history has entries ([StakeProps]); the walks of
    the fork choice take the number of nodes, which suffices because slots grow
    from parents to children ([ForkTree]); bisection takes the length of the
    list; the levels of a Merkle tree halve, so that the number of items is
    enough; making room in the rolling bit field takes a round for each key of
    the window; a bump seed has 255 tries as in the source.

    ** Not modelled

    Input and output and concurrency: the ledger's store, gossip, networking,
    RPC, the validator's stages and services, and the tools.  The BPF virtual
    machine with its system calls, cryptography and erasure coding are
    third-party code or call it.  The accounts database is a map from keys to accounts: its
    storage, index, caches and snapshots are left out.  Of the bank, the
    creation from a parent, epoch rewards, the stakes and executor caches,
    simulation and the records kept for reporting are left out; of the tower,
    what reads the bank forks and the blockstore; of the entries, the check of
    their transactions' signatures.  The client-side builders of instructions
    only fill in account lists.  Metrics, timing and logging are left out, but
    for the log line of a new root, whose arguments can panic. *)

From stdpp Require Export base gmap list fin_maps strings countable sorting.
From Stdlib Require Export ZArith Lia.

#[global] Open Scope Z_scope.
#[global] Set Default Goal Selector "!".

(** ** Machine integers

    Unsigned machine integers are [Z] values; every operation of the source
    that can leave the range is written with its own overflow behaviour.  The
    release profile of the workspace does not enable overflow checks, so the
    plain operators [+], [-] and [*] wrap around. *)

Definition u8_max : Z := 2 ^ 8 - 1.
Definition u32_max : Z := 2 ^ 32 - 1.
Definition u64_max : Z := 2 ^ 64 - 1.
Definition u128_max : Z := 2 ^ 128 - 1.
Definition i64_max : Z := 2 ^ 63 - 1.
Definition i64_min : Z := - 2 ^ 63.

Definition is_u8 (x : Z) : Prop := 0 <= x <= u8_max.
Definition is_u32 (x : Z) : Prop := 0 <= x <= u32_max.
Definition is_u64 (x : Z) : Prop := 0 <= x <= u64_max.
Definition is_i64 (x : Z) : Prop := i64_min <= x <= i64_max.

Definition wrap32 (x : Z) : Z := x mod 2 ^ 32.
Definition wrap64 (x : Z) : Z := x mod 2 ^ 64.
Definition wrap128 (x : Z) : Z := x mod 2 ^ 128.

(** [x as i64] *)
Definition as_i64 (x : Z) : Z := (x + 2 ^ 63) mod 2 ^ 64 - 2 ^ 63.

Definition add64 (a b : Z) : Z := wrap64 (a + b).
Definition sub64 (a b : Z) : Z := wrap64 (a - b).
Definition mul64 (a b : Z) : Z := wrap64 (a * b).
Definition add32 (a b : Z) : Z := wrap32 (a + b).

Definition saturating_add64 (a b : Z) : Z := Z.min (a + b) u64_max.
Definition saturating_sub (a b : Z) : Z := Z.max (a - b) 0.
Definition saturating_mul64 (a b : Z) : Z := Z.min (a * b) u64_max.
Definition saturating_pow64 (a b : Z) : Z := Z.min (a ^ b) u64_max.
Definition saturating_add32 (a b : Z) : Z := Z.min (a + b) u32_max.

Definition checked_add64 (a b : Z) : option Z :=
  if a + b <=? u64_max then Some (a + b) else None.
Definition checked_sub64 (a b : Z) : option Z :=
  if b <=? a then Some (a - b) else None.
Definition checked_mul64 (a b : Z) : option Z :=
  if a * b <=? u64_max then Some (a * b) else None.
Definition checked_div (a b : Z) : option Z :=
  if b =? 0 then None else Some (a / b).
Definition checked_rem (a b : Z) : option Z :=
  if b =? 0 then None else Some (a mod b).
Definition checked_mul128 (a b : Z) : option Z :=
  if a * b <=? u128_max then Some (a * b) else None.

(** ** Results

    [Ok] and [Err] are the two constructors of the source's [Result]; [Panic]
    is the outcome of a failed [assert!], [unwrap] or slice index. *)

Inductive res (E A : Type) : Type :=
| Ok (a : A)
| Err (e : E)
| Panic.
Arguments Ok {E A} a.
Arguments Err {E A} e.
Arguments Panic {E A}.

#[export] Instance res_ret {E} : MRet (res E) := λ A a, Ok a.
#[export] Instance res_bind {E} : MBind (res E) := λ A B k m,
  match m with Ok a => k a | Err e => Err e | Panic => Panic end.
#[export] Instance res_fmap {E} : FMap (res E) := λ A B f m,
  match m with Ok a => Ok (f a) | Err e => Err e | Panic => Panic end.

Definition ok_or {E A} (o : option A) (e : E) : res E A :=
  match o with Some a => Ok a | None => Err e end.
Definition map_err {E F A} (f : E → F) (r : res E A) : res F A :=
  match r with Ok a => Ok a | Err e => Err (f e) | Panic => Panic end.
Definition unwrap {E A} (o : option A) : res E A :=
  match o with Some a => Ok a | None => Panic end.
Definition ensure {E} (b : bool) (e : E) : res E unit :=
  if b then Ok tt else Err e.
Definition is_ok {E A} (r : res E A) : bool :=
  match r with Ok _ => true | _ => false end.

(** ** State, errors and panics

    A method taking [&mut self] (or mutating shared cells) and returning a
    [Result] is a [ST S E A]: it returns the state also when it fails, because
    the writes done before an early return stay visible to the caller. *)

Definition ST (S E A : Type) : Type := S → S * res E A.

#[export] Instance st_ret {S E} : MRet (ST S E) := λ A a s, (s, Ok a).
#[export] Instance st_bind {S E} : MBind (ST S E) := λ A B k m s,
  match m s with
  | (s', Ok a) => k a s'
  | (s', Err e) => (s', Err e)
  | (s', Panic) => (s', Panic)
  end.

Definition get {S E} : ST S E S := λ s, (s, Ok s).
Definition gets {S E A} (f : S → A) : ST S E A := λ s, (s, Ok (f s)).
Definition put {S E} (s' : S) : ST S E unit := λ _, (s', Ok tt).
Definition modify {S E} (f : S → S) : ST S E unit := λ s, (f s, Ok tt).
Definition lift {S E A} (r : res E A) : ST S E A := λ s, (s, r).
Definition fail {S E A} (e : E) : ST S E A := λ s, (s, Err e).
Definition panic {S E A} : ST S E A := λ s, (s, Panic).
Definition ensureS {S E} (b : bool) (e : E) : ST S E unit := lift (ensure b e).
Definition assert_ {S E : Type} (b : bool) : ST S E unit := if b then mret tt else panic.

(** Run a method of a local variable [x] of type [T] inside a computation on
    [S]: the caller gets the result and the new value of the variable. *)
Definition run_local {T S E A} (m : ST T E A) (x : T) : ST S E (A * T) := λ s,
  match m x with
  | (x', Ok a) => (s, Ok (a, x'))
  | (_, Err e) => (s, Err e)
  | (_, Panic) => (s, Panic)
  end.

Definition mapE {S E F A} (f : E → F) (m : ST S E A) : ST S F A := λ s,
  let '(s', r) := m s in (s', map_err f r).

(** ** Sums over lists *)

Definition sumZ (l : list Z) : Z := foldr Z.add 0 l.
Definition sum_with {A} (f : A → Z) (l : list A) : Z := foldr (λ a n, f a + n) 0 l.

Lemma sum_with_app {A} (f : A → Z) l l' : sum_with f (l ++ l') = sum_with f l + sum_with f l'.
Proof. induction l as [|x l IH]; [done|]. unfold sum_with in *. cbn [foldr app]. lia. Qed.

Lemma sum_with_perm {A} (f : A → Z) l l' : l ≡ₚ l' → sum_with f l = sum_with f l'.
Proof. unfold sum_with. induction 1; cbn [foldr]; lia. Qed.

Lemma sum_with_ext {A} (f g : A → Z) l : (∀ x, x ∈ l → f x = g x) → sum_with f l = sum_with g l.
Proof.
  unfold sum_with. induction l as [|x l IH]; intros Hl; cbn [foldr]; [done|].
  rewrite Hl, IH by set_solver. done.
Qed.

Lemma sum_with_nonneg {A} (f : A → Z) l : Forall (λ x, 0 <= f x) l → 0 <= sum_with f l.
Proof. unfold sum_with. induction 1; cbn; lia. Qed.

Lemma sum_with_fmap {A B} (f : B → Z) (g : A → B) l : sum_with f (g <$> l) = sum_with (λ x, f (g x)) l.
Proof. unfold sum_with. induction l as [|x l IH]; cbn; [done|by rewrite IH]. Qed.

(** ** Lemmas on the monads *)

Section st_lemmas.
Context {S E : Type}.
Implicit Types s : S.

Lemma st_bind_Ok {A B} (m : ST S E A) (k : A → ST S E B) s s' b :
  (m ≫= k) s = (s', Ok b) ↔ ∃ s1 a, m s = (s1, Ok a) ∧ k a s1 = (s', Ok b).
Proof.
  unfold mbind, st_bind. destruct (m s) as [s1 [a|e|]] eqn:Hm; naive_solver.
Qed.

Lemma st_bind_Err {A B} (m : ST S E A) (k : A → ST S E B) s s' e :
  (m ≫= k) s = (s', Err e) ↔
  m s = (s', Err e) ∨ ∃ s1 a, m s = (s1, Ok a) ∧ k a s1 = (s', Err e).
Proof.
  unfold mbind, st_bind. destruct (m s) as [s1 [a|e'|]] eqn:Hm; naive_solver.
Qed.

Lemma st_bind_Panic {A B} (m : ST S E A) (k : A → ST S E B) s s' :
  (m ≫= k) s = (s', Panic) ↔
  m s = (s', Panic) ∨ ∃ s1 a, m s = (s1, Ok a) ∧ k a s1 = (s', Panic).
Proof.
  unfold mbind, st_bind. destruct (m s) as [s1 [a|e'|]] eqn:Hm; naive_solver.
Qed.

Lemma ensureS_Ok b (e : E) s s' x : ensureS b e s = (s', Ok x) ↔ b = true ∧ s' = s ∧ x = tt.
Proof. destruct b, x; unfold ensureS, lift, ensure; naive_solver. Qed.

Lemma ensureS_Err b (e e' : E) s s' :
  ensureS b e s = (s', Err e') ↔ b = false ∧ s' = s ∧ e' = e.
Proof. destruct b; unfold ensureS, lift, ensure; naive_solver. Qed.

Lemma ensureS_Panic b (e : E) s s' : ¬ ensureS b e s = (s', Panic).
Proof. destruct b; unfold ensureS, lift, ensure; naive_solver. Qed.

Lemma run_local_inv {T A} (m : ST T E A) (x : T) s s' r :
  run_local m x s = (s', r) ↔
  s' = s ∧ ∃ x' r', m x = (x', r') ∧ r = match r' with
    | Ok a => Ok (a, x') | Err e => Err e | Panic => Panic end.
Proof.
  unfold run_local. destruct (m x) as [x' [a|e|]]; naive_solver.
Qed.

Lemma run_local_Ok {T A} (m : ST T E A) (x : T) s s' a x' :
  run_local m x s = (s', Ok (a, x')) ↔ s' = s ∧ m x = (x', Ok a).
Proof. unfold run_local. destruct (m x) as [x1 [a1|e|]]; naive_solver. Qed.

Lemma lift_inv {A} (r r' : res E A) s s' : lift r s = (s', r') ↔ s' = s ∧ r' = r.
Proof. unfold lift. naive_solver. Qed.
End st_lemmas.

(** A computation that succeeds relates its states. *)
Definition keeps {S E A} (R : S → S → Prop) (m : ST S E A) : Prop :=
  ∀ s s' a, m s = (s', Ok a) → R s s'.

Section keeps.
Context {S E : Type} (R : S → S → Prop) `{!PreOrder R}.

Lemma keeps_bind {A B} (m : ST S E A) (k : A → ST S E B) :
  keeps R m → (∀ a, keeps R (k a)) → keeps R (m ≫= k).
Proof. intros Hm Hk s s' b (s1 & a & H1 & H2)%st_bind_Ok. transitivity s1; [by eapply Hm|by eapply Hk]. Qed.

Lemma keeps_read {A} (m : ST S E A) : (∀ s, (m s).1 = s) → keeps R m.
Proof. intros Hm s s' a H. specialize (Hm s). rewrite H in Hm. cbn in Hm. by subst. Qed.
End keeps.

Lemma mapE_inv {S E F A} (f : E → F) (m : ST S E A) s s' r :
  mapE f m s = (s', r) ↔ ∃ r', m s = (s', r') ∧ r = map_err f r'.
Proof. unfold mapE. destruct (m s). naive_solver. Qed.

Lemma map_err_Ok {E F A} (f : E → F) (r : res E A) a : map_err f r = Ok a ↔ r = Ok a.
Proof. destruct r; naive_solver. Qed.

Lemma ok_or_Ok {E A} (o : option A) (e : E) a : ok_or o e = Ok a ↔ o = Some a.
Proof. destruct o; naive_solver. Qed.

Lemma ok_or_Err {E A} (o : option A) (e e' : E) : ok_or o e = Err e' ↔ o = None ∧ e' = e.
Proof. destruct o; naive_solver. Qed.

Lemma ok_or_Panic {E A} (o : option A) (e : E) : ¬ ok_or o e = Panic.
Proof. destruct o; naive_solver. Qed.

Lemma res_bind_Ok {E A B} (m : res E A) (k : A → res E B) b :
  m ≫= k = Ok b ↔ ∃ a, m = Ok a ∧ k a = Ok b.
Proof. destruct m; naive_solver. Qed.

(** ** Ranges of the wrapping operations *)

Lemma wrap64_range x : is_u64 (wrap64 x).
Proof.
  unfold is_u64, wrap64, u64_max. pose proof (Z.mod_pos_bound x (2 ^ 64)). lia.
Qed.

Lemma wrap64_id x : is_u64 x → wrap64 x = x.
Proof. unfold is_u64, wrap64, u64_max. intros. apply Z.mod_small. lia. Qed.

Lemma wrap32_id x : is_u32 x → wrap32 x = x.
Proof. unfold is_u32, wrap32, u32_max. intros. apply Z.mod_small. lia. Qed.

Lemma add64_id a b : 0 <= a + b <= u64_max → add64 a b = a + b.
Proof. intros. by apply wrap64_id. Qed.

Lemma sub64_id a b : 0 <= b <= a → a <= u64_max → sub64 a b = a - b.
Proof. intros. apply wrap64_id. unfold is_u64. lia. Qed.

Lemma checked_add64_Some a b c :
  checked_add64 a b = Some c ↔ c = a + b ∧ a + b <= u64_max.
Proof. unfold checked_add64. destruct (Z.leb_spec (a + b) u64_max); naive_solver lia. Qed.

Lemma checked_sub64_Some a b c : checked_sub64 a b = Some c ↔ c = a - b ∧ b <= a.
Proof. unfold checked_sub64. destruct (Z.leb_spec b a); naive_solver lia. Qed.

Lemma checked_add64_None a b : checked_add64 a b = None ↔ u64_max < a + b.
Proof. unfold checked_add64. destruct (Z.leb_spec (a + b) u64_max); naive_solver lia. Qed.

Lemma checked_sub64_None a b : checked_sub64 a b = None ↔ a < b.
Proof. unfold checked_sub64. destruct (Z.leb_spec b a); naive_solver lia. Qed.

(** ** Decidability *)

#[export] Instance is_u8_dec x : Decision (is_u8 x).
Proof. unfold is_u8. apply _. Defined.
#[export] Instance is_u32_dec x : Decision (is_u32 x).
Proof. unfold is_u32. apply _. Defined.
#[export] Instance is_u64_dec x : Decision (is_u64 x).
Proof. unfold is_u64. apply _. Defined.
#[export] Instance is_i64_dec x : Decision (is_i64 x).
Proof. unfold is_i64. apply _. Defined.

Definition dec_iff {P Q : Prop} (D : Decision P) (H : P ↔ Q) : Decision Q :=
  match D with
  | left p => left (proj1 H p)
  | right np => right (λ q, np (proj2 H q))
  end.

(** An [Ok] run, split into its final state and its result. *)
Lemma run_ok {S E A} (m : ST S E A) s a : (m s).2 = Ok a → m s = ((m s).1, Ok a).
Proof. destruct (m s); cbn. by intros ->. Qed.

(** ** Automation

    [st_inv] walks through a hypothesis saying how a computation ended: it
    splits binds, reads guards as booleans and substitutes. *)

Create HintDb sol discriminated.

Ltac bool_prop :=
  repeat match goal with
  | H : _ && _ = true |- _ => apply andb_prop in H; destruct H
  | H : _ && _ = false |- _ => apply andb_false_iff in H
  | H : _ || _ = true |- _ => apply orb_prop in H
  | H : _ || _ = false |- _ => apply orb_false_elim in H; destruct H
  | H : negb _ = true |- _ => apply negb_true_iff in H
  | H : negb _ = false |- _ => apply negb_false_iff in H
  | H : (_ <=? _) = true |- _ => apply Z.leb_le in H
  | H : (_ <=? _) = false |- _ => apply Z.leb_gt in H
  | H : (_ <? _) = true |- _ => apply Z.ltb_lt in H
  | H : (_ <? _) = false |- _ => apply Z.ltb_ge in H
  | H : (_ =? _) = true |- _ => apply Z.eqb_eq in H
  | H : (_ =? _) = false |- _ => apply Z.eqb_neq in H
  | H : bool_decide _ = true |- _ => apply bool_decide_eq_true in H
  | H : bool_decide _ = false |- _ => apply bool_decide_eq_false in H
  end.

Ltac st_step :=
  match goal with
  | H : (_, _) = (_, _) |- _ => injection H as H; subst
  | H : Ok _ = Ok _ |- _ => injection H as H; subst
  | H : Err _ = Err _ |- _ => injection H as H; subst
  | H : Ok _ = Err _ |- _ => discriminate H
  | H : Ok _ = Panic |- _ => discriminate H
  | H : Err _ = Ok _ |- _ => discriminate H
  | H : Err _ = Panic |- _ => discriminate H
  | H : Panic = Ok _ |- _ => discriminate H
  | H : Panic = Err _ |- _ => discriminate H
  | H : ensureS _ _ _ = (_, Ok _) |- _ => apply ensureS_Ok in H as (? & ? & ?); subst
  | H : ensureS _ _ _ = (_, Err _) |- _ => apply ensureS_Err in H as (? & ? & ?); subst
  | H : ensureS _ _ _ = (_, Panic) |- _ => by apply ensureS_Panic in H
  | H : ok_or _ _ = Ok _ |- _ => apply ok_or_Ok in H
  | H : ok_or _ _ = Err _ |- _ => apply ok_or_Err in H as (? & ?); subst
  | H : ok_or _ _ = Panic |- _ => by apply ok_or_Panic in H
  | H : Ok _ = ok_or _ _ |- _ => symmetry in H
  | H : Err _ = ok_or _ _ |- _ => symmetry in H
  | H : Panic = ok_or _ _ |- _ => symmetry in H
  | H : map_err _ _ = Ok _ |- _ => apply map_err_Ok in H
  | H : Ok _ = map_err _ _ |- _ => symmetry in H
  | H : mapE _ _ _ = (_, _) |- _ => apply mapE_inv in H as (? & ? & H)
  | H : lift _ _ = (_, _) |- _ => apply lift_inv in H as (? & ?); subst
  | H : fail _ _ = (_, _) |- _ => unfold fail in H
  | H : panic _ = (_, _) |- _ => unfold panic in H
  | H : get _ = (_, _) |- _ => unfold get in H
  | H : gets _ _ = (_, _) |- _ => unfold gets in H
  | H : put _ _ = (_, _) |- _ => unfold put in H
  | H : modify _ _ = (_, _) |- _ => unfold modify in H
  | H : mret _ _ = (_, _) |- _ => unfold mret, st_ret in H
  | H : mbind _ _ _ = (_, Ok _) |- _ => apply st_bind_Ok in H as (? & ? & ? & H)
  | H : mbind _ _ _ = (_, Err _) |- _ =>
      apply st_bind_Err in H as [H | (? & ? & ? & H)]
  | H : mbind _ _ _ = (_, Panic) |- _ =>
      apply st_bind_Panic in H as [H | (? & ? & ? & H)]
  | H : run_local _ _ _ = (_, Ok ?p) |- _ => is_var p; destruct p as [? ?]; cbn [fst snd] in *
  | H : run_local _ _ _ = (_, Ok (_, _)) |- _ => apply run_local_Ok in H as (? & ?); subst
  | H : run_local _ _ _ = (_, _) |- _ =>
      apply run_local_inv in H as (? & ? & ? & ? & ?); subst
  | H : _ = match ?r with Ok _ => _ | Err _ => _ | Panic => _ end |- _ =>
      is_var r; destruct r; simplify_eq
  | u : unit |- _ => destruct u
  end.

Ltac st_inv := repeat (st_step; cbn beta in * ).

Ltac dconj :=
  repeat match goal with
  | H : ∃ _, _ |- _ => destruct H
  | H : _ ∧ _ |- _ => destruct H
  end.

(** Closes an equivalence between a computation's outcome and its description
    once the data it branches on is known. *)
Ltac outcome :=
  split; intros; repeat first [progress dconj | progress destruct_or? | progress simplify_eq/=];
  eauto 10; try congruence.

Lemma filter_all_id {A} (P : A → Prop) `{!∀ x, Decision (P x)} (l : list A) :
  Forall P l → filter P l = l.
Proof. induction 1 as [|x l Hx HF IH]; [done|]. by rewrite filter_cons_True, IH. Qed.

Lemma filter_none {A} (P : A → Prop) `{!∀ x, Decision (P x)} (l : list A) :
  Forall (λ x, ¬ P x) l → filter P l = [].
Proof. induction 1 as [|x l Hx HF IH]; [done|]. by rewrite filter_cons_False, IH. Qed.

Lemma filter_ext_elem {A} (P Q : A → Prop) `{!∀ x, Decision (P x), !∀ x, Decision (Q x)}
    (l : list A) :
  (∀ x, x ∈ l → P x ↔ Q x) → filter P l = filter Q l.
Proof.
  induction l as [|x l IH]; intros HPQ; [done|].
  rewrite !filter_cons, IH by (intros; apply HPQ; by right).
  destruct (HPQ x (list_elem_of_here _ _)). by destruct (decide (P x)), (decide (Q x)); try tauto.
Qed.

Lemma StronglySorted_lookup {A} (R : relation A) l i j x y :
  StronglySorted R l → (i < j)%nat → l !! i = Some x → l !! j = Some y → R x y.
Proof.
  intros Hs. revert i j. induction Hs as [|a l Hs IH HF]; intros i j Hij Hx Hy; [done|].
  destruct j as [|j]; [lia|]. destruct i as [|i]; cbn in *.
  - simplify_eq. by apply (proj1 (Forall_lookup _ _) HF j).
  - apply (IH i j); [lia|done..].
Qed.

(** ** Sorting *)

(** [slice::sort_by] is stable. *)
Fixpoint sort_insert {A} (le : A → A → bool) (x : A) (l : list A) : list A :=
  match l with
  | [] => [x]
  | y :: l' => if le x y then x :: l else y :: sort_insert le x l'
  end.
Definition sort_by {A} (le : A → A → bool) (l : list A) : list A := foldr (sort_insert le) [] l.

Lemma sort_insert_elem {A} (le : A → A → bool) x y l :
  y ∈ sort_insert le x l ↔ y = x ∨ y ∈ l.
Proof. induction l as [|z l IH]; cbn; [set_solver|]. case_match; set_solver. Qed.

Lemma sort_by_elem {A} (le : A → A → bool) y l : y ∈ sort_by le l ↔ y ∈ l.
Proof.
  induction l as [|z l IH]; cbn; [done|].
  rewrite sort_insert_elem. unfold sort_by in IH. set_solver.
Qed.

Lemma sort_insert_sorted {A} (le : A → A → bool) x l :
  (∀ x y, le x y = false → le y x = true) → (∀ x y z, le x y = true → le y z = true → le x z = true) →
  StronglySorted le l → StronglySorted le (sort_insert le x l).
Proof.
  intros Htot Htr. induction 1 as [|y l Hs IH HF]; cbn; [repeat constructor|].
  destruct (le x y) eqn:E.
  - constructor; [by constructor|]. constructor; [by rewrite E|].
    eapply Forall_impl; [exact HF|]. cbn. intros z Hz. apply Is_true_true.
    eapply Htr; [exact E|by apply Is_true_true].
  - constructor; [done|]. apply Forall_forall. intros z [->|Hz]%sort_insert_elem.
    + apply Is_true_true. by apply Htot.
    + by eapply Forall_forall in HF.
Qed.

Lemma sort_by_sorted {A} (le : A → A → bool) l :
  (∀ x y, le x y = false → le y x = true) → (∀ x y z, le x y = true → le y z = true → le x z = true) →
  StronglySorted le (sort_by le l).
Proof.
  intros Htot Htr. induction l as [|x l IH]; cbn; [constructor|]. by apply sort_insert_sorted.
Qed.

Lemma sort_by_Permutation {A} (le : A → A → bool) l : sort_by le l ≡ₚ l.
Proof.
  induction l as [|x l IH]; [done|]. cbn. rewrite <-IH at 2. clear IH.
  change (foldr (sort_insert le) [] l) with (sort_by le l). generalize (sort_by le l) as k.
  induction k as [|y k IH]; cbn; [done|]. destruct (le x y); [done|]. rewrite IH. apply Permutation_swap.
Qed.

(** A loop that may panic or fail. *)
Fixpoint foldM {E A B} (f : B → A → res E B) (acc : B) (l : list A) : res E B :=
  match l with
  | [] => Ok acc
  | x :: l' => acc ← f acc x; foldM f acc l'
  end.

Lemma foldM_ext {E A B} (f g : B → A → res E B) l b :
  (∀ b x, x ∈ l → f b x = g b x) → foldM f b l = foldM g b l.
Proof.
  revert b. induction l as [|x l IH]; intros b H; cbn; [done|]. rewrite H by (by left).
  destruct (g b x); cbn; [|done..]. apply IH. intros. apply H. by right.
Qed.

Lemma StronglySorted_weaken {A} (R R' : A → A → Prop) l :
  (∀ x y, R x y → R' x y) → StronglySorted R l → StronglySorted R' l.
Proof.
  intros HR. induction 1 as [|x l Hs IH HF]; constructor; [done|].
  eapply Forall_impl; [exact HF|]. cbn. auto.
Qed.

Lemma StronglySorted_filter {A} (P : A → Prop) `{!∀ x, Decision (P x)} (R R' : A → A → Prop) l :
  (∀ x y, P x → P y → R x y → R' x y) → StronglySorted R l → StronglySorted R' (filter P l).
Proof.
  intros HR. induction 1 as [|x l Hs IH HF]; [constructor|]. rewrite filter_cons.
  case_decide; [|done]. constructor; [done|]. apply Forall_forall. intros y [HP Hy]%list_elem_of_filter.
  apply HR; [done..|]. by eapply Forall_forall in HF.
Qed.

(** Unfolds the monad in a hypothesis so that its branches can be destructed. *)
Ltac st_compute H :=
  cbv [mbind st_bind mret st_ret get gets put modify lift fail panic ensureS run_local mapE] in H;
  cbn beta iota in H.
