(* ===== verification/F64.v ===== *)
(** * Double precision floats

    The stake and rent code computes with [f64].  The standard library's
    [SpecFloat] gives executable IEEE 754 operations; this file fixes the
    binary64 format and adds the Rust casts between [u64] and [f64]. *)

From S2P Require Import Prelude.
From Stdlib Require Export Floats.SpecFloat.

Definition f64 : Type := spec_float.

Definition f64_prec : Z := 53.
Definition f64_emax : Z := 1024.

Definition f64_mul : f64 → f64 → f64 := SFmul f64_prec f64_emax.
Definition f64_div : f64 → f64 → f64 := SFdiv f64_prec f64_emax.
Definition f64_add : f64 → f64 → f64 := SFadd f64_prec f64_emax.
Definition f64_sub : f64 → f64 → f64 := SFsub f64_prec f64_emax.

Definition f64_abs : f64 → f64 := SFabs.
Definition f64_lt : f64 → f64 → bool := SFltb.

#[export] Instance f64_eq_dec : EqDecision f64.
Proof. unfold f64. solve_decision. Defined.

(** [x as f64] for an integer [x]: round to nearest, ties to even. *)
Definition f64_of_Z (x : Z) : f64 := binary_normalize f64_prec f64_emax x 0 false.

(** A decimal literal [n / d]: the nearest double. *)
Definition f64_of_ratio (n d : Z) : f64 := f64_div (f64_of_Z n) (f64_of_Z d).

(** [f64::EPSILON], the gap above 1. *)
Definition f64_epsilon : f64 := Eval vm_compute in f64_of_ratio 1 (2 ^ 52).

(** [x as u64]: truncation towards zero, saturating at both ends, NaN to 0. *)
Definition f64_to_u64 (x : f64) : Z :=
  match x with
  | S754_zero _ => 0
  | S754_nan => 0
  | S754_infinity true => 0
  | S754_infinity false => u64_max
  | S754_finite true _ _ => 0
  | S754_finite false m e =>
      Z.min u64_max (if 0 <=? e then Z.pos m * 2 ^ e else Z.pos m / 2 ^ (- e))
  end.

Lemma f64_to_u64_range x : is_u64 (f64_to_u64 x).
Proof.
  assert (0 <= u64_max) by (unfold u64_max; lia).
  unfold is_u64. destruct x as [s|[]| |[] m e]; cbn -[u64_max]; [lia..|].
  split; [|lia]. apply Z.min_glb; [lia|]. destruct (Z.leb_spec 0 e).
  - apply Z.mul_nonneg_nonneg; [lia|]. apply Z.pow_nonneg. lia.
  - apply Z.div_pos; [lia|]. apply Z.pow_pos_nonneg; lia.
Qed.

(** Casting a small integer to [f64] and back is the identity at the values
    the default rent uses (checked by computation). *)
Example f64_roundtrip_rent : f64_to_u64 (f64_of_Z 3480) = 3480.
Proof. vm_compute. reflexivity. Qed.

Example f64_half : f64_to_u64 (f64_mul (f64_of_Z 1001) (f64_of_ratio 1 2)) = 500.
Proof. vm_compute. reflexivity. Qed.
