(* ===== verification/Account.v ===== *)
(** * Accounts, keyed accounts and the cells programs mutate

    Models [sdk/src/account.rs], [sdk/src/account_utils.rs],
    [sdk/src/keyed_account.rs], [sdk/program/src/lamports.rs] and the error
    type of [sdk/program/src/instruction.rs].

    Accounts live in [RefCell]s that an instruction may reach through several
    keyed accounts, so a keyed account carries the location of its cell and
    every operation reads and writes a shared [Store]: two keyed accounts with
    the same location alias.  No borrow is live across two operations of the
    modelled code, so [try_borrow] and [try_borrow_mut] succeed.

    The byte encoding of the data is [bincode]'s, which is not part of the
    repository: it is the parameter [Codec]. *)

From S2P Require Import Prelude.
From Stdlib Require Import Strings.Byte Strings.Ascii.
From Stdlib Require Strings.String.

#[export] Instance byte_eq_dec' : EqDecision byte := Byte.byte_eq_dec.

(** ** Keys

    A public key or hash is 32 bytes; it is kept as the number whose
    big-endian digits are those bytes, so [=] and [<=] are the derived
    [PartialEq] and [Ord]. *)

Abbreviation Pubkey := Z (only parsing).
Abbreviation Hash := Z (only parsing).

Definition base58_digit (c : ascii) : Z :=
  let fix find (i : Z) (s : string) : Z :=
    match s with
    | EmptyString => 0
    | String d s' => if Ascii.eqb c d then i else find (i + 1) s'
    end in
  find 0 "123456789ABCDEFGHJKLMNPQRSTUVWXYZabcdefghijkmnopqrstuvwxyz"%string.

Fixpoint base58_acc (acc : Z) (s : string) : Z :=
  match s with
  | EmptyString => acc
  | String c s' => base58_acc (acc * 58 + base58_digit c) s'
  end.

(** [declare_id!]: the key a base 58 literal denotes. *)
Definition declare_id (s : string) : Pubkey := base58_acc 0 s.

(** The numbers of 32 bytes. *)
Definition is_key (x : Z) : Prop := 0 <= x < 2 ^ 256.
#[export] Instance is_key_dec x : Decision (is_key x).
Proof. unfold is_key. apply _. Defined.

Definition Pubkey_default : Pubkey := 0.
Definition Hash_default : Hash := 0.

(** [as_ref]: the 32 bytes of a key, most significant first. *)
Definition byte_of_Z (x : Z) : byte := default x00 (Byte.of_N (Z.to_N (x mod 256))).
Definition byte_val (b : byte) : Z := Z.of_N (Byte.to_N b).
Definition key_bytes (k : Z) : list byte :=
  (λ i, byte_of_Z (Z.shiftr k (8 * Z.of_nat i))) <$> reverse (seq 0 32).

(** The SHA-256 digest is code of another crate: a parameter. *)
Class Sha256 := sha256 : list byte → Hash.

Definition hashv `{!Sha256} (vals : list (list byte)) : Hash := sha256 (concat vals).

Inductive PubkeyError : Type := PE_MaxSeedLengthExceeded | PE_InvalidSeeds | PE_IllegalOwner.

Definition MAX_SEED_LEN : nat := 32.
Definition PDA_MARKER : list byte := Eval vm_compute in String.list_byte_of_string "ProgramDerivedAddress".

(** [Pubkey::create_with_seed]; the seed is the UTF-8 bytes of the string. *)
Definition create_with_seed `{!Sha256} (base : Pubkey) (seed : list byte) (o : Pubkey)
    : res PubkeyError Pubkey :=
  if bool_decide (MAX_SEED_LEN < length seed)%nat then Err PE_MaxSeedLengthExceeded else
  let o := key_bytes o in
  if bool_decide (length PDA_MARKER <= length o)%nat &&
     bool_decide (drop (length o - length PDA_MARKER) o = PDA_MARKER)
  then Err PE_IllegalOwner
  else Ok (hashv [key_bytes base; seed; o]).

(** ** Errors *)

Inductive InstructionError : Type :=
| GenericError
| InvalidArgument
| InvalidInstructionData
| InvalidAccountData
| AccountDataTooSmall
| InsufficientFunds
| IncorrectProgramId
| MissingRequiredSignature
| AccountAlreadyInitialized
| UninitializedAccount
| UnbalancedInstruction
| ModifiedProgramId
| ExternalAccountLamportSpend
| ExternalAccountDataModified
| ReadonlyLamportChange
| ReadonlyDataModified
| DuplicateAccountIndex
| ExecutableModified
| RentEpochModified
| NotEnoughAccountKeys
| AccountDataSizeChanged
| AccountNotExecutable
| AccountBorrowFailed
| AccountBorrowOutstanding
| DuplicateAccountOutOfSync
| Custom (code : Z)
| InvalidError
| ExecutableDataModified
| ExecutableLamportChange
| ExecutableAccountNotRentExempt
| UnsupportedProgramId
| CallDepth
| MissingAccount
| ReentrancyNotAllowed
| MaxSeedLengthExceeded
| InvalidSeeds
| InvalidRealloc
| ComputationalBudgetExceeded
| PrivilegeEscalation
| ProgramEnvironmentSetupFailure
| ProgramFailedToComplete
| ProgramFailedToCompile
| Immutable
| IncorrectAuthority
| BorshIoError (msg : string)
| AccountNotRentExempt
| InvalidAccountOwner
| ArithmeticOverflow
| UnsupportedSysvar
| IllegalOwner.

#[export] Instance InstructionError_eq_dec : EqDecision InstructionError.
Proof. solve_decision. Defined.

(** The conversion of an error enum with [ToPrimitive]: its index. *)
Definition PubkeyError_into (e : PubkeyError) : InstructionError :=
  match e with
  | PE_MaxSeedLengthExceeded => Custom 0
  | PE_InvalidSeeds => Custom 1
  | PE_IllegalOwner => Custom 2
  end.

Inductive LamportsError : Type := LE_ArithmeticUnderflow | LE_ArithmeticOverflow.

Definition LamportsError_into (e : LamportsError) : InstructionError :=
  match e with
  | LE_ArithmeticOverflow => ArithmeticOverflow
  | LE_ArithmeticUnderflow => ArithmeticOverflow
  end.

(** ** Serialization

    [bincode_de] reads a value from the front of a slice and returns what is left;
    [bincode::deserialize] ignores the rest. *)

Class Codec (T : Type) := {
  bincode_ser : T → list byte;
  bincode_de : list byte → option (T * list byte);
}.

(** Values a Rust variable of the type can hold (integers in range). *)
Class Wf (T : Type) := wf : T → Prop.

(** The documented contract of [bincode]: what was written is read back, and
    only values of the type are read. *)
Class CodecOk (T : Type) `{!Codec T, !Wf T} : Prop := {
  bincode_roundtrip (x : T) (rest : list byte) :
    wf x → bincode_de (bincode_ser x ++ rest) = Some (x, rest);
  bincode_de_wf (d rest : list byte) (x : T) : bincode_de d = Some (x, rest) → wf x;
}.

Definition deserialize {T} `{!Codec T} (d : list byte) : option T :=
  fst <$> bincode_de d.

Definition PACKET_DATA_SIZE : nat := 1232.

Definition limited_deserialize {T} `{!Codec T} (d : list byte) : res InstructionError T :=
  match bincode_de d with
  | Some (x, rest) =>
      if bool_decide (length d - length rest <= PACKET_DATA_SIZE)%nat then Ok x
      else Err InvalidInstructionData
  | None => Err InvalidInstructionData
  end.

(** ** Accounts *)

Record Account : Type := mkAccount {
  lamports : Z;
  data : list byte;
  owner : Pubkey;
  executable : bool;
  rent_epoch : Z;
}.

#[export] Instance Account_eq_dec : EqDecision Account.
Proof. solve_decision. Defined.

Definition Account_default : Account := mkAccount 0 [] Pubkey_default false 0.

Definition set_lamports (l : Z) (a : Account) : Account :=
  mkAccount l (data a) (owner a) (executable a) (rent_epoch a).
Definition set_data (d : list byte) (a : Account) : Account :=
  mkAccount (lamports a) d (owner a) (executable a) (rent_epoch a).
Definition set_owner (o : Pubkey) (a : Account) : Account :=
  mkAccount (lamports a) (data a) o (executable a) (rent_epoch a).
Definition set_executable (b : bool) (a : Account) : Account :=
  mkAccount (lamports a) (data a) (owner a) b (rent_epoch a).
Definition set_rent_epoch (e : Z) (a : Account) : Account :=
  mkAccount (lamports a) (data a) (owner a) (executable a) e.

Definition checked_add_lamports (l : Z) (a : Account) : res LamportsError Account :=
  match checked_add64 (lamports a) l with
  | Some l' => Ok (set_lamports l' a)
  | None => Err LE_ArithmeticOverflow
  end.

Definition checked_sub_lamports (l : Z) (a : Account) : res LamportsError Account :=
  match checked_sub64 (lamports a) l with
  | Some l' => Ok (set_lamports l' a)
  | None => Err LE_ArithmeticUnderflow
  end.

Definition shared_new (l : Z) (space : nat) (o : Pubkey) : Account :=
  mkAccount l (replicate space x00) o false 0.

(** [StateMut::state] and [StateMut::set_state] *)
Definition account_state {T} `{!Codec T} (a : Account) : res InstructionError T :=
  ok_or (deserialize (data a)) InvalidAccountData.

Definition account_set_state {T} `{!Codec T} (x : T) (a : Account)
    : res InstructionError Account :=
  let bytes := bincode_ser x in
  if bool_decide (length (data a) < length bytes)%nat then Err AccountDataTooSmall
  else Ok (set_data (bytes ++ drop (length bytes) (data a)) a).

(** ** The store of account cells *)

Abbreviation Loc := nat (only parsing).
Abbreviation Store := (gmap nat Account) (only parsing).

(** The computations of the native programs. *)
Definition M (A : Type) : Type := ST (gmap nat Account) InstructionError A.

Record KeyedAccount : Type := mkKeyed {
  is_signer : bool;
  is_writable : bool;
  key : Pubkey;
  account : Loc;
}.

Definition signer_key (k : KeyedAccount) : option Pubkey :=
  if is_signer k then Some (key k) else None.
Definition unsigned_key (k : KeyedAccount) : Pubkey := key k.

(** Reading a cell.  A keyed account is a reference to an existing cell; a
    dangling location cannot arise from the source and is a panic. *)
Definition try_account_ref (k : KeyedAccount) : M Account := λ s,
  match s !! account k with
  | Some a => (s, Ok a)
  | None => (s, Panic)
  end.

(** Mutating a cell through [try_account_ref_mut]. *)
Definition update_account (k : KeyedAccount) (f : Account → res InstructionError Account)
    : M unit := λ s,
  match s !! account k with
  | Some a =>
      match f a with
      | Ok a' => (<[account k := a']> s, Ok tt)
      | Err e => (s, Err e)
      | Panic => (s, Panic)
      end
  | None => (s, Panic)
  end.

Definition ka_lamports (k : KeyedAccount) : M Z :=
  a ← try_account_ref k; mret (lamports a).
Definition ka_data_len (k : KeyedAccount) : M nat :=
  a ← try_account_ref k; mret (length (data a)).
Definition ka_data_is_empty (k : KeyedAccount) : M bool :=
  a ← try_account_ref k; mret (bool_decide (data a = [])).
Definition ka_owner (k : KeyedAccount) : M Pubkey :=
  a ← try_account_ref k; mret (owner a).

Definition ka_state (T : Type) `{!Codec T} (k : KeyedAccount) : M T :=
  a ← try_account_ref k; lift (account_state a).
Definition ka_set_state {T} `{!Codec T} (k : KeyedAccount) (x : T) : M unit :=
  update_account k (account_set_state x).

Definition ka_add_lamports (k : KeyedAccount) (l : Z) : M unit :=
  update_account k (λ a, map_err LamportsError_into (checked_add_lamports l a)).
Definition ka_sub_lamports (k : KeyedAccount) (l : Z) : M unit :=
  update_account k (λ a, map_err LamportsError_into (checked_sub_lamports l a)).

(** [get_signers] collects into a [HashSet]; only membership is observable. *)
Definition get_signers (ks : list KeyedAccount) : list Pubkey := omap signer_key ks.

Definition keyed_account_at_index (ks : list KeyedAccount) (i : nat) : M KeyedAccount :=
  lift (ok_or (ks !! i) NotEnoughAccountKeys).

(** ** Sysvars *)

Class SysvarId (T : Type) := sysvar_id : Pubkey.

Definition from_keyed_account (T : Type) `{!Codec T, !SysvarId T} (k : KeyedAccount) : M T :=
  ensureS (bool_decide (unsigned_key k = sysvar_id (T:=T))) InvalidArgument;;
  a ← try_account_ref k;
  lift (ok_or (deserialize (data a)) InvalidArgument).

(** ** Lemmas *)

Lemma byte_val_of_Z x : 0 <= x < 256 → byte_val (byte_of_Z x) = x.
Proof.
  intros Hx. assert (Hall : forallb (λ i, byte_val (byte_of_Z i) =? i) (seqZ 0 256) = true)
    by (vm_compute; reflexivity).
  rewrite forallb_forall in Hall. apply Z.eqb_eq, Hall, list_elem_of_In, elem_of_seqZ. lia.
Qed.

Lemma byte_val_mod x : byte_val (byte_of_Z x) = x mod 256.
Proof.
  rewrite <-(byte_val_of_Z (x mod 256)) by (apply Z.mod_pos_bound; lia).
  unfold byte_of_Z. by rewrite Zmod_mod.
Qed.

Lemma try_account_ref_inv k (s s' : gmap nat Account) r :
  try_account_ref k s = (s', r) ↔
  s' = s ∧ r = match s !! account k with Some a => Ok a | None => Panic end.
Proof. unfold try_account_ref. destruct (s !! account k); naive_solver. Qed.

Lemma try_account_ref_Ok k (s s' : gmap nat Account) a :
  try_account_ref k s = (s', Ok a) ↔ s' = s ∧ s !! account k = Some a.
Proof. unfold try_account_ref. destruct (s !! account k); naive_solver. Qed.

Lemma update_account_Ok k f (s s' : gmap nat Account) x :
  update_account k f s = (s', Ok x) ↔
  ∃ a a', s !! account k = Some a ∧ f a = Ok a' ∧ s' = <[account k := a']> s.
Proof.
  destruct x. unfold update_account. destruct (s !! account k) as [a|]; [|outcome].
  destruct (f a) eqn:?; outcome.
Qed.

Lemma update_account_Err k f (s s' : gmap nat Account) e :
  update_account k f s = (s', Err e) ↔
  s' = s ∧ ∃ a, s !! account k = Some a ∧ f a = Err e.
Proof.
  unfold update_account. destruct (s !! account k) as [a|]; [|outcome].
  destruct (f a) eqn:?; outcome.
Qed.

Lemma update_account_Panic k f (s s' : gmap nat Account) :
  update_account k f s = (s', Panic) ↔
  s' = s ∧ (s !! account k = None ∨ ∃ a, s !! account k = Some a ∧ f a = Panic).
Proof.
  unfold update_account. destruct (s !! account k) as [a|]; [|outcome].
  destruct (f a) eqn:?; outcome.
Qed.

Lemma ka_add_lamports_Ok k l (s s' : gmap nat Account) x :
  ka_add_lamports k l s = (s', Ok x) ↔
  ∃ a, s !! account k = Some a ∧ lamports a + l <= u64_max ∧
       s' = <[account k := set_lamports (lamports a + l) a]> s.
Proof.
  unfold ka_add_lamports, checked_add_lamports. rewrite update_account_Ok. split.
  - intros (a & a' & Ha & Hf & ->). exists a.
    destruct (checked_add64 _ _) eqn:E; cbn in Hf; [|done].
    apply checked_add64_Some in E as [-> ?]. naive_solver.
  - intros (a & Ha & Hl & ->). exists a, (set_lamports (lamports a + l) a).
    split_and!; [done| |done].
    by rewrite (proj2 (checked_add64_Some _ _ _) (conj eq_refl Hl)).
Qed.

Lemma ka_sub_lamports_Ok k l (s s' : gmap nat Account) x :
  ka_sub_lamports k l s = (s', Ok x) ↔
  ∃ a, s !! account k = Some a ∧ l <= lamports a ∧
       s' = <[account k := set_lamports (lamports a - l) a]> s.
Proof.
  unfold ka_sub_lamports, checked_sub_lamports. rewrite update_account_Ok. split.
  - intros (a & a' & Ha & Hf & ->). exists a.
    destruct (checked_sub64 _ _) eqn:E; cbn in Hf; [|done].
    apply checked_sub64_Some in E as [-> ?]. naive_solver.
  - intros (a & Ha & Hl & ->). exists a, (set_lamports (lamports a - l) a).
    split_and!; [done| |done].
    by rewrite (proj2 (checked_sub64_Some _ _ _) (conj eq_refl Hl)).
Qed.

Lemma ka_set_state_Ok {T} `{!Codec T} k (x : T) (s s' : gmap nat Account) u :
  ka_set_state k x s = (s', Ok u) ↔
  ∃ a, s !! account k = Some a ∧ (length (bincode_ser x) <= length (data a))%nat ∧
       s' = <[account k :=
              set_data (bincode_ser x ++ drop (length (bincode_ser x)) (data a)) a]> s.
Proof.
  unfold ka_set_state, account_set_state. rewrite update_account_Ok. split.
  - intros (a & a' & Ha & Hf & ->). exists a. case_bool_decide; [done|].
    split_and!; [done|lia|]. naive_solver.
  - intros (a & Ha & Hl & ->). eexists a, _. split_and!; [done| |done].
    by rewrite bool_decide_eq_false_2 by lia.
Qed.

Lemma ka_state_Ok {T} `{!Codec T} k (s s' : gmap nat Account) (x : T) :
  ka_state T k s = (s', Ok x) ↔
  s' = s ∧ ∃ a, s !! account k = Some a ∧ deserialize (data a) = Some x.
Proof.
  unfold ka_state. rewrite st_bind_Ok. split.
  - intros (s1 & a & H1 & H2). apply try_account_ref_inv in H1 as [-> Ha].
    destruct (s !! account k) as [a'|] eqn:E; simplify_eq.
    apply lift_inv in H2 as [-> H2]. symmetry in H2. apply ok_or_Ok in H2. eauto.
  - intros (-> & a & Ha & Hx). exists s, a. rewrite try_account_ref_inv, Ha.
    rewrite lift_inv. unfold account_state. by rewrite Hx.
Qed.

(** Writing a state and reading it back. *)
Lemma ka_set_state_state {T} `{!Codec T, !Wf T, !CodecOk T} k (x : T)
    (s s' : gmap nat Account) u :
  wf x → ka_set_state k x s = (s', Ok u) → ka_state T k s' = (s', Ok x).
Proof.
  intros Hwf (a & Ha & Hl & ->)%ka_set_state_Ok. apply ka_state_Ok.
  split; [done|]. eexists. split; [apply lookup_insert_eq|]. cbn.
  unfold deserialize. by rewrite bincode_roundtrip.
Qed.

Lemma deserialize_wf {T} `{!Codec T, !Wf T, !CodecOk T} (d : list byte) (x : T) :
  deserialize d = Some x → wf x.
Proof.
  unfold deserialize. destruct (bincode_de d) as [[y r]|] eqn:E; cbn; [|done]. intros [= <-].
  by eapply bincode_de_wf.
Qed.

Lemma ka_state_wf {T} `{!Codec T, !Wf T, !CodecOk T} k (s s' : gmap nat Account) (x : T) :
  ka_state T k s = (s', Ok x) → wf x.
Proof.
  intros (_ & a & _ & Hd)%ka_state_Ok. unfold deserialize in Hd.
  destruct (bincode_de (data a)) as [[y r]|] eqn:E; cbn in Hd; simplify_eq.
  by eapply bincode_de_wf.
Qed.

Lemma from_keyed_account_wf {T} `{!Codec T, !Wf T, !CodecOk T, !SysvarId T} k
    (s s' : gmap nat Account) (x : T) :
  from_keyed_account T k s = (s', Ok x) → s' = s ∧ wf x.
Proof.
  unfold from_keyed_account. intros H. st_inv.
  match goal with H : try_account_ref _ _ = _ |- _ =>
    apply try_account_ref_inv in H as [-> Ha] end.
  split; [done|]. st_inv. unfold deserialize in *.
  destruct (bincode_de _) as [[y r]|] eqn:E; simplify_eq/=. by eapply bincode_de_wf.
Qed.

(** ** Total lamports of a store *)

Definition total_lamports (s : gmap nat Account) : Z :=
  map_fold (λ _ a n, lamports a + n) 0 s.

Lemma total_lamports_delete (s : gmap nat Account) l a :
  s !! l = Some a → total_lamports s = lamports a + total_lamports (delete l s).
Proof.
  intros Ha. unfold total_lamports.
  apply (map_fold_delete_L (λ _ a n, lamports a + n) 0 l a); [|done]. intros. lia.
Qed.

Lemma total_lamports_insert (s : gmap nat Account) l a a' :
  s !! l = Some a →
  total_lamports (<[l := a']> s) = total_lamports s - lamports a + lamports a'.
Proof.
  intros Ha.
  rewrite (total_lamports_delete (<[l := a']> s) l a') by apply lookup_insert_eq.
  rewrite (total_lamports_delete s l a Ha), delete_insert_eq. lia.
Qed.

(** A cell update that keeps the balance keeps the total. *)
Lemma total_lamports_same (s : gmap nat Account) l a a' :
  s !! l = Some a → lamports a' = lamports a →
  total_lamports (<[l := a']> s) = total_lamports s.
Proof. intros Ha Hl. rewrite (total_lamports_insert s l a a' Ha). lia. Qed.

Lemma ka_set_state_total {T} `{!Codec T} k (x : T) (s s' : gmap nat Account) u :
  ka_set_state k x s = (s', Ok u) → total_lamports s' = total_lamports s.
Proof. intros (a & Ha & _ & ->)%ka_set_state_Ok. by eapply total_lamports_same. Qed.

(** Debiting one cell and crediting another (or the same) conserves lamports. *)
Lemma transfer_total k1 k2 l (s1 s2 s3 : gmap nat Account) x y :
  ka_sub_lamports k1 l s1 = (s2, Ok x) → ka_add_lamports k2 l s2 = (s3, Ok y) →
  total_lamports s3 = total_lamports s1.
Proof.
  intros (a & Ha & _ & ->)%ka_sub_lamports_Ok (b & Hb & _ & ->)%ka_add_lamports_Ok.
  rewrite (total_lamports_insert _ _ _ _ Hb), (total_lamports_insert _ _ _ _ Ha). cbn. lia.
Qed.

(** ** Reading accounts *)

Lemma limited_deserialize_wf {T} `{!Codec T, !Wf T, !CodecOk T} (d : list byte) (x : T) :
  limited_deserialize d = Ok x → wf x.
Proof.
  unfold limited_deserialize. destruct (bincode_de d) as [[y r]|] eqn:E; [|done].
  case_bool_decide; [|done]. intros [= ->]. by eapply bincode_de_wf.
Qed.

Lemma keyed_account_at_index_Ok ks i (s s' : gmap nat Account) k :
  keyed_account_at_index ks i s = (s', Ok k) ↔ s' = s ∧ ks !! i = Some k.
Proof.
  unfold keyed_account_at_index. rewrite lift_inv. split.
  - intros [-> H]. symmetry in H. by apply ok_or_Ok in H.
  - intros [-> ->]. done.
Qed.

Lemma signer_key_Some k p : signer_key k = Some p ↔ is_signer k = true ∧ key k = p.
Proof. unfold signer_key. destruct (is_signer k); naive_solver. Qed.

Lemma ka_owner_Ok k (s s' : gmap nat Account) o :
  ka_owner k s = (s', Ok o) ↔ s' = s ∧ ∃ a, s !! account k = Some a ∧ o = owner a.
Proof.
  unfold ka_owner. rewrite st_bind_Ok. split.
  - intros (s1 & a & [-> H]%try_account_ref_inv & H2). st_inv.
    destruct (s' !! account k); naive_solver.
  - intros (-> & a & Ha & ->). exists s, a. rewrite try_account_ref_inv, Ha. done.
Qed.

Lemma ka_lamports_Ok k (s s' : gmap nat Account) o :
  ka_lamports k s = (s', Ok o) ↔ s' = s ∧ ∃ a, s !! account k = Some a ∧ o = lamports a.
Proof.
  unfold ka_lamports. rewrite st_bind_Ok. split.
  - intros (s1 & a & [-> H]%try_account_ref_inv & H2). st_inv.
    destruct (s' !! account k); naive_solver.
  - intros (-> & a & Ha & ->). exists s, a. rewrite try_account_ref_inv, Ha. done.
Qed.

Lemma ka_data_len_Ok k (s s' : gmap nat Account) o :
  ka_data_len k s = (s', Ok o) ↔ s' = s ∧ ∃ a, s !! account k = Some a ∧ o = length (data a).
Proof.
  unfold ka_data_len. rewrite st_bind_Ok. split.
  - intros (s1 & a & [-> H]%try_account_ref_inv & H2). st_inv.
    destruct (s' !! account k); naive_solver.
  - intros (-> & a & Ha & ->). exists s, a. rewrite try_account_ref_inv, Ha. done.
Qed.

Lemma from_keyed_account_same {T} `{!Codec T, !SysvarId T} k (s s' : gmap nat Account) (x : T) :
  from_keyed_account T k s = (s', Ok x) → s' = s.
Proof.
  unfold from_keyed_account. intros H. st_inv.
  match goal with H : try_account_ref _ _ = _ |- _ => by apply try_account_ref_inv in H as [-> _] end.
Qed.

(** Reads leave the store alone. *)
Ltac acc_step :=
  match goal with
  | H : keyed_account_at_index _ _ _ = (_, Ok _) |- _ =>
      apply keyed_account_at_index_Ok in H as [? ?]; subst
  | H : try_account_ref _ _ = (_, Ok _) |- _ => apply try_account_ref_Ok in H as [? ?]; subst
  | H : ka_owner _ _ = (_, Ok _) |- _ => apply ka_owner_Ok in H as (? & ? & ? & ?); subst
  | H : ka_lamports _ _ = (_, Ok _) |- _ => apply ka_lamports_Ok in H as (? & ? & ? & ?); subst
  | H : ka_data_len _ _ = (_, Ok _) |- _ => apply ka_data_len_Ok in H as (? & ? & ? & ?); subst
  end.
Ltac acc_inv := repeat first [st_step; cbn beta in * | acc_step].

(** ** Invocation context

    What the native programs read of [InvokeContext]: the keyed accounts of
    the frame and the active features. *)

Record InvokeContext : Type := mkInvokeContext {
  get_keyed_accounts : list KeyedAccount;
  is_feature_active : Pubkey → bool;
  get_sysvar_data : Pubkey → option (list byte);
}.

Definition get_sysvar {T} `{!Codec T} (ic : InvokeContext) (i : Pubkey)
    : res InstructionError T :=
  match get_sysvar_data ic i with
  | None => Err UnsupportedSysvar
  | Some sysvar_data => ok_or (deserialize sysvar_data) UnsupportedSysvar
  end.

(** [checked_add] of [sdk/program/src/instruction.rs]. *)
Definition checked_add (a b : Z) : res InstructionError Z :=
  ok_or (checked_add64 a b) InsufficientFunds.
