(* ===== verification/Serial.v ===== *)
(** * A concrete codec

    [bincode] is a parameter of the models ([Account.Codec]).  The examples
    that instantiate it use the format of this file: an integer as its digits
    in base 128, low ones first, the last one below 128; sequences with their
    length in front; variants with a tag in front. *)

From S2P Require Import Prelude Account.
From Stdlib Require Import Strings.Byte.

Fixpoint digits_ser (fuel : nat) (n : Z) : list byte :=
  match fuel with
  | O => []
  | S fuel' =>
      if n <? 128 then [byte_of_Z n]
      else byte_of_Z (128 + n mod 128) :: digits_ser fuel' (n / 128)
  end.

Fixpoint digits_de (l : list byte) : option (Z * list byte) :=
  match l with
  | [] => None
  | b :: l' =>
      let v := byte_val b in
      if v <? 128 then Some (v, l')
      else match digits_de l' with
           | Some (n, r) => Some (v - 128 + 128 * n, r)
           | None => None
           end
  end.

Lemma digits_roundtrip fuel n rest :
  (0 < fuel)%nat → 0 <= n < 128 ^ Z.of_nat fuel → digits_de (digits_ser fuel n ++ rest) = Some (n, rest).
Proof.
  revert n. induction fuel as [|fuel IH]; intros n Hf Hn; [lia|].
  cbn [digits_ser]. destruct (Z.ltb_spec n 128).
  - cbn [app digits_de]. rewrite byte_val_of_Z by lia. destruct (Z.ltb_spec n 128); [done|lia].
  - pose proof (Z.mod_pos_bound n 128 ltac:(lia)). cbn [app digits_de].
    rewrite byte_val_of_Z by lia. destruct (Z.ltb_spec (128 + n mod 128) 128); [lia|].
    rewrite IH.
    + f_equal. f_equal. pose proof (Z.div_mod n 128 ltac:(lia)). lia.
    + destruct fuel; [cbn in Hn|]; lia.
    + rewrite Nat2Z.inj_succ, Z.pow_succ_r in Hn by lia.
      split; [apply Z.div_pos; lia|]. apply Z.div_lt_upper_bound; lia.
Qed.

Lemma size_nat_bound p : Z.pos p < 128 ^ Z.of_nat (Pos.size_nat p).
Proof.
  induction p as [p IH|p IH|]; cbn [Pos.size_nat]; [| |done];
    rewrite Nat2Z.inj_succ, Z.pow_succ_r by lia; lia.
Qed.

(** Values with a self-delimiting encoding. *)
Class Serial (T : Type) := {
  ser : T → list byte;
  de : list byte → option (T * list byte);
  de_ser (x : T) (rest : list byte) : de (ser x ++ rest) = Some (x, rest);
}.

(** The codec of a type: what is read is checked to be a value of the type. *)
Definition serial_codec (T : Type) `{!Serial T, !Wf T, !∀ x : T, Decision (wf x)} : Codec T := {|
  bincode_ser := ser;
  bincode_de l := '(x, r) ← de l; if decide (wf x) then Some (x, r) else None;
|}.

Lemma serial_codec_ok (T : Type) `{!Serial T, !Wf T, !∀ x : T, Decision (wf x)} :
  @CodecOk T (serial_codec T) _.
Proof.
  split.
  - intros x rest Hx. cbn. rewrite de_ser. cbn. by rewrite decide_True.
  - intros d rest x. cbn. destruct (de d) as [[y r]|]; cbn; [|done]. case_decide; naive_solver.
Qed.

(** ** Instances *)

Definition N_ser (n : N) : list byte := digits_ser (S (N.size_nat n)) (Z.of_N n).
Definition N_de (l : list byte) : option (N * list byte) :=
  '(n, r) ← digits_de l; Some (Z.to_N n, r).

Lemma N_de_ser n rest : N_de (N_ser n ++ rest) = Some (n, rest).
Proof.
  unfold N_de, N_ser. rewrite digits_roundtrip; [cbn; by rewrite N2Z.id|lia|].
  rewrite Nat2Z.inj_succ, Z.pow_succ_r by lia. destruct n as [|p]; [cbn; lia|].
  pose proof (size_nat_bound p). cbn [N.size_nat Z.of_N]. lia.
Qed.

#[export] Instance N_serial : Serial N := {| ser := N_ser; de := N_de; de_ser := N_de_ser |}.

Definition inj_serial {A B} `{!Serial A} (f : B → A) (g : A → option B)
    (fg : ∀ x, g (f x) = Some x) : Serial B.
Proof.
  refine {| ser x := ser (f x); de l := '(a, r) ← de (T:=A) l; b ← g a; Some (b, r) |}.
  abstract (intros x rest; rewrite de_ser; cbn; by rewrite fg).
Defined.

Definition inj_serial' {A B} `{!Serial A} (f : B → A) (g : A → B) (fg : ∀ x, g (f x) = x) : Serial B.
Proof. refine (inj_serial f (λ a, Some (g a)) _). abstract (intros x; by rewrite fg). Defined.

#[export] Instance nat_serial : Serial nat := inj_serial' N.of_nat N.to_nat Nat2N.id.
#[export] Instance byte_serial : Serial byte := inj_serial Byte.to_N Byte.of_N Byte.of_to_N.
#[export] Instance unit_serial : Serial unit := {| ser _ := []; de l := Some (tt, l); de_ser 'tt _ := eq_refl |}.
#[export] Instance bool_serial : Serial bool.
Proof. refine (inj_serial' (λ b : bool, if b then 1%N else 0%N) (N.eqb 1) _). abstract (by intros []). Defined.

(** A sign in the lowest digit. *)
Definition zig (z : Z) : N := if 0 <=? z then Z.to_N (2 * z) else Z.to_N (- 2 * z - 1).
Definition zag (n : N) : Z := if N.even n then Z.of_N (n / 2) else - Z.of_N (n / 2) - 1.

Lemma zag_zig z : zag (zig z) = z.
Proof.
  unfold zag, zig. destruct (Z.leb_spec 0 z).
  - replace (Z.to_N (2 * z)) with (2 * Z.to_N z)%N by lia.
    rewrite N.even_mul. cbn [N.even orb]. rewrite N.mul_comm, N.div_mul by lia. lia.
  - replace (Z.to_N (-2 * z - 1)) with (2 * Z.to_N (- z - 1) + 1)%N by lia.
    rewrite N.even_add, N.even_mul. cbn [N.even orb].
    replace ((2 * Z.to_N (- z - 1) + 1) / 2)%N with (Z.to_N (- z - 1)); [cbn; lia|].
    apply (N.div_unique _ _ _ 1); lia.
Qed.

#[export] Instance Z_serial : Serial Z := inj_serial' zig zag zag_zig.

#[export] Instance prod_serial {A B} `{!Serial A, !Serial B} : Serial (A * B).
Proof.
  refine {| ser x := ser x.1 ++ ser x.2;
            de l := '(a, r) ← de (T:=A) l; '(b, r') ← de (T:=B) r; Some ((a, b), r') |}.
  abstract (intros [a b] rest; cbn; by rewrite <-app_assoc, de_ser; cbn; rewrite de_ser).
Defined.

#[export] Instance sum_serial {A B} `{!Serial A, !Serial B} : Serial (A + B).
Proof.
  refine {| ser x := match x with inl a => x00 :: ser a | inr b => x01 :: ser b end;
            de l := match l with
                    | x00 :: l' => '(a, r) ← de (T:=A) l'; Some (inl a, r)
                    | x01 :: l' => '(b, r) ← de (T:=B) l'; Some (inr b, r)
                    | _ => None
                    end |}.
  abstract (intros [a|b] rest; cbn; by rewrite de_ser).
Defined.

#[export] Instance option_serial {A} `{!Serial A} : Serial (option A).
Proof.
  refine {| ser x := match x with None => [x00] | Some a => x01 :: ser a end;
            de l := match l with
                    | x00 :: l' => Some (None, l')
                    | x01 :: l' => '(a, r) ← de (T:=A) l'; Some (Some a, r)
                    | _ => None
                    end |}.
  abstract (intros [a|] rest; cbn; [by rewrite de_ser|done]).
Defined.

Fixpoint des {A} `{!Serial A} (n : nat) (l : list byte) : option (list A * list byte) :=
  match n with
  | O => Some ([], l)
  | S n' => '(a, r) ← de (T:=A) l; '(b, r') ← des (A:=A) n' r; Some (a :: b, r')
  end.

Lemma des_ser {A} `{!Serial A} (xs : list A) rest :
  des (length xs) (concat (ser <$> xs) ++ rest) = Some (xs, rest).
Proof.
  induction xs as [|x xs IH]; [done|]. cbn. rewrite <-app_assoc, de_ser. cbn. by rewrite IH.
Qed.

#[export] Instance list_serial {A} `{!Serial A} : Serial (list A).
Proof.
  refine {| ser xs := ser (length xs) ++ concat (ser <$> xs); de l := '(n, r) ← de (T:=nat) l; des n r |}.
  abstract (intros xs rest; rewrite <-app_assoc, de_ser; cbn; apply des_ser).
Defined.
