(* ===== verification/ShortVec.v ===== *)
(** * Compact lengths

    Models [sdk/program/src/short_vec.rs]: 16-bit lengths in one to three bytes
    and vectors behind such a length, as the messages on the wire have them.
    The elements are read and written by the codec of their type.  Every length
    has one encoding, and decoding accepts nothing else. *)

From S2P Require Import Prelude Account Serial.
From Stdlib Require Import Strings.Byte.

Module short_vec.

Definition u16_max : Z := 2 ^ 16 - 1.
Definition is_u16 (x : Z) : Prop := 0 <= x <= u16_max.

Inductive VisitStatus : Type := Done (v : Z) | More (v : Z).

Inductive VisitError : Type :=
  | TooLong (n : nat)
  | TooShort (n : nat)
  | Overflow (v : Z)
  | Alias
  | ByteThreeContinues.

Definition MAX_ENCODING_LENGTH : nat := 3.

(** The bytes of a length; three rounds shift out every 16-bit value. *)
Fixpoint short_u16_loop (fuel : nat) (rem_val : Z) : list byte :=
  match fuel with
  | 0%nat => []
  | S fuel' =>
      let elem := Z.land rem_val 0x7f in
      let rem_val := Z.shiftr rem_val 7 in
      if rem_val =? 0 then [byte_of_Z elem]
      else byte_of_Z (Z.lor elem 0x80) :: short_u16_loop fuel' rem_val
  end.

Definition ShortU16_serialize (v : Z) : list byte := short_u16_loop MAX_ENCODING_LENGTH v.

Definition visit_byte (elem val : Z) (nth_byte : nat) : res VisitError VisitStatus :=
  if (elem =? 0) && negb (bool_decide (nth_byte = 0%nat)) then Err Alias
  else
    let elem_val := Z.land elem 0x7f in
    let elem_done := Z.land elem 0x80 =? 0 in
    if bool_decide (MAX_ENCODING_LENGTH ≤ nth_byte)%nat then Err (TooLong (S nth_byte))
    else if bool_decide (nth_byte = MAX_ENCODING_LENGTH - 1)%nat && negb elem_done then Err ByteThreeContinues
    else
      let shift := Z.min (Z.of_nat nth_byte * 7) u32_max in
      let elem_val := if shift <? 32 then wrap32 (Z.shiftl elem_val shift) else u32_max in
      let new_val := Z.lor val elem_val in
      if new_val <=? u16_max
      then Ok (if elem_done then Done new_val else More new_val)
      else Err (Overflow new_val).

(** [ShortU16Visitor::visit_seq], on the bytes still to be read; [left] rounds
    are left. *)
Fixpoint visit_loop (left nth_byte : nat) (val : Z) (bytes : list byte) : res VisitError (Z * list byte) :=
  match left with
  | 0%nat => Err ByteThreeContinues
  | S left' =>
      match bytes with
      | [] => Err (TooShort (S nth_byte))
      | elem :: bytes' =>
          status ← visit_byte (byte_val elem) val nth_byte;
          match status with
          | Done new_val => Ok (new_val, bytes')
          | More new_val => visit_loop left' (S nth_byte) new_val bytes'
          end
      end
  end.

Definition ShortU16_deserialize (bytes : list byte) : res VisitError (Z * list byte) :=
  visit_loop MAX_ENCODING_LENGTH 0 0 bytes.

(** The value and how many bytes it took. *)
Fixpoint decode_loop (bytes : list byte) (nth_byte : nat) (val : Z) : res unit (Z * nat) :=
  match bytes with
  | [] => Err tt
  | b :: bytes' =>
      status ← map_err (λ _, tt) (visit_byte (byte_val b) val nth_byte);
      match status with
      | More new_val => decode_loop bytes' (S nth_byte) new_val
      | Done new_val => Ok (new_val, S nth_byte)
      end
  end.

Definition decode_shortu16_len (bytes : list byte) : res unit (Z * nat) :=
  decode_loop (take MAX_ENCODING_LENGTH bytes) 0 0.

(** Vectors behind a compact length. *)
Inductive ShortVecError : Type :=
  | LengthLargerThanU16
  | Length (e : VisitError)
  | Element (i : nat).

Section vec.
Context {T : Type} `{!Codec T}.

Definition serialize (elements : list T) : res ShortVecError (list byte) :=
  let len := Z.of_nat (length elements) in
  if u16_max <? len then Err LengthLargerThanU16
  else Ok (ShortU16_serialize len ++ concat (bincode_ser <$> elements)).

Fixpoint visit_elements (left i : nat) (bytes : list byte) : res ShortVecError (list T * list byte) :=
  match left with
  | 0%nat => Ok ([], bytes)
  | S left' =>
      match bincode_de bytes with
      | None => Err (Element i)
      | Some (elem, bytes') =>
          x ← visit_elements left' (S i) bytes';
          Ok (elem :: x.1, x.2)
      end
  end.

Definition deserialize_vec (bytes : list byte) : res ShortVecError (list T * list byte) :=
  short_len ← map_err Length (ShortU16_deserialize bytes);
  visit_elements (Z.to_nat short_len.1) 0 short_len.2.
End vec.

(** ** Bytes *)

Lemma byte_val_range b : 0 <= byte_val b < 256.
Proof. by destruct b. Qed.

Lemma byte_of_val b : byte_of_Z (byte_val b) = b.
Proof. by destruct b. Qed.

Lemma land_7f e : Z.land e 0x7f = e mod 128.
Proof. change 0x7f with (Z.ones 7). by rewrite Z.land_ones by lia. Qed.

Lemma land_80 e : 0 <= e < 256 → (Z.land e 0x80 =? 0) = (e <? 128).
Proof.
  intros He. assert (H : forallb (λ e, Bool.eqb (Z.land e 0x80 =? 0) (e <? 128)) (seqZ 0 256) = true) by (vm_compute; reflexivity).
  rewrite forallb_forall in H. apply Bool.eqb_prop, H, list_elem_of_In, elem_of_seqZ. lia.
Qed.

Lemma lor_80 e : 0 <= e < 128 → Z.lor e 0x80 = e + 128.
Proof.
  intros He. assert (H : forallb (λ e, Z.lor e 0x80 =? e + 128) (seqZ 0 128) = true) by (vm_compute; reflexivity).
  rewrite forallb_forall in H. apply Z.eqb_eq, H, list_elem_of_In, elem_of_seqZ. lia.
Qed.

(** Bits above those of [x]. *)
Lemma lor_shiftl x y n : 0 <= n → 0 <= x < 2 ^ n → Z.lor x (Z.shiftl y n) = x + y * 2 ^ n.
Proof.
  intros Hn Hx. assert (Hland : Z.land x (Z.shiftl y n) = 0).
  { apply Z.bits_inj'. intros i Hi. rewrite Z.land_spec, Z.bits_0, Z.shiftl_spec by done. destruct (Z.ltb_spec i n).
    - rewrite (Z.testbit_neg_r y (i - n)) by lia. by rewrite andb_false_r.
    - rewrite <-(Z.mod_small x (2 ^ n)) by done. by rewrite Z.mod_pow2_bits_high by lia. }
  by rewrite <-Z.shiftl_mul_pow2, Z.add_nocarry_lxor, Z.lxor_lor.
Qed.

(** ** The encoding *)

Lemma visit_byte_spec e val (nth_byte : nat) :
  0 <= e < 256 → (nth_byte < 3)%nat → 0 <= val < 2 ^ (Z.of_nat nth_byte * 7) →
  visit_byte e val nth_byte =
  if (e =? 0) && negb (bool_decide (nth_byte = 0%nat)) then Err Alias
  else if bool_decide (nth_byte = 2%nat) && (128 <=? e) then Err ByteThreeContinues
  else
    let new_val := val + e mod 128 * 2 ^ (Z.of_nat nth_byte * 7) in
    if new_val <=? u16_max then Ok (if e <? 128 then Done new_val else More new_val) else Err (Overflow new_val).
Proof.
  intros He Hn Hv. unfold visit_byte, MAX_ENCODING_LENGTH. rewrite land_7f, land_80 by done.
  rewrite (bool_decide_eq_false_2 (3 ≤ nth_byte)%nat) by lia. change (3 - 1)%nat with 2%nat.
  rewrite <-Z.leb_antisym, Z.min_l by (unfold u32_max; lia).
  rewrite (proj2 (Z.ltb_lt (Z.of_nat nth_byte * 7) 32)) by lia.
  assert (Hw : wrap32 (Z.shiftl (e mod 128) (Z.of_nat nth_byte * 7)) = Z.shiftl (e mod 128) (Z.of_nat nth_byte * 7)).
  { apply Z.mod_small. rewrite Z.shiftl_mul_pow2 by lia. pose proof (Z.mod_pos_bound e 128).
    assert (2 ^ (Z.of_nat nth_byte * 7) <= 2 ^ 14) by (apply Z.pow_le_mono_r; lia).
    assert (0 < 2 ^ (Z.of_nat nth_byte * 7)) by lia. nia. }
  by rewrite Hw, lor_shiftl by lia.
Qed.

#[local] Ltac Zify.zify_post_hook ::= Z.to_euclidean_division_equations.

(** The encoding written out. *)
Lemma serialize_spec v :
  is_u16 v →
  ShortU16_serialize v =
  if v <? 128 then [byte_of_Z v]
  else if v <? 16384 then [byte_of_Z (v mod 128 + 128); byte_of_Z (v / 128)]
  else [byte_of_Z (v mod 128 + 128); byte_of_Z ((v / 128) mod 128 + 128); byte_of_Z (v / 16384)].
Proof.
  unfold is_u16, u16_max. intros Hv. unfold ShortU16_serialize. cbn [short_u16_loop MAX_ENCODING_LENGTH].
  rewrite !land_7f, !Z.shiftr_div_pow2 by lia. change (2 ^ 7) with 128. rewrite !Z.div_div by lia. change (128 * 128) with 16384.
  pose proof (Z.mod_pos_bound v 128). pose proof (Z.mod_pos_bound (v / 128) 128). rewrite !lor_80 by lia.
  destruct (Z.ltb_spec v 128).
  { rewrite (Z.div_small v 128) by lia. cbn. by rewrite Z.mod_small by lia. }
  destruct (Z.eqb_spec (v / 128) 0); [lia|]. destruct (Z.ltb_spec v 16384).
  - rewrite (Z.div_small v 16384) by lia. cbn. by rewrite (Z.mod_small (v / 128)) by lia.
  - destruct (Z.eqb_spec (v / 16384) 0); [lia|]. rewrite (Z.div_small v (16384 * 128)) by lia. cbn.
    by rewrite (Z.mod_small (v / 16384)) by lia.
Qed.

(** ** Reading it back *)

Lemma deserialize_spec bs :
  ShortU16_deserialize bs =
  match bs with
  | [] => Err (TooShort 1)
  | b0 :: r0 =>
      if byte_val b0 <? 128 then Ok (byte_val b0, r0)
      else match r0 with
      | [] => Err (TooShort 2)
      | b1 :: r1 =>
          if byte_val b1 =? 0 then Err Alias
          else if byte_val b1 <? 128 then Ok (byte_val b0 - 128 + byte_val b1 * 128, r1)
          else match r1 with
          | [] => Err (TooShort 3)
          | b2 :: r2 =>
              let v := byte_val b0 - 128 + (byte_val b1 - 128) * 128 + byte_val b2 * 16384 in
              if byte_val b2 =? 0 then Err Alias
              else if 128 <=? byte_val b2 then Err ByteThreeContinues
              else if v <=? u16_max then Ok (v, r2) else Err (Overflow v)
          end
      end
  end.
Proof.
  unfold ShortU16_deserialize, MAX_ENCODING_LENGTH. destruct bs as [|b0 r0]; [done|]. cbn [visit_loop].
  pose proof (byte_val_range b0). rewrite visit_byte_spec by (cbn; lia). change (2 ^ (Z.of_nat 0 * 7)) with 1.
  rewrite bool_decide_eq_true_2, bool_decide_eq_false_2, andb_false_r by done. cbn [andb].
  rewrite (proj2 (Z.leb_le _ u16_max)) by (unfold u16_max; lia). destruct (Z.ltb_spec (byte_val b0) 128); cbn [mbind res_bind].
  { do 2 f_equal. lia. }
  destruct r0 as [|b1 r1]; [done|]. cbn [visit_loop]. pose proof (byte_val_range b1).
  rewrite visit_byte_spec by (cbn; lia). change (2 ^ (Z.of_nat 1 * 7)) with 128.
  rewrite bool_decide_eq_false_2, (bool_decide_eq_false_2 (1%nat = 2%nat)), andb_true_r by done. cbn [andb].
  destruct (Z.eqb_spec (byte_val b1) 0); [done|].
  rewrite (proj2 (Z.leb_le _ u16_max)) by (unfold u16_max; lia). destruct (Z.ltb_spec (byte_val b1) 128); cbn [mbind res_bind].
  { do 2 f_equal. lia. }
  destruct r1 as [|b2 r2]; [done|]. cbn [visit_loop]. pose proof (byte_val_range b2).
  rewrite visit_byte_spec by (cbn; lia). change (2 ^ (Z.of_nat 2 * 7)) with 16384.
  rewrite bool_decide_eq_false_2, (bool_decide_eq_true_2 (2%nat = 2%nat)), andb_true_r by done. cbn [andb].
  destruct (Z.eqb_spec (byte_val b2) 0); [done|]. destruct (Z.leb_spec 128 (byte_val b2)); [done|].
  rewrite (proj2 (Z.ltb_lt (byte_val b2) 128)) by done.
  replace (0 + byte_val b0 mod 128 * 1 + byte_val b1 mod 128 * 128 + byte_val b2 mod 128 * 16384)
    with (byte_val b0 - 128 + (byte_val b1 - 128) * 128 + byte_val b2 * 16384) by lia.
  by destruct (_ <=? u16_max).
Qed.

Lemma deserialize_serialize v rest :
  is_u16 v → ShortU16_deserialize (ShortU16_serialize v ++ rest) = Ok (v, rest).
Proof.
  intros Hv. rewrite deserialize_spec, serialize_spec by done. unfold is_u16, u16_max in *.
  destruct (Z.ltb_spec v 128); [|destruct (Z.ltb_spec v 16384)]; cbn [app]; rewrite !byte_val_of_Z by lia.
  - by rewrite (proj2 (Z.ltb_lt v 128)).
  - rewrite (proj2 (Z.ltb_ge _ 128)), (proj2 (Z.eqb_neq _ 0)), (proj2 (Z.ltb_lt _ 128)) by lia. do 2 f_equal. lia.
  - rewrite (proj2 (Z.ltb_ge _ 128)), (proj2 (Z.eqb_neq _ 0)), (proj2 (Z.ltb_ge _ 128)), (proj2 (Z.eqb_neq _ 0)),
      (proj2 (Z.leb_gt 128 _)), (proj2 (Z.leb_le _ _)) by lia. do 2 f_equal. lia.
Qed.

Lemma deserialize_canonical bs v rest :
  ShortU16_deserialize bs = Ok (v, rest) → is_u16 v ∧ bs = ShortU16_serialize v ++ rest.
Proof.
  rewrite deserialize_spec. destruct bs as [|b0 r0]; [done|]. pose proof (byte_val_range b0).
  destruct (Z.ltb_spec (byte_val b0) 128).
  { intros [= <- <-]. assert (Hv : is_u16 (byte_val b0)) by (unfold is_u16, u16_max; lia). split; [done|].
    rewrite <-(byte_of_val b0) at 1. by rewrite serialize_spec, (proj2 (Z.ltb_lt _ 128)). }
  destruct r0 as [|b1 r1]; [done|]. pose proof (byte_val_range b1).
  destruct (Z.eqb_spec (byte_val b1) 0); [done|]. destruct (Z.ltb_spec (byte_val b1) 128).
  { intros [= <- <-]. set (v := byte_val b0 - 128 + byte_val b1 * 128). assert (Hv : is_u16 v) by (unfold is_u16, u16_max; lia).
    split; [done|]. rewrite <-(byte_of_val b0), <-(byte_of_val b1) at 1.
    rewrite serialize_spec, (proj2 (Z.ltb_ge _ 128)), (proj2 (Z.ltb_lt _ 16384)) by (done || lia).
    cbn [app]. repeat f_equal; lia. }
  destruct r1 as [|b2 r2]; [done|]. pose proof (byte_val_range b2).
  set (v' := byte_val b0 - 128 + (byte_val b1 - 128) * 128 + byte_val b2 * 16384).
  destruct (Z.eqb_spec (byte_val b2) 0); [done|]. destruct (Z.leb_spec 128 (byte_val b2)); [done|].
  cbv zeta. destruct (Z.leb_spec v' u16_max); [|done]. intros [= <- <-]. assert (Hv : is_u16 v') by (unfold is_u16; lia). split; [done|].
  rewrite <-(byte_of_val b0), <-(byte_of_val b1), <-(byte_of_val b2) at 1.
  rewrite serialize_spec, (proj2 (Z.ltb_ge _ 128)), (proj2 (Z.ltb_ge _ 16384)) by (done || lia).
  cbn [app]. repeat f_equal; lia.
Qed.

(** [decode_shortu16_len] agrees with the visitor. *)
Lemma decode_loop_visit (left : nat) bytes nth_byte val :
  decode_loop (take left bytes) nth_byte val =
  match visit_loop left nth_byte val bytes with
  | Ok (v, rest) => Ok (v, nth_byte + (length bytes - length rest))%nat
  | Err _ => Err tt
  | Panic => Panic
  end.
Proof.
  revert bytes nth_byte val. induction left as [|left IH]; intros bytes nth_byte val; [done|].
  destruct bytes as [|b bytes]; [done|]. cbn [take decode_loop visit_loop].
  destruct (visit_byte (byte_val b) val nth_byte) as [[v|v]|e|]; cbn [map_err mbind res_bind]; [|rewrite IH|done..].
  - do 2 f_equal. cbn. lia.
  - assert (Hlen : ∀ left nth val bs v rest, visit_loop left nth val bs = Ok (v, rest) → (length rest ≤ length bs)%nat).
    { clear. induction left as [|left IH]; [done|]. intros nth val bs v rest. destruct bs as [|b bs]; [done|]. cbn.
      destruct (visit_byte (byte_val b) val nth) as [[w|w]|e|]; cbn; [by intros [= _ <-]; lia|intros H%IH; lia|done..]. }
    destruct (visit_loop left (S nth_byte) v bytes) as [[w rest]|e|] eqn:Hl; [|done..].
    apply Hlen in Hl. do 2 f_equal. cbn. lia.
Qed.

(** ** Vectors *)

Section vectors.
Context {T : Type} `{!Codec T, !Wf T, !CodecOk T}.

Lemma visit_elements_serialized (l : list T) i rest :
  Forall wf l → visit_elements (length l) i (concat (bincode_ser <$> l) ++ rest) = Ok (l, rest).
Proof.
  revert i. induction l as [|x l IH]; intros i Hl; [done|]. apply Forall_cons in Hl as [Hx Hl].
  cbn [fmap list_fmap concat length visit_elements]. rewrite <-app_assoc, bincode_roundtrip by done.
  by rewrite IH.
Qed.

(** A vector of at most 65535 elements reads back from its encoding with
    whatever follows it left over; a longer one is refused. *)
Theorem short_vec_roundtrip (l : list T) rest :
  Forall wf l →
  match serialize l with
  | Ok bytes => Z.of_nat (length l) <= u16_max ∧ deserialize_vec (bytes ++ rest) = Ok (l, rest)
  | Err e => u16_max < Z.of_nat (length l) ∧ e = LengthLargerThanU16
  | Panic => False
  end.
Proof.
  intros Hl. unfold serialize. destruct (Z.ltb_spec u16_max (Z.of_nat (length l))); [done|]. split; [done|].
  unfold deserialize_vec. rewrite <-app_assoc, deserialize_serialize by (split; lia). cbn.
  by rewrite Nat2Z.id, visit_elements_serialized.
Qed.
End vectors.

(** C40. Lengths have one encoding.  Both decoders accept exactly the inputs
    that begin with the encoding of a 16-bit value, and give that value: the
    deserializer with the rest of the input, [decode_shortu16_len] with the
    length of the encoding, which is one to three bytes. *)
Theorem short_u16_canonical bytes v rest n :
  (ShortU16_deserialize bytes = Ok (v, rest) ↔ is_u16 v ∧ bytes = ShortU16_serialize v ++ rest) ∧
  (decode_shortu16_len bytes = Ok (v, n) ↔
   is_u16 v ∧ n = length (ShortU16_serialize v) ∧ ShortU16_serialize v `prefix_of` bytes) ∧
  (is_u16 v → (1 ≤ length (ShortU16_serialize v) ≤ MAX_ENCODING_LENGTH)%nat).
Proof.
  assert (Hd : ∀ rest, ShortU16_deserialize bytes = Ok (v, rest) ↔ is_u16 v ∧ bytes = ShortU16_serialize v ++ rest).
  { intros r. split; [apply deserialize_canonical|]. intros [Hv ->]. by apply deserialize_serialize. }
  split_and!; [apply Hd|..].
  - unfold decode_shortu16_len. rewrite decode_loop_visit. fold (ShortU16_deserialize bytes). split.
    + destruct (ShortU16_deserialize bytes) as [[w r]|e|] eqn:Hb; [|done..]. intros [= -> <-].
      apply deserialize_canonical in Hb as [Hv ->]. split; [done|]. split; [rewrite length_app; lia|by exists r].
    + intros (Hv & -> & [r Hr]). rewrite (proj2 (Hd r)) by done. do 2 f_equal. rewrite Hr, length_app. lia.
  - intros Hv. rewrite serialize_spec by done. unfold MAX_ENCODING_LENGTH. destruct (v <? 128), (v <? 16384); cbn; lia.
Qed.

Module example.
#[export] Instance byte_wf : Wf byte := λ _, True.
#[export] Instance byte_wf_dec (b : byte) : Decision (wf b) := left I.
#[export] Instance byte_codec : Codec byte := serial_codec _.
#[export] Instance byte_codec_ok : CodecOk byte := serial_codec_ok _.

Lemma short_vec_roundtrip_witness :
  Forall wf (replicate 200 x07) ∧ deserialize_vec (ShortU16_serialize 200 ++ concat (bincode_ser <$> replicate 200 x07) ++ [x01]) = Ok (replicate 200 x07, [x01]).
Proof.
  split; [apply Forall_replicate; exact I|].
  pose proof (short_vec_roundtrip (replicate 200 x07) [x01] (Forall_replicate _ _ _ I)) as [_ H]. exact H.
Defined.
End example.
End short_vec.
