(* ===== verification/Features.v ===== *)
(** * Features and native program ids

    The feature gates of [sdk/src/feature_set.rs] the modelled programs read,
    and the ids of the native programs and sysvars they compare with. *)

From S2P Require Import Prelude Account.

Module feature_set.
Definition check_program_owner : Pubkey :=
  Eval vm_compute in declare_id "5XnbR5Es9YXEARRuP6mdvoxiW3hx5atNNeBmwVd8P3QD".
Definition check_init_vote_data : Pubkey :=
  Eval vm_compute in declare_id "3ccR6QpxGYsAbWyfevEtBNGfWV4xBffxRj2tD6A9i39F".
Definition vote_stake_checked_instructions : Pubkey :=
  Eval vm_compute in declare_id "BcWknVcgvonN8sL4HE4XFuEVgfcee5MwxWPAgP6ZV89X".
Definition stake_program_v4 : Pubkey :=
  Eval vm_compute in declare_id "Dc7djyhP9aLfdq2zktpvskeAjpG56msCU1yexpxXiWZb".
Definition require_custodian_for_locked_stake_authorize : Pubkey :=
  Eval vm_compute in declare_id "D4jsDcXaqdW8tDAWn8H4R25Cdns2YwLneujSL1zvjW6R".
Definition dedupe_config_program_signers : Pubkey :=
  Eval vm_compute in declare_id "8kEuAshXLsgkUEdcFVLqrjCGGHVWFW99ZZpxvAzzMtBp".
Definition instructions_sysvar_enabled : Pubkey :=
  Eval vm_compute in declare_id "EnvhHCLvg55P7PDtbvR1NwuTuAeodqpusV3MR5QEK8gs".
Definition updated_verify_policy : Pubkey :=
  Eval vm_compute in declare_id "k15tVxtkgsmo7dy6iJ56N5hBCxuQAtqRgYwoTDuwbia".
Definition neon_evm_compute_budget : Pubkey :=
  Eval vm_compute in declare_id "GLrVvDPkQi5PMYUrsYWT9doZhSHr1BVZXqj5DbFps3rS".
Definition tx_wide_compute_cap : Pubkey :=
  Eval vm_compute in declare_id "5ekBxc8itEnPv4NzGJtr8BVVQLNMQuLMNQQj7pHoLNZ9".
Definition system_transfer_zero_check : Pubkey :=
  Eval vm_compute in declare_id "BrTR9hzw4WBGFP65AJMbpAo64DcA3U6jdPSga9fMV5cS".
Definition consistent_recent_blockhashes_sysvar : Pubkey :=
  Eval vm_compute in declare_id "3h1BQWPDS5veRsq6mDBWruEpgPxRJkfwGexg5iiQ9mYg".
Definition no_overflow_rent_distribution : Pubkey :=
  Eval vm_compute in declare_id "4kpdyrcj5jS47CZb2oJGfVxjYbsMm2Kx97gFyZrxxwXz".
Definition rent_for_sysvars : Pubkey :=
  Eval vm_compute in declare_id "BKCPBQQBZqggVnFso5nQ8rQ4RwwogYwjuUt9biBjxwNF".
End feature_set.

Definition vote_program_id : Pubkey :=
  Eval vm_compute in declare_id "Vote111111111111111111111111111111111111111".
Definition stake_program_id : Pubkey :=
  Eval vm_compute in declare_id "Stake11111111111111111111111111111111111111".
Definition stake_config_id : Pubkey :=
  Eval vm_compute in declare_id "StakeConfig11111111111111111111111111111111".
Definition config_program_id : Pubkey :=
  Eval vm_compute in declare_id "Config1111111111111111111111111111111111111".
Definition system_program_id : Pubkey :=
  Eval vm_compute in declare_id "11111111111111111111111111111111".
Definition neon_evm_program_id : Pubkey :=
  Eval vm_compute in declare_id "eeLSJgWzzxrqKv1UxtRVVH8FX3qCQWUs9QuAjJpETGU".
Definition feature_program_id : Pubkey :=
  Eval vm_compute in declare_id "Feature111111111111111111111111111111111111".
Definition native_loader_id : Pubkey :=
  Eval vm_compute in declare_id "NativeLoader1111111111111111111111111111111".
Definition bpf_loader_id : Pubkey :=
  Eval vm_compute in declare_id "BPFLoader2111111111111111111111111111111111".
Definition bpf_loader_deprecated_id : Pubkey :=
  Eval vm_compute in declare_id "BPFLoader1111111111111111111111111111111111".
Definition compute_budget_program_id : Pubkey :=
  Eval vm_compute in declare_id "ComputeBudget111111111111111111111111111111".
Definition bpf_loader_upgradeable_id : Pubkey :=
  Eval vm_compute in declare_id "BPFLoaderUpgradeab1e11111111111111111111111".
Definition incinerator_id : Pubkey :=
  Eval vm_compute in declare_id "1nc1nerator11111111111111111111111111111111".
Definition secp256k1_program_id : Pubkey :=
  Eval vm_compute in declare_id "KeccakSecp256k11111111111111111111111111111".

(** The owner of the sysvar accounts, and their addresses. *)
Definition sysvar_program_id : Pubkey :=
  Eval vm_compute in declare_id "Sysvar1111111111111111111111111111111111111".
Definition sysvar_slot_hashes_id : Pubkey :=
  Eval vm_compute in declare_id "SysvarS1otHashes111111111111111111111111111".
Definition sysvar_stake_history_id : Pubkey :=
  Eval vm_compute in declare_id "SysvarStakeHistory1111111111111111111111111".
Definition sysvar_epoch_schedule_id : Pubkey :=
  Eval vm_compute in declare_id "SysvarEpochSchedu1e111111111111111111111111".
Definition sysvar_fees_id : Pubkey :=
  Eval vm_compute in declare_id "SysvarFees111111111111111111111111111111111".
Definition sysvar_recent_blockhashes_id : Pubkey :=
  Eval vm_compute in declare_id "SysvarRecentB1ockHashes11111111111111111111".
Definition sysvar_rewards_id : Pubkey :=
  Eval vm_compute in declare_id "SysvarRewards111111111111111111111111111111".
Definition sysvar_slot_history_id : Pubkey :=
  Eval vm_compute in declare_id "SysvarS1otHistory11111111111111111111111111".
Definition sysvar_instructions_id : Pubkey :=
  Eval vm_compute in declare_id "Sysvar1nstructions1111111111111111111111111".
