(* ===== verification/BTreeMap.v ===== *)
(** * Ordered maps

    The standard library's [BTreeMap] with integer keys, as the list of its
    entries in increasing key order: iteration order is list order and ranges
    are prefixes and suffixes. *)

From S2P Require Import Prelude.

Section btree.
Context {V : Type}.
Implicit Types m : list (Z * V).

Definition bt_sorted m : Prop := StronglySorted (λ a b, a.1 < b.1) m.

Fixpoint bt_get (k : Z) m : option V :=
  match m with
  | [] => None
  | (k', v) :: m' => if k =? k' then Some v else bt_get k m'
  end.

Fixpoint bt_insert (k : Z) (v : V) m : list (Z * V) :=
  match m with
  | [] => [(k, v)]
  | (k', v') :: m' =>
      if k <? k' then (k, v) :: m
      else if k =? k' then (k, v) :: m'
      else (k', v') :: bt_insert k v m'
  end.

Definition bt_remove (k : Z) m : list (Z * V) := filter (λ e, e.1 ≠ k) m.

(** [range(lo..hi)] *)
Definition bt_range (lo hi : Z) m : list (Z * V) := filter (λ e, lo <= e.1 < hi) m.

Definition bt_first m : option (Z * V) := head m.
Definition bt_last m : option (Z * V) := last m.

(** ** Lemmas *)

Lemma bt_insert_In k v m e :
  e ∈ bt_insert k v m → e = (k, v) ∨ e ∈ m.
Proof.
  induction m as [|[k' v'] m IH]; cbn; [set_solver|].
  destruct (k <? k'), (k =? k'); set_solver.
Qed.

Lemma bt_insert_sorted k v m : bt_sorted m → bt_sorted (bt_insert k v m).
Proof.
  unfold bt_sorted. induction 1 as [|[k' v'] m Hs IH Hall]; cbn; [repeat constructor|].
  destruct (Z.ltb_spec k k'); [|destruct (Z.eqb_spec k k') as [->|]].
  - repeat constructor; auto. eapply Forall_impl; [done|]. cbn. lia.
  - by constructor.
  - constructor; [done|]. apply Forall_forall. intros e [->|He]%bt_insert_In; cbn; [lia|].
    by apply (proj1 (Forall_forall _ _) Hall).
Qed.

Lemma bt_get_insert_eq k v m : bt_get k (bt_insert k v m) = Some v.
Proof.
  induction m as [|[k' v'] m IH]; cbn; [by rewrite Z.eqb_refl|].
  destruct (k <? k') eqn:?, (k =? k') eqn:E; cbn; rewrite ?Z.eqb_refl; try done.
  by rewrite E.
Qed.

Lemma bt_get_insert_ne k k' v m : k ≠ k' → bt_get k (bt_insert k' v m) = bt_get k m.
Proof.
  intros Hne. induction m as [|[k1 v1] m IH]; cbn.
  - by destruct (Z.eqb_spec k k').
  - destruct (Z.ltb_spec k' k1); [|destruct (Z.eqb_spec k' k1) as [->|]]; cbn.
    + by destruct (Z.eqb_spec k k').
    + by destruct (Z.eqb_spec k k1).
    + by destruct (Z.eqb_spec k k1).
Qed.

Lemma bt_filter_sorted P `{!∀ e, Decision (P e)} m : bt_sorted m → bt_sorted (filter P m).
Proof.
  unfold bt_sorted. induction 1 as [|e m Hs IH Hall]; [constructor|].
  rewrite filter_cons. case_decide; [|done]. constructor; [done|].
  apply Forall_forall. intros x Hx%list_elem_of_filter.
  by apply (proj1 (Forall_forall _ _) Hall), Hx.
Qed.

Lemma bt_get_Some_elem k v m : bt_get k m = Some v → (k, v) ∈ m.
Proof.
  induction m as [|[k' v'] m IH]; cbn; [done|].
  destruct (Z.eqb_spec k k') as [->|]; [intros [= ->]; left|right; auto].
Qed.

Lemma bt_get_elem k v m : bt_sorted m → (k, v) ∈ m → bt_get k m = Some v.
Proof.
  unfold bt_sorted. induction 1 as [|[k' v'] m Hs IH Hall]; [set_solver|].
  intros [[= -> ->]|Hin]%elem_of_cons; cbn; [by rewrite Z.eqb_refl|].
  pose proof (proj1 (Forall_forall _ _) Hall _ Hin) as Hlt. cbn in Hlt.
  destruct (Z.eqb_spec k k'); [lia|auto].
Qed.

Lemma bt_get_None k m : bt_get k m = None ↔ ∀ v, (k, v) ∉ m.
Proof.
  induction m as [|[k' v'] m IH]; cbn; [split; [set_solver|done]|].
  destruct (Z.eqb_spec k k') as [->|]; split; try done.
  - intros H. exfalso. apply (H v'). left.
  - intros Hn v [?|?]%elem_of_cons; [congruence|]. by apply (proj1 IH Hn v).
  - intros H. apply IH. intros v Hv. apply (H v). by right.
Qed.

Lemma bt_last_max m k v e : bt_sorted m → bt_last m = Some (k, v) → e ∈ m → e.1 <= k.
Proof.
  unfold bt_last, bt_sorted. intros Hs Hl He.
  apply last_Some in Hl as [m' ->].
  apply elem_of_app in He as [He|He]; [|set_solver by lia].
  apply StronglySorted_app in Hs as (Hlt & _ & _).
  apply Z.lt_le_incl. apply (Hlt e (k, v)); set_solver.
Qed.
End btree.
