(* ===== verification/SysvarProps.v ===== *)
(** * Properties of the sysvars

    The epoch schedule partitions the slots, bisection finds what a scan finds,
    and the sorted histories ([SlotHashes], [StakeHistory]) behave as maps that
    keep their newest entries. *)

From S2P Require Import Prelude F64 Account Sysvar.

Definition increasing (l : list Z) : Prop := StronglySorted Z.lt l.
Definition decreasing_keys {V} (l : list (Z * V)) : Prop := StronglySorted (λ a b, b.1 < a.1) l.

Lemma decreasing_keys_unique {V} (l : list (Z * V)) k v1 v2 :
  decreasing_keys l → (k, v1) ∈ l → (k, v2) ∈ l → v1 = v2.
Proof.
  intros Hs [i Hi]%list_elem_of_lookup [j Hj]%list_elem_of_lookup.
  destruct (decide (i = j)) as [->|]; [by simplify_eq|].
  destruct (decide (i < j)%nat).
  - pose proof (StronglySorted_lookup _ _ i j _ _ Hs ltac:(lia) Hi Hj) as H. cbn in H. lia.
  - pose proof (StronglySorted_lookup _ _ j i _ _ Hs ltac:(lia) Hj Hi) as H. cbn in H. lia.
Qed.


(** ** Bisection *)

(** The comparison does not go back: once the probe is past the target it stays. *)
Definition search_sorted {A} (f : A → comparison) (l : list A) : Prop :=
  ∀ i j x y, (i < j)%nat → l !! i = Some x → l !! j = Some y →
    (f x ≠ Lt → f y = Gt) ∧ (f y ≠ Gt → f x = Lt).

(** What a search reports: a hit, or the place where the target belongs. *)
Definition search_result {A} (f : A → comparison) (l : list A) (r : nat + nat) : Prop :=
  match r with
  | inl i => ∃ x, l !! i = Some x ∧ f x = Eq
  | inr i => (i <= length l)%nat ∧
      (∀ j x, (j < i)%nat → l !! j = Some x → f x = Lt) ∧
      (∀ j x, (i <= j)%nat → l !! j = Some x → f x = Gt)
  end.

Lemma binary_search_loop_spec {A} (f : A → comparison) (l : list A) fuel left right :
  search_sorted f l → (right - left < fuel)%nat → (left <= right <= length l)%nat →
  (∀ j x, (j < left)%nat → l !! j = Some x → f x = Lt) →
  (∀ j x, (right <= j)%nat → l !! j = Some x → f x = Gt) →
  search_result f l (binary_search_loop f l fuel (right - left) left right).
Proof.
  intros Hs. revert left right. induction fuel as [|fuel IH]; intros left right Hf Hb Hl Hr; [lia|].
  cbn [binary_search_loop]. destruct (decide (left < right)%nat) as [Hlt|].
  2:{ cbn. split_and!; [lia|done|]. intros. apply (Hr j x); [lia|done]. }
  set (mid := (left + (right - left) / 2)%nat).
  assert (Hmid : (left <= mid < right)%nat).
  { unfold mid. pose proof (Nat.div_lt (right - left) 2). lia. }
  destruct (lookup_lt_is_Some_2 l mid) as [x Hx]; [lia|]. rewrite Hx.
  destruct (f x) eqn:Efx.
  - exists x. done.
  - apply IH; [lia..| |done]. intros j y Hj Hy. destruct (decide (j = mid)) as [->|]; [congruence|].
    apply (Hs j mid y x); [lia|done..|congruence].
  - apply IH; [lia..|done|]. intros j y Hj Hy. destruct (decide (j = mid)) as [->|]; [congruence|].
    apply (Hs mid j x y); [lia|done..|congruence].
Qed.

Lemma binary_search_by_result {A} (f : A → comparison) (l : list A) :
  search_sorted f l → search_result f l (binary_search_by f l).
Proof.
  intros Hs. unfold binary_search_by. rewrite <- (Nat.sub_0_r (length l)) at 2.
  apply binary_search_loop_spec; [done|lia..|].
  intros j x Hj Hx. apply lookup_lt_Some in Hx. lia.
Qed.

(** A hit is a hit, whatever the order of the list. *)
Lemma binary_search_loop_hit {A} (f : A → comparison) (l : list A) fuel sz lo hi i x :
  binary_search_loop f l fuel sz lo hi = inl i → l !! i = Some x → f x = Eq.
Proof.
  revert sz lo hi. induction fuel as [|fuel IH]; intros sz lo hi H Hx; [done|].
  cbn [binary_search_loop] in H. destruct (decide (lo < hi)%nat); [|done].
  destruct (l !! (lo + sz / 2)%nat) as [y|] eqn:Ey; [|done].
  destruct (f y) eqn:Ef; [congruence|by eapply IH..].
Qed.

Lemma decreasing_search_sorted {V} (l : list (Z * V)) k :
  decreasing_keys l → search_sorted (λ probe, k ?= probe.1) l.
Proof.
  intros Hd i j x y Hij Hx Hy. pose proof (StronglySorted_lookup _ _ _ _ _ _ Hd Hij Hx Hy) as H.
  cbn in H. split; intros Hc.
  - apply Z.compare_gt_iff. destruct (Z.compare_spec k x.1); [lia|done|lia].
  - apply Z.compare_lt_iff. destruct (Z.compare_spec k y.1); [lia|lia|done].
Qed.

(** ** The sorted histories *)

Section history.
Context {V : Type}.
Implicit Types l : list (Z * V).

(** The reference insertion: newer entries, the new one, older entries. *)
Definition history_insert l k (v : V) : list (Z * V) :=
  filter (λ x, k < x.1) l ++ (k, v) :: filter (λ x, x.1 < k) l.

Lemma filter_app_split (P : Z * V → Prop) `{!∀ x, Decision (P x)} l1 l2 :
  Forall P l1 → Forall (λ x, ¬ P x) l2 → filter P (l1 ++ l2) = l1.
Proof.
  intros H1 H2. rewrite filter_app, (filter_all_id P l1 H1).
  replace (filter P l2) with (@nil (Z * V)); [by rewrite app_nil_r|].
  induction H2; [done|]. by rewrite filter_cons_False.
Qed.

(** A list cut where the keys pass [k]. *)
Lemma history_insert_split l1 l2 o k v :
  Forall (λ x, k < x.1) l1 → Forall (λ x, x.1 < k) l2 → Forall (λ x, x.1 = k) o →
  history_insert (l1 ++ o ++ l2) k v = l1 ++ (k, v) :: l2.
Proof.
  intros H1 H2 Ho. unfold history_insert. rewrite filter_app_split; [|done|].
  2:{ apply Forall_app; split; eapply Forall_impl; [exact Ho| |exact H2|]; cbn; intros; lia. }
  f_equal. f_equal. rewrite !filter_app, (filter_all_id _ l2) by done.
  assert (Hn : ∀ m : list (Z * V), Forall (λ x, k <= x.1) m → filter (λ x, x.1 < k) m = []).
  { induction 1; [done|]. rewrite filter_cons_False by lia. done. }
  rewrite !Hn; [done|eapply Forall_impl; [exact Ho|cbn; lia]|eapply Forall_impl; [exact H1|cbn; lia]].
Qed.

Lemma Forall_take_lookup (P : Z * V → Prop) l i :
  (∀ j x, (j < i)%nat → l !! j = Some x → P x) → Forall P (take i l).
Proof. intros H. apply Forall_lookup. intros j x [Hx Hj]%lookup_take_Some. eauto. Qed.

Lemma Forall_drop_lookup (P : Z * V → Prop) l i :
  (∀ j x, (i <= j)%nat → l !! j = Some x → P x) → Forall P (drop i l).
Proof. intros H. apply Forall_lookup. intros j x. rewrite lookup_drop. apply H. lia. Qed.

Lemma assoc_add_insert l k v :
  decreasing_keys l → assoc_add l k v = take MAX_ENTRIES (history_insert l k v).
Proof.
  intros Hd. unfold assoc_add. f_equal.
  pose proof (binary_search_by_result _ _ (decreasing_search_sorted l k Hd)) as Hr.
  destruct (binary_search_by _ l) as [i|i]; cbn in Hr.
  - destruct Hr as (x & Hx & Heq%Z.compare_eq).
    rewrite (insert_take_drop l i) by (by eapply lookup_lt_Some).
    rewrite <- (take_drop_middle l i x Hx) at 3. symmetry.
    apply (history_insert_split _ _ [x]); [| |by constructor].
    + apply Forall_take_lookup. intros j y Hj Hy.
      pose proof (StronglySorted_lookup _ _ _ _ _ _ Hd Hj Hy Hx) as H. cbn in H. lia.
    + apply Forall_drop_lookup. intros j y Hj Hy.
      pose proof (StronglySorted_lookup _ _ i j _ _ Hd ltac:(lia) Hx Hy) as H. cbn in H. lia.
  - destruct Hr as (Hi & Hlt & Hgt). unfold vec_insert.
    rewrite <- (take_drop i l) at 3. symmetry. apply (history_insert_split _ _ []); [| |done].
    + apply Forall_take_lookup. intros j y Hj Hy. by apply Z.compare_lt_iff, (Hlt j).
    + apply Forall_drop_lookup. intros j y Hj Hy. by apply Z.compare_gt_iff, (Hgt j).
Qed.

Lemma assoc_get_elem l k v : decreasing_keys l → assoc_get l k = Some v ↔ (k, v) ∈ l.
Proof.
  intros Hd. unfold assoc_get.
  pose proof (binary_search_by_result _ _ (decreasing_search_sorted l k Hd)) as Hr.
  destruct (binary_search_by _ l) as [i|i]; cbn in Hr.
  - destruct Hr as ([k' v'] & Hx & Heq%Z.compare_eq). cbn in Heq. subst k'. rewrite Hx. cbn.
    apply list_elem_of_lookup_2 in Hx. split; [by intros [= <-]|]. intros Hv. f_equal.
    by eapply decreasing_keys_unique.
  - destruct Hr as (Hi & Hlt & Hgt). split; [done|]. intros [j Hj]%list_elem_of_lookup.
    destruct (decide (j < i)%nat).
    + specialize (Hlt j _ ltac:(done) Hj). cbn in Hlt. rewrite Z.compare_refl in Hlt. done.
    + specialize (Hgt j _ ltac:(lia) Hj). cbn in Hgt. rewrite Z.compare_refl in Hgt. done.
Qed.

Lemma decreasing_filter (P : Z * V → Prop) `{!∀ x, Decision (P x)} l :
  decreasing_keys l → decreasing_keys (filter P l).
Proof.
  unfold decreasing_keys. induction 1 as [|x l Hs IH HF]; [constructor|].
  rewrite filter_cons. destruct (decide (P x)); [|done]. constructor; [done|].
  apply Forall_forall. intros y [_ Hy]%list_elem_of_filter. by apply (proj1 (Forall_forall _ _) HF).
Qed.

Lemma history_insert_decreasing l k v : decreasing_keys l → decreasing_keys (history_insert l k v).
Proof.
  intros Hd. unfold history_insert, decreasing_keys. apply StronglySorted_app. split_and!.
  - intros x1 x2 [H1 _]%list_elem_of_filter [->|[H2 _]%list_elem_of_filter]%elem_of_cons; cbn; lia.
  - by apply (decreasing_filter _ l).
  - constructor; [by apply (decreasing_filter _ l)|].
    apply Forall_forall. by intros y [H _]%list_elem_of_filter.
Qed.

Lemma decreasing_take l n : decreasing_keys l → decreasing_keys (take n l).
Proof.
  unfold decreasing_keys. intros H. revert n. induction H as [|x l Hs IH HF]; intros [|n]; cbn;
    constructor; [done|]. by apply Forall_take.
Qed.

(** [SlotHashes::add] and [StakeHistory::add] insert at the place the
    bisection finds and drop what is past 512 entries: on a history in
    decreasing key order the result is again in that order, has at most 512
    entries, and is the newest 512 of the old entries with the new one; and
    [get] finds exactly the entries present. *)
Theorem history_add_get l k v k' v' :
  decreasing_keys l →
  decreasing_keys (assoc_add l k v) ∧ (length (assoc_add l k v) <= MAX_ENTRIES)%nat ∧
  assoc_add l k v = take MAX_ENTRIES (history_insert l k v) ∧
  (assoc_get (assoc_add l k v) k' = Some v' ↔ (k', v') ∈ assoc_add l k v).
Proof.
  intros Hd. pose proof (assoc_add_insert l k v Hd) as Heq.
  assert (Hd' : decreasing_keys (assoc_add l k v))
    by (rewrite Heq; by apply decreasing_take, history_insert_decreasing).
  split_and!; [done| |done|by apply assoc_get_elem]. rewrite Heq, length_take. lia.
Qed.
End history.

Lemma history_add_get_witness :
  decreasing_keys [(9, 1); (4, 2)] ∧ assoc_get (assoc_add [(9, 1); (4, 2)] 7 3) 7 = Some 3.
Proof.
  assert (H : decreasing_keys [(9, 1); (4, 2)]) by (repeat constructor; cbn; lia).
  split; [exact H|]. apply (history_add_get [(9, 1); (4, 2)] 7 3 7 3 H).
  vm_compute. right. left.
Defined.

(** ** The epoch schedule *)

Lemma trailing_zeros_pow2 n : 0 <= n → trailing_zeros64 (2 ^ n) = n.
Proof.
  revert n. apply natlike_ind; [done|]. intros n Hn IH. rewrite Z.pow_succ_r by done.
  assert (0 < 2 ^ n) by (apply Z.pow_pos_nonneg; lia).
  destruct (2 ^ n) as [|p|p]; [lia| |lia]. change (2 * Z.pos p) with (Z.pos p~0).
  unfold trailing_zeros64 in *. cbn [pos_trailing_zeros]. lia.
Qed.

Lemma next_power_of_two_exp x :
  1 < x <= 2 ^ 63 →
  ∃ m, 1 <= m <= 63 ∧ next_power_of_two64 x = 2 ^ m ∧ 2 ^ (m - 1) < x <= 2 ^ m.
Proof.
  intros Hx. exists (Z.log2_up x). pose proof (Z.log2_up_spec x ltac:(lia)) as [H1 H2].
  rewrite Z.sub_1_r. assert (Hm : Z.log2_up x <= 63).
  { rewrite <- (Z.log2_up_pow2 63) by lia. apply Z.log2_up_le_mono. lia. }
  assert (0 < Z.log2_up x) by (apply Z.log2_up_pos; lia).
  split_and!; [lia..| |done|done]. unfold next_power_of_two64. apply wrap64_id.
  split; [apply Z.pow_nonneg; lia|]. pose proof (Z.pow_le_mono_r 2 _ _ ltac:(lia) Hm).
  unfold u64_max. lia.
Qed.

(** The warm-up epochs double from 32 slots until [2^L] is reached. *)
Definition schedule_exp (es : EpochSchedule) (L : Z) : Prop :=
  5 <= L <= 63 ∧ first_normal_epoch es = L - 5 ∧ first_normal_slot es = 2 ^ L - 32.

Lemma schedule_custom_exp spe off w es :
  EpochSchedule_custom spe off w = Some es → spe <= 2 ^ 63 →
  slots_per_epoch es = spe ∧ 32 <= spe ∧ ∃ L, schedule_exp es L.
Proof.
  unfold EpochSchedule_custom, MINIMUM_SLOTS_PER_EPOCH. intros H Hs.
  destruct (Z.ltb_spec spe 32); [done|]. destruct w; simplify_eq/=; (split_and!; [done..|]); [|exists 5; done].
  destruct (next_power_of_two_exp spe) as (m & Hm & -> & Hlo & Hhi); [lia|].
  rewrite trailing_zeros_pow2 by lia. exists m. unfold schedule_exp, saturating_sub. cbn.
  assert (5 <= m). { destruct (Z.le_gt_cases 5 m); [done|].
    pose proof (Z.pow_le_mono_r 2 m 4 ltac:(lia) ltac:(lia)). lia. }
  pose proof (Z.pow_le_mono_r 2 5 m ltac:(lia) ltac:(lia)). split_and!; lia.
Qed.

Lemma pow_ineq m n : 0 <= m <= n → 1 <= 2 ^ m <= 2 ^ n.
Proof.
  intros. pose proof (Z.pow_le_mono_r 2 0 m ltac:(lia) ltac:(lia)).
  pose proof (Z.pow_le_mono_r 2 m n ltac:(lia) ltac:(lia)). lia.
Qed.

(** The warm-up length and first slot, with no saturation below [2^63]. *)
Lemma warmup_len e :
  0 <= e <= 58 →
  saturating_pow64 2 (saturating_add32 e 5) = 2 ^ (e + 5).
Proof.
  intros He. unfold saturating_add32, u32_max. rewrite Z.min_l by lia. unfold saturating_pow64. apply Z.min_l.
  pose proof (pow_ineq (e + 5) 63 ltac:(lia)). unfold u64_max. lia.
Qed.

Lemma warmup_first es L e :
  schedule_exp es L → 0 <= e <= L - 5 → get_first_slot_in_epoch es e = 2 ^ (e + 5) - 32.
Proof.
  intros (HL & HE & _) He. unfold get_first_slot_in_epoch. rewrite HE.
  destruct (Z.leb_spec e (L - 5)); [|lia]. unfold MINIMUM_SLOTS_PER_EPOCH.
  rewrite wrap32_id by (unfold is_u32, u32_max; lia).
  pose proof (pow_ineq e 58 ltac:(lia)). rewrite Z.pow_add_r by lia. change (2 ^ 5) with 32.
  unfold saturating_pow64, saturating_sub, saturating_mul64, u64_max. lia.
Qed.

Lemma warmup_slots es L e :
  schedule_exp es L → 0 <= e < L - 5 → get_slots_in_epoch es e = 2 ^ (e + 5).
Proof.
  intros (HL & HE & _) He. unfold get_slots_in_epoch. rewrite HE.
  destruct (Z.ltb_spec e (L - 5)); [|lia].
  rewrite wrap32_id by (unfold is_u32, u32_max; lia). apply warmup_len. lia.
Qed.

Lemma warmup_index es L slot :
  schedule_exp es L → 0 <= slot < 2 ^ L - 32 →
  ∃ m, 6 <= m <= L ∧ 2 ^ (m - 1) < slot + 33 <= 2 ^ m ∧
  get_epoch_and_slot_index es slot = (m - 6, slot - (2 ^ (m - 1) - 32)).
Proof.
  intros (HL & HE & HS) Hslot. unfold get_epoch_and_slot_index. rewrite HS.
  destruct (Z.ltb_spec slot (2 ^ L - 32)); [|lia]. pose proof (pow_ineq L 63 ltac:(lia)).
  replace (saturating_add64 (saturating_add64 slot MINIMUM_SLOTS_PER_EPOCH) 1) with (slot + 33)
    by (unfold saturating_add64, MINIMUM_SLOTS_PER_EPOCH, u64_max; lia).
  destruct (next_power_of_two_exp (slot + 33)) as (m & Hm & -> & Hlo & Hhi); [lia|].
  rewrite trailing_zeros_pow2 by lia. change (trailing_zeros64 MINIMUM_SLOTS_PER_EPOCH) with 5.
  assert (Hm6 : 6 <= m). { destruct (Z.le_gt_cases 6 m); [done|].
    pose proof (pow_ineq m 5 ltac:(lia)). lia. }
  assert (HmL : m <= L). { destruct (Z.le_gt_cases m L); [done|].
    pose proof (pow_ineq L (m - 1) ltac:(lia)). lia. }
  exists m. split_and!; [lia..|].
  replace (saturating_sub (saturating_sub m 5) 1) with (m - 6) by (unfold saturating_sub; lia).
  rewrite warmup_len by lia. replace (m - 6 + 5) with (m - 1) by lia. f_equal.
  unfold saturating_sub, MINIMUM_SLOTS_PER_EPOCH. pose proof (pow_ineq 5 (m - 1) ltac:(lia)). lia.
Qed.

(** The normal epochs: division by [slots_per_epoch]. *)
Lemma normal_index es L slot :
  schedule_exp es L → 32 <= slots_per_epoch es → 2 ^ L - 32 <= slot <= u64_max →
  get_epoch_and_slot_index es slot =
    (L - 5 + (slot - (2 ^ L - 32)) / slots_per_epoch es,
     (slot - (2 ^ L - 32)) mod slots_per_epoch es).
Proof.
  intros (HL & HE & HS) Hspe Hslot. unfold get_epoch_and_slot_index. rewrite HS, HE.
  destruct (Z.ltb_spec slot (2 ^ L - 32)); [lia|]. unfold checked_div, checked_rem.
  destruct (Z.eqb_spec (slots_per_epoch es) 0); [lia|]. cbn [default from_option].
  unfold saturating_sub. rewrite Z.max_l by lia. f_equal. apply Z.min_l.
  set (x := slot - _). pose proof (Z.div_le_upper_bound x (slots_per_epoch es) (2 ^ 60)).
  pose proof (pow_ineq 5 L ltac:(lia)). unfold u64_max in *. lia.
Qed.

Lemma normal_first es L e :
  schedule_exp es L → L - 5 <= e →
  (e - (L - 5)) * slots_per_epoch es + (2 ^ L - 32) <= u64_max → 32 <= slots_per_epoch es →
  get_first_slot_in_epoch es e = (e - (L - 5)) * slots_per_epoch es + (2 ^ L - 32).
Proof.
  intros Hes He Hov Hspe. destruct (decide (e = L - 5)) as [->|].
  - destruct Hes as (? & ? & ?). rewrite (warmup_first es L) by (done || lia).
    replace (L - 5 + 5) with L by lia. lia.
  - destruct Hes as (HL & HE & HS). unfold get_first_slot_in_epoch. rewrite HE, HS.
    destruct (Z.leb_spec e (L - 5)); [lia|]. pose proof (pow_ineq 5 L ltac:(lia)).
    unfold saturating_sub. rewrite Z.max_l by lia.
    unfold saturating_add64, saturating_mul64. rewrite (Z.min_l (_ * _)) by lia. lia.
Qed.

Lemma slot_in_epoch spe off w es slot e i :
  EpochSchedule_custom spe off w = Some es → spe <= 2 ^ 63 → is_u64 slot →
  get_epoch_and_slot_index es slot = (e, i) →
  get_first_slot_in_epoch es e + i = slot ∧ 0 <= i < get_slots_in_epoch es e.
Proof.
  intros Hc Hs Hslot Hei. destruct (schedule_custom_exp _ _ _ _ Hc Hs) as (Hsp & Hspe & L & Hes).
  rewrite <- Hsp in Hspe. pose proof Hes as (HL & HE & HS). unfold is_u64 in Hslot.
  destruct (Z.lt_ge_cases slot (2 ^ L - 32)) as [Hlt|Hge].
  - destruct (warmup_index es L slot Hes ltac:(lia)) as (m & Hm & Hb & Heq).
    rewrite Heq in Hei. simplify_eq. rewrite (warmup_first es L), (warmup_slots es L) by (done || lia).
    replace (m - 6 + 5) with (m - 1) by lia. pose proof (Z.pow_succ_r 2 (m - 1) ltac:(lia)) as Hp.
    replace (Z.succ (m - 1)) with m in Hp by lia. lia.
  - rewrite (normal_index es L) in Hei by (done || lia). simplify_eq.
    set (x := slot - (2 ^ L - 32)) in *. pose proof (Z.div_mod x (slots_per_epoch es) ltac:(lia)).
    pose proof (Z.mod_pos_bound x (slots_per_epoch es) ltac:(lia)).
    assert (0 <= x / slots_per_epoch es) by (apply Z.div_pos; lia).
    rewrite (normal_first es L) by (done || lia). split; [lia|]. unfold get_slots_in_epoch.
    rewrite HE. destruct (Z.ltb_spec (L - 5 + x / slots_per_epoch es) (L - 5)); lia.
Qed.

(** The slot after: the next index of the epoch, or the first of the next. *)
Lemma slot_next spe off w es slot e i :
  EpochSchedule_custom spe off w = Some es → spe <= 2 ^ 63 → 0 <= slot < u64_max →
  get_epoch_and_slot_index es slot = (e, i) →
  get_epoch_and_slot_index es (slot + 1) = if i + 1 <? get_slots_in_epoch es e then (e, i + 1) else (e + 1, 0).
Proof.
  intros Hc Hs Hslot Hei. destruct (schedule_custom_exp _ _ _ _ Hc Hs) as (Hsp & Hspe & L & Hes).
  rewrite <- Hsp in Hspe. pose proof Hes as (HL & HE & HS).
  destruct (Z.lt_ge_cases slot (2 ^ L - 32)) as [Hlt|Hge].
  - destruct (warmup_index es L slot Hes ltac:(lia)) as (m & Hm & Hb & Heq). rewrite Heq in Hei. simplify_eq.
    rewrite (warmup_slots es L) by (done || lia). replace (m - 6 + 5) with (m - 1) by lia.
    pose proof (Z.pow_succ_r 2 (m - 1) ltac:(lia)) as Hp. replace (Z.succ (m - 1)) with m in Hp by lia.
    destruct (decide (slot + 1 = 2 ^ L - 32)) as [Hl|Hl].
    + assert (m = L) as ->. { destruct (decide (m = L)); [done|]. pose proof (Z.pow_lt_mono_r 2 m L ltac:(lia) ltac:(lia) ltac:(lia)). lia. }
      rewrite (normal_index es L) by (done || unfold u64_max in *; lia). rewrite Hl, Z.sub_diag, Z.div_0_l, Z.mod_0_l by lia.
      destruct (Z.ltb_spec (slot - (2 ^ (L - 1) - 32) + 1) (2 ^ (L - 1))); [lia|]. f_equal. lia.
    + destruct (warmup_index es L (slot + 1) Hes ltac:(lia)) as (m' & Hm' & Hb' & ->).
      destruct (Z.ltb_spec (slot - (2 ^ (m - 1) - 32) + 1) (2 ^ (m - 1))) as [Hi|Hi].
      * assert (m' = m) as ->; [|f_equal; lia]. destruct (Z.lt_trichotomy m' m) as [H|[H|H]]; [|done|].
        -- pose proof (Z.pow_le_mono_r 2 m' (m - 1) ltac:(lia) ltac:(lia)). lia.
        -- pose proof (Z.pow_le_mono_r 2 m (m' - 1) ltac:(lia) ltac:(lia)). lia.
      * assert (m' = m + 1) as ->; [|f_equal; [lia|]; replace (m + 1 - 1) with m by lia; lia].
        destruct (Z.lt_trichotomy m' (m + 1)) as [H|[H|H]]; [|done|].
        -- pose proof (Z.pow_le_mono_r 2 m' m ltac:(lia) ltac:(lia)). lia.
        -- pose proof (Z.pow_le_mono_r 2 (m + 1) (m' - 1) ltac:(lia) ltac:(lia)) as Hq. rewrite Z.pow_add_r in Hq by lia. lia.
  - rewrite (normal_index es L) in Hei by (done || unfold is_u64 in *; lia). simplify_eq.
    rewrite (normal_index es L) by (done || unfold is_u64 in *; lia). set (n := slots_per_epoch es) in *.
    set (x := slot - (2 ^ L - 32)) in *. replace (slot + 1 - (2 ^ L - 32)) with (x + 1) by lia.
    pose proof (Z.div_mod x n ltac:(lia)) as Hd. pose proof (Z.mod_pos_bound x n ltac:(lia)) as Hb.
    assert (0 <= x / n) by (apply Z.div_pos; lia). unfold get_slots_in_epoch. rewrite HE.
    destruct (Z.ltb_spec (L - 5 + x / n) (L - 5)); [lia|]. fold n. destruct (Z.ltb_spec (x mod n + 1) n).
    + rewrite <-(Z.div_unique (x + 1) n (x / n) (x mod n + 1)), <-(Z.mod_unique (x + 1) n (x / n) (x mod n + 1)) by lia. done.
    + rewrite <-(Z.div_unique (x + 1) n (x / n + 1) 0), <-(Z.mod_unique (x + 1) n (x / n + 1) 0) by lia. f_equal. lia.
Qed.

(** Later slots are in later epochs, or later in the same one. *)
Lemma slot_order spe off w es s s' e i e' i' :
  EpochSchedule_custom spe off w = Some es → spe <= 2 ^ 63 → 0 <= s <= s' → s' <= u64_max →
  get_epoch_and_slot_index es s = (e, i) → get_epoch_and_slot_index es s' = (e', i') →
  e < e' ∨ e = e' ∧ i' - i = s' - s.
Proof.
  intros Hc Hs Hss Hu. replace s' with (s + Z.of_nat (Z.to_nat (s' - s))) in * by lia.
  revert e' i' Hu. induction (Z.to_nat (s' - s)) as [|d IH]; intros e' i' Hu He He'.
  - rewrite Z.add_0_r in He'. rewrite He in He'. injection He' as <- <-. right. lia.
  - replace (s + Z.of_nat (S d)) with (s + Z.of_nat d + 1) in * by lia.
    destruct (get_epoch_and_slot_index es (s + Z.of_nat d)) as [e1 i1] eqn:H1.
    rewrite (slot_next spe off w es _ e1 i1) in He' by (done || lia). destruct (IH ltac:(lia) e1 i1 ltac:(lia) He eq_refl) as [?|[? ?]];
      destruct (i1 + 1 <? _); injection He' as <- <-; lia.
Qed.

(** The epoch schedule partitions the slots: for a schedule built by
    [custom] and any 64-bit slot, the slot is its epoch's first slot plus its
    index, and the index is below the epoch's length.  With warm-up or without,
    nothing saturates. *)
Theorem epoch_schedule_partition spe off w es slot e i :
  EpochSchedule_custom spe off w = Some es → spe <= 2 ^ 63 → is_u64 slot →
  get_epoch_and_slot_index es slot = (e, i) →
  get_first_slot_in_epoch es e + i = slot ∧ 0 <= i < get_slots_in_epoch es e.
Proof. apply slot_in_epoch. Qed.

Lemma epoch_schedule_partition_witness :
  ∃ es, EpochSchedule_custom 432000 432000 true = Some es ∧
  get_first_slot_in_epoch es 15 + 1000 = 957256 ∧ 0 <= 1000 < get_slots_in_epoch es 15.
Proof.
  eexists. split; [vm_compute; reflexivity|].
  apply (epoch_schedule_partition 432000 432000 true _ 957256 15 1000);
    [vm_compute; reflexivity|lia|unfold is_u64, u64_max; lia|vm_compute; reflexivity].
Defined.

(** Consecutive epochs meet: the slot after the last slot of an epoch is
    the first slot of the next, as long as that is a 64-bit slot. *)
Theorem epochs_adjacent spe off w es e :
  EpochSchedule_custom spe off w = Some es → spe <= 2 ^ 63 → 0 <= e →
  e * spe + 2 ^ 63 <= u64_max →
  get_first_slot_in_epoch es (e + 1) = get_last_slot_in_epoch es e + 1.
Proof.
  intros Hc Hs He Hov. destruct (schedule_custom_exp _ _ _ _ Hc Hs) as (Hsp & Hspe & L & Hes).
  pose proof Hes as (HL & HE & HS). pose proof (pow_ineq 5 L ltac:(lia)).
  pose proof (pow_ineq L 63 ltac:(lia)). unfold get_last_slot_in_epoch.
  destruct (Z.lt_ge_cases e (L - 5)) as [Hlt|Hge].
  - rewrite (warmup_slots es L), !(warmup_first es L) by (done || lia).
    replace (e + 1 + 5) with (Z.succ (e + 5)) by lia. rewrite Z.pow_succ_r by lia.
    pose proof (pow_ineq 5 (e + 5) ltac:(lia)). pose proof (pow_ineq (e + 5) 62 ltac:(lia)).
    unfold saturating_sub, saturating_add64, u64_max. lia.
  - assert (Hb : (e + 1 - (L - 5)) * slots_per_epoch es + (2 ^ L - 32) <= u64_max).
    { rewrite Hsp. destruct (decide (L = 5)) as [->|]; [lia|]. nia. }
    rewrite !(normal_first es L) by (done || nia).
    unfold get_slots_in_epoch. rewrite HE. destruct (Z.ltb_spec e (L - 5)); [lia|].
    unfold saturating_sub, saturating_add64. nia.
Qed.

Lemma epochs_adjacent_witness :
  ∃ es, EpochSchedule_custom 432000 432000 true = Some es ∧
  get_first_slot_in_epoch es 15 = get_last_slot_in_epoch es 14 + 1.
Proof.
  eexists. split; [vm_compute; reflexivity|].
  apply (epochs_adjacent 432000 432000 true _ 14);
    [vm_compute; reflexivity|lia|lia|unfold u64_max; lia].
Defined.
