(* ===== verification/SlotHistory.v ===== *)
(** * The slot history

    Models [sdk/program/src/slot_history.rs]: which of the last million slots
    are on the chain, one bit a slot in a ring.  The bit vector is the [bv]
    crate's; its operations are a parameter with their documented laws.  Slots
    added in increasing order are found exactly as long as the ring covers
    them. *)

From S2P Require Import Prelude Account Sysvar.

(** The operations of [bv::BitVec<u64>] that are used, and what they promise
    within the vector's length. *)
Class BitVec : Type := {
  bitvec : Type;
  bv_new_fill : bool → Z → bitvec;
  bv_len : bitvec → Z;
  bv_get : bitvec → Z → bool;
  bv_set : bitvec → Z → bool → bitvec;
  bv_set_block : bitvec → Z → Z → bitvec;
}.

Class BitVecOk `{!BitVec} : Prop := {
  bv_len_new b n : 0 <= n → bv_len (bv_new_fill b n) = n;
  bv_len_set v i b : bv_len (bv_set v i b) = bv_len v;
  bv_len_set_block v i w : bv_len (bv_set_block v i w) = bv_len v;
  bv_get_new b n i : 0 <= i < n → bv_get (bv_new_fill b n) i = b;
  bv_get_set v i j b : 0 <= i < bv_len v → 0 <= j < bv_len v →
    bv_get (bv_set v i b) j = if i =? j then b else bv_get v j;
  bv_get_set_block v i w j : 0 <= i → 64 * (i + 1) <= bv_len v → 0 <= j < bv_len v →
    bv_get (bv_set_block v i w) j = if j / 64 =? i then Z.testbit w (j mod 64) else bv_get v j;
}.

Module slot_history.

Definition MAX_ENTRIES : Z := 1024 * 1024.

Inductive Check : Type := Future | TooOld | Found | NotFound.
#[export] Instance Check_eq_dec : EqDecision Check.
Proof. solve_decision. Defined.

Section model.
Context `{BV : !BitVec}.

Record SlotHistory : Type := mkSlotHistory {
  bits : bitvec;
  next_slot : Slot;
}.

Definition SlotHistory_default : SlotHistory :=
  mkSlotHistory (bv_set (bv_new_fill false MAX_ENTRIES) 0 true) 1.

Definition clear_blocks (v : bitvec) : bitvec :=
  foldl (λ v i, bv_set_block v i 0) v (seqZ 0 (MAX_ENTRIES / 64)).

Definition clear_skipped (first last : Slot) (v : bitvec) : bitvec :=
  foldl (λ v skipped, bv_set v (skipped mod MAX_ENTRIES) false) v (seqZ first (last - first)).

Definition add (slot : Slot) (h : SlotHistory) : SlotHistory :=
  let v :=
    if (next_slot h <? slot) && (MAX_ENTRIES <=? slot - next_slot h) then clear_blocks (bits h)
    else clear_skipped (next_slot h) slot (bits h) in
  mkSlotHistory (bv_set v (slot mod MAX_ENTRIES) true) (add64 slot 1).

Definition oldest (h : SlotHistory) : Slot := saturating_sub (next_slot h) MAX_ENTRIES.
Definition newest (h : SlotHistory) : Slot := sub64 (next_slot h) 1.

Definition check (slot : Slot) (h : SlotHistory) : Check :=
  if newest h <? slot then Future
  else if slot <? oldest h then TooOld
  else if bv_get (bits h) (slot mod MAX_ENTRIES) then Found
  else NotFound.

(** ** The set of slots it stands for *)

Context `{BVok : !BitVecOk}.

(** [h] holds the slots [A], of which [n - 1] is the newest. *)
Record holds (A : Z → Prop) (n : Z) (h : SlotHistory) : Prop := {
  h_len : bv_len (bits h) = MAX_ENTRIES;
  h_next : next_slot h = n;
  h_bits s : Z.max 0 (n - MAX_ENTRIES) <= s < n → bv_get (bits h) (s mod MAX_ENTRIES) = true ↔ A s;
}.

Lemma slot_index s : 0 <= s mod MAX_ENTRIES < MAX_ENTRIES.
Proof. apply Z.mod_pos_bound. done. Qed.

Lemma clear_blocks_spec v :
  bv_len v = MAX_ENTRIES → bv_len (clear_blocks v) = MAX_ENTRIES ∧
  ∀ j, 0 <= j < MAX_ENTRIES → bv_get (clear_blocks v) j = false.
Proof.
  intros Hv. unfold clear_blocks.
  assert (H : ∀ l, Forall (λ i, 0 <= i < MAX_ENTRIES / 64) l → ∀ v, bv_len v = MAX_ENTRIES →
    let v' := foldl (λ v i, bv_set_block v i 0) v l in
    bv_len v' = MAX_ENTRIES ∧
    ∀ j, 0 <= j < MAX_ENTRIES → j / 64 ∈ l ∨ bv_get v j = false → bv_get v' j = false).
  { clear v Hv. induction l as [|i l IH]; intros Hl v Hv; cbn; [split; [done|]; by intros j _ [?%elem_of_nil|?]|].
    apply Forall_cons in Hl as [Hi Hl]. destruct (IH Hl (bv_set_block v i 0)) as [H1 H2]; [by rewrite bv_len_set_block|].
    split; [done|]. intros j Hj Hor. apply H2; [done|]. change (MAX_ENTRIES / 64) with 16384 in Hi.
    rewrite bv_get_set_block by (rewrite ?Hv; unfold MAX_ENTRIES in *; lia). destruct (Z.eqb_spec (j / 64) i) as [<-|].
    - right. apply Z.bits_0.
    - destruct Hor as [[?|?]%elem_of_cons|?]; [congruence|by left|by right]. }
  destruct (H (seqZ 0 (MAX_ENTRIES / 64))) with (v := v) as [H1 H2]; [|done|].
  { apply Forall_forall. intros i Hi%elem_of_seqZ. lia. }
  split; [done|]. intros j Hj. apply H2; [done|]. left. apply elem_of_seqZ. split; [apply Z.div_pos; lia|].
  apply Z.div_lt_upper_bound; [done|]. change (64 * (0 + MAX_ENTRIES / 64)) with MAX_ENTRIES. lia.
Qed.

(** A run of fewer slots than the ring has clears just their bits. *)
Lemma clear_skipped_spec v first last :
  bv_len v = MAX_ENTRIES → bv_len (clear_skipped first last v) = MAX_ENTRIES ∧
  ∀ j, 0 <= j < MAX_ENTRIES →
    ((∃ s, first <= s < last ∧ s mod MAX_ENTRIES = j) → bv_get (clear_skipped first last v) j = false) ∧
    ((∀ s, first <= s < last → s mod MAX_ENTRIES ≠ j) → bv_get (clear_skipped first last v) j = bv_get v j).
Proof.
  intros Hv. unfold clear_skipped.
  assert (H : ∀ l v, bv_len v = MAX_ENTRIES →
    let v' := foldl (λ v s, bv_set v (s mod MAX_ENTRIES) false) v l in
    bv_len v' = MAX_ENTRIES ∧ ∀ j, 0 <= j < MAX_ENTRIES →
    ((∃ s, s ∈ l ∧ s mod MAX_ENTRIES = j) ∨ bv_get v j = false → bv_get v' j = false) ∧
    ((∀ s, s ∈ l → s mod MAX_ENTRIES ≠ j) → bv_get v' j = bv_get v j)).
  { clear v Hv. induction l as [|s l IH]; intros v Hv; cbn.
    { split; [done|]. intros j _. split; [|done]. by intros [(s & ?%elem_of_nil & _)|?]. }
    destruct (IH (bv_set v (s mod MAX_ENTRIES) false)) as [H1 H2]; [by rewrite bv_len_set|]. split; [done|]. intros j Hj.
    pose proof (slot_index s). destruct (H2 j Hj) as [H3 H4]. rewrite bv_get_set in H3, H4 by (rewrite Hv; done). split.
    - intros Hor. apply H3. destruct (Z.eqb_spec (s mod MAX_ENTRIES) j); [by right|].
      destruct Hor as [(s' & [->|Hs']%elem_of_cons & Heq)|?]; [done|left; eauto|by right].
    - intros Hn. rewrite H4 by (intros s' Hs'; apply Hn; by right).
      destruct (Z.eqb_spec (s mod MAX_ENTRIES) j) as [Heq|]; [|done]. exfalso. apply (Hn s); [by left|done]. }
  destruct (H (seqZ first (last - first)) v Hv) as [H1 H2]. split; [done|]. intros j Hj. destruct (H2 j Hj) as [H3 H4]. split.
  - intros (s & Hs & Heq). apply H3. left. exists s. split; [|done]. apply elem_of_seqZ. lia.
  - intros Hn. apply H4. intros s Hs%elem_of_seqZ. apply Hn. lia.
Qed.

(** Two slots with the same bit are a ring apart. *)
Lemma same_index s t : s < t → s mod MAX_ENTRIES = t mod MAX_ENTRIES → s + MAX_ENTRIES <= t.
Proof.
  intros Hlt Heq. pose proof (Z.div_mod s MAX_ENTRIES ltac:(done)). pose proof (Z.div_mod t MAX_ENTRIES ltac:(done)).
  unfold MAX_ENTRIES in *. change (1024 * 1024) with 1048576 in *. lia.
Qed.

Lemma add_holds A n h slot :
  holds A n h → 0 <= n <= slot → slot < u64_max → (∀ s, A s → s < n) →
  holds (λ s, A s ∨ s = slot) (slot + 1) (add slot h).
Proof.
  intros [Hl Hn Hb] Hs Hmax HA. unfold add. rewrite Hn.
  set (v := if _ && _ then _ else _).
  assert (Hv : bv_len v = MAX_ENTRIES ∧ ∀ s, Z.max 0 (slot + 1 - MAX_ENTRIES) <= s < slot →
    bv_get v (s mod MAX_ENTRIES) = true ↔ A s).
  { unfold v. destruct (Z.ltb_spec n slot); [destruct (Z.leb_spec MAX_ENTRIES (slot - n))|]; cbn [andb].
    - destruct (clear_blocks_spec (bits h) Hl) as [H1 H2]. split; [done|]. intros s Hss. rewrite H2 by apply slot_index.
      split; [done|]. intros ?%HA. lia.
    - destruct (clear_skipped_spec (bits h) n slot Hl) as [H1 H2]. split; [done|]. intros s Hss.
      destruct (H2 _ (slot_index s)) as [H3 H4]. destruct (Z.lt_ge_cases s n) as [Hlt|Hge].
      + rewrite H4; [apply Hb; lia|]. intros t Ht Heq. pose proof (same_index s t ltac:(lia) ltac:(done)). lia.
      + rewrite H3 by (exists s; lia). split; [done|]. intros ?%HA. lia.
    - assert (slot = n) as -> by lia. destruct (clear_skipped_spec (bits h) n n Hl) as [H1 H2]. split; [done|].
      intros s Hss. destruct (H2 _ (slot_index s)) as [_ H4]. rewrite H4 by (intros; lia). apply Hb. lia. }
  destruct Hv as [Hvl Hv]. split; cbn [bits next_slot].
  - by rewrite bv_len_set.
  - apply add64_id. unfold is_u64. lia.
  - intros s Hss. pose proof (slot_index s). pose proof (slot_index slot). rewrite bv_get_set by (rewrite Hvl; done).
    destruct (Z.eqb_spec (slot mod MAX_ENTRIES) (s mod MAX_ENTRIES)) as [Heq|Hne].
    + assert (s = slot); [|naive_solver]. destruct (Z.lt_trichotomy s slot) as [Hlt|[?|?]]; [|done|lia].
      pose proof (same_index s slot Hlt ltac:(done)). lia.
    + assert (s ≠ slot) by congruence. rewrite Hv by lia. naive_solver.
Qed.

Lemma default_holds : holds (λ s, s = 0) 1 SlotHistory_default.
Proof.
  split; cbn [bits next_slot SlotHistory_default].
  - by rewrite bv_len_set, bv_len_new.
  - done.
  - intros s Hs. assert (s = 0) as -> by (unfold MAX_ENTRIES in *; lia).
    rewrite bv_get_set by (rewrite bv_len_new; done). done.
Qed.

Lemma check_holds A n h s :
  holds A n h → 0 < n <= u64_max → 0 <= s →
  check s h = if n <=? s then Future else if s <? n - MAX_ENTRIES then TooOld
              else if bv_get (bits h) (s mod MAX_ENTRIES) then Found else NotFound.
Proof.
  intros [Hl Hn Hb] Hn' Hs. unfold check, newest, oldest, saturating_sub. rewrite Hn.
  rewrite sub64_id by (unfold is_u64; lia). destruct (Z.ltb_spec (n - 1) s), (Z.leb_spec n s); try lia; [done|].
  destruct (Z.ltb_spec s (Z.max (n - MAX_ENTRIES) 0)), (Z.ltb_spec s (n - MAX_ENTRIES)); try lia; done.
Qed.

(** The slot history refines the set of the slots added: after slots were
    added in increasing order, a slot is in the future if it is above the newest
    one, too old if it is a million or more below it, and otherwise found
    exactly if it was added. *)
Theorem slot_history_refines slots s :
  StronglySorted Z.lt (0 :: slots) → Forall (λ x, x < u64_max) slots → 0 <= s →
  check s (foldl (λ h x, add x h) SlotHistory_default slots) =
  if default 0 (last slots) <? s then Future
  else if s <=? default 0 (last slots) - MAX_ENTRIES then TooOld
  else if bool_decide (s ∈ 0 :: slots) then Found else NotFound.
Proof.
  intros Hsort Hmax Hs. set (top := default 0 (last slots)).
  assert (H : holds (λ x, x ∈ 0 :: slots) (top + 1) (foldl (λ h x, add x h) SlotHistory_default slots) ∧
    Forall (λ x, x <= top) (0 :: slots) ∧ 0 <= top < u64_max).
  { revert Hsort Hmax top. induction slots as [|x slots IH] using rev_ind; intros Hsort Hmax top.
    - split_and!; [|repeat constructor; done|cbn; done|unfold u64_max; cbn; lia].
      destruct default_holds as [H1 H2 H3]. split; [done..|]. intros y Hy. rewrite H3 by done. set_solver.
    - apply Forall_app in Hmax as [Hmax Hx]. rewrite Forall_singleton in Hx. cbv beta in Hx.
      rewrite app_comm_cons in Hsort. apply StronglySorted_app in Hsort as (Hlt & Hsort1 & _).
      destruct (IH Hsort1 Hmax) as (IH1 & IH2 & IH3). clear IH. unfold top. rewrite last_snoc. change (default 0 (Some x)) with x.
      set (t := default 0 (last slots)) in *.
      assert (Hall : Forall (λ y, y < x) (0 :: slots)).
      { apply Forall_forall. intros y Hy. apply Hlt; [done|]. by left. }
      assert (Htx : t < x).
      { unfold t. destruct (last slots) as [l|] eqn:Hl; cbn; [|by apply Forall_cons in Hall as [? _]].
        apply last_Some in Hl as [sl ->]. by apply (proj1 (Forall_forall _ _) Hall); set_solver. }
      rewrite foldl_snoc. split_and!; [|apply Forall_forall|lia..].
      + pose proof (add_holds _ _ _ x IH1 ltac:(lia) Hx) as [H1 H2 H3].
        { intros y Hy. apply (proj1 (Forall_forall _ _) IH2) in Hy. lia. }
        split; [done..|]. intros y Hy. rewrite H3, app_comm_cons, elem_of_app, list_elem_of_singleton by done. done.
      + intros y. rewrite app_comm_cons, elem_of_app, list_elem_of_singleton. intros [Hy| ->]; [|lia].
        apply (proj1 (Forall_forall _ _) Hall) in Hy. lia. }
  destruct H as (Hh & Hall & Htop). rewrite (check_holds _ _ _ s Hh) by lia.
  destruct (Z.leb_spec (top + 1) s), (Z.ltb_spec top s); try lia; [done|].
  destruct (Z.ltb_spec s (top + 1 - MAX_ENTRIES)), (Z.leb_spec s (top - MAX_ENTRIES)); try lia; [done|].
  pose proof (h_bits _ _ _ Hh s ltac:(lia)) as Hb. case_bool_decide as Hin.
  - by rewrite (proj2 Hb Hin).
  - destruct (bv_get _ _); [|done]. by destruct Hin; apply Hb.
Qed.
End model.

Module example.
(** Bit vectors as their length and the function from index to bit. *)
#[export] Instance fun_bitvec : BitVec := {|
  bitvec := Z * (Z → bool);
  bv_new_fill b n := (n, λ _, b);
  bv_len v := v.1;
  bv_get v i := v.2 i;
  bv_set v i b := (v.1, λ j, if i =? j then b else v.2 j);
  bv_set_block v i w := (v.1, λ j, if j / 64 =? i then Z.testbit w (j mod 64) else v.2 j);
|}.
#[export] Instance fun_bitvec_ok : BitVecOk.
Proof. by split. Qed.

Lemma slot_history_refines_witness :
  check 20 (foldl (λ h x, add x h) SlotHistory_default [2; 20; 2000000; 2000001]) = TooOld ∧
  check 20 (foldl (λ h x, add x h) SlotHistory_default [2; 20; 30]) = Found.
Proof.
  split; (etrans; [eapply slot_history_refines; [repeat constructor..|discriminate]|vm_compute; reflexivity]).
Defined.
End example.
End slot_history.
