(* ===== verification/RollingBitField.v ===== *)
(** * Sets of slots in a rolling bit field

    Models the [RollingBitField] of [runtime/src/accounts_index.rs], a set of
    slots with a window of bits for the recent ones and a hash set for the
    others, and the [Ancestors] of [runtime/src/ancestors.rs] made of it.  As
    long as no slot below one that left the window is inserted into an empty
    window, it refines a set. *)

From S2P Require Import Prelude Account Sysvar SlotHistory.

Module rolling.

Section model.
Context `{BV : !BitVec}.

Record RollingBitField : Type := mkRBF {
  max_width : Z;
  rb_min : Z;
  rb_max : Z;
  rb_bits : bitvec;
  rb_count : Z;
  excess : gset Z;
}.

Definition is_power_of_two (n : Z) : bool := (0 <? n) && (2 ^ Z.log2 n =? n).

Definition new (max_width : Z) : res Empty_set RollingBitField :=
  if (0 <? max_width) && is_power_of_two max_width
  then Ok (mkRBF max_width 0 0 (bv_new_fill false max_width) 0 ∅)
  else Panic.

Definition get_address (key : Z) (f : RollingBitField) : Z := key mod max_width f.

Definition range_width (f : RollingBitField) : Z := sub64 (rb_max f) (rb_min f).

Definition all_items_in_excess (f : RollingBitField) : bool := Z.of_nat (size (excess f)) =? rb_count f.

(** The result may be aliased: the key must be in the window. *)
Definition contains_assume_in_range (key : Z) (f : RollingBitField) : bool := bv_get (rb_bits f) (get_address key f).

Definition contains (key : Z) (f : RollingBitField) : bool :=
  if key <? rb_max f then
    if rb_min f <=? key then contains_assume_in_range key f else bool_decide (key ∈ excess f)
  else false.

Definition len (f : RollingBitField) : Z := rb_count f.
Definition is_empty (f : RollingBitField) : bool := len f =? 0.

Definition with_min (m : Z) (f : RollingBitField) : RollingBitField :=
  mkRBF (max_width f) m (rb_max f) (rb_bits f) (rb_count f) (excess f).
Definition set_bit (key : Z) (b : bool) (f : RollingBitField) : RollingBitField :=
  mkRBF (max_width f) (rb_min f) (rb_max f) (bv_set (rb_bits f) (get_address key f) b) (rb_count f) (excess f).
Definition with_excess (s : gset Z) (n : Z) (f : RollingBitField) : RollingBitField :=
  mkRBF (max_width f) (rb_min f) (rb_max f) (rb_bits f) n s.

(** The smallest item of the window and of the hash set. *)
Definition rb_min_item (f : RollingBitField) : option Z :=
  if is_empty f then None
  else if bool_decide (excess f = ∅) then Some (rb_min f)
  else Some (foldr Z.min (if all_items_in_excess f then u64_max else rb_min f) (elements (excess f))).

Definition purge (key : Z) (f : RollingBitField) : RollingBitField :=
  if (0 <? rb_count f) && negb (all_items_in_excess f) then
    if key =? rb_min f then
      match list_find (λ k, contains_assume_in_range k f = true) (seqZ (rb_min f + 1) (rb_max f - (rb_min f + 1))) with
      | Some (_, k) => with_min k f
      | None => f
      end
    else f
  else with_min (rb_max f) f.

(** The loop of [insert]: items leave the window until a key below [new_max]
    fits, or none is left. *)
Fixpoint make_room (fuel : nat) (new_max : Z) (f : RollingBitField) : res Empty_set (RollingBitField * bool) :=
  if saturating_sub new_max (rb_min f) <=? max_width f then Ok (f, false)
  else match fuel with
  | O => Panic
  | S fuel =>
      if bool_decide (rb_min f ∈ excess f) then Panic
      else
        let key := rb_min f in
        let f := purge key (set_bit key false (with_excess ({[key]} ∪ excess f) (rb_count f) f)) in
        if all_items_in_excess f then Ok (f, true) else make_room fuel new_max f
  end.

(** The end of [insert]: the bit of the key is set. *)
Definition insert_bit (key : Z) (bits_empty : bool) (f : RollingBitField) : res Empty_set RollingBitField :=
  if contains_assume_in_range key f then Ok f
  else
    let f := set_bit key true f in
    let '(mn, mx) :=
      if bits_empty then (key, add64 key 1)
      else (Z.min (rb_min f) key, Z.max (rb_max f) (add64 key 1)) in
    if bits_empty || (mx <=? add64 mn (max_width f))
    then Ok (mkRBF (max_width f) mn mx (rb_bits f) (rb_count f + 1) (excess f))
    else Panic.

Definition insert (key : Z) (f : RollingBitField) : res Empty_set RollingBitField :=
  let bits_empty := (rb_count f =? 0) || all_items_in_excess f in
  if bits_empty then insert_bit key true f
  else if key <? rb_min f then
    Ok (if bool_decide (key ∈ excess f) then f else with_excess ({[key]} ∪ excess f) (rb_count f + 1) f)
  else if key <? rb_max f then insert_bit key false f
  else
    '(f, bits_empty) ← make_room (Z.to_nat (rb_count f)) (add64 key 1) f;
    insert_bit key bits_empty f.

Definition remove (key : Z) (f : RollingBitField) : RollingBitField * bool :=
  if rb_min f <=? key then
    if key <? rb_max f then
      if contains_assume_in_range key f then
        (purge key (set_bit key false (with_excess (excess f) (rb_count f - 1) f)), true)
      else (f, false)
    else (f, false)
  else if bool_decide (key ∈ excess f) then (with_excess (excess f ∖ {[key]}) (rb_count f - 1) f, true)
  else (f, false).

Definition clear (f : RollingBitField) : res Empty_set RollingBitField := new (max_width f).

Definition get_all (f : RollingBitField) : list Z :=
  elements (excess f) ++ filter (λ k, contains_assume_in_range k f = true) (seqZ (rb_min f) (rb_max f - rb_min f)).

(** [PartialEq] *)
Definition rb_eqb (f g : RollingBitField) : bool :=
  (len f =? len g) && forallb (λ k, contains k g) (get_all f).

(** ** Ancestors *)

Definition ANCESTORS_HASH_MAP_SIZE : Z := 8192.

Definition Ancestors_default : res Empty_set RollingBitField := new ANCESTORS_HASH_MAP_SIZE.

(** [From<Vec<Slot>>]: the smallest slot is inserted first. *)
Definition Ancestors_from (source : list Slot) : res Empty_set RollingBitField :=
  a ← Ancestors_default;
  foldM (λ a slot, insert slot a) a (sort_by Z.leb source).

Definition keys (a : RollingBitField) : list Slot := get_all a.
Definition max_slot (a : RollingBitField) : Slot := sub64 (rb_max a) 1.

(** ** The set it stands for *)

Context `{BVok : !BitVecOk}.

(** The bits are those of the keys [B], all of the window. *)
Record window (B : gset Z) (f : RollingBitField) : Prop := {
  w_width : 0 < max_width f;
  w_len : bv_len (rb_bits f) = max_width f;
  w_range : 0 <= rb_min f <= rb_max f;
  w_fits : rb_max f - rb_min f <= max_width f;
  w_keys k : k ∈ B → rb_min f <= k < rb_max f;
  w_bits a : 0 <= a < max_width f → bv_get (rb_bits f) a = true ↔ ∃ k, k ∈ B ∧ k mod max_width f = a;
  w_count : rb_count f = Z.of_nat (size (excess f)) + Z.of_nat (size B);
}.

(** [B] are the items of the window; the others are below it. *)
Record inv (B : gset Z) (f : RollingBitField) : Prop := {
  i_window : window B f;
  i_min : B ≠ ∅ → rb_min f ∈ B;
  i_empty : B = ∅ → rb_min f = rb_max f;
  i_excess x : x ∈ excess f → 0 <= x < rb_min f;
}.

Lemma mod_inj w a b : 0 < w → - w < a - b < w → a mod w = b mod w → a = b.
Proof.
  intros Hw Hab H. pose proof (Z.div_mod a w ltac:(lia)). pose proof (Z.div_mod b w ltac:(lia)). rewrite H in *.
  assert (a / w = b / w) by nia. nia.
Qed.

Lemma window_bit B f k : window B f → rb_min f <= k < rb_max f → contains_assume_in_range k f = bool_decide (k ∈ B).
Proof.
  intros [Hw Hl Hr Hf Hk Hb Hc] Hin. unfold contains_assume_in_range, get_address.
  pose proof (Hb (k mod max_width f) (Z.mod_pos_bound k _ Hw)) as Hbk. apply eq_true_iff_eq. rewrite Hbk, bool_decide_eq_true.
  split; [|by exists k]. intros (k' & Hk' & Hm). pose proof (Hk _ Hk'). apply mod_inj in Hm as ->; [done|done|lia].
Qed.

Lemma all_in_excess_iff B f : window B f → all_items_in_excess f = bool_decide (B = ∅).
Proof.
  intros Hw. unfold all_items_in_excess. rewrite (w_count _ _ Hw). apply eq_true_iff_eq. rewrite Z.eqb_eq, bool_decide_eq_true.
  rewrite <-leibniz_equiv_iff, <-size_empty_iff. lia.
Qed.

Lemma clear_bit_window B f key e n :
  window B f → rb_min f <= key < rb_max f → n = Z.of_nat (size e) + Z.of_nat (size (B ∖ {[key]})) →
  window (B ∖ {[key]}) (set_bit key false (with_excess e n f)).
Proof.
  intros [Hw Hl Hr Hf Hk Hb Hc] Hin Hn. pose proof (Z.mod_pos_bound key _ Hw) as Hm.
  split; cbn [max_width rb_min rb_max rb_bits rb_count excess set_bit with_excess get_address]; try done.
  - by rewrite bv_len_set.
  - intros k [? _]%elem_of_difference. by apply Hk.
  - intros a Ha. rewrite bv_get_set by (unfold get_address; cbn; rewrite Hl; lia). unfold get_address. cbn. destruct (Z.eqb_spec (key mod max_width f) a) as [<-|Hne].
    + split; [done|]. intros (k & [Hk1 Hk2]%elem_of_difference & Heq). pose proof (Hk _ Hk1). apply mod_inj in Heq as ->; [set_solver|done|lia].
    + rewrite Hb by done. split; intros (k & Hk1 & Heq); exists k; [|set_solver]. split; [|done]. apply elem_of_difference. split; [done|].
      intros ->%elem_of_singleton. done.
Qed.

Lemma purge_inv B f key :
  window B f → rb_min f <= key < rb_max f → key ∉ B → (key ≠ rb_min f → rb_min f ∈ B) →
  (∀ x, x ∈ excess f → 0 <= x < rb_min f ∨ x = rb_min f ∧ key = rb_min f) →
  inv B (purge key f) ∧ excess (purge key f) = excess f ∧ rb_max (purge key f) = rb_max f ∧
  max_width (purge key f) = max_width f ∧ rb_count (purge key f) = rb_count f.
Proof.
  intros Hw Hin Hnot Hmin Hex. unfold purge. rewrite (all_in_excess_iff B f Hw). pose proof Hw as [Hwd Hl Hr Hf Hk Hb Hc].
  case_bool_decide as HB; cbn [negb].
  { rewrite andb_false_r. split; [|done]. split; cbn; [|done|done|].
    - split; cbn; try done; [lia..|]. subst B. set_solver.
    - intros x Hx. destruct (Hex x Hx); lia. }
  assert (0 < rb_count f) as Hpos.
  { rewrite Hc. assert (size B ≠ 0%nat) by (rewrite size_empty_iff, leibniz_equiv_iff; done). lia. }
  destruct (Z.ltb_spec 0 (rb_count f)); [|lia]. cbn [andb]. destruct (Z.eqb_spec key (rb_min f)) as [->|Hne].
  2:{ split; [|done]. split; [done|by auto|done|]. intros x Hx. destruct (Hex x Hx) as [|[_ ?]]; [done|congruence]. }
  destruct (list_find _ _) as [[j k0]|] eqn:Hfind.
  - apply list_find_Some in Hfind as (Hj & Hbit & Hfirst). apply lookup_seqZ in Hj as [-> Hlt].
    assert (Hk0 : rb_min f <= rb_min f + 1 + Z.of_nat j < rb_max f) by lia.
    rewrite (window_bit B f _ Hw Hk0) in Hbit. apply bool_decide_eq_true in Hbit. split; [|done].
    assert (Hle : ∀ k, k ∈ B → rb_min f + 1 + Z.of_nat j <= k).
    { intros k Hkk. pose proof (Hk _ Hkk). assert (k ≠ rb_min f) by (by intros ->). destruct (decide (k < rb_min f + 1 + Z.of_nat j)) as [Hlt'|]; [|lia].
      exfalso. refine (Hfirst (Z.to_nat (k - (rb_min f + 1))) k _ _ _).
      - apply lookup_seqZ. lia.
      - lia.
      - rewrite (window_bit B f _ Hw) by lia. by apply bool_decide_eq_true. }
    split; cbn; [|done|done|].
    + split; cbn; try done; [lia..|]. intros k Hkk. pose proof (Hle _ Hkk). pose proof (Hk _ Hkk). lia.
    + intros x Hx. destruct (Hex x Hx); lia.
  - exfalso. apply set_choose_L in HB as [k Hkk]. pose proof (Hk _ Hkk). assert (k ≠ rb_min f) by (by intros ->).
    apply list_find_None in Hfind. rewrite Forall_forall in Hfind. apply (Hfind k); [apply elem_of_seqZ; lia|].
    rewrite (window_bit B f _ Hw) by lia. by apply bool_decide_eq_true.
Qed.

(** Taking [key] out of the window, with [e] as the new hash set. *)
Lemma drop_key B f key e :
  inv B f → key ∈ B → (∀ x, x ∈ e → 0 <= x < rb_min f ∨ x = rb_min f ∧ key = rb_min f) →
  let n := Z.of_nat (size e) + Z.of_nat (size (B ∖ {[key]})) in
  let f' := purge key (set_bit key false (with_excess e n f)) in
  inv (B ∖ {[key]}) f' ∧ excess f' = e ∧ rb_max f' = rb_max f ∧ max_width f' = max_width f ∧ rb_count f' = n.
Proof.
  intros [Hw Hmin Hemp Hex] Hkey He n f'. pose proof (w_keys _ _ Hw _ Hkey) as Hin. unfold f'.
  edestruct (purge_inv (B ∖ {[key]}) (set_bit key false (with_excess e n f)) key) as (? & ? & ? & ? & ?); [by apply clear_bit_window|done| | | |done].
  - set_solver.
  - cbn. intros Hne. apply elem_of_difference. split; [apply Hmin; set_solver|]. intros ?%elem_of_singleton. congruence.
  - done.
Qed.

Lemma size_remove (B : gset Z) k : k ∈ B → Z.of_nat (size (B ∖ {[k]})) = Z.of_nat (size B) - 1.
Proof.
  intros Hk. rewrite size_difference by set_solver. rewrite size_singleton.
  assert (1 ≤ size B)%nat; [|lia]. rewrite <-(size_singleton (C:=gset Z) k). apply subseteq_size. set_solver.
Qed.

Lemma size_add (B : gset Z) k : k ∉ B → Z.of_nat (size ({[k]} ∪ B)) = Z.of_nat (size B) + 1.
Proof. intros Hk. rewrite size_union by set_solver. rewrite size_singleton. lia. Qed.

Lemma make_room_spec fuel : ∀ B f new_max,
  inv B f → B ≠ ∅ → rb_max f < new_max → (size B ≤ fuel)%nat →
  ∃ f' B' empty, make_room fuel new_max f = Ok (f', empty) ∧ inv B' f' ∧ excess f' ∪ B' = excess f ∪ B ∧
    rb_max f' = rb_max f ∧ max_width f' = max_width f ∧ empty = bool_decide (B' = ∅) ∧
    (empty = false → new_max - rb_min f' <= max_width f).
Proof.
  induction fuel as [|fuel IH]; intros B f new_max Hi HB Hnew Hf; cbn [make_room].
  { assert (size B ≠ 0%nat) by (rewrite size_empty_iff, leibniz_equiv_iff; done). lia. }
  pose proof (i_min _ _ Hi HB) as Hmin. pose proof (w_range _ _ (i_window _ _ Hi)) as Hr. unfold saturating_sub.
  rewrite Z.max_l by lia. destruct (Z.leb_spec (new_max - rb_min f) (max_width f)) as [Hle|Hgt].
  { exists f, B, false. split_and!; [done..|by rewrite bool_decide_eq_false_2|done]. }
  rewrite bool_decide_eq_false_2 by (intros ?%(i_excess _ _ Hi); lia).
  assert (Hnx : rb_min f ∉ excess f) by (intros ?%(i_excess _ _ Hi); lia).
  assert (Hcount : rb_count f = Z.of_nat (size ({[rb_min f]} ∪ excess f)) + Z.of_nat (size (B ∖ {[rb_min f]}))).
  { rewrite size_add, size_remove, (w_count _ _ (i_window _ _ Hi)) by done. lia. }
  rewrite Hcount. destruct (drop_key B f (rb_min f) ({[rb_min f]} ∪ excess f) Hi Hmin) as (Hi' & He' & Hm' & Hw' & _).
  { intros x [->%elem_of_singleton|?%(i_excess _ _ Hi)]%elem_of_union; [by right|by left]. }
  set (f' := purge _ _) in *. rewrite (all_in_excess_iff _ _ (i_window _ _ Hi')).
  assert (Hun : excess f' ∪ B ∖ {[rb_min f]} = excess f ∪ B).
  { rewrite He'. apply set_eq. intros x. rewrite !elem_of_union, elem_of_difference, elem_of_singleton. destruct (decide (x = rb_min f)) as [->|]; set_solver. }
  case_bool_decide as Hempty.
  - exists f', (B ∖ {[rb_min f]}), true. split_and!; [done..|by rewrite bool_decide_eq_true_2|done].
  - destruct (IH (B ∖ {[rb_min f]}) f' new_max Hi' Hempty) as (f2 & B2 & em & Hrun & Hi2 & Hu2 & Hm2 & Hw2 & Hem & Hfit).
    + lia.
    + pose proof (size_remove B _ Hmin). lia.
    + exists f2, B2, em. rewrite Hu2, Hun, Hm2, Hw2. rewrite Hw' in Hfit. by split_and!.
Qed.

(** Setting a bit: into an empty window, or into one that holds the key. *)
Lemma insert_bit_spec B f key :
  inv B f → 0 <= key → key + max_width f <= u64_max →
  (if bool_decide (B = ∅) then ∀ x, x ∈ excess f → x < key else rb_min f <= key ∧ key + 1 - rb_min f <= max_width f) →
  ∃ f', insert_bit key (bool_decide (B = ∅)) f = Ok f' ∧ inv ({[key]} ∪ B) f' ∧ excess f' = excess f ∧ max_width f' = max_width f.
Proof.
  intros Hi Hk0 Hku Hcase. pose proof Hi as [Hw Hmin Hemp Hex]. pose proof Hw as [Hwd Hl Hr Hf Hk Hb Hc]. unfold insert_bit.
  assert (Hbit : contains_assume_in_range key f = bool_decide (key ∈ B)).
  { unfold contains_assume_in_range, get_address. apply eq_true_iff_eq. rewrite Hb by (by apply Z.mod_pos_bound). rewrite bool_decide_eq_true.
    split; [|by exists key]. intros (k & Hkk & Hm). pose proof (Hk _ Hkk). rewrite bool_decide_eq_false_2 in Hcase by set_solver.
    apply mod_inj in Hm as ->; [done|done|lia]. }
  rewrite Hbit. destruct (bool_decide_reflect (key ∈ B)) as [Hin|Hout].
  { exists f. replace ({[key]} ∪ B) with B by set_solver. done. }
  cbn [set_bit rb_min rb_max rb_bits rb_count excess max_width]. rewrite (add64_id key 1) by (unfold is_u64; lia).
  assert (Hbits : ∀ a, 0 <= a < max_width f → bv_get (bv_set (rb_bits f) (get_address key f) true) a = true ↔ ∃ k, k ∈ {[key]} ∪ B ∧ k mod max_width f = a).
  { intros a Ha. pose proof (Z.mod_pos_bound key _ Hwd). unfold get_address. rewrite bv_get_set by (rewrite Hl; lia).
    destruct (Z.eqb_spec (key mod max_width f) a) as [<-|Hne]; [split; [|done]; intros _; exists key; set_solver|].
    rewrite Hb by done. split; intros (k & Hkk & Hm); exists k; [set_solver|]. apply elem_of_union in Hkk as [->%elem_of_singleton|]; done. }
  assert (Hsize : rb_count f + 1 = Z.of_nat (size (excess f)) + Z.of_nat (size ({[key]} ∪ B))) by (rewrite size_add by done; lia).
  destruct (bool_decide_reflect (B = ∅)) as [HB|HB]; cbn [orb].
  - eexists. split; [reflexivity|split; [|done]]. subst B. split; cbn; [|set_solver|set_solver|intros x Hx; specialize (Hcase x Hx); pose proof (Hex x Hx); lia].
    split; cbn; try done; [by rewrite bv_len_set|lia|lia|]. intros k. rewrite elem_of_union, elem_of_singleton. intros [->|?%elem_of_empty]; [lia|done].
  - destruct Hcase as [Hge Hfit]. rewrite (Z.min_l (rb_min f)) by lia. rewrite (add64_id (rb_min f)) by (unfold is_u64; lia).
    destruct (Z.leb_spec (rb_max f `max` (key + 1)) (rb_min f + max_width f)); [|lia].
    eexists. split; [reflexivity|split; [|done]]. split; cbn; [|set_solver|set_solver|done].
    split; cbn; try done; [by rewrite bv_len_set|lia|lia|]. intros k [->%elem_of_singleton|?%Hk]%elem_of_union; lia.
Qed.

(** The caller's duty: into an empty window only above what has left it. *)
Definition safe (key : Z) (f : RollingBitField) : Prop := all_items_in_excess f = true → ∀ x, x ∈ excess f → x < key.

Lemma insert_spec B f key :
  inv B f → 0 <= key → key + max_width f <= u64_max → safe key f →
  ∃ f' B', insert key f = Ok f' ∧ inv B' f' ∧ excess f' ∪ B' = {[key]} ∪ (excess f ∪ B) ∧ max_width f' = max_width f ∧
    (B = ∅ ∨ rb_min f <= key → key ∈ B').
Proof.
  intros Hi Hk0 Hku Hsafe. pose proof (i_window _ _ Hi) as Hw. unfold insert. unfold safe in Hsafe. rewrite (all_in_excess_iff B f Hw) in *.
  assert (Hbe : (rb_count f =? 0) || bool_decide (B = ∅) = bool_decide (B = ∅)).
  { destruct (Z.eqb_spec (rb_count f) 0) as [H0|]; [|done]. symmetry. apply bool_decide_eq_true, leibniz_equiv, size_empty_iff. pose proof (w_count _ _ Hw). lia. }
  rewrite Hbe. destruct (bool_decide_reflect (B = ∅)) as [HB|HB].
  { destruct (insert_bit_spec B f key Hi Hk0 Hku) as (f' & Hrun & Hi' & He & Hmw); [by rewrite bool_decide_eq_true_2; auto|].
    rewrite bool_decide_eq_true_2 in Hrun by done. exists f', ({[key]} ∪ B). rewrite Hrun, He. split_and!; [done|done|set_solver +|done|set_solver +]. }
  pose proof (w_range _ _ Hw). destruct (Z.ltb_spec key (rb_min f)).
  { eexists _, B. split; [reflexivity|]. case_bool_decide as Hin; [split_and!; [done|set_solver|done|intros []; [done|lia]]|].
    split_and!; [|cbn; set_solver|done|intros []; [done|lia]]. destruct Hi as [[] Hm He Hx]. split; cbn; [|done|done|].
    - split; cbn; try done. rewrite size_add by done. lia.
    - intros x [->%elem_of_singleton|?]%elem_of_union; [lia|by apply Hx]. }
  destruct (Z.ltb_spec key (rb_max f)).
  { pose proof (w_fits _ _ Hw). destruct (insert_bit_spec B f key Hi Hk0 Hku) as (f' & Hrun & Hi' & He & Hmw); [rewrite bool_decide_eq_false_2 by done; lia|].
    rewrite bool_decide_eq_false_2 in Hrun by done. exists f', ({[key]} ∪ B). rewrite Hrun, He. split_and!; [done|done|set_solver +|done|set_solver +]. }
  rewrite (add64_id key 1) by (unfold is_u64; pose proof (w_width _ _ Hw); lia).
  destruct (make_room_spec (Z.to_nat (rb_count f)) B f (key + 1) Hi HB) as (f1 & B1 & em & Hrun & Hi1 & Hu & Hm1 & Hw1 & -> & Hfit); [lia| |].
  { rewrite (w_count _ _ Hw). lia. }
  rewrite Hrun. cbn [mbind res_bind]. pose proof (w_range _ _ (i_window _ _ Hi1)).
  destruct (insert_bit_spec B1 f1 key Hi1 Hk0) as (f' & Hrun' & Hi' & He & Hmw); [by rewrite Hw1| |].
  - case_bool_decide; [intros x ?%(i_excess _ _ Hi1); lia|]. rewrite Hw1. specialize (Hfit ltac:(done)). lia.
  - exists f', ({[key]} ∪ B1). rewrite Hrun', He. split_and!; [done|done|rewrite <-Hu; set_solver +|congruence|set_solver +].
Qed.

Lemma rolling_remove_spec B f key :
  inv B f → ∃ B', inv B' (remove key f).1 ∧ excess (remove key f).1 ∪ B' = (excess f ∪ B) ∖ {[key]} ∧
    (remove key f).2 = bool_decide (key ∈ excess f ∪ B) ∧ max_width (remove key f).1 = max_width f.
Proof.
  intros Hi. pose proof (i_window _ _ Hi) as Hw. unfold remove. pose proof (w_range _ _ Hw). destruct (Z.leb_spec (rb_min f) key) as [Hge|Hlt].
  - assert (Hne : key ∉ excess f) by (intros ?%(i_excess _ _ Hi); lia). destruct (Z.ltb_spec key (rb_max f)).
    + rewrite (window_bit B f key Hw) by lia. case_bool_decide as Hin.
      * assert (Hcount : rb_count f - 1 = Z.of_nat (size (excess f)) + Z.of_nat (size (B ∖ {[key]}))) by (rewrite size_remove, (w_count _ _ Hw) by done; lia).
        rewrite Hcount. destruct (drop_key B f key (excess f) Hi Hin) as (Hi' & He' & _ & Hw' & _); [intros x ?%(i_excess _ _ Hi); by left|].
        exists (B ∖ {[key]}). cbn [fst snd]. rewrite He', Hw'. rewrite bool_decide_eq_true_2 by set_solver. split_and!; [done|set_solver|done|done].
      * exists B. cbn. rewrite bool_decide_eq_false_2 by set_solver. split_and!; [done|set_solver|done|done].
    + exists B. cbn. assert (key ∉ B) by (intros ?%(w_keys _ _ Hw); lia). rewrite bool_decide_eq_false_2 by set_solver. split_and!; [done|set_solver|done|done].
  - assert (Hnb : key ∉ B) by (intros ?%(w_keys _ _ Hw); lia). case_bool_decide as Hin; exists B; cbn.
    + rewrite bool_decide_eq_true_2 by set_solver. split_and!; [|set_solver|done|done]. destruct Hi as [[] Hm He Hx]. split; cbn; [|done|done|set_solver].
      split; cbn; try done. rewrite size_remove by done. lia.
    + rewrite bool_decide_eq_false_2 by set_solver. split_and!; [done|set_solver|done|done].
Qed.

(** The sets a field has stood for, by the operations on it. *)
Inductive run (w : Z) : gset Z → RollingBitField → Prop :=
  | run_new f : new w = Ok f → run w ∅ f
  | run_insert A f key f' :
      run w A f → 0 <= key → key + w <= u64_max → safe key f → insert key f = Ok f' → run w ({[key]} ∪ A) f'
  | run_remove A f key : run w A f → run w (A ∖ {[key]}) (remove key f).1.

Lemma new_inv w f : 0 <= w → new w = Ok f → inv ∅ f ∧ excess f = ∅ ∧ max_width f = w.
Proof.
  intros Hw0. unfold new. destruct (Z.ltb_spec 0 w) as [Hw|]; [|done]. cbn [andb]. destruct (is_power_of_two w); [|done]. intros [= <-]. split; [|done].
  split; cbn; [|done|done|set_solver]. split; cbn; try done; try lia; [by apply bv_len_new|].
  intros a Ha. rewrite bv_get_new by done. split; [done|]. by intros (k & ?%elem_of_empty & _).
Qed.

Lemma rolling_run_inv w A f : 0 <= w → run w A f → max_width f = w ∧ ∃ B, inv B f ∧ A = excess f ∪ B.
Proof.
  intros Hw0. induction 1 as [f Hn|A f key f' _ [Hw (B & Hi & ->)] Hk Hku Hs Hr|A f key _ [Hw (B & Hi & ->)]].
  - destruct (new_inv w f Hw0 Hn) as (Hi & He & Hw). split; [done|]. exists ∅. rewrite He. split; [done|set_solver].
  - destruct (insert_spec B f key Hi Hk) as (f2 & B' & Hr' & Hi' & Hu & Hw' & _); [by rewrite Hw|done|]. rewrite Hr in Hr'. injection Hr' as <-.
    split; [congruence|]. by exists B'.
  - destruct (rolling_remove_spec B f key Hi) as (B' & Hi' & Hu & _ & Hw'). split; [congruence|]. by exists B'.
Qed.

Lemma contains_spec B f k : inv B f → contains k f = bool_decide (k ∈ excess f ∪ B).
Proof.
  intros Hi. pose proof (i_window _ _ Hi) as Hw. pose proof (w_range _ _ Hw). unfold contains.
  assert (Hx : k ∈ excess f → k < rb_min f) by (intros ?%(i_excess _ _ Hi); lia).
  assert (Hb : k ∈ B → rb_min f <= k < rb_max f) by apply (w_keys _ _ Hw).
  destruct (Z.ltb_spec k (rb_max f)); [destruct (Z.leb_spec (rb_min f) k)|].
  - rewrite (window_bit B f k Hw) by lia. apply bool_decide_ext. rewrite elem_of_union. split; [by right|]. intros [?%Hx|]; [lia|done].
  - apply bool_decide_ext. rewrite elem_of_union. split; [by left|]. intros [|?%Hb]; [done|lia].
  - symmetry. apply bool_decide_eq_false. rewrite elem_of_union. intros [?%Hx|?%Hb]; lia.
Qed.

Lemma len_spec B f : inv B f → len f = Z.of_nat (size (excess f ∪ B)).
Proof.
  intros Hi. unfold len. rewrite (w_count _ _ (i_window _ _ Hi)), size_union; [lia|].
  intros x Hx%(i_excess _ _ Hi) Hb%(w_keys _ _ (i_window _ _ Hi)). lia.
Qed.

Lemma get_all_spec B f : inv B f → get_all f ≡ₚ elements (excess f ∪ B).
Proof.
  intros Hi. pose proof (i_window _ _ Hi) as Hw. unfold get_all. apply NoDup_Permutation; [|apply NoDup_elements|].
  - apply NoDup_app. split_and!; [apply NoDup_elements| |apply NoDup_filter, NoDup_seqZ].
    intros x ?%elem_of_elements%(i_excess _ _ Hi). rewrite list_elem_of_filter, elem_of_seqZ. lia.
  - intros x. rewrite elem_of_app, !elem_of_elements, elem_of_union, list_elem_of_filter, elem_of_seqZ. apply or_iff_compat_l.
    split; [intros [Hb Hr]; rewrite (window_bit B f x Hw) in Hb by lia; by apply bool_decide_eq_true in Hb|].
    intros Hx. pose proof (w_keys _ _ Hw _ Hx). rewrite (window_bit B f x Hw) by lia. split; [by apply bool_decide_eq_true|lia].
Qed.

Lemma foldr_min_spec m (l : list Z) : (foldr Z.min m l = m ∨ foldr Z.min m l ∈ l) ∧ foldr Z.min m l <= m ∧ ∀ x, x ∈ l → foldr Z.min m l <= x.
Proof.
  induction l as [|y l (IH1 & IH2 & IH3)]; cbn; [split_and!; [by left|lia|by intros x ?%elem_of_nil]|]. split_and!; [|lia|].
  - destruct (Z.min_spec y (foldr Z.min m l)) as [[_ ->]|[_ ->]]; [right; left|destruct IH1; [by left|by right; right]].
  - intros x [->|?%IH3]%elem_of_cons; lia.
Qed.

Lemma min_spec B f m : inv B f → (∀ x, x ∈ excess f ∪ B → x <= u64_max) → rb_min_item f = Some m → m ∈ excess f ∪ B ∧ ∀ x, x ∈ excess f ∪ B → m <= x.
Proof.
  intros Hi Hu. pose proof (i_window _ _ Hi) as Hw. unfold rb_min_item, is_empty. rewrite (all_in_excess_iff B f Hw).
  destruct (Z.eqb_spec (len f) 0) as [|Hne]; [done|]. pose proof (w_keys _ _ Hw) as Hk. case_bool_decide as He.
  - intros [= <-]. rewrite He in *. assert (HB : B ≠ ∅) by (intros ->; rewrite (len_spec _ _ Hi), He in Hne; done).
    split; [apply elem_of_union_r, (i_min _ _ Hi HB)|]. intros x [?%elem_of_empty|?%Hk]%elem_of_union; [done|lia].
  - intros [= <-]. set (m0 := if bool_decide (B = ∅) then u64_max else rb_min f). destruct (foldr_min_spec m0 (elements (excess f))) as (H1 & H2 & H3). set (m := foldr _ _ _) in *.
    assert (Hle : ∀ x, x ∈ excess f ∪ B → m <= x).
    { intros x Hx. pose proof (Hu _ Hx). apply elem_of_union in Hx as [Hx|Hx]; [apply H3; by apply elem_of_elements|]. unfold m0 in H2. rewrite bool_decide_eq_false_2 in H2 by set_solver.
      pose proof (Hk _ Hx). lia. }
    split; [|done]. destruct H1 as [H1|?%elem_of_elements]; [|by apply elem_of_union_l]. unfold m0 in H1. case_bool_decide as HB.
    + apply set_choose_L in He as [x Hx]. pose proof (Hle x ltac:(set_solver)). pose proof (Hu x ltac:(set_solver)). assert (m = x) as -> by lia. set_solver.
    + rewrite H1. apply elem_of_union_r, (i_min _ _ Hi HB).
Qed.

(** C35. A rolling bit field refines a set: after any insertions and removals,
    of which no insertion into an empty window was below an item that had left
    it, the field holds exactly the items of the set, counts and lists them
    and finds the least one, removing an item tells whether it was there, and
    a further insertion does not panic.  The least item is stated where one is
    reported. *)
Theorem rolling_bit_field_refines w A f :
  0 <= w → run w A f →
  (∀ k, contains k f = bool_decide (k ∈ A)) ∧ len f = Z.of_nat (size A) ∧ get_all f ≡ₚ elements A ∧
  (∀ m, rb_min_item f = Some m → (∀ x, x ∈ A → x <= u64_max) → m ∈ A ∧ ∀ x, x ∈ A → m <= x) ∧
  (∀ k, (remove k f).2 = bool_decide (k ∈ A)) ∧
  (∀ k, 0 <= k → k + w <= u64_max → safe k f → ∃ f', insert k f = Ok f').
Proof.
  intros Hw0 [Hw (B & Hi & ->)]%rolling_run_inv; [|done]. split_and!; eauto using contains_spec, len_spec, get_all_spec, min_spec.
  - intros k. by destruct (rolling_remove_spec B f k Hi) as (? & _ & _ & ? & _).
  - intros k Hk Hku Hs. destruct (insert_spec B f k Hi Hk) as (f' & ? & ? & _); [by rewrite Hw|done|eauto].
Qed.

(** ** Ancestors *)

Lemma insert_ascending w l : ∀ A f,
  0 <= w → StronglySorted Z.le l → Forall (λ k, 0 <= k ∧ k + w <= u64_max) l → run w A f → (∀ x y, x ∈ A → y ∈ l → x <= y) →
  (A = ∅ ∨ all_items_in_excess f = false) →
  ∃ f', foldM (λ a slot, insert slot a) f l = Ok f' ∧ run w (list_to_set l ∪ A) f'.
Proof.
  induction l as [|k l IH]; intros A f Hw0 Hs Hl Hrun Hle Hne; cbn [foldM].
  { exists f. replace (list_to_set [] ∪ A) with A by set_solver. done. }
  apply StronglySorted_inv in Hs as [Hs Hk]. apply Forall_cons in Hl as [[Hk0 Hku] Hl]. destruct (rolling_run_inv w A f Hw0 Hrun) as [Hw (B & Hi & HA)].
  assert (Hsafe : safe k f).
  { intros Hall x Hx. destruct Hne as [->|]; [set_solver|congruence]. }
  destruct (insert_spec B f k Hi Hk0) as (f' & B' & Hins & Hi' & _ & _ & Hin); [by rewrite Hw|done|]. rewrite Hins. cbn [mbind res_bind].
  destruct (IH ({[k]} ∪ A) f') as (f2 & Hf2 & Hr2); [done|done|done|by eapply run_insert| | |].
  - intros x y [->%elem_of_singleton|Hx]%elem_of_union Hy; [by rewrite Forall_forall in Hk; apply Hk|]. apply Hle; [done|by right].
  - right. rewrite (all_in_excess_iff _ _ (i_window _ _ Hi')). apply bool_decide_eq_false. intros ->. apply (not_elem_of_empty (C:=gset Z) k), Hin.
    destruct (decide (B = ∅)) as [|HB]; [by left|right]. apply Hle; [|by left]. rewrite HA. apply elem_of_union_r, (i_min _ _ Hi HB).
  - exists f2. split; [done|]. replace (list_to_set (k :: l) ∪ A) with (list_to_set l ∪ ({[k]} ∪ A)) by set_solver. done.
Qed.

(** The ancestors made of a list of slots, in any order and with
    duplicates, are exactly these slots, listed and counted once. *)
Theorem ancestors_from_slots source :
  Forall (λ s, 0 <= s ∧ s + ANCESTORS_HASH_MAP_SIZE <= u64_max) source →
  ∃ a, Ancestors_from source = Ok a ∧ (∀ s, contains s a = bool_decide (s ∈ source)) ∧
    keys a ≡ₚ elements (list_to_set source : gset Z) ∧ len a = Z.of_nat (size (list_to_set source : gset Z)).
Proof.
  intros Hsrc. unfold Ancestors_from, Ancestors_default. destruct (new ANCESTORS_HASH_MAP_SIZE) as [f|e|] eqn:Hnew; [|done..]. cbn [mbind res_bind].
  pose proof (sort_by_Permutation Z.leb source) as Hperm.
  destruct (insert_ascending ANCESTORS_HASH_MAP_SIZE (sort_by Z.leb source) ∅ f) as (a & Ha & Hrun).
  - done.
  - eapply StronglySorted_weaken; [|apply sort_by_sorted]; [intros x y ?%Is_true_true; lia|intros x y ?%Z.leb_gt; apply Z.leb_le; lia|intros x y z ?%Z.leb_le ?%Z.leb_le; apply Z.leb_le; lia].
  - by rewrite Hperm.
  - by apply run_new.
  - set_solver.
  - by left.
  - assert (HS : list_to_set (sort_by Z.leb source) ∪ ∅ = list_to_set (C:=gset Z) source).
    { apply set_eq. intros x. rewrite elem_of_union, !elem_of_list_to_set, sort_by_elem. set_solver. }
    rewrite HS in Hrun. destruct (rolling_run_inv ANCESTORS_HASH_MAP_SIZE _ _ ltac:(done) Hrun) as [_ (B & Hi & HA)]. exists a. rewrite Ha, HA.
    split_and!; eauto using get_all_spec, len_spec. intros s. rewrite (contains_spec B) by done. rewrite <-HA. apply bool_decide_ext, elem_of_list_to_set.
Qed.
End model.

Module example.
Import slot_history.example.

(** Slots 5 and 9 with a window of four: 5 has left the window. *)
Definition f0 : RollingBitField := mkRBF 4 0 0 (bv_new_fill false 4) 0 ∅.
Definition ins (k : Z) (f : RollingBitField) : RollingBitField := match insert k f with Ok f' => f' | _ => f end.
Definition f2 : RollingBitField := ins 9 (ins 5 f0).

Lemma f2_run : run 4 ({[9]} ∪ ({[5]} ∪ ∅)) f2.
Proof.
  apply (run_insert 4 _ (ins 5 f0) 9 f2); [|done|done|by intros ?|done].
  apply (run_insert 4 _ f0 5); [by apply run_new|done|done|by intros _ x ?%elem_of_empty|done].
Qed.

Lemma rolling_bit_field_refines_witness :
  contains 5 f2 = bool_decide (5 ∈ ({[9]} ∪ ({[5]} ∪ ∅) : gset Z)) ∧ len f2 = Z.of_nat (size ({[9]} ∪ ({[5]} ∪ ∅) : gset Z)).
Proof. destruct (rolling_bit_field_refines 4 _ f2 ltac:(done) f2_run) as (H1 & H2 & _). exact (conj (H1 5) H2). Defined.

Lemma ancestors_from_slots_witness : ∃ a, Ancestors_from [9; 3; 9] = Ok a ∧ contains 3 a = true.
Proof.
  destruct (ancestors_from_slots [9; 3; 9]) as (a & Ha & Hc & _); [by repeat constructor|]. exists a. split; [exact Ha|]. rewrite Hc. reflexivity.
Defined.

(** Outside the contract an item is lost: 5 leaves the window for 20, 20 is
    removed, and 3 is inserted; then 5 is still counted and listed but no longer
    found. *)
Theorem lost_excess_item :
  let f := ins 3 (remove 20 (ins 20 (ins 5 f0))).1 in
  contains 5 f = false ∧ 5 ∈ get_all f ∧ len f = 2.
Proof. split_and!; [vm_compute; reflexivity|apply (bool_decide_unpack _); vm_compute; exact I|vm_compute; reflexivity]. Qed.
End example.
End rolling.
