(* ===== verification/Message.v ===== *)
(** * Messages

    Models [sdk/program/src/message.rs] with the instruction types of
    [sdk/program/src/instruction.rs] and the byte readers of
    [sdk/program/src/serialize_utils.rs]: compiling instructions into a message
    ([Message::new]), who signs and what is writable, sanitization, and the
    instructions sysvar's encoding of a message.

    A slice index out of bounds and an [unwrap] of [None] are [None]; counters
    are kept at their width. *)

From S2P Require Import Prelude Account Features Sysvar.
From Stdlib Require Import Strings.Byte.

Module message.

(** ** Instructions *)

Record AccountMeta : Type := mkMeta {
  pubkey : Pubkey;
  meta_is_signer : bool;
  meta_is_writable : bool;
}.

#[export] Instance AccountMeta_eq_dec : EqDecision AccountMeta.
Proof. solve_decision. Defined.

Record Instruction : Type := mkInstruction {
  program_id : Pubkey;
  ix_accounts : list AccountMeta;
  ix_data : list byte;
}.

#[export] Instance Instruction_eq_dec : EqDecision Instruction.
Proof. solve_decision. Defined.

(** The indices are [u8]. *)
Record CompiledInstruction : Type := mkCompiled {
  program_id_index : nat;
  ci_accounts : list nat;
  ci_data : list byte;
}.

Record MessageHeader : Type := mkHeader {
  num_required_signatures : Z;
  num_readonly_signed_accounts : Z;
  num_readonly_unsigned_accounts : Z;
}.

Record Message : Type := mkMessage {
  header : MessageHeader;
  account_keys : list Pubkey;
  recent_blockhash : Hash;
  instructions : list CompiledInstruction;
}.

Definition ci_program_id (ci : CompiledInstruction) (program_ids : list Pubkey) : option Pubkey :=
  program_ids !! program_id_index ci.

(** The indices [visit_each_account] visits: each account index once, at its
    first occurrence. *)
Fixpoint unique_from {A} `{!EqDecision A} (seen l : list A) : list A :=
  match l with
  | [] => []
  | x :: l' => if decide (x ∈ seen) then unique_from (seen ++ [x]) l'
               else x :: unique_from (seen ++ [x]) l'
  end.

Fixpoint visit {T} (work : nat → nat → ST T InstructionError unit) (unique_index : nat)
    (l : list nat) : ST T InstructionError unit :=
  match l with
  | [] => mret tt
  | i :: l' => work unique_index i;; visit work (S unique_index) l'
  end.

Definition visit_each_account {T} (ci : CompiledInstruction)
    (work : nat → nat → ST T InstructionError unit) : ST T InstructionError unit :=
  visit work 0 (unique_from [] (ci_accounts ci)).

(** ** Compiling instructions *)

Definition BUILTIN_PROGRAMS_KEYS : list Pubkey :=
  [config_program_id; feature_program_id; native_loader_id; stake_program_id; stake_config_id;
   vote_program_id; system_program_id; bpf_loader_id; bpf_loader_deprecated_id;
   bpf_loader_upgradeable_id].

(** [sysvar::is_sysvar_id] *)
Definition is_sysvar_id (id : Pubkey) : bool :=
  bool_decide (id ∈ [sysvar_clock_id; sysvar_epoch_schedule_id; sysvar_fees_id;
    sysvar_recent_blockhashes_id; sysvar_rent_id; sysvar_rewards_id; sysvar_slot_hashes_id;
    sysvar_slot_history_id; sysvar_stake_history_id; sysvar_instructions_id]).

Fixpoint find_index (k : Pubkey) (keys : list Pubkey) : option nat :=
  match keys with
  | [] => None
  | x :: keys' => if x =? k then Some 0%nat else S <$> find_index k keys'
  end.

Definition position (keys : list Pubkey) (k : Pubkey) : option nat :=
  (λ i, (i mod 256)%nat) <$> find_index k keys.

Definition compile_instruction (ix : Instruction) (keys : list Pubkey)
    : option CompiledInstruction :=
  accounts ← mapM (λ account_meta, position keys (pubkey account_meta)) (ix_accounts ix);
  program_id_index ← position keys (program_id ix);
  Some (mkCompiled program_id_index accounts (ix_data ix)).

Definition compile_instructions (ixs : list Instruction) (keys : list Pubkey)
    : option (list CompiledInstruction) :=
  mapM (λ ix, compile_instruction ix keys) ixs.

Record InstructionKeys : Type := mkInstructionKeys {
  signed_keys : list Pubkey;
  unsigned_keys : list Pubkey;
  ik_num_readonly_signed_accounts : Z;
  ik_num_readonly_unsigned_accounts : Z;
}.

Definition get_program_ids (ixs : list Instruction) : list Pubkey :=
  unique_from [] (program_id <$> ixs).

(** [y.is_signer.cmp(&x.is_signer).then(y.is_writable.cmp(&x.is_writable))] is
    not [Greater]: [x] may stay before [y]. *)
Definition meta_before (x y : AccountMeta) : bool :=
  match Bool.compare (meta_is_signer y) (meta_is_signer x) with
  | Lt => true
  | Gt => false
  | Eq => match Bool.compare (meta_is_writable y) (meta_is_writable x) with Gt => false | _ => true end
  end.

(** The loop body: promote the entry of the key, or push one. *)
Fixpoint promote (unique_metas : list AccountMeta) (m : AccountMeta) : option (list AccountMeta) :=
  match unique_metas with
  | [] => None
  | x :: l =>
      if pubkey x =? pubkey m
      then Some (mkMeta (pubkey x) (meta_is_signer x) (meta_is_writable x || meta_is_writable m) :: l)
      else cons x <$> promote l m
  end.
Definition merge_meta (unique_metas : list AccountMeta) (m : AccountMeta) : list AccountMeta :=
  default (unique_metas ++ [m]) (promote unique_metas m).

Definition incr8 (n : Z) : Z := (n + 1) mod 256.

Definition add_key (ik : InstructionKeys) (m : AccountMeta) : InstructionKeys :=
  if meta_is_signer m then
    mkInstructionKeys (signed_keys ik ++ [pubkey m]) (unsigned_keys ik)
      (if meta_is_writable m then ik_num_readonly_signed_accounts ik
       else incr8 (ik_num_readonly_signed_accounts ik))
      (ik_num_readonly_unsigned_accounts ik)
  else
    mkInstructionKeys (signed_keys ik) (unsigned_keys ik ++ [pubkey m])
      (ik_num_readonly_signed_accounts ik)
      (if meta_is_writable m then ik_num_readonly_unsigned_accounts ik
       else incr8 (ik_num_readonly_unsigned_accounts ik)).

Definition keys_and_signed (ixs : list Instruction) (payer : option Pubkey) : list AccountMeta :=
  let programs := (λ p, mkMeta p false false) <$> get_program_ids ixs in
  let sorted := sort_by meta_before ((ixs ≫= ix_accounts) ++ programs) in
  match payer with
  | Some p => mkMeta p true true :: sorted
  | None => sorted
  end.

Definition get_keys (ixs : list Instruction) (payer : option Pubkey) : InstructionKeys :=
  let unique_metas := foldl merge_meta [] (keys_and_signed ixs payer) in
  foldl add_key (mkInstructionKeys [] [] 0 0) unique_metas.

Definition Message_new (ixs : list Instruction) (payer : option Pubkey) : option Message :=
  let ik := get_keys ixs payer in
  let num_required_signatures := Z.of_nat (length (signed_keys ik)) mod 256 in
  let keys := signed_keys ik ++ unsigned_keys ik in
  cis ← compile_instructions ixs keys;
  Some (mkMessage
    (mkHeader num_required_signatures (ik_num_readonly_signed_accounts ik)
       (ik_num_readonly_unsigned_accounts ik))
    keys Hash_default cis).

(** ** Queries *)

Definition message_program_id (m : Message) (instruction_index : nat) : option Pubkey :=
  ci ← instructions m !! instruction_index; ci_program_id ci (account_keys m).

Definition program_ids (m : Message) : option (list Pubkey) :=
  mapM (λ ci, ci_program_id ci (account_keys m)) (instructions m).

Definition new_with_compiled_instructions (num_required_signatures num_readonly_signed_accounts
    num_readonly_unsigned_accounts : Z) (account_keys : list Pubkey) (recent_blockhash : Hash)
    (instructions : list CompiledInstruction) : Message :=
  mkMessage (mkHeader num_required_signatures num_readonly_signed_accounts
               num_readonly_unsigned_accounts) account_keys recent_blockhash instructions.

Definition program_index (m : Message) (instruction_index : nat) : option nat :=
  program_id_index <$> instructions m !! instruction_index.

(** The key at [index] is only read if there is a program to compare it with. *)
Definition program_position (m : Message) (index : nat) : option (option nat) :=
  ids ← program_ids m;
  match ids with
  | [] => Some None
  | _ => k ← account_keys m !! index; Some (find_index k ids)
  end.

Definition maybe_executable (m : Message) (i : nat) : option bool :=
  p ← program_position m i; Some (bool_decide (is_Some p)).

Definition is_key_passed_to_program (m : Message) (key_index : nat) : bool :=
  bool_decide (key_index < 256)%nat &&
  existsb (λ ci, bool_decide (key_index ∈ ci_accounts ci)) (instructions m).

Definition is_key_called_as_program (m : Message) (key_index : nat) : bool :=
  bool_decide (key_index < 256)%nat &&
  existsb (λ ci, bool_decide (program_id_index ci = key_index)) (instructions m).

Definition is_non_loader_key (m : Message) (key_index : nat) : bool :=
  negb (is_key_called_as_program m key_index) || is_key_passed_to_program m key_index.

Definition message_is_signer (m : Message) (i : nat) : bool :=
  Z.of_nat i <? num_required_signatures (header m).

(** [u8] and [usize] subtraction wrap. *)
Definition sub8 (a b : Z) : Z := (a - b) mod 256.

Definition reserved_key (k : Pubkey) : bool :=
  is_sysvar_id k || bool_decide (k ∈ BUILTIN_PROGRAMS_KEYS).

Definition message_is_writable (m : Message) (i : nat) : option bool :=
  let h := header m in
  if (Z.of_nat i <? sub8 (num_required_signatures h) (num_readonly_signed_accounts h)) ||
     (num_required_signatures h <=? Z.of_nat i) &&
     (Z.of_nat i <? sub64 (Z.of_nat (length (account_keys m))) (num_readonly_unsigned_accounts h))
  then k ← account_keys m !! i; Some (negb (reserved_key k))
  else Some false.

Definition get_account_keys_by_lock_type (m : Message) : option (list Pubkey * list Pubkey) :=
  ws ← mapM (message_is_writable m) (seq 0 (length (account_keys m)));
  let l := zip ws (account_keys m) in
  Some ((filter (λ x, x.1 = true) l).*2, (filter (λ x, x.1 = false) l).*2).

Definition message_signer_keys (m : Message) : list Pubkey :=
  take (Nat.min (length (account_keys m)) (Z.to_nat (num_required_signatures (header m))))
    (account_keys m).

(** ** Sanitization *)

Inductive SanitizeError : Type := IndexOutOfBounds | ValueOutOfBounds | InvalidValue.

Definition sanitize_instruction (n : nat) (ci : CompiledInstruction) : bool :=
  bool_decide (program_id_index ci < n)%nat &&
  negb (bool_decide (program_id_index ci = 0%nat)) &&
  forallb (λ ai, bool_decide (ai < n)%nat) (ci_accounts ci).

Definition sanitize (m : Message) : res SanitizeError unit :=
  let h := header m in
  let n := length (account_keys m) in
  if Z.of_nat n <? num_required_signatures h + num_readonly_unsigned_accounts h
  then Err IndexOutOfBounds else
  if num_required_signatures h <=? num_readonly_signed_accounts h
  then Err IndexOutOfBounds else
  if negb (forallb (sanitize_instruction n) (instructions m)) then Err IndexOutOfBounds
  else Ok tt.

(** ** The instructions sysvar *)

(** [u16::to_le_bytes] after the cast [as u16]. *)
Definition u16_bytes (x : Z) : list byte := [byte_of_Z x; byte_of_Z (x / 256)].

Definition IS_SIGNER_BIT : Z := 0.
Definition IS_WRITABLE_BIT : Z := 1.

Definition meta_byte (signer writable : bool) : Z :=
  Z.lor (if signer then Z.shiftl 1 IS_SIGNER_BIT else 0)
        (if writable then Z.shiftl 1 IS_WRITABLE_BIT else 0).

Definition serialize_account (m : Message) (account_index : nat) : option (list byte) :=
  w ← message_is_writable m account_index;
  k ← account_keys m !! account_index;
  Some (byte_of_Z (meta_byte (message_is_signer m account_index) w) :: key_bytes k).

Definition serialize_instruction (m : Message) (ci : CompiledInstruction) : option (list byte) :=
  accounts ← mapM (serialize_account m) (ci_accounts ci);
  p ← account_keys m !! program_id_index ci;
  Some (u16_bytes (Z.of_nat (length (ci_accounts ci))) ++ concat accounts ++ key_bytes p ++
        u16_bytes (Z.of_nat (length (ci_data ci))) ++ ci_data ci).

Definition write_at (off : nat) (bytes data : list byte) : list byte :=
  take off data ++ bytes ++ drop (off + length bytes) data.

Fixpoint serialize_loop (m : Message) (i : nat) (cis : list CompiledInstruction)
    (data : list byte) : option (list byte) :=
  match cis with
  | [] => Some data
  | ci :: cis' =>
      let data := write_at (2 + 2 * i) (u16_bytes (Z.of_nat (length data))) data in
      b ← serialize_instruction m ci;
      serialize_loop m (S i) cis' (data ++ b)
  end.

Definition serialize_instructions (m : Message) : option (list byte) :=
  let n := length (instructions m) in
  serialize_loop m 0 (instructions m) (u16_bytes (Z.of_nat n) ++ replicate (2 * n) x00).

(** The readers of [serialize_utils.rs]: the state is [current]. *)
Definition R (A : Type) : Type := ST nat SanitizeError A.

Definition read_slice (data : list byte) (len : nat) : R (list byte) :=
  current ← get;
  ensureS (negb (bool_decide (length data < current + len)%nat)) IndexOutOfBounds;;
  put (current + len)%nat;;
  mret (take len (drop current data)).

Definition read_u8 (data : list byte) : R Z :=
  current ← get;
  ensureS (negb (bool_decide (length data < current + 1)%nat)) IndexOutOfBounds;;
  b ← lift (unwrap (data !! current));
  put (current + 1)%nat;;
  mret (byte_val b).

Definition read_u16 (data : list byte) : R Z :=
  l ← read_slice data 2;
  match l with
  | [a; b] => mret (byte_val a + 256 * byte_val b)
  | _ => panic
  end.

Definition key_of_bytes (l : list byte) : Pubkey := foldl (λ acc b, acc * 256 + byte_val b) 0 l.

Definition read_pubkey (data : list byte) : R Pubkey :=
  l ← read_slice data 32; mret (key_of_bytes l).

Definition read_account (data : list byte) : R AccountMeta :=
  b ← read_u8 data;
  k ← read_pubkey data;
  mret (mkMeta k (negb (Z.land b (Z.shiftl 1 IS_SIGNER_BIT) =? 0))
                 (negb (Z.land b (Z.shiftl 1 IS_WRITABLE_BIT) =? 0))).

Fixpoint read_accounts (n : nat) (data : list byte) : R (list AccountMeta) :=
  match n with
  | O => mret []
  | S n' => a ← read_account data; l ← read_accounts n' data; mret (a :: l)
  end.

Definition deserialize_at (index : nat) (data : list byte) : R Instruction :=
  num_instructions ← read_u16 data;
  ensureS (negb (num_instructions <=? Z.of_nat index)) IndexOutOfBounds;;
  modify (λ current, (current + index * 2)%nat);;
  start ← read_u16 data;
  put (Z.to_nat start);;
  num_accounts ← read_u16 data;
  accounts ← read_accounts (Z.to_nat num_accounts) data;
  p ← read_pubkey data;
  data_len ← read_u16 data;
  d ← read_slice data (Z.to_nat data_len);
  mret (mkInstruction p accounts d).

Definition deserialize_instruction (index : nat) (data : list byte) : res SanitizeError Instruction :=
  (deserialize_at index data 0%nat).2.

(** [sysvar::instructions::store_current_index] and [load_current_index]:
    the last two bytes. *)
Definition store_current_index (data : list byte) (instruction_index : Z) : option (list byte) :=
  if bool_decide (2 <= length data)%nat
  then Some (write_at (length data - 2) (u16_bytes instruction_index) data) else None.

Definition load_current_index (data : list byte) : option Z :=
  if bool_decide (2 <= length data)%nat then
    match drop (length data - 2) data with
    | [a; b] => Some (byte_val a + 256 * byte_val b)
    | _ => None
    end
  else None.
End message.
