(* ===== verification/MessageProps.v ===== *)
(** * Properties of messages

    Compiling instructions into a message of fewer than 256 keys keeps programs,
    keys, data and signers, and gives every account the write privileges its
    instructions ask for as long as no signer is promoted to writable
    ([compile_faithful]; [promotion_swaps_privileges] shows why the condition is
    there); a sanitized
    message never indexes out of bounds; and the instructions sysvar's encoding
    reads back. *)

From S2P Require Import Prelude Account Features Sysvar Message.
From Stdlib Require Import Strings.Byte.
Import message.
#[local] Arguments key_bytes : simpl never.
#[local] Arguments u16_bytes : simpl never.

(** ** Lists without duplicates *)

Lemma unique_from_elem {A} `{!EqDecision A} (seen l : list A) x :
  x ∈ unique_from seen l ↔ x ∈ l ∧ x ∉ seen.
Proof.
  revert seen. induction l as [|y l IH]; intros seen; cbn; [set_solver|].
  destruct (decide (x = y)) as [->|]; case_decide; rewrite ?elem_of_cons, IH; set_solver.
Qed.

Lemma unique_from_NoDup {A} `{!EqDecision A} (seen l : list A) : NoDup (unique_from seen l).
Proof.
  revert seen. induction l as [|y l IH]; intros seen; cbn; [constructor|].
  case_decide; [apply IH|]. constructor; [|apply IH]. rewrite unique_from_elem. set_solver.
Qed.

Lemma find_index_Some k keys i : find_index k keys = Some i → keys !! i = Some k.
Proof.
  revert i. induction keys as [|x keys IH]; intros i; cbn; [done|].
  destruct (Z.eqb_spec x k); [naive_solver|]. destruct (find_index k keys); naive_solver.
Qed.

Lemma find_index_elem k keys : k ∈ keys → ∃ i, find_index k keys = Some i.
Proof.
  induction keys as [|x keys IH]; [set_solver|]. cbn. destruct (Z.eqb_spec x k); [eauto|].
  intros [?|[i ->]%IH]%elem_of_cons; [done|eauto].
Qed.

(** ** Sorting *)

Lemma meta_before_total x y : meta_before x y = false → meta_before y x = true.
Proof. destruct x as [? [] []], y as [? [] []]; cbn; done. Qed.

Lemma meta_before_trans x y z : meta_before x y = true → meta_before y z = true → meta_before x z = true.
Proof. destruct x as [? [] []], y as [? [] []], z as [? [] []]; cbn; done. Qed.

(** Signers first, then writable accounts first. *)
Lemma meta_before_spec x y : meta_before x y = true ↔
  (meta_is_signer y = true → meta_is_signer x = true) ∧
  (meta_is_signer x = meta_is_signer y → meta_is_writable y = true → meta_is_writable x = true).
Proof. destruct x as [? [] []], y as [? [] []]; cbn; naive_solver. Qed.

Lemma keys_and_signed_sorted ixs payer : StronglySorted meta_before (keys_and_signed ixs payer).
Proof.
  assert (Hs : ∀ l, StronglySorted meta_before (sort_by meta_before l))
    by (intros; apply sort_by_sorted; [apply meta_before_total|apply meta_before_trans]).
  unfold keys_and_signed. destruct payer; [|apply Hs]. constructor; [apply Hs|].
  apply Forall_forall. intros [? [] []] _; done.
Qed.

(** In a list where the elements with [f] come first, the index tells. *)
Lemma sorted_prefix {A} (f : A → bool) l i x :
  StronglySorted (λ x y, f y = true → f x = true) l → l !! i = Some x →
  f x = true ↔ (i < length (filter (λ x, f x = true) l))%nat.
Proof.
  intros Hs. revert i. induction Hs as [|y l Hs IH HF]; intros i Hi; [done|].
  rewrite filter_cons. destruct (decide (f y = true)) as [Hy|Hy].
  - destruct i as [|i]; cbn in *; simplify_eq; [split; [lia|done]|]. rewrite (IH _ Hi). lia.
  - assert (Hl : filter (λ x, f x = true) l = []).
    { apply filter_none. eapply Forall_impl; [exact HF|]. cbn. tauto. }
    rewrite Hl. cbn. split; [|lia]. intros Hx. destruct i as [|i]; cbn in Hi; simplify_eq.
    apply list_elem_of_lookup_2 in Hi. rewrite Forall_forall in HF. naive_solver.
Qed.

(** ** What the instructions ask for *)

Definition asks_writable (l : list AccountMeta) (k : Pubkey) : Prop :=
  ∃ x, x ∈ l ∧ pubkey x = k ∧ meta_is_writable x = true.
Definition asks_signer (l : list AccountMeta) (k : Pubkey) : Prop :=
  ∃ x, x ∈ l ∧ pubkey x = k ∧ meta_is_signer x = true.

(** The accounts of the instructions and their programs, with the payer. *)
Definition all_metas (ixs : list Instruction) (payer : option Pubkey) : list AccountMeta :=
  (match payer with Some p => [mkMeta p true true] | None => [] end) ++
  (ixs ≫= ix_accounts) ++ ((λ ix, mkMeta (program_id ix) false false) <$> ixs).

Lemma keys_and_signed_elem ixs payer x : x ∈ keys_and_signed ixs payer ↔ x ∈ all_metas ixs payer.
Proof.
  assert (Hp : x ∈ (λ p, mkMeta p false false) <$> get_program_ids ixs ↔
               x ∈ (λ ix, mkMeta (program_id ix) false false) <$> ixs).
  { unfold get_program_ids. rewrite !list_elem_of_fmap. split.
    - intros (p & -> & [(ix & -> & ?)%list_elem_of_fmap _]%unique_from_elem). eauto.
    - intros (ix & -> & Hix). exists (program_id ix). split; [done|].
      rewrite unique_from_elem. split; [apply list_elem_of_fmap; eauto|set_solver]. }
  unfold keys_and_signed, all_metas.
  destruct payer; rewrite ?elem_of_cons, sort_by_elem, !elem_of_app, Hp; set_solver.
Qed.

(** ** Merging the metas of a key *)

Definition metas_keys (l : list AccountMeta) : list Pubkey := pubkey <$> l.

Definition merged (w l : list AccountMeta) : Prop :=
  NoDup (metas_keys w) ∧ (∀ k, k ∈ metas_keys w ↔ k ∈ metas_keys l) ∧
  (∀ k, asks_writable w k ↔ asks_writable l k) ∧ (∀ k, asks_signer w k ↔ asks_signer l k).

Lemma asks_writable_app l1 l2 k :
  asks_writable (l1 ++ l2) k ↔ asks_writable l1 k ∨ asks_writable l2 k.
Proof. unfold asks_writable. set_solver. Qed.
Lemma asks_signer_app l1 l2 k : asks_signer (l1 ++ l2) k ↔ asks_signer l1 k ∨ asks_signer l2 k.
Proof. unfold asks_signer. set_solver. Qed.
Lemma asks_writable_cons x l k :
  asks_writable (x :: l) k ↔ (pubkey x = k ∧ meta_is_writable x = true) ∨ asks_writable l k.
Proof. unfold asks_writable. set_solver. Qed.
Lemma asks_signer_cons x l k :
  asks_signer (x :: l) k ↔ (pubkey x = k ∧ meta_is_signer x = true) ∨ asks_signer l k.
Proof. unfold asks_signer. set_solver. Qed.

Lemma promote_None u m : promote u m = None ↔ pubkey m ∉ metas_keys u.
Proof.
  unfold metas_keys. induction u as [|x u IH]; cbn; [set_solver|].
  destruct (Z.eqb_spec (pubkey x) (pubkey m)) as [E|E]; [set_solver|].
  destruct (promote u m); cbn; set_solver.
Qed.

Lemma promote_Some u m u' : promote u m = Some u' →
  metas_keys u' = metas_keys u ∧ meta_is_signer <$> u' = meta_is_signer <$> u ∧
  pubkey m ∈ metas_keys u ∧
  (∀ k, asks_signer u' k ↔ asks_signer u k) ∧
  (∀ k, asks_writable u' k ↔ asks_writable u k ∨ pubkey m = k ∧ meta_is_writable m = true).
Proof.
  revert u'. induction u as [|x u IH]; intros u'; cbn; [done|].
  destruct (Z.eqb_spec (pubkey x) (pubkey m)) as [E|E].
  - intros [= <-]. unfold metas_keys. cbn. split_and!; [done..|set_solver| |]; intros k.
    + by rewrite !asks_signer_cons.
    + rewrite !asks_writable_cons. cbn. rewrite orb_true_iff, E. tauto.
  - destruct (promote u m) as [v|] eqn:Ep; cbn; [|done]. intros [= <-].
    destruct (IH v eq_refl) as (Hk & Hs & Hin & Ha & Hw). unfold metas_keys in *. cbn.
    rewrite Hk, Hs. split_and!; [done..|set_solver| |]; intros k.
    + by rewrite !asks_signer_cons, Ha.
    + rewrite !asks_writable_cons, Hw. tauto.
Qed.

Definition signers_first (l : list AccountMeta) : Prop :=
  StronglySorted (λ a b : bool, b = true → a = true) (meta_is_signer <$> l).

Lemma StronglySorted_delete {A} (R : relation A) l1 x l2 :
  StronglySorted R (l1 ++ x :: l2) → StronglySorted R (l1 ++ l2).
Proof.
  induction l1 as [|y l1 IH]; cbn; intros Hs; inversion Hs; subst; [done|].
  constructor; [auto|]. rewrite !Forall_app, Forall_cons in *. tauto.
Qed.

Lemma signers_first_elem l1 x l2 k :
  signers_first (l1 ++ x :: l2) → k ∈ metas_keys l1 → pubkey x = k → meta_is_signer x = true →
  asks_signer l1 k.
Proof.
  unfold signers_first, metas_keys. rewrite fmap_app. cbn. intros Hs [y [-> Hy]]%list_elem_of_fmap _ Hx.
  exists y. split_and!; [done..|]. apply list_elem_of_lookup in Hy as [i Hi].
  pose proof (lookup_lt_Some _ _ _ Hi).
  refine (StronglySorted_lookup _ _ i (length l1) _ (meta_is_signer x) Hs _ _ _ Hx); [done| |].
  - rewrite lookup_app_l by (by rewrite length_fmap). by rewrite list_lookup_fmap, Hi.
  - rewrite lookup_app_r by (by rewrite length_fmap). by rewrite length_fmap, Nat.sub_diag.
Qed.

Lemma merge_meta_merged u m rest :
  NoDup (metas_keys u) → signers_first (u ++ m :: rest) →
  let u' := merge_meta u m in
  NoDup (metas_keys u') ∧ signers_first (u' ++ rest) ∧
  (∀ w, merged w (u' ++ rest) → merged w (u ++ m :: rest)).
Proof.
  intros Hnd Hs. cbv zeta. unfold merge_meta. destruct (promote u m) as [u'|] eqn:E; cbn [from_option id].
  - destruct (promote_Some _ _ _ E) as (Hk & Hsg & Hin & Ha & Hw). rewrite Hk.
    split_and!; [done| |].
    + unfold signers_first in *. rewrite fmap_app in *. rewrite Hsg. cbn in Hs.
      by eapply StronglySorted_delete.
    + intros w (H1 & H2 & H3 & H4). split_and!; [done|..]; intros k.
      * rewrite H2. unfold metas_keys in *. rewrite !fmap_app, Hk. cbn. set_solver.
      * rewrite H3, !asks_writable_app, asks_writable_cons, Hw. tauto.
      * rewrite H4, !asks_signer_app, asks_signer_cons, Ha.
        split; [tauto|]. intros [?|[[<- Hm]|?]]; [tauto|left|tauto].
        by eapply signers_first_elem.
  - apply promote_None in E. rewrite <-app_assoc. cbn. split_and!; [|done..].
    unfold metas_keys in *. rewrite fmap_app. cbn. apply NoDup_app. split_and!; [done| |].
    + intros k ? ->%list_elem_of_singleton. done.
    + apply NoDup_singleton.
Qed.

Lemma merge_spec rest u :
  NoDup (metas_keys u) → signers_first (u ++ rest) → merged (foldl merge_meta u rest) (u ++ rest).
Proof.
  revert u. induction rest as [|m rest IH]; intros u Hnd Hs; cbn.
  - rewrite app_nil_r. by split_and!.
  - destruct (merge_meta_merged u m rest Hnd Hs) as (Hnd' & Hs' & Hm). auto.
Qed.

(** Without promotion the merged metas keep the order: every key that is
    both a signer and writable is so in one meta. *)
Definition no_promotion (l : list AccountMeta) : Prop :=
  ∀ k, asks_signer l k → asks_writable l k →
    ∃ x, x ∈ l ∧ pubkey x = k ∧ meta_is_signer x = true ∧ meta_is_writable x = true.

Lemma promote_same u m u' :
  (∀ x, x ∈ u → pubkey x = pubkey m → meta_is_writable m = true → meta_is_writable x = true) →
  promote u m = Some u' → u' = u.
Proof.
  revert u'. induction u as [|x u IH]; intros u' Hu; cbn; [done|].
  destruct (Z.eqb_spec (pubkey x) (pubkey m)) as [E|E].
  - intros [= <-]. f_equal. specialize (Hu x (list_elem_of_here _ _) E).
    destruct x as [? ? []], (meta_is_writable m); cbn in *; naive_solver.
  - destruct (promote u m) as [v|]; cbn; [|done]. intros [= <-]. f_equal. apply IH; [|done].
    intros y Hy. apply Hu. by right.
Qed.

(** What the loop keeps: the merged entries [u] need no promotion by the metas
    still to come, and the keys still to come need none among themselves. *)
Definition unpromoted (u rest : list AccountMeta) : Prop :=
  (∀ x, x ∈ u → asks_writable rest (pubkey x) → meta_is_writable x = true) ∧
  (∀ k, k ∉ metas_keys u → asks_signer rest k → asks_writable rest k →
     ∃ x, x ∈ rest ∧ pubkey x = k ∧ meta_is_signer x = true ∧ meta_is_writable x = true).

Lemma unpromoted_old u m rest :
  unpromoted u (m :: rest) → pubkey m ∈ metas_keys u → unpromoted u rest.
Proof.
  intros [H1 H2] Hm. split.
  - intros x Hx Ha. apply H1; [done|]. rewrite asks_writable_cons. tauto.
  - intros k Hk Hs Hw. destruct (H2 k) as (x & [->|Hx]%elem_of_cons & <- & ?); [done|..].
    + rewrite asks_signer_cons. tauto.
    + rewrite asks_writable_cons. tauto.
    + done.
    + by exists x.
Qed.

Lemma unpromoted_new u m rest :
  unpromoted u (m :: rest) → pubkey m ∉ metas_keys u → Forall (meta_before m) rest →
  unpromoted (u ++ [m]) rest.
Proof.
  intros [H1 H2] Hm Hb. rewrite Forall_forall in Hb. split.
  - intros x [Hx| ->%list_elem_of_singleton]%elem_of_app Ha.
    { apply H1; [done|]. rewrite asks_writable_cons. tauto. }
    destruct Ha as (y & Hy & Hyk & Hyw). pose proof (Hb y Hy) as Hby%Is_true_true%meta_before_spec.
    destruct (meta_is_signer m) eqn:Em; destruct (meta_is_signer y) eqn:Ey; [naive_solver| |naive_solver..].
    destruct (H2 (pubkey m) Hm) as (z & [->|Hz]%elem_of_cons & Hzk & Hzs & Hzw); [| |done|].
    + rewrite asks_signer_cons. tauto.
    + rewrite asks_writable_cons. right. by exists y.
    + pose proof (Hb z Hz) as Hbz%Is_true_true%meta_before_spec. naive_solver.
  - intros k Hk Hs Hw. unfold metas_keys in *. rewrite fmap_app in Hk. cbn in Hk.
    destruct (H2 k) as (x & [->|Hx]%elem_of_cons & <- & ?); [set_solver|..].
    + rewrite asks_signer_cons. tauto.
    + rewrite asks_writable_cons. tauto.
    + set_solver.
    + by exists x.
Qed.

Lemma merge_order rest u :
  StronglySorted meta_before (u ++ rest) → unpromoted u rest →
  StronglySorted meta_before (foldl merge_meta u rest).
Proof.
  revert u. induction rest as [|m rest IH]; intros u Hs Hu; cbn; [by rewrite app_nil_r in Hs|].
  unfold merge_meta at 2. destruct (promote u m) as [u'|] eqn:E; cbn [from_option id].
  - pose proof (promote_Some _ _ _ E) as (_ & _ & Hin & _).
    apply promote_same in E as ->; [apply IH|].
    + by eapply StronglySorted_delete.
    + by eapply unpromoted_old.
    + intros x Hx Hk Hw. apply Hu; [done|]. rewrite asks_writable_cons, Hk. tauto.
  - apply promote_None in E. apply IH; [by rewrite <-app_assoc|].
    apply unpromoted_new; [done..|].
    clear -Hs. induction u as [|y u IH]; cbn in Hs; inversion Hs; auto.
Qed.

(** ** Collecting the keys *)

Definition signer_metas (w : list AccountMeta) : list AccountMeta :=
  filter (λ x, meta_is_signer x = true) w.
Definition other_metas (w : list AccountMeta) : list AccountMeta :=
  filter (λ x, ¬ meta_is_signer x = true) w.
Definition readonly_metas (w : list AccountMeta) : list AccountMeta :=
  filter (λ x, ¬ meta_is_writable x = true) w.

Lemma add_keys w s u a b :
  foldl add_key (mkInstructionKeys s u (a mod 256) (b mod 256)) w =
  mkInstructionKeys (s ++ metas_keys (signer_metas w)) (u ++ metas_keys (other_metas w))
    ((a + Z.of_nat (length (readonly_metas (signer_metas w)))) mod 256)
    ((b + Z.of_nat (length (readonly_metas (other_metas w)))) mod 256).
Proof.
  unfold metas_keys, signer_metas, other_metas, readonly_metas.
  revert s u a b. induction w as [|x w IH]; intros s u a b.
  { cbn. by rewrite !app_nil_r, !Z.add_0_r. }
  destruct x as [k [] []]; cbn; unfold incr8; rewrite ?Zplus_mod_idemp_l, IH, <-!app_assoc;
    repeat (rewrite ?filter_cons; case_decide; cbn [meta_is_signer meta_is_writable] in *; try tauto; try congruence);
    cbn [length fmap list_fmap app pubkey]; try done; do 2 f_equal.
  all: match goal with |- _ + 1 + Z.of_nat ?x = _ + Z.of_nat (S ?y) => change y with x; lia end.
Qed.

Lemma filter_split_length {A} (P : A → Prop) `{!∀ x, Decision (P x)} (l : list A) :
  length l = (length (filter P l) + length (filter (λ x, ¬ P x) l))%nat.
Proof.
  induction l as [|x l IH]; [done|]. rewrite !filter_cons.
  destruct (decide (P x)), (decide (¬ P x)); cbn; lia || tauto.
Qed.

(** The message of a list of merged metas. *)
Lemma Message_new_eq ixs payer :
  let w := foldl merge_meta [] (keys_and_signed ixs payer) in
  let keys := metas_keys (signer_metas w) ++ metas_keys (other_metas w) in
  Message_new ixs payer =
    cis ← compile_instructions ixs keys;
    Some (mkMessage (mkHeader (Z.of_nat (length (signer_metas w)) mod 256)
      (Z.of_nat (length (readonly_metas (signer_metas w))) mod 256)
      (Z.of_nat (length (readonly_metas (other_metas w))) mod 256)) keys Hash_default cis).
Proof.
  cbv zeta. unfold Message_new, get_keys.
  change (mkInstructionKeys [] [] 0 0) with (mkInstructionKeys [] [] (0 mod 256) (0 mod 256)).
  rewrite add_keys. cbn [signed_keys unsigned_keys app ik_num_readonly_signed_accounts
    ik_num_readonly_unsigned_accounts]. unfold metas_keys. by rewrite length_fmap.
Qed.

Lemma metas_merged ixs payer :
  merged (foldl merge_meta [] (keys_and_signed ixs payer)) (all_metas ixs payer).
Proof.
  assert (Hs : signers_first (keys_and_signed ixs payer)).
  { unfold signers_first. pose proof (keys_and_signed_sorted ixs payer) as Hs.
    induction Hs as [|x l Hs IH HF]; cbn; constructor; [done|].
    apply Forall_fmap. eapply Forall_impl; [exact HF|]. cbn. intros y Hy%Is_true_true.
    apply meta_before_spec in Hy as [Hy _]. exact Hy. }
  destruct (merge_spec (keys_and_signed ixs payer) []) as (H1 & H2 & H3 & H4); [constructor|done|].
  unfold merged, asks_writable, asks_signer, metas_keys in *. cbn [app] in *. split_and!; [done|..]; intros k.
  - rewrite H2, !list_elem_of_fmap.
    by setoid_rewrite keys_and_signed_elem.
  - rewrite H3. setoid_rewrite keys_and_signed_elem. done.
  - rewrite H4. setoid_rewrite keys_and_signed_elem. done.
Qed.

Lemma compiled_keys_perm w :
  metas_keys (signer_metas w) ++ metas_keys (other_metas w) ≡ₚ metas_keys w.
Proof.
  unfold metas_keys, signer_metas, other_metas. rewrite <-fmap_app. apply fmap_Permutation.
  induction w as [|x w IH]; [done|]. rewrite !filter_cons.
  destruct (decide (meta_is_signer x = true)), (decide (¬ meta_is_signer x = true)); try tauto; cbn.
  - by rewrite IH.
  - by rewrite <-Permutation_middle, IH.
Qed.

(** An index of a message's keys, by the part it lies in. *)
Lemma compiled_key_meta w i k :
  NoDup (metas_keys w) →
  (metas_keys (signer_metas w) ++ metas_keys (other_metas w)) !! i = Some k →
  ∃ x, x ∈ w ∧ pubkey x = k ∧
    (meta_is_signer x = true → (i < length (signer_metas w))%nat ∧ signer_metas w !! i = Some x) ∧
    (meta_is_signer x = false → (length (signer_metas w) <= i)%nat ∧
       other_metas w !! (i - length (signer_metas w))%nat = Some x).
Proof.
  unfold metas_keys. intros Hnd [H|[Hl H]]%lookup_app_Some; rewrite list_lookup_fmap in H;
    apply fmap_Some in H as (x & Hx & ->); exists x;
    pose proof (list_elem_of_lookup_2 _ _ _ Hx) as He; apply list_elem_of_filter in He as [Hf He].
  - split_and!; [done..| |congruence]. intros _. split; [by eapply lookup_lt_Some|done].
  - rewrite length_fmap in *. split_and!; [done..|congruence|done].
Qed.

(** ** Compiling *)

Lemma position_lookup keys k :
  (length keys <= 256)%nat → k ∈ keys → ∃ i, position keys k = Some i ∧ keys !! i = Some k.
Proof.
  intros Hl [i Hi]%find_index_elem. unfold position. rewrite Hi.
  exists (i mod 256)%nat. split; [done|].
  apply find_index_Some in Hi. pose proof (lookup_lt_Some _ _ _ Hi). by rewrite Nat.mod_small by lia.
Qed.

(** [ci] is [ix] with its keys replaced by their indices. *)
Definition decompiles (keys : list Pubkey) (ix : Instruction) (ci : CompiledInstruction) : Prop :=
  ci_program_id ci keys = Some (program_id ix) ∧
  mapM (λ i, keys !! i) (ci_accounts ci) = Some (pubkey <$> ix_accounts ix) ∧ ci_data ci = ix_data ix.

Lemma position_Some keys k : k ∈ keys → is_Some (position keys k).
Proof. intros [i Hi]%find_index_elem. unfold position. by rewrite Hi. Qed.

Lemma mapM_position keys (l : list AccountMeta) :
  (∀ x, x ∈ l → pubkey x ∈ keys) →
  ∃ js, mapM (λ x, position keys (pubkey x)) l = Some js ∧
    ((length keys <= 256)%nat → mapM (λ i, keys !! i) js = Some (pubkey <$> l)).
Proof.
  induction l as [|x l IH]; intros Hl; [by exists []|].
  destruct IH as (js & His & Hm); [intros; apply Hl; by right|].
  destruct (position_Some keys (pubkey x)) as [i Hi]; [apply Hl; by left|].
  exists (i :: js). cbn. rewrite Hi, His. split; [done|]. intros Hlen.
  destruct (position_lookup keys (pubkey x) Hlen) as (i' & Hi' & Hk); [apply Hl; by left|].
  rewrite Hi in Hi'. simplify_eq. rewrite Hk. cbn. by rewrite Hm.
Qed.

Lemma compile_instruction_total keys ix :
  program_id ix ∈ keys → (∀ x, x ∈ ix_accounts ix → pubkey x ∈ keys) →
  ∃ ci, compile_instruction ix keys = Some ci ∧ ((length keys <= 256)%nat → decompiles keys ix ci).
Proof.
  intros Hp (js & His & Hm)%mapM_position. destruct (position_Some _ _ Hp) as [p Hpos].
  exists (mkCompiled p js (ix_data ix)). unfold compile_instruction. rewrite His. cbn. rewrite Hpos.
  split; [done|]. intros Hl. split_and!; [|by apply Hm|done].
  destruct (position_lookup _ _ Hl Hp) as (p' & Hp' & Hk). unfold ci_program_id. cbn. congruence.
Qed.

Lemma compile_instructions_total keys ixs :
  (∀ ix, ix ∈ ixs → program_id ix ∈ keys ∧ ∀ x, x ∈ ix_accounts ix → pubkey x ∈ keys) →
  ∃ cis, compile_instructions ixs keys = Some cis ∧
         ((length keys <= 256)%nat → Forall2 (decompiles keys) ixs cis).
Proof.
  unfold compile_instructions. induction ixs as [|ix ixs IH]; intros Hk; [by exists []|].
  destruct IH as (cis & Hcis & Hd); [intros; apply Hk; by right|].
  destruct (Hk ix) as [Hp Ha]; [by left|].
  destruct (compile_instruction_total keys ix Hp Ha) as (ci & Hci & Hd').
  exists (ci :: cis). cbn. rewrite Hci, Hcis. split; [done|]. constructor; auto.
Qed.

Lemma all_metas_keys ixs payer ix : ix ∈ ixs →
  program_id ix ∈ metas_keys (all_metas ixs payer) ∧
  ∀ x, x ∈ ix_accounts ix → pubkey x ∈ metas_keys (all_metas ixs payer).
Proof.
  intros Hix. unfold metas_keys, all_metas. split.
  - apply list_elem_of_fmap. exists (mkMeta (program_id ix) false false). split; [done|].
    rewrite !elem_of_app. right. right. apply list_elem_of_fmap. eauto.
  - intros x Hx. apply list_elem_of_fmap. exists x. split; [done|].
    rewrite !elem_of_app. right. left. apply list_elem_of_bind. eauto.
Qed.

Lemma merge_head x u rest : ∃ y l, foldl merge_meta (x :: u) rest = y :: l ∧
  pubkey y = pubkey x ∧ meta_is_signer y = meta_is_signer x.
Proof.
  revert x u. induction rest as [|m rest IH]; intros x u; [by exists x, u|].
  assert (∃ y l, merge_meta (x :: u) m = y :: l ∧ pubkey y = pubkey x ∧
                 meta_is_signer y = meta_is_signer x) as (y & l & Hm & Hp & Hs).
  { unfold merge_meta. cbn. destruct (pubkey x =? pubkey m); cbn; [by eexists _, _|].
    destruct (promote u m); cbn; by eexists _, _. }
  cbn [foldl]. rewrite Hm. destruct (IH y l) as (z & l' & -> & ? & ?). exists z, l'. by rewrite <-Hp, <-Hs.
Qed.

(** A key has one merged meta. *)
Lemma metas_key_inj w x y : NoDup (metas_keys w) → x ∈ w → y ∈ w → pubkey x = pubkey y → x = y.
Proof.
  intros Hnd [a Ha]%list_elem_of_lookup [b Hb]%list_elem_of_lookup Hk.
  assert (a = b); [|naive_solver].
  eapply (NoDup_lookup (metas_keys w)); [done|..]; unfold metas_keys; rewrite list_lookup_fmap.
  - by rewrite Ha.
  - rewrite Hb. cbn. by rewrite Hk.
Qed.

Lemma Message_new_spec ixs payer :
  ∃ m, Message_new ixs payer = Some m ∧ NoDup (account_keys m) ∧
    (∀ p, payer = Some p → head (account_keys m) = Some p) ∧
    ((length (account_keys m) < 256)%nat →
      Forall2 (decompiles (account_keys m)) ixs (instructions m) ∧
      ∀ i k, account_keys m !! i = Some k →
        message_is_signer m i = true ↔ asks_signer (all_metas ixs payer) k).
Proof.
  rewrite Message_new_eq. pose proof (metas_merged ixs payer) as (Hnd & Hk & _ & Hs).
  assert (Hhead : ∀ p, payer = Some p → ∃ y l, foldl merge_meta [] (keys_and_signed ixs payer) = y :: l ∧
            pubkey y = p ∧ meta_is_signer y = true).
  { intros p ->. cbn. apply (merge_head (mkMeta p true true) []). }
  revert Hnd Hk Hs Hhead. generalize (foldl merge_meta [] (keys_and_signed ixs payer)).
  intros w Hnd Hk Hs Hhead. pose proof (compiled_keys_perm w) as Hp.
  destruct (compile_instructions_total (metas_keys (signer_metas w) ++ metas_keys (other_metas w)) ixs)
    as (cis & Hcis & Hd).
  { intros ix Hix. destruct (all_metas_keys ixs payer ix Hix) as [H1 H2]. split.
    - rewrite Hp. by apply Hk.
    - intros x Hx. rewrite Hp. by apply Hk, H2. }
  rewrite Hcis. eexists. split; [done|]. cbn [account_keys instructions]. split_and!.
  - by rewrite Hp.
  - intros p Hpay. destruct (Hhead p Hpay) as (y & l & -> & <- & Hy).
    unfold signer_metas. by rewrite filter_cons_True.
  - intros Hlen. split; [apply Hd; lia|]. intros i k Hi.
    unfold message_is_signer. cbn [header num_required_signatures].
    destruct (compiled_key_meta w i k Hnd Hi) as (x & Hx & Hxk & Hyes & Hno).
    assert (length (signer_metas w) < 256)%nat.
    { unfold metas_keys in Hlen. rewrite length_app, !length_fmap in Hlen. lia. }
    rewrite Z.mod_small, Z.ltb_lt, <-Hs by lia. destruct (meta_is_signer x) eqn:Es.
    + destruct (Hyes eq_refl). split; [exists x; done|lia].
    + destruct (Hno eq_refl) as [Hge _]. split; [lia|]. intros (y & Hy & Hyk & Hys).
      assert (x = y) by (eapply metas_key_inj; [done..|congruence]). congruence.
Qed.

Lemma Message_new_keys_length ixs payer m :
  Message_new ixs payer = Some m → (length (account_keys m) <= length (all_metas ixs payer))%nat.
Proof.
  rewrite Message_new_eq. pose proof (metas_merged ixs payer) as (Hnd & Hk & _ & _). revert Hnd Hk.
  generalize (foldl merge_meta [] (keys_and_signed ixs payer)). intros w Hnd Hk.
  destruct (compile_instructions _ _) as [cis|]; cbn [mbind option_bind]; [|done].
  intros [= <-]. cbn [account_keys]. rewrite compiled_keys_perm.
  transitivity (length (metas_keys (all_metas ixs payer))); [|unfold metas_keys; by rewrite length_fmap].
  apply submseteq_length, NoDup_submseteq; [done|]. intros k. by rewrite Hk.
Qed.

(** The writable accounts come first in both parts. *)
Definition writable_first (l : list AccountMeta) : Prop :=
  StronglySorted (λ x y, meta_is_writable y = true → meta_is_writable x = true) l.

Lemma metas_writable_first ixs payer :
  no_promotion (all_metas ixs payer) →
  let w := foldl merge_meta [] (keys_and_signed ixs payer) in
  writable_first (signer_metas w) ∧ writable_first (other_metas w).
Proof.
  intros Hn. cbv zeta.
  assert (Hs : StronglySorted meta_before (foldl merge_meta [] (keys_and_signed ixs payer))).
  { apply merge_order; [apply keys_and_signed_sorted|]. split; [set_solver|]. intros k _ Ha Hw.
    unfold no_promotion, asks_signer, asks_writable in *. setoid_rewrite keys_and_signed_elem in Ha.
    setoid_rewrite keys_and_signed_elem in Hw. setoid_rewrite keys_and_signed_elem. auto. }
  split; (eapply StronglySorted_filter; [|exact Hs]); intros x y Hx Hy Hb%Is_true_true%meta_before_spec.
  - apply Hb. by rewrite Hx, Hy.
  - apply Hb. apply not_true_is_false in Hx, Hy. by rewrite Hx, Hy.
Qed.

(** The two regions [is_writable] tests. *)
Lemma writable_regions w cis i x :
  (length (metas_keys (signer_metas w) ++ metas_keys (other_metas w)) < 256)%nat →
  writable_first (signer_metas w) → writable_first (other_metas w) →
  (metas_keys (signer_metas w) ++ metas_keys (other_metas w)) !! i = Some (pubkey x) →
  (meta_is_signer x = true → (i < length (signer_metas w))%nat ∧ signer_metas w !! i = Some x) →
  (meta_is_signer x = false → (length (signer_metas w) <= i)%nat ∧
     other_metas w !! (i - length (signer_metas w))%nat = Some x) →
  message_is_writable
    (mkMessage (mkHeader (Z.of_nat (length (signer_metas w)) mod 256)
      (Z.of_nat (length (readonly_metas (signer_metas w))) mod 256)
      (Z.of_nat (length (readonly_metas (other_metas w))) mod 256))
      (metas_keys (signer_metas w) ++ metas_keys (other_metas w)) Hash_default cis) i =
  Some (meta_is_writable x && negb (reserved_key (pubkey x))).
Proof.
  intros Hlen Hsw How Hi Hyes Hno.
  unfold message_is_writable. cbn [header account_keys num_required_signatures
    num_readonly_signed_accounts num_readonly_unsigned_accounts].
  unfold metas_keys in Hlen |- *. rewrite length_app, !length_fmap in *.
  pose proof (filter_split_length (λ x, meta_is_writable x = true) (signer_metas w)) as Hs.
  pose proof (filter_split_length (λ x, meta_is_writable x = true) (other_metas w)) as Ho.
  change (filter _ (signer_metas w)) with (readonly_metas (signer_metas w)) in Hs at 2.
  change (filter _ (other_metas w)) with (readonly_metas (other_metas w)) in Ho at 2.
  rewrite !(Z.mod_small _ 256) by lia. unfold sub8, sub64, wrap64. rewrite !(Z.mod_small _ 256) by lia.
  rewrite (Z.mod_small _ (2 ^ 64)) by lia.
  match goal with |- context [if ?c then _ else _] => assert (Hc : c = meta_is_writable x) end.
  - apply eq_true_iff_eq. rewrite orb_true_iff, andb_true_iff, !Z.ltb_lt, Z.leb_le.
    destruct (meta_is_signer x).
    + destruct (Hyes eq_refl) as [Hl Hx]. rewrite (sorted_prefix _ _ _ _ Hsw Hx). lia.
    + destruct (Hno eq_refl) as [Hl Hx]. rewrite (sorted_prefix _ _ _ _ How Hx). lia.
  - rewrite Hc. destruct (meta_is_writable x); [|done]. unfold metas_keys in Hi. by rewrite Hi.
Qed.

Lemma Message_new_writable ixs payer m i k :
  no_promotion (all_metas ixs payer) → Message_new ixs payer = Some m →
  (length (account_keys m) < 256)%nat → account_keys m !! i = Some k →
  ∃ b, message_is_writable m i = Some b ∧
       (b = true ↔ asks_writable (all_metas ixs payer) k ∧ reserved_key k = false).
Proof.
  intros [Hsw How]%metas_writable_first. rewrite Message_new_eq.
  pose proof (metas_merged ixs payer) as (Hnd & Hk & Hw & _). revert Hnd Hk Hw Hsw How.
  generalize (foldl merge_meta [] (keys_and_signed ixs payer)). intros w Hnd Hk Hw Hsw How.
  destruct (compile_instructions _ _) as [cis|]; cbn [mbind option_bind]; [|done].
  intros [= <-] Hlen Hi. cbn [account_keys] in Hlen, Hi.
  destruct (compiled_key_meta w i k Hnd Hi) as (x & Hx & <- & Hyes & Hno).
  rewrite (writable_regions w cis i x) by done. eexists. split; [done|].
  rewrite andb_true_iff, negb_true_iff, <-Hw. split; intros [Ha Hr]; (split; [|done]).
  - by exists x.
  - destruct Ha as (y & Hy & Hyk & Hyw). by rewrite <-(metas_key_inj w y x).
Qed.

(** C32. Compiling instructions into a message is total: the keys of the
    message are distinct, with the payer first.  If there are fewer than 256
    keys, the indices and counts fit in a [u8], and the message says what the
    instructions say: every compiled instruction reads back the program, the
    keys and the data of the instruction it came from; a key signs exactly when
    it is the payer or some instruction asks for its signature; and, if every
    key that both signs and is writable is asked to be both in one account
    meta, a key is writable exactly when it is the payer or some instruction
    asks for it, reserved keys (sysvars and builtin programs) excepted.  The
    privileges are those of the message: an instruction gets the privileges
    that any of the instructions asks for.  Without the last condition the
    write privileges can move to another key, see [promotion_swaps_privileges]. *)
Theorem compile_faithful ixs payer :
  ∃ m, Message_new ixs payer = Some m ∧ NoDup (account_keys m) ∧
    (∀ p, payer = Some p → head (account_keys m) = Some p) ∧
    ((length (account_keys m) < 256)%nat →
      Forall2 (decompiles (account_keys m)) ixs (instructions m) ∧
      ∀ i k, account_keys m !! i = Some k →
        (message_is_signer m i = true ↔ asks_signer (all_metas ixs payer) k) ∧
        (no_promotion (all_metas ixs payer) →
          ∃ b, message_is_writable m i = Some b ∧
            (b = true ↔ asks_writable (all_metas ixs payer) k ∧ reserved_key k = false))).
Proof.
  destruct (Message_new_spec ixs payer) as (m & Hm & Hn & Hp & Hd). exists m. split_and!; [done..|].
  intros Hlen. destruct (Hd Hlen) as [Hf Hs]. split; [done|]. intros i k Hi. split; [by apply Hs|].
  intros Hno. by apply (Message_new_writable ixs payer m i k).
Qed.

(** The condition on promotion can hold: an instruction that needs the
    signatures of two accounts and writes both. *)
Definition transfer_ix : Instruction :=
  mkInstruction 500 [mkMeta 11 true true; mkMeta 12 true true; mkMeta 13 false false] [].

Lemma transfer_no_promotion : no_promotion (all_metas [transfer_ix] (Some 10)).
Proof.
  intros k (x & Hx & Hk & Hs) _. exists x. split_and!; [done..|].
  unfold all_metas, transfer_ix in Hx. cbn in Hx.
  repeat (apply elem_of_cons in Hx as [->|Hx]; [done|]). by apply not_elem_of_nil in Hx.
Qed.

(** The condition on promotion is needed.  An instruction asks
    for the signatures of 11 and 12, both read-only, and again for 12,
    writable.  The promotion of 12 does not move it before 11, and the header
    only counts the read-only signers: the message makes 11 writable, which
    nothing asked for, and 12 read-only. *)
Theorem promotion_swaps_privileges :
  let ix := mkInstruction 500 [mkMeta 11 true false; mkMeta 12 true false; mkMeta 12 false true] [] in
  ∃ m, Message_new [ix] None = Some m ∧ sanitize m = Ok tt ∧
    account_keys m !! 0%nat = Some 11 ∧ message_is_writable m 0 = Some true ∧
    account_keys m !! 1%nat = Some 12 ∧ message_is_writable m 1 = Some false ∧
    ¬ asks_writable (all_metas [ix] None) 11 ∧ asks_writable (all_metas [ix] None) 12.
Proof.
  eexists. split; [vm_compute; reflexivity|]. split_and!; [vm_compute; reflexivity..| |].
  - intros (x & Hx & Hk & Hw). cbn in Hx.
    repeat (apply elem_of_cons in Hx as [->|Hx]; [done|]). by apply not_elem_of_nil in Hx.
  - exists (mkMeta 12 false true). split_and!; [|done..]. cbn. set_solver.
Qed.

(** ** Sanitized messages *)

(** A message a variable can hold: [u8] counts, a [usize] number of keys. *)
Definition message_ok (m : Message) : Prop :=
  is_u8 (num_required_signatures (header m)) ∧ is_u8 (num_readonly_signed_accounts (header m)) ∧
  is_u8 (num_readonly_unsigned_accounts (header m)) ∧ is_u64 (Z.of_nat (length (account_keys m))).

Lemma sanitize_Ok m : sanitize m = Ok tt ↔
  num_required_signatures (header m) + num_readonly_unsigned_accounts (header m) <=
    Z.of_nat (length (account_keys m)) ∧
  num_readonly_signed_accounts (header m) < num_required_signatures (header m) ∧
  forallb (sanitize_instruction (length (account_keys m))) (instructions m) = true.
Proof.
  unfold sanitize.
  destruct (Z.ltb_spec (Z.of_nat (length (account_keys m)))
    (num_required_signatures (header m) + num_readonly_unsigned_accounts (header m))); [split; [done|lia]|].
  destruct (Z.leb_spec (num_required_signatures (header m)) (num_readonly_signed_accounts (header m)));
    [split; [done|lia]|].
  destruct (forallb _ _); cbn; naive_solver.
Qed.

Lemma sanitize_instruction_spec n ci : sanitize_instruction n ci = true ↔
  (program_id_index ci < n)%nat ∧ program_id_index ci ≠ 0%nat ∧
  ∀ a, a ∈ ci_accounts ci → (a < n)%nat.
Proof.
  unfold sanitize_instruction.
  rewrite !andb_true_iff, negb_true_iff, bool_decide_eq_true, bool_decide_eq_false, forallb_forall.
  setoid_rewrite bool_decide_eq_true. setoid_rewrite list_elem_of_In. tauto.
Qed.

(** The regions of a sanitized header do not wrap. *)
Lemma sanitized_writable m i : message_ok m → sanitize m = Ok tt →
  message_is_writable m i =
    if (Z.of_nat i <? num_required_signatures (header m) - num_readonly_signed_accounts (header m)) ||
       (num_required_signatures (header m) <=? Z.of_nat i) &&
       (Z.of_nat i <? Z.of_nat (length (account_keys m)) - num_readonly_unsigned_accounts (header m))
    then k ← account_keys m !! i; Some (negb (reserved_key k)) else Some false.
Proof.
  intros (H1 & H2 & H3 & H4) (Ha & Hb & _)%sanitize_Ok. unfold message_is_writable, sub8, sub64, wrap64.
  unfold is_u8, u8_max, is_u64, u64_max in *.
  rewrite (Z.mod_small _ 256) by lia. by rewrite (Z.mod_small _ (2 ^ 64)) by lia.
Qed.

Lemma sanitized_writable_total m i : message_ok m → sanitize m = Ok tt → is_Some (message_is_writable m i).
Proof.
  intros Hm Hs. rewrite sanitized_writable by done. apply sanitize_Ok in Hs as (Ha & Hb & _).
  destruct Hm as (H1 & H2 & H3 & _). unfold is_u8 in *.
  match goal with |- is_Some (if ?c then _ else _) => destruct c eqn:E end; [|done].
  assert (is_Some (account_keys m !! i)) as [k ->]; [|done].
  apply lookup_lt_is_Some. bool_prop. destruct E; bool_prop; lia.
Qed.

Lemma mapM_total {A B} (f : A → option B) l : (∀ x, x ∈ l → is_Some (f x)) → is_Some (mapM f l).
Proof.
  induction l as [|x l IH]; intros Hl; [done|]. cbn. destruct (Hl x) as [y ->]; [by left|]. cbn.
  destruct IH as [ys ->]; [intros; apply Hl; by right|]. done.
Qed.

Lemma serialize_loop_total m cis : ∀ i data,
  (∀ ci, ci ∈ cis → is_Some (serialize_instruction m ci)) → is_Some (serialize_loop m i cis data).
Proof.
  induction cis as [|ci cis IH]; intros i data Hl; cbn -[write_at]; [done|].
  destruct (Hl ci) as [b ->]; [by left|]. apply IH. intros. apply Hl. by right.
Qed.

(** What sanitization buys.  In a sanitized message every program and
    account index is in range and no program is the fee payer; the queries
    never index out of bounds; the fee payer signs and, unless its key is
    reserved, is writable; and the message has an encoding for the
    instructions sysvar. *)
Theorem sanitized_message m :
  message_ok m → sanitize m = Ok tt →
  (∀ ci, ci ∈ instructions m → program_id_index ci ≠ 0%nat ∧
     is_Some (ci_program_id ci (account_keys m)) ∧
     is_Some (mapM (λ a, account_keys m !! a) (ci_accounts ci))) ∧
  (∀ i, is_Some (message_is_writable m i)) ∧
  (∃ payer, account_keys m !! 0%nat = Some payer ∧ message_is_signer m 0 = true ∧
     message_is_writable m 0 = Some (negb (reserved_key payer))) ∧
  is_Some (serialize_instructions m).
Proof.
  intros Hm Hs. pose proof (proj1 (sanitize_Ok m) Hs) as (Ha & Hb & Hi).
  destruct Hm as (H1 & H2 & H3 & H4). unfold is_u8 in *. rewrite forallb_forall in Hi.
  assert (Hci : ∀ ci, ci ∈ instructions m → program_id_index ci ≠ 0%nat ∧
     is_Some (account_keys m !! program_id_index ci) ∧
     ∀ a, a ∈ ci_accounts ci → is_Some (account_keys m !! a)).
  { intros ci Hc%list_elem_of_In. apply Hi, sanitize_instruction_spec in Hc as (Hp & H0 & Hacc).
    split_and!; [done|by apply lookup_lt_is_Some|]. intros a Hia. by apply lookup_lt_is_Some, Hacc. }
  split_and!.
  - intros ci (? & ? & ?)%Hci. split_and!; [done..|]. by apply mapM_total.
  - intros i. by apply sanitized_writable_total.
  - destruct (lookup_lt_is_Some_2 (account_keys m) 0) as [p Hp]; [lia|]. exists p.
    rewrite sanitized_writable by done. unfold message_is_signer. split_and!; [done|by apply Z.ltb_lt; lia|].
    rewrite Hp. by rewrite (proj2 (Z.ltb_lt _ _)) by lia.
  - apply serialize_loop_total. intros ci (_ & [p Hp] & Hacc)%Hci. unfold serialize_instruction.
    rewrite Hp. destruct (mapM_total (serialize_account m) (ci_accounts ci)) as [l ->]; [|done].
    intros a [k Hk]%Hacc. unfold serialize_account. rewrite Hk.
    destruct (sanitized_writable_total m a) as [w ->]; done.
Qed.

Definition transfer_message : Message :=
  mkMessage (mkHeader 3 0 2) [10; 11; 12; 13; 500] Hash_default [mkCompiled 4 [1; 2; 3]%nat []].

Lemma sanitized_message_witness :
  Message_new [transfer_ix] (Some 10) = Some transfer_message ∧
  is_Some (serialize_instructions transfer_message).
Proof.
  split; [vm_compute; reflexivity|].
  apply (sanitized_message transfer_message); [|vm_compute; reflexivity].
  unfold message_ok, is_u8, u8_max, is_u64, u64_max. cbn. lia.
Defined.

(** ** The instructions sysvar *)

(** The bytes [b] stand in [d] from [c] on. *)
Definition bytes_at (d : list byte) (c : nat) (b : list byte) : Prop :=
  ∀ q, (q < length b)%nat → d !! (c + q)%nat = b !! q.

Lemma bytes_at_app d c b1 b2 :
  bytes_at d c (b1 ++ b2) ↔ bytes_at d c b1 ∧ bytes_at d (c + length b1) b2.
Proof.
  unfold bytes_at. rewrite length_app. split.
  - intros H. split; intros q Hq.
    + rewrite H by lia. by rewrite lookup_app_l.
    + rewrite <-Nat.add_assoc, H by lia. rewrite lookup_app_r by lia. f_equal. lia.
  - intros [H1 H2] q Hq. destruct (decide (q < length b1)%nat).
    + rewrite lookup_app_l by done. auto.
    + rewrite lookup_app_r by lia. rewrite <-H2 by lia. f_equal. lia.
Qed.

Lemma bytes_at_cons d c x b : bytes_at d c (x :: b) ↔ d !! c = Some x ∧ bytes_at d (c + 1) b.
Proof.
  change (x :: b) with ([x] ++ b). rewrite bytes_at_app. cbn. split; intros [H1 H2]; (split; [|done]).
  - specialize (H1 0%nat). rewrite Nat.add_0_r in H1. by rewrite H1 by (cbn; lia).
  - intros [|q] Hq; cbn in Hq; [|lia]. by rewrite Nat.add_0_r.
Qed.

Lemma bytes_at_length d c b : bytes_at d c b → b ≠ [] → (c + length b <= length d)%nat.
Proof.
  intros H Hb. destruct b as [|x b _] using rev_ind; [done|].
  rewrite length_app in *. specialize (H (length b)). rewrite length_app in H. cbn in *.
  rewrite lookup_app_r, Nat.sub_diag in H by lia. cbn in H.
  specialize (H ltac:(lia)). apply lookup_lt_Some in H. lia.
Qed.

Lemma read_slice_at d c b :
  bytes_at d c b → (c <= length d)%nat → read_slice d (length b) c = ((c + length b)%nat, Ok b).
Proof.
  intros H Hc. unfold read_slice. cbv [mbind st_bind get ensureS lift ensure put mret st_ret].
  assert (c + length b <= length d)%nat.
  { destruct (decide (b = [])) as [->|Hb]; [cbn; lia|by apply bytes_at_length]. }
  rewrite bool_decide_false by lia. cbn. f_equal. f_equal. apply list_eq. intros q.
  destruct (decide (q < length b)%nat) as [Hq|Hq].
  - by rewrite lookup_take_lt, lookup_drop, H by lia.
  - rewrite lookup_take_ge by lia. symmetry. apply lookup_ge_None. lia.
Qed.

Lemma read_u16_at d c x :
  bytes_at d c (u16_bytes x) → 0 <= x < 65536 → read_u16 d c = ((c + 2)%nat, Ok x).
Proof.
  intros H Hx. unfold read_u16. cbv [mbind st_bind].
  pose proof (bytes_at_length _ _ _ H ltac:(done)).
  change 2%nat with (length (u16_bytes x)). rewrite read_slice_at by (done || cbn in *; lia).
  unfold u16_bytes, mret, st_ret. cbn [length]. rewrite !byte_val_mod. do 2 f_equal. pose proof (Z.div_mod x 256 ltac:(lia)).
  rewrite (Z.mod_small (x / 256)); [lia|]. split; [apply Z.div_pos; lia|apply Z.div_lt_upper_bound; lia].
Qed.

Lemma key_of_bytes_spec k n acc :
  foldl (λ acc b, acc * 256 + byte_val b) acc
    ((λ i, byte_of_Z (Z.shiftr k (8 * Z.of_nat i))) <$> reverse (seq 0 n)) =
  acc * 256 ^ Z.of_nat n + k mod 256 ^ Z.of_nat n.
Proof.
  revert acc. induction n as [|n IH]; intros acc.
  { change (256 ^ Z.of_nat 0) with 1. rewrite Z.mod_1_r, Z.mul_1_r, Z.add_0_r. done. }
  rewrite seq_S, reverse_app. cbn [reverse rev_append app fmap list_fmap foldl].
  change (rev_append [0 + n]%nat []) with [0 + n]%nat. cbn [app fmap list_fmap foldl].
  rewrite IH, byte_val_mod. cbn [Nat.add].
  rewrite Z.shiftr_div_pow2 by lia. rewrite Z.pow_mul_r by lia. change (2 ^ 8) with 256.
  rewrite Nat2Z.inj_succ, Z.pow_succ_r by lia.
  rewrite (Z.mul_comm 256 (256 ^ Z.of_nat n)), Z.rem_mul_r by lia. lia.
Qed.

Lemma key_of_key_bytes k : is_key k → key_of_bytes (key_bytes k) = k.
Proof.
  intros Hk. unfold key_of_bytes, key_bytes. rewrite key_of_bytes_spec.
  rewrite Z.mod_small; [lia|]. exact Hk.
Qed.

Lemma length_key_bytes k : length (key_bytes k) = 32%nat.
Proof. unfold key_bytes. by rewrite length_fmap, length_reverse, length_seq. Qed.

Lemma read_pubkey_at d c k :
  bytes_at d c (key_bytes k) → is_key k → read_pubkey d c = ((c + 32)%nat, Ok k).
Proof.
  intros H Hk. unfold read_pubkey. cbv [mbind st_bind].
  assert (Hl := length_key_bytes k).
  pose proof (bytes_at_length _ _ _ H ltac:(by destruct (key_bytes k))).
  rewrite <-Hl at 1. rewrite read_slice_at by (done || lia). rewrite Hl.
  unfold mret, st_ret. by rewrite key_of_key_bytes.
Qed.

Lemma meta_byte_bits s w :
  negb (Z.land (byte_val (byte_of_Z (meta_byte s w))) (Z.shiftl 1 IS_SIGNER_BIT) =? 0) = s ∧
  negb (Z.land (byte_val (byte_of_Z (meta_byte s w))) (Z.shiftl 1 IS_WRITABLE_BIT) =? 0) = w.
Proof. destruct s, w; vm_compute; done. Qed.

(** What an account of an instruction reads back as. *)
Definition account_meta_of (m : Message) (a : nat) (x : AccountMeta) : Prop :=
  account_keys m !! a = Some (pubkey x) ∧ message_is_signer m a = meta_is_signer x ∧
  message_is_writable m a = Some (meta_is_writable x).

Lemma read_account_at m d c a b :
  Forall is_key (account_keys m) → serialize_account m a = Some b → bytes_at d c b →
  ∃ x, account_meta_of m a x ∧ read_account d c = ((c + length b)%nat, Ok x).
Proof.
  intros Hkeys. unfold serialize_account.
  destruct (message_is_writable m a) as [w|] eqn:Hw; cbn; [|done].
  destruct (account_keys m !! a) as [k|] eqn:Hk; cbn; [|done]. intros [= <-].
  rewrite bytes_at_cons. intros [H1 H2].
  exists (mkMeta k (message_is_signer m a) w). split; [by split_and!|].
  assert (is_key k) by (eapply Forall_lookup_1; [exact Hkeys|done]).
  unfold read_account, read_u8. cbv [mbind st_bind get ensureS lift ensure put mret st_ret unwrap].
  pose proof (lookup_lt_Some _ _ _ H1). rewrite bool_decide_false by lia. cbn [negb]. rewrite H1.
  rewrite (read_pubkey_at d (c + 1) k) by done.
  destruct (meta_byte_bits (message_is_signer m a) w) as [-> ->].
  cbn [length]. rewrite length_key_bytes. f_equal. lia.
Qed.

Lemma read_accounts_at m d l bs : ∀ c,
  Forall is_key (account_keys m) → mapM (serialize_account m) l = Some bs → bytes_at d c (concat bs) →
  ∃ xs, Forall2 (account_meta_of m) l xs ∧
        read_accounts (length l) d c = ((c + length (concat bs))%nat, Ok xs).
Proof.
  revert bs. induction l as [|a l IH]; intros bs c Hk; cbn [mapM].
  { intros [= <-] _. exists []. split; [constructor|]. cbn. by rewrite Nat.add_0_r. }
  destruct (serialize_account m a) as [b|] eqn:Eb; cbn; [|done].
  destruct (mapM (serialize_account m) l) as [bs'|]; cbn; [|done]. intros [= <-]. cbn.
  rewrite bytes_at_app. intros [H1 H2].
  destruct (read_account_at m d c a b Hk Eb H1) as (x & Hx & Hr).
  destruct (IH bs' (c + length b)%nat Hk eq_refl H2) as (xs & Hxs & Hrs).
  exists (x :: xs). split; [by constructor|]. cbv [mbind st_bind]. rewrite Hr, Hrs.
  unfold mret, st_ret. rewrite length_app. f_equal. lia.
Qed.

Lemma write_at_lookup off b data p :
  (off + length b <= length data)%nat →
  write_at off b data !! p =
    if decide (off <= p < off + length b)%nat then b !! (p - off)%nat else data !! p.
Proof.
  intros Hl. unfold write_at. case_decide.
  - rewrite lookup_app_r by (rewrite length_take; lia). rewrite length_take, Nat.min_l by lia.
    by rewrite lookup_app_l by lia.
  - destruct (decide (p < off)%nat).
    + rewrite lookup_app_l by (rewrite length_take; lia). by rewrite lookup_take_lt.
    + rewrite lookup_app_r by (rewrite length_take; lia). rewrite length_take, Nat.min_l by lia.
      rewrite lookup_app_r by lia. rewrite lookup_drop. f_equal. lia.
Qed.

Lemma length_write_at off b data :
  (off + length b <= length data)%nat → length (write_at off b data) = length data.
Proof. intros. unfold write_at. rewrite !length_app, length_take, length_drop. lia. Qed.

Lemma length_write_u16 off x data :
  (off + 2 <= length data)%nat → length (write_at off (u16_bytes x) data) = length data.
Proof. apply (length_write_at off (u16_bytes x)). Qed.

(** The result of the loop: the table entries written, the blobs appended. *)
Definition laid_out (m : Message) (i : nat) (cis : list CompiledInstruction) (data d : list byte)
    (bs : list (list byte)) : Prop :=
  mapM (serialize_instruction m) cis = Some bs ∧
  length d = (length data + length (concat bs))%nat ∧
  (∀ p, (p < length data)%nat → (p < 2 + 2 * i ∨ 2 + 2 * (i + length cis) <= p)%nat → d !! p = data !! p) ∧
  (∀ j b, bs !! j = Some b →
     let off := (length data + length (concat (take j bs)))%nat in
     bytes_at d (2 + 2 * (i + j)) (u16_bytes (Z.of_nat off)) ∧ bytes_at d off b).

(** One round of the loop. *)
Lemma serialize_step_lookup i data b p :
  (2 + 2 * S i <= length data)%nat →
  (write_at (2 + 2 * i) (u16_bytes (Z.of_nat (length data))) data ++ b) !! p =
    if decide (p < length data)%nat then
      if decide (2 + 2 * i <= p < 2 + 2 * i + 2)%nat
      then u16_bytes (Z.of_nat (length data)) !! (p - (2 + 2 * i))%nat else data !! p
    else b !! (p - length data)%nat.
Proof.
  intros Hl. case_decide.
  - rewrite lookup_app_l by (rewrite length_write_u16; lia).
    rewrite write_at_lookup; change (length (u16_bytes _)) with 2%nat; [|lia].
    repeat case_decide; done || lia.
  - rewrite lookup_app_r by (rewrite length_write_u16; lia).
    by rewrite length_write_u16 by lia.
Qed.

Lemma laid_out_cons m i ci cis data b d bs :
  (2 + 2 * (i + S (length cis)) <= length data)%nat → serialize_instruction m ci = Some b →
  laid_out m (S i) cis (write_at (2 + 2 * i) (u16_bytes (Z.of_nat (length data))) data ++ b) d bs →
  laid_out m i (ci :: cis) data d (b :: bs).
Proof.
  intros Hl Eb (Hbs & Hlen & Hsame & Hblobs).
  assert (Hd1 := λ p, serialize_step_lookup i data b p ltac:(lia)).
  rewrite length_app, length_write_u16 in * by lia.
  assert (Hd : ∀ p, (p < length data + length b)%nat → (p < 2 + 2 * S i ∨ 2 + 2 * (S i + length cis) <= p)%nat →
    d !! p = if decide (p < length data)%nat then
      if decide (2 + 2 * i <= p < 2 + 2 * i + 2)%nat
      then u16_bytes (Z.of_nat (length data)) !! (p - (2 + 2 * i))%nat else data !! p
    else b !! (p - length data)%nat) by (intros p ? ?; by rewrite <-Hd1, <-Hsame).
  unfold laid_out. cbn [mapM length concat]. rewrite Eb, Hbs, length_app. split_and!; [done|lia|..].
  - intros p Hp Hout. rewrite Hd by lia. repeat case_decide; done || lia.
  - intros [|j] b' Hj; cbn in Hj; simplify_eq.
    + cbn [take concat length]. rewrite !Nat.add_0_r. split; intros q Hq.
      * change (length (u16_bytes _)) with 2%nat in Hq. rewrite Hd by lia.
        rewrite decide_True by lia. rewrite decide_True by lia. f_equal. lia.
      * rewrite Hd by lia. rewrite decide_False by lia. f_equal. lia.
    + specialize (Hblobs j b' Hj). cbn [take concat]. rewrite length_app.
      rewrite Nat.add_assoc, <-plus_n_Sm. exact Hblobs.
Qed.

Lemma serialize_loop_layout m cis : ∀ i data d,
  (2 + 2 * (i + length cis) <= length data)%nat → serialize_loop m i cis data = Some d →
  ∃ bs, laid_out m i cis data d bs.
Proof.
  induction cis as [|ci cis IH]; intros i data d Hl; cbn [serialize_loop].
  { intros [= ->]. exists []. unfold laid_out. cbn. split_and!; [done|lia|done|done]. }
  destruct (serialize_instruction m ci) as [b|] eqn:Eb; cbn [mbind option_bind]; [|done].
  cbn [length] in Hl. intros (bs & Hbs)%IH.
  - exists (b :: bs). by apply laid_out_cons.
  - rewrite length_app, length_write_u16; lia.
Qed.

(** What an instruction of the message reads back as. *)
Definition instruction_of (m : Message) (ci : CompiledInstruction) (ix : Instruction) : Prop :=
  ci_program_id ci (account_keys m) = Some (program_id ix) ∧ ci_data ci = ix_data ix ∧
  Forall2 (account_meta_of m) (ci_accounts ci) (ix_accounts ix).

Lemma bytes_at_weaken d tail c b : bytes_at d c b → (c + length b <= length d)%nat → bytes_at (d ++ tail) c b.
Proof. intros H Hl q Hq. rewrite lookup_app_l by lia. auto. Qed.

Lemma serialize_account_length m a b : serialize_account m a = Some b → length b = 33%nat.
Proof.
  unfold serialize_account. destruct (message_is_writable m a); cbn; [|done].
  destruct (account_keys m !! a); cbn; [|done]. intros [= <-]. cbn. by rewrite length_key_bytes.
Qed.

Lemma serialize_accounts_length m l bs :
  mapM (serialize_account m) l = Some bs → (length l <= length (concat bs))%nat.
Proof.
  revert bs. induction l as [|a l IH]; intros bs; cbn; [lia|].
  destruct (serialize_account m a) as [b|] eqn:E; cbn; [|done]. apply serialize_account_length in E.
  destruct (mapM (serialize_account m) l) as [bs'|]; cbn; [|done]. intros [= <-]. cbn.
  specialize (IH bs' eq_refl). rewrite length_app. lia.
Qed.

(** Reading an instruction at its offset. *)
Definition read_instruction (data : list byte) : R Instruction :=
  num_accounts ← read_u16 data;
  accounts ← read_accounts (Z.to_nat num_accounts) data;
  p ← read_pubkey data;
  data_len ← read_u16 data;
  d ← read_slice data (Z.to_nat data_len);
  mret (mkInstruction p accounts d).

Lemma read_instruction_at m D off ci b :
  Forall is_key (account_keys m) → serialize_instruction m ci = Some b → bytes_at D off b →
  Z.of_nat (length b) < 2 ^ 16 →
  ∃ ix, instruction_of m ci ix ∧ (read_instruction D off).2 = Ok ix.
Proof.
  intros Hk. unfold serialize_instruction.
  destruct (mapM (serialize_account m) (ci_accounts ci)) as [accs|] eqn:Ea; cbn [mbind option_bind]; [|done].
  destruct (account_keys m !! program_id_index ci) as [p|] eqn:Ep; cbn [mbind option_bind]; [|done].
  intros E%(inj Some). rewrite <-E. clear b E.
  rewrite !bytes_at_app. intros (H1 & H2 & H3 & H4 & H5) Hb. rewrite !length_app in *.
  pose proof (serialize_accounts_length _ _ _ Ea).
  change (length (u16_bytes _)) with 2%nat in *. rewrite length_key_bytes in *.
  destruct (read_accounts_at m D (ci_accounts ci) accs (off + 2)%nat Hk Ea H2) as (xs & Hxs & Hr).
  exists (mkInstruction p xs (ci_data ci)). split; [by split_and!|].
  unfold read_instruction. cbv [mbind st_bind]. rewrite (read_u16_at _ _ _ H1) by lia.
  rewrite Nat2Z.id, Hr, (read_pubkey_at _ _ _ H3) by (eapply Forall_lookup_1; [exact Hk|done]).
  rewrite (read_u16_at _ _ _ H4), Nat2Z.id by lia.
  rewrite read_slice_at; [done..|]. pose proof (bytes_at_length _ _ _ H4 ltac:(done)) as Hl.
  change (length (u16_bytes _)) with 2%nat in Hl. done.
Qed.

(** C37. The instructions sysvar gives a program the transaction's instructions
    back: reading instruction [i] of a message's encoding (with anything
    appended, as the index of the current instruction is) gives its program,
    its data and its accounts with their signer and writable flags, as long as
    the encoding is short enough for its 16-bit offsets. *)
Theorem instructions_roundtrip m d tail i ci :
  Forall is_key (account_keys m) → serialize_instructions m = Some d →
  Z.of_nat (length d) < 2 ^ 16 → instructions m !! i = Some ci →
  ∃ ix, deserialize_instruction i (d ++ tail) = Ok ix ∧ instruction_of m ci ix.
Proof.
  unfold serialize_instructions. set (n := length (instructions m)). intros Hk Hd Hlen Hi.
  assert (Hin : (i < n)%nat) by (by eapply lookup_lt_Some).
  apply serialize_loop_layout in Hd as (bs & Hbs & Hl & Hsame & Hblobs);
    [|rewrite length_app, length_replicate; change (length (u16_bytes _)) with 2%nat; lia].
  rewrite length_app, length_replicate in *. change (length (u16_bytes _)) with 2%nat in *.
  apply mapM_Some in Hbs. destruct (Forall2_lookup_l _ _ _ _ _ Hbs Hi) as (b & Hb & Eb).
  destruct (Hblobs i b Hb) as [Hoff Hblob]. cbn [Nat.add] in Hoff.
  assert (Hfit : (2 + 2 * n + length (concat (take i bs)) + length b <= length d)%nat).
  { rewrite <-(take_drop_middle _ _ _ Hb), concat_app in Hl. cbn in Hl. rewrite !length_app in Hl. lia. }
  set (off := (2 + 2 * n + length (concat (take i bs)))%nat) in *.
  destruct (read_instruction_at m (d ++ tail) off ci b) as (ix & Hix & Hr);
    [done..|by apply bytes_at_weaken|lia|].
  exists ix. split; [|done]. rewrite <-Hr.
  unfold deserialize_instruction, deserialize_at. cbv [mbind st_bind ensureS lift ensure modify put].
  rewrite (read_u16_at _ _ (Z.of_nat n)); [|apply bytes_at_weaken; [|change (length (u16_bytes _)) with 2%nat; lia]|lia].
  - rewrite (proj2 (Z.leb_gt _ _)) by lia. cbn [negb].
    rewrite (read_u16_at _ _ (Z.of_nat off)); [| |lia].
    + rewrite Nat2Z.id. done.
    + replace (0 + 2 + i * 2)%nat with (2 + 2 * i)%nat by lia.
      apply bytes_at_weaken; [done|]. change (length (u16_bytes _)) with 2%nat. lia.
  - intros q Hq. change (length (u16_bytes _)) with 2%nat in Hq.
    rewrite Hsame by lia. by rewrite lookup_app_l.
Qed.

Definition transfer_bytes : list byte :=
  Eval vm_compute in default [] (serialize_instructions transfer_message).

Lemma instructions_roundtrip_witness :
  serialize_instructions transfer_message = Some transfer_bytes ∧
  (∃ ix, deserialize_instruction 0 (transfer_bytes ++ u16_bytes 0) = Ok ix ∧
         instruction_of transfer_message (mkCompiled 4 [1; 2; 3]%nat []) ix) ∧
  deserialize_instruction 0 (transfer_bytes ++ u16_bytes 0) = Ok transfer_ix.
Proof.
  assert (E : serialize_instructions transfer_message = Some transfer_bytes) by (vm_compute; reflexivity).
  split_and!; [exact E| |vm_compute; reflexivity].
  refine (instructions_roundtrip transfer_message transfer_bytes (u16_bytes 0) 0 _ _ E _ eq_refl).
  - apply (bool_decide_unpack (Forall _ _)). vm_compute. exact I.
  - vm_compute. reflexivity.
Defined.
