(* ===== verification/CostModel.v ===== *)
(** * The cost of transactions

    Models [core/src/execute_cost_table.rs], [core/src/cost_model.rs] and
    [core/src/cost_tracker.rs]: the average cost of every program in a table of
    bounded size, the cost of a transaction from it, and the costs of the
    transactions already packed into a block, per block and per writable
    account, against their limits. *)

From S2P Require Import Prelude F64 Account Features Sysvar Message.

Module cost_model.
Import message.

(** ** The cost of programs *)

(** 0.75 *)
Definition PRUNE_RATIO : f64 := Eval vm_compute in f64_of_ratio 3 4.
Definition OCCURRENCES_WEIGHT : Z := 100.
Definition DEFAULT_CAPACITY : Z := 1024.

(** Times are in nanoseconds. *)
Record ExecuteCostTable : Type := mkTable {
  capacity : Z;
  table : gmap Pubkey Z;
  occurrences : gmap Pubkey (Z * Z);
}.

Definition Table_new (cap : Z) : ExecuteCostTable := mkTable cap ∅ ∅.
Definition Table_default : ExecuteCostTable := Table_new DEFAULT_CAPACITY.

Definition get_count (t : ExecuteCostTable) : Z := Z.of_nat (size (table t)).
Definition get_average (t : ExecuteCostTable) : Z :=
  if bool_decide (table t = ∅) then 0
  else wrap64 (sum_with snd (map_to_list (table t))) / get_count t.
Definition get_cost (key : Pubkey) (t : ExecuteCostTable) : option Z := table t !! key.

Section table.
(** The order in which a hash map yields its entries. *)
Context (order : gmap Pubkey (Z * Z) → list (Pubkey * (Z * Z))).

Definition count_le (x y : Z * Z) : bool := (x.1 <? y.1) || ((x.1 =? y.1) && (x.2 <=? y.2)).

(** [max_by_key]: the last of the largest entries. *)
Fixpoint max_entry (best : Pubkey * (Z * Z)) (l : list (Pubkey * (Z * Z))) : Pubkey * (Z * Z) :=
  match l with
  | [] => best
  | x :: l' => max_entry (if count_le best.2 x.2 then x else best) l'
  end.

Definition get_mode (t : ExecuteCostTable) : res Empty_set Z :=
  match order (occurrences t) with
  | [] => Ok 0
  | x :: l => unwrap (table t !! (max_entry x l).1)
  end.

(** The weighted ages; [duration_since] fails on a time in the future. *)
Fixpoint weighted_ages (now : Z) (l : list (Pubkey * (Z * Z))) : res Empty_set (list (Z * Pubkey)) :=
  match l with
  | [] => Ok []
  | (key, (count, timestamp)) :: l' =>
      if now <? timestamp then Panic
      else
        let age := (now - timestamp) / 1000 in
        let weighted_age := as_i64 (as_i64 count * OCCURRENCES_WEIGHT - as_i64 age) in
        rest ← weighted_ages now l';
        Ok ((weighted_age, key) :: rest)
  end.

Fixpoint prune_loop (new_size : Z) (l : list (Z * Pubkey)) (t : ExecuteCostTable) : ExecuteCostTable :=
  match l with
  | [] => t
  | (_, key) :: l' =>
      let t := mkTable (capacity t) (delete key (table t)) (delete key (occurrences t)) in
      if new_size =? get_count t then t else prune_loop new_size l' t
  end.

Definition prune_to (now new_size : Z) (t : ExecuteCostTable) : res Empty_set ExecuteCostTable :=
  if new_size =? get_count t then Ok t
  else if new_size =? 0 then Ok (mkTable (capacity t) ∅ ∅)
  else
    ages ← weighted_ages now (order (occurrences t));
    Ok (prune_loop new_size (sort_by (λ x y : Z * Pubkey, x.1 <=? y.1) ages) t).

(** [now] is the time of the pruning, [now'] the time written. *)
Definition upsert (now now' : Z) (key : Pubkey) (value : Z) (t : ExecuteCostTable) : res Empty_set ExecuteCostTable :=
  let need_to_add := bool_decide (table t !! key = None) in
  let current_size := get_count t in
  t ← (if (current_size =? capacity t) && need_to_add
       then prune_to now (f64_to_u64 (f64_mul (f64_of_Z current_size) PRUNE_RATIO)) t
       else Ok t);
  let program_cost := default value (table t !! key) in
  let count := default 0 (fst <$> occurrences t !! key) in
  Ok (mkTable (capacity t) (<[key := add64 program_cost value / 2]> (table t)) (<[key := (add64 count 1, now')]> (occurrences t))).

(** ** The cost of a transaction *)

Definition SIGVER_COST : Z := 1.
Definition NON_SIGNED_READONLY_ACCOUNT_ACCESS_COST : Z := 7.
Definition NON_SIGNED_WRITABLE_ACCOUNT_ACCESS_COST : Z := 25.
Definition SIGNED_READONLY_ACCOUNT_ACCESS_COST : Z := SIGVER_COST + NON_SIGNED_READONLY_ACCOUNT_ACCESS_COST.
Definition SIGNED_WRITABLE_ACCOUNT_ACCESS_COST : Z := SIGVER_COST + NON_SIGNED_WRITABLE_ACCOUNT_ACCESS_COST.
Definition ACCOUNT_MAX_COST : Z := 100000000.
Definition BLOCK_MAX_COST : Z := 2500000000.

Inductive CostModelError : Type := InvalidTransaction | WouldExceedBlockMaxLimit | WouldExceedAccountMaxLimit.

Record TransactionCost : Type := mkCost {
  writable_accounts : list Pubkey;
  account_access_cost : Z;
  execution_cost : Z;
}.

Definition TransactionCost_reset : TransactionCost := mkCost [] 0 0.

Record CostModel : Type := mkCostModel {
  cm_account_cost_limit : Z;
  cm_block_cost_limit : Z;
  instruction_execution_cost_table : ExecuteCostTable;
  transaction_cost : TransactionCost;
}.

Definition CostModel_new (chain_max block_max : Z) : CostModel :=
  mkCostModel chain_max block_max Table_default TransactionCost_reset.
Definition CostModel_default : CostModel := CostModel_new ACCOUNT_MAX_COST BLOCK_MAX_COST.

Definition upsert_instruction_cost (now now' : Z) (program_key : Pubkey) (cost : Z) : ST CostModel Empty_set (option Z) :=
  cm ← get;
  t ← lift (upsert now now' program_key cost (instruction_execution_cost_table cm));
  put (mkCostModel (cm_account_cost_limit cm) (cm_block_cost_limit cm) t (transaction_cost cm));;
  mret (get_cost program_key t).

(** Every entry with the two times its [upsert] reads. *)
Fixpoint initialize_cost_table (cost_table : list (Z * Z * (Pubkey * Z))) : ST CostModel Empty_set unit :=
  match cost_table with
  | [] => mret tt
  | (now, now', (program_id, cost)) :: l => upsert_instruction_cost now now' program_id cost;; initialize_cost_table l
  end.

Definition find_instruction_cost (program_key : Pubkey) (cm : CostModel) : res Empty_set Z :=
  match get_cost program_key (instruction_execution_cost_table cm) with
  | Some cost => Ok cost
  | None => get_mode (instruction_execution_cost_table cm)
  end.

Definition find_transaction_cost (m : Message) (cm : CostModel) : res Empty_set Z :=
  foldM (λ cost ci,
    program_id ← unwrap (account_keys m !! program_id_index ci);
    instruction_cost ← find_instruction_cost program_id cm;
    Ok (add64 cost instruction_cost)) 0 (instructions m).

Definition access_account (m : Message) (tc : TransactionCost) (x : nat * Pubkey) : res Empty_set TransactionCost :=
  let is_signer := message_is_signer m x.1 in
  is_writable ← unwrap (message_is_writable m x.1);
  Ok (mkCost (if is_writable : bool then writable_accounts tc ++ [x.2] else writable_accounts tc)
        (add64 (account_access_cost tc)
           (if is_signer then
              if is_writable then SIGNED_WRITABLE_ACCOUNT_ACCESS_COST else SIGNED_READONLY_ACCOUNT_ACCESS_COST
            else
              if is_writable then NON_SIGNED_WRITABLE_ACCOUNT_ACCESS_COST else NON_SIGNED_READONLY_ACCOUNT_ACCESS_COST))
        (execution_cost tc)).

Definition calculate_cost (m : Message) : ST CostModel Empty_set TransactionCost :=
  cm ← get;
  execution_cost ← lift (find_transaction_cost m cm);
  tc ← lift (foldM (access_account m) (mkCost [] 0 execution_cost) (imap pair (account_keys m)));
  put (mkCostModel (cm_account_cost_limit cm) (cm_block_cost_limit cm) (instruction_execution_cost_table cm) tc);;
  mret tc.

(** ** The costs of a block *)

Record CostTracker : Type := mkTracker {
  tracker_model : CostModel;
  account_cost_limit : Z;
  block_cost_limit : Z;
  current_bank_slot : Slot;
  cost_by_writable_accounts : gmap Pubkey Z;
  block_cost : Z;
}.

Definition CostTracker_new (cm : CostModel) : res Empty_set CostTracker :=
  if cm_account_cost_limit cm <=? cm_block_cost_limit cm
  then Ok (mkTracker cm (cm_account_cost_limit cm) (cm_block_cost_limit cm) 0 ∅ 0) else Panic.

Definition with_model (cm : CostModel) (t : CostTracker) : CostTracker :=
  mkTracker cm (account_cost_limit t) (block_cost_limit t) (current_bank_slot t) (cost_by_writable_accounts t) (block_cost t).

Fixpoint keys_fit (keys : list Pubkey) (cost : Z) (t : CostTracker) : res CostModelError unit :=
  match keys with
  | [] => Ok tt
  | k :: l =>
      match cost_by_writable_accounts t !! k with
      | Some chained_cost =>
          if account_cost_limit t <? add64 chained_cost cost then Err WouldExceedAccountMaxLimit else keys_fit l cost t
      | None => keys_fit l cost t
      end
  end.

Definition would_fit (keys : list Pubkey) (cost : Z) (t : CostTracker) : res CostModelError unit :=
  if block_cost_limit t <? add64 (block_cost t) cost then Err WouldExceedBlockMaxLimit
  else if account_cost_limit t <? cost then Err WouldExceedAccountMaxLimit
  else keys_fit keys cost t.

Definition add_cost (cost : Z) (m : gmap Pubkey Z) (k : Pubkey) : gmap Pubkey Z := <[k := add64 (default 0 (m !! k)) cost]> m.

Definition add_transaction (keys : list Pubkey) (cost : Z) (t : CostTracker) : CostTracker :=
  mkTracker (tracker_model t) (account_cost_limit t) (block_cost_limit t) (current_bank_slot t)
    (foldl (add_cost cost) (cost_by_writable_accounts t) keys) (add64 (block_cost t) cost).

Definition total_cost (tc : TransactionCost) : Z := add64 (account_access_cost tc) (execution_cost tc).

Definition run_model {E A} (m : ST CostModel Empty_set A) : ST CostTracker E A := λ t,
  match m (tracker_model t) with
  | (cm, Ok a) => (with_model cm t, Ok a)
  | (cm, _) => (with_model cm t, Panic)
  end.

Definition would_transaction_fit (m : Message) : ST CostTracker CostModelError unit :=
  tc ← run_model (calculate_cost m);
  t ← get;
  lift (would_fit (writable_accounts tc) (total_cost tc) t).

Definition add_transaction_cost (m : Message) : ST CostTracker CostModelError unit :=
  tc ← run_model (calculate_cost m);
  modify (add_transaction (writable_accounts tc) (total_cost tc)).

Definition reset_if_new_bank (slot : Slot) (t : CostTracker) : CostTracker :=
  if slot =? current_bank_slot t then t
  else mkTracker (tracker_model t) (account_cost_limit t) (block_cost_limit t) slot ∅ 0.

Definition try_add (tc : TransactionCost) : ST CostTracker CostModelError Z :=
  let cost := total_cost tc in
  t ← get;
  lift (would_fit (writable_accounts tc) cost t);;
  modify (add_transaction (writable_accounts tc) cost);;
  gets block_cost.

Record CostStats : Type := mkStats {
  stats_bank_slot : Slot;
  stats_total_cost : Z;
  number_of_accounts : Z;
  costliest_account : Pubkey;
  costliest_account_cost : Z;
}.

(** The first of the largest entries, in the order [entries] of the map. *)
Definition get_stats (entries : list (Pubkey * Z)) (t : CostTracker) : CostStats :=
  let '(k, c) := foldl (λ best x : Pubkey * Z, if best.2 <? x.2 then x else best) (Pubkey_default, 0) entries in
  mkStats (current_bank_slot t) (block_cost t) (Z.of_nat (size (cost_by_writable_accounts t))) k c.

(** ** The table stays bounded *)

Context (Horder : ∀ m, order m ≡ₚ map_to_list m).
Implicit Types t : ExecuteCostTable.

(** Both maps have the same programs, at most [capacity] of them, and no entry
    is from after [last]. *)
Record table_ok (last : Z) t : Prop := {
  tok_capacity : capacity t = DEFAULT_CAPACITY;
  tok_dom : dom (table t) = dom (occurrences t);
  tok_count : get_count t <= capacity t;
  tok_times k n ts : occurrences t !! k = Some (n, ts) → ts <= last;
}.

Lemma weighted_ages_spec now l :
  Forall (λ x, x.2.2 <= now) l → ∃ ages, weighted_ages now l = Ok ages ∧ ages.*2 = l.*1.
Proof.
  induction 1 as [|[k [n ts]] l Hle _ (ages & IH & Hk)]; [by exists []|]. cbn in *.
  destruct (Z.ltb_spec now ts); [lia|]. rewrite IH. cbn. eexists. split; [done|]. cbn. by rewrite Hk.
Qed.

Lemma prune_loop_spec new_size l t :
  NoDup l.*2 → dom (table t) = dom (occurrences t) → (∀ k, k ∈ l.*2 ↔ k ∈ dom (table t)) → 0 <= new_size < get_count t →
  let t' := prune_loop new_size l t in
  capacity t' = capacity t ∧ dom (table t') = dom (occurrences t') ∧ get_count t' = new_size ∧
  table t' ⊆ table t ∧ occurrences t' ⊆ occurrences t.
Proof.
  revert t. induction l as [|[w k] l IH]; intros t Hnd Hdom Hin Hsz; cbn zeta.
  { exfalso. assert (dom (table t) = ∅) as He by (apply set_eq; intros x; rewrite <-Hin; set_solver).
    unfold get_count in Hsz. rewrite <-size_dom, He, size_empty in Hsz. lia. }
  cbn [prune_loop]. apply NoDup_cons in Hnd as [Hk Hnd]. cbn [snd] in Hk.
  set (t1 := mkTable _ _ _).
  assert (is_Some (table t !! k)) as Hs by (apply elem_of_dom, Hin; by left).
  assert (get_count t1 = get_count t - 1) as Hc.
  { unfold get_count. cbn. rewrite map_size_delete_Some by done.
    assert (size (table t) ≠ 0%nat); [|lia]. destruct Hs as [c Hs]. intros H0%map_size_empty_iff. rewrite H0, lookup_empty in Hs. done. }
  destruct (Z.eqb_spec new_size (get_count t1)) as [->|Hne].
  - split_and!; [done|cbn; rewrite !dom_delete_L; congruence|done|apply delete_subseteq|apply delete_subseteq].
  - destruct (IH t1) as (? & ? & ? & Hsub & Hsub'); [done|cbn; rewrite !dom_delete_L; congruence| |lia|].
    { intros k'. cbn. rewrite dom_delete_L, elem_of_difference, elem_of_singleton, <-Hin. cbn [fmap list_fmap snd]. rewrite elem_of_cons.
      split; [intros Hk'; split; [by right|intros ->; done]|]. intros [[->|?] ?]; done. }
    split_and!; [done|done|done|etrans; [exact Hsub|apply delete_subseteq]|etrans; [exact Hsub'|apply delete_subseteq]].
Qed.

Lemma prune_to_spec now n t :
  table_ok now t → 0 < n < get_count t →
  ∃ t', prune_to now n t = Ok t' ∧ table_ok now t' ∧ get_count t' = n ∧ table t' ⊆ table t.
Proof.
  intros [Hcap Hdom Hcount Htimes] Hn. unfold prune_to.
  destruct (Z.eqb_spec n (get_count t)); [lia|]. destruct (Z.eqb_spec n 0); [lia|].
  destruct (weighted_ages_spec now (order (occurrences t))) as (ages & -> & Hages).
  { rewrite Horder. apply Forall_forall. intros [k [c ts]] Hin%elem_of_map_to_list. cbn. by eapply Htimes. }
  cbn [mbind res_bind]. eexists. split; [done|]. set (le := λ x y : Z * Pubkey, x.1 <=? y.1).
  assert ((sort_by le ages).*2 ≡ₚ (map_to_list (occurrences t)).*1) as Hp.
  { rewrite sort_by_Permutation, Hages. by rewrite Horder. }
  destruct (prune_loop_spec n (sort_by le ages) t) as (Hc & Hd & Hg & Hs & Hs').
  - rewrite Hp. apply NoDup_fst_map_to_list.
  - done.
  - intros k. rewrite Hp, Hdom, elem_of_dom. split.
    + intros ([k' c] & -> & Hin%elem_of_map_to_list)%list_elem_of_fmap. cbn. eauto.
    + intros [c Hin%elem_of_map_to_list]. apply (list_elem_of_fmap_2 fst _ _ Hin).
  - lia.
  - split_and!; [|done|done]. split; [congruence|done|lia|]. intros k c ts Hk. eapply Htimes. by eapply lookup_weaken.
Qed.

Lemma upsert_spec last now now' key value t :
  table_ok last t → last <= now <= now' →
  ∃ t', upsert now now' key value t = Ok t' ∧ table_ok now' t' ∧
    get_cost key t' = Some (add64 (default value (get_cost key t)) value / 2) ∧
    ∀ k c, k ≠ key → get_cost k t' = Some c → get_cost k t = Some c.
Proof.
  intros [Hcap Hdom Hcount Htimes] Hnow. unfold upsert, get_cost.
  assert (table_ok now t) as Hok by (split; [done..|]; intros k n ts Hk; specialize (Htimes k n ts Hk); lia).
  set (sz := f64_to_u64 _).
  assert (∃ t1, (if (get_count t =? capacity t) && bool_decide (table t !! key = None) then prune_to now sz t else Ok t) = Ok t1 ∧
    table_ok now t1 ∧ (table t1 !! key = None → get_count t1 < capacity t1) ∧ table t1 !! key = table t !! key ∧ table t1 ⊆ table t)
    as (t1 & -> & [Hcap1 Hdom1 Hcount1 Htimes1] & Hroom & Hkey & Hsub).
  { destruct (Z.eqb_spec (get_count t) (capacity t)) as [Hfull|Hnf]; [destruct (bool_decide_reflect (table t !! key = None)) as [Hn|]|]; cbn [andb].
    - assert (sz = 768) as -> by (subst sz; rewrite Hfull, Hcap; vm_compute; done).
      destruct (prune_to_spec now 768 t Hok) as (t1 & -> & Hok1 & Hg & Hsub); [rewrite Hfull, Hcap; unfold DEFAULT_CAPACITY; lia|].
      exists t1. split_and!; [done|done| | |done].
      + intros _. rewrite Hg, (tok_capacity _ _ Hok1). done.
      + rewrite Hn. by eapply lookup_weaken_None.
    - exists t. split_and!; try done.
    - exists t. split_and!; try done. intros _. lia. }
  cbn [mbind res_bind]. eexists. split; [done|]. split; [split; cbn|split].
  - done.
  - rewrite !dom_insert_L. congruence.
  - unfold get_count in *. cbn. destruct (table t1 !! key) as [c|] eqn:Hc1.
    + rewrite map_size_insert_Some by eauto. done.
    + rewrite map_size_insert_None by done. specialize (Hroom eq_refl). lia.
  - intros k n ts. destruct (decide (k = key)) as [->|]; [rewrite lookup_insert_eq; intros [= <- <-]; lia|].
    rewrite lookup_insert_ne by done. intros Hk%Htimes1. lia.
  - cbn. rewrite lookup_insert_eq, Hkey. done.
  - intros k c Hne. cbn. rewrite lookup_insert_ne by done. intros Hk. by eapply lookup_weaken.
Qed.

Lemma max_entry_elem x l : max_entry x l ∈ x :: l.
Proof.
  revert x. induction l as [|y l IH]; intros x; cbn; [by left|]. specialize (IH (if count_le x.2 y.2 then y else x)).
  apply elem_of_cons in IH as [->|IH]; [case_match; set_solver|set_solver].
Qed.

Lemma get_mode_ok last t : table_ok last t → ∃ c, get_mode t = Ok c.
Proof.
  intros [_ Hdom _ _]. unfold get_mode. destruct (order (occurrences t)) as [|x l] eqn:Ho; [eauto|].
  pose proof (max_entry_elem x l) as Hin. rewrite <-Ho, Horder in Hin. destruct (max_entry x l) as [k n].
  apply elem_of_map_to_list in Hin. cbn. assert (is_Some (table t !! k)) as [c ->]; [|cbn; eauto].
  apply elem_of_dom. rewrite Hdom. by apply elem_of_dom.
Qed.

(** The updates of a table, each with the two times it reads; the clock never
    goes back. *)
Fixpoint clock_forward (last : Z) (l : list (Z * Z * (Pubkey * Z))) : Prop :=
  match l with
  | [] => True
  | (now, now', _) :: l' => last <= now <= now' ∧ clock_forward now' l'
  end.

(** As long as the clock does not go back, any sequence of cost updates
    succeeds; the table never holds more programs than its capacity, the most
    used program always has a cost, and the program updated last has as cost
    the mean of its old cost and the new one. *)
Theorem cost_table_bounded cm last l now now' key value :
  table_ok last (instruction_execution_cost_table cm) → clock_forward last (l ++ [(now, now', (key, value))]) →
  ∃ cm' cm'' c, initialize_cost_table l cm = (cm', Ok tt) ∧
    get_count (instruction_execution_cost_table cm') <= DEFAULT_CAPACITY ∧
    get_mode (instruction_execution_cost_table cm') = Ok c ∧
    upsert_instruction_cost now now' key value cm' =
      (cm'', Ok (Some (add64 (default value (get_cost key (instruction_execution_cost_table cm'))) value / 2))).
Proof.
  revert cm last. induction l as [|[[n n'] [k v]] l IH]; intros cm last Hok Hfwd.
  - destruct Hfwd as [Hnow _]. destruct (get_mode_ok _ _ Hok) as [c Hc].
    destruct (upsert_spec last now now' key value _ Hok Hnow) as (t' & Hu & _ & Hk & _).
    exists cm, (mkCostModel (cm_account_cost_limit cm) (cm_block_cost_limit cm) t' (transaction_cost cm)), c.
    split_and!; [done|rewrite <-(tok_capacity _ _ Hok); apply (tok_count _ _ Hok)|done|].
    unfold upsert_instruction_cost, mbind, st_bind, get, lift, put. rewrite Hu, <-Hk. done.
  - destruct Hfwd as [Hnow Hfwd]. destruct (upsert_spec last n n' k v _ Hok Hnow) as (t' & Hu & Hok' & _).
    destruct (IH (mkCostModel (cm_account_cost_limit cm) (cm_block_cost_limit cm) t' (transaction_cost cm)) n' Hok' Hfwd)
      as (cm' & cm'' & c & H & Hrest).
    exists cm', cm'', c. split; [|exact Hrest]. cbn [initialize_cost_table].
    unfold mbind at 1, st_bind at 1, upsert_instruction_cost, mbind, st_bind, get, lift, put. rewrite Hu. exact H.
Qed.
End table.

(** ** Blocks stay within their limits *)

Implicit Types (t : CostTracker) (tc : TransactionCost).

Definition cost_on (k : Pubkey) tc : Z := if decide (k ∈ writable_accounts tc) then total_cost tc else 0.

(** The tracker holds the costs of the transactions [acc]. *)
Record tracks (acc : list TransactionCost) t : Prop := {
  tr_block : block_cost t = sum_with total_cost acc;
  tr_accounts k : default 0 (cost_by_writable_accounts t !! k) = sum_with (cost_on k) acc;
  tr_block_limit : 0 <= block_cost t <= block_cost_limit t;
  tr_account_limit k : 0 <= sum_with (cost_on k) acc <= account_cost_limit t;
}.

(** The costs are far enough from the end of [u64]. *)
Definition limits_ok t : Prop := 0 <= account_cost_limit t <= block_cost_limit t ∧ block_cost_limit t < 2 ^ 63.
Definition cost_ok tc : Prop := NoDup (writable_accounts tc) ∧ 0 <= total_cost tc < 2 ^ 63.

Lemma foldl_add_cost cost keys (m : gmap Pubkey Z) k :
  NoDup keys → default 0 (foldl (add_cost cost) m keys !! k) =
    if decide (k ∈ keys) then add64 (default 0 (m !! k)) cost else default 0 (m !! k).
Proof.
  intros Hnd. revert m. induction Hnd as [|k' keys Hk Hnd IH]; intros m; cbn [foldl].
  { by rewrite decide_False by apply not_elem_of_nil. }
  rewrite IH. unfold add_cost. destruct (decide (k = k')) as [->|Hne].
  - rewrite decide_False by done. rewrite decide_True by (by left). by rewrite lookup_insert_eq.
  - rewrite lookup_insert_ne by done. apply decide_ext. rewrite elem_of_cons. tauto.
Qed.

Lemma add64_small a b : 0 <= a < 2 ^ 63 → 0 <= b < 2 ^ 63 → add64 a b = a + b.
Proof. intros. unfold add64, wrap64. rewrite Z.mod_small; lia. Qed.

Definition fits (acc : list TransactionCost) t tc : Prop :=
  sum_with total_cost acc + total_cost tc <= block_cost_limit t ∧ total_cost tc <= account_cost_limit t ∧
  ∀ k, k ∈ writable_accounts tc → sum_with (cost_on k) acc + total_cost tc <= account_cost_limit t.

Lemma keys_fit_spec acc t tc keys :
  limits_ok t → cost_ok tc → tracks acc t → total_cost tc <= account_cost_limit t →
  keys_fit keys (total_cost tc) t = Ok tt ∧ (∀ k, k ∈ keys → sum_with (cost_on k) acc + total_cost tc <= account_cost_limit t) ∨
  keys_fit keys (total_cost tc) t = Err WouldExceedAccountMaxLimit ∧
    ∃ k, k ∈ keys ∧ account_cost_limit t < sum_with (cost_on k) acc + total_cost tc.
Proof.
  intros [Hl Hb] [_ Hc] Ht Hle. induction keys as [|k keys IH]; cbn [keys_fit]; [left; split; [done|set_solver]|].
  pose proof (tr_accounts _ _ Ht k) as Hk. pose proof (tr_account_limit _ _ Ht k) as Hk'.
  destruct (cost_by_writable_accounts t !! k) as [c|]; cbn in Hk.
  - rewrite add64_small by lia. destruct (Z.ltb_spec (account_cost_limit t) (c + total_cost tc)).
    + right. split; [done|]. exists k. split; [by left|lia].
    + destruct IH as [[-> IH]|[-> (k' & ? & ?)]]; [left|right].
      * split; [done|]. intros k' [->|?]%elem_of_cons; [lia|auto].
      * split; [done|]. exists k'. split; [by right|done].
  - destruct IH as [[-> IH]|[-> (k' & ? & ?)]]; [left|right].
    + split; [done|]. intros k' [->|?]%elem_of_cons; [lia|auto].
    + split; [done|]. exists k'. split; [by right|done].
Qed.

Lemma would_fit_spec acc t tc :
  limits_ok t → cost_ok tc → tracks acc t →
  would_fit (writable_accounts tc) (total_cost tc) t = Ok tt ∧ fits acc t tc ∨
  (∃ e, would_fit (writable_accounts tc) (total_cost tc) t = Err e) ∧ ¬ fits acc t tc.
Proof.
  intros Hl Hc Ht. unfold would_fit, fits. pose proof (tr_block _ _ Ht) as Hb. pose proof (tr_block_limit _ _ Ht) as Hb'.
  rewrite add64_small, Hb by (destruct Hl, Hc; lia).
  destruct (Z.ltb_spec (block_cost_limit t) (sum_with total_cost acc + total_cost tc)); [right; split; [eauto|lia]|].
  destruct (Z.ltb_spec (account_cost_limit t) (total_cost tc)); [right; split; [eauto|lia]|].
  destruct (keys_fit_spec acc t tc (writable_accounts tc)) as [[-> ?]|[-> (k & Hk & ?)]]; [done..|lia|by left|].
  right. split; [eauto|]. intros (_ & _ & H'). specialize (H' k Hk). lia.
Qed.

Lemma add_transaction_tracks acc t tc :
  limits_ok t → cost_ok tc → tracks acc t → fits acc t tc →
  tracks (acc ++ [tc]) (add_transaction (writable_accounts tc) (total_cost tc) t).
Proof.
  intros [Hl Hb] [Hnd Hc] [Hbl Hacc Hlim Halim] (Hf1 & Hf2 & Hf3).
  assert (∀ k, sum_with (cost_on k) (acc ++ [tc]) = sum_with (cost_on k) acc + cost_on k tc) as Hsum.
  { intros k. rewrite sum_with_app. unfold sum_with at 2. cbn [foldr]. lia. }
  split; cbn [add_transaction block_cost cost_by_writable_accounts block_cost_limit account_cost_limit].
  - rewrite sum_with_app, add64_small by lia. unfold sum_with at 2. cbn [foldr]. lia.
  - intros k. rewrite foldl_add_cost, Hsum, Hacc by done. change (cost_on k tc) with (if decide (k ∈ writable_accounts tc) then total_cost tc else 0). specialize (Halim k).
    destruct (decide (k ∈ writable_accounts tc)); [rewrite add64_small by lia; done|lia].
  - rewrite add64_small by lia. lia.
  - intros k. rewrite Hsum. change (cost_on k tc) with (if decide (k ∈ writable_accounts tc) then total_cost tc else 0). specialize (Halim k).
    destruct (decide (k ∈ writable_accounts tc)) as [Hk|]; [specialize (Hf3 k Hk); lia|lia].
Qed.

(** Pack the transactions that fit, in order. *)
Fixpoint pack (txs : list TransactionCost) (acc : list TransactionCost) t : CostTracker * list TransactionCost :=
  match txs with
  | [] => (t, acc)
  | tc :: l =>
      match try_add tc t with
      | (t', Ok _) => pack l (acc ++ [tc]) t'
      | (t', _) => pack l acc t'
      end
  end.

Lemma try_add_spec acc t tc :
  limits_ok t → cost_ok tc → tracks acc t →
  (∃ t' n, try_add tc t = (t', Ok n) ∧ fits acc t tc ∧ tracks (acc ++ [tc]) t' ∧ limits_ok t' ∧
     account_cost_limit t' = account_cost_limit t ∧ block_cost_limit t' = block_cost_limit t) ∨
  (∃ e, try_add tc t = (t, Err e) ∧ ¬ fits acc t tc).
Proof.
  intros Hl Hc Ht. unfold try_add, mbind, st_bind, get, lift, modify, gets.
  destruct (would_fit_spec acc t tc Hl Hc Ht) as [[-> Hf]|[[e ->] Hf]]; [left|right; eauto].
  eexists _, _. split_and!; [done|done|by apply add_transaction_tracks|done|done|done].
Qed.

Lemma pack_tracks txs acc seen t :
  Forall cost_ok txs → acc `sublist_of` seen → tracks acc t → limits_ok t →
  let '(t', acc') := pack txs acc t in
  acc' `sublist_of` seen ++ txs ∧ tracks acc' t' ∧ limits_ok t' ∧
  account_cost_limit t' = account_cost_limit t ∧ block_cost_limit t' = block_cost_limit t.
Proof.
  intros Htxs. revert acc seen t. induction Htxs as [|x txs Hx Htxs IH]; intros acc seen t Hsub Ht Hl; cbn [pack]; [by rewrite app_nil_r|].
  destruct (try_add_spec acc t x Hl Hx Ht) as [(t' & n & -> & _ & Ht' & Hl' & <- & <-)|(e & -> & _)].
  - specialize (IH (acc ++ [x]) (seen ++ [x]) t'). rewrite <-app_assoc in IH. apply IH; [by apply sublist_app|done..].
  - specialize (IH acc (seen ++ [x]) t). rewrite <-app_assoc in IH. apply IH; [by apply sublist_inserts_r|done..].
Qed.

(** C26. Packing transactions into a block keeps the cost of the block and of
    every writable account within the limits, and both are exactly the sums
    over the packed transactions; the next transaction is then packed exactly
    when it fits all the limits, and a rejected one leaves no trace.  The
    writable accounts of a transaction are distinct, and its cost and the
    limits are below [2^63]. *)
Theorem block_costs_limited cm t0 slot txs tc :
  CostTracker_new cm = Ok t0 → 0 <= cm_account_cost_limit cm → cm_block_cost_limit cm < 2 ^ 63 →
  Forall cost_ok txs → cost_ok tc →
  let '(t, acc) := pack txs [] (reset_if_new_bank slot t0) in
  acc `sublist_of` txs ∧
  block_cost t = sum_with total_cost acc ∧ block_cost t <= cm_block_cost_limit cm ∧
  (∀ k, default 0 (cost_by_writable_accounts t !! k) = sum_with (cost_on k) acc ∧
        sum_with (cost_on k) acc <= cm_account_cost_limit cm) ∧
  ((∃ t' n, try_add tc t = (t', Ok n)) ↔ fits acc t tc) ∧
  ((∃ e, try_add tc t = (t, Err e)) ↔ ¬ fits acc t tc).
Proof.
  unfold CostTracker_new. destruct (Z.leb_spec (cm_account_cost_limit cm) (cm_block_cost_limit cm)) as [Hle|]; [|done].
  intros [= <-] H0 H63 Htxs Hc. set (t1 := reset_if_new_bank slot _).
  assert (account_cost_limit t1 = cm_account_cost_limit cm ∧ block_cost_limit t1 = cm_block_cost_limit cm) as [Ha Hb]
    by (subst t1; unfold reset_if_new_bank; by case_match).
  assert (tracks [] t1) as Ht.
  { assert (block_cost t1 = 0 ∧ cost_by_writable_accounts t1 = ∅) as [H1 H2] by (subst t1; unfold reset_if_new_bank; by case_match).
    split; rewrite ?H1, ?H2, ?Ha, ?Hb; unfold sum_with; cbn [foldr]; try done; lia. }
  assert (limits_ok t1) as Hl by (unfold limits_ok; rewrite Ha, Hb; lia). rewrite <-Ha, <-Hb. clear Ha Hb Hle.
  pose proof (pack_tracks txs [] [] t1 Htxs ltac:(done) Ht Hl) as Hpack. destruct (pack txs [] t1) as [t acc].
  destruct Hpack as (Hs & [Hb1 Hb2 Hb3 Hb4] & Hl' & Ha' & Hb'). rewrite <-Ha', <-Hb'.
  split_and!; [exact Hs|done|lia|intros k; split; [done|apply Hb4]| |];
    destruct (try_add_spec acc t tc Hl' Hc ltac:(done)) as [(t' & n & -> & Hf & _)|(e & -> & Hf)]; naive_solver.
Qed.

(** ** Concrete costs *)

Module example.
Definition costs : list (Z * Z * (Pubkey * Z)) := [(10, 11, (1, 100)); (12, 13, (2, 40)); (14, 14, (1, 300))].

Lemma default_table_ok : table_ok 0 Table_default.
Proof. split; cbn; [done..|]. intros k n ts. by rewrite lookup_empty. Qed.

Lemma cost_table_bounded_witness :
  ∃ cm' cm'' c, initialize_cost_table map_to_list costs CostModel_default = (cm', Ok tt) ∧
    get_mode map_to_list (instruction_execution_cost_table cm') = Ok c ∧
    upsert_instruction_cost map_to_list 20 20 2 80 cm' = (cm'', Ok (Some 60)).
Proof.
  destruct (cost_table_bounded map_to_list (λ m, reflexivity _) CostModel_default 0 costs 20 20 2 80 default_table_ok
    ltac:(cbn; lia)) as (cm' & cm'' & c & H & _ & Hm & Hu).
  exists cm', cm'', c. split; [exact H|]. split; [exact Hm|]. rewrite Hu.
  assert (cm' = (initialize_cost_table map_to_list costs CostModel_default).1) as -> by (by rewrite H). vm_compute. done.
Defined.

Definition txs : list TransactionCost := [mkCost [1; 2] 33 40; mkCost [2; 3] 33 40; mkCost [1] 26 10; mkCost [4] 26 60].

(** The second transaction does not fit account 2, the last one the block. *)
Lemma block_costs_limited_witness :
  ∃ t acc, pack txs [] (reset_if_new_bank 7 (mkTracker (CostModel_new 120 180) 120 180 0 ∅ 0)) = (t, acc) ∧
    acc = [mkCost [1; 2] 33 40; mkCost [1] 26 10] ∧ block_cost t <= 180.
Proof.
  pose proof (block_costs_limited (CostModel_new 120 180) (mkTracker (CostModel_new 120 180) 120 180 0 ∅ 0) 7 txs (mkCost [5] 1 1)
    eq_refl ltac:(done) ltac:(done)) as H.
  destruct (pack txs [] _) as [t acc] eqn:Hp. exists t, acc. split; [done|].
  destruct H as (_ & _ & Hle & _).
  - unfold txs, cost_ok. rewrite !Forall_cons. split_and!; try done; apply (bool_decide_unpack _); vm_compute; exact I.
  - split; [apply (bool_decide_unpack _); vm_compute; exact I|done].
  - split; [|exact Hle]. assert (acc = (pack txs [] (reset_if_new_bank 7 (mkTracker (CostModel_new 120 180) 120 180 0 ∅ 0))).2) as -> by (by rewrite Hp).
    vm_compute. done.
Defined.

(** When the system clock is set back between two updates, pruning the table
    panics on the time in the future. *)
Theorem clock_set_back_panics :
  prune_to map_to_list 1000000 1 (mkTable 2 {[ 1 := 10; 2 := 20 ]} {[ 1 := (1, 500000); 2 := (1, 2000000) ]}) = Panic.
Proof. vm_compute. done. Qed.
End example.
End cost_model.
