(* ===== verification/MerkleTree.v ===== *)
(** * Merkle trees

    Models [merkle-tree/src/merkle_tree.rs]: the nodes of all levels in one
    vector, the leaves first, and the proofs that an item is in the tree.  The
    levels refine a recursive pairing of hashes; every item has a proof, a
    proof exists for nothing else, and the root determines the items of a tree
    of known size, all up to collisions of the hash function. *)

From S2P Require Import Prelude Account MessageProps.
From Stdlib Require Import Strings.Byte.

Module merkle_tree.

(** A digest has 32 bytes. *)
Class Sha256Ok `{!Sha256} : Prop := sha256_is_key d : is_key (sha256 d).

Section model.
Context `{HS : !Sha256}.

Definition LEAF_PREFIX : list byte := [x00].
Definition INTERMEDIATE_PREFIX : list byte := [x01].

Definition hash_leaf (d : list byte) : Hash := hashv [LEAF_PREFIX; d].
Definition hash_intermediate (l r : Hash) : Hash := hashv [INTERMEDIATE_PREFIX; key_bytes l; key_bytes r].

Record MerkleTree : Type := mkMerkleTree {
  leaf_count : nat;
  nodes : list Hash;
}.

Record ProofEntry : Type := mkProofEntry {
  pe_target : Hash;
  pe_left : option Hash;
  pe_right : option Hash;
}.

Definition is_none {A} (o : option A) : bool := match o with None => true | Some _ => false end.

Definition ProofEntry_new (target : Hash) (left_sibling right_sibling : option Hash) : res Empty_set ProofEntry :=
  if xorb (is_none left_sibling) (is_none right_sibling) then Ok (mkProofEntry target left_sibling right_sibling)
  else Panic.

(** The [try_fold] of [Proof::verify]. *)
Fixpoint verify_fold (p : list ProofEntry) (candidate : Hash) : option Hash :=
  match p with
  | [] => Some candidate
  | pe :: p' =>
      let lsib := default candidate (pe_left pe) in
      let rsib := default candidate (pe_right pe) in
      let hash := hash_intermediate lsib rsib in
      if hash =? pe_target pe then verify_fold p' hash else None
  end.

Definition proof_verify (p : list ProofEntry) (candidate : Hash) : bool :=
  match verify_fold p candidate with Some _ => true | None => false end.

Definition next_level_len (level_len : nat) : nat :=
  if bool_decide (level_len = 1%nat) then 0 else (level_len + 1) / 2.

(** One level: [todo] nodes from index [i] on. *)
Fixpoint push_level (todo i prev_level_start prev_level_len : nat) (nodes : list Hash) : res Empty_set (list Hash) :=
  match todo with
  | O => Ok nodes
  | S todo =>
      let prev_level_idx := (2 * i)%nat in
      lsib ← unwrap (nodes !! (prev_level_start + prev_level_idx)%nat);
      rsib ← unwrap (nodes !! (if bool_decide (prev_level_idx + 1 < prev_level_len)%nat
                               then prev_level_start + prev_level_idx + 1 else prev_level_start + prev_level_idx)%nat);
      push_level todo (S i) prev_level_start prev_level_len (nodes ++ [hash_intermediate lsib rsib])
  end.

(** The [while] loop; a round halves [level_len]. *)
Fixpoint push_levels (fuel level_len level_start prev_level_len prev_level_start : nat) (nodes : list Hash)
    : res Empty_set (list Hash) :=
  match level_len, fuel with
  | O, _ => Ok nodes
  | _, O => Panic
  | _, S fuel =>
      nodes ← push_level level_len 0 prev_level_start prev_level_len nodes;
      push_levels fuel (next_level_len level_len) (level_start + level_len) level_len level_start nodes
  end.

Definition MerkleTree_new (items : list (list byte)) : res Empty_set MerkleTree :=
  let n := length items in
  nodes ← push_levels n (next_level_len n) n n 0 (hash_leaf <$> items);
  Ok (mkMerkleTree n nodes).

Definition get_root (t : MerkleTree) : option Hash := last (nodes t).

(** The siblings of the node [node_index] of a level. *)
Definition siblings (level : list Hash) (node_index : nat) : res Empty_set (option Hash * option Hash) :=
  if bool_decide (node_index mod 2 = 0)%nat then
    s ← unwrap (level !! (if bool_decide (node_index + 1 < length level)%nat then node_index + 1 else node_index)%nat);
    Ok (None, Some s)
  else
    s ← unwrap (level !! (node_index - 1)%nat);
    Ok (Some s, None).

Definition push_entry (target : Hash) (lsib rsib : option Hash) (path : list ProofEntry) : res Empty_set (list ProofEntry) :=
  if negb (is_none lsib) || negb (is_none rsib) then
    pe ← ProofEntry_new target lsib rsib;
    Ok (path ++ [pe])
  else Ok path.

Fixpoint find_levels (fuel level_len level_start node_index : nat) (lsib rsib : option Hash) (path : list ProofEntry)
    (t : MerkleTree) : res Empty_set (list ProofEntry) :=
  match level_len, fuel with
  | O, _ => Ok path
  | _, O => Panic
  | _, S fuel =>
      (if bool_decide (level_start + level_len ≤ length (nodes t))%nat then Ok tt else Panic);;
      let level := take level_len (drop level_start (nodes t)) in
      target ← unwrap (level !! node_index);
      path ← push_entry target lsib rsib path;
      '(lsib, rsib) ← siblings level node_index;
      find_levels fuel (next_level_len level_len) (level_start + level_len) (node_index / 2) lsib rsib path t
  end.

Definition find_path (t : MerkleTree) (index : nat) : res Empty_set (option (list ProofEntry)) :=
  if bool_decide (leaf_count t ≤ index)%nat then Ok None
  else Some <$> find_levels (S (leaf_count t)) (leaf_count t) 0 index None None [] t.

(** ** The levels of the tree *)

Fixpoint pair_up (l : list Hash) : list Hash :=
  match l with
  | a :: b :: l' => hash_intermediate a b :: pair_up l'
  | [a] => [hash_intermediate a a]
  | [] => []
  end.

(** The levels above [l]. *)
Fixpoint levels (fuel : nat) (l : list Hash) : list (list Hash) :=
  match fuel with
  | O => []
  | S fuel => if bool_decide (length l ≤ 1)%nat then [] else pair_up l :: levels fuel (pair_up l)
  end.

Definition tree_levels (items : list (list byte)) : list (list Hash) :=
  (hash_leaf <$> items) :: levels (length items) (hash_leaf <$> items).

(** The inputs of the hash function in the levels above [l] and in the tree. *)
Definition leaf_input (d : list byte) : list byte := concat [LEAF_PREFIX; d].
Definition node_input (l r : Hash) : list byte := concat [INTERMEDIATE_PREFIX; key_bytes l; key_bytes r].

Fixpoint pair_inputs (l : list Hash) : list (list byte) :=
  match l with
  | a :: b :: l' => node_input a b :: pair_inputs l'
  | [a] => [node_input a a]
  | [] => []
  end.

Fixpoint level_inputs (fuel : nat) (l : list Hash) : list (list byte) :=
  match fuel with
  | O => []
  | S fuel => if bool_decide (length l ≤ 1)%nat then [] else pair_inputs l ++ level_inputs fuel (pair_up l)
  end.

Definition tree_inputs (items : list (list byte)) : list (list byte) :=
  (leaf_input <$> items) ++ level_inputs (length items) (hash_leaf <$> items).

Lemma pair_ind {A} (P : list A → Prop) :
  P [] → (∀ a, P [a]) → (∀ a b l, P l → P (a :: b :: l)) → ∀ l, P l.
Proof. intros H0 H1 H2. fix IH 1. intros [|a [|b l]]; [done|apply H1|apply H2, IH]. Qed.

Lemma next_level_len_SS n : next_level_len (S (S n)) = S ((n + 1) / 2).
Proof.
  unfold next_level_len. rewrite bool_decide_eq_false_2 by lia. replace (S (S n) + 1)%nat with (n + 1 + 1 * 2)%nat by lia.
  rewrite Nat.div_add by lia. lia.
Qed.

Lemma pair_up_length l : length (pair_up l) = ((length l + 1) / 2)%nat.
Proof.
  induction l as [|a|a b l IH] using pair_ind; [done..|]. cbn [pair_up length]. rewrite IH.
  replace (S (S (length l)) + 1)%nat with (length l + 1 + 1 * 2)%nat by lia. rewrite Nat.div_add by lia. lia.
Qed.

Lemma next_level_len_pair_up l : length l ≠ 1%nat → next_level_len (length l) = length (pair_up l).
Proof. intros Hl. rewrite pair_up_length. unfold next_level_len. by rewrite bool_decide_eq_false_2. Qed.

Lemma pair_up_shrinks l : (2 ≤ length l)%nat → (1 ≤ length (pair_up l) < length l)%nat.
Proof.
  intros Hl. rewrite pair_up_length. split; [apply Nat.div_le_lower_bound; lia|apply Nat.Div0.div_lt_upper_bound; lia].
Qed.

Lemma pair_up_lookup l j a :
  l !! (2 * j)%nat = Some a → pair_up l !! j = Some (hash_intermediate a (default a (l !! (2 * j + 1)%nat))).
Proof.
  revert j. induction l as [|x|x y l IH] using pair_ind; intros j H; [done|by destruct j; [injection H as ->|]|].
  destruct j as [|j]; [by injection H as ->|]. replace (2 * S j)%nat with (S (S (2 * j))) in * by lia.
  cbn [lookup list_lookup Nat.add] in *. by apply IH.
Qed.

Lemma pair_up_elem l x : x ∈ pair_up l → ∃ a b, a ∈ l ∧ b ∈ l ∧ node_input a b ∈ pair_inputs l ∧ x = hash_intermediate a b.
Proof.
  induction l as [|a|a b l IH] using pair_ind; cbn; [by intros ?%elem_of_nil| |].
  - intros ->%list_elem_of_singleton. exists a, a. by repeat split; left.
  - intros [->|(c & d & ? & ? & ? & ->)%IH]%elem_of_cons; [exists a, b|exists c, d]; repeat split; set_solver.
Qed.

(** ** The vector holds the levels *)

Lemma push_level_spec pre l todo : ∀ i q,
  (i + todo ≤ length (pair_up l))%nat →
  push_level todo i (length pre) (length l) (pre ++ l ++ q) = Ok (pre ++ l ++ q ++ take todo (drop i (pair_up l))).
Proof.
  induction todo as [|todo IH]; intros i q Hi; cbn [push_level]; [by rewrite take_0, !app_nil_r|].
  assert (Hlt : (2 * i < length l)%nat).
  { rewrite pair_up_length in Hi. assert (i < (length l + 1) / 2)%nat as H by lia.
    pose proof (Nat.Div0.mul_div_le (length l + 1) 2). lia. }
  destruct (lookup_lt_is_Some_2 l (2 * i)%nat Hlt) as [a Ha].
  assert (Hat : ∀ j, (j < length l)%nat → (pre ++ l ++ q) !! (length pre + j)%nat = l !! j).
  { intros j Hj. rewrite lookup_app_r by lia. replace (length pre + j - length pre)%nat with j by lia. by rewrite lookup_app_l. }
  rewrite Hat, Ha by done. cbn [unwrap mbind res_bind].
  assert (Hr : (pre ++ l ++ q) !! (if bool_decide (2 * i + 1 < length l)%nat then length pre + 2 * i + 1 else length pre + 2 * i)%nat
               = Some (default a (l !! (2 * i + 1)%nat))).
  { case_bool_decide as Hc.
    - rewrite <-Nat.add_assoc, Hat by done. destruct (lookup_lt_is_Some_2 l _ Hc) as [b ->]. done.
    - rewrite Hat by done. rewrite (lookup_ge_None_2 l (2 * i + 1)) by lia. done. }
  rewrite Hr. cbn [unwrap mbind res_bind]. rewrite <-!app_assoc, IH by lia.
  rewrite (drop_S (pair_up l) _ i (pair_up_lookup l i a Ha)). cbn [take]. by rewrite <-app_assoc.
Qed.

Lemma push_levels_spec fuel : ∀ pre l,
  (length l ≤ S fuel)%nat →
  push_levels fuel (next_level_len (length l)) (length pre + length l) (length l) (length pre) (pre ++ l) =
  Ok (pre ++ l ++ concat (levels fuel l)).
Proof.
  induction fuel as [|fuel IH]; intros pre l Hl; cbn [push_levels levels].
  { destruct l as [|a [|b l]]; cbn in *; [..|lia]; by rewrite ?app_nil_r. }
  destruct l as [|a [|b l]]; [by rewrite ?app_nil_r..|]. set (L := a :: b :: l) in *.
  rewrite bool_decide_eq_false_2 by (unfold L; cbn; lia). rewrite next_level_len_pair_up by done.
  assert (Hlt : (1 ≤ length (pair_up L) < length L)%nat) by (apply pair_up_shrinks; cbn; lia).
  destruct (length (pair_up L)) as [|n] eqn:Hn; [lia|]. rewrite <-Hn in *.
  pose proof (push_level_spec pre L (length (pair_up L)) 0 [] ltac:(lia)) as Hpl.
  rewrite app_nil_r, drop_0, firstn_all in Hpl. rewrite Hpl. cbn [mbind res_bind].
  specialize (IH (pre ++ L) (pair_up L) ltac:(lia)). rewrite length_app, <-app_assoc in IH. cbn [app] in *. rewrite IH.
  cbn [concat]. by rewrite <-!app_assoc.
Qed.

Lemma MerkleTree_new_spec items : MerkleTree_new items = Ok (mkMerkleTree (length items) (concat (tree_levels items))).
Proof.
  unfold MerkleTree_new. pose proof (push_levels_spec (length items) [] (hash_leaf <$> items)) as H.
  rewrite length_fmap in H. cbn [app length Nat.add] in H. rewrite H by lia. done.
Qed.

(** ** Proofs *)

(** The hash a proof leads to from a candidate. *)
Definition proven (p : list ProofEntry) (candidate : Hash) : Hash := default candidate (pe_target <$> last p).

(** Entries made by [ProofEntry::new] of digests. *)
Definition wf_entry (e : ProofEntry) : Prop :=
  xorb (is_none (pe_left e)) (is_none (pe_right e)) = true ∧
  (∀ h, pe_left e = Some h → is_key h) ∧ (∀ h, pe_right e = Some h → is_key h).

Lemma verify_fold_app p q c : verify_fold (p ++ q) c = verify_fold p c ≫= verify_fold q.
Proof. revert c. induction p as [|e p IH]; intros c; [done|]. cbn. destruct (_ =? _); [apply IH|done]. Qed.

Lemma verify_fold_proven p c r : verify_fold p c = Some r → r = proven p c.
Proof.
  unfold proven. destruct p as [|e p _] using rev_ind; [by intros [= <-]|]. rewrite verify_fold_app, last_snoc.
  destruct (verify_fold p c) as [h|]; cbn; [|done]. destruct (Z.eqb_spec (hash_intermediate (default h (pe_left e)) (default h (pe_right e))) (pe_target e)); [|done].
  by intros [= <-].
Qed.

Lemma proof_verify_iff p c : proof_verify p c = true ↔ verify_fold p c = Some (proven p c).
Proof.
  unfold proof_verify. destruct (verify_fold p c) as [r|] eqn:H; [|by split]. apply verify_fold_proven in H as ->. done.
Qed.

(** *** Every item has a proof *)

Lemma siblings_spec l i t :
  l !! i = Some t → ∃ ls rs, siblings l i = Ok (ls, rs) ∧ xorb (is_none ls) (is_none rs) = true ∧
    (∀ h, ls = Some h ∨ rs = Some h → h ∈ l) ∧
    pair_up l !! (i / 2)%nat = Some (hash_intermediate (default t ls) (default t rs)).
Proof.
  intros Ht. pose proof (lookup_lt_Some _ _ _ Ht) as Hi. unfold siblings. pose proof (Nat.div_mod i 2 ltac:(lia)) as Hdm. case_bool_decide as Hm.
  - rewrite Hm, Nat.add_0_r in Hdm. rewrite Hdm in Ht.
    assert (Hs : l !! (if bool_decide (i + 1 < length l)%nat then i + 1 else i)%nat = Some (default t (l !! (2 * (i / 2) + 1)%nat))).
    { rewrite <-Hdm in *. case_bool_decide as Hc; [by destruct (lookup_lt_is_Some_2 l _ Hc) as [b ->]|]. rewrite Ht, (lookup_ge_None_2 l (i + 1)) by lia. done. }
    rewrite Hs. eexists None, (Some _). split; [done|split; [done|split; [|by rewrite (pair_up_lookup _ _ _ Ht)]]].
    intros h [|[= <-]]; [done|]. by eapply list_elem_of_lookup_2.
  - assert (Hm1 : (i mod 2 = 1)%nat) by (pose proof (Nat.mod_upper_bound i 2 ltac:(lia)); lia). rewrite Hm1 in Hdm.
    replace (i - 1)%nat with (2 * (i / 2))%nat by lia. destruct (lookup_lt_is_Some_2 l (2 * (i / 2))%nat ltac:(lia)) as [a Ha].
    rewrite Ha. eexists (Some a), None. split; [done|split; [done|split]].
    + intros h [[= <-]|]; [|done]. by eapply list_elem_of_lookup_2.
    + rewrite (pair_up_lookup _ _ _ Ha), <-Hdm, Ht. done.
Qed.

(** The siblings [ls] and [rs] lead from [c] to [t], or there are none yet. *)
Definition arrives (ls rs : option Hash) (c t : Hash) : Prop :=
  ls = None ∧ rs = None ∧ c = t ∨
  xorb (is_none ls) (is_none rs) = true ∧ hash_intermediate (default c ls) (default c rs) = t.

Definition sib_keys (ls rs : option Hash) : Prop := (∀ h, ls = Some h → is_key h) ∧ (∀ h, rs = Some h → is_key h).

Context `{HSok : !Sha256Ok}.

Lemma pair_up_keys l : Forall is_key (pair_up l).
Proof. apply Forall_forall. intros x (a & b & _ & _ & _ & ->)%pair_up_elem. exact (sha256_is_key _). Qed.

Lemma find_levels_spec fuel : ∀ pre l g i ls rs path n c t,
  (length l ≤ fuel)%nat → (length l ≤ S g)%nat → Forall is_key l → l !! i = Some t → arrives ls rs c t → sib_keys ls rs →
  ∃ q r, find_levels fuel (length l) (length pre) i ls rs path (mkMerkleTree n (pre ++ l ++ concat (levels g l))) = Ok (path ++ q) ∧
    Forall wf_entry q ∧ last (l ++ concat (levels g l)) = Some r ∧ verify_fold q c = Some r.
Proof.
  induction fuel as [|fuel IH]; intros pre l g i ls rs path n c t Hf Hg Hk Ht Harr Hsk; pose proof (lookup_lt_Some _ _ _ Ht) as Hi; [lia|].
  cbn [find_levels]. destruct (length l) as [|m] eqn:Hl; [lia|]. rewrite <-Hl in *. cbn [nodes].
  rewrite bool_decide_eq_true_2 by (rewrite !length_app; lia). cbn [mbind res_bind]. rewrite drop_app_length, take_app_length, Ht. cbn [unwrap mbind res_bind].
  assert (∃ q0, push_entry t ls rs path = Ok (path ++ q0) ∧ Forall wf_entry q0 ∧ verify_fold q0 c = Some t) as (q0 & -> & Hq0 & Hv0).
  { unfold push_entry. destruct Harr as [(-> & -> & ->)|[Hx Hh]]; [exists []; cbn; by rewrite app_nil_r|].
    exists [mkProofEntry t ls rs]. unfold ProofEntry_new. rewrite Hx. destruct Hsk.
    split; [by destruct ls, rs|split; [by apply Forall_singleton|]]. cbn. by rewrite Hh, Z.eqb_refl. }
  cbn [mbind res_bind]. destruct (siblings_spec l i t Ht) as (ls' & rs' & -> & Hx & Hin & Hp). cbn [mbind res_bind].
  destruct (decide (length l = 1%nat)) as [H1|H1].
  - rewrite H1. exists q0, t. unfold next_level_len. rewrite bool_decide_eq_true_2 by done. split; [by destruct fuel|split; [done|split; [|done]]].
    destruct l as [|x [|]]; [done| |done]. destruct i; [|done]. injection Ht as ->. by destruct g.
  - destruct g as [|g]; [lia|]. cbn [levels]. rewrite bool_decide_eq_false_2 by lia. rewrite next_level_len_pair_up by done.
    pose proof (pair_up_shrinks l ltac:(lia)).
    destruct (IH (pre ++ l) (pair_up l) g (i / 2)%nat ls' rs' (path ++ q0) n t (hash_intermediate (default t ls') (default t rs'))) as (q & r & Hrun & Hq & Hr & Hv);
      [lia|lia|apply pair_up_keys|exact Hp|by right| |].
    { rewrite Forall_forall in Hk. split; intros h Hh; apply Hk, Hin; auto. }
    exists (q0 ++ q), r. rewrite length_app, <-!app_assoc in Hrun. cbn [concat]. rewrite Hrun.
    split; [done|split; [by apply Forall_app|split]].
    + rewrite last_app, Hr. done.
    + by rewrite verify_fold_app, Hv0.
Qed.

Lemma find_path_spec items i x t :
  MerkleTree_new items = Ok t → items !! i = Some x →
  ∃ p r, find_path t i = Ok (Some p) ∧ Forall wf_entry p ∧ get_root t = Some r ∧ verify_fold p (hash_leaf x) = Some r.
Proof.
  rewrite MerkleTree_new_spec. intros [= <-] Hx. pose proof (lookup_lt_Some _ _ _ Hx). unfold find_path, get_root. cbn [leaf_count nodes].
  rewrite bool_decide_eq_false_2 by lia.
  destruct (find_levels_spec (S (length items)) [] (hash_leaf <$> items) (length items) i None None [] (length items) (hash_leaf x) (hash_leaf x))
    as (q & r & Hrun & Hq & Hr & Hv); rewrite ?length_fmap in *.
  - lia.
  - lia.
  - apply Forall_fmap, Forall_true. intros d. exact (sha256_is_key _).
  - by rewrite list_lookup_fmap, Hx.
  - by left.
  - done.
  - exists q, r. cbn [app length] in Hrun. unfold tree_levels. cbn [concat]. rewrite Hrun. done.
Qed.

(** *** Nothing else has one *)

(** Two different ones of the inputs [D] have one digest.  Among all inputs
    there are such two, but nobody can show them. *)
Definition collision (D : list (list byte)) : Prop := ∃ a b, a ∈ D ∧ b ∈ D ∧ a ≠ b ∧ sha256 a = sha256 b.

Lemma collision_mono D D' : D ⊆ D' → collision D → collision D'.
Proof. intros Hs (a & b & ? & ? & ? & ?). exists a, b. auto. Qed.

Lemma sha256_inj D a b : a ∈ D → b ∈ D → sha256 a = sha256 b → a = b ∨ collision D.
Proof. intros Ha Hb H. destruct (decide (a = b)) as [|Hn]; [by left|]. right. by exists a, b. Qed.

Lemma hash_leaf_inj D a b : leaf_input a ∈ D → leaf_input b ∈ D → hash_leaf a = hash_leaf b → a = b ∨ collision D.
Proof.
  intros Ha Hb [H|]%(sha256_inj D); [left|by right|done..]. cbn in H. rewrite !app_nil_r in H. by injection H.
Qed.

Lemma hash_intermediate_inj D a b c d :
  node_input a b ∈ D → node_input c d ∈ D → is_key a → is_key b → is_key c → is_key d →
  hash_intermediate a b = hash_intermediate c d → a = c ∧ b = d ∨ collision D.
Proof.
  intros H1 H2 Ha Hb Hc Hd [H|]%(sha256_inj D); [left|by right|done..]. cbn [concat INTERMEDIATE_PREFIX app] in H. rewrite !app_nil_r in H.
  apply (f_equal (@tail byte)) in H. cbn [tail] in H. apply app_inj_1 in H as [Hac Hbd]; [|by rewrite !length_key_bytes].
  split; [rewrite <-(key_of_key_bytes a), <-(key_of_key_bytes c) by done|rewrite <-(key_of_key_bytes b), <-(key_of_key_bytes d) by done]; by f_equal.
Qed.

Lemma leaf_not_intermediate D d a b :
  leaf_input d ∈ D → node_input a b ∈ D → hash_leaf d = hash_intermediate a b → collision D.
Proof. intros H1 H2 [H|]%(sha256_inj D); [|done..]. discriminate H. Qed.

Lemma levels_linked fuel : ∀ l k l', (l :: levels fuel l) !! S k = Some l' →
  ∃ l0, (l :: levels fuel l) !! k = Some l0 ∧ l' = pair_up l0 ∧ pair_inputs l0 ⊆ level_inputs fuel l.
Proof.
  induction fuel as [|fuel IH]; intros l k l' H; cbn [levels level_inputs] in *; [by destruct k|]. case_bool_decide; [by destruct k|].
  destruct k as [|k]; [injection H as <-; exists l; set_solver|]. cbn in H.
  destruct (IH (pair_up l) k l') as (l0 & Hl0 & -> & ?); [done|]. exists l0. set_solver.
Qed.

(** What a node of a level is the hash of. *)
Lemma node_cases items k l h :
  tree_levels items !! k = Some l → h ∈ l →
  (k = 0%nat ∧ ∃ x, x ∈ items ∧ leaf_input x ∈ tree_inputs items ∧ h = hash_leaf x) ∨
  ∃ k' l' a b, k = S k' ∧ tree_levels items !! k' = Some l' ∧ a ∈ l' ∧ b ∈ l' ∧ node_input a b ∈ tree_inputs items ∧ h = hash_intermediate a b.
Proof.
  intros Hl Hh. destruct k as [|k].
  - left. injection Hl as <-. apply list_elem_of_fmap in Hh as (x & -> & ?). split; [done|]. exists x. unfold tree_inputs. set_solver.
  - right. destruct (levels_linked _ _ _ _ Hl) as (l0 & H0 & -> & Hs). apply pair_up_elem in Hh as (a & b & ? & ? & ? & ->).
    exists k, l0, a, b. unfold tree_inputs. set_solver.
Qed.

Lemma level_keys items k l : tree_levels items !! k = Some l → Forall is_key l.
Proof.
  intros Hl. apply Forall_forall. intros h Hh.
  destruct (node_cases _ _ _ _ Hl Hh) as [(_ & x & _ & _ & ->)|(? & ? & a & b & _ & _ & _ & _ & _ & ->)]; exact (sha256_is_key _).
Qed.

Lemma verified_key p c r : is_key c → verify_fold p c = Some r → is_key r.
Proof.
  revert c. induction p as [|e p IH]; intros c Hc; cbn; [by intros [= <-]|]. destruct (_ =? _); [|done]. apply IH, sha256_is_key.
Qed.

(** The inputs of the hash function when a proof is verified. *)
Fixpoint proof_inputs (p : list ProofEntry) (c : Hash) : list (list byte) :=
  match p with
  | [] => []
  | e :: p' =>
      let l := default c (pe_left e) in
      let r := default c (pe_right e) in
      node_input l r :: proof_inputs p' (hash_intermediate l r)
  end.

Lemma proof_inputs_snoc p e : ∀ c h, verify_fold p c = Some h →
  proof_inputs (p ++ [e]) c = proof_inputs p c ++ [node_input (default h (pe_left e)) (default h (pe_right e))].
Proof.
  induction p as [|x p IH]; intros c h; cbn; [by intros [= ->]|]. destruct (_ =? _); [|done]. intros H. by rewrite (IH _ h).
Qed.

Lemma proof_sound D items x p : ∀ k l r,
  tree_inputs items ⊆ D → leaf_input x ∈ D → proof_inputs p (hash_leaf x) ⊆ D →
  Forall wf_entry p → verify_fold p (hash_leaf x) = Some r → tree_levels items !! k = Some l → r ∈ l → x ∈ items ∨ collision D.
Proof.
  intros k l r Ht Hx Hpi Hwf. revert k l r Hpi Hwf. induction p as [|e p IH] using rev_ind; intros k l r Hpi Hwf Hv Hl Hr.
  { injection Hv as <-. destruct (node_cases _ _ _ _ Hl Hr) as [(_ & y & Hy & Hi & He)|(? & ? & a & b & _ & _ & _ & _ & Hi & He)].
    - apply (hash_leaf_inj D) in He as [->|]; auto.
    - apply (leaf_not_intermediate D) in He; auto. }
  rewrite verify_fold_app in Hv. destruct (verify_fold p (hash_leaf x)) as [h|] eqn:Hp; [|done]. cbn in Hv.
  rewrite (proof_inputs_snoc _ _ _ _ Hp) in Hpi.
  destruct (Z.eqb_spec (hash_intermediate (default h (pe_left e)) (default h (pe_right e))) (pe_target e)); [|done]. injection Hv as <-.
  apply Forall_app in Hwf as [Hwf (Hxor & Hkl & Hkr)%Forall_singleton].
  assert (Hh : is_key h) by (eapply verified_key; [|exact Hp]; exact (sha256_is_key _)).
  destruct (node_cases _ _ _ _ Hl Hr) as [(_ & y & _ & Hi & He)|(k' & l' & a & b & _ & Hl' & Ha & Hb & Hi & He)].
  { symmetry in He. apply (leaf_not_intermediate D) in He; [by right|auto|]. apply Hpi. set_solver. }
  pose proof (level_keys _ _ _ Hl') as Hk. rewrite Forall_forall in Hk.
  apply (hash_intermediate_inj D) in He as [[Hea Heb]|];
    [|by right|apply Hpi; set_solver|auto|destruct (pe_left e); auto|destruct (pe_right e); auto|by apply Hk..].
  apply (IH k' l' h); [set_solver|done|done|done|]. destruct (pe_left e), (pe_right e); try done; cbn in *; by subst.
Qed.

(** C28. Membership proofs are complete and sound.  A tree can be made of any
    items.  For every item the tree gives a proof that verifies and leads to
    the root; and a proof that verifies for a candidate's leaf and leads to the
    root exists only for items of the tree, unless two of the inputs hashed in
    building the tree and in verifying the proof differ and have one digest. *)
Theorem merkle_proofs items :
  ∃ t, MerkleTree_new items = Ok t ∧
    (∀ i x, items !! i = Some x → ∃ p, find_path t i = Ok (Some p) ∧ Forall wf_entry p ∧
      proof_verify p (hash_leaf x) = true ∧ get_root t = Some (proven p (hash_leaf x))) ∧
    (∀ x p, Forall wf_entry p → proof_verify p (hash_leaf x) = true → get_root t = Some (proven p (hash_leaf x)) →
      x ∈ items ∨ collision (tree_inputs items ++ leaf_input x :: proof_inputs p (hash_leaf x))).
Proof.
  eexists. split; [apply MerkleTree_new_spec|split].
  - intros i x Hx. destruct (find_path_spec items i x _ (MerkleTree_new_spec items) Hx) as (p & r & Hp & Hwf & Hr & Hv).
    pose proof (verify_fold_proven _ _ _ Hv) as ->. exists p. by rewrite proof_verify_iff.
  - intros x p Hwf Hv%proof_verify_iff Hr. unfold get_root in Hr. cbn [nodes] in Hr.
    apply last_Some_elem_of in Hr. apply list_elem_of_In, in_concat in Hr as (l & Hl & Hin).
    apply list_elem_of_In in Hl, Hin. apply list_elem_of_lookup in Hl as [k Hk].
    by eapply (proof_sound _ items x p k l); [set_solver..|done|done|done|done].
Qed.

(** *** The root determines the items *)

Lemma pair_up_inj D l l' :
  pair_inputs l ⊆ D → pair_inputs l' ⊆ D →
  Forall is_key l → Forall is_key l' → length l = length l' → pair_up l = pair_up l' → l = l' ∨ collision D.
Proof.
  intros Hd Hd' Hk. revert l' Hd Hd' Hk. induction l as [|a|a b l IH] using pair_ind; intros [|c [|d l']] Hd Hd' Hk Hk' Hlen H; try done.
  - by left.
  - injection H as H. decompose_Forall_hyps. apply (hash_intermediate_inj D) in H as [[-> _]|]; auto; [apply Hd|apply Hd']; set_solver.
  - cbn [pair_up pair_inputs] in *. injection H as H Ht. decompose_Forall_hyps.
    apply (hash_intermediate_inj D) in H as [[-> ->]|]; [|by right|apply Hd; set_solver|apply Hd'; set_solver|done..].
    destruct (IH l') as [->|]; [set_solver..|done|done|by cbn in Hlen; lia|done|by left|by right].
Qed.

Lemma last_nonempty {A} (m r : list A) : (1 ≤ length m)%nat → ∃ x, last (m ++ r) = Some x.
Proof.
  intros Hm. destruct (last (m ++ r)) as [x|] eqn:Hx; [by exists x|]. apply last_None, app_nil in Hx as [-> _]. cbn in Hm. lia.
Qed.

Lemma levels_inj D fuel : ∀ l l',
  level_inputs fuel l ⊆ D → level_inputs fuel l' ⊆ D →
  Forall is_key l → Forall is_key l' → length l = length l' → (length l ≤ S fuel)%nat →
  last (concat (l :: levels fuel l)) = last (concat (l' :: levels fuel l')) → l = l' ∨ collision D.
Proof.
  assert (H1 : ∀ l l' : list Hash, length l = length l' → (length l ≤ 1)%nat → last l = last l' → l = l').
  { intros [|a [|]] [|b [|]] Hlen Hle H; cbn in *; try done; try lia. by injection H as ->. }
  induction fuel as [|fuel IH]; intros l l' Hd Hd' Hk Hk' Hlen Hle H; cbn [levels concat level_inputs] in *.
  { rewrite !app_nil_r in H. left. by apply H1. }
  rewrite <-Hlen in H, Hd'. case_bool_decide as Hc; cbn [concat] in H; [rewrite !app_nil_r in H; left; by apply H1|].
  pose proof (pair_up_shrinks l ltac:(lia)). pose proof (pair_up_shrinks l' ltac:(lia)).
  destruct (IH (pair_up l) (pair_up l')) as [Hp|];
    [set_solver..|apply pair_up_keys|apply pair_up_keys|by rewrite !pair_up_length, Hlen|lia| |apply pair_up_inj; [set_solver..|done|done|done|done]|by right].
  cbn [concat]. rewrite last_app, (last_app l') in H.
  destruct (last_nonempty (pair_up l) (concat (levels fuel (pair_up l)))) as [x Hx]; [lia|].
  destruct (last_nonempty (pair_up l') (concat (levels fuel (pair_up l')))) as [x' Hx']; [lia|]. rewrite Hx, Hx' in *. done.
Qed.

Lemma leaves_inj D (items items' : list (list byte)) :
  (leaf_input <$> items) ⊆ D → (leaf_input <$> items') ⊆ D → hash_leaf <$> items = hash_leaf <$> items' → items = items' ∨ collision D.
Proof.
  revert items'. induction items as [|x items IH]; intros [|y items'] Hd Hd' H; try done; [by left|]. cbn [fmap list_fmap] in *.
  injection H as [->|]%(hash_leaf_inj D) Ht; [|by right|apply Hd; by left|apply Hd'; by left].
  destruct (IH items') as [->|]; [set_solver..|done|by left|by right].
Qed.

Lemma root_binds items items' t t' :
  MerkleTree_new items = Ok t → MerkleTree_new items' = Ok t' → length items = length items' → get_root t = get_root t' →
  items = items' ∨ collision (tree_inputs items ++ tree_inputs items').
Proof.
  rewrite !MerkleTree_new_spec. intros [= <-] [= <-] Hlen. unfold get_root, tree_levels, tree_inputs. cbn [nodes]. rewrite <-Hlen. intros H.
  match goal with |- _ ∨ collision ?D => apply (levels_inj D) in H as [H|]; [|by right|set_solver|set_solver| | |by rewrite !length_fmap|rewrite length_fmap; lia] end.
  - apply leaves_inj; [set_solver..|done].
  - apply Forall_fmap, Forall_true; intros d; exact (sha256_is_key _).
  - apply Forall_fmap, Forall_true; intros d; exact (sha256_is_key _).
Qed.

(** Without the number of items it does not: an odd level repeats its last
    node, so that an odd number of items, at least three, has the root of the
    items with the last one repeated. *)
Lemma pair_up_repeat l a : Nat.Even (length l) → pair_up (l ++ [a]) = pair_up (l ++ [a; a]).
Proof.
  induction l as [|b|b c l IH] using pair_ind; intros He; [done| |].
  - by destruct He as [n Hn]; cbn in Hn; lia.
  - cbn [app pair_up]. rewrite IH; [done|]. destruct He as [n Hn]. exists (n - 1)%nat. cbn in Hn. lia.
Qed.

Lemma levels_step fuel l : (1 < length l)%nat → levels (S fuel) l = pair_up l :: levels fuel (pair_up l).
Proof. intros Hl. cbn [levels]. by rewrite bool_decide_eq_false_2 by lia. Qed.

Lemma levels_fuel fuel : ∀ g l, (length l ≤ S fuel)%nat → (length l ≤ S g)%nat → levels fuel l = levels g l.
Proof.
  induction fuel as [|fuel IH]; intros g l Hf Hg; [destruct g as [|g]; [done|]; cbn; by rewrite bool_decide_eq_true_2 by lia|].
  cbn [levels]. case_bool_decide as Hc; [destruct g as [|g]; [done|]; cbn; by rewrite bool_decide_eq_true_2|].
  destruct g as [|g]; [lia|]. cbn [levels]. rewrite bool_decide_eq_false_2 by done. pose proof (pair_up_shrinks l ltac:(lia)).
  f_equal. apply IH; lia.
Qed.

Theorem repeated_item_same_root items x t t' :
  Nat.Even (length items) → items ≠ [] → MerkleTree_new (items ++ [x]) = Ok t → MerkleTree_new (items ++ [x; x]) = Ok t' →
  get_root t = get_root t'.
Proof.
  rewrite !MerkleTree_new_spec. intros He Hne [= <-] [= <-]. unfold get_root, tree_levels. cbn [nodes concat].
  destruct items as [|y items]; [done|]. set (it := y :: items) in *. rewrite !fmap_app, !length_app. cbn [fmap list_fmap length].
  set (L := (hash_leaf <$> it) ++ [hash_leaf x]). set (L' := (hash_leaf <$> it) ++ [hash_leaf x; hash_leaf x]).
  assert (HL : length L = (length it + 1)%nat) by (unfold L; by rewrite length_app, length_fmap).
  assert (HL' : length L' = (length it + 2)%nat) by (unfold L'; by rewrite length_app, length_fmap).
  assert (Hp : pair_up L = pair_up L') by (apply pair_up_repeat; by rewrite length_fmap).
  assert (1 ≤ length it)%nat by (cbn; lia).
  rewrite <-HL, <-HL', (levels_fuel (length L') (S (length L))) by lia.
  destruct (length L) as [|n] eqn:Hn; [lia|]. rewrite !levels_step by lia. rewrite <-Hp.
  pose proof (pair_up_shrinks L ltac:(lia)). rewrite (levels_fuel (S n) n) by lia.
  cbn [concat]. rewrite last_app, (last_app L').
  destruct (last_nonempty (pair_up L) (concat (levels n (pair_up L)))) as [r ->]; [lia|done].
Qed.
End model.

Module example.
#[export] Instance sum_sha256 : Sha256 := λ d, foldl (λ h b, (h * 257 + byte_val b + 1) mod 2 ^ 256) 7 d.
#[export] Instance sum_sha256_ok : Sha256Ok.
Proof.
  intros d. unfold sha256, sum_sha256. induction d as [|b d _] using rev_ind; [done|]. rewrite foldl_app. cbn.
  apply Z.mod_pos_bound. done.
Qed.

Definition items : list (list byte) := [[x01; x02]; [x03]; [x04; x05; x06]].

Lemma merkle_proofs_witness :
  ∃ t, MerkleTree_new items = Ok t ∧ ∃ p, find_path t 2 = Ok (Some p) ∧ proof_verify p (hash_leaf [x04; x05; x06]) = true.
Proof.
  destruct (merkle_proofs items) as (t & Ht & Hc & _). exists t. split; [exact Ht|].
  destruct (Hc 2%nat [x04; x05; x06] eq_refl) as (p & Hp & _ & Hv & _). exists p. exact (conj Hp Hv).
Defined.
End example.
End merkle_tree.
