(* ===== verification/Fees.v ===== *)
(** * Fees, rent collection and recent blockhashes

    Models [sdk/program/src/fee_calculator.rs], [runtime/src/rent_collector.rs],
    [runtime/src/blockhash_queue.rs], [sdk/program/src/sysvar/recent_blockhashes.rs]
    and [sdk/src/recent_blockhashes_account.rs]. *)

From S2P Require Import Prelude F64 Account Features Sysvar Message.
From Stdlib Require Import Strings.Byte.

Module fees.
Import message.

(** ** Casts between [u64] and [i64], which wrap *)

Definition wrap_i64 (x : Z) : Z := (x + 2 ^ 63) mod 2 ^ 64 - 2 ^ 63.

(** ** fee_calculator.rs *)

Record FeeCalculator : Type := mkFeeCalculator { fc_lamports_per_signature : Z }.
Definition FeeCalculator_default : FeeCalculator := mkFeeCalculator 0.

(** The signatures an instruction of the secp256k1 program declares. *)
Definition secp256k1_signatures (m : Message) (ci : CompiledInstruction) : Z :=
  match account_keys m !! program_id_index ci with
  | Some id =>
      match ci_data ci with
      | b :: _ => if id =? secp256k1_program_id then byte_val b else 0
      | [] => 0
      end
  | None => 0
  end.

Definition calculate_fee (fc : FeeCalculator) (m : Message) : Z :=
  let num_secp256k1_signatures :=
    foldl (λ n ci, add64 n (secp256k1_signatures m ci)) 0 (instructions m) in
  mul64 (fc_lamports_per_signature fc)
        (add64 (num_required_signatures (header m)) num_secp256k1_signatures).

Record FeeRateGovernor : Type := mkGovernor {
  lamports_per_signature : Z;
  target_lamports_per_signature : Z;
  target_signatures_per_slot : Z;
  min_lamports_per_signature : Z;
  max_lamports_per_signature : Z;
  fee_burn_percent : Z;
}.

Definition DEFAULT_TARGET_LAMPORTS_PER_SIGNATURE : Z := 10000.
Definition DEFAULT_TARGET_SIGNATURES_PER_SLOT : Z := 50 * 400.
Definition DEFAULT_FEE_BURN_PERCENT : Z := 50.

Definition FeeRateGovernor_default : FeeRateGovernor :=
  mkGovernor 0 DEFAULT_TARGET_LAMPORTS_PER_SIGNATURE DEFAULT_TARGET_SIGNATURES_PER_SLOT 0 0
    DEFAULT_FEE_BURN_PERCENT.

(** What the cluster should charge at a number of signatures per slot. *)
Definition desired_lamports_per_signature (target target_signatures low high latest : Z) : Z :=
  Z.min high (Z.max low (mul64 target (Z.min latest u32_max) / target_signatures)).

Definition new_derived (base : FeeRateGovernor) (latest_signatures_per_slot : Z) : FeeRateGovernor :=
  let target := target_lamports_per_signature base in
  if 0 <? target_signatures_per_slot base then
    let low := Z.max 1 (target / 2) in
    let high := mul64 target 10 in
    let desired := desired_lamports_per_signature target (target_signatures_per_slot base) low high
                     latest_signatures_per_slot in
    let gap := wrap_i64 (wrap_i64 desired - wrap_i64 (lamports_per_signature base)) in
    let fee :=
      if gap =? 0 then desired
      else
        let gap_adjust := wrap_i64 (wrap_i64 (Z.max 1 (target / 20)) * Z.sgn gap) in
        Z.min high (Z.max low
          (wrap64 (wrap_i64 (wrap_i64 (lamports_per_signature base) + gap_adjust)))) in
    mkGovernor fee target (target_signatures_per_slot base) low high (fee_burn_percent base)
  else
    mkGovernor target target (target_signatures_per_slot base) target target (fee_burn_percent base).

Definition FeeRateGovernor_new (target_lamports target_signatures : Z) : FeeRateGovernor :=
  new_derived (mkGovernor target_lamports target_lamports target_signatures 0 0
                 DEFAULT_FEE_BURN_PERCENT) 0.

(** [FeeRateGovernor::burn]: what is left and what is burned. *)
Definition burn (g : FeeRateGovernor) (fees : Z) : Z * Z :=
  let burned := mul64 fees (fee_burn_percent g) / 100 in (sub64 fees burned, burned).

Definition create_fee_calculator (g : FeeRateGovernor) : FeeCalculator :=
  mkFeeCalculator (lamports_per_signature g).

(** ** blockhash_queue.rs

    The wall clock is an argument. *)

Record HashAge : Type := mkHashAge {
  age_fee_calculator : FeeCalculator;
  age_hash_height : Z;
  age_timestamp : Z;
}.

Record BlockhashQueue : Type := mkQueue {
  hash_height : Z;
  last_hash : option Hash;
  ages : gmap Z HashAge;
  max_age : nat;
}.

Definition BlockhashQueue_new (max_age : nat) : BlockhashQueue := mkQueue 0 None ∅ max_age.

Definition get_fee_calculator (q : BlockhashQueue) (h : Hash) : option FeeCalculator :=
  age_fee_calculator <$> ages q !! h.

Definition check_age (height : Z) (max_age : nat) (age : HashAge) : bool :=
  sub64 height (age_hash_height age) <=? Z.of_nat max_age.

Definition check_hash_age (q : BlockhashQueue) (h : Hash) (max_age : nat) : option bool :=
  check_age (hash_height q) max_age <$> ages q !! h.

Definition get_hash_age (q : BlockhashQueue) (h : Hash) : option Z :=
  (λ age, sub64 (hash_height q) (age_hash_height age)) <$> ages q !! h.

Definition genesis_hash (h : Hash) (fc : FeeCalculator) (now : Z) (q : BlockhashQueue)
    : BlockhashQueue :=
  mkQueue (hash_height q) (Some h) (<[h := mkHashAge fc 0 now]> (ages q)) (max_age q).

Definition register_hash (h : Hash) (fc : FeeCalculator) (now : Z) (q : BlockhashQueue)
    : BlockhashQueue :=
  let height := add64 (hash_height q) 1 in
  let kept := if bool_decide (max_age q <= size (ages q))%nat
              then filter (λ x, check_age height (max_age q) x.2 = true) (ages q)
              else ages q in
  mkQueue height (Some h) (<[h := mkHashAge fc height now]> kept) (max_age q).

(** ** recent_blockhashes.rs *)

Record Entry : Type := mkEntry {
  blockhash : Hash;
  fee_calculator : FeeCalculator;
}.

Definition RECENT_MAX_ENTRIES : nat := 150.
#[export] Instance RecentBlockhashes_id : SysvarId (list Entry) := sysvar_recent_blockhashes_id.

(** [get_recent_blockhashes]: the items, in the order of the hash map. *)
Definition get_recent_blockhashes (q : BlockhashQueue) : list (Z * Entry) :=
  (λ x, (age_hash_height x.2, mkEntry x.1 (age_fee_calculator x.2))) <$> map_to_list (ages q).

(** Popping a max-heap until it is empty: the items from high to low. *)
Definition into_iter_sorted (l : list (Z * Entry)) : list (Z * Entry) :=
  sort_by (λ x y, y.1 <=? x.1) l.

(** [recent_blockhashes_account::update_account]: the value stored. *)
Definition recent_blockhashes_value (l : list (Z * Entry)) : list Entry :=
  snd <$> take RECENT_MAX_ENTRIES (into_iter_sorted l).

(** ** rent_collector.rs *)

Record RentCollector : Type := mkRentCollector {
  rc_epoch : Epoch;
  rc_epoch_schedule : EpochSchedule;
  rc_slots_per_year : f64;
  rc_rent : Rent;
}.

(** [(from..=to).map(slots of the next epoch).sum()] *)
Definition slots_elapsed (rc : RentCollector) (from : Epoch) : Z :=
  foldl (λ n epoch, add64 n (get_slots_in_epoch (rc_epoch_schedule rc) (add64 epoch 1))) 0
    (seqZ from (rc_epoch rc - from + 1)).

Definition years_elapsed (rc : RentCollector) (slots : Z) : f64 :=
  match rc_slots_per_year rc with
  | S754_zero _ => S754_zero false
  | spy => f64_div (f64_of_Z slots) spy
  end.

(** The rent collected and the account afterwards. *)
Definition collect_from_existing_account (rc : RentCollector) (address : Pubkey) (a : Account)
    (rent_for_sysvars : bool) : Z * Account :=
  if executable a || (rc_epoch rc <? rent_epoch a) ||
     (negb rent_for_sysvars && (owner a =? sysvar_program_id)) || (address =? incinerator_id)
  then (0, a)
  else
    let '(due, exempt) :=
      rent_due (rc_rent rc) (lamports a) (length (data a))
        (years_elapsed rc (slots_elapsed rc (rent_epoch a))) in
    if exempt || negb (due =? 0) then
      if due <? lamports a then
        let a := set_rent_epoch (add64 (rc_epoch rc) (if exempt then 0 else 1)) a in
        (due, match checked_sub_lamports due a with Ok a' => a' | _ => a end)
      else (lamports a, Account_default)
    else (0, a).

Definition collect_from_created_account (rc : RentCollector) (address : Pubkey) (a : Account)
    (rent_for_sysvars : bool) : Z * Account :=
  collect_from_existing_account rc address (set_rent_epoch (rc_epoch rc) a) rent_for_sysvars.
End fees.
