(* ===== verification/FeesProps.v ===== *)
(** * Properties of fees, rent collection and recent blockhashes

    The fee rate stays within its bounds and approaches what the load asks
    for; rent collection neither creates nor destroys lamports and charges once
    per epoch; the blockhash queue behaves as the list of all the hashes ever
    registered, cut off at the maximal age. *)

From S2P Require Import Prelude F64 Account Features Sysvar Message MessageProps Fees.
From Stdlib Require Import Strings.Byte.

Module fees_props.
Import message fees.

(** ** The fee rate *)

Lemma wrap_i64_id x : - 2 ^ 63 <= x < 2 ^ 63 → wrap_i64 x = x.
Proof. intros Hx. unfold wrap_i64. rewrite Z.mod_small; lia. Qed.

(** A governor whose arithmetic stays in range. *)
Record governor_ok (g : FeeRateGovernor) : Prop := {
  gov_signatures : 0 < target_signatures_per_slot g;
  gov_target : 0 < target_lamports_per_signature g;
  gov_range : target_lamports_per_signature g * u32_max <= u64_max;
  gov_fee : 0 <= lamports_per_signature g <= 2 ^ 62;
}.

Definition fee_step (g : FeeRateGovernor) : Z := Z.max 1 (target_lamports_per_signature g / 20).

Definition desired_fee (g : FeeRateGovernor) (latest : Z) : Z :=
  desired_lamports_per_signature (target_lamports_per_signature g) (target_signatures_per_slot g)
    (Z.max 1 (target_lamports_per_signature g / 2)) (target_lamports_per_signature g * 10) latest.

Lemma desired_fee_range g latest :
  governor_ok g → Z.max 1 (target_lamports_per_signature g / 2) <= desired_fee g latest <=
                  target_lamports_per_signature g * 10.
Proof.
  intros [H1 H2 H3 H4]. unfold desired_fee, desired_lamports_per_signature.
  assert (target_lamports_per_signature g / 2 <= target_lamports_per_signature g) by
    (apply Z.div_le_upper_bound; lia). lia.
Qed.

Lemma fee_step_le g : governor_ok g →
  1 <= fee_step g <= Z.max 1 (target_lamports_per_signature g / 2).
Proof.
  intros [H1 H2 H3 H4]. unfold fee_step.
  assert (target_lamports_per_signature g / 20 <= target_lamports_per_signature g / 2); [|lia].
  apply Z.div_le_compat_l; lia.
Qed.

Lemma new_derived_fee g latest :
  governor_ok g →
  lamports_per_signature (new_derived g latest) =
    let d := desired_fee g latest in let fee := lamports_per_signature g in
    if fee =? d then d
    else Z.min (target_lamports_per_signature g * 10)
           (Z.max (Z.max 1 (target_lamports_per_signature g / 2)) (fee + fee_step g * Z.sgn (d - fee))).
Proof.
  intros Hg. pose proof (desired_fee_range g latest Hg) as Hd. pose proof (fee_step_le g Hg) as Hs.
  pose proof Hg as [H1 H2 H3 H4]. unfold u32_max, u64_max in H3.
  assert (Hhigh : mul64 (target_lamports_per_signature g) 10 = target_lamports_per_signature g * 10)
    by (apply wrap64_id; unfold is_u64, u64_max; lia).
  assert (Htop : Z.max 1 (target_lamports_per_signature g / 2) <= 2 ^ 40)
    by (assert (target_lamports_per_signature g / 2 <= 2 ^ 40); [apply Z.div_le_upper_bound|]; lia).
  unfold new_derived. rewrite (proj2 (Z.ltb_lt _ _) H1). cbn zeta. rewrite Hhigh.
  change (desired_lamports_per_signature _ _ _ _ _) with (desired_fee g latest). cbn [lamports_per_signature].
  set (d := desired_fee g latest) in *. set (fee := lamports_per_signature g) in *.
  change (Z.max 1 (target_lamports_per_signature g / 20)) with (fee_step g).
  rewrite !(wrap_i64_id d), !(wrap_i64_id fee), (wrap_i64_id (d - fee)), (wrap_i64_id (fee_step g)) by lia.
  destruct (Z.eqb_spec (d - fee) 0), (Z.eqb_spec fee d); [lia|lia|lia|].
  rewrite (wrap_i64_id (fee_step g * Z.sgn (d - fee))) by (destruct (Z.sgn_spec (d - fee)) as [[? ->]|[[? ->]|[? ->]]]; lia).
  rewrite (wrap_i64_id (fee + _)) by (destruct (Z.sgn_spec (d - fee)) as [[? ->]|[[? ->]|[? ->]]]; lia).
  rewrite wrap64_id; [done|]. unfold is_u64, u64_max.
  destruct (Z.sgn_spec (d - fee)) as [[? ->]|[[? ->]|[? ->]]]; lia.
Qed.

(** The part of a governor that no derivation changes. *)
Lemma new_derived_same g latest :
  target_lamports_per_signature (new_derived g latest) = target_lamports_per_signature g ∧
  target_signatures_per_slot (new_derived g latest) = target_signatures_per_slot g.
Proof. unfold new_derived. by destruct (0 <? _). Qed.

Lemma new_derived_step g latest :
  governor_ok g →
  let g' := new_derived g latest in let d := desired_fee g latest in
  governor_ok g' ∧
  Z.max 1 (target_lamports_per_signature g / 2) <= lamports_per_signature g' <= target_lamports_per_signature g * 10 ∧
  Z.abs (lamports_per_signature g' - d) <= Z.max (fee_step g) (Z.abs (lamports_per_signature g - d) - fee_step g).
Proof.
  intros Hg. pose proof (desired_fee_range g latest Hg) as Hd. pose proof (fee_step_le g Hg) as Hs.
  pose proof (new_derived_fee g latest Hg) as Hf. cbn zeta in *.
  pose proof (new_derived_same g latest) as [E1 E2]. pose proof Hg as [H1 H2 H3 H4].
  assert (HB : Z.max 1 (target_lamports_per_signature g / 2) <= lamports_per_signature (new_derived g latest) <=
               target_lamports_per_signature g * 10) by (rewrite Hf; destruct (_ =? _); lia).
  split_and!; [|lia..|].
  - split; rewrite ?E1, ?E2; [done..|]. unfold u32_max, u64_max in H3. lia.
  - rewrite Hf. destruct (Z.eqb_spec (lamports_per_signature g) (desired_fee g latest)); [lia|].
    destruct (Z.sgn_spec (desired_fee g latest - lamports_per_signature g)) as [[? ->]|[[? ->]|[? ->]]]; lia.
Qed.

Definition derive_times (n : nat) (latest : Z) (g : FeeRateGovernor) : FeeRateGovernor :=
  Nat.iter n (λ g, new_derived g latest) g.

Lemma derive_times_step n latest g :
  governor_ok g →
  let g' := derive_times n latest g in
  governor_ok g' ∧ desired_fee g' latest = desired_fee g latest ∧ fee_step g' = fee_step g ∧
  Z.abs (lamports_per_signature g' - desired_fee g latest) <=
    Z.max (fee_step g) (Z.abs (lamports_per_signature g - desired_fee g latest) - Z.of_nat n * fee_step g).
Proof.
  intros Hg. pose proof (fee_step_le g Hg) as Hs. induction n as [|n IH].
  { change (derive_times 0 latest g) with g. cbn zeta. split_and!; [done..|lia]. }
  cbn zeta in *.
  destruct IH as (Hok & Hd & Hst & Hb). destruct (new_derived_step _ latest Hok) as (Hok' & _ & Hb').
  destruct (new_derived_same (derive_times n latest g) latest) as [E1 E2].
  assert (Hd' : desired_fee (new_derived (derive_times n latest g) latest) latest = desired_fee g latest)
    by (rewrite <-Hd; unfold desired_fee; by rewrite E1, E2).
  assert (Hst' : fee_step (new_derived (derive_times n latest g) latest) = fee_step g)
    by (rewrite <-Hst; unfold fee_step; by rewrite E1).
  split_and!; [done..|]. rewrite Hd, Hst in Hb'. rewrite Nat2Z.inj_succ, Z.mul_succ_l.
  change (derive_times (S n) latest g) with (new_derived (derive_times n latest g) latest). lia.
Qed.

(** The fee rate follows the load.  Every derived rate lies between half
    (at least 1) and ten times the target; and under a constant load [n] slots
    bring the rate [n] steps of a twentieth of the target closer to what the
    load asks for, and then keep it within one step. *)
Theorem fee_rate_converges g latest n :
  governor_ok g →
  let g' := derive_times (S n) latest g in
  Z.max 1 (target_lamports_per_signature g / 2) <= lamports_per_signature g' <=
    target_lamports_per_signature g * 10 ∧
  Z.abs (lamports_per_signature g' - desired_fee g latest) <=
    Z.max (fee_step g) (Z.abs (lamports_per_signature g - desired_fee g latest) - Z.of_nat (S n) * fee_step g).
Proof.
  intros Hg. split; [|by apply derive_times_step].
  assert (Hok : governor_ok (derive_times n latest g)) by (by apply derive_times_step).
  assert (Ht : target_lamports_per_signature (derive_times n latest g) = target_lamports_per_signature g).
  { clear Hok. induction n as [|n IH]; [done|]. cbn. by rewrite (proj1 (new_derived_same _ _)). }
  destruct (new_derived_step _ latest Hok) as (_ & Hb & _). by rewrite Ht in Hb.
Qed.

Lemma fee_rate_converges_witness :
  lamports_per_signature (derive_times 40 40000 (FeeRateGovernor_new 10000 20000)) = 20000 ∧
  Z.abs (lamports_per_signature (derive_times 40 40000 (FeeRateGovernor_new 10000 20000)) -
         desired_fee (FeeRateGovernor_new 10000 20000) 40000) <= 500.
Proof.
  split; [vm_compute; reflexivity|].
  destruct (fee_rate_converges (FeeRateGovernor_new 10000 20000) 40000 39) as [_ H].
  { by split; vm_compute. }
  exact H.
Defined.

(** ** Rent collection *)

Lemma rent_due_range r b n y d e : rent_due r b n y = (d, e) → is_u64 d ∧ (e = true → d = 0).
Proof.
  unfold rent_due. destruct (is_exempt r b n); intros [= <- <-].
  - split; [|done]. unfold is_u64, u64_max. lia.
  - split; [apply f64_to_u64_range|done].
Qed.

Lemma checked_sub_lamports_less d a :
  d < lamports a → checked_sub_lamports d a = Ok (set_lamports (lamports a - d) a).
Proof.
  intros Hd. unfold checked_sub_lamports.
  by rewrite (proj2 (checked_sub64_Some _ _ _) (conj eq_refl (Z.lt_le_incl _ _ Hd))).
Qed.

(** What a collection can do: nothing; note an exempt account's epoch; charge
    the rent; or take what is left and close the account. *)
Lemma collect_cases rc addr a b r a' :
  0 <= lamports a → collect_from_existing_account rc addr a b = (r, a') →
  (r = 0 ∧ a' = a) ∨
  (r = lamports a ∧ a' = Account_default ∧
   (is_exempt (rc_rent rc) (lamports a) (length (data a)) = true → lamports a = 0)) ∨
  (r = 0 ∧ is_exempt (rc_rent rc) (lamports a) (length (data a)) = true ∧
   a' = set_rent_epoch (add64 (rc_epoch rc) 0) a) ∨
  (0 < r < lamports a ∧ is_exempt (rc_rent rc) (lamports a) (length (data a)) = false ∧
   a' = set_lamports (lamports a - r) (set_rent_epoch (add64 (rc_epoch rc) 1) a)).
Proof.
  intros Hl. unfold collect_from_existing_account. destruct (_ || _); [intros [= <- <-]; auto|].
  destruct (rent_due _ _ _ _) as [d e] eqn:E. pose proof (rent_due_range _ _ _ _ _ _ E) as [[Hd _] He].
  assert (Hex : is_exempt (rc_rent rc) (lamports a) (length (data a)) = e)
    by (revert E; unfold rent_due; by destruct (is_exempt _ _ _); intros [= _ <-]).
  destruct (e || negb (d =? 0)) eqn:Ec; [|intros [= <- <-]; auto].
  destruct (Z.ltb_spec d (lamports a)) as [Hlt|Hge].
  2: { intros [= <- <-]. right. left. split_and!; [done..|]. rewrite Hex. intros ->%He. lia. }
  rewrite checked_sub_lamports_less by done. intros [= <- <-]. destruct e.
  - specialize (He eq_refl). subst d. right. right. left. cbn. rewrite Z.sub_0_r.
    split_and!; [done..|]. by destruct a.
  - right. right. right. cbn in Ec. apply negb_true_iff, Z.eqb_neq in Ec. split_and!; [lia|lia|done..].
Qed.

Lemma collect_again rc addr a b :
  is_u64 (rc_epoch rc + 1) → 0 <= lamports a → 0 <= rc_epoch rc →
  let '(r, a') := collect_from_existing_account rc addr a b in
  fst (collect_from_existing_account rc addr a' b) = 0.
Proof.
  intros He Hl Hep. destruct (collect_from_existing_account rc addr a b) as [r a'] eqn:E.
  destruct (collect_cases _ _ _ _ _ _ Hl E) as [[-> ->]|[(-> & -> & _)|[(-> & Hex & ->)|(Hr & _ & ->)]]].
  - by rewrite E.
  - destruct (collect_from_existing_account rc addr Account_default b) as [r' a''] eqn:E'.
    destruct (collect_cases _ _ Account_default _ _ _ ltac:(done) E')
      as [[-> _]|[[-> _]|[[-> _]|[Hr _]]]]; [done..|]. cbn in Hr. lia.
  - destruct (collect_from_existing_account rc addr (set_rent_epoch _ a) b) as [r' a''] eqn:E'.
    destruct (collect_cases _ _ (set_rent_epoch _ a) _ _ _ Hl E')
      as [[-> _]|[(-> & _ & Hz)|[[-> _]|(Hr & Hx & _)]]]; [done|by apply Hz|done|].
    cbn in Hx. congruence.
  - unfold collect_from_existing_account. cbn [executable rent_epoch set_lamports set_rent_epoch].
    rewrite (add64_id (rc_epoch rc) 1) by (unfold is_u64 in He; lia).
    replace (rc_epoch rc <? rc_epoch rc + 1) with true by (symmetry; apply Z.ltb_lt; lia).
    by rewrite orb_true_r.
Qed.

(** Collecting rent moves lamports and nothing else: what is collected and
    what is left add up to the balance; an account that is rent-exempt pays
    nothing; an account that is left anything keeps its data, its owner and
    its executable flag; and a second collection in the epoch collects
    nothing. *)
Theorem rent_collected_once rc addr a b :
  is_u64 (lamports a) → is_u64 (rc_epoch rc) → is_u64 (rc_epoch rc + 1) →
  let '(r, a') := collect_from_existing_account rc addr a b in
  0 <= r ∧ r + lamports a' = lamports a ∧
  (is_exempt (rc_rent rc) (lamports a) (length (data a)) = true → r = 0) ∧
  (lamports a' ≠ 0 → data a' = data a ∧ owner a' = owner a ∧ executable a' = executable a) ∧
  fst (collect_from_existing_account rc addr a' b) = 0.
Proof.
  intros [Hl _] [He _] He1. pose proof (collect_again rc addr a b He1 Hl He) as Ha.
  destruct (collect_from_existing_account rc addr a b) as [r a'] eqn:E.
  destruct (collect_cases _ _ _ _ _ _ Hl E) as [[-> ->]|[(-> & -> & Hz)|[(-> & Hex & ->)|(Hr & Hx & ->)]]].
  - by split_and!; [lia..| | |].
  - by split_and!; [lia|cbn; lia| | |].
  - by split_and!; [lia|cbn; lia| | |].
  - by split_and!; [lia|cbn; lia|congruence| |].
Qed.

Definition rent_collector : RentCollector :=
  mkRentCollector 30 (mkEpochSchedule 432000 432000 false 0 0) (f64_of_Z 78892314) Rent_default.

(** An account of two bytes, unpaid since epoch 28. *)
Lemma rent_collected_once_witness :
  let a := mkAccount 500000 [x00; x01] 7 false 28 in
  ∃ a', collect_from_existing_account rent_collector 5 a true = (7431, a') ∧
    7431 + lamports a' = 500000 ∧
    fst (collect_from_existing_account rent_collector 5 a' true) = 0.
Proof.
  pose proof (rent_collected_once rent_collector 5 (mkAccount 500000 [x00; x01] 7 false 28) true) as H.
  exists (mkAccount 492569 [x00; x01] 7 false 31). split; [vm_compute; reflexivity|]. revert H.
  replace (collect_from_existing_account _ _ (mkAccount 500000 _ _ _ _) _)
    with (7431, mkAccount 492569 [x00; x01] 7 false 31) by (vm_compute; reflexivity).
  intros H. destruct H as (_ & H1 & _ & _ & H2); [by vm_compute..|]. split; [exact H1|exact H2].
Defined.

(** ** The blockhash queue

    [hist] lists the hashes registered with their fees, the newest first and
    the genesis hash last. *)

Abbreviation History := (list (Z * FeeCalculator)) (only parsing).

Definition find_hash (hist : list (Z * FeeCalculator)) (h : Hash) : option (nat * FeeCalculator) :=
  (λ x, (x.1, x.2.2)) <$> list_find (λ x, x.1 = h) hist.

Arguments find_hash : simpl never.

Record queue_of (hist : list (Z * FeeCalculator)) (q : BlockhashQueue) : Prop := {
  qo_height : hash_height q = Z.of_nat (length hist) - 1;
  qo_last : last_hash q = fst <$> head hist;
  qo_sound h age : ages q !! h = Some age →
    ∃ i, find_hash hist h = Some (i, age_fee_calculator age) ∧
         age_hash_height age = hash_height q - Z.of_nat i;
  qo_complete h i fc : find_hash hist h = Some (i, fc) → (i <= max_age q)%nat → is_Some (ages q !! h);
  qo_size : (size (ages q) <= S (max_age q))%nat;
}.

Lemma find_hash_cons h0 fc0 hist h :
  find_hash ((h0, fc0) :: hist) h =
  if decide (h0 = h) then Some (0%nat, fc0) else prod_map S id <$> find_hash hist h.
Proof.
  unfold find_hash. cbn. destruct (decide (h0 = h)); [done|]. by destruct (list_find _ hist) as [[i []]|].
Qed.

Lemma find_hash_Some hist h i fc : find_hash hist h = Some (i, fc) → hist !! i = Some (h, fc).
Proof.
  unfold find_hash. intros ([j [h' fc']] & Hf & [= -> ->])%fmap_Some.
  apply list_find_Some in Hf as (Hl & Hh & _). cbn in Hh. by subst.
Qed.

Lemma sub64_age hist q h age i :
  queue_of hist q → Z.of_nat (length hist) <= u64_max → find_hash hist h = Some (i, age_fee_calculator age) →
  age_hash_height age = hash_height q - Z.of_nat i → sub64 (hash_height q) (age_hash_height age) = Z.of_nat i.
Proof.
  intros Hq Hn Hf ->. apply find_hash_Some, lookup_lt_Some in Hf. destruct Hq as [Hh _ _ _ _].
  rewrite sub64_id; lia.
Qed.

Lemma genesis_queue n h fc now : queue_of [(h, fc)] (genesis_hash h fc now (BlockhashQueue_new n)).
Proof.
  split; cbn; [done..| | |].
  - intros h' age [[-> <-]|[_ []%lookup_empty_Some]]%lookup_insert_Some. exists 0%nat.
    unfold find_hash. cbn. by rewrite decide_True.
  - intros h' i fc'. rewrite find_hash_cons. destruct (decide (h = h')) as [->|]; [|done].
    intros _ _. rewrite lookup_insert_eq. by eexists.
  - rewrite map_size_insert_None by done. rewrite map_size_empty. lia.
Qed.

(** Entries that pass the age test are among the newest hashes. *)
Lemma retained_size hist q height :
  queue_of hist q → height = hash_height q + 1 → Z.of_nat (length hist) < u64_max →
  (size (filter (λ x, check_age height (max_age q) x.2 = true) (ages q)) <= max_age q)%nat.
Proof.
  intros Hq -> Hn. pose proof Hq as [Hh _ Hs _ _].
  set (m := filter _ _). rewrite <-size_dom. unfold size, set_size.
  transitivity (length (take (max_age q) hist).*1); [|rewrite length_fmap, length_take; lia].
  apply submseteq_length, NoDup_submseteq; [apply NoDup_elements|].
  intros h [age Ha]%elem_of_elements%elem_of_dom. subst m.
  apply map_lookup_filter_Some in Ha as [Ha Hc]. destruct (Hs h age Ha) as (i & Hf & Hi). cbn in Hc.
  pose proof (find_hash_Some _ _ _ _ Hf) as Hl. pose proof (lookup_lt_Some _ _ _ Hl) as Hlt.
  unfold check_age in Hc. rewrite Hi, sub64_id in Hc by lia. apply Z.leb_le in Hc.
  apply list_elem_of_fmap. eexists (h, _). split; [done|]. apply (list_elem_of_lookup_2 _ i).
  rewrite lookup_take_lt by lia. exact Hl.
Qed.

Lemma register_queue hist q h fc now :
  queue_of hist q → Z.of_nat (length hist) < u64_max → hist ≠ [] →
  queue_of ((h, fc) :: hist) (register_hash h fc now q).
Proof.
  intros Hq Hn Hne. pose proof (retained_size hist q _ Hq eq_refl Hn) as Hret.
  pose proof Hq as [Hh Hlast Hsound Hcomp Hsize].
  assert (Hadd : add64 (hash_height q) 1 = hash_height q + 1)
    by (apply add64_id; destruct hist; cbn in *; [done|lia]).
  set (kept := if bool_decide (max_age q <= size (ages q))%nat then
                 filter (λ x, check_age (hash_height q + 1) (max_age q) x.2 = true) (ages q) else ages q).
  assert (Hkept : kept ⊆ ages q) by (subst kept; case_bool_decide; [apply map_filter_subseteq|done]).
  unfold register_hash. rewrite Hadd. fold kept. split; cbn [hash_height last_hash ages max_age]; cbn [length head fmap option_fmap option_map fst].
  - lia.
  - done.
  - intros h' age. rewrite find_hash_cons. intros [[-> <-]|[Hne' Hk]]%lookup_insert_Some.
    + rewrite decide_True by done. exists 0%nat. cbn. split; [done|lia].
    + rewrite decide_False by done. destruct (Hsound h' age) as (i & -> & Hi); [by eapply lookup_weaken|].
      exists (S i). cbn. split; [done|lia].
  - intros h' i fc'. rewrite find_hash_cons. destruct (decide (h = h')) as [->|Hne'].
    { intros _ _. rewrite lookup_insert_eq. by eexists. }
    intros ([i' fc''] & Hf & [= -> ->])%fmap_Some Hi. rewrite lookup_insert_ne by done.
    destruct (Hcomp h' i' fc'' Hf) as [age Ha]; [cbn in *; lia|]. subst kept. case_bool_decide; [|by eexists].
    exists age. apply map_lookup_filter_Some. split; [done|]. cbn.
    destruct (Hsound h' age Ha) as (i2 & Hf2 & Hi2). rewrite Hf in Hf2. simplify_eq.
    pose proof (lookup_lt_Some _ _ _ (find_hash_Some _ _ _ _ Hf)).
    unfold check_age. rewrite Hi2, sub64_id by lia. cbn in Hi. apply Z.leb_le. lia.
  - assert (size kept <= max_age q)%nat by (subst kept; case_bool_decide; [done|lia]).
    rewrite map_size_insert. destruct (kept !! h); cbn; lia.
Qed.

(** *** The recent blockhashes sysvar *)

Lemma find_hash_NoDup hist h i fc :
  NoDup hist.*1 → find_hash hist h = Some (i, fc) ↔ hist !! i = Some (h, fc).
Proof.
  intros Hnd. split; [apply find_hash_Some|]. intros Hi. unfold find_hash. apply fmap_Some.
  exists (i, (h, fc)). split; [|done]. apply list_find_Some. split_and!; [done..|].
  intros j [h' fc'] Hj Hlt. cbn. intros ->. assert (j = i); [|lia].
  eapply NoDup_lookup; [exact Hnd|..]; rewrite list_lookup_fmap; [by rewrite Hj|by rewrite Hi].
Qed.

(** The newest entries, with their heights. *)
Definition newest (hist : list (Z * FeeCalculator)) (height : Z) : list (Z * Entry) :=
  imap (λ i x, (height - Z.of_nat i, mkEntry x.1 x.2)) (take RECENT_MAX_ENTRIES hist).

Lemma newest_elem hist height x :
  x ∈ newest hist height ↔
  ∃ i h fc, (i < RECENT_MAX_ENTRIES)%nat ∧ hist !! i = Some (h, fc) ∧ x = (height - Z.of_nat i, mkEntry h fc).
Proof.
  unfold newest. rewrite list_elem_of_lookup. split.
  - intros (i & ([h fc] & [Hy Hlt]%lookup_take_Some & ->)%list_lookup_imap_Some). by exists i, h, fc.
  - intros (i & h & fc & Hlt & Hi & ->). exists i. rewrite list_lookup_imap, lookup_take_lt by done. by rewrite Hi.
Qed.

Lemma newest_sorted hist height : StronglySorted (λ x y, y.1 < x.1) (newest hist height).
Proof.
  unfold newest. generalize (take RECENT_MAX_ENTRIES hist). clear hist. intros l. revert height.
  induction l as [|[h fc] l IH]; intros height; cbn; [constructor|]. constructor.
  - rewrite (imap_ext _ (λ i x, (height - 1 - Z.of_nat i, mkEntry x.1 x.2))); [apply IH|].
    intros i x _. cbn. f_equal. lia.
  - apply Forall_lookup. intros i y (z & _ & ->)%list_lookup_imap_Some. cbn. lia.
Qed.

Lemma recent_elem hist q x :
  queue_of hist q → x ∈ get_recent_blockhashes q →
  ∃ i h fc, find_hash hist h = Some (i, fc) ∧ x = (hash_height q - Z.of_nat i, mkEntry h fc).
Proof.
  intros Hq ([h age] & -> & Hx)%list_elem_of_fmap. apply elem_of_map_to_list in Hx.
  destruct (qo_sound _ _ Hq h age Hx) as (i & Hf & Hi). exists i, h, (age_fee_calculator age). cbn. by rewrite Hi.
Qed.

Lemma recent_NoDup q : NoDup (get_recent_blockhashes q).
Proof.
  unfold get_recent_blockhashes. pose proof (NoDup_fst_map_to_list (ages q)) as Hnd. revert Hnd.
  generalize (map_to_list (ages q)) as l. induction l as [|[h age] l IH]; cbn; [constructor|].
  intros [Hh Hl]%NoDup_cons. constructor; [|by apply IH].
  intros ([h' age'] & [= _ -> _] & Hx)%list_elem_of_fmap. apply Hh, list_elem_of_fmap. by exists (h', age').
Qed.

Lemma recent_split hist q :
  queue_of hist q → NoDup hist.*1 → (RECENT_MAX_ENTRIES <= S (max_age q))%nat →
  let old := filter (λ x, x.1 <= hash_height q - Z.of_nat RECENT_MAX_ENTRIES) (get_recent_blockhashes q) in
  get_recent_blockhashes q ≡ₚ newest hist (hash_height q) ++ old.
Proof.
  intros Hq Hnd Hmax old. subst old. set (P := λ x : Z * Entry, x.1 <= hash_height q - Z.of_nat RECENT_MAX_ENTRIES).
  rewrite <-(filter_app_complement P (get_recent_blockhashes q)) at 1. rewrite Permutation_app_comm.
  apply Permutation_app; [|done]. apply NoDup_Permutation.
  - apply NoDup_filter, recent_NoDup.
  - pose proof (newest_sorted hist (hash_height q)) as Hs. revert Hs. generalize (newest hist (hash_height q)) as l.
    induction l as [|x l IH]; [constructor|]. intros Hs. inversion Hs as [|? ? Hl HF]; subst. constructor; [|by apply IH].
    intros Hx. rewrite Forall_forall in HF. specialize (HF x Hx). cbn in HF. lia.
  - intros x. rewrite list_elem_of_filter, newest_elem. split.
    + intros [HP Hx]. destruct (recent_elem hist q x Hq Hx) as (i & h & fc & Hf & ->). subst P. cbn in HP.
      exists i, h, fc. split_and!; [lia|by apply find_hash_Some|done].
    + intros (i & h & fc & Hlt & Hi & ->). subst P. cbn. split; [lia|].
      apply find_hash_NoDup in Hi; [|done]. destruct (qo_complete _ _ Hq h i fc Hi) as [age Ha]; [lia|].
      destruct (qo_sound _ _ Hq h age Ha) as (i' & Hf & Hh). rewrite Hi in Hf. simplify_eq.
      apply list_elem_of_fmap. exists (h, age). split; [cbn; by rewrite Hh|by apply elem_of_map_to_list].
Qed.

Definition newer (x y : Z * Entry) : bool := y.1 <=? x.1.

Lemma newer_unique hist q x y :
  queue_of hist q → x ∈ get_recent_blockhashes q → y ∈ get_recent_blockhashes q →
  newer x y → newer y x → x = y.
Proof.
  intros Hq Hx Hy. unfold newer. rewrite !Is_true_true, !Z.leb_le. intros H1 H2.
  destruct (recent_elem _ _ _ Hq Hx) as (i & h & fc & Hf%find_hash_Some & ->).
  destruct (recent_elem _ _ _ Hq Hy) as (i' & h' & fc' & Hf'%find_hash_Some & ->). cbn in *.
  assert (i = i') as -> by lia. congruence.
Qed.

Lemma sort_newer l : StronglySorted newer (sort_by newer l).
Proof. unfold newer. apply sort_by_sorted; intros *; rewrite ?Z.leb_le, ?Z.leb_gt; lia. Qed.

Lemma newest_app_sorted hist height old :
  Forall (λ x, x.1 <= height - Z.of_nat RECENT_MAX_ENTRIES) old →
  StronglySorted newer (newest hist height ++ sort_by newer old).
Proof.
  intros Hold. apply StronglySorted_app. split_and!; [| |apply sort_newer].
  - intros x y (i & h & fc & Hlt & _ & ->)%newest_elem Hy%sort_by_elem. rewrite Forall_forall in Hold.
    specialize (Hold y Hy). unfold newer. cbn in *. apply Is_true_true, Z.leb_le. lia.
  - pose proof (newest_sorted hist height) as Hs. induction Hs as [|x l Hs IH HF]; [constructor|].
    constructor; [done|]. eapply Forall_impl; [exact HF|]. cbn. intros y Hy. apply Is_true_true, Z.leb_le. lia.
Qed.

Lemma recent_of_queue hist q :
  queue_of hist q → NoDup hist.*1 → (RECENT_MAX_ENTRIES <= S (max_age q))%nat →
  recent_blockhashes_value (get_recent_blockhashes q) =
  (λ x, mkEntry x.1 x.2) <$> take RECENT_MAX_ENTRIES hist.
Proof.
  intros Hq Hnd Hmax. pose proof (recent_split hist q Hq Hnd Hmax) as Hp. cbn zeta in Hp.
  set (old := filter _ _) in Hp. unfold recent_blockhashes_value, into_iter_sorted. fold newer.
  assert (Hold : Forall (λ x, x.1 <= hash_height q - Z.of_nat RECENT_MAX_ENTRIES) old)
    by (apply Forall_forall; intros x Hx; by apply list_elem_of_filter in Hx as [? _]).
  assert (Heq : sort_by newer (get_recent_blockhashes q) = newest hist (hash_height q) ++ sort_by newer old).
  { apply (StronglySorted_unique_strong newer); [|apply sort_newer|by apply newest_app_sorted|].
    - intros x y Hx%sort_by_elem Hy. apply (newer_unique hist q); [done..|]. rewrite Hp.
      rewrite elem_of_app, sort_by_elem in Hy. by apply elem_of_app.
    - by rewrite !sort_by_Permutation. }
  change (λ x y : Z * Entry, y.1 <=? x.1) with newer. rewrite Heq.
  assert (Hn : snd <$> newest hist (hash_height q) = (λ x, mkEntry x.1 x.2) <$> take RECENT_MAX_ENTRIES hist).
  { unfold newest. rewrite fmap_imap. apply imap_const. }
  rewrite <-Hn. f_equal. destruct (decide (RECENT_MAX_ENTRIES <= length hist)%nat) as [Hl|Hl].
  - apply take_app_length'. unfold newest. rewrite length_imap, length_take. lia.
  - assert (old = []) as ->.
    { destruct old as [|x old'] eqn:E; [done|]. assert (Hx : x ∈ old) by (rewrite E; left).
      apply list_elem_of_filter in Hx as [Hx Hr].
      destruct (recent_elem _ _ _ Hq Hr) as (i & h & fc & Hf%find_hash_Some%lookup_lt_Some & ->). cbn in Hx. lia. }
    cbn. rewrite app_nil_r. apply take_ge. unfold newest. rewrite length_imap, length_take. lia.
Qed.

(** *** The property *)

Definition queue_after (n : nat) (genesis : Z * FeeCalculator) (t : Z)
    (registered : list (Z * FeeCalculator * Z)) : BlockhashQueue :=
  foldr (λ r, register_hash r.1.1 r.1.2 r.2) (genesis_hash genesis.1 genesis.2 t (BlockhashQueue_new n)) registered.

Lemma queue_after_of n genesis t registered :
  Z.of_nat (length registered) < u64_max →
  queue_of (registered.*1 ++ [genesis]) (queue_after n genesis t registered) ∧
  max_age (queue_after n genesis t registered) = n.
Proof.
  induction registered as [|[[h fc] now] l IH]; intros Hl; cbn [queue_after foldr].
  - split; [|done]. destruct genesis. apply genesis_queue.
  - destruct IH as [IH Hn]; [cbn in Hl; lia|]. split; [|done].
    change (queue_of ((h, fc) :: (l.*1 ++ [genesis])) (register_hash h fc now (queue_after n genesis t l))).
    apply register_queue; [exact IH|..].
    + rewrite length_app, length_fmap. cbn in *. lia.
    + by destruct (l.*1).
Qed.

(** C34. A blockhash queue is the list of the hashes registered, cut off at its
    maximal age [n].  After the genesis hash and any registrations (newest
    first): a hash passes an age check of at most [n] exactly when it was
    registered no longer ago; such a hash has the age and the fee it was last
    registered with; the last hash is the newest; at most [n + 1] hashes are
    kept; and, if the hashes are distinct, the recent blockhashes sysvar holds
    the 150 newest in order. *)
Theorem blockhash_queue_refines n genesis t registered :
  Z.of_nat (length registered) < u64_max - 1 →
  let q := queue_after n genesis t registered in
  let hist := registered.*1 ++ [genesis] in
  last_hash q = fst <$> head hist ∧
  (∀ h m, (m <= n)%nat →
     check_hash_age q h m = Some true ↔ ∃ i fc, find_hash hist h = Some (i, fc) ∧ (i <= m)%nat) ∧
  (∀ h i fc, find_hash hist h = Some (i, fc) → (i <= n)%nat →
     get_hash_age q h = Some (Z.of_nat i) ∧ get_fee_calculator q h = Some fc) ∧
  (size (ages q) <= S n)%nat ∧
  (NoDup hist.*1 → (RECENT_MAX_ENTRIES <= S n)%nat →
     recent_blockhashes_value (get_recent_blockhashes q) =
     (λ x, mkEntry x.1 x.2) <$> take RECENT_MAX_ENTRIES hist).
Proof.
  intros Hl q hist. destruct (queue_after_of n genesis t registered) as [Hq Hn]; [lia|].
  fold q hist in Hq. fold q in Hn. pose proof Hq as [Hh Hlast Hsound Hcomp Hsize]. rewrite Hn in *.
  assert (Hlen : Z.of_nat (length hist) <= u64_max)
    by (subst hist; rewrite length_app, length_fmap; cbn; lia).
  split_and!; [done| | |done|].
  - intros h m Hm. unfold check_hash_age, check_age. split.
    + intros (age & Ha & Hc)%fmap_Some. destruct (Hsound h age Ha) as (i & Hf & Hi).
      rewrite (sub64_age hist q h age i) in Hc by done. exists i, (age_fee_calculator age). split; [done|]. lia.
    + intros (i & fc & Hf & Hi). destruct (Hcomp h i fc Hf) as [age Ha]; [lia|]. rewrite Ha. cbn.
      destruct (Hsound h age Ha) as (i' & Hf' & Hi'). rewrite Hf in Hf'. simplify_eq.
      rewrite (sub64_age hist q h age i') by done. f_equal. apply Z.leb_le. lia.
  - intros h i fc Hf Hi. destruct (Hcomp h i fc Hf) as [age Ha]; [lia|].
    destruct (Hsound h age Ha) as (i' & Hf' & Hi'). rewrite Hf in Hf'. simplify_eq.
    unfold get_hash_age, get_fee_calculator. rewrite Ha. cbn. by rewrite (sub64_age hist q h age i').
  - intros Hnd Hmax. by apply recent_of_queue; [..|rewrite Hn].
Qed.

Lemma blockhash_queue_refines_witness :
  let q := queue_after 2 (10, mkFeeCalculator 1) 0
             [(13, mkFeeCalculator 4, 3); (12, mkFeeCalculator 3, 2); (11, mkFeeCalculator 2, 1)] in
  check_hash_age q 11 2 = Some true ∧ check_hash_age q 11 1 = Some false ∧
  (check_hash_age q 11 2 = Some true ↔ ∃ i fc, find_hash
     [(13, mkFeeCalculator 4); (12, mkFeeCalculator 3); (11, mkFeeCalculator 2); (10, mkFeeCalculator 1)] 11 =
     Some (i, fc) ∧ (i <= 2)%nat).
Proof.
  split; [vm_compute; reflexivity|]. split; [vm_compute; reflexivity|].
  destruct (blockhash_queue_refines 2 (10, mkFeeCalculator 1) 0
    [(13, mkFeeCalculator 4, 3); (12, mkFeeCalculator 3, 2); (11, mkFeeCalculator 2, 1)]) as (_ & H & _).
  { vm_compute. reflexivity. }
  apply (H 11 2%nat). lia.
Defined.
End fees_props.
