(* ===== verification/System.v ===== *)
(** * The system program and durable nonces

    Models [runtime/src/system_instruction_processor.rs],
    [sdk/src/nonce_keyed_account.rs], [sdk/src/nonce_account.rs],
    [sdk/program/src/nonce/state] and the instructions and errors of
    [sdk/program/src/system_instruction.rs]. *)

From S2P Require Import Prelude F64 Account Features Sysvar Message Fees.
From Stdlib Require Import Strings.Byte.

Module system_program.
Import fees.

(** ** Errors; the conversion of an error enum gives its index *)

Inductive SystemError : Type :=
| AccountAlreadyInUse
| ResultWithNegativeLamports
| InvalidProgramId
| InvalidAccountDataLength
| SE_MaxSeedLengthExceeded
| AddressWithSeedMismatch.

Definition SystemError_into (e : SystemError) : InstructionError :=
  Custom match e with
         | AccountAlreadyInUse => 0
         | ResultWithNegativeLamports => 1
         | InvalidProgramId => 2
         | InvalidAccountDataLength => 3
         | SE_MaxSeedLengthExceeded => 4
         | AddressWithSeedMismatch => 5
         end.

Inductive NonceError : Type := NoRecentBlockhashes | NotExpired | UnexpectedValue | BadAccountState.

Definition NonceError_into (e : NonceError) : InstructionError :=
  Custom match e with
         | NoRecentBlockhashes => 0
         | NotExpired => 1
         | UnexpectedValue => 2
         | BadAccountState => 3
         end.

(** ** Nonce accounts *)

Module nonce.
Record Data : Type := mkData {
  authority : Pubkey;
  data_blockhash : Hash;
  data_fee_calculator : FeeCalculator;
}.
Definition Data_default : Data := mkData Pubkey_default Hash_default FeeCalculator_default.

Inductive State : Type := Uninitialized | Initialized (d : Data).
Inductive Versions : Type := Current (s : State).

Definition new_current (s : State) : Versions := Current s.
Definition convert_to_current (v : Versions) : State := match v with Current s => s end.
End nonce.
Import nonce.

(** ** Instructions; a seed is the UTF-8 bytes of a string *)

Definition MAX_PERMITTED_DATA_LENGTH : Z := 10 * 1024 * 1024.

Inductive SystemInstruction : Type :=
| CreateAccount (lamports space : Z) (owner : Pubkey)
| Assign (owner : Pubkey)
| Transfer (lamports : Z)
| CreateAccountWithSeed (base : Pubkey) (seed : list byte) (lamports space : Z) (owner : Pubkey)
| AdvanceNonceAccount
| WithdrawNonceAccount (lamports : Z)
| InitializeNonceAccount (authorized : Pubkey)
| AuthorizeNonceAccount (nonce_authority : Pubkey)
| Allocate (space : Z)
| AllocateWithSeed (base : Pubkey) (seed : list byte) (space : Z) (owner : Pubkey)
| AssignWithSeed (base : Pubkey) (seed : list byte) (owner : Pubkey)
| TransferWithSeed (lamports : Z) (from_seed : list byte) (from_owner : Pubkey).

(** An address that may have been derived from a seed. *)
Record Address : Type := mkAddress {
  address : Pubkey;
  base : option Pubkey;
}.

Definition Address_is_signer (a : Address) (signers : list Pubkey) : bool :=
  match base a with
  | Some b => bool_decide (b ∈ signers)
  | None => bool_decide (address a ∈ signers)
  end.

Section program.
Context `{!Sha256, !Codec Versions, !Codec (list Entry), !Codec Rent, !Codec SystemInstruction}.

(** [nonce::State::size] *)
Definition State_size : nat := length (bincode_ser (new_current (Initialized Data_default))).

Definition verify_nonce_account (acc : Account) (h : Hash) : bool :=
  if negb (owner acc =? system_program_id) then false
  else match account_state acc with
       | Ok v => match convert_to_current v with
                 | Initialized d => h =? data_blockhash d
                 | Uninitialized => false
                 end
       | _ => false
       end.

Definition fee_calculator_of (acc : Account) : option FeeCalculator :=
  match account_state acc with
  | Ok v => match convert_to_current v with
            | Initialized d => Some (data_fee_calculator d)
            | Uninitialized => None
            end
  | _ => None
  end.

Definition advance_nonce_account (self : KeyedAccount) (recent_blockhashes : list Entry)
    (signers : list Pubkey) : M unit :=
  match recent_blockhashes with
  | [] => fail (NonceError_into NoRecentBlockhashes)
  | recent :: _ =>
      v ← ka_state Versions self;
      match convert_to_current v with
      | Initialized d =>
          ensureS (bool_decide (authority d ∈ signers)) MissingRequiredSignature;;
          ensureS (negb (data_blockhash d =? blockhash recent)) (NonceError_into NotExpired);;
          ka_set_state self (new_current (Initialized
            (mkData (authority d) (blockhash recent) (fee_calculator recent))))
      | Uninitialized => fail (NonceError_into BadAccountState)
      end
  end.

(** Who must sign a withdrawal; a withdrawal of everything uninitializes the
    account.  Indexing no blockhashes panics. *)
Definition withdraw_signer (self : KeyedAccount) (amount : Z) (recent_blockhashes : list Entry)
    (rent : Rent) : M Pubkey :=
  v ← ka_state Versions self;
  match convert_to_current v with
  | Uninitialized =>
      balance ← ka_lamports self;
      ensureS (negb (balance <? amount)) InsufficientFunds;;
      mret (unsigned_key self)
  | Initialized d =>
      balance ← ka_lamports self;
      (if amount =? balance then
         recent ← lift (unwrap (head recent_blockhashes));
         ensureS (negb (data_blockhash d =? blockhash recent)) (NonceError_into NotExpired);;
         ka_set_state self (new_current Uninitialized)
       else
         len ← ka_data_len self;
         amount ← lift (checked_add amount (minimum_balance rent len));
         balance ← ka_lamports self;
         ensureS (negb (balance <? amount)) InsufficientFunds);;
      mret (authority d)
  end.

Definition withdraw_nonce_account (self : KeyedAccount) (amount : Z) (to : KeyedAccount)
    (recent_blockhashes : list Entry) (rent : Rent) (signers : list Pubkey) : M unit :=
  signer ← withdraw_signer self amount recent_blockhashes rent;
  ensureS (bool_decide (signer ∈ signers)) MissingRequiredSignature;;
  nonce_balance ← ka_lamports self;
  rest ← lift (ok_or (checked_sub64 nonce_balance amount) ArithmeticOverflow);
  update_account self (λ a, Ok (set_lamports rest a));;
  to_balance ← ka_lamports to;
  sum ← lift (ok_or (checked_add64 to_balance amount) ArithmeticOverflow);
  update_account to (λ a, Ok (set_lamports sum a)).

Definition initialize_nonce_account (self : KeyedAccount) (nonce_authority : Pubkey)
    (recent_blockhashes : list Entry) (rent : Rent) : M unit :=
  match recent_blockhashes with
  | [] => fail (NonceError_into NoRecentBlockhashes)
  | recent :: _ =>
      v ← ka_state Versions self;
      match convert_to_current v with
      | Uninitialized =>
          len ← ka_data_len self;
          balance ← ka_lamports self;
          ensureS (negb (balance <? minimum_balance rent len)) InsufficientFunds;;
          ka_set_state self (new_current (Initialized
            (mkData nonce_authority (blockhash recent) (fee_calculator recent))))
      | Initialized _ => fail (NonceError_into BadAccountState)
      end
  end.

Definition authorize_nonce_account (self : KeyedAccount) (nonce_authority : Pubkey)
    (signers : list Pubkey) : M unit :=
  v ← ka_state Versions self;
  match convert_to_current v with
  | Initialized d =>
      ensureS (bool_decide (authority d ∈ signers)) MissingRequiredSignature;;
      ka_set_state self (new_current (Initialized
        (mkData nonce_authority (data_blockhash d) (data_fee_calculator d))))
  | Uninitialized => fail (NonceError_into BadAccountState)
  end.

(** ** The processor *)

(** [Address::create] *)
Definition Address_create (addr : Pubkey) (with_seed : option (Pubkey * list byte * Pubkey))
    : res InstructionError Address :=
  match with_seed with
  | Some (b, seed, o) =>
      address_with_seed ← map_err PubkeyError_into (create_with_seed b seed o);
      ensure (addr =? address_with_seed) (SystemError_into AddressWithSeedMismatch);;
      Ok (mkAddress addr (Some b))
  | None => Ok (mkAddress addr None)
  end.

Definition allocate (addr : Address) (space : Z) (signers : list Pubkey) (a : Account)
    : res InstructionError Account :=
  ensure (Address_is_signer addr signers) MissingRequiredSignature;;
  ensure (bool_decide (data a = []) && (owner a =? system_program_id))
    (SystemError_into AccountAlreadyInUse);;
  ensure (negb (MAX_PERMITTED_DATA_LENGTH <? space)) (SystemError_into InvalidAccountDataLength);;
  Ok (set_data (replicate (Z.to_nat space) x00) a).

Definition assign (ic : InvokeContext) (addr : Address) (o : Pubkey) (signers : list Pubkey)
    (a : Account) : res InstructionError Account :=
  if owner a =? o then Ok a
  else
    ensure (Address_is_signer addr signers) MissingRequiredSignature;;
    ensure (negb (negb (is_feature_active ic feature_set.rent_for_sysvars) &&
                  (o =? sysvar_program_id))) (SystemError_into InvalidProgramId);;
    Ok (set_owner o a).

Definition allocate_and_assign (ic : InvokeContext) (to : KeyedAccount) (to_address : Address)
    (space : Z) (o : Pubkey) (signers : list Pubkey) : M unit :=
  update_account to (allocate to_address space signers);;
  update_account to (assign ic to_address o signers).

Definition transfer_verified (from to : KeyedAccount) (amount : Z) : M unit :=
  empty ← ka_data_is_empty from;
  ensureS empty InvalidArgument;;
  balance ← ka_lamports from;
  ensureS (negb (balance <? amount)) (SystemError_into ResultWithNegativeLamports);;
  ka_sub_lamports from amount;;
  ka_add_lamports to amount.

Definition transfer (ic : InvokeContext) (from to : KeyedAccount) (amount : Z) : M unit :=
  if negb (is_feature_active ic feature_set.system_transfer_zero_check) && (amount =? 0)
  then mret tt
  else
    ensureS (bool_decide (is_Some (signer_key from))) MissingRequiredSignature;;
    transfer_verified from to amount.

Definition transfer_with_seed (ic : InvokeContext) (from from_base : KeyedAccount)
    (from_seed : list byte) (from_owner : Pubkey) (to : KeyedAccount) (amount : Z) : M unit :=
  if negb (is_feature_active ic feature_set.system_transfer_zero_check) && (amount =? 0)
  then mret tt
  else
    ensureS (bool_decide (is_Some (signer_key from_base))) MissingRequiredSignature;;
    address_from_seed ← lift (map_err PubkeyError_into
      (create_with_seed (unsigned_key from_base) from_seed from_owner));
    ensureS (unsigned_key from =? address_from_seed) (SystemError_into AddressWithSeedMismatch);;
    transfer_verified from to amount.

Definition create_account (ic : InvokeContext) (from to : KeyedAccount) (to_address : Address)
    (amount space : Z) (o : Pubkey) (signers : list Pubkey) : M unit :=
  balance ← ka_lamports to;
  ensureS (negb (0 <? balance)) (SystemError_into AccountAlreadyInUse);;
  allocate_and_assign ic to to_address space o signers;;
  transfer ic from to amount.

Definition process_instruction (ic : InvokeContext) (instruction_data : list byte) : M unit :=
  let ks := get_keyed_accounts ic in
  instruction ← lift (limited_deserialize instruction_data);
  let signers := get_signers ks in
  match instruction with
  | CreateAccount amount space o =>
      from ← keyed_account_at_index ks 0;
      to ← keyed_account_at_index ks 1;
      to_address ← lift (Address_create (unsigned_key to) None);
      create_account ic from to to_address amount space o signers
  | CreateAccountWithSeed b seed amount space o =>
      from ← keyed_account_at_index ks 0;
      to ← keyed_account_at_index ks 1;
      to_address ← lift (Address_create (unsigned_key to) (Some (b, seed, o)));
      create_account ic from to to_address amount space o signers
  | Assign o =>
      k ← keyed_account_at_index ks 0;
      addr ← lift (Address_create (unsigned_key k) None);
      update_account k (assign ic addr o signers)
  | Transfer amount =>
      from ← keyed_account_at_index ks 0;
      to ← keyed_account_at_index ks 1;
      transfer ic from to amount
  | TransferWithSeed amount from_seed from_owner =>
      from ← keyed_account_at_index ks 0;
      b ← keyed_account_at_index ks 1;
      to ← keyed_account_at_index ks 2;
      transfer_with_seed ic from b from_seed from_owner to amount
  | AdvanceNonceAccount =>
      me ← keyed_account_at_index ks 0;
      k ← keyed_account_at_index ks 1;
      recent_blockhashes ← from_keyed_account (list Entry) k;
      advance_nonce_account me recent_blockhashes signers
  | WithdrawNonceAccount amount =>
      me ← keyed_account_at_index ks 0;
      to ← keyed_account_at_index ks 1;
      k ← keyed_account_at_index ks 2;
      recent_blockhashes ← from_keyed_account (list Entry) k;
      k ← keyed_account_at_index ks 3;
      rent ← from_keyed_account Rent k;
      withdraw_nonce_account me amount to recent_blockhashes rent signers
  | InitializeNonceAccount authorized =>
      me ← keyed_account_at_index ks 0;
      k ← keyed_account_at_index ks 1;
      recent_blockhashes ← from_keyed_account (list Entry) k;
      k ← keyed_account_at_index ks 2;
      rent ← from_keyed_account Rent k;
      initialize_nonce_account me authorized recent_blockhashes rent
  | AuthorizeNonceAccount nonce_authority =>
      me ← keyed_account_at_index ks 0;
      authorize_nonce_account me nonce_authority signers
  | Allocate space =>
      k ← keyed_account_at_index ks 0;
      addr ← lift (Address_create (unsigned_key k) None);
      update_account k (allocate addr space signers)
  | AllocateWithSeed b seed space o =>
      k ← keyed_account_at_index ks 0;
      addr ← lift (Address_create (unsigned_key k) (Some (b, seed, o)));
      allocate_and_assign ic k addr space o signers
  | AssignWithSeed b seed o =>
      k ← keyed_account_at_index ks 0;
      addr ← lift (Address_create (unsigned_key k) (Some (b, seed, o)));
      update_account k (assign ic addr o signers)
  end.

Inductive SystemAccountKind : Type := System | Nonce.

Definition get_system_account_kind (a : Account) : option SystemAccountKind :=
  if owner a =? system_program_id then
    if bool_decide (data a = []) then Some System
    else if bool_decide (length (data a) = State_size) then
      match account_state a with
      | Ok v => match convert_to_current v with
                | Initialized _ => Some Nonce
                | Uninitialized => None
                end
      | _ => None
      end
    else None
  else None.
End program.
End system_program.
