(* ===== verification/SystemProps.v ===== *)
(** * Properties of the system program and of nonces

    A step relation says what an instruction may do to the accounts, and every
    instruction that succeeds takes such steps.  From it: lamports are
    conserved; an account only loses lamports or changes owner or data under
    its own, its base's or its nonce authority's signature; initialized nonce
    accounts stay above the rent reserve; a nonce that was advanced cannot be
    used again. *)

From S2P Require Import Prelude F64 Account Serial Features Sysvar Message Fees System.
From Stdlib Require Import Strings.Byte.

Module system_props.
Import fees system_program nonce.

Lemma ka_data_is_empty_Ok k (s s' : gmap nat Account) b :
  ka_data_is_empty k s = (s', Ok b) ↔ s' = s ∧ ∃ a, s !! account k = Some a ∧ b = bool_decide (data a = []).
Proof.
  unfold ka_data_is_empty. rewrite st_bind_Ok. split.
  - intros (s1 & a & [-> Ha]%try_account_ref_Ok & H). st_inv. eauto.
  - intros (-> & a & Ha & ->). exists s, a. by rewrite try_account_ref_Ok.
Qed.

Section props.
Context {Sh : Sha256} `{!Codec Versions, !Codec (list Entry), !Codec Rent, !Codec SystemInstruction}.
Implicit Types s : gmap nat Account.

(** ** The steps *)

(** The account's key signed, or the base it is derived from. *)
Definition signed (ks : list KeyedAccount) (k : KeyedAccount) : Prop :=
  key k ∈ get_signers ks ∨
  ∃ b seed o, b ∈ get_signers ks ∧ create_with_seed b seed o = Ok (key k).

(** What allocating and assigning do to an account; what transfers do. *)
Inductive sys_step (ks : list KeyedAccount) : gmap nat Account → gmap nat Account → Prop :=
| step_allocate s k a n :
    k ∈ ks → s !! account k = Some a → signed ks k → data a = [] → owner a = system_program_id →
    sys_step ks s (<[account k := set_data (replicate n x00) a]> s)
| step_assign s k a o :
    k ∈ ks → s !! account k = Some a → signed ks k →
    sys_step ks s (<[account k := set_owner o a]> s)
| step_transfer s s1 from to a b n :
    from ∈ ks → to ∈ ks → s !! account from = Some a → signed ks from → data a = [] →
    0 <= n <= lamports a → s1 = <[account from := set_lamports (lamports a - n) a]> s →
    s1 !! account to = Some b →
    sys_step ks s (<[account to := set_lamports (lamports b + n) b]> s1).

Definition nonce_state (a : Account) : option State := convert_to_current <$> deserialize (data a).

Definition write_nonce (st : State) (a : Account) : Account :=
  set_data (bincode_ser (new_current st) ++ drop (length (bincode_ser (new_current st))) (data a)) a.

(** The account has room for the state. *)
Definition fits (st : State) (a : Account) : Prop :=
  (length (bincode_ser (new_current st)) <= length (data a))%nat.

(** The sysvar of a type, read from a keyed account. *)
Definition sysvar_in (ks : list KeyedAccount) s (T : Type) `{!Codec T, !SysvarId T} (x : T) : Prop :=
  ∃ k a, k ∈ ks ∧ key k = sysvar_id (T:=T) ∧ s !! account k = Some a ∧ deserialize (data a) = Some x.

(** [e] is the newest of the recent blockhashes. *)
Definition newest (ks : list KeyedAccount) s (e : Entry) : Prop :=
  ∃ l, sysvar_in ks s (list Entry) (e :: l).

(** The transitions of the nonce account [a]. *)
Inductive nonce_step (ks : list KeyedAccount) s (a : Account) : State → State → Prop :=
| nonce_advance d e :
    authority d ∈ get_signers ks → newest ks s e → blockhash e ≠ data_blockhash d →
    nonce_step ks s a (Initialized d) (Initialized (mkData (authority d) (blockhash e) (fee_calculator e)))
| nonce_authorize d k :
    authority d ∈ get_signers ks →
    nonce_step ks s a (Initialized d) (Initialized (mkData k (data_blockhash d) (data_fee_calculator d)))
| nonce_initialize k e rent :
    sysvar_in ks s Rent rent → minimum_balance rent (length (data a)) <= lamports a → newest ks s e →
    nonce_step ks s a Uninitialized (Initialized (mkData k (blockhash e) (fee_calculator e))).

(** A withdrawal of [n] lamports from the nonce account [a] with key [self]:
    the account before the lamports move. *)
Inductive nonce_withdraw (ks : list KeyedAccount) s (self : Pubkey) (a : Account) (n : Z) : Account → Prop :=
| withdraw_uninitialized :
    nonce_state a = Some Uninitialized → self ∈ get_signers ks → nonce_withdraw ks s self a n a
| withdraw_all d e :
    nonce_state a = Some (Initialized d) → authority d ∈ get_signers ks → n = lamports a →
    newest ks s e → blockhash e ≠ data_blockhash d → fits Uninitialized a →
    nonce_withdraw ks s self a n (write_nonce Uninitialized a)
| withdraw_part d rent :
    nonce_state a = Some (Initialized d) → authority d ∈ get_signers ks → sysvar_in ks s Rent rent →
    n + minimum_balance rent (length (data a)) <= lamports a →
    nonce_withdraw ks s self a n a.

Inductive nonce_effect (ks : list KeyedAccount) s : gmap nat Account → Prop :=
| effect_state k a st st' :
    k ∈ ks → s !! account k = Some a → nonce_state a = Some st → fits st' a →
    nonce_step ks s a st st' → nonce_effect ks s (<[account k := write_nonce st' a]> s)
| effect_withdraw k to a a1 b n s1 :
    k ∈ ks → to ∈ ks → s !! account k = Some a → 0 <= n <= lamports a →
    nonce_withdraw ks s (key k) a n a1 →
    s1 = <[account k := set_lamports (lamports a - n) a1]> s → s1 !! account to = Some b →
    nonce_effect ks s (<[account to := set_lamports (lamports b + n) b]> s1).

(** ** The operations take these steps *)

Lemma signer_signed ks k : k ∈ ks → is_Some (signer_key k) → signed ks k.
Proof.
  intros Hk [p Hp]. left. pose proof Hp as [_ <-]%signer_key_Some.
  apply list_elem_of_omap. by exists k.
Qed.

Lemma Address_create_signed ks k seed addr :
  Address_create (unsigned_key k) seed = Ok addr → Address_is_signer addr (get_signers ks) = true →
  signed ks k.
Proof.
  unfold Address_create, Address_is_signer. destruct seed as [[[b sd] o]|].
  - intros (p & Hp & ([] & He & [= <-])%res_bind_Ok)%res_bind_Ok. cbn. intros Hb%bool_decide_eq_true.
    unfold ensure in He. destruct (Z.eqb_spec (unsigned_key k) p) as [<-|]; [|done].
    apply map_err_Ok in Hp. right. by exists b, sd, o.
  - intros [= <-]. cbn. intros Hs%bool_decide_eq_true. by left.
Qed.

Lemma allocate_Ok addr space signers a a' :
  allocate addr space signers a = Ok a' →
  Address_is_signer addr signers = true ∧ data a = [] ∧ owner a = system_program_id ∧
  a' = set_data (replicate (Z.to_nat space) x00) a.
Proof.
  unfold allocate, ensure. intros H.
  destruct (Address_is_signer _ _); cbn in H; [|done].
  destruct (bool_decide _ && _) eqn:E; cbn in H; [|done]. bool_prop.
  destruct (MAX_PERMITTED_DATA_LENGTH <? space); cbn in H; [done|]. by simplify_eq.
Qed.

Lemma assign_Ok ic addr o signers a a' :
  assign ic addr o signers a = Ok a' →
  a' = a ∨ a' = set_owner o a ∧ Address_is_signer addr signers = true.
Proof.
  unfold assign, ensure. destruct (Z.eqb_spec (owner a) o) as [<-|].
  - intros [= <-]. auto.
  - destruct (Address_is_signer _ _); cbn; [|done]. destruct (negb _); cbn; [|done]. intros [= <-]. auto.
Qed.

Section steps.
Context (ks : list KeyedAccount).

Lemma allocate_step k seed addr space s s' :
  k ∈ ks → Address_create (unsigned_key k) seed = Ok addr →
  update_account k (allocate addr space (get_signers ks)) s = (s', Ok tt) → sys_step ks s s'.
Proof.
  intros Hk Ha (a & a' & Hl & (Hs & Hd & Ho & ->)%allocate_Ok & ->)%update_account_Ok.
  apply step_allocate; [done..| |done|done]. by eapply Address_create_signed.
Qed.

Lemma assign_step ic k seed addr o s s' :
  k ∈ ks → Address_create (unsigned_key k) seed = Ok addr →
  update_account k (assign ic addr o (get_signers ks)) s = (s', Ok tt) → rtc (sys_step ks) s s'.
Proof.
  intros Hk Ha (a & a' & Hl & [->|[-> Hs]]%assign_Ok & ->)%update_account_Ok; [by rewrite insert_id|].
  apply rtc_once, step_assign; [done..|]. by eapply Address_create_signed.
Qed.

Lemma allocate_and_assign_step ic k seed addr space o s s' :
  k ∈ ks → Address_create (unsigned_key k) seed = Ok addr →
  allocate_and_assign ic k addr space o (get_signers ks) s = (s', Ok tt) → rtc (sys_step ks) s s'.
Proof.
  intros Hk Ha (s1 & [] & H1 & H2)%st_bind_Ok. etrans; [|by eapply assign_step].
  apply rtc_once. by eapply allocate_step.
Qed.

Lemma transfer_verified_step from to n s s' :
  from ∈ ks → to ∈ ks → signed ks from → 0 <= n →
  transfer_verified from to n s = (s', Ok tt) → sys_step ks s s'.
Proof.
  intros Hf Ht Hs Hn0. unfold transfer_verified.
  intros (s1 & e & (-> & a & Ha & ->)%ka_data_is_empty_Ok & H)%st_bind_Ok.
  apply st_bind_Ok in H as (s2 & [] & (He & -> & _)%ensureS_Ok & H). apply bool_decide_eq_true in He.
  apply st_bind_Ok in H as (s2 & bal & (-> & a' & Ha' & ->)%ka_lamports_Ok & H).
  apply st_bind_Ok in H as (s2 & [] & (_ & -> & _)%ensureS_Ok & H).
  apply st_bind_Ok in H as (s2 & [] & (a2 & Ha2 & Hn & ->)%ka_sub_lamports_Ok & H).
  apply ka_add_lamports_Ok in H as (b & Hb & _ & ->). simplify_eq.
  by eapply (step_transfer _ s _ from to).
Qed.

Lemma transfer_step ic from to n s s' :
  from ∈ ks → to ∈ ks → 0 <= n → transfer ic from to n s = (s', Ok tt) → rtc (sys_step ks) s s'.
Proof.
  intros Hf Ht Hn. unfold transfer. destruct (_ && _); [by intros [= ->]|].
  intros (s1 & [] & (Hs & -> & _)%ensureS_Ok & H)%st_bind_Ok. apply bool_decide_eq_true in Hs.
  apply rtc_once. eapply (transfer_verified_step from to n); [done..|by apply signer_signed|done|exact H].
Qed.

Lemma transfer_with_seed_step ic from base seed o to n s s' :
  from ∈ ks → base ∈ ks → to ∈ ks → 0 <= n →
  transfer_with_seed ic from base seed o to n s = (s', Ok tt) → rtc (sys_step ks) s s'.
Proof.
  intros Hf Hb Ht Hn. unfold transfer_with_seed. destruct (_ && _); [by intros [= ->]|].
  intros (s1 & [] & (Hs & -> & _)%ensureS_Ok & H)%st_bind_Ok. apply bool_decide_eq_true in Hs.
  apply st_bind_Ok in H as (s1 & p & [-> Hp]%lift_inv & H). symmetry in Hp. apply map_err_Ok in Hp.
  apply st_bind_Ok in H as (s1 & [] & (He & -> & _)%ensureS_Ok & H). apply Z.eqb_eq in He.
  apply rtc_once. eapply (transfer_verified_step from to n); [done..| |done|exact H].
  right. destruct Hs as [q Hq]. pose proof Hq as [_ <-]%signer_key_Some. exists (key base), seed, o.
  split; [apply list_elem_of_omap; by exists base|]. unfold unsigned_key in *. by rewrite Hp, He.
Qed.

Lemma create_account_step ic from to seed addr n space o s s' :
  from ∈ ks → to ∈ ks → 0 <= n → Address_create (unsigned_key to) seed = Ok addr →
  create_account ic from to addr n space o (get_signers ks) s = (s', Ok tt) → rtc (sys_step ks) s s'.
Proof.
  intros Hf Ht Hn Ha. unfold create_account.
  intros (s1 & b & (-> & _)%ka_lamports_Ok & H)%st_bind_Ok.
  apply st_bind_Ok in H as (s1 & [] & (_ & -> & _)%ensureS_Ok & H).
  apply st_bind_Ok in H as (s1 & [] & H1 & H2).
  etrans; [by eapply allocate_and_assign_step|exact (transfer_step ic from to n _ _ Hf Ht Hn H2)].
Qed.

Lemma ka_nonce_state k v s s' :
  ka_state Versions k s = (s', Ok v) →
  s' = s ∧ ∃ a, s !! account k = Some a ∧ nonce_state a = Some (convert_to_current v).
Proof. intros (-> & a & Ha & Hd)%ka_state_Ok. split; [done|]. exists a. unfold nonce_state. by rewrite Hd. Qed.

Lemma set_nonce k st s s' :
  ka_set_state k (new_current st) s = (s', Ok tt) →
  ∃ a, s !! account k = Some a ∧ fits st a ∧ s' = <[account k := write_nonce st a]> s.
Proof. by intros (a & Ha & Hf & ->)%ka_set_state_Ok; exists a. Qed.

Lemma advance_effect k l s s' :
  k ∈ ks → sysvar_in ks s (list Entry) l →
  advance_nonce_account k l (get_signers ks) s = (s', Ok tt) → nonce_effect ks s s'.
Proof.
  intros Hk Hl. unfold advance_nonce_account. destruct l as [|e l]; [done|].
  intros (s1 & v & (-> & a & Ha & Hst)%ka_nonce_state & H)%st_bind_Ok.
  destruct (convert_to_current v) as [|d]; [done|].
  apply st_bind_Ok in H as (s1 & [] & (Hs & -> & _)%ensureS_Ok & H). apply bool_decide_eq_true in Hs.
  apply st_bind_Ok in H as (s1 & [] & (Hne & -> & _)%ensureS_Ok & H). apply negb_true_iff, Z.eqb_neq in Hne.
  apply set_nonce in H as (a' & Ha' & Hf & ->). simplify_eq.
  eapply effect_state; [done..|]. apply nonce_advance; [done|by exists l|done].
Qed.

Lemma authorize_effect k p s s' :
  k ∈ ks → authorize_nonce_account k p (get_signers ks) s = (s', Ok tt) → nonce_effect ks s s'.
Proof.
  intros Hk. unfold authorize_nonce_account.
  intros (s1 & v & (-> & a & Ha & Hst)%ka_nonce_state & H)%st_bind_Ok.
  destruct (convert_to_current v) as [|d]; [done|].
  apply st_bind_Ok in H as (s1 & [] & (Hs & -> & _)%ensureS_Ok & H). apply bool_decide_eq_true in Hs.
  apply set_nonce in H as (a' & Ha' & Hf & ->). simplify_eq.
  eapply effect_state; [done..|]. by apply nonce_authorize.
Qed.

Lemma initialize_effect k p l rent s s' :
  k ∈ ks → sysvar_in ks s (list Entry) l → sysvar_in ks s Rent rent →
  initialize_nonce_account k p l rent s = (s', Ok tt) → nonce_effect ks s s'.
Proof.
  intros Hk Hl Hr. unfold initialize_nonce_account. destruct l as [|e l]; [done|].
  intros (s1 & v & (-> & a & Ha & Hst)%ka_nonce_state & H)%st_bind_Ok.
  destruct (convert_to_current v) as [|d]; [|done].
  apply st_bind_Ok in H as (s1 & len & (-> & a1 & Ha1 & ->)%ka_data_len_Ok & H).
  apply st_bind_Ok in H as (s1 & bal & (-> & a2 & Ha2 & ->)%ka_lamports_Ok & H).
  apply st_bind_Ok in H as (s1 & [] & (Hb & -> & _)%ensureS_Ok & H). apply negb_true_iff, Z.ltb_ge in Hb.
  apply set_nonce in H as (a' & Ha' & Hf & ->). simplify_eq.
  eapply effect_state; [done..|]. by eapply nonce_initialize; [..|exists l].
Qed.

(** The first part of a withdrawal. *)
Lemma withdraw_signer_effect k n l rent s s' p :
  sysvar_in ks s (list Entry) l → sysvar_in ks s Rent rent → 0 <= n →
  withdraw_signer k n l rent s = (s', Ok p) → p ∈ get_signers ks →
  ∃ a a1, s !! account k = Some a ∧ nonce_withdraw ks s (key k) a n a1 ∧ s' = <[account k := a1]> s.
Proof.
  intros Hl Hr Hn. unfold withdraw_signer.
  intros (s1 & v & (-> & a & Ha & Hst)%ka_nonce_state & H)%st_bind_Ok Hp.
  destruct (convert_to_current v) as [|d].
  - apply st_bind_Ok in H as (s1 & bal & (-> & a2 & Ha2 & ->)%ka_lamports_Ok & H).
    apply st_bind_Ok in H as (s1 & [] & (_ & -> & _)%ensureS_Ok & [= <- <-]).
    exists a, a. split_and!; [done|by apply withdraw_uninitialized|by rewrite insert_id].
  - apply st_bind_Ok in H as (s1 & bal & (-> & a2 & Ha2 & ->)%ka_lamports_Ok & H).
    rewrite Ha in Ha2. injection Ha2 as <-. exists a.
    apply st_bind_Ok in H as (s1 & [] & H & [= <- <-]). destruct (Z.eqb_spec n (lamports a)) as [->|Hne].
    + apply st_bind_Ok in H as (s2 & e & [-> He]%lift_inv & H).
      apply st_bind_Ok in H as (s2 & [] & (Hne & -> & _)%ensureS_Ok & H). apply negb_true_iff, Z.eqb_neq in Hne.
      apply set_nonce in H as (a' & Ha' & Hf & ->). rewrite Ha in Ha'. injection Ha' as <-.
      destruct l as [|e' l]; [done|]. injection He as ->.
      eexists. split_and!; [done| |reflexivity]. eapply (withdraw_all _ _ _ _ _ d e'); try done. by exists l.
    + apply st_bind_Ok in H as (s2 & len & (-> & a3 & Ha3 & ->)%ka_data_len_Ok & H).
      apply st_bind_Ok in H as (s2 & m & [-> Hm]%lift_inv & H).
      apply st_bind_Ok in H as (s2 & bal & (-> & a4 & Ha4 & ->)%ka_lamports_Ok & H).
      rewrite Ha in Ha3, Ha4. injection Ha3 as <-. injection Ha4 as <-.
      apply ensureS_Ok in H as (Hb & -> & _). apply negb_true_iff, Z.ltb_ge in Hb.
      symmetry in Hm. apply ok_or_Ok, checked_add64_Some in Hm as [-> _].
      exists a. split_and!; [done| |by rewrite insert_id]. by eapply withdraw_part.
Qed.

Lemma withdraw_effect k n to l rent s s' :
  k ∈ ks → to ∈ ks → sysvar_in ks s (list Entry) l → sysvar_in ks s Rent rent → 0 <= n →
  withdraw_nonce_account k n to l rent (get_signers ks) s = (s', Ok tt) → nonce_effect ks s s'.
Proof.
  intros Hk Ht Hl Hr Hn. unfold withdraw_nonce_account. intros (s1 & p & Hw & H)%st_bind_Ok.
  apply st_bind_Ok in H as (s2 & [] & (Hp & -> & _)%ensureS_Ok & H). apply bool_decide_eq_true in Hp.
  apply withdraw_signer_effect in Hw as (a & a1 & Ha & Hw & ->); [|done..].
  assert (Hlam : lamports a1 = lamports a) by (by inversion Hw).
  apply st_bind_Ok in H as (s2 & bal & (-> & a2 & Ha2 & ->)%ka_lamports_Ok & H).
  rewrite lookup_insert_eq in Ha2. injection Ha2 as <-.
  apply st_bind_Ok in H as (s2 & rest & [-> Hrest]%lift_inv & H).
  symmetry in Hrest. apply ok_or_Ok, checked_sub64_Some in Hrest as [-> Hle].
  apply st_bind_Ok in H as (s2 & [] & (a3 & a3' & Ha3 & [= <-] & ->)%update_account_Ok & H).
  rewrite lookup_insert_eq in Ha3. injection Ha3 as <-. rewrite insert_insert_eq, Hlam in H.
  apply st_bind_Ok in H as (s2 & tb & (-> & b & Hb & ->)%ka_lamports_Ok & H).
  apply st_bind_Ok in H as (s2 & sum & [-> Hsum]%lift_inv & H).
  symmetry in Hsum. apply ok_or_Ok, checked_add64_Some in Hsum as [-> _].
  apply update_account_Ok in H as (b' & b'' & Hb' & [= <-] & ->). simplify_eq.
  eapply (effect_withdraw _ _ k to a a1); [done..|lia|done|reflexivity|done].
Qed.

Lemma from_keyed_sysvar T `{!Codec T, !SysvarId T} k (x : T) s s' :
  k ∈ ks → from_keyed_account T k s = (s', Ok x) → s' = s ∧ sysvar_in ks s T x.
Proof.
  intros Hk (s1 & [] & (Hid & -> & _)%ensureS_Ok & H)%st_bind_Ok. apply bool_decide_eq_true in Hid.
  apply st_bind_Ok in H as (s1 & a & [-> Ha]%try_account_ref_Ok & [-> Hx]%lift_inv).
  symmetry in Hx. apply ok_or_Ok in Hx. split; [done|]. by exists k, a.
Qed.
End steps.

(** Instructions hold 64-bit amounts. *)
#[export] Instance SystemInstruction_wf : Wf SystemInstruction := λ i,
  match i with
  | CreateAccount l n _ | CreateAccountWithSeed _ _ l n _ => is_u64 l ∧ is_u64 n
  | Transfer l | TransferWithSeed l _ _ | WithdrawNonceAccount l => is_u64 l
  | Allocate n | AllocateWithSeed _ _ n _ => is_u64 n
  | _ => True
  end.

(** Reads the keyed accounts of an instruction off its run. *)
Ltac sys_inv :=
  repeat match goal with
  | H : (_ ≫= _) _ = (_, Ok _) |- _ => apply st_bind_Ok in H as (? & ? & ? & H)
  | H : keyed_account_at_index _ _ _ = (_, Ok _) |- _ =>
      apply keyed_account_at_index_Ok in H as [-> H]; apply list_elem_of_lookup_2 in H
  | H : lift _ _ = (_, Ok _) |- _ => apply lift_inv in H as [-> H]; symmetry in H
  | H : from_keyed_account _ _ _ = (_, Ok _) |- _ => eapply from_keyed_sysvar in H as [-> H]; [|eassumption]
  end.

Lemma process_instruction_step `{!CodecOk SystemInstruction} ic d s s' :
  process_instruction ic d s = (s', Ok tt) →
  rtc (sys_step (get_keyed_accounts ic)) s s' ∨ nonce_effect (get_keyed_accounts ic) s s'.
Proof.
  unfold process_instruction. intros (s1 & i & [-> Hi]%lift_inv & H)%st_bind_Ok. symmetry in Hi.
  apply limited_deserialize_wf in Hi. destruct i; cbn in Hi; unfold is_u64 in Hi; sys_inv.
  all: first
    [ left; eapply create_account_step; [..|exact H]; [eassumption..|lia|eassumption]
    | left; eapply assign_step; [..|exact H]; eassumption
    | left; eapply transfer_step; [..|exact H]; [eassumption..|lia]
    | right; eapply advance_effect; [..|exact H]; eassumption
    | right; eapply withdraw_effect; [..|exact H]; [eassumption..|lia]
    | right; eapply initialize_effect; [..|exact H]; eassumption
    | right; eapply authorize_effect; [..|exact H]; eassumption
    | left; apply rtc_once; eapply allocate_step; [..|exact H]; eassumption
    | left; eapply allocate_and_assign_step; [..|exact H]; eassumption
    | left; eapply transfer_with_seed_step; [..|exact H]; [eassumption..|lia] ].
Qed.

(** ** Lamports *)

Lemma sys_step_total ks s s' : sys_step ks s s' → total_lamports s' = total_lamports s.
Proof.
  destruct 1 as [s k a n _ Ha _ _ _|s k a o _ Ha _|s s1 from to a b n _ _ Ha _ _ Hn -> Hb].
  1,2: by eapply total_lamports_same.
  rewrite (total_lamports_insert _ _ _ _ Hb), (total_lamports_insert _ _ _ _ Ha). cbn. lia.
Qed.

Lemma nonce_effect_total ks s s' : nonce_effect ks s s' → total_lamports s' = total_lamports s.
Proof.
  destruct 1 as [k a st st' _ Ha _ _ _|k to a a1 b n s1 _ _ Ha Hn Hw -> Hb].
  - by eapply total_lamports_same.
  - rewrite (total_lamports_insert _ _ _ _ Hb), (total_lamports_insert _ _ _ _ Ha). cbn. lia.
Qed.

(** ** Authority *)

(** The account gained lamports at most. *)
Definition quiet (a a' : Account) : Prop :=
  lamports a <= lamports a' ∧ owner a' = owner a ∧ data a' = data a.

Lemma quiet_refl a : quiet a a.
Proof. unfold quiet. split_and!; [lia|done..]. Qed.
#[local] Hint Resolve quiet_refl : core.

Definition acted (ks : list KeyedAccount) s s' : Prop :=
  dom s' = dom s ∧
  ∀ l a a', s !! l = Some a → s' !! l = Some a' →
    executable a' = executable a ∧ rent_epoch a' = rent_epoch a ∧
    (quiet a a' ∨ ∃ k, k ∈ ks ∧ account k = l ∧ signed ks k).

#[local] Instance acted_preorder ks : PreOrder (acted ks).
Proof.
  split.
  - intros s. split; [done|]. intros l a a' ? ?. simplify_eq. auto.
  - intros s s1 s2 [D1 H1] [D2 H2]. split; [congruence|]. intros l a a2 Ha Ha2.
    destruct (s1 !! l) as [a1|] eqn:E.
    + destruct (H1 l a a1 Ha E) as (? & ? & Q1), (H2 l a1 a2 E Ha2) as (? & ? & Q2).
      split_and!; [congruence..|]. unfold quiet in *. destruct Q1 as [(? & ? & ?)|]; [|by right].
      destruct Q2 as [(? & ? & ?)|]; [|by right]. left. split_and!; congruence || lia.
    + apply not_elem_of_dom in E. apply elem_of_dom_2 in Ha. rewrite D1 in E. set_solver.
Qed.

Lemma acted_insert ks s l a a' :
  s !! l = Some a → executable a' = executable a → rent_epoch a' = rent_epoch a →
  (quiet a a' ∨ ∃ k, k ∈ ks ∧ account k = l ∧ signed ks k) → acted ks s (<[l := a']> s).
Proof.
  intros Ha He Hr Hq. split.
  - rewrite dom_insert_L. apply elem_of_dom_2 in Ha. set_solver.
  - intros l' b b' Hb. rewrite lookup_insert. case_decide; intros Hb'; simplify_eq; [auto|].
    auto.
Qed.

Lemma sys_step_acted ks s s' : sys_step ks s s' → acted ks s s'.
Proof.
  destruct 1 as [s k a n Hk Ha Hs _ _|s k a o Hk Ha Hs|s s1 from to a b n Hf Ht Ha Hs _ Hn -> Hb].
  1,2: apply (acted_insert ks _ _ a); eauto.
  transitivity (<[account from := set_lamports (lamports a - n) a]> s); [eapply acted_insert; eauto|].
  eapply acted_insert; [exact Hb|done..|]. left. unfold quiet. cbn. split_and!; [lia|done..].
Qed.

(** The signature of the account's nonce authority. *)
Definition nonce_signed (ks : list KeyedAccount) (a : Account) : Prop :=
  ∃ d, nonce_state a = Some (Initialized d) ∧ authority d ∈ get_signers ks.

Lemma nonce_withdraw_signed ks s p a n a1 :
  nonce_withdraw ks s p a n a1 →
  (p ∈ get_signers ks ∨ nonce_signed ks a) ∧ executable a1 = executable a ∧ rent_epoch a1 = rent_epoch a.
Proof. unfold nonce_signed. destruct 1; eauto 10. Qed.

(** A successful system instruction creates and destroys no lamports,
    whatever accounts alias. *)
Theorem system_lamports_conserved `{!CodecOk SystemInstruction} ic d s s' :
  process_instruction ic d s = (s', Ok tt) → total_lamports s' = total_lamports s.
Proof.
  intros [Hr|Hn]%process_instruction_step; [|by eapply nonce_effect_total].
  induction Hr as [|s s1 s2 H1 _ IH]; [done|]. by rewrite IH, (sys_step_total _ _ _ H1).
Qed.

(** C33. What a successful system instruction did to an account: it left it
    alone but for lamports added; or the account's key signed, or the base its
    key is derived from, or its nonce authority; or it made an uninitialized
    nonce account an initialized one, changing nothing but its data.  The
    executable flag and the rent epoch never change. *)
Theorem system_authority `{!CodecOk SystemInstruction} ic d s s' l a a' :
  process_instruction ic d s = (s', Ok tt) → s !! l = Some a → s' !! l = Some a' →
  let ks := get_keyed_accounts ic in
  executable a' = executable a ∧ rent_epoch a' = rent_epoch a ∧
  (quiet a a' ∨ (∃ k, k ∈ ks ∧ account k = l ∧ signed ks k) ∨ nonce_signed ks a ∨
   (nonce_state a = Some Uninitialized ∧ lamports a' = lamports a ∧ owner a' = owner a)).
Proof.
  intros H%process_instruction_step Ha Ha'. cbn zeta. revert H. generalize (get_keyed_accounts ic) as ks.
  intros ks [Hr|Hn].
  - assert (Hact : acted ks s s').
    { clear Ha Ha'. induction Hr as [|s s1 s2 H1 _ IH]; [done|]. etrans; [by apply sys_step_acted|done]. }
    destruct Hact as [_ Hact]. destruct (Hact l a a' Ha Ha') as (? & ? & [?|?]); auto.
  - destruct Hn as [k b st st' Hk Hb Hst _ Hstep|k to b b1 c n s1 Hk Ht Hb Hn Hw -> Hc].
    + rewrite lookup_insert in Ha'. case_decide as E; simplify_eq; [|auto].
      split_and!; [done..|]. unfold nonce_signed. inversion Hstep; subst; eauto 10.
    + destruct (nonce_withdraw_signed _ _ _ _ _ _ Hw) as (Hs & He1 & Hr1).
      assert (HL : l = account k → (∃ k, k ∈ ks ∧ account k = l ∧ signed ks k) ∨ nonce_signed ks a).
      { intros ->. simplify_eq. destruct Hs as [Hs|Hs]; [left; exists k; split_and!; [done..|by left]|auto]. }
      rewrite lookup_insert in Ha'. case_decide as Et; simplify_eq.
      * rewrite lookup_insert in Hc. case_decide as Ek; simplify_eq; cbn; [|].
        { rewrite Ek, Ha in Hb. simplify_eq. destruct (HL (eq_sym Ek)); auto 10. }
        split_and!; [done..|]. left. unfold quiet. cbn. split_and!; [lia|done..].
      * rewrite lookup_insert in Ha'. case_decide as Ek; simplify_eq; [|auto]. cbn. destruct (HL eq_refl); auto 10.
Qed.

(** ** Nonce accounts stay funded *)

#[export] Instance Versions_wf : Wf Versions := λ v,
  match convert_to_current v with
  | Uninitialized => True
  | Initialized d => is_key (authority d) ∧ is_key (data_blockhash d) ∧
                     is_u64 (fc_lamports_per_signature (data_fee_calculator d))
  end.

(** An account whose data is an initialized nonce holds the rent reserve. *)
Definition nonce_backed (rent : Rent) (a : Account) : Prop :=
  ∀ d, nonce_state a = Some (Initialized d) → data a ≠ [] →
    minimum_balance rent (length (data a)) <= lamports a.

Lemma write_nonce_length st a : fits st a → length (data (write_nonce st a)) = length (data a).
Proof. unfold fits, write_nonce. cbn. rewrite length_app, length_drop. lia. Qed.

Lemma write_nonce_empty st a : fits st a → data (write_nonce st a) ≠ [] → data a ≠ [].
Proof. intros Hf Hn E. apply Hn, nil_length_inv. by rewrite write_nonce_length, E. Qed.

Section backed.
Context `{!CodecOk Versions}.

Lemma write_nonce_state st a : wf (new_current st) → nonce_state (write_nonce st a) = Some st.
Proof. intros Hw. unfold nonce_state, write_nonce, deserialize. cbn. by rewrite bincode_roundtrip. Qed.

(** Zeroed bytes are an uninitialized nonce, whatever else they may be. *)
Context (zeroed_uninitialized : ∀ n d,
  deserialize (T:=Versions) (replicate n x00) ≠ Some (Current (Initialized d))).
Context (rent : Rent).

Lemma nonce_backed_insert s l a :
  map_Forall (λ _, nonce_backed rent) s → nonce_backed rent a →
  map_Forall (λ _, nonce_backed rent) (<[l := a]> s).
Proof. intros Hs Ha. by apply map_Forall_insert_2. Qed.

Lemma nonce_backed_more a n : nonce_backed rent a → 0 <= n → nonce_backed rent (set_lamports (lamports a + n) a).
Proof. intros Ha Hn d Hd He. specialize (Ha d Hd He). cbn in *. lia. Qed.

Lemma sys_step_backed ks s s' :
  sys_step ks s s' → map_Forall (λ _, nonce_backed rent) s → map_Forall (λ _, nonce_backed rent) s'.
Proof.
  destruct 1 as [s k a n _ Ha _ _ _|s k a o _ Ha _|s s1 from to a b n _ _ Ha _ He Hn -> Hb]; intros Hs.
  - apply nonce_backed_insert; [done|]. intros d Hd _. unfold nonce_state in Hd. cbn in Hd.
    apply fmap_Some in Hd as ([st] & Hd & E). cbn in E. subst st. by apply zeroed_uninitialized in Hd.
  - apply nonce_backed_insert; [done|]. apply (Hs _ _ Ha).
  - assert (H1 : map_Forall (λ _, nonce_backed rent) (<[account from := set_lamports (lamports a - n) a]> s)).
    { apply nonce_backed_insert; [done|]. intros d _ Hd. by cbn in Hd. }
    apply nonce_backed_insert; [done|]. apply nonce_backed_more; [apply (H1 _ _ Hb)|lia].
Qed.

Lemma nonce_effect_backed ks s s' :
  (∀ r, sysvar_in ks s Rent r → r = rent) → nonce_effect ks s s' →
  map_Forall (λ _, nonce_backed rent) s → map_Forall (λ _, nonce_backed rent) s'.
Proof.
  intros Hr [k a st st' _ Ha Hst Hfit Hstep|k to a a1 b n s1 _ _ Ha Hn Hw -> Hb] Hs.
  - apply nonce_backed_insert; [done|]. intros d _ Hd%write_nonce_empty; [|done].
    rewrite write_nonce_length by done. cbn. pose proof (Hs _ _ Ha) as Hba.
    destruct Hstep as [d0 e|d0 k0|k0 e r Hrent Hmin]; [by eapply Hba..|]. by rewrite <-(Hr r Hrent).
  - assert (H1 : map_Forall (λ _, nonce_backed rent) (<[account k := set_lamports (lamports a - n) a1]> s)).
    { apply nonce_backed_insert; [done|]. intros d Hd Hne. destruct Hw as [Hu|d0 e Hi|d0 r Hi _ Hrent Hmin]; cbn in *.
      - change (nonce_state a = Some (Initialized d)) in Hd. congruence.
      - change (nonce_state (write_nonce Uninitialized a) = Some (Initialized d)) in Hd.
        by rewrite write_nonce_state in Hd.
      - rewrite (Hr r Hrent) in Hmin. lia. }
    apply nonce_backed_insert; [done|]. apply nonce_backed_more; [apply (H1 _ _ Hb)|lia].
Qed.

(** Nonce accounts stay funded: with the rent sysvar at hand, if every
    account whose data is an initialized nonce holds the rent reserve for its
    size, then so it is after every successful system instruction. *)
Theorem nonce_accounts_backed `{!CodecOk SystemInstruction} ic d s s' :
  (∀ r, sysvar_in (get_keyed_accounts ic) s Rent r → r = rent) →
  process_instruction ic d s = (s', Ok tt) →
  map_Forall (λ _, nonce_backed rent) s → map_Forall (λ _, nonce_backed rent) s'.
Proof.
  intros Hr [Hs|Hn]%process_instruction_step; [|by eapply nonce_effect_backed].
  clear Hr. induction Hs as [|s s1 s2 H1 _ IH]; [done|]. intros. by eapply IH, sys_step_backed.
Qed.
End backed.

(** ** Nonces are used once *)

Definition entry_ok (e : Entry) : Prop :=
  is_key (blockhash e) ∧ is_u64 (fc_lamports_per_signature (fee_calculator e)).

Lemma verify_nonce_account_spec a h :
  verify_nonce_account a h = true ↔
  owner a = system_program_id ∧ ∃ d, nonce_state a = Some (Initialized d) ∧ h = data_blockhash d.
Proof.
  unfold verify_nonce_account, nonce_state, account_state. destruct (Z.eqb_spec (owner a) system_program_id); cbn.
  - destruct (deserialize (data a)) as [[[|d]]|]; cbn; [naive_solver| |naive_solver].
    rewrite Z.eqb_eq. naive_solver.
  - naive_solver.
Qed.

(** Advancing a nonce consumes it.  If it succeeds, the authority signed;
    afterwards the account holds the newest blockhash with its fee and the old
    nonce no longer verifies; the balance is untouched; and until a newer
    blockhash appears the nonce cannot be advanced again. *)
Theorem nonce_advances_once `{!CodecOk Versions} k recent signers s s' :
  Forall entry_ok recent → advance_nonce_account k recent signers s = (s', Ok tt) →
  ∃ a a' d e, s !! account k = Some a ∧ s' = <[account k := a']> s ∧ head recent = Some e ∧
    nonce_state a = Some (Initialized d) ∧ authority d ∈ signers ∧
    nonce_state a' = Some (Initialized (mkData (authority d) (blockhash e) (fee_calculator e))) ∧
    lamports a' = lamports a ∧ owner a' = owner a ∧
    verify_nonce_account a' (data_blockhash d) = false ∧
    advance_nonce_account k recent signers s' = (s', Err (NonceError_into NotExpired)).
Proof.
  intros Hok. unfold advance_nonce_account. destruct recent as [|e l]; [done|].
  apply Forall_cons in Hok as [[He1 He2] _].
  intros (s1 & v & Hv & H)%st_bind_Ok. pose proof Hv as Hwf%ka_state_wf.
  apply ka_nonce_state in Hv as (-> & a & Ha & Hst).
  destruct v as [[|d]]; cbn [convert_to_current] in *; [done|]. destruct Hwf as (Hw1 & Hw2 & Hw3).
  apply st_bind_Ok in H as (s1 & [] & (Hs & -> & _)%ensureS_Ok & H).
  apply st_bind_Ok in H as (s1 & [] & (Hne & -> & _)%ensureS_Ok & H). apply negb_true_iff, Z.eqb_neq in Hne.
  set (d' := mkData (authority d) (blockhash e) (fee_calculator e)) in *.
  apply set_nonce in H as (a' & Ha' & Hf & ->). rewrite Ha in Ha'. injection Ha' as <-.
  assert (Hst' : nonce_state (write_nonce (Initialized d') a) = Some (Initialized d'))
    by (by apply write_nonce_state; split_and!).
  exists a, (write_nonce (Initialized d') a), d, e. split_and!; [done|done|done|done|by eapply bool_decide_eq_true_1|done|done|done| |].
  - apply not_true_iff_false. rewrite verify_nonce_account_spec, Hst'. intros (_ & d0 & [= <-] & E). cbn in E. congruence.
  - assert (Hr : ka_state Versions k (<[account k := write_nonce (Initialized d') a]> s) =
                 (<[account k := write_nonce (Initialized d') a]> s, Ok (Current (Initialized d')))).
    { apply ka_state_Ok. split; [done|]. eexists. split; [apply lookup_insert_eq|].
      unfold nonce_state in Hst'. apply fmap_Some in Hst' as ([st] & -> & E). cbn in E. by subst. }
    unfold mbind, st_bind. rewrite Hr. cbn. unfold ensureS, lift, ensure. rewrite Hs, Z.eqb_refl. done.
Qed.
End props.

(** ** A concrete nonce account

    Key 10 holds a nonce with authority 11 and blockhash 100; blockhash 101 is
    the newest one.  Key 30 receives what is withdrawn. *)

Module example.
#[export] Instance SystemInstruction_wf_dec (i : SystemInstruction) : Decision (wf i).
Proof. destruct i; cbn; apply _. Defined.
#[export] Instance Versions_wf_dec (v : Versions) : Decision (wf v).
Proof. destruct v as [[|d]]; cbn; apply _. Defined.

#[export] Instance Versions_serial : Serial Versions.
Proof.
  refine (inj_serial' (A:=option (Z * Z * Z))
    (λ v, match convert_to_current v with
          | Uninitialized => None
          | Initialized d => Some (authority d, data_blockhash d, fc_lamports_per_signature (data_fee_calculator d))
          end)
    (λ o, Current match o with
                  | None => Uninitialized
                  | Some (a, h, f) => Initialized (mkData a h (mkFeeCalculator f))
                  end) _).
  abstract (by intros [[|[a h [f]]]]).
Defined.

#[export] Instance Entry_serial : Serial Entry.
Proof.
  refine (inj_serial' (λ e, (blockhash e, fc_lamports_per_signature (fee_calculator e)))
    (λ x, mkEntry x.1 (mkFeeCalculator x.2)) _).
  abstract (by intros [h [f]]).
Defined.

#[export] Instance SystemInstruction_serial : Serial SystemInstruction.
Proof.
  refine (inj_serial (A:=Z * (Z * Z * Z * Z) * list byte)
    (λ i, match i with
          | CreateAccount l n o => (0, (l, n, o, 0), [])
          | Assign o => (1, (o, 0, 0, 0), [])
          | Transfer l => (2, (l, 0, 0, 0), [])
          | CreateAccountWithSeed b seed l n o => (3, (b, l, n, o), seed)
          | AdvanceNonceAccount => (4, (0, 0, 0, 0), [])
          | WithdrawNonceAccount l => (5, (l, 0, 0, 0), [])
          | InitializeNonceAccount k => (6, (k, 0, 0, 0), [])
          | AuthorizeNonceAccount k => (7, (k, 0, 0, 0), [])
          | Allocate n => (8, (n, 0, 0, 0), [])
          | AllocateWithSeed b seed n o => (9, (b, n, o, 0), seed)
          | AssignWithSeed b seed o => (10, (b, o, 0, 0), seed)
          | TransferWithSeed l seed o => (11, (l, o, 0, 0), seed)
          end)
    (λ '(t, (a, b, c, d), seed),
       match t with
       | 0 => Some (CreateAccount a b c)
       | 1 => Some (Assign a)
       | 2 => Some (Transfer a)
       | 3 => Some (CreateAccountWithSeed a seed b c d)
       | 4 => Some AdvanceNonceAccount
       | 5 => Some (WithdrawNonceAccount a)
       | 6 => Some (InitializeNonceAccount a)
       | 7 => Some (AuthorizeNonceAccount a)
       | 8 => Some (Allocate a)
       | 9 => Some (AllocateWithSeed a seed b c)
       | 10 => Some (AssignWithSeed a seed b)
       | 11 => Some (TransferWithSeed a seed b)
       | _ => None
       end) _).
  abstract (by intros []).
Defined.

#[local] Instance entries_wf : Wf (list Entry) := λ _, True.
#[export] Instance versions_codec : Codec Versions := serial_codec _.
#[export] Instance entries_codec : Codec (list Entry) := serial_codec _.
#[export] Instance rent_codec : Codec Rent := Build_Codec Rent (λ _, []) (λ l, Some (Rent_default, l)).
#[export] Instance instruction_codec : Codec SystemInstruction := serial_codec _.
#[export] Instance versions_ok : CodecOk Versions := serial_codec_ok _.
#[export] Instance instruction_ok : CodecOk SystemInstruction := serial_codec_ok _.
#[export] Instance sha : Sha256 := λ _, 0.

Definition data0 : Data := mkData 11 100 (mkFeeCalculator 5000).
Definition nonce0 : Account :=
  mkAccount 2000000 (bincode_ser (new_current (Initialized data0)) ++ replicate 20 x00) system_program_id false 0.
Definition recent : list Entry := [mkEntry 101 (mkFeeCalculator 6000); mkEntry 100 (mkFeeCalculator 5000)].
Definition store : gmap nat Account :=
  {[ 0%nat := nonce0; 1%nat := mkAccount 7 [] system_program_id false 0;
     2%nat := mkAccount 1 (bincode_ser recent) 0 false 0; 3%nat := mkAccount 1 [] 0 false 0 ]}.

Definition ks : list KeyedAccount :=
  [mkKeyed false true 10 0; mkKeyed false true 30 1; mkKeyed false false (sysvar_id (T:=list Entry)) 2;
   mkKeyed false false sysvar_rent_id 3; mkKeyed true false 11 1].
Definition ic : InvokeContext := mkInvokeContext ks (λ _, true) (λ _, None).
Definition withdrawn := process_instruction ic (bincode_ser (WithdrawNonceAccount 5)) store.

Lemma withdrawn_ok : withdrawn = (withdrawn.1, Ok tt).
Proof. apply injective_projections; [done|]. vm_compute. reflexivity. Qed.

Lemma system_lamports_conserved_witness : withdrawn.2 = Ok tt ∧ total_lamports withdrawn.1 = 2000009.
Proof.
  split; [vm_compute; reflexivity|].
  rewrite (system_lamports_conserved ic _ store _ withdrawn_ok). vm_compute. reflexivity.
Defined.

Lemma system_authority_witness :
  ∃ a', withdrawn.1 !! 0%nat = Some a' ∧ lamports a' = 1999995 ∧
    ((∃ k, k ∈ ks ∧ account k = 0%nat ∧ signed ks k) ∨ nonce_signed ks nonce0).
Proof.
  exists (set_lamports 1999995 nonce0).
  split; [vm_compute; reflexivity|]. split; [reflexivity|].
  assert (H : withdrawn.1 !! 0%nat = Some (set_lamports 1999995 nonce0)) by (vm_compute; reflexivity).
  destruct (system_authority ic _ store _ 0%nat nonce0 _ withdrawn_ok eq_refl H) as (_ & _ & [Hq|[Hs|[Hn|Hu]]]).
  - destruct Hq as [Hq _]. exfalso. apply Hq. reflexivity.
  - by left.
  - by right.
  - exfalso. destruct Hu as [Hu _]. revert Hu. vm_compute. discriminate.
Defined.

Lemma nonce_accounts_backed_witness :
  withdrawn.2 = Ok tt ∧ map_Forall (λ _, nonce_backed Rent_default) withdrawn.1.
Proof.
  split; [vm_compute; reflexivity|].
  refine (nonce_accounts_backed _ Rent_default ic _ store _ _ withdrawn_ok _).
  - intros [|n] d; cbn; discriminate.
  - intros r (k & a & _ & _ & _ & Hr). cbn in Hr. by injection Hr.
  - intros l a Ha d Hd He. revert Ha. unfold store. rewrite !lookup_insert_Some, lookup_singleton_Some.
    intros [[_ <-]|[_ [[_ <-]|[_ [[_ <-]|[_ [_ <-]]]]]]]; [vm_compute; discriminate| |discriminate Hd|];
      by contradiction He.
Defined.

Lemma nonce_advances_once_witness :
  let s' := (advance_nonce_account (mkKeyed false true 10 0) recent [11] store).1 in
  nonce_state <$> s' !! 0%nat = Some (Some (Initialized (mkData 11 101 (mkFeeCalculator 6000)))) ∧
  (advance_nonce_account (mkKeyed false true 10 0) recent [11] s').2 = Err (NonceError_into NotExpired).
Proof.
  intros s'. split; [vm_compute; reflexivity|].
  assert (H : advance_nonce_account (mkKeyed false true 10 0) recent [11] store = (s', Ok tt))
    by (apply injective_projections; [done|]; vm_compute; reflexivity).
  destruct (nonce_advances_once (mkKeyed false true 10 0) recent [11] store s') as (a & a' & d & e & HH).
  - apply (bool_decide_unpack (Forall (λ e, is_key (blockhash e) ∧ is_u64 (fc_lamports_per_signature (fee_calculator e))) _)).
    vm_compute. exact I.
  - exact H.
  - destruct HH as (_ & _ & _ & _ & _ & _ & _ & _ & _ & ->). reflexivity.
Defined.
End example.
End system_props.
