(* ===== verification/Transaction.v ===== *)
(** * Transactions

    Models the transaction type of [sdk/src/transaction.rs], its sanitization
    and the recognition of durable nonces, [sdk/src/sanitized_transaction.rs],
    and the compute budget of a transaction, [sdk/src/compute_budget.rs].
    Signing and the verification of signatures are not modelled; the hash of
    the message comes with the sanitized transaction. *)

From S2P Require Import Prelude F64 Account Features Sysvar Message Fees System.
From Stdlib Require Import Strings.Byte.

Module transaction.
Import message system_program nonce.

Inductive TransactionError : Type :=
  | AccountInUse
  | AccountLoadedTwice
  | AccountNotFound
  | ProgramAccountNotFound
  | InsufficientFundsForFee
  | InvalidAccountForFee
  | AlreadyProcessed
  | BlockhashNotFound
  | TxInstructionError (index : Z) (e : InstructionError)
  | CallChainTooDeep
  | MissingSignatureForFee
  | InvalidAccountIndex
  | SignatureFailure
  | InvalidProgramForExecution
  | SanitizeFailure
  | ClusterMaintenance
  | AccountBorrowOutstanding.

(** [transaction::Result]; [Panic] stands for no value. *)
Abbreviation Result := (res TransactionError) (only parsing).

Abbreviation Signature := (list byte) (only parsing).

Record Transaction : Type := mkTransaction {
  signatures : list Signature;
  tx_message : Message;
}.

Definition Transaction_sanitize (tx : Transaction) : res SanitizeError unit :=
  ensure (negb (Z.of_nat (length (signatures tx)) <? num_required_signatures (header (tx_message tx)))) IndexOutOfBounds;;
  ensure (negb (bool_decide (length (account_keys (tx_message tx)) < length (signatures tx))%nat)) IndexOutOfBounds;;
  sanitize (tx_message tx).

Record SanitizedTransaction : Type := mkSanitized {
  st_transaction : Transaction;
  message_hash : Hash;
}.
Definition st_message (tx : SanitizedTransaction) : Message := tx_message (st_transaction tx).
Definition st_signatures (tx : SanitizedTransaction) : list Signature := signatures (st_transaction tx).

Fixpoint has_duplicates (xs : list Pubkey) : bool :=
  match xs with
  | [] => false
  | x :: xs' => bool_decide (x ∈ xs') || has_duplicates xs'
  end.

Definition try_create (tx : Transaction) (hash : Hash) : Result SanitizedTransaction :=
  map_err (λ _, SanitizeFailure) (Transaction_sanitize tx);;
  ensure (negb (has_duplicates (account_keys (tx_message tx)))) AccountLoadedTwice;;
  Ok (mkSanitized tx hash).

Section nonces.
Context `{!Codec SystemInstruction}.

Definition uses_durable_nonce (m : Message) : option CompiledInstruction :=
  match instructions m with
  | [] => None
  | maybe_ix :: _ =>
      if match account_keys m !! program_id_index maybe_ix with
         | Some program_id => program_id =? system_program_id
         | None => false
         end &&
         match limited_deserialize (T:=SystemInstruction) (ci_data maybe_ix) with
         | Ok AdvanceNonceAccount => true
         | _ => false
         end
      then Some maybe_ix else None
  end.

Definition get_nonce_pubkey_from_instruction (ix : CompiledInstruction) (m : Message) : option Pubkey :=
  idx ← ci_accounts ix !! 0%nat; account_keys m !! idx.
End nonces.

(** ** The compute budget *)

Definition MAX_UNITS : Z := 1000000.
Definition DEFAULT_UNITS : Z := 200000.

(** [borsh] decodes the request of a compute budget instruction. *)
Definition request_units (borsh : list byte → option Z) (m : Message) (max_units : Z) (ci : CompiledInstruction)
    : Result Z :=
  let error := TxInstructionError 0 InvalidInstructionData in
  program_id ← unwrap (ci_program_id ci (account_keys m));
  if program_id =? compute_budget_program_id then
    units ← ok_or (borsh (ci_data ci)) error;
    ensure (negb (MAX_UNITS <? units)) error;;
    Ok units
  else Ok max_units.

(** The units a transaction may use. *)
Definition process_transaction (borsh : list byte → option Z) (m : Message) (max_units : Z) : Result Z :=
  foldM (request_units borsh m) max_units (take 2 (instructions m)).

(** ** What sanitizing gives *)

Lemma has_duplicates_NoDup xs : has_duplicates xs = false ↔ NoDup xs.
Proof.
  induction xs as [|x xs IH]; cbn; [split; [constructor|done]|].
  rewrite orb_false_iff, bool_decide_eq_false, IH, NoDup_cons. done.
Qed.

Lemma try_create_Ok tx h stx :
  try_create tx h = Ok stx →
  stx = mkSanitized tx h ∧ NoDup (account_keys (tx_message tx)) ∧ sanitize (tx_message tx) = Ok tt ∧
  num_required_signatures (header (tx_message tx)) <= Z.of_nat (length (signatures tx)).
Proof.
  unfold try_create, Transaction_sanitize. intros H.
  apply res_bind_Ok in H as ([] & Hs & H). apply res_bind_Ok in H as ([] & Hd & [= <-]).
  unfold ensure in *. destruct (negb (_ <? _)) eqn:H1; [|done]. destruct (negb (bool_decide _)); [|done]. cbn in Hs.
  destruct (sanitize (tx_message tx)) as [[]|e|]; [|done..]. destruct (has_duplicates _) eqn:Hdup; [done|].
  bool_prop. split_and!; [done|by apply has_duplicates_NoDup|done|lia].
Qed.
End transaction.
