(* ===== verification/Poh.v ===== *)
(** * Proof of history and entries

    Models [entry/src/poh.rs], the hash chain that orders the entries of a
    block, and [entry/src/entry.rs], the entries and the routines that verify
    a list of them: on the processor, in the lanes of the SIMD library and on
    the GPU.  The two libraries are parameters.  The wall clock is an argument
    of what reads it. *)

From S2P Require Import Prelude F64 Account Features Sysvar Message MessageProps MerkleTree Fees System Transaction.
From Stdlib Require Import Strings.Byte.

(** [poh_verify_many_simd_*] and [poh_verify_many]: the hashes after the given
    numbers of rounds. *)
Class PohLibs : Type := {
  poh_verify_many_simd : list Hash → list Z → list Hash;
  poh_verify_many : list Hash → list Z → list Hash;
}.

Module poh.
Import message transaction merkle_tree.

Section model.
Context `{HS : !Sha256}.

(** ** The hash chain *)

Record Poh : Type := mkPoh {
  poh_hash : Hash;
  num_hashes : Z;
  hashes_per_tick : Z;
  remaining_hashes : Z;
  ticks_per_slot : Z;
  tick_number : Z;
  slot_start_time : Z;
}.

Record PohEntry : Type := mkPohEntry {
  pe_num_hashes : Z;
  pe_hash : Hash;
}.

Definition hash1 (h : Hash) : Hash := hashv [key_bytes h].
Definition hash_mixin (h mixin : Hash) : Hash := hashv [key_bytes h; key_bytes mixin].

Definition new_with_slot_info (now : Z) (hash : Hash) (hashes_per_tick : option Z) (ticks_per_slot tick_number : Z)
    : res Empty_set Poh :=
  let hashes_per_tick := default u64_max hashes_per_tick in
  if 1 <? hashes_per_tick
  then Ok (mkPoh hash 0 hashes_per_tick hashes_per_tick ticks_per_slot tick_number now)
  else Panic.

Definition Poh_new (now : Z) (hash : Hash) (hashes_per_tick : option Z) : res Empty_set Poh :=
  new_with_slot_info now hash hashes_per_tick 0 0.

Definition reset (now : Z) (hash : Hash) (hashes_per_tick : option Z) : ST Poh Empty_set unit :=
  p ← get;
  p' ← lift (new_with_slot_info now hash hashes_per_tick (ticks_per_slot p) 0);
  put p'.

Definition target_poh_time (target_ns_per_tick : Z) (p : Poh) : res Empty_set Z :=
  if 0 <? hashes_per_tick p then
    let offset_tick_ns := mul64 target_ns_per_tick (tick_number p) in
    let offset_ns := mul64 target_ns_per_tick (num_hashes p) / hashes_per_tick p in
    Ok (slot_start_time p + add64 offset_ns offset_tick_ns)
  else Panic.

Definition hash (max_num_hashes : Z) : ST Poh Empty_set bool := λ p,
  let n := Z.min (sub64 (remaining_hashes p) 1) max_num_hashes in
  let p' := mkPoh (Nat.iter (Z.to_nat n) hash1 (poh_hash p)) (add64 (num_hashes p) n) (hashes_per_tick p)
              (sub64 (remaining_hashes p) n) (ticks_per_slot p) (tick_number p) (slot_start_time p) in
  if 0 <? remaining_hashes p' then (p', Ok (remaining_hashes p' =? 1)) else (p', Panic).

Definition record (mixin : Hash) (p : Poh) : Poh * option PohEntry :=
  if remaining_hashes p =? 1 then (p, None)
  else
    let h := hash_mixin (poh_hash p) mixin in
    (mkPoh h 0 (hashes_per_tick p) (sub64 (remaining_hashes p) 1) (ticks_per_slot p) (tick_number p) (slot_start_time p),
     Some (mkPohEntry (add64 (num_hashes p) 1) h)).

Definition tick (p : Poh) : Poh * option PohEntry :=
  let h := hash1 (poh_hash p) in
  let n := add64 (num_hashes p) 1 in
  let r := sub64 (remaining_hashes p) 1 in
  if (hashes_per_tick p <? u64_max) && negb (r =? 0) then
    (mkPoh h n (hashes_per_tick p) r (ticks_per_slot p) (tick_number p) (slot_start_time p), None)
  else
    (mkPoh h 0 (hashes_per_tick p) (hashes_per_tick p) (ticks_per_slot p) (add64 (tick_number p) 1) (slot_start_time p),
     Some (mkPohEntry n h)).

(** ** Entries *)

Record Entry : Type := mkEntry {
  en_num_hashes : Z;
  en_hash : Hash;
  en_transactions : list Transaction;
}.

Definition is_tick (e : Entry) : bool := bool_decide (length (en_transactions e) = 0%nat).

Definition all_signatures (txs : list Transaction) : list Signature := txs ≫= signatures.

Definition hash_transactions (txs : list Transaction) : res Empty_set Hash :=
  t ← MerkleTree_new (all_signatures txs);
  Ok (default Hash_default (get_root t)).

(** [poh.tick().unwrap().hash] and [poh.record(mixin).unwrap().hash]. *)
Definition tick_hash (p : Poh) : res Empty_set Hash := pe_hash <$> unwrap (tick p).2.
Definition record_hash (mixin : Hash) (p : Poh) : res Empty_set Hash := pe_hash <$> unwrap (record mixin p).2.

Definition next_hash (now : Z) (start_hash : Hash) (n : Z) (txs : list Transaction) : res Empty_set Hash :=
  if (n =? 0) && bool_decide (length txs = 0%nat) then Ok start_hash
  else
    p ← Poh_new now start_hash None;
    match hash (saturating_sub n 1) p with
    | (p, Ok _) =>
        if bool_decide (length txs = 0%nat) then tick_hash p
        else m ← hash_transactions txs; record_hash m p
    | (_, Err e) => Err e
    | (_, Panic) => Panic
    end.

Definition Entry_new (now : Z) (prev_hash : Hash) (n : Z) (txs : list Transaction) : res Empty_set Entry :=
  let n := if (n =? 0) && negb (bool_decide (length txs = 0%nat)) then 1 else n in
  h ← next_hash now prev_hash n txs;
  Ok (mkEntry n h txs).

Definition Entry_verify (now : Z) (e : Entry) (start_hash : Hash) : res Empty_set bool :=
  ref_hash ← next_hash now start_hash (en_num_hashes e) (en_transactions e);
  Ok (en_hash e =? ref_hash).

Definition compare_hashes (now : Z) (computed_hash : Hash) (ref_entry : Entry) : res Empty_set bool :=
  actual ←
    (if negb (bool_decide (length (en_transactions ref_entry) = 0%nat)) then
       tx_hash ← hash_transactions (en_transactions ref_entry);
       p ← Poh_new now computed_hash None;
       record_hash tx_hash p
     else if 0 <? en_num_hashes ref_entry then
       p ← Poh_new now computed_hash None;
       tick_hash p
     else Ok computed_hash);
  Ok (actual =? en_hash ref_entry).

(** ** Lists of entries *)

(** [all] over the results of a parallel iterator; a panic of one closure is
    one of the whole unless another closure's [false] comes first. *)
Fixpoint all_res (l : list (res Empty_set bool)) : res Empty_set bool :=
  match l with
  | [] => Ok true
  | r :: l' => b ← r; if b : bool then all_res l' else Ok false
  end.

(** The hash before each entry. *)
Definition prev_hashes (start_hash : Hash) (es : list Entry) : list Hash :=
  take (length es) (start_hash :: (en_hash <$> es)).

Definition verify_cpu_generic (now : Z) (start_hash : Hash) (es : list Entry) : res Empty_set bool :=
  all_res (zip_with (λ h e, Entry_verify now e h) (start_hash :: (en_hash <$> es)) es).

Fixpoint chunks {A} (fuel n : nat) (l : list A) : list (list A) :=
  match fuel, l with
  | S fuel, _ :: _ => take n l :: chunks fuel n (drop n l)
  | _, _ => []
  end.

Context `{HL : !PohLibs}.

(** The byte buffer of the hashes is the list of its 32-byte lanes. *)
Definition verify_chunk (now : Z) (simd_len : nat) (es : list Entry) (i : nat) (x : list Hash * list Z) : res Empty_set bool :=
  if bool_decide (simd_len = 8 ∨ simd_len = 16)%nat then
    let chunk := poh_verify_many_simd x.1 x.2 in
    let entry_start := (i * simd_len)%nat in
    let entry_end := Nat.min (entry_start + simd_len) (length es) in
    all_res (imap (λ j ref_entry, h ← unwrap (chunk !! j); compare_hashes now h ref_entry)
               (take (entry_end - entry_start) (drop entry_start es)))
  else Panic.

Definition verify_cpu_x86_simd (now : Z) (start_hash : Hash) (simd_len : nat) (es : list Entry) : res Empty_set bool :=
  if bool_decide (simd_len = 0%nat) then Panic else
  let len := length es in
  let aligned_len := ((len + simd_len - 1) / simd_len * simd_len)%nat in
  let hashes := prev_hashes start_hash es ++ replicate (aligned_len - len) Hash_default in
  let nums := ((λ e, saturating_sub (en_num_hashes e) 1) <$> es) ++ replicate (aligned_len - len) 0 in
  all_res (imap (verify_chunk now simd_len es) (zip (chunks aligned_len simd_len hashes) (chunks aligned_len simd_len nums))).

(** [api]: the SIMD library is loaded. *)
Definition verify_cpu (api has_avx2 has_avx512 : bool) (now : Z) (start_hash : Hash) (es : list Entry) : res Empty_set bool :=
  if api then
    if has_avx512 && bool_decide (128 ≤ length es)%nat then verify_cpu_x86_simd now start_hash 16 es
    else if has_avx2 && bool_decide (48 ≤ length es)%nat then verify_cpu_x86_simd now start_hash 8 es
    else verify_cpu_generic now start_hash es
  else verify_cpu_generic now start_hash es.

Inductive VerifyAction : Type := Mixin (mixin : Hash) | Tick | NoAction.

Definition verify_action (e : Entry) : res Empty_set VerifyAction :=
  if is_tick e then Ok (if en_num_hashes e =? 0 then NoAction else Tick)
  else Mixin <$> hash_transactions (en_transactions e).

(** [finish_verify] for one entry whose hash the GPU has computed. *)
Definition finish_one (now : Z) (h : Hash) (e : Entry) : res Empty_set bool :=
  action ← verify_action e;
  actual ←
    match action with
    | Mixin mixin => p ← Poh_new now h None; record_hash mixin p
    | Tick => p ← Poh_new now h None; tick_hash p
    | NoAction => Ok h
    end;
  Ok (actual =? en_hash e).

(** [start_verify] on the GPU and [finish_verify]. *)
Definition verify_gpu (now : Z) (start_hash : Hash) (es : list Entry) : res Empty_set bool :=
  let hashes := poh_verify_many (prev_hashes start_hash es) ((λ e, saturating_sub (en_num_hashes e) 1) <$> es) in
  all_res (zip_with (finish_one now) hashes es).

(** [perf_libs]: the library for the GPU is loaded. *)
Definition verify (perf_libs api has_avx2 has_avx512 : bool) (now : Z) (start_hash : Hash) (es : list Entry) : res Empty_set bool :=
  if perf_libs then verify_gpu now start_hash es
  else verify_cpu api has_avx2 has_avx512 now start_hash es.

Fixpoint tick_hash_counts (hashes_per_tick tick_hash_count : Z) (es : list Entry) : Z * bool :=
  match es with
  | [] => (tick_hash_count, tick_hash_count <? hashes_per_tick)
  | e :: es' =>
      let n := saturating_add64 tick_hash_count (en_num_hashes e) in
      if is_tick e then if negb (n =? hashes_per_tick) then (n, false) else tick_hash_counts hashes_per_tick 0 es'
      else tick_hash_counts hashes_per_tick n es'
  end.

Definition verify_tick_hash_count (tick_hash_count hashes_per_tick : Z) (es : list Entry) : Z * bool :=
  if hashes_per_tick =? 0 then (tick_hash_count, true) else tick_hash_counts hashes_per_tick tick_hash_count es.

Definition tick_count (es : list Entry) : Z := Z.of_nat (length (filter (λ e, is_tick e = true) es)).

Definition next_entry (now : Z) (prev_hash : Hash) (n : Z) (txs : list Transaction) : res Empty_set Entry :=
  if (0 <? n) || bool_decide (length txs = 0%nat) then
    h ← next_hash now prev_hash n txs;
    Ok (mkEntry n h txs)
  else Panic.

(** [create_ticks], by way of [next_entry_mut]. *)
Fixpoint create_ticks (now : Z) (num_ticks : nat) (hashes_per_tick : Z) (h : Hash) : res Empty_set (list Entry) :=
  match num_ticks with
  | O => Ok []
  | S num_ticks =>
      e ← Entry_new now h hashes_per_tick [];
      es ← create_ticks now num_ticks hashes_per_tick (en_hash e);
      Ok (e :: es)
  end.
End model.
End poh.
