(* ===== verification/PohProps.v ===== *)
(** * The verification of entries

    All ways to verify a list of entries decide the same property, that each
    entry's hash is the one its predecessor, its number of hashes and its
    transactions lead to.  What the hash chain records passes, and the last
    hash of a list that passes determines the signatures in it. *)

From S2P Require Import Prelude F64 Account Features Sysvar Message MessageProps MerkleTree Fees System Transaction Poh.
From Stdlib Require Import Strings.Byte.

Module poh_props.
Import message transaction merkle_tree poh.

Section props.
Context `{HS : !Sha256}.

Definition rounds (h : Hash) (n : Z) : Hash := Nat.iter (Z.to_nat n) hash1 h.

Definition tx_root (txs : list Transaction) : Hash :=
  default Hash_default (last (concat (tree_levels (all_signatures txs)))).

(** The hash that an entry with [n] hashes and the transactions has after [h]. *)
Definition chained (h : Hash) (n : Z) (txs : list Transaction) : Hash :=
  if bool_decide (length txs = 0%nat) then rounds h n else hash_mixin (rounds h (saturating_sub n 1)) (tx_root txs).

Definition entry_ok (h : Hash) (e : Entry) : bool := chained h (en_num_hashes e) (en_transactions e) =? en_hash e.

(** A list of entries whose hashes follow from [h]. *)
Fixpoint chain (h : Hash) (es : list Entry) : bool :=
  match es with [] => true | e :: es' => entry_ok h e && chain (en_hash e) es' end.

(** Transactions after 2^64 - 1 hashes cannot be recorded. *)
Definition entry_wf (e : Entry) : Prop :=
  is_u64 (en_num_hashes e) ∧ (is_tick e = true ∨ en_num_hashes e < u64_max).

Class PohLibsOk `{!PohLibs} : Prop := {
  poh_verify_many_simd_ok hs ns : length hs = length ns → poh_verify_many_simd hs ns = zip_with rounds hs ns;
  poh_verify_many_ok hs ns : length hs = length ns → poh_verify_many hs ns = zip_with rounds hs ns;
}.

(** ** One entry *)

Lemma hash_transactions_Ok txs : hash_transactions txs = Ok (tx_root txs).
Proof. unfold hash_transactions. by rewrite MerkleTree_new_spec. Qed.

Lemma rounds_S h n : 0 <= n → hash1 (rounds h n) = rounds h (n + 1).
Proof. intros Hn. unfold rounds. rewrite Z2Nat.inj_add by lia. rewrite Nat.add_comm. done. Qed.

Lemma Poh_new_None now h : Poh_new now h None = Ok (mkPoh h 0 u64_max u64_max 0 0 now).
Proof. done. Qed.

Lemma hash_fresh now h n :
  0 <= n < u64_max → ∃ p b, hash n (mkPoh h 0 u64_max u64_max 0 0 now) = (p, Ok b) ∧
    poh_hash p = rounds h n ∧ hashes_per_tick p = u64_max ∧ remaining_hashes p = u64_max - n.
Proof.
  intros [Hn0 Hn]. unfold hash. cbn [remaining_hashes poh_hash num_hashes hashes_per_tick ticks_per_slot tick_number slot_start_time].
  assert (Hmin : Z.min (sub64 u64_max 1) n = n).
  { rewrite sub64_id by (unfold is_u64, u64_max; lia). unfold u64_max in *. lia. }
  rewrite Hmin, (sub64_id u64_max n) by (unfold is_u64, u64_max in *; lia).
  destruct (Z.ltb_spec 0 (u64_max - n)); [|lia]. eexists _, _. split; [reflexivity|done].
Qed.

Lemma tick_hash_fresh now h : (p ← Poh_new now h None; tick_hash p : res Empty_set Hash) = Ok (hash1 h).
Proof. done. Qed.

Lemma record_hash_fresh now h m : (p ← Poh_new now h None; record_hash m p : res Empty_set Hash) = Ok (hash_mixin h m).
Proof. done. Qed.

Lemma next_hash_Ok now h n txs :
  is_u64 n → (length txs = 0%nat ∨ n < u64_max) → next_hash now h n txs = Ok (chained h n txs).
Proof.
  intros [Hn0 Hn] Hor. unfold next_hash, chained. destruct (Z.eqb_spec n 0) as [->|Hnz]; cbn [andb].
  - case_bool_decide; [done|]. by rewrite hash_transactions_Ok.
  - unfold saturating_sub. rewrite Z.max_l by lia. destruct (hash_fresh now h (n - 1) ltac:(lia)) as (p & b & Hp & Hh & Hpt & Hr).
    rewrite Poh_new_None. cbn [mbind res_bind]. rewrite Hp. case_bool_decide as Hb.
    + unfold tick_hash, tick. rewrite Hpt, Z.ltb_irrefl. cbn. rewrite Hh, rounds_S by lia. do 2 f_equal. lia.
    + rewrite hash_transactions_Ok. cbn [mbind res_bind]. unfold record_hash, record. rewrite Hr. destruct Hor as [?|Hlt]; [done|].
      destruct (Z.eqb_spec (u64_max - (n - 1)) 1); [lia|]. cbn. by rewrite Hh.
Qed.

Lemma Entry_verify_Ok now h e : entry_wf e → Entry_verify now e h = Ok (entry_ok h e).
Proof.
  intros [Hu Hor]. unfold Entry_verify. rewrite next_hash_Ok; [|done|].
  - cbn. unfold entry_ok. by rewrite Z.eqb_sym.
  - destruct Hor as [Ht|]; [|by right]. left. unfold is_tick in Ht. by apply bool_decide_eq_true in Ht.
Qed.

Lemma compare_hashes_Ok now h e :
  is_u64 (en_num_hashes e) → compare_hashes now (rounds h (saturating_sub (en_num_hashes e) 1)) e = Ok (entry_ok h e).
Proof.
  intros [Hn _]. unfold compare_hashes, entry_ok, chained. case_bool_decide; cbn [negb].
  - destruct (Z.ltb_spec 0 (en_num_hashes e)).
    + rewrite tick_hash_fresh. cbn. unfold saturating_sub. rewrite Z.max_l, rounds_S by lia. by rewrite Z.sub_add.
    + replace (en_num_hashes e) with 0 by lia. done.
  - rewrite hash_transactions_Ok. cbn [mbind res_bind]. by rewrite record_hash_fresh.
Qed.

Lemma finish_one_compare now h e : is_u64 (en_num_hashes e) → finish_one now h e = compare_hashes now h e.
Proof.
  intros [Hn _]. unfold finish_one, compare_hashes, verify_action, is_tick. case_bool_decide; cbn [negb].
  - destruct (Z.eqb_spec (en_num_hashes e) 0) as [->|]; [done|]. destruct (Z.ltb_spec 0 (en_num_hashes e)); [done|lia].
  - by rewrite hash_transactions_Ok.
Qed.

(** ** Lists *)

Lemma all_res_Ok (l : list (res Empty_set bool)) (bs : list bool) :
  Forall2 (λ r b, r = Ok b) l bs → all_res l = Ok (forallb id bs).
Proof. induction 1 as [|r b l bs -> _ IH]; [done|]. cbn. by destruct b. Qed.

(** The entries with the hashes before them. *)
Definition links (h : Hash) (es : list Entry) : list (Hash * Entry) := zip (prev_hashes h es) es.
Definition link_ok (x : Hash * Entry) : bool := entry_ok x.1 x.2.

Lemma prev_hashes_cons h e es : prev_hashes h (e :: es) = h :: prev_hashes (en_hash e) es.
Proof. done. Qed.

Lemma prev_hashes_length h es : length (prev_hashes h es) = length es.
Proof. unfold prev_hashes. rewrite length_take. cbn [length]. rewrite length_fmap. lia. Qed.

Lemma zip_prev_hashes {B} (f : Hash → Entry → B) h es : zip_with f (h :: (en_hash <$> es)) es = zip_with f (prev_hashes h es) es.
Proof. revert h. induction es as [|e es IH]; intros h; [done|]. rewrite prev_hashes_cons. cbn [zip_with fmap list_fmap]. f_equal. apply IH. Qed.

Lemma chain_links h es : forallb link_ok (links h es) = chain h es.
Proof.
  revert h. induction es as [|e es IH]; intros h; [done|]. unfold links. rewrite prev_hashes_cons. cbn [zip zip_with forallb chain].
  by rewrite <-IH.
Qed.

Lemma forallb_fmap_id {A} (f : A → bool) l : forallb id (f <$> l) = forallb f l.
Proof. induction l as [|x l IH]; [done|]. cbn. by rewrite IH. Qed.

Lemma links_Ok (f : Hash → Entry → res Empty_set bool) h es :
  Forall (λ x, f x.1 x.2 = Ok (link_ok x)) (links h es) → all_res (zip_with f (prev_hashes h es) es) = Ok (chain h es).
Proof.
  intros H. rewrite (all_res_Ok _ (link_ok <$> links h es)); [by rewrite forallb_fmap_id, chain_links|].
  unfold links in *. revert H. generalize (prev_hashes h es). intros hs. revert es.
  induction hs as [|x hs IH]; intros [|e es] H; cbn; try constructor; [by inversion H|]. apply IH. by inversion H.
Qed.

Lemma links_wf h es : Forall entry_wf es → Forall (λ x, entry_wf x.2) (links h es).
Proof.
  rewrite !Forall_forall. intros H [x e] Hx. apply H. unfold links in Hx. by apply elem_of_zip_r in Hx.
Qed.

Lemma verify_cpu_generic_Ok now h es : Forall entry_wf es → verify_cpu_generic now h es = Ok (chain h es).
Proof.
  intros Hwf. unfold verify_cpu_generic. rewrite zip_prev_hashes. apply (links_Ok (λ h e, Entry_verify now e h)).
  eapply Forall_impl; [by apply links_wf|]. intros [x e] He. by apply Entry_verify_Ok.
Qed.

(** ** Lanes *)

Lemma chunks_spec {A} n k : ∀ fuel (l : list A),
  (0 < n)%nat → length l = (k * n)%nat → (k ≤ fuel)%nat → chunks fuel n l = (λ i, take n (drop (i * n) l)) <$> seq 0 k.
Proof.
  induction k as [|k IH]; intros fuel l Hn Hl Hf.
  - apply nil_length_inv in Hl as ->. by destruct fuel.
  - destruct fuel as [|fuel]; [lia|]. destruct l as [|x l]; [cbn in Hl; lia|]. set (L := x :: l) in *.
    change (chunks (S fuel) n L) with (take n L :: chunks fuel n (drop n L)). cbn [seq fmap list_fmap]. rewrite drop_0. f_equal.
    rewrite IH by (rewrite ?length_drop; lia). rewrite <-seq_shift, <-list_fmap_compose. apply list_fmap_ext. intros i y _. cbn.
    by rewrite drop_drop.
Qed.

Lemma slice_end {A} n (l : list A) i :
  take (Nat.min (i + n) (length l) - i) (drop i l) = take n (drop i l).
Proof.
  destruct (decide (i + n ≤ length l)%nat); [by rewrite Nat.min_l, Nat.add_sub_swap, Nat.sub_diag by lia|].
  rewrite Nat.min_r by lia. rewrite !take_ge; [done|rewrite length_drop; lia..].
Qed.

(** The slices of length [n] cover the list. *)
Lemma forallb_slices {A} (f : A → bool) n k (l : list A) :
  (0 < n)%nat → (length l ≤ k * n)%nat → forallb id ((λ i, forallb f (take n (drop (i * n) l))) <$> seq 0 k) = forallb f l.
Proof.
  intros Hn Hl. rewrite forallb_fmap_id. apply eq_true_iff_eq. rewrite !forallb_forall. split.
  - intros H x [j Hj]%list_elem_of_In%list_elem_of_lookup. pose proof (lookup_lt_Some _ _ _ Hj) as Hlt.
    assert (Hq : (j / n < k)%nat) by (apply Nat.Div0.div_lt_upper_bound; lia).
    specialize (H (j / n)%nat). rewrite forallb_forall in H. apply H; [apply in_seq; lia|].
    apply list_elem_of_In, list_elem_of_lookup. exists (j mod n)%nat. rewrite lookup_take_lt by (apply Nat.mod_upper_bound; lia).
    rewrite lookup_drop. rewrite <-Hj. f_equal. rewrite Nat.mul_comm. symmetry. apply Nat.div_mod. lia.
  - intros H i _. rewrite forallb_forall. intros x Hx%list_elem_of_In. apply H, list_elem_of_In.
    apply list_elem_of_lookup in Hx as [j Hj]. apply lookup_take_Some in Hj as [Hj _]. rewrite lookup_drop in Hj. by eapply list_elem_of_lookup_2.
Qed.

Context `{HL : !PohLibs} `{HLok : !PohLibsOk}.

(** The lanes after the library call: the entries' hashes, then padding. *)
Lemma verify_chunk_Ok now n h es hpad npad i :
  (n = 8 ∨ n = 16)%nat → Forall entry_wf es → length hpad = length npad →
  let hashes := prev_hashes h es ++ hpad in
  let nums := ((λ e, saturating_sub (en_num_hashes e) 1) <$> es) ++ npad in
  verify_chunk now n es i (take n (drop (i * n) hashes), take n (drop (i * n) nums)) =
  Ok (forallb link_ok (take n (drop (i * n) (links h es)))).
Proof.
  intros Hn Hwf Hpad hashes nums. unfold verify_chunk. rewrite bool_decide_eq_true_2 by done. cbn [fst snd].
  assert (Hlen : length hashes = length nums) by (unfold hashes, nums; rewrite !length_app, prev_hashes_length, length_fmap; lia).
  rewrite poh_verify_many_simd_ok by (rewrite !length_take, !length_drop; lia). rewrite slice_end, <-forallb_fmap_id.
  apply all_res_Ok, Forall2_same_length_lookup_2.
  { rewrite length_imap, length_fmap, !length_take, !length_drop. unfold links. rewrite length_zip_with, prev_hashes_length. lia. }
  intros j r b Hr Hb. rewrite list_lookup_imap in Hr. rewrite list_lookup_fmap in Hb.
  destruct (take n (drop (i * n) es) !! j) as [e|] eqn:He; [|done]. injection Hr as <-.
  destruct (take n (drop (i * n) (links h es)) !! j) as [[x e']|] eqn:Hx; [|done]. injection Hb as <-.
  apply lookup_take_Some in He as [He Hj], Hx as [Hx _]. rewrite lookup_drop in He. rewrite lookup_drop in Hx.
  apply lookup_zip_Some in Hx as [Hx He']. assert (e' = e) as -> by congruence.
  assert (Hlane : zip_with rounds (take n (drop (i * n) hashes)) (take n (drop (i * n) nums)) !! j =
                  Some (rounds x (saturating_sub (en_num_hashes e) 1))).
  { apply lookup_zip_with_Some. eexists _, _. split; [reflexivity|]. rewrite !lookup_take_lt, !lookup_drop by done. unfold hashes, nums. split.
    - by rewrite lookup_app_l by (by eapply lookup_lt_Some).
    - rewrite lookup_app_l by (rewrite length_fmap; by eapply lookup_lt_Some). by rewrite list_lookup_fmap, He. }
  rewrite Hlane. cbn [unwrap mbind res_bind]. unfold link_ok. cbn [fst snd]. apply compare_hashes_Ok.
  rewrite Forall_forall in Hwf. apply Hwf. by eapply list_elem_of_lookup_2.
Qed.

Lemma verify_cpu_x86_simd_Ok now n h es :
  (n = 8 ∨ n = 16)%nat → Forall entry_wf es → verify_cpu_x86_simd now h n es = Ok (chain h es).
Proof.
  intros Hn Hwf. unfold verify_cpu_x86_simd. rewrite bool_decide_eq_false_2 by lia.
  set (k := ((length es + n - 1) / n)%nat). set (pad := (k * n - length es)%nat).
  assert (Hk : (length es ≤ k * n)%nat).
  { unfold k. pose proof (Nat.div_mod (length es + n - 1) n ltac:(lia)). pose proof (Nat.mod_upper_bound (length es + n - 1) n ltac:(lia)). lia. }
  assert (k ≤ k * n)%nat by nia.
  rewrite !(chunks_spec n k) by (rewrite ?length_app, ?length_fmap, ?length_replicate, ?prev_hashes_length; unfold pad; lia).
  rewrite (all_res_Ok _ ((λ i, forallb link_ok (take n (drop (i * n) (links h es)))) <$> seq 0 k)).
  - rewrite forallb_slices, chain_links; [done|lia|]. unfold links. rewrite length_zip_with, prev_hashes_length. lia.
  - apply Forall2_same_length_lookup_2; [by rewrite length_imap, length_zip_with, !length_fmap, Nat.min_id|].
    intros i r b Hr Hb. rewrite list_lookup_imap, lookup_zip_with, !list_lookup_fmap in Hr. rewrite list_lookup_fmap in Hb.
    destruct (seq 0 k !! i) as [i'|] eqn:Hi; [|done]. apply lookup_seq in Hi as [-> _]. cbn in Hr, Hb. injection Hr as <-. injection Hb as <-.
    apply verify_chunk_Ok; [done|done|by rewrite !length_replicate].
Qed.

Lemma verify_gpu_Ok now h es : Forall entry_wf es → verify_gpu now h es = Ok (chain h es).
Proof.
  intros Hwf. unfold verify_gpu. rewrite poh_verify_many_ok by (by rewrite prev_hashes_length, length_fmap).
  assert (Hz : ∀ hs, length hs = length es → zip_with (finish_one now) (zip_with rounds hs ((λ e, saturating_sub (en_num_hashes e) 1) <$> es)) es =
    zip_with (λ h e, finish_one now (rounds h (saturating_sub (en_num_hashes e) 1)) e) hs es).
  { clear. induction es as [|e es IH]; intros [|x hs] H; try done. cbn. f_equal. apply IH. by injection H. }
  rewrite Hz by apply prev_hashes_length. apply (links_Ok (λ h e, finish_one now (rounds h (saturating_sub (en_num_hashes e) 1)) e)).
  eapply Forall_impl; [by apply links_wf|]. intros [x e] [He _]. cbn [fst snd] in *. rewrite finish_one_compare by done. by apply compare_hashes_Ok.
Qed.

Lemma verify_chain perf_libs api has_avx2 has_avx512 now h es :
  Forall entry_wf es → verify perf_libs api has_avx2 has_avx512 now h es = Ok (chain h es).
Proof.
  intros Hwf. unfold verify, verify_cpu. destruct perf_libs; [by apply verify_gpu_Ok|].
  destruct api; [|by apply verify_cpu_generic_Ok].
  destruct (has_avx512 && _); [apply verify_cpu_x86_simd_Ok; auto|].
  destruct (has_avx2 && _); [apply verify_cpu_x86_simd_Ok; auto|by apply verify_cpu_generic_Ok].
Qed.

(** C20. All routines that verify a list of entries agree: with or without the
    SIMD and GPU libraries, whatever the processor and the length of the list,
    they return without panicking, and accept exactly the lists in which each
    hash is the one that the hash before it, the number of hashes and the
    transactions of the entry lead to.  An entry that is not a tick has fewer
    than [2^64 - 1] hashes. *)
Theorem entry_verify_agrees perf_libs api has_avx2 has_avx512 now start_hash es :
  Forall entry_wf es → verify perf_libs api has_avx2 has_avx512 now start_hash es = Ok (chain start_hash es).
Proof. apply verify_chain. Qed.

(** ** What the hash chain records *)

Definition last_hash (h : Hash) (es : list Entry) : Hash := default h (en_hash <$> last es).

Lemma chain_snoc h es e : chain h (es ++ [e]) = chain h es && entry_ok (last_hash h es) e.
Proof.
  revert h. induction es as [|x es IH]; intros h; cbn [app chain]; [by rewrite andb_true_r|]. rewrite IH, andb_assoc. do 2 f_equal.
  unfold last_hash. rewrite last_cons. by destruct (last es).
Qed.

Lemma last_hash_snoc h es e : last_hash h (es ++ [e]) = en_hash e.
Proof. unfold last_hash. by rewrite last_snoc. Qed.

(** The entries a chain started at [h] has produced, whatever the order of the
    calls. *)
Inductive recording (h : Hash) (hpt : option Z) : list Entry → Poh → Prop :=
  | rec_new now p : Poh_new now h hpt = Ok p → recording h hpt [] p
  | rec_hash es p n p' b : recording h hpt es p → 0 <= n → hash n p = (p', Ok b) → recording h hpt es p'
  | rec_record es p txs m p' e :
      recording h hpt es p → length txs ≠ 0%nat → hash_transactions txs = Ok m → record m p = (p', Some e) →
      recording h hpt (es ++ [mkEntry (pe_num_hashes e) (pe_hash e) txs]) p'
  | rec_record_full es p m p' : recording h hpt es p → record m p = (p', None) → recording h hpt es p'
  | rec_tick es p p' e :
      recording h hpt es p → tick p = (p', Some e) → recording h hpt (es ++ [mkEntry (pe_num_hashes e) (pe_hash e) []]) p'
  | rec_tick_early es p p' : recording h hpt es p → tick p = (p', None) → recording h hpt es p'.

(** The hashes of the entries since the last tick. *)
Definition since_tick (es : list Entry) : Z := foldl (λ n e, if is_tick e then 0 else n + en_num_hashes e) 0 es.

Record recorded (h : Hash) (H : Z) (es : list Entry) (p : Poh) : Prop := {
  r_chain : chain h es = true;
  r_wf : Forall entry_wf es;
  r_hash : poh_hash p = rounds (last_hash h es) (num_hashes p);
  r_per_tick : hashes_per_tick p = H;
  r_num : 0 <= num_hashes p;
  r_since : 0 <= since_tick es;
  r_remaining : 1 <= remaining_hashes p;
  r_sum : since_tick es + num_hashes p + remaining_hashes p = H;
  r_counts : H < u64_max → tick_hash_counts H 0 es = (since_tick es, true);
}.

Lemma tick_counts_app H es es' : ∀ c c',
  tick_hash_counts H c es = (c', true) → tick_hash_counts H c (es ++ es') = tick_hash_counts H c' es'.
Proof.
  induction es as [|e es IH]; intros c c' Hc; cbn in *; [by injection Hc as <- _|]. destruct (is_tick e); [|by apply IH].
  destruct (negb _); [done|by apply IH].
Qed.

Lemma since_snoc es e : since_tick (es ++ [e]) = if is_tick e then 0 else since_tick es + en_num_hashes e.
Proof. unfold since_tick. by rewrite foldl_app. Qed.

Lemma recorded_record h H es p txs p' e :
  H <= u64_max → recorded h H es p → length txs ≠ 0%nat → record (tx_root txs) p = (p', Some e) →
  recorded h H (es ++ [mkEntry (pe_num_hashes e) (pe_hash e) txs]) p'.
Proof.
  intros HH [Hc Hwf Hh Hpt Hn Hs Hr Hsum Hcnt] Htx. unfold record. destruct (Z.eqb_spec (remaining_hashes p) 1); [done|]. intros [= <- <-].
  rewrite !add64_id, !sub64_id by (unfold is_u64; lia).
  assert (Htick : is_tick (mkEntry (num_hashes p + 1) (hash_mixin (poh_hash p) (tx_root txs)) txs) = false) by (by apply bool_decide_eq_false_2).
  split; cbn [poh_hash num_hashes hashes_per_tick remaining_hashes pe_num_hashes pe_hash]; rewrite ?since_snoc, ?Htick; cbn [en_num_hashes]; try lia; try done.
  - rewrite chain_snoc, Hc. unfold entry_ok, chained. cbn. rewrite bool_decide_eq_false_2 by done. rewrite Hh. unfold saturating_sub.
    rewrite Z.max_l, Z.add_simpl_r by lia. by rewrite Z.eqb_refl.
  - apply Forall_app. split; [done|]. apply Forall_singleton. split; cbn; [unfold is_u64; lia|right; lia].
  - by rewrite last_hash_snoc.
  - intros Hlt. rewrite (tick_counts_app _ _ _ _ _ (Hcnt Hlt)). cbn [tick_hash_counts]. rewrite Htick. cbn [en_num_hashes].
    unfold saturating_add64. rewrite Z.min_l by lia. f_equal. apply Z.ltb_lt. lia.
Qed.

Lemma recorded_tick h H es p p' e :
  1 < H <= u64_max → recorded h H es p → tick p = (p', Some e) →
  recorded h H (es ++ [mkEntry (pe_num_hashes e) (pe_hash e) []]) p'.
Proof.
  intros HH [Hc Hwf Hh Hpt Hn Hs Hr Hsum Hcnt]. unfold tick. rewrite (add64_id (num_hashes p)), (sub64_id (remaining_hashes p)) by (unfold is_u64; lia). rewrite Hpt.
  destruct ((H <? u64_max) && _) eqn:Hb; [done|]. intros [= <- <-].
  split; cbn [poh_hash num_hashes hashes_per_tick remaining_hashes pe_num_hashes pe_hash]; rewrite ?since_snoc; cbn [is_tick]; try lia; try done.
  - rewrite chain_snoc, Hc. unfold entry_ok, chained. cbn. rewrite Hh, rounds_S by done. by rewrite Z.eqb_refl.
  - apply Forall_app. split; [done|]. apply Forall_singleton. split; cbn; [unfold is_u64; lia|by left].
  - by rewrite last_hash_snoc.
  - intros Hlt. rewrite (tick_counts_app _ _ _ _ _ (Hcnt Hlt)). cbn. unfold saturating_add64. rewrite Z.min_l by lia.
    destruct (Z.ltb_spec H u64_max); [|lia]. cbn [andb] in Hb. apply negb_false_iff, Z.eqb_eq in Hb.
    destruct (Z.eqb_spec (since_tick es + (num_hashes p + 1)) H); [|lia]. cbn. f_equal. apply Z.ltb_lt. lia.
Qed.

Lemma recorded_hash h H es p n :
  H <= u64_max → recorded h H es p → 0 <= n → ∃ p' b, hash n p = (p', Ok b) ∧ recorded h H es p'.
Proof.
  intros HH [Hc Hwf Hh Hpt Hn Hs Hr Hsum Hcnt] Hn0. unfold hash. rewrite (sub64_id (remaining_hashes p) 1) by (unfold is_u64; lia).
  set (k := Z.min (remaining_hashes p - 1) n). assert (0 <= k <= remaining_hashes p - 1) by lia.
  rewrite add64_id, (sub64_id _ k) by (unfold is_u64; lia). cbn [remaining_hashes]. destruct (Z.ltb_spec 0 (remaining_hashes p - k)); [|lia].
  eexists _, _. split; [reflexivity|]. split; cbn [poh_hash num_hashes hashes_per_tick remaining_hashes]; try lia; try done.
  rewrite Hh. unfold rounds. rewrite <-Nat.iter_add. f_equal. lia.
Qed.

Lemma recording_recorded h hpt es p :
  default u64_max hpt <= u64_max → recording h hpt es p → 1 < default u64_max hpt ∧ recorded h (default u64_max hpt) es p.
Proof.
  intros HH. induction 1 as [now p Hp|es p n p' b _ [Hgt IH] Hn Hr|es p txs m p' e _ [Hgt IH] Htx Hm Hr|es p m p' _ [Hgt IH] Hr|es p p' e _ [Hgt IH] Hr|es p p' _ [Hgt IH] Hr].
  - unfold Poh_new, new_with_slot_info in Hp. destruct (Z.ltb_spec 1 (default u64_max hpt)) as [Hgt|]; [|done]. injection Hp as <-.
    split; [done|]. split; cbn; try lia; try done. intros Hlt. unfold since_tick. cbn. f_equal. apply Z.ltb_lt. lia.
  - split; [done|]. destruct (recorded_hash _ _ _ _ n HH IH Hn) as (q & b' & Hq & ?). rewrite Hr in Hq. by injection Hq as <- _.
  - split; [done|]. rewrite hash_transactions_Ok in Hm. injection Hm as <-. by eapply recorded_record.
  - split; [done|]. unfold record in Hr. destruct (_ =? _); [|done]. by injection Hr as <-.
  - split; [done|]. by eapply recorded_tick.
  - split; [done|]. destruct IH as [Hc Hwf Hh Hpt Hn Hs Hrm Hsum Hcnt]. unfold tick in Hr. rewrite Hpt, (add64_id (num_hashes p)), (sub64_id (remaining_hashes p)) in Hr by (unfold is_u64; lia).
    destruct ((_ <? _) && negb _) eqn:Hb; [|done]. injection Hr as <-. apply andb_true_iff in Hb as [_ Hb%negb_true_iff%Z.eqb_neq].
    split; cbn; try lia; try done. by rewrite Hh, rounds_S.
Qed.

(** C27. What the hash chain produces is accepted.  However hashing, recording
    and ticking are interleaved, no call panics, the entries pass every
    verification routine, and if ticks have a fixed number of hashes the
    entries pass the check of the hashes per tick. *)
Theorem recorded_entries_verify h hpt es p :
  default u64_max hpt <= u64_max → recording h hpt es p →
  (∀ perf_libs api has_avx2 has_avx512 now, verify perf_libs api has_avx2 has_avx512 now h es = Ok true) ∧
  (∀ H, hpt = Some H → H < u64_max → (verify_tick_hash_count 0 H es).2 = true) ∧
  (∀ n, 0 <= n → ∃ p' b, hash n p = (p', Ok b)).
Proof.
  intros HH [Hgt Hr]%recording_recorded; [|done]. split; [|split].
  - intros. rewrite <-(r_chain _ _ _ _ Hr). apply verify_chain, (r_wf _ _ _ _ Hr).
  - intros H -> Hlt. cbn in *. unfold verify_tick_hash_count. destruct (Z.eqb_spec H 0); [done|]. by rewrite (r_counts _ _ _ _ Hr).
  - intros n Hn. destruct (recorded_hash _ _ _ _ n HH Hr Hn) as (p' & b & ? & _). eauto.
Qed.

(** ** The last hash determines the history *)

Context `{HSok : !Sha256Ok}.

Lemma key_bytes_inj a b : is_key a → is_key b → key_bytes a = key_bytes b → a = b.
Proof. intros Ha Hb H. rewrite <-(key_of_key_bytes a), <-(key_of_key_bytes b) by done. by f_equal. Qed.

(** The inputs of the hash function in a chain of entries after [h]. *)
Definition hash1_input (h : Hash) : list byte := concat [key_bytes h].
Definition mixin_input (h mixin : Hash) : list byte := concat [key_bytes h; key_bytes mixin].
Definition rounds_inputs (h : Hash) (n : Z) : list (list byte) := (λ k, hash1_input (rounds h k)) <$> seqZ 0 n.

Definition entry_inputs (h : Hash) (n : Z) (txs : list Transaction) : list (list byte) :=
  if bool_decide (length txs = 0%nat) then rounds_inputs h n
  else rounds_inputs h (n - 1) ++ mixin_input (rounds h (n - 1)) (tx_root txs) :: tree_inputs (all_signatures txs).

Fixpoint chain_inputs (h : Hash) (es : list Entry) : list (list byte) :=
  match es with
  | [] => []
  | e :: es' => entry_inputs h (en_num_hashes e) (en_transactions e) ++ chain_inputs (en_hash e) es'
  end.

Lemma chain_inputs_snoc h es e :
  chain_inputs h (es ++ [e]) = chain_inputs h es ++ entry_inputs (last_hash h es) (en_num_hashes e) (en_transactions e).
Proof.
  revert h. induction es as [|x es IH]; intros h; cbn [app chain_inputs]; [by rewrite app_nil_r|]. rewrite IH, <-app_assoc. do 3 f_equal.
  unfold last_hash. rewrite last_cons. by destruct (last es).
Qed.

Lemma rounds_input h k n : 0 <= k < n → hash1_input (rounds h k) ∈ rounds_inputs h n.
Proof. intros Hk. apply list_elem_of_fmap. exists k. split; [done|]. apply elem_of_seqZ. lia. Qed.

Lemma rounds_inputs_mono h m n : m <= n → rounds_inputs h m ⊆ rounds_inputs h n.
Proof. intros Hm x (k & -> & ?%elem_of_seqZ)%list_elem_of_fmap. apply rounds_input. lia. Qed.

Lemma hash1_inj D a b : hash1_input a ∈ D → hash1_input b ∈ D → is_key a → is_key b → hash1 a = hash1 b → a = b ∨ collision D.
Proof.
  unfold hash1, hashv. intros H1 H2 Ha Hb [H|]%(sha256_inj D); [left|by right|done..].
  cbn [concat] in H. rewrite !app_nil_r in H. by apply key_bytes_inj.
Qed.

Lemma hash_mixin_inj D a b c d :
  mixin_input a b ∈ D → mixin_input c d ∈ D → is_key a → is_key b → is_key c → is_key d →
  hash_mixin a b = hash_mixin c d → a = c ∧ b = d ∨ collision D.
Proof.
  unfold hash_mixin, hashv. intros H1 H2 Ha Hb Hc Hd [H|]%(sha256_inj D); [left|by right|done..]. cbn [concat] in H. rewrite !app_nil_r in H.
  apply app_inj_1 in H as [Hac Hbd]; [|by rewrite !length_key_bytes]. by split; apply key_bytes_inj.
Qed.

Lemma hash1_not_mixin D a b c : hash1_input a ∈ D → mixin_input b c ∈ D → hash1 a = hash_mixin b c → collision D.
Proof.
  unfold hash1, hash_mixin, hashv. intros H1 H2 [H|]%(sha256_inj D); [|done..]. cbn [concat] in H. rewrite !app_nil_r in H. apply (f_equal length) in H.
  rewrite length_app, !length_key_bytes in H. lia.
Qed.

Lemma rounds_key h n : is_key h → is_key (rounds h n).
Proof. intros Hh. unfold rounds. destruct (Z.to_nat n); [done|]. exact (sha256_is_key _). Qed.

Lemma rounds_inj D a b n :
  0 <= n → rounds_inputs a n ⊆ D → rounds_inputs b n ⊆ D → is_key a → is_key b → rounds a n = rounds b n → a = b ∨ collision D.
Proof.
  intros Hn Hd Hd' Ha Hb. revert Hd Hd'. pattern n. apply natlike_ind; [by left| |done]. clear n Hn. intros n Hn IH Hd Hd'.
  unfold Z.succ in *. rewrite <-!rounds_S by done. intros [H|]%(hash1_inj D).
  - apply IH; [by etrans; [apply (rounds_inputs_mono _ n (n + 1)); lia|]..|done].
  - by right.
  - apply Hd, rounds_input. lia.
  - apply Hd', rounds_input. lia.
  - by apply rounds_key.
  - by apply rounds_key.
Qed.

Lemma tx_root_key txs : is_key (tx_root txs).
Proof.
  unfold tx_root. destruct (last _) as [r|] eqn:Hr; [|done]. cbn. apply last_Some_elem_of in Hr.
  apply list_elem_of_In, in_concat in Hr as (l & Hl & Hin). apply list_elem_of_In in Hl, Hin. apply list_elem_of_lookup in Hl as [k Hk].
  apply level_keys in Hk. rewrite Forall_forall in Hk. by apply Hk.
Qed.

Lemma chained_key h n txs : is_key h → is_key (chained h n txs).
Proof. intros Hh. unfold chained. case_bool_decide; [by apply rounds_key|exact (sha256_is_key _)]. Qed.

Lemma tx_root_binds txs txs' :
  length (all_signatures txs) = length (all_signatures txs') → tx_root txs = tx_root txs' →
  all_signatures txs = all_signatures txs' ∨ collision (tree_inputs (all_signatures txs) ++ tree_inputs (all_signatures txs')).
Proof.
  unfold tx_root. generalize (all_signatures txs) (all_signatures txs'). intros sigs sigs' Hlen H.
  destruct (decide (length sigs = 0%nat)) as [H0|Hne].
  { left. rewrite (nil_length_inv sigs), (nil_length_inv sigs') by lia. done. }
  eapply root_binds; [apply MerkleTree_new_spec..|done|]. unfold get_root. cbn [nodes]. unfold tree_levels in *. cbn [concat] in *.
  destruct (last_nonempty (hash_leaf <$> sigs) (concat (levels (length sigs) (hash_leaf <$> sigs)))) as [r Hr]; [rewrite length_fmap; lia|].
  destruct (last_nonempty (hash_leaf <$> sigs') (concat (levels (length sigs') (hash_leaf <$> sigs')))) as [r' Hr']; [rewrite length_fmap; lia|].
  rewrite Hr, Hr' in *. cbn in H. by rewrite H.
Qed.

(** Entries that say the same about the number of hashes and signatures. *)
Definition alike (e e' : Entry) : Prop :=
  en_num_hashes e = en_num_hashes e' ∧ 0 < en_num_hashes e ∧
  length (all_signatures (en_transactions e)) = length (all_signatures (en_transactions e')).

Definition same_history (e e' : Entry) : Prop :=
  en_hash e = en_hash e' ∧ is_tick e = is_tick e' ∧ all_signatures (en_transactions e) = all_signatures (en_transactions e').

Lemma chained_inj D h h' n txs txs' :
  entry_inputs h n txs ⊆ D → entry_inputs h' n txs' ⊆ D →
  is_key h → is_key h' → 0 < n → length (all_signatures txs) = length (all_signatures txs') → chained h n txs = chained h' n txs' →
  h = h' ∧ bool_decide (length txs = 0%nat) = bool_decide (length txs' = 0%nat) ∧ all_signatures txs = all_signatures txs' ∨ collision D.
Proof.
  intros Hd Hd' Hh Hh' Hn Hlen. unfold chained, entry_inputs in *. unfold saturating_sub. rewrite Z.max_l by lia.
  assert (Hr : ∀ x, rounds x n = hash1 (rounds x (n - 1))) by (intros x; rewrite rounds_S by lia; f_equal; lia).
  pose proof (rounds_key h (n - 1) Hh). pose proof (rounds_key h' (n - 1) Hh').
  repeat case_bool_decide; rewrite ?Hr; intros H'.
  - rewrite <-!Hr in H'. apply (rounds_inj D) in H' as [->|]; [left|by right|lia|done..]. apply nil_length_inv in H1 as ->, H2 as ->. done.
  - right. symmetry in H'. refine (hash1_not_mixin D _ _ _ _ _ H'); [apply Hd', rounds_input; lia|apply Hd, elem_of_app; right; by left].
  - right. refine (hash1_not_mixin D _ _ _ _ _ H'); [apply Hd, rounds_input; lia|apply Hd', elem_of_app; right; by left].
  - apply (hash_mixin_inj D) in H' as [[Hrr Hroot]|];
      [|by right|apply Hd, elem_of_app; right; by left|apply Hd', elem_of_app; right; by left|done|apply tx_root_key|done|apply tx_root_key].
    apply (rounds_inj D) in Hrr as [->|]; [|by right|lia|intros x ?; apply Hd, elem_of_app; by left|intros x ?; apply Hd', elem_of_app; by left|done..].
    apply tx_root_binds in Hroot as [->|Hc]; [auto| |done]. right. eapply collision_mono; [|exact Hc].
    intros x [?|?]%elem_of_app; [apply Hd|apply Hd']; apply elem_of_app; right; by right.
Qed.

Lemma last_hash_key h es : is_key h → chain h es = true → is_key (last_hash h es).
Proof.
  intros Hh. induction es as [|e es _] using rev_ind; [done|]. rewrite chain_snoc, last_hash_snoc. intros [Hc He]%andb_true_iff.
  assert (Hk : is_key (last_hash h es)).
  { clear He. revert Hc. induction es as [|e' es IH] using rev_ind; [done|]. rewrite chain_snoc, last_hash_snoc. intros [Hc He]%andb_true_iff.
    apply Z.eqb_eq in He. rewrite <-He. apply chained_key. by apply IH. }
  apply Z.eqb_eq in He. rewrite <-He. by apply chained_key.
Qed.

Lemma history_unique D h es es' :
  chain_inputs h es ⊆ D → chain_inputs h es' ⊆ D →
  is_key h → Forall2 alike es es' → chain h es = true → chain h es' = true → last_hash h es = last_hash h es' →
  Forall2 same_history es es' ∨ collision D.
Proof.
  intros Hd Hd' Hh. revert es' Hd Hd'. induction es as [|e es IH] using rev_ind; intros es' Hd Hd' Hal Hc Hc' Hl.
  { apply Forall2_nil_inv_l in Hal as ->. by left. }
  apply Forall2_app_inv_l in Hal as (es1 & es2 & Hal & (e' & es3 & (Hn & Hpos & Hlen) & ->%Forall2_nil_inv_l & ->)%Forall2_cons_inv_l & ->).
  rewrite chain_inputs_snoc in Hd, Hd'. rewrite <-Hn in Hd'. rewrite chain_snoc in Hc, Hc'. apply andb_true_iff in Hc as [Hc He], Hc' as [Hc' He']. rewrite !last_hash_snoc in Hl.
  pose proof He as Heq. apply Z.eqb_eq in He, He'. rewrite <-He, <-He', <-Hn in Hl.
  apply (chained_inj D) in Hl as [(Hprev & Ht & Hs)|]; [|by right|intros x ?; apply Hd, elem_of_app; by right|intros x ?; apply Hd', elem_of_app; by right|by apply last_hash_key|by apply last_hash_key|done|done].
  destruct (IH es1) as [HF|]; [intros x ?; apply Hd, elem_of_app; by left|intros x ?; apply Hd', elem_of_app; by left|done|done|done|done|left|by right]. apply Forall2_app; [done|]. constructor; [|constructor].
  split; [|done]. rewrite <-He, <-He', <-Hn, Hprev. unfold chained, tx_root. by rewrite Ht, Hs.
Qed.

(** C12. The last hash of a verified list of entries determines its history:
    two lists that pass verification from one hash and end in one hash, and
    that agree in the numbers of hashes and of signatures of their entries,
    have their ticks at the same places and the same signatures in the same
    order, unless two of the inputs hashed in verifying them differ and have
    one digest.  The entries have at least one hash each, and fewer than [2^64
    - 1] if they are not ticks. *)
Theorem entries_bind perf_libs api has_avx2 has_avx512 now h es es' :
  is_key h → Forall entry_wf es → Forall entry_wf es' → Forall2 alike es es' →
  verify perf_libs api has_avx2 has_avx512 now h es = Ok true → verify perf_libs api has_avx2 has_avx512 now h es' = Ok true →
  en_hash <$> last es = en_hash <$> last es' →
  Forall2 same_history es es' ∨ collision (chain_inputs h es ++ chain_inputs h es').
Proof.
  intros Hh Hwf Hwf' Hal Hv Hv' Hl.
  assert (Hchain : ∀ l, Forall entry_wf l → verify perf_libs api has_avx2 has_avx512 now h l = Ok true → chain h l = true).
  { intros l Hw Hvl. rewrite verify_chain in Hvl by done. by injection Hvl. }
  apply (history_unique _ h); [by intros x ?; apply elem_of_app; left|by intros x ?; apply elem_of_app; right|done|done|by apply Hchain|by apply Hchain|]. unfold last_hash. by rewrite Hl.
Qed.
End props.

Module example.
Import merkle_tree.example.

#[export] Instance libs : PohLibs := {| poh_verify_many_simd := zip_with rounds; poh_verify_many := zip_with rounds |}.
#[export] Instance libs_ok : PohLibsOk.
Proof. by split. Qed.

Definition tx (b : byte) : Transaction := mkTransaction [[b]] (mkMessage (mkHeader 1 0 0) [5] 0 []).

(** A chain with four hashes a tick: a transaction entry after two hashes and a
    tick. *)
Definition p0 : Poh := mkPoh 9 0 4 4 0 0 0.
Definition p1 : Poh := (hash 1 p0).1.
Definition e1 : PohEntry := default (mkPohEntry 0 0) (record (tx_root [tx x01]) p1).2.
Definition p2 : Poh := (record (tx_root [tx x01]) p1).1.
Definition p3 : Poh := (hash 10 p2).1.
Definition e2 : PohEntry := default (mkPohEntry 0 0) (tick p3).2.
Definition p4 : Poh := (tick p3).1.
Definition es : list Entry := [mkEntry (pe_num_hashes e1) (pe_hash e1) [tx x01]; mkEntry (pe_num_hashes e2) (pe_hash e2) []].

Lemma es_recorded : recording 9 (Some 4) es p4.
Proof.
  apply (rec_tick _ _ [mkEntry (pe_num_hashes e1) (pe_hash e1) [tx x01]] p3 p4 e2); [|vm_compute; reflexivity].
  apply (rec_hash _ _ _ p2 10 p3 true); [|done|vm_compute; reflexivity].
  apply (rec_record _ _ [] p1 [tx x01] (tx_root [tx x01]) p2 e1); [|done|vm_compute; reflexivity..].
  apply (rec_hash _ _ _ p0 1 p1 false); [|done|vm_compute; reflexivity]. by apply (rec_new _ _ 0).
Qed.

Lemma es_wf : Forall entry_wf es.
Proof. apply Forall_forall. intros e [->|[->|[]%elem_of_nil]%elem_of_cons]%elem_of_cons; split; by vm_compute; auto. Qed.

Lemma es_alike : Forall2 alike es es.
Proof. repeat constructor; done. Qed.

Lemma entry_verify_agrees_witness : verify false true true false 0 9 es = Ok true.
Proof. rewrite (entry_verify_agrees false true true false 0 9 es es_wf). vm_compute. reflexivity. Defined.

Lemma recorded_entries_verify_witness : verify true false false false 0 9 es = Ok true ∧ (verify_tick_hash_count 0 4 es).2 = true.
Proof.
  destruct (recorded_entries_verify 9 (Some 4) es p4) as (H1 & H2 & _); [done|exact es_recorded|].
  split; [apply H1|by apply (H2 4)].
Defined.

Lemma entries_bind_witness : Forall2 same_history es es ∨ collision (chain_inputs 9 es ++ chain_inputs 9 es).
Proof.
  apply (entries_bind false false false false 0 9 es es); [done|exact es_wf|exact es_wf|exact es_alike|vm_compute; reflexivity..|done].
Defined.
End example.
End poh_props.
