(* ===== verification/AccountLocks.v ===== *)
(** * Account locks

    Models the locks of [runtime/src/accounts.rs] and the batches of
    [runtime/src/transaction_batch.rs] that take and release them.  Threads
    process batches concurrently; each call below runs under the mutex of the
    locks, so a run of the system is a sequence of calls.  At any time the
    transactions that hold locks do not conflict: none writes an account that
    another one reads or writes. *)

From S2P Require Import Prelude Account Message Transaction.

Module account_locks.
Import message transaction.

Record AccountLocks : Type := mkAccountLocks {
  write_locks : gset Pubkey;
  readonly_locks : gmap Pubkey Z;
}.
Definition AccountLocks_default : AccountLocks := mkAccountLocks ∅ ∅.

Definition is_locked_readonly (k : Pubkey) (l : AccountLocks) : bool :=
  match readonly_locks l !! k with Some count => 0 <? count | None => false end.
Definition is_locked_write (k : Pubkey) (l : AccountLocks) : bool := bool_decide (k ∈ write_locks l).

Definition insert_new_readonly (k : Pubkey) : ST AccountLocks TransactionError unit := λ l,
  match readonly_locks l !! k with
  | None => (mkAccountLocks (write_locks l) (<[k := 1]> (readonly_locks l)), Ok tt)
  | Some _ => (mkAccountLocks (write_locks l) (<[k := 1]> (readonly_locks l)), Panic)
  end.

Definition lock_readonly (k : Pubkey) : ST AccountLocks TransactionError bool := λ l,
  match readonly_locks l !! k with
  | Some count => (mkAccountLocks (write_locks l) (<[k := add64 count 1]> (readonly_locks l)), Ok true)
  | None => (l, Ok false)
  end.

Definition unlock_readonly (k : Pubkey) (l : AccountLocks) : AccountLocks :=
  match readonly_locks l !! k with
  | Some count =>
      let count := sub64 count 1 in
      mkAccountLocks (write_locks l)
        (if count =? 0 then delete k (readonly_locks l) else <[k := count]> (readonly_locks l))
  | None => l
  end.

Definition unlock_write (k : Pubkey) (l : AccountLocks) : AccountLocks :=
  mkAccountLocks (write_locks l ∖ {[k]}) (readonly_locks l).
Definition insert_write (k : Pubkey) (l : AccountLocks) : AccountLocks :=
  mkAccountLocks ({[k]} ∪ write_locks l) (readonly_locks l).

Fixpoint lock_all_readonly (ks : list Pubkey) : ST AccountLocks TransactionError unit :=
  match ks with
  | [] => mret tt
  | k :: ks' =>
      ok ← lock_readonly k;
      (if ok : bool then mret tt else insert_new_readonly k);;
      lock_all_readonly ks'
  end.

Definition lock_account (writable_keys readonly_keys : list Pubkey) : ST AccountLocks TransactionError unit :=
  l ← get;
  ensureS (negb (existsb (λ k, is_locked_write k l || is_locked_readonly k l) writable_keys)) AccountInUse;;
  ensureS (negb (existsb (λ k, is_locked_write k l) readonly_keys)) AccountInUse;;
  modify (λ l, foldl (λ l k, insert_write k l) l writable_keys);;
  lock_all_readonly readonly_keys.

Definition unlock_account (writable_keys readonly_keys : list Pubkey) (l : AccountLocks) : AccountLocks :=
  foldl (λ l k, unlock_readonly k l) (foldl (λ l k, unlock_write k l) l writable_keys) readonly_keys.

(** [None]: a panic. *)
Fixpoint lock_each (keys : list (list Pubkey * list Pubkey)) (l : AccountLocks)
    : option (list (Result unit) * AccountLocks) :=
  match keys with
  | [] => Some ([], l)
  | (w, r) :: keys' =>
      match lock_account w r l with
      | (_, Panic) => None
      | (l', x) => '(xs, l'') ← lock_each keys' l'; Some (x :: xs, l'')
      end
  end.

Definition lock_accounts (txs : list SanitizedTransaction) (l : AccountLocks)
    : option (list (Result unit) * AccountLocks) :=
  keys ← mapM (λ tx, get_account_keys_by_lock_type (st_message tx)) txs;
  lock_each keys l.

(** The results that say that no locks were taken. *)
Definition took_locks (r : Result unit) : bool :=
  match r with
  | Err AccountInUse | Err SanitizeFailure | Err AccountLoadedTwice => false
  | _ => true
  end.

Definition unlock_accounts (txs : list SanitizedTransaction) (results : list (Result unit)) (l : AccountLocks)
    : option AccountLocks :=
  keys ← mapM (λ x : SanitizedTransaction * Result unit, get_account_keys_by_lock_type (st_message x.1))
           (filter (λ x, took_locks x.2 = true) (zip txs results));
  Some (foldl (λ l k, unlock_account k.1 k.2 l) l keys).

(** ** Batches *)

Record TransactionBatch : Type := mkBatch {
  lock_results : list (Result unit);
  sanitized_txs : list SanitizedTransaction;
  needs_unlock : bool;
}.

Definition TransactionBatch_new (lock_results : list (Result unit)) (txs : list SanitizedTransaction)
    : option TransactionBatch :=
  if bool_decide (length lock_results = length txs) then Some (mkBatch lock_results txs true) else None.

(** [Bank::prepare_sanitized_batch]; [Bank::prepare_batch] sanitizes first. *)
Definition prepare_sanitized_batch (txs : list SanitizedTransaction) (l : AccountLocks)
    : option (TransactionBatch * AccountLocks) :=
  '(results, l') ← lock_accounts txs l;
  b ← TransactionBatch_new results txs;
  Some (b, l').

Fixpoint sanitize_all (txs : list (Transaction * Hash)) : Result (list SanitizedTransaction) :=
  match txs with
  | [] => Ok []
  | (tx, h) :: txs' => s ← try_create tx h; ss ← sanitize_all txs'; Ok (s :: ss)
  end.

Definition prepare_batch (txs : list (Transaction * Hash)) (l : AccountLocks)
    : option (Result TransactionBatch * AccountLocks) :=
  match sanitize_all txs with
  | Ok ss => '(b, l') ← prepare_sanitized_batch ss l; Some (Ok b, l')
  | Err e => Some (Err e, l)
  | Panic => None
  end.

(** [Bank::unlock_accounts], also run when a batch is dropped. *)
Definition batch_unlock (b : TransactionBatch) (l : AccountLocks) : option (TransactionBatch * AccountLocks) :=
  if needs_unlock b then
    l' ← unlock_accounts (sanitized_txs b) (lock_results b) l;
    Some (mkBatch (lock_results b) (sanitized_txs b) false, l')
  else Some (b, l).

(** ** The locks stand for the transactions that hold them *)

Abbreviation Keys := (list Pubkey * list Pubkey)%type (only parsing).

(** One of them writes an account the other one uses. *)
Definition conflict (x y : Keys) : Prop :=
  ∃ k, (k ∈ x.1 ∧ (k ∈ y.1 ∨ k ∈ y.2)) ∨ (k ∈ y.1 ∧ (k ∈ x.1 ∨ k ∈ x.2)).

Definition readers (H : list Keys) (k : Pubkey) : nat := length (filter (λ h : Keys, k ∈ h.2) H).

Record locked (H : list Keys) (l : AccountLocks) : Prop := {
  lk_write k : k ∈ write_locks l ↔ ∃ h, h ∈ H ∧ k ∈ h.1;
  lk_read k : readonly_locks l !! k = if bool_decide (readers H k = 0%nat) then None else Some (Z.of_nat (readers H k));
  lk_nodup : Forall (λ h, NoDup (h.1 ++ h.2)) H;
  lk_apart i j x y : i ≠ j → H !! i = Some x → H !! j = Some y → ¬ conflict x y;
}.

Lemma readers_pos H k : readers H k ≠ 0%nat ↔ ∃ h, h ∈ H ∧ k ∈ h.2.
Proof.
  unfold readers. destruct (filter _ H) as [|h t] eqn:Hf; cbn.
  - split; [done|]. intros (h & Hh & Hk). assert (Hin : h ∈ filter (λ h : Keys, k ∈ h.2) H) by (by apply list_elem_of_filter).
    rewrite Hf in Hin. set_solver.
  - split; [|lia]. intros _. assert (Hin : h ∈ filter (λ h : Keys, k ∈ h.2) H) by (rewrite Hf; set_solver).
    apply list_elem_of_filter in Hin as [? ?]. eauto.
Qed.

Lemma readers_app H x k : readers (H ++ [x]) k = (readers H k + if bool_decide (k ∈ x.2) then 1 else 0)%nat.
Proof.
  unfold readers. rewrite filter_app, length_app. rewrite filter_cons, filter_nil. by case_decide; case_bool_decide.
Qed.

Lemma locked_readonly H l k : locked H l → is_locked_readonly k l = true ↔ ∃ h, h ∈ H ∧ k ∈ h.2.
Proof.
  intros Hl. unfold is_locked_readonly. rewrite (lk_read _ _ Hl), <-readers_pos.
  case_bool_decide; [done|]. rewrite Z.ltb_lt. lia.
Qed.

Lemma locked_write H l k : locked H l → is_locked_write k l = true ↔ ∃ h, h ∈ H ∧ k ∈ h.1.
Proof. intros Hl. unfold is_locked_write. by rewrite bool_decide_eq_true, (lk_write _ _ Hl). Qed.

Lemma conflict_sym x y : conflict x y → conflict y x.
Proof. intros (k & H). exists k. tauto. Qed.

(** What the two checks of [lock_account] decide. *)
Lemma checks_conflict H l w r :
  locked H l →
  existsb (λ k, is_locked_write k l || is_locked_readonly k l) w || existsb (λ k, is_locked_write k l) r = true ↔
  ∃ h, h ∈ H ∧ conflict (w, r) h.
Proof.
  intros Hl. rewrite orb_true_iff, !existsb_exists. setoid_rewrite orb_true_iff.
  setoid_rewrite (locked_write _ _ _ Hl). setoid_rewrite (locked_readonly _ _ _ Hl). setoid_rewrite <-list_elem_of_In.
  unfold conflict. cbn [fst snd]. split.
  - intros [(k & Hk & [(h & Hh & Hkh)|(h & Hh & Hkh)])|(k & Hk & h & Hh & Hkh)]; exists h; (split; [done|]); exists k; tauto.
  - intros (h & Hh & k & [(Hk & [?|?])|(Hk & [?|?])]).
    + left. exists k. eauto.
    + left. exists k. eauto.
    + left. exists k. eauto.
    + right. exists k. eauto.
Qed.

(** *** Taking locks *)

Lemma lock_all_readonly_spec ks l :
  NoDup ks → (∀ k n, k ∈ ks → readonly_locks l !! k = Some n → 0 <= n < u64_max) →
  ∃ l', lock_all_readonly ks l = (l', Ok tt) ∧ write_locks l' = write_locks l ∧
    ∀ k, readonly_locks l' !! k =
      if bool_decide (k ∈ ks) then Some (default 0 (readonly_locks l !! k) + 1) else readonly_locks l !! k.
Proof.
  intros Hnd. revert l. induction Hnd as [|k ks Hk Hnd IH]; intros l Hb.
  { exists l. split_and!; [done..|]. intros k. by rewrite bool_decide_eq_false_2 by set_solver. }
  set (n := default 0 (readonly_locks l !! k)). set (l1 := mkAccountLocks (write_locks l) (<[k := n + 1]> (readonly_locks l))).
  assert (Hstep : lock_all_readonly (k :: ks) l = lock_all_readonly ks l1).
  { cbn [lock_all_readonly]. unfold mbind, st_bind, lock_readonly, insert_new_readonly, l1, n.
    destruct (readonly_locks l !! k) as [m|] eqn:Hm; cbn; [|by rewrite Hm].
    rewrite add64_id by (destruct (Hb k m ltac:(set_solver) Hm); lia). done. }
  rewrite Hstep.
  destruct (IH l1) as (l' & Hrun & Hw & Hr).
  { intros k' m Hk' Hm. cbn in Hm. rewrite lookup_insert_ne in Hm by set_solver. apply (Hb k' m); [set_solver|done]. }
  exists l'. split_and!; [done..|]. intros k'. rewrite Hr. cbn [readonly_locks l1].
  destruct (decide (k' = k)) as [->|Hne].
  - rewrite bool_decide_eq_false_2, bool_decide_eq_true_2 by set_solver. by rewrite lookup_insert_eq.
  - rewrite lookup_insert_ne by done. by rewrite (bool_decide_ext (k' ∈ ks) (k' ∈ k :: ks)) by set_solver.
Qed.

Lemma insert_writes ws l :
  foldl (λ l k, insert_write k l) l ws = mkAccountLocks (list_to_set ws ∪ write_locks l) (readonly_locks l).
Proof.
  revert l. induction ws as [|k ws IH]; intros [w r]; cbn; [f_equal; set_solver|]. rewrite IH. cbn. f_equal. set_solver.
Qed.

Lemma readers_le H k : (readers H k ≤ length H)%nat.
Proof. unfold readers. apply length_filter. Qed.

(** A transaction gets its locks unless it conflicts with one that has locks,
    and then nothing changes. *)
Lemma lock_account_spec H l w r :
  locked H l → NoDup (w ++ r) → Z.of_nat (length H) < u64_max →
  (∃ l', lock_account w r l = (l', Ok tt) ∧ locked (H ++ [(w, r)]) l') ∨
  (lock_account w r l = (l, Err AccountInUse) ∧ ∃ h, h ∈ H ∧ conflict (w, r) h).
Proof.
  intros Hl Hnd Hlen. pose proof (checks_conflict H l w r Hl) as Hc.
  unfold lock_account. cbv [mbind st_bind get modify ensureS lift ensure].
  destruct (existsb _ w); cbn [orb negb] in *; [right; split; [done|by apply Hc]|].
  destruct (existsb _ r); cbn [negb]; [right; split; [done|by apply Hc]|]. left.
  assert (Hfree : ∀ h, h ∈ H → ¬ conflict (w, r) h) by (intros h Hh Hcf; assert (false = true) by (apply Hc; eauto); done). clear Hc.
  rewrite insert_writes. apply NoDup_app in Hnd as (Hw & Hwr & Hr).
  destruct (lock_all_readonly_spec r (mkAccountLocks (list_to_set w ∪ write_locks l) (readonly_locks l)) Hr) as (l' & -> & Hws & Hrs).
  { intros k n _ Hn. cbn in Hn. rewrite (lk_read _ _ Hl) in Hn. case_bool_decide; [done|]. injection Hn as <-.
    pose proof (readers_le H k). lia. }
  exists l'. split; [done|]. split.
  - intros k. rewrite Hws. cbn. rewrite elem_of_union, elem_of_list_to_set, (lk_write _ _ Hl).
    setoid_rewrite elem_of_app. setoid_rewrite list_elem_of_singleton. naive_solver.
  - intros k. rewrite Hrs, (lk_read _ _ Hl), readers_app. cbn [snd readonly_locks].
    repeat case_bool_decide; cbn; try done; try lia; f_equal; lia.
  - apply Forall_app. split; [apply Hl|]. apply Forall_singleton, NoDup_app. done.
  - intros i j x y Hij Hx Hy. apply lookup_app_Some in Hx as [Hx|[Hi Hx]], Hy as [Hy|[Hj Hy]].
    + by eapply (lk_apart _ _ Hl i j).
    + apply list_lookup_singleton_Some in Hy as [_ <-]. intros Hcf%conflict_sym. eapply Hfree; [|exact Hcf]. by eapply list_elem_of_lookup_2.
    + apply list_lookup_singleton_Some in Hx as [_ <-]. apply Hfree. by eapply list_elem_of_lookup_2.
    + apply list_lookup_singleton_Some in Hx as [? _], Hy as [? _]. lia.
Qed.

(** *** Releasing locks *)

Lemma unlock_reads rs l :
  NoDup rs → (∀ k, k ∈ rs → ∃ n, readonly_locks l !! k = Some n ∧ 0 < n <= u64_max) →
  write_locks (foldl (λ l k, unlock_readonly k l) l rs) = write_locks l ∧
  ∀ k, readonly_locks (foldl (λ l k, unlock_readonly k l) l rs) !! k =
    if bool_decide (k ∈ rs) then
      match readonly_locks l !! k with
      | Some n => if n - 1 =? 0 then None else Some (n - 1)
      | None => None
      end
    else readonly_locks l !! k.
Proof.
  intros Hnd. revert l. induction Hnd as [|k rs Hk Hnd IH]; intros l Hb; cbn [foldl].
  { split; [done|]. intros k. by rewrite bool_decide_eq_false_2 by set_solver. }
  destruct (Hb k ltac:(set_solver)) as (n & Hn & Hpos).
  assert (Hu : unlock_readonly k l = mkAccountLocks (write_locks l)
    (if n - 1 =? 0 then delete k (readonly_locks l) else <[k := n - 1]> (readonly_locks l))).
  { unfold unlock_readonly. by rewrite Hn, sub64_id by (unfold is_u64; lia). }
  assert (Hsame : ∀ k', k' ≠ k → readonly_locks (unlock_readonly k l) !! k' = readonly_locks l !! k').
  { intros k' Hne. rewrite Hu. cbn. destruct (_ =? 0); [by rewrite lookup_delete_ne|by rewrite lookup_insert_ne]. }
  destruct (IH (unlock_readonly k l)) as [Hw Hr].
  { intros k' Hk'. rewrite Hsame by set_solver. apply Hb. set_solver. }
  split; [by rewrite Hw, Hu|]. intros k'. rewrite Hr. destruct (decide (k' = k)) as [->|Hne].
  - rewrite bool_decide_eq_false_2, bool_decide_eq_true_2 by set_solver. rewrite Hn, Hu. cbn.
    destruct (_ =? 0); [by rewrite lookup_delete_eq|by rewrite lookup_insert_eq].
  - rewrite Hsame by done. by rewrite (bool_decide_ext (k' ∈ rs) (k' ∈ k :: rs)) by set_solver.
Qed.

Lemma unlock_writes ws l :
  foldl (λ l k, unlock_write k l) l ws = mkAccountLocks (write_locks l ∖ list_to_set ws) (readonly_locks l).
Proof.
  revert l. induction ws as [|k ws IH]; intros [w r]; cbn; [f_equal; set_solver|]. rewrite IH. cbn. f_equal. set_solver.
Qed.

Lemma readers_middle H1 x H2 k :
  readers (H1 ++ x :: H2) k = (readers (H1 ++ H2) k + if bool_decide (k ∈ x.2) then 1 else 0)%nat.
Proof.
  unfold readers. rewrite !filter_app, !length_app, filter_cons. case_decide; case_bool_decide; cbn; try done; lia.
Qed.

Lemma unlock_account_spec H1 w r H2 l :
  locked (H1 ++ (w, r) :: H2) l → Z.of_nat (length (H1 ++ (w, r) :: H2)) <= u64_max →
  locked (H1 ++ H2) (unlock_account w r l).
Proof.
  intros Hl Hlen. pose proof (lk_nodup _ _ Hl) as Hnd. apply Forall_app in Hnd as [Hnd1 [Hnd Hnd2]%Forall_cons].
  cbn in Hnd. apply NoDup_app in Hnd as (Hw & Hwr & Hr).
  assert (Hmid : ∀ h, h ∈ H1 ++ H2 → ¬ conflict (w, r) h).
  { intros h [i Hi]%list_elem_of_lookup. assert (Hm : (H1 ++ (w, r) :: H2) !! length H1 = Some (w, r)) by (by rewrite list_lookup_middle).
    apply lookup_app_Some in Hi as [Hi|[Hge Hi]].
    - eapply (lk_apart _ _ Hl (length H1) i); [|exact Hm|]; [apply lookup_lt_Some in Hi; lia|]. by apply lookup_app_l_Some.
    - eapply (lk_apart _ _ Hl (length H1) (S i)); [lia|exact Hm|]. rewrite lookup_app_r by lia.
      replace (S i - length H1)%nat with (S (i - length H1)) by lia. done. }
  unfold unlock_account. rewrite unlock_writes.
  destruct (unlock_reads r (mkAccountLocks (write_locks l ∖ list_to_set w) (readonly_locks l)) Hr) as [Hws Hrs].
  { intros k Hk. cbn. rewrite (lk_read _ _ Hl), readers_middle. cbn. rewrite (bool_decide_eq_true_2 (k ∈ r)) by done.
    pose proof (readers_le (H1 ++ H2) k). rewrite length_app in *. cbn in Hlen.
    rewrite bool_decide_eq_false_2 by lia. eexists. split; [done|]. lia. }
  split.
  - intros k. rewrite Hws. cbn. rewrite elem_of_difference, elem_of_list_to_set, (lk_write _ _ Hl).
    setoid_rewrite elem_of_app. setoid_rewrite elem_of_cons. split; [naive_solver|].
    intros (h & Hh & Hk). split; [naive_solver|]. intros Hkw. apply (Hmid h); [by apply elem_of_app|]. exists k. cbn. tauto.
  - intros k. rewrite Hrs. cbn [readonly_locks]. rewrite (lk_read _ _ Hl), readers_middle. cbn [snd].
    destruct (decide (k ∈ r)); [rewrite (bool_decide_eq_true_2 (k ∈ r)) by done|by rewrite (bool_decide_eq_false_2 (k ∈ r)), Nat.add_0_r by done].
    rewrite bool_decide_eq_false_2 by lia.
    case_bool_decide as Hz; [rewrite Hz; done|]. rewrite (proj2 (Z.eqb_neq _ _)) by lia. f_equal. lia.
  - by apply Forall_app.
  - intros i j x y Hij Hx Hy.
    assert (Hshift : ∀ i x, (H1 ++ H2) !! i = Some x → (H1 ++ (w, r) :: H2) !! (if bool_decide (i < length H1)%nat then i else S i) = Some x).
    { clear. intros i x Hx. case_bool_decide.
      - rewrite lookup_app_l in * by done. done.
      - rewrite lookup_app_r in * by lia. by replace (S i - length H1)%nat with (S (i - length H1)) by lia. }
    eapply (lk_apart _ _ Hl); [|by apply Hshift..]. repeat case_bool_decide; lia.
Qed.

(** *** The keys of a transaction *)

Definition writes (m : Message) (k : Pubkey) : Prop := ∃ i, account_keys m !! i = Some k ∧ message_is_writable m i = Some true.
Definition reads (m : Message) (k : Pubkey) : Prop := ∃ i, account_keys m !! i = Some k ∧ message_is_writable m i = Some false.

Lemma is_writable_total m i : (i < length (account_keys m))%nat → is_Some (message_is_writable m i).
Proof.
  intros [k Hk]%lookup_lt_is_Some. unfold message_is_writable. rewrite Hk. cbn. destruct (_ || _); eauto.
Qed.

Lemma lock_keys m :
  ∃ w r, get_account_keys_by_lock_type m = Some (w, r) ∧ (∀ k, k ∈ w ↔ writes m k) ∧ (∀ k, k ∈ r ↔ reads m k) ∧
    (NoDup (account_keys m) → NoDup (w ++ r)).
Proof.
  unfold get_account_keys_by_lock_type. set (n := length (account_keys m)).
  assert (Hws : ∃ ws, mapM (message_is_writable m) (seq 0 n) = Some ws).
  { apply mapM_is_Some_2, Forall_forall. intros i Hi%elem_of_seq. apply is_writable_total. lia. }
  destruct Hws as [ws Hws]. rewrite Hws. cbn. apply mapM_Some in Hws.
  assert (Hlen : length ws = n) by (by rewrite <-(Forall2_length _ _ _ Hws), length_seq).
  assert (Hin : ∀ b k, (b, k) ∈ zip ws (account_keys m) ↔ ∃ i, account_keys m !! i = Some k ∧ message_is_writable m i = Some b).
  { intros b k. rewrite list_elem_of_lookup. setoid_rewrite lookup_zip_with_Some. split.
    - intros (i & b' & k' & [= <- <-] & Hb & Hk). exists i. split; [done|].
      rewrite Forall2_lookup in Hws. specialize (Hws i). rewrite Hb, lookup_seq_lt in Hws by (apply lookup_lt_Some in Hb; lia).
      by inv Hws.
    - intros (i & Hk & Hw). exists i, b, k. split_and!; [done| |done].
      rewrite Forall2_lookup in Hws. specialize (Hws i). rewrite lookup_seq_lt in Hws by (by apply lookup_lt_Some in Hk).
      inv Hws. congruence. }
  do 2 eexists. split_and!; [reflexivity|..].
  - intros k. rewrite list_elem_of_fmap. unfold writes. rewrite <-Hin. split.
    + intros ([b k'] & -> & [Hb Hx]%list_elem_of_filter). cbn in *. by subst.
    + intros Hx. exists (true, k). split; [done|]. by apply list_elem_of_filter.
  - intros k. rewrite list_elem_of_fmap. unfold reads. rewrite <-Hin. split.
    + intros ([b k'] & -> & [Hb Hx]%list_elem_of_filter). cbn in *. by subst.
    + intros Hx. exists (false, k). split; [done|]. by apply list_elem_of_filter.
  - intros Hnd. rewrite <-fmap_app.
    rewrite (list_filter_iff (λ x : bool * Pubkey, x.1 = false) (λ x, ¬ x.1 = true)) by (intros [[] ?]; done).
    rewrite filter_app_complement. by rewrite snd_zip by lia.
Qed.

Definition tx_keys (tx : SanitizedTransaction) : Keys := default ([], []) (get_account_keys_by_lock_type (st_message tx)).

(** The transactions of a batch that got their locks. *)
Definition holders (b : TransactionBatch) : list SanitizedTransaction :=
  if needs_unlock b then (filter (λ x, took_locks x.2 = true) (zip (sanitized_txs b) (lock_results b))).*1 else [].

Lemma tx_keys_Some tx : get_account_keys_by_lock_type (st_message tx) = Some (tx_keys tx).
Proof. unfold tx_keys. destruct (lock_keys (st_message tx)) as (w & r & -> & _). done. Qed.

Lemma mapM_keys txs : mapM (λ tx, get_account_keys_by_lock_type (st_message tx)) txs = Some (tx_keys <$> txs).
Proof. apply mapM_Some, Forall2_fmap_r, Forall2_same_length_lookup_2; [done|]. intros. simplify_eq. apply tx_keys_Some. Qed.

(** *** Runs *)

Definition granted (ks : list Keys) (rs : list (Result unit)) : list Keys :=
  (filter (λ x, took_locks x.2 = true) (zip ks rs)).*1.

Lemma lock_each_spec ks H l :
  locked H l → Forall (λ k : Keys, NoDup (k.1 ++ k.2)) ks → Z.of_nat (length H + length ks) <= u64_max →
  ∃ rs l', lock_each ks l = Some (rs, l') ∧ length rs = length ks ∧ locked (H ++ granted ks rs) l'.
Proof.
  revert H l. induction ks as [|[w r] ks IH]; intros H l Hl Hnd Hlen.
  { exists [], l. split_and!; [done..|]. by rewrite app_nil_r. }
  apply Forall_cons in Hnd as [Hk Hnd]. cbn [length] in Hlen. cbn [lock_each].
  destruct (lock_account_spec H l w r Hl Hk ltac:(lia)) as [(l1 & -> & Hl1)|[-> _]].
  - destruct (IH _ _ Hl1 Hnd) as (rs & l' & -> & Hrs & Hl'); [rewrite length_app; cbn; lia|].
    exists (Ok tt :: rs), l'. cbn. split_and!; [done|by rewrite Hrs|].
    unfold granted in *. cbn. by rewrite <-app_assoc in Hl'.
  - destruct (IH _ _ Hl Hnd ltac:(lia)) as (rs & l' & -> & Hrs & Hl').
    exists (Err AccountInUse :: rs), l'. cbn. split_and!; [done|by rewrite Hrs|done].
Qed.

(** The batches in flight and the locks.  Batches are prepared and dropped in
    any order; their transactions have been sanitized, and there are fewer of
    them than a counter can count. *)
Inductive run : list TransactionBatch → AccountLocks → Prop :=
  | run_start : run [] AccountLocks_default
  | run_prepare bs l txs b l' :
      run bs l → Forall (λ tx, NoDup (account_keys (st_message tx))) txs →
      Z.of_nat (length (bs ≫= holders) + length txs) <= u64_max →
      prepare_sanitized_batch txs l = Some (b, l') → run (bs ++ [b]) l'
  | run_drop bs1 b bs2 l b' l' :
      run (bs1 ++ b :: bs2) l → batch_unlock b l = Some (b', l') → run (bs1 ++ bs2) l'.

Lemma holders_new txs rs b :
  TransactionBatch_new rs txs = Some b → tx_keys <$> holders b = granted (tx_keys <$> txs) rs.
Proof.
  unfold TransactionBatch_new. case_bool_decide as Hlen; [|done]. intros [= <-]. unfold holders, granted. cbn [needs_unlock sanitized_txs lock_results]. clear Hlen.
  revert rs. induction txs as [|tx txs IH]; intros [|r rs]; cbn [zip_with fmap list_fmap]; try done.
  rewrite !filter_cons. cbn [snd]. case_decide; cbn [fmap list_fmap fst]; by rewrite <-?IH.
Qed.

Lemma unlock_holders b l l' :
  needs_unlock b = true → unlock_accounts (sanitized_txs b) (lock_results b) l = Some l' →
  l' = foldl (λ l k, unlock_account k.1 k.2 l) l (tx_keys <$> holders b).
Proof.
  intros Hn. unfold unlock_accounts, holders. rewrite Hn. set (f := filter _ _).
  assert (mapM (λ x : SanitizedTransaction * Result unit, get_account_keys_by_lock_type (st_message x.1)) f = Some (tx_keys <$> f.*1)) as ->.
  { rewrite <-mapM_keys. clear. induction f as [|x f IH]; cbn; [done|]. by rewrite IH. }
  by intros [= <-].
Qed.

Lemma unlock_all_spec H1 hs H2 l :
  locked (H1 ++ hs ++ H2) l → Z.of_nat (length (H1 ++ hs ++ H2)) <= u64_max →
  locked (H1 ++ H2) (foldl (λ l k, unlock_account k.1 k.2 l) l hs).
Proof.
  revert l. induction hs as [|[w r] hs IH]; intros l Hl Hlen; cbn; [done|]. apply IH.
  - by apply unlock_account_spec.
  - rewrite !length_app in *. cbn in Hlen. lia.
Qed.

Lemma run_locked bs l :
  run bs l → locked (tx_keys <$> (bs ≫= holders)) l ∧ Z.of_nat (length (bs ≫= holders)) <= u64_max.
Proof.
  induction 1 as [|bs l txs b l' _ [Hl Hb] Hnd Hlen Hp|bs1 b bs2 l b' l' _ [Hl Hb] Hu].
  - split; [|done]. split; [set_solver|done|constructor|done].
  - unfold prepare_sanitized_batch, lock_accounts in Hp. rewrite mapM_keys in Hp. cbn in Hp.
    destruct (lock_each_spec (tx_keys <$> txs) _ _ Hl) as (rs & l1 & Hrun & Hrs & Hl1).
    { apply Forall_fmap. eapply Forall_impl; [exact Hnd|]. intros tx Hn. cbn.
      destruct (lock_keys (st_message tx)) as (w & r & Hk & _ & _ & Hwr). rewrite tx_keys_Some in Hk. injection Hk as ->. by apply Hwr. }
    { rewrite !length_fmap. done. }
    rewrite Hrun in Hp. cbn in Hp. destruct (TransactionBatch_new rs txs) as [b1|] eqn:Hnew; [|done]. injection Hp as -> ->.
    rewrite bind_app, fmap_app. cbn. rewrite app_nil_r, (holders_new _ _ _ Hnew). split; [done|].
    rewrite length_app. assert (length (holders b) ≤ length txs)%nat; [|lia].
    rewrite <-(length_fmap tx_keys (holders b)), (holders_new _ _ _ Hnew). unfold granted.
    rewrite length_fmap. etrans; [apply length_filter|]. rewrite length_zip_with, length_fmap. lia.
  - rewrite !bind_app in *. cbn in Hl, Hb. rewrite fmap_app. unfold batch_unlock in Hu. destruct (needs_unlock b) eqn:Hn.
    + destruct (unlock_accounts _ _ _) as [l1|] eqn:Hul; [|done]. injection Hu as <- <-. apply unlock_holders in Hul as ->; [|done].
      rewrite !fmap_app in Hl. split; [apply unlock_all_spec; [done|]|]; rewrite !length_app in *; rewrite ?length_fmap; lia.
    + injection Hu as _ <-. assert (holders b = []) as Hh by (unfold holders; by rewrite Hn). rewrite Hh in Hl, Hb. cbn in Hl, Hb.
      by rewrite <-fmap_app.
Qed.

(** C11. Whatever batches are prepared and dropped by whichever threads, the
    transactions that hold locks never conflict: no account one of them writes
    is read or written by another.  An account is write locked, or read
    locked, exactly if such a transaction writes it, or reads it, and when all
    batches are gone no lock is left. *)
Theorem locks_exclusive bs l :
  run bs l →
  (∀ i j x y k, i ≠ j → (bs ≫= holders) !! i = Some x → (bs ≫= holders) !! j = Some y →
    writes (st_message x) k → ¬ writes (st_message y) k ∧ ¬ reads (st_message y) k) ∧
  (∀ k, is_locked_write k l = true ↔ ∃ x, x ∈ bs ≫= holders ∧ writes (st_message x) k) ∧
  (∀ k, is_locked_readonly k l = true ↔ ∃ x, x ∈ bs ≫= holders ∧ reads (st_message x) k) ∧
  (bs = [] → l = AccountLocks_default).
Proof.
  intros [Hl _]%run_locked.
  assert (Hk : ∀ x k, (k ∈ (tx_keys x).1 ↔ writes (st_message x) k) ∧ (k ∈ (tx_keys x).2 ↔ reads (st_message x) k)).
  { intros x k. destruct (lock_keys (st_message x)) as (w & r & Hk & Hw & Hr & _). rewrite tx_keys_Some in Hk.
    injection Hk as ->. auto. }
  split_and!.
  - intros i j x y k Hij Hx Hy Hwk.
    assert (Hno : ¬ conflict (tx_keys x) (tx_keys y)).
    { apply (lk_apart _ _ Hl i j); [done|by rewrite list_lookup_fmap, Hx|by rewrite list_lookup_fmap, Hy]. }
    rewrite <-!(proj1 (Hk _ _)), <-(proj2 (Hk _ _)) in *. split; intros Hyk; apply Hno; exists k; tauto.
  - intros k. rewrite (locked_write _ _ _ Hl). setoid_rewrite list_elem_of_fmap. split.
    + intros (h & (x & -> & Hx) & Hkx). exists x. split; [done|]. by apply Hk.
    + intros (x & Hx & Hkx). exists (tx_keys x). split; [eauto|]. by apply Hk.
  - intros k. rewrite (locked_readonly _ _ _ Hl). setoid_rewrite list_elem_of_fmap. split.
    + intros (h & (x & -> & Hx) & Hkx). exists x. split; [done|]. by apply Hk.
    + intros (x & Hx & Hkx). exists (tx_keys x). split; [eauto|]. by apply Hk.
  - intros ->. cbn in Hl. destruct l as [w r]. unfold AccountLocks_default. f_equal.
    + apply set_eq. intros k. pose proof (lk_write _ _ Hl k) as Hw. cbn in Hw. set_solver.
    + apply map_empty. intros k. apply (lk_read _ _ Hl k).
Qed.

Module example.
(** Payers 1, 4 and 5; the first two write account 2, all read account 3. *)
Definition tx (keys : list Pubkey) : SanitizedTransaction :=
  mkSanitized (mkTransaction [[]] (mkMessage (mkHeader 1 0 1) keys 0 [])) 0.
Definition txs : list SanitizedTransaction := [tx [1; 2; 3]; tx [4; 2; 3]; tx [5; 3]].
Definition batch : TransactionBatch := mkBatch [Ok tt; Err AccountInUse; Ok tt] txs true.
Definition locks : AccountLocks := default AccountLocks_default (snd <$> prepare_sanitized_batch txs AccountLocks_default).

Lemma locks_exclusive_witness :
  (¬ writes (st_message (tx [5; 3])) 2 ∧ ¬ reads (st_message (tx [5; 3])) 2) ∧
  is_locked_write 2 locks = true.
Proof.
  assert (Hrun : run ([] ++ [batch]) locks).
  { apply (run_prepare [] AccountLocks_default txs); [constructor| |done|vm_compute; reflexivity].
    repeat constructor; cbn; set_solver by lia. }
  assert (Hw : writes (st_message (tx [1; 2; 3])) 2) by (exists 1%nat; split; vm_compute; reflexivity).
  destruct (locks_exclusive _ _ Hrun) as (H1 & H2 & _). split.
  - by apply (H1 0%nat 1%nat (tx [1; 2; 3]) (tx [5; 3]) 2).
  - apply H2. exists (tx [1; 2; 3]). split; [vm_compute; set_solver|done].
Defined.
End example.
End account_locks.
