(* ===== verification/StatusCache.v ===== *)
(** * The status cache

    Models [runtime/src/status_cache.rs]: which messages and signatures have
    been processed, by blockhash and by the slot of the bank that processed
    them.  A key is stored under 20 of its bytes, from an index drawn at random
    once for each blockhash; the draw is an argument.  [None] stands for a
    panic. *)

From S2P Require Import Prelude F64 Account Sysvar.
From Stdlib Require Import Strings.Byte.

Module status_cache.

#[export] Instance byte_countable : Countable byte.
Proof. refine (inj_countable Byte.to_N Byte.of_N _). exact Byte.of_to_N. Defined.

Definition MAX_CACHE_ENTRIES : nat := 300.
Definition CACHED_KEY_SIZE : nat := 20.

Section cache.
Context {T : Type}.

Abbreviation KeyMap := (gmap (list byte) (list (Slot * T))) (only parsing).
(** The statuses of a slot: by blockhash, the index and the keys. *)
Abbreviation Status := (gmap Hash (nat * list (list byte * T))) (only parsing).

Record StatusCache : Type := mkStatusCache {
  cache : gmap Hash (Slot * nat * KeyMap);
  roots : gset Slot;
  slot_deltas : gmap Slot Status;
}.

Definition StatusCache_default : StatusCache := mkStatusCache ∅ {[0]} ∅.

Definition max_key_index (key : list byte) : nat := length key - (CACHED_KEY_SIZE + 1).

(** [key[index..index + 20]] *)
Definition slice (key : list byte) (index : nat) : option (list byte) :=
  if bool_decide (index + CACHED_KEY_SIZE <= length key)%nat then Some (take CACHED_KEY_SIZE (drop index key)) else None.

Definition key_slice_of (key : list byte) (index : nat) : option (list byte) :=
  slice key (Nat.min index (max_key_index key)).

Definition get_status (key : list byte) (transaction_blockhash : Hash) (ancestors : gset Slot) (c : StatusCache)
    : option (option (Slot * T)) :=
  match cache c !! transaction_blockhash with
  | None => Some None
  | Some (_, index, keymap) =>
      key_slice ← key_slice_of key index;
      Some (match keymap !! key_slice with
            | Some stored_forks =>
                snd <$> list_find (λ x : Slot * T, x.1 ∈ ancestors ∨ x.1 ∈ roots c) stored_forks
            | None => None
            end)
  end.

Fixpoint first_status (key : list byte) (ancestors : gset Slot) (c : StatusCache) (blockhashes : list Hash)
    : option (option (Slot * T)) :=
  match blockhashes with
  | [] => Some None
  | h :: hs => x ← get_status key h ancestors c; if x is Some _ then Some x else first_status key ancestors c hs
  end.

Definition get_status_any_blockhash (key : list byte) (ancestors : gset Slot) (c : StatusCache)
    : option (option (Slot * T)) :=
  first_status key ancestors c ((map_to_list (cache c)).*1).

Definition insert_with_slice (transaction_blockhash : Hash) (slot : Slot) (key_index : nat) (key_slice : list byte)
    (r : T) (c : StatusCache) : StatusCache :=
  let '(max_slot, index, keymap) := default (slot, key_index, ∅) (cache c !! transaction_blockhash) in
  let forks := default [] (keymap !! key_slice) in
  let deltas := default ∅ (slot_deltas c !! slot) in
  let '(delta_index, entries) := default (key_index, []) (deltas !! transaction_blockhash) in
  mkStatusCache
    (<[transaction_blockhash := (Z.max slot max_slot, index, <[key_slice := forks ++ [(slot, r)]]> keymap)]> (cache c))
    (roots c)
    (<[slot := <[transaction_blockhash := (delta_index, entries ++ [(key_slice, r)])]> deltas]> (slot_deltas c)).

(** [draw] comes from [gen_range(0, max_key_index + 1)]. *)
Definition insert (draw : nat) (transaction_blockhash : Hash) (key : list byte) (slot : Slot) (r : T) (c : StatusCache)
    : option StatusCache :=
  let '(max_slot, index, keymap) := default (slot, draw, ∅) (cache c !! transaction_blockhash) in
  let c := mkStatusCache (<[transaction_blockhash := (Z.max slot max_slot, index, keymap)]> (cache c)) (roots c) (slot_deltas c) in
  let key_index := Nat.min index (max_key_index key) in
  key_slice ← slice key key_index;
  Some (insert_with_slice transaction_blockhash slot key_index key_slice r c).

(** The root [purge_roots] drops. *)
Definition purged_root (c : StatusCache) : option Slot :=
  if bool_decide (MAX_CACHE_ENTRIES < size (roots c))%nat then
    match elements (roots c) with [] => None | x :: l => Some (foldl Z.min x l) end
  else None.

Definition purge_roots (c : StatusCache) : StatusCache :=
  match purged_root c with
  | Some min =>
      mkStatusCache (filter (λ x, min < x.2.1.1) (cache c)) (roots c ∖ {[min]}) (filter (λ x, min < x.1) (slot_deltas c))
  | None => c
  end.

Definition with_root (fork : Slot) (c : StatusCache) : StatusCache :=
  mkStatusCache (cache c) ({[fork]} ∪ roots c) (slot_deltas c).
Definition add_root (fork : Slot) (c : StatusCache) : StatusCache := purge_roots (with_root fork c).

(** One key of a cleared slot; the map for the key must exist. *)
Definition clear_key (slot : Slot) (keymap : option KeyMap) (x : list byte * T) : option KeyMap :=
  m ← keymap;
  key_list ← m !! x.1;
  let kept := filter (λ y : Slot * T, y.1 ≠ slot) key_list in
  Some (if bool_decide (length kept = 0%nat) then delete x.1 m else <[x.1 := kept]> m).

Definition clear_blockhash (slot : Slot) (c : option (gmap Hash (Slot * nat * KeyMap)))
    (x : Hash * (nat * list (list byte * T))) : option (gmap Hash (Slot * nat * KeyMap)) :=
  m ← c;
  '(max_slot, index, all_hash_maps) ← m !! x.1;
  all_hash_maps ← foldl (clear_key slot) (Some all_hash_maps) x.2.2;
  Some (if bool_decide (size all_hash_maps = 0%nat) then delete x.1 m else <[x.1 := (max_slot, index, all_hash_maps)]> m).

Definition clear_slot_entries (slot : Slot) (c : StatusCache) : option StatusCache :=
  match slot_deltas c !! slot with
  | None => Some c
  | Some deltas =>
      m ← foldl (clear_blockhash slot) (Some (cache c)) (map_to_list deltas);
      Some (mkStatusCache m (roots c) (delete slot (slot_deltas c)))
  end.

(** [clear], for tests *)
Definition clear (c : StatusCache) : StatusCache :=
  mkStatusCache ((λ x, (x.1, ∅)) <$> cache c) (roots c) ((λ _, ∅) <$> slot_deltas c).

Definition SlotDelta : Type := Slot * bool * Status.

Definition get_slot_deltas (slots : list Slot) (c : StatusCache) : list SlotDelta :=
  (λ s, (s, bool_decide (s ∈ roots c), default ∅ (slot_deltas c !! s))) <$> slots.

Definition append_delta (c : StatusCache) (d : SlotDelta) : StatusCache :=
  let '(slot, is_root, statuses) := d in
  let c := foldl (λ c x, foldl (λ c y, insert_with_slice x.1 slot x.2.1 y.1 y.2 c) c x.2.2) c (map_to_list statuses) in
  if is_root : bool then add_root slot c else c.
Definition append (l : list SlotDelta) (c : StatusCache) : StatusCache := foldl append_delta c l.
Definition from_slot_deltas (l : list SlotDelta) : StatusCache := append l StatusCache_default.

(** ** What the cache remembers *)

(** An inserted key: its blockhash, the key, the slot and the status. *)
Record Logged : Type := mkLogged { lg_blockhash : Hash; lg_key : list byte; lg_slot : Slot; lg_status : T }.

(** Runs of the cache, with all insertions so far and with those still due:
    clearing a slot forgets its keys, and dropping a root forgets the keys of
    that slot and older ones. *)
Inductive run : list Logged → list Logged → StatusCache → Prop :=
  | run_start : run [] [] StatusCache_default
  | run_insert all due c draw bh key slot r c' :
      run all due c → (draw ≤ max_key_index key)%nat → insert draw bh key slot r c = Some c' →
      run (all ++ [mkLogged bh key slot r]) (due ++ [mkLogged bh key slot r]) c'
  | run_root all due c fork :
      run all due c →
      run all (match purged_root (with_root fork c) with
               | Some min => filter (λ x, min < lg_slot x) due
               | None => due
               end) (add_root fork c)
  | run_clear all due c slot c' :
      run all due c → clear_slot_entries slot c = Some c' → run all (filter (λ x, lg_slot x ≠ slot) due) c'.

(** The key of a logged insertion is in the map of its blockhash. *)
Definition stored (m : gmap Hash (Slot * nat * KeyMap)) (x : Logged) : Prop :=
  ∃ mx idx keymap sl forks, m !! lg_blockhash x = Some (mx, idx, keymap) ∧ key_slice_of (lg_key x) idx = Some sl ∧
    keymap !! sl = Some forks ∧ (lg_slot x, lg_status x) ∈ forks ∧ lg_slot x <= mx.

(** Every entry of the cache comes from an insertion. *)
Definition sourced (all : list Logged) (m : gmap Hash (Slot * nat * KeyMap)) : Prop :=
  ∀ bh mx idx keymap sl forks s r, m !! bh = Some (mx, idx, keymap) → keymap !! sl = Some forks → (s, r) ∈ forks →
    ∃ key, mkLogged bh key s r ∈ all ∧ key_slice_of key idx = Some sl.

Lemma insert_cache draw bh key slot r c c' :
  insert draw bh key slot r c = Some c' →
  ∃ mx idx keymap sl, default (slot, draw, ∅) (cache c !! bh) = (mx, idx, keymap) ∧ key_slice_of key idx = Some sl ∧
    cache c' = <[bh := (Z.max slot mx, idx, <[sl := default [] (keymap !! sl) ++ [(slot, r)]]> keymap)]> (cache c) ∧
    roots c' = roots c.
Proof.
  unfold insert. destruct (default _ _) as [[mx idx] keymap] eqn:Hd. unfold key_slice_of.
  destruct (slice key _) as [sl|] eqn:Hs; cbn; [|done]. intros [= <-]. exists mx, idx, keymap, sl. split; [done|]. split; [done|].
  unfold insert_with_slice. cbn. rewrite lookup_insert_eq. cbn.
  destruct (default (Nat.min idx (max_key_index key), []) _) as [di entries]. cbn. rewrite insert_insert_eq. split; [|done].
  do 3 f_equal. lia.
Qed.

Lemma insert_stored draw bh key slot r c c' x :
  insert draw bh key slot r c = Some c' → stored (cache c) x ∨ x = mkLogged bh key slot r → stored (cache c') x.
Proof.
  intros (mx & idx & km & sl & Hd & Hsl & Hc & _)%insert_cache Hx. unfold stored. rewrite Hc. destruct Hx as [Hx| ->].
  - destruct Hx as (mx' & idx' & km' & sl' & forks & Hm & Hsl' & Hf & Hin & Hle).
    destruct (decide (lg_blockhash x = bh)) as [<-|Hne]; [|rewrite lookup_insert_ne by done; eauto 10].
    rewrite lookup_insert_eq. rewrite Hm in Hd. cbn in Hd. injection Hd as -> -> ->.
    destruct (decide (sl = sl')) as [->|Hne].
    + exists (Z.max slot mx), idx, (<[sl' := default [] (km !! sl') ++ [(slot, r)]]> km), sl', (forks ++ [(slot, r)]).
      split_and!; [done|done|by rewrite lookup_insert_eq, Hf|set_solver|lia].
    + exists (Z.max slot mx), idx, (<[sl := default [] (km !! sl) ++ [(slot, r)]]> km), sl', forks.
      split_and!; [done|done|by rewrite lookup_insert_ne|done|lia].
  - cbn. rewrite lookup_insert_eq.
    do 5 eexists. split_and!; [reflexivity|exact Hsl|by rewrite lookup_insert_eq|set_solver|lia].
Qed.

Lemma insert_sourced draw bh key slot r c c' all :
  insert draw bh key slot r c = Some c' → sourced all (cache c) → sourced (all ++ [mkLogged bh key slot r]) (cache c').
Proof.
  intros (mx & idx & km & sl & Hd & Hsl & Hc & _)%insert_cache Ha bh' mx' idx' km' sl' forks s r' Hm Hk Hin. rewrite Hc in Hm.
  assert (Hold : ∀ km0 mx0, cache c !! bh' = Some (mx0, idx', km0) → ∀ fs, km0 !! sl' = Some fs → (s, r') ∈ fs →
    ∃ key0, mkLogged bh' key0 s r' ∈ all ++ [mkLogged bh key slot r] ∧ key_slice_of key0 idx' = Some sl').
  { intros km0 mx0 H1 fs H2 H3. destruct (Ha _ _ _ _ _ _ _ _ H1 H2 H3) as (key0 & H4 & H5). exists key0. set_solver. }
  destruct (decide (bh' = bh)) as [->|Hne]; [|rewrite lookup_insert_ne in Hm by done; by eapply Hold].
  rewrite lookup_insert_eq in Hm. injection Hm as <- <- <-.
  assert (Hfs : ∀ fs, km !! sl' = Some fs → (s, r') ∈ fs → ∃ key0, mkLogged bh key0 s r' ∈ all ++ [mkLogged bh key slot r] ∧ key_slice_of key0 idx = Some sl').
  { intros fs Hf Hin'. destruct (cache c !! bh) as [x|] eqn:Hx; cbn in Hd; [subst x; by eapply Hold|].
    injection Hd as <- <- <-. by rewrite lookup_empty in Hf. }
  destruct (decide (sl' = sl)) as [->|Hne]; [|rewrite lookup_insert_ne in Hk by done; by eapply Hfs].
  rewrite lookup_insert_eq in Hk. injection Hk as <-. apply elem_of_app in Hin as [Hin|Hin].
  - destruct (km !! sl) as [fs|]; [by eapply Hfs|set_solver].
  - apply list_elem_of_singleton in Hin as [= -> ->]. exists key. set_solver.
Qed.

Lemma purge_cache c bh x :
  cache (purge_roots c) !! bh = Some x ↔ cache c !! bh = Some x ∧ (∀ min, purged_root c = Some min → min < x.1.1).
Proof.
  unfold purge_roots. destruct (purged_root c) as [min|]; cbn; [|naive_solver].
  rewrite map_lookup_filter_Some. naive_solver.
Qed.

Lemma purge_stored c x :
  stored (cache c) x → (∀ min, purged_root c = Some min → min < lg_slot x) → stored (cache (purge_roots c)) x.
Proof.
  intros (mx & idx & km & sl & forks & Hm & H) Hmin. exists mx, idx, km, sl, forks. split; [|done].
  apply purge_cache. split; [done|]. intros min Hp. cbn. destruct H as (_ & _ & _ & Hle). specialize (Hmin min Hp). lia.
Qed.

(** *** Clearing a slot *)

(** Entries go, but only those of slot [s]. *)
Definition key_shrinks (s : Slot) (m m' : KeyMap) : Prop :=
  (∀ sl forks, m !! sl = Some forks → ∀ y, y ∈ forks → y.1 ≠ s → ∃ forks', m' !! sl = Some forks' ∧ y ∈ forks') ∧
  (∀ sl forks', m' !! sl = Some forks' → ∃ forks, m !! sl = Some forks ∧ ∀ y, y ∈ forks' → y ∈ forks).

Definition shrinks (s : Slot) (m m' : gmap Hash (Slot * nat * KeyMap)) : Prop :=
  (∀ bh mx idx km, m !! bh = Some (mx, idx, km) → ∀ sl forks, km !! sl = Some forks → ∀ y, y ∈ forks → y.1 ≠ s →
     ∃ km' forks', m' !! bh = Some (mx, idx, km') ∧ km' !! sl = Some forks' ∧ y ∈ forks') ∧
  (∀ bh mx idx km', m' !! bh = Some (mx, idx, km') → ∃ km, m !! bh = Some (mx, idx, km) ∧
     ∀ sl forks', km' !! sl = Some forks' → ∃ forks, km !! sl = Some forks ∧ ∀ y, y ∈ forks' → y ∈ forks).

#[local] Instance key_shrinks_preorder s : PreOrder (key_shrinks s).
Proof.
  split; [split; eauto|]. intros m1 m2 m3 [A1 B1] [A2 B2]. split.
  - intros sl forks Hs y Hy Hne. destruct (A1 _ _ Hs _ Hy Hne) as (f & Hf & Hyf). by eapply A2.
  - intros sl f3 H3. destruct (B2 _ _ H3) as (f2 & H2 & S2). destruct (B1 _ _ H2) as (f1 & H1 & S1). eauto.
Qed.

#[local] Instance shrinks_preorder s : PreOrder (shrinks s).
Proof.
  split; [split; eauto 10|]. intros m1 m2 m3 [A1 B1] [A2 B2]. split.
  - intros bh mx idx km Hm sl forks Hs y Hy Hne. destruct (A1 _ _ _ _ Hm _ _ Hs _ Hy Hne) as (km2 & f & Hm2 & Hf & Hyf). by eapply A2.
  - intros bh mx idx km3 H3. destruct (B2 _ _ _ _ H3) as (km2 & H2 & S2). destruct (B1 _ _ _ _ H2) as (km1 & H1 & S1).
    exists km1. split; [done|]. intros sl f3 Hf3. destruct (S2 _ _ Hf3) as (f2 & Hf2 & S2'). destruct (S1 _ _ Hf2) as (f1 & Hf1 & S1'). eauto.
Qed.

(** A fold over an optional state keeps a preorder its steps keep. *)
Lemma fold_option_keeps {A B} (R : A → A → Prop) `{!PreOrder R} (f : option A → B → option A) l a a' :
  (∀ x, f None x = None) → (∀ b x b', f (Some b) x = Some b' → R b b') → foldl f (Some a) l = Some a' → R a a'.
Proof.
  intros Hn Hs. revert a. induction l as [|x l IH]; intros a; cbn [foldl]; [by intros [= <-]|].
  destruct (f (Some a) x) as [a1|] eqn:Hx; [|clear IH; induction l; cbn; [done|by rewrite Hn]].
  intros H%IH. etrans; [by eapply Hs|done].
Qed.

Lemma clear_key_shrinks s m x m' : clear_key s (Some m) x = Some m' → key_shrinks s m m'.
Proof.
  unfold clear_key. cbn. destruct (m !! x.1) as [kl|] eqn:Hx; cbn; [|done]. intros [= <-]. split.
  - intros sl forks Hs y Hy Hne. destruct (decide (sl = x.1)) as [->|Hsl].
    + rewrite Hx in Hs. injection Hs as ->.
      assert (Hin : y ∈ filter (λ y : Slot * T, y.1 ≠ s) forks) by (by apply list_elem_of_filter).
      case_bool_decide as Hl; [apply nil_length_inv in Hl; rewrite Hl in Hin; set_solver|]. rewrite lookup_insert_eq. eauto.
    + exists forks. split; [|done]. case_bool_decide; [by rewrite lookup_delete_ne|by rewrite lookup_insert_ne].
  - intros sl forks' Hs. destruct (decide (sl = x.1)) as [->|Hsl].
    + exists kl. split; [done|]. case_bool_decide; [by rewrite lookup_delete_eq in Hs|]. rewrite lookup_insert_eq in Hs. injection Hs as <-.
      intros y [_ Hy]%list_elem_of_filter. done.
    + exists forks'. split; [|done]. case_bool_decide; [by rewrite lookup_delete_ne in Hs|by rewrite lookup_insert_ne in Hs].
Qed.

Lemma clear_blockhash_shrinks s m x m' : clear_blockhash s (Some m) x = Some m' → shrinks s m m'.
Proof.
  unfold clear_blockhash. cbn. destruct (m !! x.1) as [[[mx idx] km]|] eqn:Hx; cbn; [|done].
  destruct (foldl _ _ _) as [km'|] eqn:Hf; cbn; [|done]. intros [= <-].
  apply (fold_option_keeps (key_shrinks s)) in Hf as [Hk1 Hk2]; [|done|apply clear_key_shrinks]. split.
  - intros bh mx1 idx1 km1 Hm sl forks Hs y Hy Hne. destruct (decide (bh = x.1)) as [->|Hbh].
    + rewrite Hx in Hm. injection Hm as <- <- <-. destruct (Hk1 _ _ Hs _ Hy Hne) as (f' & Hf' & Hy').
      case_bool_decide as Hz; [apply map_size_empty_inv in Hz; subst; by rewrite lookup_empty in Hf'|].
      rewrite lookup_insert_eq. eauto.
    + exists km1, forks. split_and!; [|done..]. case_bool_decide; [by rewrite lookup_delete_ne|by rewrite lookup_insert_ne].
  - intros bh mx1 idx1 km1 Hm. destruct (decide (bh = x.1)) as [->|Hbh].
    + case_bool_decide; [by rewrite lookup_delete_eq in Hm|]. rewrite lookup_insert_eq in Hm. injection Hm as <- <- <-. eauto.
    + exists km1. split; [|eauto]. case_bool_decide; [by rewrite lookup_delete_ne in Hm|by rewrite lookup_insert_ne in Hm].
Qed.

Lemma clear_shrinks s c c' : clear_slot_entries s c = Some c' → shrinks s (cache c) (cache c') ∧ roots c' = roots c.
Proof.
  unfold clear_slot_entries. destruct (slot_deltas c !! s) as [d|]; [|by intros [= <-]].
  destruct (foldl _ _ _) as [m|] eqn:Hf; cbn; [|done]. intros [= <-]. split; [|done].
  apply (fold_option_keeps (shrinks s)) in Hf; [done|done|apply clear_blockhash_shrinks].
Qed.

(** ** The cache keeps its promise *)

Lemma run_inv all due c : run all due c → Forall (stored (cache c)) due ∧ sourced all (cache c).
Proof.
  induction 1 as [|all due c draw bh key slot r c' _ [Hd Hs] _ Hi|all due c fork _ [Hd Hs]|all due c slot c' _ [Hd Hs] Hc].
  - split; [done|]. intros bh mx idx km sl forks s r Hm. cbn [cache StatusCache_default] in Hm. by rewrite lookup_empty in Hm.
  - split; [|by eapply insert_sourced]. apply Forall_app. split.
    + eapply Forall_impl; [exact Hd|]. intros x Hx. eapply insert_stored; eauto.
    + apply Forall_singleton. eapply insert_stored; eauto.
  - assert (Hw : Forall (stored (cache (with_root fork c))) due) by done. unfold add_root. split.
    + apply Forall_forall. intros x Hx. apply purge_stored.
      * rewrite Forall_forall in Hw. destruct (purged_root _); [apply list_elem_of_filter in Hx as [_ Hx]|]; auto.
      * intros min Hmin. rewrite Hmin in Hx. by apply list_elem_of_filter in Hx as [? _].
    + intros bh mx idx km sl forks s r [Hm _]%purge_cache. exact (Hs _ _ _ _ _ _ _ _ Hm).
  - apply clear_shrinks in Hc as [[Hkeep Hsub] _]. split.
    + apply Forall_forall. intros x [Hne Hx]%list_elem_of_filter. rewrite Forall_forall in Hd.
      destruct (Hd x Hx) as (mx & idx & km & sl & forks & Hm & Hsl & Hf & Hin & Hle).
      destruct (Hkeep _ _ _ _ Hm _ _ Hf _ Hin Hne) as (km' & f' & Hm' & Hf' & Hin'). by exists mx, idx, km', sl, f'.
    + intros bh mx idx km' sl f' s r Hm' Hf' Hin'. destruct (Hsub _ _ _ _ Hm') as (km & Hm & Hk).
      destruct (Hk _ _ Hf') as (f & Hf & Hin). by eapply Hs; [| |apply Hin].
Qed.

Lemma stored_found c x ancestors :
  stored (cache c) x → lg_slot x ∈ ancestors ∨ lg_slot x ∈ roots c →
  ∃ y, get_status (lg_key x) (lg_blockhash x) ancestors c = Some (Some y).
Proof.
  intros (mx & idx & km & sl & forks & Hm & Hsl & Hf & Hin & _) Hanc. unfold get_status. rewrite Hm. cbn. rewrite Hsl. cbn. rewrite Hf.
  destruct (list_find_elem_of (λ x : Slot * T, x.1 ∈ ancestors ∨ x.1 ∈ roots c) forks _ Hin Hanc) as [[i y] Hy].
  rewrite Hy. cbn. eauto.
Qed.

(** C31. The status cache forgets no key that is due: whatever is inserted,
    rooted and cleared, a key that was inserted for a slot on the fork asked
    about or for a root, whose slot was not cleared and lies above the roots
    dropped since, is found, and looking it up does not panic.  A status that
    is found was inserted for that blockhash, for a slot on the fork or a
    root, and under a key that agrees with the one asked for in the 20 bytes
    compared. *)
Theorem status_cache_remembers all due c ancestors :
  run all due c →
  (∀ x, x ∈ due → lg_slot x ∈ ancestors ∨ lg_slot x ∈ roots c →
    ∃ y, get_status (lg_key x) (lg_blockhash x) ancestors c = Some (Some y)) ∧
  (∀ key bh s r, get_status key bh ancestors c = Some (Some (s, r)) →
    (s ∈ ancestors ∨ s ∈ roots c) ∧
    ∃ key' idx sl, mkLogged bh key' s r ∈ all ∧ key_slice_of key' idx = Some sl ∧ key_slice_of key idx = Some sl).
Proof.
  intros [Hd Hs]%run_inv. split.
  - intros x Hx. rewrite Forall_forall in Hd. apply stored_found, Hd, Hx.
  - intros key bh s r. unfold get_status. destruct (cache c !! bh) as [[[mx idx] km]|] eqn:Hm; [|done].
    destruct (key_slice_of key idx) as [sl|] eqn:Hsl; cbn; [|done]. destruct (km !! sl) as [forks|] eqn:Hf; [|done].
    destruct (list_find _ forks) as [[i y]|] eqn:Hy; cbn; [|done]. intros [= ->].
    apply list_find_Some in Hy as (Hi & Hp & _). split; [done|]. apply list_elem_of_lookup_2 in Hi.
    destruct (Hs _ _ _ _ _ _ _ _ Hm Hf Hi) as (key' & Hin & Hsl'). eauto 10.
Qed.
End cache.
Arguments StatusCache : clear implicits.

Module example.
Definition key : list byte := key_bytes 12345678901234567890.
Definition c1 : StatusCache bool := default StatusCache_default (insert 11 7 key 5 true StatusCache_default).
Definition c2 : StatusCache bool := add_root 4 c1.

Lemma status_cache_remembers_witness :
  (∃ y, get_status key 7 {[5]} c2 = Some (Some y)) ∧ (5 ∈ ({[5]} : gset Slot) ∨ 5 ∈ roots c2).
Proof.
  assert (H1 : run [mkLogged 7 key 5 true] [mkLogged 7 key 5 true] c1).
  { apply (run_insert [] [] StatusCache_default 11 7 key 5 true); [constructor|vm_compute; lia|vm_compute; reflexivity]. }
  pose proof (run_root _ _ _ 4 H1) as H2. change (purged_root (with_root 4 c1)) with (@None Slot) in H2.
  destruct (status_cache_remembers _ _ _ {[5]} H2) as [Hc Hs]. split.
  - apply (Hc (mkLogged 7 key 5 true)); [set_solver|left; set_solver].
  - apply (Hs key 7 5 true). vm_compute. reflexivity.
Defined.
End example.
End status_cache.
