(* ===== verification/MessageProcessor.v ===== *)
(** * The message processor

    Models [runtime/src/message_processor.rs]: the checks on what an
    instruction did to its accounts ([PreAccount]), the invocation stack,
    cross-program invocation by native programs, and the execution of a
    message.

    Programs are parameters.  A program is a tree of the calls it makes on its
    invocation context: it reads and updates the accounts it was given,
    consumes compute units, and invokes other programs; the executable
    accounts it was loaded from are read-only to it, and it holds no borrow
    when it returns or invokes.  Times, logs, executors and the accounts
    database are not modelled. *)

From S2P Require Import Prelude F64 Account Features Sysvar Message.
From Stdlib Require Import Strings.Byte.

Module message_processor.
Import message.

(** ** Checking the effect of an instruction *)

(** The counters of [ExecuteDetailsTimings] that are not times. *)
Record Timings : Type := mkTimings {
  changed_account_count : Z;
  total_account_count : Z;
  total_data_size : Z;
  data_size_changed : Z;
}.
Definition Timings_default : Timings := mkTimings 0 0 0 0.

Record PreAccount : Type := mkPre {
  pre_key : Pubkey;
  pre_account : Account;
  pre_changed : bool;
}.

Definition PreAccount_new (k : Pubkey) (a : Account) : PreAccount := mkPre k a false.

Definition ZEROS_LEN : nat := 1024.

(** [chunks_exact(ZEROS_LEN)]: whole chunks, then the remainder; [n] bounds
    the number of chunks. *)
Fixpoint zero_chunks (n : nat) (buf : list byte) : bool :=
  match n with
  | O => bool_decide (buf = replicate (length buf) x00)
  | S n' =>
      if bool_decide (ZEROS_LEN <= length buf)%nat
      then bool_decide (take ZEROS_LEN buf = replicate ZEROS_LEN x00) &&
           zero_chunks n' (drop ZEROS_LEN buf)
      else bool_decide (buf = replicate (length buf) x00)
  end.
Definition is_zeroed (buf : list byte) : bool := zero_chunks (length buf / ZEROS_LEN) buf.

Definition count_account (post : Account) (changed : bool) (t : Timings) : Timings :=
  let n := Z.of_nat (length (data post)) in
  if changed
  then mkTimings (add64 (changed_account_count t) 1) (add64 (total_account_count t) 1)
         (add64 (total_data_size t) n) (add64 (data_size_changed t) n)
  else mkTimings (changed_account_count t) (add64 (total_account_count t) 1)
         (add64 (total_data_size t) n) (data_size_changed t).

Definition PreAccount_verify (self : PreAccount) (program_id : Pubkey) (is_writable : bool)
    (rent : Rent) (post : Account) (outermost_call updated_verify_policy : bool)
    : ST Timings InstructionError unit :=
  let pre := pre_account self in
  let owner_changed := negb (owner pre =? owner post) in
  ensureS (negb (owner_changed &&
    (negb is_writable || executable pre || negb (program_id =? owner pre) ||
     negb (is_zeroed (data post))))) ModifiedProgramId;;
  ensureS (negb (negb (program_id =? owner pre) && (lamports post <? lamports pre)))
    ExternalAccountLamportSpend;;
  let lamports_changed := negb (lamports pre =? lamports post) in
  ensureS (negb (lamports_changed && negb is_writable)) ReadonlyLamportChange;;
  ensureS (negb (lamports_changed && executable pre)) ExecutableLamportChange;;
  let data_len_changed := negb (bool_decide (length (data pre) = length (data post))) in
  ensureS (negb (data_len_changed &&
    (negb (program_id =? system_program_id) || negb (owner pre =? system_program_id))))
    AccountDataSizeChanged;;
  ensureS (negb (negb ((program_id =? owner pre) && is_writable && negb (executable pre)) &&
                 bool_decide (data pre ≠ data post)))
    (if executable pre then ExecutableDataModified
     else if is_writable then ExternalAccountDataModified else ReadonlyDataModified);;
  let executable_changed := negb (Bool.eqb (executable pre) (executable post)) in
  ensureS (negb (executable_changed && negb (is_exempt rent (lamports post) (length (data post)))))
    ExecutableAccountNotRentExempt;;
  ensureS (negb (executable_changed &&
    (negb is_writable || executable pre ||
     negb (program_id =? (if updated_verify_policy then owner post else owner pre)))))
    ExecutableModified;;
  let rent_epoch_changed := negb (rent_epoch pre =? rent_epoch post) in
  ensureS (negb rent_epoch_changed) RentEpochModified;;
  if outermost_call
  then modify (count_account post (owner_changed || lamports_changed || data_len_changed ||
                                   executable_changed || rent_epoch_changed || pre_changed self))
  else mret tt.

Definition PreAccount_update (a : Account) (self : PreAccount) : PreAccount :=
  mkPre (pre_key self) (set_rent_epoch (rent_epoch (pre_account self)) a) true.

(** ** The invocation context *)

(** A frame of the stack; [frame_start] is the start of the range of keyed
    accounts, and the first [frame_executables] of them are the executable
    accounts. *)
Record Frame : Type := mkFrame {
  frame_key : Pubkey;
  frame_accounts : list KeyedAccount;
  frame_executables : nat;
  frame_start : nat;
}.

(** The mutable part of [ThisInvokeContext], with the cells of all accounts.
    The top of the stack comes first. *)
Record Ctx : Type := mkCtx {
  invoke_stack : list Frame;
  pre_accounts : list PreAccount;
  compute_meter : Z;
  instruction_recorder : option (list Instruction);
  cells : gmap nat Account;
}.

Definition MP (A : Type) : Type := ST Ctx InstructionError A.

Definition with_stack (l : list Frame) (c : Ctx) : Ctx :=
  mkCtx l (pre_accounts c) (compute_meter c) (instruction_recorder c) (cells c).
Definition with_pre (l : list PreAccount) (c : Ctx) : Ctx :=
  mkCtx (invoke_stack c) l (compute_meter c) (instruction_recorder c) (cells c).
Definition with_meter (n : Z) (c : Ctx) : Ctx :=
  mkCtx (invoke_stack c) (pre_accounts c) n (instruction_recorder c) (cells c).
Definition with_recorder (r : option (list Instruction)) (c : Ctx) : Ctx :=
  mkCtx (invoke_stack c) (pre_accounts c) (compute_meter c) r (cells c).
Definition with_cells (s : gmap nat Account) (c : Ctx) : Ctx :=
  mkCtx (invoke_stack c) (pre_accounts c) (compute_meter c) (instruction_recorder c) s.

(** An operation on keyed accounts, on the cells of the context. *)
Definition on_cells {A} (m : M A) : MP A := λ c,
  let '(s, r) := m (cells c) in (with_cells s c, r).

(** [ThisComputeMeter::consume] *)
Definition consume (amount : Z) : MP unit := λ c,
  let exceeded := compute_meter c <? amount in
  (with_meter (saturating_sub (compute_meter c) amount) c,
   if exceeded then Err ComputationalBudgetExceeded else Ok tt).

(** The programs a processor knows and what stays fixed while it runs. *)
Inductive Prog : Type :=
| Return (r : res InstructionError unit)
| KeyedAccounts (k : list KeyedAccount → Prog)
| Read (i : nat) (k : Account → Prog)
| Update (i : nat) (f : Account → Account) (p : Prog)
| Consume (n : Z) (k : res InstructionError unit → Prog)
| NativeInvoke (ix : Instruction) (keyed_account_indices : list nat) (signers : list Pubkey)
    (k : res InstructionError unit → Prog).

(** [ProcessInstructionWithContext] *)
Definition Program : Type := Pubkey → list byte → Prog.

Record Env : Type := mkEnv {
  env_rent : Rent;
  env_accounts : list (Pubkey * nat);
  max_invoke_depth : nat;
  feature_active : Pubkey → bool;
  programs : list (Pubkey * Program);
  native_loader : Program;
}.

Definition frame_range (f : Frame) : list KeyedAccount := drop (frame_start f) (frame_accounts f).

(** [get_keyed_accounts] *)
Definition keyed_accounts : MP (list KeyedAccount) :=
  c ← get; lift (ok_or (frame_range <$> head (invoke_stack c)) CallDepth).

Definition remove_first_keyed_account : MP unit :=
  c ← get;
  match invoke_stack c with
  | f :: l => put (with_stack (mkFrame (frame_key f) (frame_accounts f) (frame_executables f)
                                 (S (frame_start f)) :: l) c)
  | [] => fail CallDepth
  end.

Definition record_instruction (ix : Instruction) : MP unit :=
  modify (λ c, with_recorder ((λ l, l ++ [ix]) <$> instruction_recorder c) c).

Definition get_account (env : Env) (k : Pubkey) : option nat :=
  (λ x, x.2.2) <$> list_find (λ x, x.1 = k) (env_accounts env).

Definition push (env : Env) (k : Pubkey) (executables : nat) (accounts : list KeyedAccount) : MP unit :=
  c ← get;
  ensureS (negb (bool_decide (max_invoke_depth env < length (invoke_stack c))%nat)) CallDepth;;
  let contains := bool_decide (k ∈ (frame_key <$> invoke_stack c)) in
  let is_last := bool_decide (frame_key <$> head (invoke_stack c) = Some k) in
  ensureS (negb (contains && negb is_last)) ReentrancyNotAllowed;;
  ensureS (forallb (λ a, bool_decide (key a ∈ (env_accounts env).*1)) accounts) InvalidArgument;;
  put (with_stack (mkFrame k accounts executables 0 :: invoke_stack c) c).

Definition pop : MP unit := modify (λ c, with_stack (tail (invoke_stack c)) c).

(** ** Verification over the accounts of an instruction

    The closures of the source accumulate the sums of lamports before and
    after; a 256th of [u128] each, so they do not overflow. *)

Definition expect {T A} (o : option A) : ST T InstructionError A := lift (unwrap o).

(** The closure [work] of [create_pre_accounts]; [let _ =] drops its error. *)
Definition create_pre_accounts (m : Message) (ci : CompiledInstruction)
    (accounts : list (Pubkey * nat)) (s : gmap nat Account) : ST (list PreAccount) InstructionError unit :=
  visit_each_account ci (λ _ account_index,
    ensureS (bool_decide (account_index < length (account_keys m))%nat &&
             bool_decide (account_index < length accounts)%nat) MissingAccount;;
    x ← expect (accounts !! account_index);
    a ← expect (s !! x.2);
    modify (λ l, l ++ [PreAccount_new x.1 a])).

(** The state of the closure of [verify]. *)
Definition VState : Type := Timings * (Z * Z).

Definition verify_work (m : Message) (program_id : Pubkey) (pre_accounts : list PreAccount)
    (accounts : list (Pubkey * nat)) (rent : Rent) (updated_verify_policy : bool)
    (s : gmap nat Account) (unique_index account_index : nat) : ST VState InstructionError unit :=
  x ← expect (accounts !! account_index);
  a ← expect (s !! x.2);
  p ← expect (pre_accounts !! unique_index);
  w ← expect (message_is_writable m account_index);
  v ← get;
  '(_, t) ← run_local (PreAccount_verify p program_id w rent a true updated_verify_policy) v.1;
  put (t, (v.2.1 + lamports (pre_account p), v.2.2 + lamports a)).

Definition verify (m : Message) (ci : CompiledInstruction) (pre_accounts : list PreAccount)
    (accounts : list (Pubkey * nat)) (rent : Rent) (updated_verify_policy : bool)
    (s : gmap nat Account) : ST Timings InstructionError unit :=
  program_id ← expect (ci_program_id ci (account_keys m));
  t ← get;
  let '(v, r) := visit_each_account ci
    (verify_work m program_id pre_accounts accounts rent updated_verify_policy s) (t, (0, 0)) in
  put v.1;;
  lift r;;
  ensureS (v.2.1 =? v.2.2) UnbalancedInstruction.

(** The state of the closure of [verify_and_update]. *)
Definition UState : Type := list PreAccount * (Z * Z).

(** The search for the matching [PreAccount], with its update. *)
Fixpoint update_matching (k : Pubkey) (program_id : Pubkey) (is_writable : bool) (rent : Rent)
    (a : Account) (updated_verify_policy : bool) (l : list PreAccount)
    : res InstructionError (PreAccount * list PreAccount) :=
  match l with
  | [] => Err MissingAccount
  | p :: l' =>
      if k =? pre_key p then
        match PreAccount_verify p program_id is_writable rent a false updated_verify_policy
                Timings_default with
        | (_, Ok _) =>
            Ok (p, (if is_writable && negb (executable (pre_account p))
                    then PreAccount_update a p else p) :: l')
        | (_, Err e) => Err e
        | (_, Panic) => Panic
        end
      else
        x ← update_matching k program_id is_writable rent a updated_verify_policy l';
        mret (x.1, p :: x.2)
  end.

Definition update_work (program_id : Pubkey) (accounts : list (Pubkey * nat)) (rent : Rent)
    (write_privileges : list bool) (updated_verify_policy : bool) (s : gmap nat Account)
    (unique_index account_index : nat) : ST UState InstructionError unit :=
  match write_privileges !! account_index, accounts !! account_index with
  | Some is_writable, Some (k, l) =>
      a ← expect (s !! l);
      u ← get;
      x ← lift (update_matching k program_id is_writable rent a updated_verify_policy u.1);
      put (x.2, (u.2.1 + lamports (pre_account x.1), u.2.2 + lamports a))
  | _, _ => fail MissingAccount
  end.

(** [MessageProcessor::verify_and_update] through the context's method: the
    updates done before an error stay. *)
Definition verify_and_update (env : Env) (ci : CompiledInstruction)
    (accounts : list (Pubkey * nat)) (write_privileges : list bool) : MP unit :=
  c ← get;
  f ← lift (ok_or (head (invoke_stack c)) CallDepth);
  let '(u, r) := visit_each_account ci
    (update_work (frame_key f) accounts (env_rent env) write_privileges
       (feature_active env feature_set.updated_verify_policy) (cells c))
    (pre_accounts c, (0, 0)) in
  put (with_pre u.1 c);;
  lift r;;
  ensureS (u.2.1 =? u.2.2) UnbalancedInstruction.

(** ** Dispatch and cross-program invocation *)

(** [MessageProcessor::add_program] *)
Fixpoint add_program (l : list (Pubkey * Program)) (id : Pubkey) (p : Program)
    : list (Pubkey * Program) :=
  match l with
  | [] => [(id, p)]
  | (k, q) :: l' => if id =? k then (k, p) :: l' else (k, q) :: add_program l' id p
  end.

Definition find_program (l : list (Pubkey * Program)) (id : Pubkey) : option Program :=
  (λ x, x.2.2) <$> list_find (λ x, x.1 = id) l.

Definition create_keyed_accounts (m : Message) (ci : CompiledInstruction)
    (executable_accounts accounts : list (Pubkey * nat)) : option (list KeyedAccount) :=
  l ← mapM (λ index, w ← message_is_writable m index; x ← accounts !! index;
                     Some (mkKeyed (message_is_signer m index) w x.1 x.2)) (ci_accounts ci);
  Some (((λ x, mkKeyed false false x.1 x.2) <$> executable_accounts) ++ l).

Inductive UpgradeableLoaderState : Type :=
| ULS_Uninitialized
| ULS_Buffer (authority_address : option Pubkey)
| ULS_Program (programdata_address : Pubkey)
| ULS_ProgramData (slot : Z) (upgrade_authority_address : option Pubkey).

Section processor.
Context `{!Codec UpgradeableLoaderState} (env : Env).

(** [MessageProcessor::process_instruction]; [run] executes a program. *)
Definition process_instruction (run : Prog → MP unit) (table : list (Pubkey * Program))
    (program_id : Pubkey) (instruction_data : list byte) : MP unit :=
  ks ← keyed_accounts;
  match ks with
  | [] => fail UnsupportedProgramId
  | root_account :: _ =>
      o ← on_cells (ka_owner root_account);
      if o =? native_loader_id then
        match find_program table (unsigned_key root_account) with
        | Some p => remove_first_keyed_account;; run (p program_id instruction_data)
        | None => run (native_loader env native_loader_id instruction_data)
        end
      else
        match find_program table o with
        | Some p => run (p program_id instruction_data)
        | None => fail UnsupportedProgramId
        end
  end.

(** The privilege check of [create_message] for one account. *)
Definition check_privileges (ks : list KeyedAccount) (signers : list Pubkey) (m : AccountMeta)
    : res InstructionError unit :=
  k ← ok_or (snd <$> list_find (λ k, key k = pubkey m) ks) MissingAccount;
  ensure (negb (meta_is_writable m && negb (is_writable k))) PrivilegeEscalation;;
  ensure (negb (meta_is_signer m &&
    negb (bool_decide (is_Some (signer_key k)) || bool_decide (pubkey m ∈ signers)))) PrivilegeEscalation.

Fixpoint check_all_privileges (ks : list KeyedAccount) (signers : list Pubkey) (l : list AccountMeta)
    : res InstructionError unit :=
  match l with
  | [] => Ok tt
  | m :: l' => check_privileges ks signers m;; check_all_privileges ks signers l'
  end.

Definition create_message (ix : Instruction) (ks : list KeyedAccount) (signers : list Pubkey)
    : MP (Message * Pubkey) :=
  lift (check_all_privileges ks signers (ix_accounts ix));;
  k ← lift (ok_or (snd <$> list_find (λ k, key k = program_id ix) ks) MissingAccount);
  a ← on_cells (try_account_ref k);
  ensureS (executable a) AccountNotExecutable;;
  m ← expect (Message_new [ix] None);
  mret (m, program_id ix).

(** The part between [push] and the end: the callee, the check of what it did,
    and [pop] whatever the result. *)
Definition call_and_verify (run : Prog → MP unit) (m : Message) (ci : CompiledInstruction)
    (program_id : Pubkey) (accounts : list (Pubkey * nat)) : MP unit := λ c,
  let table := foldl (λ l x, add_program l x.1 x.2) [] (programs env) in
  let '(c1, result) :=
    (process_instruction run table program_id (ci_data ci);;
     write_privileges ← expect (mapM (message_is_writable m) (seq 0 (length (account_keys m))));
     verify_and_update env ci accounts write_privileges) c in
  (pop;; lift result) c1.

Definition process_cross_program_instruction (run : Prog → MP unit) (m : Message)
    (executable_accounts accounts : list (Pubkey * nat)) (caller_write_privileges : list bool)
    : MP unit :=
  match instructions m with
  | [] => fail GenericError
  | ci :: _ =>
      program_id ← expect (ci_program_id ci (account_keys m));
      verify_and_update env ci accounts caller_write_privileges;;
      ks ← expect (create_keyed_accounts m ci executable_accounts accounts);
      push env program_id (length executable_accounts) ks;;
      call_and_verify run m ci program_id accounts
  end.

(** A new cell with a copy of the account. *)
Definition alloc (a : Account) : MP nat := λ c,
  let l := fresh (dom (cells c)) in (with_cells (<[l := a]> (cells c)) c, Ok l).

(** The accounts of the message, copied, with the caller's indices. *)
Fixpoint copy_accounts (ks : list KeyedAccount) (indices : list nat) (keys : list Pubkey)
    : MP (list (Pubkey * nat) * list nat) :=
  match keys with
  | [] => mret ([], [])
  | k :: keys' =>
      let found := list_find (λ i, key <$> ks !! i = Some k) indices in
      match found with
      | None => fail MissingAccount
      | Some (_, i) =>
          ka ← expect (ks !! i);
          a ← on_cells (try_account_ref ka);
          l ← alloc a;
          x ← copy_accounts ks indices keys';
          mret ((k, l) :: x.1, i :: x.2)
      end
  end.

(** The executable accounts of the callee. *)
Definition load_executables (callee : Pubkey) : MP (list (Pubkey * nat)) :=
  l ← lift (ok_or (get_account env callee) MissingAccount);
  a ← on_cells (try_account_ref (mkKeyed false false callee l));
  ensureS (executable a) AccountNotExecutable;;
  if owner a =? bpf_loader_upgradeable_id then
    st ← lift (account_state a);
    match st with
    | ULS_Program programdata_address =>
        l' ← lift (ok_or (get_account env programdata_address) MissingAccount);
        mret [(callee, l); (programdata_address, l')]
    | _ => fail MissingAccount
    end
  else mret [(callee, l)].

(** Copying the results back to the caller. *)
Fixpoint copy_back (m : Message) (ks : list KeyedAccount) (src_index : nat)
    (accounts : list (Pubkey * nat)) (indices : list nat) : MP unit :=
  match accounts, indices with
  | (k, l) :: accounts', dst_index :: indices' =>
      dst ← expect (ks !! dst_index);
      src ← on_cells (try_account_ref (mkKeyed false false k l));
      w ← expect (message_is_writable m src_index);
      (if w && negb (executable src) then
         n ← on_cells (ka_data_len dst);
         ensureS (bool_decide (n = length (data src)) || bool_decide (n = 0%nat)) InvalidRealloc;;
         on_cells (update_account dst (λ a, Ok (set_lamports (lamports src) a)));;
         on_cells (update_account dst (λ a, Ok (set_owner (owner src) a)));;
         on_cells (update_account dst (λ a, Ok (set_data (data src) a)))
       else mret tt);;
      copy_back m ks (S src_index) accounts' indices'
  | _, _ => mret tt
  end.

Fixpoint all_at_index (ks : list KeyedAccount) (indices : list nat)
    : res InstructionError (list KeyedAccount) :=
  match indices with
  | [] => Ok []
  | i :: l => k ← ok_or (ks !! i) NotEnoughAccountKeys; r ← all_at_index ks l; Ok (k :: r)
  end.

Definition native_invoke (run : Prog → MP unit) (ix : Instruction) (keyed_account_indices : list nat)
    (signers : list Pubkey) : MP unit :=
  ks ← keyed_accounts;
  chosen ← lift (all_at_index ks keyed_account_indices);
  x ← create_message ix chosen signers;
  let '(m, callee_program_id) := x in
  let caller_write_privileges := false :: (is_writable <$> chosen) in
  y ← copy_accounts ks keyed_account_indices (account_keys m);
  let '(accounts, reordered) := y in
  record_instruction ix;;
  executable_accounts ← load_executables callee_program_id;
  process_cross_program_instruction run m executable_accounts accounts caller_write_privileges;;
  ks ← keyed_accounts;
  copy_back m ks 0 accounts reordered.

(** ** Running programs *)

(** The [i]th keyed account, if it is not an executable account. *)
Definition instruction_account (f : Frame) (i : nat) : option KeyedAccount :=
  if bool_decide (frame_executables f <= frame_start f + i)%nat then frame_range f !! i else None.

Section exec.
Context (invoke : Instruction → list nat → list Pubkey → MP unit).

Fixpoint exec (p : Prog) : MP unit :=
  match p with
  | Return r => lift r
  | KeyedAccounts k => ks ← keyed_accounts; exec (k ks)
  | Read i k =>
      ks ← keyed_accounts;
      ka ← lift (ok_or (ks !! i) NotEnoughAccountKeys);
      a ← on_cells (try_account_ref ka);
      exec (k a)
  | Update i f p =>
      c ← get;
      fr ← lift (ok_or (head (invoke_stack c)) CallDepth);
      ka ← lift (ok_or (instruction_account fr i) NotEnoughAccountKeys);
      on_cells (update_account ka (λ a, Ok (f a)));;
      exec p
  | Consume n k => λ c,
      let '(c', r) := consume n c in exec (k r) c'
  | NativeInvoke ix indices signers k => λ c,
      match invoke ix indices signers c with
      | (c', Panic) => (c', Panic)
      | (c', r) => exec (k r) c'
      end
  end.
End exec.

(** [fuel] bounds the depth of the invocations; the stack is full before it is
    used up. *)
Fixpoint run (fuel : nat) : Prog → MP unit :=
  exec (match fuel with
        | O => λ _ _ _, panic
        | S fuel' => native_invoke (run fuel')
        end).

(** ** Executing a message *)

(** What the instructions of a message share: the cells, the counters and the
    transaction-wide compute meter. *)
Record Outer : Type := mkOuter {
  o_cells : gmap nat Account;
  o_timings : Timings;
  o_meter : Z;
}.

Definition with_o_cells (s : gmap nat Account) (o : Outer) : Outer :=
  mkOuter s (o_timings o) (o_meter o).

(** The index of the current instruction, in the instructions sysvar. *)
Definition store_instruction_index (m : Message) (instruction_index : nat)
    : ST Outer InstructionError unit :=
  if feature_active env feature_set.instructions_sysvar_enabled then
    match list_find (λ x, x.1 = sysvar_instructions_id)
            (take (length (account_keys m)) (env_accounts env)) with
    | Some (_, (_, l)) =>
        o ← get;
        a ← expect (o_cells o !! l);
        d ← expect (store_current_index (data a) (Z.of_nat instruction_index));
        put (with_o_cells (<[l := set_data d a]> (o_cells o)) o)
    | None => mret tt
    end
  else mret tt.

(** The compute units of an instruction; [max_units] is the budget's. *)
Definition instruction_units (max_units : Z) (program_id : Pubkey) (o : Outer) : Z :=
  if feature_active env feature_set.tx_wide_compute_cap then o_meter o
  else if feature_active env feature_set.neon_evm_compute_budget &&
          (program_id =? neon_evm_program_id)
       then Z.max max_units 500000 else max_units.

(** [ThisInvokeContext::new] *)
Definition ctx_new (m : Message) (ci : CompiledInstruction) (executable_accounts : list (Pubkey * nat))
    (program_id : Pubkey) (meter : Z) (recorder : option (list Instruction)) (s : gmap nat Account)
    : res InstructionError Ctx :=
  match create_pre_accounts m ci (env_accounts env) s [] with
  | (_, Panic) => Panic
  | (pre, _) =>
      ks ← unwrap (create_keyed_accounts m ci executable_accounts (env_accounts env));
      Ok (mkCtx [mkFrame program_id ks (length executable_accounts) 0] pre meter recorder s)
  end.

Definition execute_instruction (m : Message) (ci : CompiledInstruction)
    (executable_accounts : list (Pubkey * nat)) (max_units : Z) (recorder : option (list Instruction))
    (instruction_index : nat) : ST Outer InstructionError (option (list Instruction)) :=
  store_instruction_index m instruction_index;;
  program_id ← expect (ci_program_id ci (account_keys m));
  o ← get;
  c ← lift (ctx_new m ci executable_accounts program_id (instruction_units max_units program_id o)
              recorder (o_cells o));
  let '(c', r) := process_instruction (run (S (max_invoke_depth env))) (programs env) program_id
                    (ci_data ci) c in
  put (mkOuter (cells c') (o_timings o)
         (if feature_active env feature_set.tx_wide_compute_cap then compute_meter c' else o_meter o));;
  lift r;;
  let '(t, r) := verify m ci (pre_accounts c') (env_accounts env) (env_rent env)
                   (feature_active env feature_set.updated_verify_policy) (cells c') (o_timings o) in
  modify (λ o, mkOuter (o_cells o) t (o_meter o));;
  lift r;;
  mret (instruction_recorder c').

(** [process_message]; an error carries the instruction's index as [u8].  The
    recorded inner instructions of each instruction are returned. *)
Fixpoint process_instructions (m : Message) (loaders : list (list (Pubkey * nat))) (max_units : Z)
    (recording : bool) (instruction_index : nat) (cis : list CompiledInstruction)
    : ST Outer (Z * InstructionError) (list (option (list Instruction))) :=
  match cis with
  | [] => mret []
  | ci :: cis' =>
      ex ← lift (unwrap (loaders !! instruction_index));
      r ← mapE (λ e, (Z.of_nat instruction_index mod 256, e))
            (execute_instruction m ci ex max_units (if recording then Some [] else None)
               instruction_index);
      rs ← process_instructions m loaders max_units recording (S instruction_index) cis';
      mret (r :: rs)
  end.

Definition process_message (m : Message) (loaders : list (list (Pubkey * nat))) (max_units : Z)
    (recording : bool) : ST Outer (Z * InstructionError) (list (option (list Instruction))) :=
  process_instructions m loaders max_units recording 0 (instructions m).
End processor.
End message_processor.
