(* ===== verification/AccountRules.v ===== *)
(** * The account rules

    What an instruction may do to an account, and that [PreAccount::verify]
    ([runtime/src/message_processor.rs]) enforces exactly that. *)

From S2P Require Import Prelude F64 Account Features Sysvar Message MessageProcessor.
From Stdlib Require Import Strings.Byte.

Module account_rules.
Import message message_processor.

(** ** The account rules *)

Lemma replicate_all_zero (l : list byte) : l = replicate (length l) x00 ↔ Forall (λ b, b = x00) l.
Proof.
  induction l as [|x l IH]; cbn; [by split|]. rewrite Forall_cons, <-IH.
  split; [by intros [= -> ?]|intros [-> ?]; by f_equal].
Qed.

Lemma zero_chunks_spec n buf : zero_chunks n buf = true ↔ Forall (λ b, b = x00) buf.
Proof.
  revert buf. induction n as [|n IH]; intros buf; cbn [zero_chunks].
  { by rewrite bool_decide_eq_true, replicate_all_zero. }
  case_bool_decide as Hl; [|by rewrite bool_decide_eq_true, replicate_all_zero].
  rewrite andb_true_iff, bool_decide_eq_true, IH.
  rewrite <-(take_drop ZEROS_LEN buf) at 3. rewrite Forall_app, <-(replicate_all_zero (take _ _)).
  by rewrite length_take, Nat.min_l by done.
Qed.

(** The changes the rules allow: the owner may change the owner of a writable
    account that is not executable and whose data it leaves zeroed; only the
    owner takes lamports, and only writable accounts that are not executable
    gain or lose any; only the system program changes the size of its
    accounts' data, and only the owner the data; the executable flag is only
    set, by the owner, on a rent-exempt account; the rent epoch stays. *)
Record allowed (program_id : Pubkey) (is_writable : bool) (rent : Rent) (updated : bool)
    (pre post : Account) : Prop := {
  rule_owner : owner post ≠ owner pre →
    is_writable = true ∧ executable pre = false ∧ owner pre = program_id ∧
    Forall (λ b, b = x00) (data post);
  rule_spend : lamports post < lamports pre → owner pre = program_id;
  rule_lamports : lamports post ≠ lamports pre → is_writable = true ∧ executable pre = false;
  rule_size : length (data post) ≠ length (data pre) →
    program_id = system_program_id ∧ owner pre = system_program_id;
  rule_data : data post ≠ data pre →
    is_writable = true ∧ executable pre = false ∧ owner pre = program_id;
  rule_executable : executable post ≠ executable pre →
    is_writable = true ∧ executable pre = false ∧
    (if updated then owner post else owner pre) = program_id ∧
    is_exempt rent (lamports post) (length (data post)) = true;
  rule_rent_epoch : rent_epoch post = rent_epoch pre;
}.

(** An account that is not writable stays as it is. *)
Lemma allowed_readonly pid rent upd pre post : allowed pid false rent upd pre post → post = pre.
Proof.
  intros [R1 _ R3 _ R5 R6 R7]. destruct pre as [l1 d1 o1 e1 r1], post as [l2 d2 o2 e2 r2]. cbn in *. f_equal.
  - destruct (decide (l2 = l1)) as [|H]; [done|by destruct (R3 H)].
  - destruct (decide (d2 = d1)) as [|H]; [done|by destruct (R5 H)].
  - destruct (decide (o2 = o1)) as [|H]; [done|by destruct (R1 H)].
  - destruct (decide (e2 = e1)) as [|H]; [done|by destruct (R6 H)].
  - done.
Qed.

Lemma ensureS_bind {S E A} (b : bool) (e : E) (k : unit → ST S E A) s :
  b = true → (ensureS b e ≫= k) s = k tt s.
Proof. by intros ->. Qed.

Lemma ensureS_bind_Ok {S E A} (b : bool) (e : E) (k : unit → ST S E A) s s' a :
  (ensureS b e ≫= k) s = (s', Ok a) → b = true ∧ k tt s = (s', Ok a).
Proof. by destruct b. Qed.

(** A guard of the source is [if cond { return Err }]. *)
Lemma guard_off b c : negb (b && c) = true → b = true → c = false.
Proof. destruct b, c; naive_solver. Qed.
Lemma guard_on b c : (b = true → c = false) → negb (b && c) = true.
Proof. destruct b, c; naive_solver. Qed.

Lemma zeroed_spec l : is_zeroed l = true ↔ Forall (λ b, b = x00) l.
Proof. apply zero_chunks_spec. Qed.

(** Boolean tests as propositions. *)
Ltac tests :=
  repeat progress rewrite ?negb_true_iff, ?negb_false_iff, ?orb_false_iff, ?andb_true_iff,
    ?andb_false_iff, ?bool_decide_eq_true, ?bool_decide_eq_false, ?Z.eqb_eq, ?Z.eqb_neq, ?Z.ltb_lt,
    ?Z.ltb_ge, ?eqb_true_iff, ?eqb_false_iff, ?zeroed_spec in *.

Lemma PreAccount_verify_spec p pid w rent post outer upd t :
  (PreAccount_verify p pid w rent post outer upd t).2 = Ok tt ↔
  allowed pid w rent upd (pre_account p) post.
Proof.
  unfold PreAccount_verify. set (pre := pre_account p). split.
  - intros H%run_ok.
    apply ensureS_bind_Ok in H as [H1 H]. apply ensureS_bind_Ok in H as [H2 H].
    apply ensureS_bind_Ok in H as [H3 H]. apply ensureS_bind_Ok in H as [H4 H].
    apply ensureS_bind_Ok in H as [H5 H]. apply ensureS_bind_Ok in H as [H6 H].
    apply ensureS_bind_Ok in H as [H7 H]. apply ensureS_bind_Ok in H as [H8 H].
    apply ensureS_bind_Ok in H as [H9 _].
    pose proof (guard_off _ _ H1) as R1. pose proof (guard_off _ _ H2) as R2.
    pose proof (guard_off _ _ H3) as R3. pose proof (guard_off _ _ H4) as R4.
    pose proof (guard_off _ _ H5) as R5. pose proof (guard_off _ _ H6) as R6.
    pose proof (guard_off _ _ H7) as R7. pose proof (guard_off _ _ H8) as R8.
    clear H1 H2 H3 H4 H5 H6 H7 H8. tests. split.
    + intros. destruct R1 as [[[? ?] ?] ?]; [congruence|]. by split_and!.
    + intros. destruct (Z.eq_dec pid (owner pre)); [congruence|]. specialize (R2 ltac:(done)). lia.
    + intros. split; [apply R3|apply R4]; congruence.
    + intros. apply R5. congruence.
    + intros. destruct (Z.eq_dec pid (owner pre)), w, (executable pre); try naive_solver.
    + intros. destruct R8 as [[? ?] ?]; [congruence|]. split_and!; [done..|]. apply R7. congruence.
    + done.
  - intros [R1 R2 R3 R4 R5 R6 R7].
    rewrite ensureS_bind by (apply guard_on; intros; tests; naive_solver).
    rewrite ensureS_bind by (apply guard_on; intros; tests; destruct (Z.le_gt_cases (lamports pre) (lamports post)); naive_solver).
    rewrite ensureS_bind by (apply guard_on; intros; tests; naive_solver).
    rewrite ensureS_bind by (apply guard_on; intros; tests; naive_solver).
    rewrite ensureS_bind by (apply guard_on; intros; tests; naive_solver).
    rewrite ensureS_bind by (rewrite andb_comm; apply guard_on; intros; tests; naive_solver).
    rewrite ensureS_bind by (apply guard_on; intros; tests; naive_solver).
    rewrite ensureS_bind by (apply guard_on; intros; tests; naive_solver).
    rewrite ensureS_bind by (tests; done). by destruct outer.
Qed.

(** C19. [PreAccount::verify] enforces exactly the account rules: it accepts a
    change if and only if they allow it, for outer and inner instructions and
    both verification policies. *)
Theorem verify_iff_allowed p pid w rent post outer upd t :
  (PreAccount_verify p pid w rent post outer upd t).2 = Ok tt ↔
  allowed pid w rent upd (pre_account p) post.
Proof. apply PreAccount_verify_spec. Qed.
End account_rules.
