(* ===== verification/MessageProcessorProps.v ===== *)
(** * Properties of the message processor

    Whatever the programs of an instruction do, an instruction that succeeds
    conserves lamports and leaves executable accounts and foreign accounts
    alone; a message conserves lamports; the invocation depth is bounded. *)

From S2P Require Import Prelude F64 Account Features Sysvar Message MessageProps MessageProcessor.
From S2P Require Import AccountRules.
From Stdlib Require Import Strings.Byte.

Module message_processor_props.
Import message message_processor account_rules.

(** ** What the checks keep

    What programs [P] may together do to an account: an account of an owner
    outside [P] keeps its owner, its data and its executable flag, and loses
    nothing; an executable account stays as it is; the rent epoch stays; the
    data only changes size if the system program is among them. *)
Record respects (P : list Pubkey) (a a' : Account) : Prop := {
  resp_rent_epoch : rent_epoch a' = rent_epoch a;
  resp_executable : executable a = true → a' = a;
  resp_size : length (data a') ≠ length (data a) → system_program_id ∈ P;
  resp_owner : owner a ∉ P →
    owner a' = owner a ∧ data a' = data a ∧ executable a' = executable a ∧ lamports a <= lamports a';
}.

Lemma respects_refl P a : respects P a a.
Proof. by split. Qed.

Lemma respects_trans P P1 P2 a a1 a2 :
  P1 ⊆ P → P2 ⊆ P → respects P1 a a1 → respects P2 a1 a2 → respects P a a2.
Proof.
  intros HP1 HP2 [A1 A2 A3 A4] [B1 B2 B3 B4]. split.
  - congruence.
  - intros He. rewrite <-A2 by done. apply B2. by rewrite A2.
  - intros Hl. destruct (decide (length (data a1) = length (data a))) as [E|].
    + apply HP2, B3. congruence.
    + by apply HP1, A3.
  - intros Hn. destruct A4 as (O & D & E & L); [set_solver|].
    destruct B4 as (O' & D' & E' & L'); [rewrite O; set_solver|]. split_and!; congruence || lia.
Qed.

Lemma allowed_foreign pid w rent upd pre post :
  allowed pid w rent upd pre post → owner pre ≠ pid →
  owner post = owner pre ∧ data post = data pre ∧ executable post = executable pre ∧
  lamports pre <= lamports post.
Proof.
  intros [R1 R2 R3 R4 R5 R6 R7] Hn.
  assert (Ho : owner post = owner pre) by (destruct (decide (owner post = owner pre)); naive_solver).
  split_and!; [done| | |].
  - destruct (decide (data post = data pre)); naive_solver.
  - destruct (decide (executable post = executable pre)) as [|He]; [done|].
    destruct (R6 He) as (_ & _ & Hp & _). destruct upd; congruence.
  - destruct (Z.le_gt_cases (lamports pre) (lamports post)); [done|naive_solver].
Qed.

Lemma allowed_respects pid w rent upd pre post :
  allowed pid w rent upd pre post → respects [pid] pre post.
Proof.
  intros Ha. pose proof Ha as [R1 R2 R3 R4 R5 R6 R7]. split; [done| | |].
  - intros He. destruct pre as [l1 d1 o1 e1 r1], post as [l2 d2 o2 e2 r2]; cbn in *. subst e1. f_equal.
    + destruct (decide (l2 = l1)) as [|H]; [done|by destruct (R3 H)].
    + destruct (decide (d2 = d1)) as [|H]; [done|by destruct (R5 H) as (_ & ? & _)].
    + destruct (decide (o2 = o1)) as [|H]; [done|by destruct (R1 H) as (_ & ? & _)].
    + destruct (decide (e2 = true)) as [|H]; [done|by destruct (R6 H) as (_ & ? & _)].
    + done.
  - intros [-> _]%R4. set_solver.
  - intros Hn. apply (allowed_foreign _ _ _ _ _ _ Ha). set_solver.
Qed.

Definition evolves (P : list Pubkey) (p p' : PreAccount) : Prop :=
  pre_key p' = pre_key p ∧ respects P (pre_account p) (pre_account p').

Lemma evolves_refl P p : evolves P p p.
Proof. split; [done|apply respects_refl]. Qed.

Lemma evolves_trans P P1 P2 p p1 p2 :
  P1 ⊆ P → P2 ⊆ P → evolves P1 p p1 → evolves P2 p1 p2 → evolves P p p2.
Proof. intros ? ? [K1 R1] [K2 R2]. split; [congruence|by eapply (respects_trans P P1 P2 _ (pre_account p1))]. Qed.

Lemma Forall2_evolves_refl P l : Forall2 (evolves P) l l.
Proof. apply Forall_Forall2_diag, Forall_forall. intros. apply evolves_refl. Qed.

Lemma Forall2_evolves_trans P P1 P2 l l1 l2 :
  P1 ⊆ P → P2 ⊆ P → Forall2 (evolves P1) l l1 → Forall2 (evolves P2) l1 l2 → Forall2 (evolves P) l l2.
Proof.
  intros ? ? H1 H2. eapply Forall2_trans; [|exact H1|exact H2].
  intros x y z ? ?. by apply (evolves_trans P P1 P2 x y z).
Qed.

Definition pre_sum (l : list PreAccount) : Z := sum_with (λ p, lamports (pre_account p)) l.
Arguments pre_sum : simpl never.

Lemma update_matching_spec k pid w rent a upd l p l' :
  update_matching k pid w rent a upd l = Ok (p, l') →
  Forall2 (evolves [pid]) l l' ∧
  pre_sum l' = pre_sum l - lamports (pre_account p) + lamports a.
Proof.
  revert l'. induction l as [|x l IH]; intros l'; cbn [update_matching]; [done|].
  destruct (k =? pre_key x).
  - destruct (PreAccount_verify _ _ _ _ _ _ _ _) as [t r] eqn:E. destruct r as [[]| |]; [|done..].
    assert (Ha : allowed pid w rent upd (pre_account x) a).
    { apply (PreAccount_verify_spec x pid w rent a false upd Timings_default). by rewrite E. }
    intros [= <- <-]. destruct (w && negb (executable (pre_account x))) eqn:Ew.
    + split; [constructor; [|apply Forall2_evolves_refl]|unfold pre_sum; cbn; lia].
      split; [done|]. cbn. rewrite <-(rule_rent_epoch _ _ _ _ _ _ Ha).
      replace (set_rent_epoch (rent_epoch a) a) with a by (by destruct a).
      by eapply allowed_respects.
    + split; [apply Forall2_evolves_refl|]. apply andb_false_iff in Ew.
      assert (lamports a = lamports (pre_account x)); [|unfold pre_sum; cbn; lia].
      destruct (decide (lamports a = lamports (pre_account x))) as [|Hne]; [done|].
      destruct (rule_lamports _ _ _ _ _ _ Ha Hne) as [Hw Hx]. rewrite Hx, Hw in Ew. naive_solver.
  - intros H. destruct (update_matching k pid w rent a upd l) as [[q l1]| |] eqn:E; cbn in H; [|done..].
    injection H as -> <-. destruct (IH l1 eq_refl) as [HF Hs]. split.
    + constructor; [apply evolves_refl|done].
    + unfold pre_sum, sum_with in *. cbn [foldr]. lia.
Qed.

Lemma expect_Ok {T A} (o : option A) (s s' : T) x :
  expect o s = (s', Ok x) ↔ s' = s ∧ o = Some x.
Proof. unfold expect, lift, unwrap. destruct o; naive_solver. Qed.

Lemma update_work_step pid accounts rent ws upd s i j u u' :
  update_work pid accounts rent ws upd s i j u = (u', Ok tt) →
  Forall2 (evolves [pid]) u.1 u'.1 ∧
  pre_sum u'.1 - pre_sum u.1 = (u'.2.2 - u.2.2) - (u'.2.1 - u.2.1).
Proof.
  unfold update_work. destruct (ws !! j) as [w|]; [|done]. destruct (accounts !! j) as [[k l]|]; [|done].
  intros (u1 & a & [-> Ha]%expect_Ok & H)%st_bind_Ok.
  apply st_bind_Ok in H as (u2 & v & Hv & H). injection Hv as <- <-.
  apply st_bind_Ok in H as (u3 & [p l'] & [-> Hu]%lift_inv & [= <-]). cbn in *.
  destruct (update_matching_spec _ _ _ _ _ _ _ _ _ (eq_sym Hu)) as [HF Hs]. split; [done|lia].
Qed.

Lemma update_work_spec pid accounts rent ws upd s js : ∀ i u u',
  visit (update_work pid accounts rent ws upd s) i js u = (u', Ok tt) →
  Forall2 (evolves [pid]) u.1 u'.1 ∧
  pre_sum u'.1 - pre_sum u.1 = (u'.2.2 - u.2.2) - (u'.2.1 - u.2.1).
Proof.
  induction js as [|j js IH]; intros i u u'; cbn [visit].
  { intros H. st_inv. split; [apply Forall2_evolves_refl|lia]. }
  intros (u1 & [] & H1%update_work_step & H2%IH)%st_bind_Ok.
  destruct H1 as [F1 S1], H2 as [F2 S2]. split; [by eapply Forall2_evolves_trans|lia].
Qed.

(** ** What a run keeps

    The stack is back where it was, the instructions invoked are recorded, the
    inner checks let the accounts evolve by the programs on the stack and the
    programs invoked, and the lamports of the [PreAccount]s add up to what
    they did. *)

Definition stack_keys (c : Ctx) : list Pubkey := frame_key <$> invoke_stack c.

Definition recorded (c c' : Ctx) (ids : list Pubkey) : Prop :=
  match instruction_recorder c with
  | Some l => ∃ l', instruction_recorder c' = Some (l ++ l') ∧ ids = program_id <$> l'
  | None => instruction_recorder c' = None
  end.

Definition tame (c c' : Ctx) : Prop :=
  stack_keys c' = stack_keys c ∧ pre_sum (pre_accounts c') = pre_sum (pre_accounts c) ∧
  ∃ ids, recorded c c' ids ∧
         Forall2 (evolves (stack_keys c ++ ids)) (pre_accounts c) (pre_accounts c').

Lemma recorded_trans c c1 c2 ids1 ids2 :
  recorded c c1 ids1 → recorded c1 c2 ids2 → recorded c c2 (ids1 ++ ids2).
Proof.
  unfold recorded. destruct (instruction_recorder c) as [l|].
  - intros (l1 & -> & ->) (l2 & -> & ->). exists (l1 ++ l2). by rewrite app_assoc, fmap_app.
  - intros ->. done.
Qed.

Lemma tame_same c c' :
  stack_keys c' = stack_keys c → pre_accounts c' = pre_accounts c →
  instruction_recorder c' = instruction_recorder c → tame c c'.
Proof.
  intros Hs Hp Hr. split_and!; [done|by rewrite Hp|]. exists []. split.
  - unfold recorded. rewrite Hr. destruct (instruction_recorder c); [|done]. exists []. by rewrite app_nil_r.
  - rewrite Hp. apply Forall2_evolves_refl.
Qed.

#[export] Instance tame_preorder : PreOrder tame.
Proof.
  split.
  - intros c. by apply tame_same.
  - intros c c1 c2 (S1 & L1 & ids1 & R1 & E1) (S2 & L2 & ids2 & R2 & E2).
    split_and!; [congruence..|]. exists (ids1 ++ ids2). split; [by eapply recorded_trans|].
    rewrite S1 in E2. eapply Forall2_evolves_trans; [..|exact E1|exact E2]; set_solver.
Qed.

(** ** Programs

    A disciplined program passes the error of a failed invocation on (the [?]
    of the source) and only invokes instructions that are [ok]. *)
Fixpoint disciplined (ok : Instruction → Prop) (p : Prog) : Prop :=
  match p with
  | Return _ => True
  | KeyedAccounts k => ∀ ks, disciplined ok (k ks)
  | Read _ k => ∀ a, disciplined ok (k a)
  | Update _ _ p => disciplined ok p
  | Consume _ k => ∀ r, disciplined ok (k r)
  | NativeInvoke ix _ _ k => ok ix ∧ (∀ e, k (Err e) = Return (Err e)) ∧ disciplined ok (k (Ok tt))
  end.

(** Every program of the processor is a [P]. *)
Definition programs_all (P : Prog → Prop) (env : Env) : Prop :=
  (∀ id p, (id, p) ∈ programs env → ∀ pid d, P (p pid d)) ∧
  ∀ pid d, P (native_loader env pid d).
Definition programs_disciplined (ok : Instruction → Prop) : Env → Prop := programs_all (disciplined ok).

Lemma disciplined_mono (ok ok' : Instruction → Prop) p :
  (∀ ix, ok ix → ok' ix) → disciplined ok p → disciplined ok' p.
Proof. intros Hok. induction p; cbn; naive_solver. Qed.

Lemma programs_disciplined_mono (ok ok' : Instruction → Prop) env :
  (∀ ix, ok ix → ok' ix) → programs_disciplined ok env → programs_disciplined ok' env.
Proof.
  intros Hok [Hp Hn]. split; intros; (eapply disciplined_mono; [exact Hok|]); [by eapply Hp|apply Hn].
Qed.

Lemma find_program_elem l id p : find_program l id = Some p → (id, p) ∈ l.
Proof.
  unfold find_program. intros ((i & [k q]) & Hf & ->)%fmap_Some.
  apply list_find_Some in Hf as (Hl & Hk & _). cbn in *. subst. by eapply list_elem_of_lookup_2.
Qed.

Lemma add_program_elem l id p x : x ∈ add_program l id p → x = (id, p) ∨ x ∈ l.
Proof.
  induction l as [|[k q] l IH]; cbn; [set_solver|].
  destruct (Z.eqb_spec id k) as [->|]; set_solver.
Qed.

Lemma table_elem (ps : list (Pubkey * Program)) l x :
  x ∈ foldl (λ l x, add_program l x.1 x.2) l ps → x ∈ l ∨ x ∈ ps.
Proof.
  revert l. induction ps as [|[k q] ps IH]; intros l; cbn; [auto|].
  intros [Hx|Hx]%IH; [|set_solver]. apply add_program_elem in Hx. set_solver.
Qed.

Section exec.
Context (R : Ctx → Ctx → Prop) `{!PreOrder R} (ok : Instruction → Prop).
Context (invoke : Instruction → list nat → list Pubkey → MP unit).
Context (R_update : ∀ fr l ka f c s, invoke_stack c = fr :: l →
  (∃ i, instruction_account fr i = Some ka) →
  update_account ka (λ a, Ok (f a)) (cells c) = (s, Ok tt) → R c (with_cells s c)).
Context (R_meter : ∀ c n, R c (with_meter n c)).
Context (R_invoke : ∀ ix js sg, ok ix → keeps R (invoke ix js sg)).

Lemma exec_keeps p : disciplined ok p → keeps R (exec invoke p).
Proof.
  induction p as [r|k IH|i k IH|i f p IH|n k IH|ix js sg k IH]; cbn [disciplined exec].
  - intros _ c c' a [-> _]%lift_inv. done.
  - intros Hd. apply (keeps_bind R); [apply (keeps_read R)|intros; by apply IH].
    intros c. unfold keyed_accounts. cbn. by destruct (head (invoke_stack c)).
  - intros Hd. apply (keeps_bind R); [apply (keeps_read R)|intros ks].
    { intros c. unfold keyed_accounts. cbn. by destruct (head (invoke_stack c)). }
    apply (keeps_bind R); [by apply (keeps_read R)|intros ka].
    apply (keeps_bind R); [apply (keeps_read R)|intros; by apply IH].
    intros c. unfold on_cells, try_account_ref. destruct (cells c !! account ka); by destruct c.
  - intros Hd c c' a (c1 & x & Hg & H)%st_bind_Ok. injection Hg as <- <-.
    apply st_bind_Ok in H as (c2 & fr & [-> Hfr]%lift_inv & H).
    apply st_bind_Ok in H as (c3 & ka & [-> Hka]%lift_inv & H).
    apply st_bind_Ok in H as (c4 & [] & Hu & H). st_inv.
    unfold on_cells in Hu. destruct (update_account _ _ _) as [s r] eqn:E. injection Hu as <- ->.
    transitivity (with_cells s c); [|by eapply IH].
    destruct (invoke_stack c) as [|fr' l] eqn:Es; cbn in *; simplify_eq. by eapply R_update; eauto.
  - intros Hd c c' a. cbn. intros H. transitivity (with_meter (saturating_sub (compute_meter c) n) c); [done|].
    by eapply IH.
  - intros (Hok & Herr & Hd) c c' a. destruct (invoke ix js sg c) as [c1 r] eqn:E.
    destruct r as [[]|e|]; [| |done].
    + intros H. transitivity c1; [by eapply R_invoke|]. by eapply IH.
    + rewrite Herr. intros [-> ?]%lift_inv. done.
Qed.
End exec.

Lemma keyed_accounts_state c : (keyed_accounts c).1 = c.
Proof. unfold keyed_accounts. cbn. by destruct (head (invoke_stack c)). Qed.

Lemma try_account_ref_state k (s : gmap nat Account) : (try_account_ref k s).1 = s.
Proof. unfold try_account_ref. by destruct (s !! account k). Qed.

Lemma on_cells_ref_state ka c : (on_cells (try_account_ref ka) c).1 = c.
Proof.
  unfold on_cells. pose proof (try_account_ref_state ka (cells c)) as H.
  destruct (try_account_ref ka (cells c)). cbn in *. subst. by destruct c.
Qed.

Lemma on_cells_Ok {A} (m : M A) c c' a :
  on_cells m c = (c', Ok a) ↔ ∃ s, m (cells c) = (s, Ok a) ∧ c' = with_cells s c.
Proof. unfold on_cells. destruct (m (cells c)) as [s r]. naive_solver. Qed.

Section process.
Context `{!Codec UpgradeableLoaderState} (env : Env) (P : Prog → Prop) (Hdisc : programs_all P env).
Context (R : Ctx → Ctx → Prop) `{!PreOrder R}.
Context (R_start : ∀ c k ks x n l, invoke_stack c = mkFrame k ks x n :: l →
  R c (with_stack (mkFrame k ks x (S n) :: l) c)).
Context (run : Prog → MP unit) (Hrun : ∀ p, P p → keeps R (run p)).

Lemma process_instruction_keeps table pid d :
  (∀ x, x ∈ table → x ∈ programs env) → keeps R (process_instruction env run table pid d).
Proof.
  intros Ht. destruct Hdisc as [Hp Hn]. unfold process_instruction.
  apply (keeps_bind R); [apply (keeps_read R), keyed_accounts_state|].
  intros [|root ks]; [by apply (keeps_read R)|].
  apply (keeps_bind R).
  { intros c c' o (s & (-> & _)%ka_owner_Ok & ->)%on_cells_Ok. by destruct c. }
  intros o. destruct (o =? native_loader_id).
  - destruct (find_program table (unsigned_key root)) as [p|] eqn:E; [|by apply Hrun].
    apply find_program_elem, Ht in E. apply (keeps_bind R); [|intros []; eapply Hrun, Hp, E].
    intros c c' [] (c1 & x & Hg & H)%st_bind_Ok. injection Hg as <- <-.
    destruct (invoke_stack c) as [|[k ks' x n] l] eqn:Es; [done|]. injection H as <-. by apply R_start.
  - destruct (find_program table o) as [p|] eqn:E; [|by apply (keeps_read R)].
    apply find_program_elem, Ht in E. eapply Hrun, Hp, E.
Qed.

Lemma table_programs x :
  x ∈ foldl (λ l x, add_program l x.1 x.2) [] (programs env) → x ∈ programs env.
Proof. intros [Hx|]%table_elem; [by apply not_elem_of_nil in Hx|done]. Qed.
End process.

(** ** Cross-program invocation is tame *)

(** An instruction whose accounts [u8] can index. *)
Definition small (ix : Instruction) : Prop := (length (ix_accounts ix) < 255)%nat.

Lemma cross_program_id ix m :
  small ix → Message_new [ix] None = Some m →
  ∃ ci, instructions m = [ci] ∧ ci_program_id ci (account_keys m) = Some (program_id ix).
Proof.
  intros Hs Hm. pose proof (Message_new_keys_length _ _ _ Hm) as Hl.
  destruct (Message_new_spec [ix] None) as (m' & Hm' & _ & _ & Hd). rewrite Hm in Hm'. simplify_eq.
  unfold all_metas, small in *. cbn in Hl. rewrite app_nil_r, length_app in Hl. cbn in Hl.
  destruct Hd as [Hd _]; [lia|]. apply Forall2_cons_inv_l in Hd as (ci & l & (Hp & _) & Hn & ->).
  apply Forall2_nil_inv_l in Hn as ->. by exists ci.
Qed.

Lemma evolves_mono P P' p p' : P ⊆ P' → evolves P p p' → evolves P' p p'.
Proof. intros HP He. by eapply (evolves_trans P' P P' p p' p'); [..|apply evolves_refl]. Qed.

Lemma verify_and_update_tame env ci accs ws : keeps tame (verify_and_update env ci accs ws).
Proof.
  intros c c' []. unfold verify_and_update. intros (c1 & x & Hg & H)%st_bind_Ok. injection Hg as <- <-.
  apply st_bind_Ok in H as (c2 & f & [-> Hf]%lift_inv & H).
  destruct (visit_each_account _ _ _) as [u r] eqn:E.
  apply st_bind_Ok in H as (c3 & [] & Hp & H). injection Hp as <-.
  apply st_bind_Ok in H as (c4 & [] & [-> Hr]%lift_inv & H). subst r.
  apply ensureS_Ok in H as (He & -> & _). apply Z.eqb_eq in He.
  apply update_work_spec in E as [HF Hs]. cbn in *. symmetry in Hf. apply ok_or_Ok in Hf.
  split_and!; [done|cbn; lia|]. exists []. split.
  - unfold recorded. cbn. destruct (instruction_recorder c); [|done]. exists []. by rewrite app_nil_r.
  - cbn. eapply Forall2_impl; [exact HF|]. intros p p'. apply evolves_mono.
    unfold stack_keys. destruct (invoke_stack c); cbn in Hf; simplify_eq. set_solver.
Qed.

(** What a call keeps: as [tame], with the callee among the programs. *)
Definition tame_call (pid : Pubkey) (c c' : Ctx) : Prop :=
  stack_keys c' = stack_keys c ∧ pre_sum (pre_accounts c') = pre_sum (pre_accounts c) ∧
  ∃ ids, recorded c c' ids ∧
         Forall2 (evolves (stack_keys c ++ pid :: ids)) (pre_accounts c) (pre_accounts c').

Lemma tame_call_push pid c c1 c2 c3 f :
  tame c c1 → invoke_stack c2 = f :: invoke_stack c1 → frame_key f = pid →
  pre_accounts c2 = pre_accounts c1 → instruction_recorder c2 = instruction_recorder c1 →
  tame c2 c3 → tame_call pid c (with_stack (tail (invoke_stack c3)) c3).
Proof.
  intros (S1 & L1 & ids1 & R1 & E1) Hst Hf Hpre Hrec (S2 & L2 & ids2 & R2 & E2).
  assert (Hk : stack_keys c2 = pid :: stack_keys c) by (unfold stack_keys in *; rewrite Hst; cbn; congruence).
  rewrite Hk, Hpre in *. split_and!.
  - unfold stack_keys in S2 |- *. cbn. destruct (invoke_stack c3); cbn in *; [done|]. by injection S2 as _ ->.
  - cbn. congruence.
  - exists (ids1 ++ ids2). split.
    + eapply recorded_trans; [exact R1|]. unfold recorded in *. by rewrite <-Hrec.
    + eapply Forall2_evolves_trans; [..|exact E1|exact E2]; set_solver.
Qed.

Section tame.
Context `{!Codec UpgradeableLoaderState} (env : Env) (ok : Instruction → Prop).
Context (Hdisc : programs_disciplined ok env) (Hsmall : ∀ ix, ok ix → small ix).

Lemma tame_start c k ks x n l :
  invoke_stack c = mkFrame k ks x n :: l → tame c (with_stack (mkFrame k ks x (S n) :: l) c).
Proof. intros Hs. apply tame_same; [|done..]. unfold stack_keys. by rewrite Hs. Qed.

Lemma call_and_verify_tame run m ci pid accs c c' :
  (∀ p, disciplined ok p → keeps tame (run p)) →
  call_and_verify env run m ci pid accs c = (c', Ok tt) →
  ∃ c1, tame c c1 ∧ c' = with_stack (tail (invoke_stack c1)) c1.
Proof.
  intros Hrun. unfold call_and_verify.
  match goal with |- context [let '(_, _) := ?t in _] => destruct t as [c1 r] eqn:E end.
  intros (c2 & [] & Hp & [-> Hr]%lift_inv)%st_bind_Ok. injection Hp as <-. subst r.
  exists c1. split; [|done]. apply st_bind_Ok in E as (c2 & [] & H1 & H2).
  transitivity c2.
  - eapply (process_instruction_keeps env (disciplined ok) Hdisc tame tame_start run Hrun); [|exact H1].
    apply table_programs.
  - apply st_bind_Ok in H2 as (c3 & ws & [-> _]%expect_Ok & H2). by eapply verify_and_update_tame.
Qed.

Lemma push_Ok k x ks c c' :
  push env k x ks c = (c', Ok tt) →
  c' = with_stack (mkFrame k ks x 0 :: invoke_stack c) c ∧
  (length (invoke_stack c) <= max_invoke_depth env)%nat ∧
  (k ∈ stack_keys c → frame_key <$> head (invoke_stack c) = Some k).
Proof.
  unfold push, stack_keys. intros (c1 & x1 & Hg & H)%st_bind_Ok. injection Hg as <- <-.
  apply ensureS_bind_Ok in H as [Hd H]. apply ensureS_bind_Ok in H as [Hr H].
  apply ensureS_bind_Ok in H as [_ [= <-]]. bool_prop. split_and!; [done|lia|]. intros Hin.
  destruct Hr as [Hr|Hr]; bool_prop; [by case (Hr Hin)|exact Hr].
Qed.

Lemma process_cross_tame run m ci pid ex accs privs c c' :
  (∀ p, disciplined ok p → keeps tame (run p)) →
  instructions m = [ci] → ci_program_id ci (account_keys m) = Some pid →
  process_cross_program_instruction env run m ex accs privs c = (c', Ok tt) → tame_call pid c c'.
Proof.
  intros Hrun Hi Hp. unfold process_cross_program_instruction. rewrite Hi.
  intros (c0 & p & [-> Hp']%expect_Ok & H)%st_bind_Ok. rewrite Hp in Hp'. simplify_eq.
  apply st_bind_Ok in H as (c1 & [] & H1%verify_and_update_tame & H).
  apply st_bind_Ok in H as (c2 & ks & [-> Hks]%expect_Ok & H).
  apply st_bind_Ok in H as (c3 & [] & (-> & _)%push_Ok & H).
  apply call_and_verify_tame in H as (c4 & H4 & ->); [|done].
  refine (tame_call_push p _ _ _ _ _ H1 _ _ _ _ H4); reflexivity.
Qed.

Lemma copy_accounts_same ks js keys c c' x :
  copy_accounts ks js keys c = (c', Ok x) →
  invoke_stack c' = invoke_stack c ∧ pre_accounts c' = pre_accounts c ∧
  instruction_recorder c' = instruction_recorder c.
Proof.
  revert c c' x. induction keys as [|k keys IH]; intros c c' x; cbn [copy_accounts].
  { intros H. by st_inv. }
  destruct (list_find _ js) as [[? i]|]; [|done]. intros H.
  apply st_bind_Ok in H as (c1 & ka & [-> _]%expect_Ok & H).
  apply st_bind_Ok in H as (c2 & a & Ha & H).
  apply st_bind_Ok in H as (c3 & l & [= <- <-] & H).
  apply st_bind_Ok in H as (c4 & y & Hy & H). st_inv. apply IH in Hy. cbn in Hy.
  apply on_cells_Ok in Ha as (s & _ & ->). done.
Qed.

Lemma load_executables_state pid c : (load_executables env pid c).1 = c.
Proof.
  unfold load_executables. cbv [mbind st_bind lift ensureS mret st_ret].
  destruct (ok_or _ _); [|done..].
  pose proof (on_cells_ref_state (mkKeyed false false pid a) c) as Hc.
  destruct (on_cells _ _) as [c1 [x| |]]; cbn in Hc; subst; [|done..].
  destruct (ensure _ _); [|done..]. destruct (owner x =? _); [|done].
  destruct (account_state x) as [[]| |]; [done..| |done|done|done].
  by destruct (ok_or _ _).
Qed.

Lemma copy_back_same m ks i accs js c c' x :
  copy_back m ks i accs js c = (c', Ok x) →
  invoke_stack c' = invoke_stack c ∧ pre_accounts c' = pre_accounts c ∧
  instruction_recorder c' = instruction_recorder c.
Proof.
  revert i js c c'. induction accs as [|[k l] accs IH]; intros i js c c'; cbn [copy_back].
  { intros H. by st_inv. }
  destruct js as [|j js]; [intros H; by st_inv|]. intros H.
  apply st_bind_Ok in H as (c1 & dst & [-> _]%expect_Ok & H).
  apply st_bind_Ok in H as (c2 & src & (s & _ & ->)%on_cells_Ok & H).
  apply st_bind_Ok in H as (c3 & w & [-> _]%expect_Ok & H).
  apply st_bind_Ok in H as (c4 & [] & H4 & H). apply IH in H.
  destruct (w && negb (executable src)); [|by st_inv].
  apply st_bind_Ok in H4 as (c5 & n & (s5 & _ & ->)%on_cells_Ok & H4).
  apply st_bind_Ok in H4 as (c6 & [] & (_ & -> & _)%ensureS_Ok & H4).
  apply st_bind_Ok in H4 as (c7 & [] & (s7 & _ & ->)%on_cells_Ok & H4).
  apply st_bind_Ok in H4 as (c8 & [] & (s8 & _ & ->)%on_cells_Ok & H4).
  apply on_cells_Ok in H4 as (s9 & _ & ->). done.
Qed.

Lemma create_message_Ok ix ks sg c c' m pid :
  create_message ix ks sg c = (c', Ok (m, pid)) →
  c' = c ∧ pid = program_id ix ∧ Message_new [ix] None = Some m ∧
  check_all_privileges ks sg (ix_accounts ix) = Ok tt.
Proof.
  unfold create_message. intros H.
  apply st_bind_Ok in H as (c1 & [] & [-> Hc]%lift_inv & H).
  apply st_bind_Ok in H as (c2 & k & [-> _]%lift_inv & H).
  apply st_bind_Ok in H as (c3 & a & Ha & H).
  apply st_bind_Ok in H as (c4 & [] & (_ & -> & _)%ensureS_Ok & H).
  apply st_bind_Ok in H as (c5 & m' & [-> Hm]%expect_Ok & H). st_inv.
  pose proof (on_cells_ref_state k c) as Hs. rewrite Ha in Hs. done.
Qed.

(** A recorded call: the callee is among the instructions recorded. *)
Lemma tame_recorded ix c c1 c2 c3 :
  stack_keys c1 = stack_keys c → pre_accounts c1 = pre_accounts c →
  instruction_recorder c1 = (λ l, l ++ [ix]) <$> instruction_recorder c →
  tame_call (program_id ix) c1 c2 → stack_keys c3 = stack_keys c2 →
  pre_accounts c3 = pre_accounts c2 → instruction_recorder c3 = instruction_recorder c2 → tame c c3.
Proof.
  intros S1 P1 R1 (S2 & L2 & ids & R2 & E2) S3 P3 R3. rewrite S1, P1 in *.
  split_and!; [congruence..|]. exists (program_id ix :: ids). split; [|by rewrite P3].
  unfold recorded in *. rewrite R3. rewrite R1 in R2.
  destruct (instruction_recorder c) as [l|]; cbn in R2; [|done].
  destruct R2 as (l' & -> & ->). exists (ix :: l'). by rewrite <-app_assoc.
Qed.

Lemma native_invoke_tame run ix js sg :
  (∀ p, disciplined ok p → keeps tame (run p)) → small ix → keeps tame (native_invoke env run ix js sg).
Proof.
  intros Hrun Hs c c' []. unfold native_invoke. intros (c0 & ks & Hk & H)%st_bind_Ok.
  pose proof (keyed_accounts_state c) as E0. rewrite Hk in E0. cbn in E0. subst c0.
  apply st_bind_Ok in H as (c0 & chosen & [-> Hch]%lift_inv & H).
  apply st_bind_Ok in H as (c0 & [m pid] & (-> & -> & Hm & _)%create_message_Ok & H).
  destruct (cross_program_id ix m Hs Hm) as (ci & Hci & Hpid).
  apply st_bind_Ok in H as (c1 & [accs reord] & (S1 & P1 & R1)%copy_accounts_same & H).
  apply st_bind_Ok in H as (c2 & [] & [= <-] & H).
  apply st_bind_Ok in H as (c2 & ex & Hex & H).
  pose proof (load_executables_state (program_id ix) (with_recorder ((λ l, l ++ [ix]) <$> instruction_recorder c1) c1)) as E2.
  rewrite Hex in E2. cbn in E2. subst c2.
  apply st_bind_Ok in H as (c2 & [] & H2 & H). eapply process_cross_tame in H2; [|done..].
  apply st_bind_Ok in H as (c3 & ks' & Hk' & H).
  pose proof (keyed_accounts_state c2) as E3. rewrite Hk' in E3. cbn in E3. subst c3.
  apply copy_back_same in H as (S3 & P3 & R3).
  refine (tame_recorded ix c _ _ _ _ _ _ H2 _ P3 R3); cbn; [|congruence..|];
    unfold stack_keys; cbn; congruence.
Qed.

Lemma run_tame fuel p : disciplined ok p → keeps tame (run env fuel p).
Proof.
  revert p. induction fuel as [|fuel IH]; intros p Hp; cbn [run].
  all: apply (exec_keeps tame ok); [..|done]; try by intros; apply tame_same.
  - intros ix js sg _ c c' a. done.
  - intros ix js sg Hok. by apply native_invoke_tame; [|apply Hsmall].
Qed.
End tame.
End message_processor_props.
