(* ===== verification/MessageDepth.v ===== *)
(** * The depth of invocations

    Every invocation leaves the stack as high as it found it, whatever its
    result, and the stack is never higher than the budget allows; so the fuel
    of [run] is never used up. *)

From S2P Require Import Prelude F64 Account Features Sysvar Message MessageProcessor.
From S2P Require Import AccountRules MessageProcessorProps.

Module message_depth.
Import message message_processor account_rules message_processor_props.

Definition depth (n : nat) (c : Ctx) : Prop := length (invoke_stack c) = n.

(** Two computations that agree on the contexts of a height, and keep it. *)
Definition agrees {A} (n n' : nat) (m m' : MP A) : Prop :=
  ∀ c, depth n c → m c = m' c ∧ depth n' (m c).1.

Lemma agrees_bind {A B} n (m m' : MP A) (k k' : A → MP B) :
  agrees n n m m' → (∀ a, agrees n n (k a) (k' a)) → agrees n n (m ≫= k) (m' ≫= k').
Proof.
  intros Hm Hk c Hc. destruct (Hm c Hc) as [E D]. unfold mbind, st_bind. rewrite <-E.
  destruct (m c) as [c1 [a|e|]]; [by apply Hk|done..].
Qed.

Lemma agrees_read {A} n (m : MP A) : (∀ c, (m c).1 = c) → agrees n n m m.
Proof. intros Hm c Hc. split; [done|]. by rewrite Hm. Qed.

Lemma agrees_refl_bind {A B} n (m : MP A) (k : A → MP B) :
  agrees n n m m → (∀ a, agrees n n (k a) (k a)) → agrees n n (m ≫= k) (m ≫= k).
Proof. apply agrees_bind. Qed.

Lemma agrees_on_cells {A} n (m : M A) : agrees n n (on_cells m) (on_cells m).
Proof. intros c Hc. split; [done|]. unfold on_cells. by destruct (m (cells c)). Qed.

Lemma agrees_lift {A} n (r : res InstructionError A) : agrees n n (lift r) (lift r).
Proof. by apply agrees_read. Qed.

Lemma agrees_modify n (f : Ctx → Ctx) :
  (∀ c, invoke_stack (f c) = invoke_stack c) → agrees n n (modify f) (modify f).
Proof. intros Hf c Hc. split; [done|]. unfold depth. cbn. by rewrite Hf. Qed.

Create HintDb depth discriminated.
#[export] Hint Resolve agrees_on_cells agrees_lift : depth.

Lemma agrees_keyed_accounts n : agrees n n keyed_accounts keyed_accounts.
Proof. apply agrees_read, keyed_accounts_state. Qed.

Lemma agrees_expect {A} n (o : option A) : agrees n n (expect o) (expect o).
Proof. by apply agrees_read. Qed.

Lemma agrees_ensure n b e : agrees n n (ensureS b e) (ensureS b e).
Proof. by apply agrees_read. Qed.

Lemma agrees_mret {A} n (a : A) : agrees n n (mret a) (mret a).
Proof. by apply agrees_read. Qed.

Lemma agrees_fail {A} n e : agrees n n (fail (A:=A) e) (fail e).
Proof. by apply agrees_read. Qed.

Lemma agrees_alloc n a : agrees n n (alloc a) (alloc a).
Proof. by intros c Hc. Qed.

Lemma agrees_verify_and_update env n ci accs ws :
  agrees n n (verify_and_update env ci accs ws) (verify_and_update env ci accs ws).
Proof.
  intros c Hc. split; [done|]. unfold verify_and_update. cbv [mbind st_bind get lift put].
  destruct (ok_or _ _); [|done..]. destruct (visit_each_account _ _ _) as [u [[]| |]]; [|done..].
  unfold ensureS, lift. by destruct (ensure _ _).
Qed.

#[export] Hint Resolve agrees_keyed_accounts agrees_expect agrees_ensure agrees_mret agrees_fail
  agrees_alloc agrees_verify_and_update : depth.

(** Walks through a computation bind by bind. *)
Ltac agree :=
  repeat match goal with
  | |- agrees _ _ (_ ≫= _) (_ ≫= _) => apply agrees_bind; [|intros ?]
  | |- agrees _ _ (match ?x with _ => _ end) _ => destruct x
  end; auto with depth.

Lemma agrees_copy_accounts n ks js keys :
  agrees n n (copy_accounts ks js keys) (copy_accounts ks js keys).
Proof. induction keys as [|k keys IH]; cbn [copy_accounts]; agree. Qed.

Lemma agrees_copy_back n m ks i accs js :
  agrees n n (copy_back m ks i accs js) (copy_back m ks i accs js).
Proof.
  revert i js. induction accs as [|[k l] accs IH]; intros i [|j js]; cbn [copy_back]; agree.
Qed.
#[export] Hint Resolve agrees_copy_accounts agrees_copy_back : depth.

Section depth.
Context `{!Codec UpgradeableLoaderState} (env : Env).

Lemma agrees_load_executables n pid : agrees n n (load_executables env pid) (load_executables env pid).
Proof. apply agrees_read, load_executables_state. Qed.

Lemma agrees_create_message n ix ks sg : agrees n n (create_message ix ks sg) (create_message ix ks sg).
Proof. unfold create_message. agree. Qed.

Lemma agrees_remove_first n : agrees n n remove_first_keyed_account remove_first_keyed_account.
Proof.
  intros c Hc. split; [done|]. unfold remove_first_keyed_account. cbv [mbind st_bind get put fail].
  unfold depth in *. destruct (invoke_stack c) eqn:E; cbn; [by rewrite E|done].
Qed.
#[local] Hint Resolve agrees_load_executables agrees_create_message agrees_remove_first : depth.

Section runs.
Context (n : nat) (run1 run2 : Prog → MP unit) (Hrun : ∀ p, agrees n n (run1 p) (run2 p)).

Lemma agrees_process_instruction table pid d :
  agrees n n (process_instruction env run1 table pid d) (process_instruction env run2 table pid d).
Proof.
  unfold process_instruction. agree.
Qed.
End runs.

Lemma agrees_call_and_verify n run1 run2 m ci pid accs :
  (∀ p, agrees (S n) (S n) (run1 p) (run2 p)) →
  agrees (S n) n (call_and_verify env run1 m ci pid accs) (call_and_verify env run2 m ci pid accs).
Proof.
  intros Hrun c Hc. unfold call_and_verify.
  match goal with |- (let '(_, _) := ?x in _) = (let '(_, _) := ?y in _) ∧ _ =>
    assert (HA : x = y ∧ depth (S n) x.1) end.
  { revert c Hc. apply (agrees_bind (S n)); [by apply agrees_process_instruction|intros []; agree]. }
  destruct HA as [<- D].
  match goal with |- (let '(_, _) := ?x in _) = _ ∧ _ => destruct x as [c1 r] end.
  split; [done|]. revert D. unfold depth. cbn [fst]. unfold mbind, st_bind, pop, modify, lift. cbn.
  destruct (invoke_stack c1); [done|]. by intros [= <-].
Qed.

Lemma push_result k x ks c :
  (push env k x ks c = (with_stack (mkFrame k ks x 0 :: invoke_stack c) c, Ok tt) ∧
   (length (invoke_stack c) <= max_invoke_depth env)%nat) ∨
  ∃ e, push env k x ks c = (c, Err e).
Proof.
  unfold push. cbv [mbind st_bind get put].
  unfold ensureS, lift, ensure. case_bool_decide as Hd; cbn; [right; by eexists|].
  destruct (negb _); [|right; by eexists]. destruct (forallb _ _); [|right; by eexists].
  left. split; [done|lia].
Qed.

Lemma agrees_process_cross n run1 run2 m ex accs privs :
  ((n <= max_invoke_depth env)%nat → ∀ p, agrees (S n) (S n) (run1 p) (run2 p)) →
  agrees n n (process_cross_program_instruction env run1 m ex accs privs)
             (process_cross_program_instruction env run2 m ex accs privs).
Proof.
  intros Hrun. unfold process_cross_program_instruction. destruct (instructions m) as [|ci cis]; [agree|].
  do 3 (apply agrees_bind; [auto with depth|intros ?]). intros c Hc.
  unfold mbind, st_bind. destruct (push_result a (length ex) a1 c) as [[E Hd]|[e E]]; rewrite E; [|done].
  unfold depth in Hc. apply (agrees_call_and_verify n); [apply Hrun; lia|]. unfold depth. cbn. congruence.
Qed.

Lemma agrees_native_invoke n run1 run2 ix js sg :
  ((n <= max_invoke_depth env)%nat → ∀ p, agrees (S n) (S n) (run1 p) (run2 p)) →
  agrees n n (native_invoke env run1 ix js sg) (native_invoke env run2 ix js sg).
Proof.
  intros Hrun. pose proof (agrees_process_cross n run1 run2) as Hcross. unfold native_invoke, record_instruction.
  agree. by apply agrees_modify.
Qed.

Lemma agrees_exec n invoke1 invoke2 p :
  (∀ ix js sg, agrees n n (invoke1 ix js sg) (invoke2 ix js sg)) →
  agrees n n (exec invoke1 p) (exec invoke2 p).
Proof.
  intros Hinv. induction p as [r|k IH|i k IH|i f p IH|q k IH|ix js sg k IH]; cbn [exec].
  1-4: agree; by apply agrees_read.
  - intros c Hc. cbn. by apply IH.
  - intros c Hc. destruct (Hinv ix js sg c Hc) as [<- D]. cbn.
    destruct (invoke1 ix js sg c) as [c1 [[]|e|]]; [by apply IH..|done].
Qed.

Lemma run_agrees fuel n k p :
  (0 < fuel)%nat → (max_invoke_depth env + 1 < fuel + n)%nat →
  agrees n n (run env fuel p) (run env (fuel + k) p).
Proof.
  revert n p. induction fuel as [|fuel IH]; intros n p Hf Hn; [lia|]. cbn [run plus].
  apply agrees_exec. intros ix js sg. apply agrees_native_invoke. intros Hd q. apply IH; lia.
Qed.

(** C21. The fuel of [run] is never used up: with more fuel the result is the
    same, from any context whose stack leaves less room for invocations than
    the fuel, as the context an instruction starts with does; and a run leaves
    the stack as high as it was, whatever its result. *)
Theorem run_fuel_enough fuel n p c :
  (0 < fuel)%nat → (max_invoke_depth env + 1 < fuel + length (invoke_stack c))%nat →
  run env (fuel + n) p c = run env fuel p c ∧
  length (invoke_stack (run env fuel p c).1) = length (invoke_stack c).
Proof. intros Hf Hn. destruct (run_agrees fuel _ n p Hf Hn c eq_refl) as [E D]. split; [by rewrite E|exact D]. Qed.
End depth.
End message_depth.
