(* ===== verification/MessageFrame.v ===== *)
(** * The cells an instruction can write

    Whatever the programs do, only the cells of the instruction's accounts
    change; the copies made for cross-program invocations are new cells. *)

From S2P Require Import Prelude F64 Account Features Sysvar Message MessageProps.
From S2P Require Import MessageProcessor AccountRules MessageProcessorProps.
From Stdlib Require Import Strings.Byte.

Module message_frame.
Import message message_processor account_rules message_processor_props.

(** Only the cells [W] change; new cells may appear. *)
Definition outside (W : list nat) (s s' : gmap nat Account) : Prop :=
  dom s ⊆ dom s' ∧ ∀ l, l ∈ dom s → l ∉ W → s' !! l = s !! l.

#[export] Instance outside_preorder W : PreOrder (outside W).
Proof.
  split; [done|]. intros s s1 s2 [D1 H1] [D2 H2]. split; [set_solver|].
  intros l Hl HW. rewrite H2, H1; set_solver.
Qed.

Lemma outside_insert W s l a a' : s !! l = Some a → l ∈ W → outside W s (<[l := a']> s).
Proof.
  intros Hl HW. split; [set_solver|]. intros l' _ HW'. apply lookup_insert_ne. congruence.
Qed.

Lemma outside_grow W s s' : s ⊆ s' → outside W s s'.
Proof.
  intros Hs. split; [by apply subseteq_dom|]. intros l [a Ha]%elem_of_dom _.
  rewrite Ha. by eapply lookup_weaken.
Qed.

(** ** Frames *)

Definition frame_shape (f : Frame) : list KeyedAccount * nat := (frame_accounts f, frame_executables f).

(** The cells of the instruction's accounts, in the frame on top. *)
Definition writable_cells (c : Ctx) : list nat :=
  from_option (λ f, account <$> drop (frame_executables f) (frame_accounts f)) [] (head (invoke_stack c)).

(** The executable accounts of a frame are read-only. *)
Definition frame_ok (f : Frame) : Prop :=
  Forall (λ k, is_writable k = false) (take (frame_executables f) (frame_accounts f)).

Definition frames_ok (c : Ctx) : Prop := Forall frame_ok (invoke_stack c).

Definition confined (c c' : Ctx) : Prop := frames_ok c →
  tail (invoke_stack c') = tail (invoke_stack c) ∧
  frame_shape <$> head (invoke_stack c') = frame_shape <$> head (invoke_stack c) ∧
  outside (writable_cells c) (cells c) (cells c').

Lemma same_shape c c' :
  tail (invoke_stack c') = tail (invoke_stack c) →
  frame_shape <$> head (invoke_stack c') = frame_shape <$> head (invoke_stack c) →
  (frames_ok c → frames_ok c') ∧ writable_cells c' = writable_cells c.
Proof.
  unfold frames_ok, writable_cells.
  destruct (invoke_stack c) as [|f l], (invoke_stack c') as [|f' l']; cbn; [done..|].
  intros -> [= Ha He]. rewrite Ha, He. split; [|done]. intros [Hf Hl]%Forall_cons.
  constructor; [|done]. unfold frame_ok in *. by rewrite Ha, He.
Qed.

#[export] Instance confined_preorder : PreOrder confined.
Proof.
  split; [done|]. intros c c1 c2 H1 H2 Hok. destruct (H1 Hok) as (T1 & S1 & O1).
  destruct (same_shape c c1 T1 S1) as [Hok1 HW]. destruct (H2 (Hok1 Hok)) as (T2 & S2 & O2).
  rewrite HW in O2. split_and!; [congruence..|by transitivity (cells c1)].
Qed.

Lemma confined_cells c c' :
  invoke_stack c' = invoke_stack c → cells c ⊆ cells c' → confined c c'.
Proof. intros Hs Hc _. rewrite Hs. split_and!; [done..|by apply outside_grow]. Qed.

Lemma writable_cell f l c k :
  invoke_stack c = f :: l → frame_ok f → k ∈ frame_accounts f → is_writable k = true →
  account k ∈ writable_cells c.
Proof.
  intros Hs Hok Hk Hw. unfold writable_cells. rewrite Hs. cbn. apply list_elem_of_fmap. exists k. split; [done|].
  rewrite <-(take_drop (frame_executables f) (frame_accounts f)) in Hk.
  apply elem_of_app in Hk as [Hk|Hk]; [|done]. unfold frame_ok in Hok. rewrite Forall_forall in Hok.
  specialize (Hok k Hk). cbn in Hok. congruence.
Qed.

(** ** Copies *)

Lemma copy_accounts_spec ks js keys c c' accs rs :
  copy_accounts ks js keys c = (c', Ok (accs, rs)) →
  cells c ⊆ cells c' ∧ accs.*1 = keys ∧ Forall (λ x, x.2 ∉ dom (cells c)) accs ∧
  Forall2 (λ k i, ∃ n, list_find (λ i, key <$> ks !! i = Some k) js = Some (n, i)) keys rs.
Proof.
  revert c c' accs rs. induction keys as [|k keys IH]; intros c c' accs rs; cbn [copy_accounts].
  { intros [= <- <- <-]. by repeat constructor. }
  destruct (list_find _ js) as [[n i]|] eqn:Ef; [|done]. intros H.
  apply st_bind_Ok in H as (c1 & ka & [-> _]%expect_Ok & H).
  apply st_bind_Ok in H as (c2 & a & (s & [-> _]%try_account_ref_Ok & ->)%on_cells_Ok & H).
  apply st_bind_Ok in H as (c3 & l & [= <- <-] & H). cbn in H.
  apply st_bind_Ok in H as (c4 & [accs' rs'] & (H1 & <- & H2 & H3)%IH & [= <- <- <-]). cbn in *.
  pose proof (is_fresh (dom (cells c))) as Hfresh.
  split_and!; [|done|constructor; [done|]|by constructor; [exists n|]].
  - etrans; [|exact H1]. by apply insert_subseteq, not_elem_of_dom.
  - eapply Forall_impl; [exact H2|]. cbn. set_solver.
Qed.

Lemma all_at_index_find ks js chosen k n i :
  all_at_index ks js = Ok chosen → list_find (λ i, key <$> ks !! i = Some k) js = Some (n, i) →
  snd <$> list_find (λ ka, key ka = k) chosen = ks !! i.
Proof.
  revert chosen n. induction js as [|j js IH]; intros chosen n; cbn [all_at_index]; [done|].
  destruct (ks !! j) as [ka|] eqn:Ej; [|done]. destruct (all_at_index ks js) as [l| |] eqn:El; [|done..].
  intros [= <-]. cbn. rewrite Ej. cbn. destruct (decide (key ka = k)) as [E|E].
  - rewrite decide_True by congruence. intros [= <- <-]. by rewrite Ej.
  - rewrite decide_False by congruence. destruct (list_find _ js) as [[n' i']|] eqn:Ef; [|done].
    intros [= <- <-]. specialize (IH l n' eq_refl eq_refl). rewrite <-IH. by destruct (list_find _ l).
Qed.

Lemma check_all_privileges_elem ks sg l x :
  check_all_privileges ks sg l = Ok tt → x ∈ l → meta_is_writable x = true →
  ∃ n ka, list_find (λ ka, key ka = pubkey x) ks = Some (n, ka) ∧ is_writable ka = true.
Proof.
  intros H Hx Hw. induction l as [|y l IH]; [by apply not_elem_of_nil in Hx|].
  cbn [check_all_privileges] in H. apply res_bind_Ok in H as ([] & Hc & H).
  apply elem_of_cons in Hx as [->|Hx]; [|by apply IH]. unfold check_privileges in Hc.
  apply res_bind_Ok in Hc as (ka & Hk & Hc). apply ok_or_Ok, fmap_Some in Hk as ([n ka'] & Hf & ->).
  apply res_bind_Ok in Hc as ([] & Hp & _). rewrite Hw in Hp. cbn in *. exists n, ka'.
  split; [done|]. by destruct (is_writable ka').
Qed.

(** Only accounts the caller may write are copied back. *)
Lemma copied_back_writable ix ks js chosen sg m n k i ka :
  small ix → no_promotion (all_metas [ix] None) → Message_new [ix] None = Some m →
  all_at_index ks js = Ok chosen → check_all_privileges chosen sg (ix_accounts ix) = Ok tt →
  account_keys m !! n = Some k → message_is_writable m n = Some true →
  (∃ q, list_find (λ i, key <$> ks !! i = Some k) js = Some (q, i)) → ks !! i = Some ka →
  is_writable ka = true.
Proof.
  intros Hs Hnp Hm Hch Hpr Hn Hw [q Hq] Hka.
  assert (Hl : (length (account_keys m) < 256)%nat).
  { pose proof (Message_new_keys_length _ _ _ Hm) as Hl. unfold all_metas, small in *. cbn in Hl.
    rewrite app_nil_r, length_app in Hl. cbn in Hl. lia. }
  destruct (Message_new_writable _ _ _ _ _ Hnp Hm Hl Hn) as (b & Hb & Hiff). rewrite Hw in Hb. simplify_eq.
  destruct (proj1 Hiff eq_refl) as [(x & Hx & <- & Hxw) _].
  assert (Hin : x ∈ ix_accounts ix).
  { unfold all_metas in Hx. cbn in Hx. rewrite app_nil_r in Hx.
    apply elem_of_app in Hx as [Hx|Hx%list_elem_of_singleton]; [done|by subst]. }
  destruct (check_all_privileges_elem _ _ _ _ Hpr Hin Hxw) as (r & ka' & Hf & Hw').
  pose proof (all_at_index_find _ _ _ _ _ _ Hch Hq) as Hfind. rewrite Hf, Hka in Hfind. cbn in Hfind. congruence.
Qed.

Lemma update_outside W ka f c c' :
  account ka ∈ W → on_cells (update_account ka f) c = (c', Ok tt) →
  invoke_stack c' = invoke_stack c ∧ outside W (cells c) (cells c').
Proof.
  intros HW (s & (a & a' & Ha & _ & ->)%update_account_Ok & ->)%on_cells_Ok.
  split; [done|]. by eapply outside_insert.
Qed.

Lemma copy_back_outside W m ks n accs rs c c' x :
  (∀ q k l i ka, accs !! q = Some (k, l) → rs !! q = Some i → message_is_writable m (n + q) = Some true →
     ks !! i = Some ka → account ka ∈ W) →
  copy_back m ks n accs rs c = (c', Ok x) → outside W (cells c) (cells c').
Proof.
  revert n rs c. induction accs as [|[k l] accs IH]; intros n rs c HW; cbn [copy_back].
  { by intros [= <-]. }
  destruct rs as [|i rs]; [by intros [= <-]|]. intros H.
  apply st_bind_Ok in H as (c1 & dst & [-> Hdst]%expect_Ok & H).
  apply st_bind_Ok in H as (c2 & src & (s & [-> _]%try_account_ref_Ok & ->)%on_cells_Ok & H).
  apply st_bind_Ok in H as (c3 & w & [-> Hw]%expect_Ok & H).
  apply st_bind_Ok in H as (c4 & [] & H4 & H). apply IH in H.
  2: { intros q k' l' i' ka Hq Hi Hwq. apply (HW (S q) k' l' i' ka Hq Hi). by rewrite Nat.add_succ_r. }
  transitivity (cells c4); [|done]. clear H IH.
  destruct (w && negb (executable src)) eqn:Ew; [|by injection H4 as <-].
  apply andb_true_iff in Ew as [-> _].
  specialize (HW 0%nat k l i dst eq_refl eq_refl). rewrite Nat.add_0_r in HW. specialize (HW Hw Hdst).
  apply st_bind_Ok in H4 as (c5 & len & (s5 & [-> _]%ka_data_len_Ok & ->)%on_cells_Ok & H4).
  apply st_bind_Ok in H4 as (c6 & [] & (_ & -> & _)%ensureS_Ok & H4).
  apply st_bind_Ok in H4 as (c7 & [] & [_ O7]%(update_outside W) & H4); [|done].
  apply st_bind_Ok in H4 as (c8 & [] & [_ O8]%(update_outside W) & H4); [|done].
  apply (update_outside W) in H4 as [_ O9]; [|done].
  etrans; [exact O7|]. by etrans.
Qed.

(** ** Calls *)

Lemma create_keyed_accounts_spec m ci ex accs ks :
  create_keyed_accounts m ci ex accs = Some ks →
  ∃ l, ks = ((λ x, mkKeyed false false x.1 x.2) <$> ex) ++ l ∧
    Forall2 (λ j ka, ∃ k, accs !! j = Some (k, account ka) ∧ key ka = k ∧
               message_is_writable m j = Some (is_writable ka)) (ci_accounts ci) l.
Proof.
  unfold create_keyed_accounts. intros (l & Hl & [= <-])%bind_Some. exists l. split; [done|].
  apply mapM_Some_1 in Hl. eapply Forall2_impl; [exact Hl|]. intros j ka. cbn.
  intros (w & Hw & ([k c] & Hj & [= <-])%bind_Some)%bind_Some. by exists k.
Qed.

Lemma new_frame_ok pid ex l n :
  frame_ok (mkFrame pid (((λ x : Pubkey * nat, mkKeyed false false x.1 x.2) <$> ex) ++ l) (length ex) n).
Proof.
  unfold frame_ok. cbn. rewrite take_app_length' by (by rewrite length_fmap).
  apply Forall_fmap, Forall_forall. by intros [].
Qed.

Lemma verify_and_update_pre env ci accs ws c c' :
  verify_and_update env ci accs ws c = (c', Ok tt) → ∃ l, c' = with_pre l c.
Proof.
  unfold verify_and_update. intros (c1 & x & Hg & H)%st_bind_Ok. injection Hg as <- <-.
  apply st_bind_Ok in H as (c2 & f & [-> Hf]%lift_inv & H).
  destruct (visit_each_account _ _ _) as [u r].
  apply st_bind_Ok in H as (c3 & [] & Hp & H). injection Hp as <-.
  apply st_bind_Ok in H as (c4 & [] & [-> Hr]%lift_inv & (_ & -> & _)%ensureS_Ok). by eexists.
Qed.

(** An instruction whose compiled form has the privileges it asks for. *)
Definition plain (ix : Instruction) : Prop := small ix ∧ no_promotion (all_metas [ix] None).

Section confined.
Context `{!Codec UpgradeableLoaderState} (env : Env).
Context (Hdisc : programs_disciplined plain env).

Lemma confined_start c k ks x n l :
  invoke_stack c = mkFrame k ks x n :: l → confined c (with_stack (mkFrame k ks x (S n) :: l) c).
Proof. intros Hs _. cbn. by rewrite Hs. Qed.

Lemma call_and_verify_confined run m ci pid accs c c' :
  (∀ p, disciplined plain p → keeps confined (run p)) →
  call_and_verify env run m ci pid accs c = (c', Ok tt) →
  ∃ c1, confined c c1 ∧ c' = with_stack (tail (invoke_stack c1)) c1.
Proof.
  intros Hrun. unfold call_and_verify.
  match goal with |- context [let '(_, _) := ?t in _] => destruct t as [c1 r] eqn:E end.
  intros (c2 & [] & Hp & [-> Hr]%lift_inv)%st_bind_Ok. injection Hp as <-. subst r.
  exists c1. split; [|done]. apply st_bind_Ok in E as (c2 & [] & H1 & H2). transitivity c2.
  - eapply (process_instruction_keeps env (disciplined plain) Hdisc confined confined_start run Hrun); [|exact H1].
    apply table_programs.
  - apply st_bind_Ok in H2 as (c3 & ws & [-> _]%expect_Ok & (l & ->)%verify_and_update_pre).
    by apply confined_cells.
Qed.

Lemma process_cross_confined run m ex accs privs c c' D :
  (∀ p, disciplined plain p → keeps confined (run p)) →
  Forall (λ x, x.2 ∉ D) accs → D ⊆ dom (cells c) → frames_ok c →
  process_cross_program_instruction env run m ex accs privs c = (c', Ok tt) →
  invoke_stack c' = invoke_stack c ∧ dom (cells c) ⊆ dom (cells c') ∧
  ∀ l, l ∈ D → cells c' !! l = cells c !! l.
Proof.
  intros Hrun Hfresh HD Hok. unfold process_cross_program_instruction.
  destruct (instructions m) as [|ci cis]; [done|].
  intros (c0 & pid & [-> _]%expect_Ok & H)%st_bind_Ok.
  apply st_bind_Ok in H as (c1 & [] & (pl & ->)%verify_and_update_pre & H).
  apply st_bind_Ok in H as (c2 & ks & [-> Hks]%expect_Ok & H).
  apply st_bind_Ok in H as (c3 & [] & (-> & _)%push_Ok & H).
  apply call_and_verify_confined in H as (c4 & H4 & ->); [|done].
  apply create_keyed_accounts_spec in Hks as (l & -> & HF). destruct H4 as (T4 & S4 & D4 & O4).
  { constructor; [apply new_frame_ok|done]. }
  cbn in *. split_and!; [done..|]. intros loc Hloc. apply O4; [by apply HD|].
  unfold writable_cells. cbn. rewrite drop_app_length' by (by rewrite length_fmap).
  intros (ka & -> & Hka)%list_elem_of_fmap. apply list_elem_of_lookup in Hka as [q Hq].
  destruct (Forall2_lookup_r _ _ _ _ _ HF Hq) as (j & _ & k & Hj & _).
  rewrite Forall_forall in Hfresh. apply (Hfresh (k, account ka)); [|done]. by eapply list_elem_of_lookup_2.
Qed.

Lemma keyed_accounts_Ok c c' ks :
  keyed_accounts c = (c', Ok ks) →
  c' = c ∧ ∃ f l, invoke_stack c = f :: l ∧ ks = drop (frame_start f) (frame_accounts f).
Proof.
  unfold keyed_accounts. intros (c1 & x & Hg & [-> Hk]%lift_inv)%st_bind_Ok. injection Hg as <- <-.
  split; [done|]. destruct (invoke_stack c) as [|f l]; [done|]. injection Hk as ->. by exists f, l.
Qed.

Lemma native_invoke_confined run ix js sg :
  (∀ p, disciplined plain p → keeps confined (run p)) → plain ix →
  keeps confined (native_invoke env run ix js sg).
Proof.
  intros Hrun [Hs Hnp] c c' []. unfold native_invoke.
  intros (c0 & ks & (-> & f & l & Hst & ->)%keyed_accounts_Ok & H)%st_bind_Ok Hok.
  apply st_bind_Ok in H as (c0 & chosen & [-> Hch]%lift_inv & H). symmetry in Hch.
  apply st_bind_Ok in H as (c0 & [m pid] & (-> & -> & Hm & Hpr)%create_message_Ok & H).
  apply st_bind_Ok in H as (c1 & [accs reord] & Hcp & H).
  destruct (copy_accounts_same _ _ _ _ _ _ Hcp) as (S1 & _ & _).
  apply copy_accounts_spec in Hcp as (HC & Hkeys & Hfresh & Hfind).
  apply st_bind_Ok in H as (c2 & [] & [= <-] & H). apply st_bind_Ok in H as (c2 & ex & Hex & H).
  match type of Hex with load_executables env ?p ?x = _ =>
    pose proof (load_executables_state env p x) as E2; rewrite Hex in E2; cbn in E2; subst c2 end.
  apply st_bind_Ok in H as (c2 & [] & H2 & H).
  apply (process_cross_confined _ _ _ _ _ _ _ (dom (cells c))) in H2 as (S2 & D2 & O2); [|done..| |]; cbn in *.
  2: { by apply subseteq_dom. }
  2: { unfold frames_ok in *. cbn. by rewrite S1. }
  apply st_bind_Ok in H as (c3 & ks' & (-> & f' & l' & Hst' & ->)%keyed_accounts_Ok & H).
  assert (Hsc : invoke_stack c2 = invoke_stack c) by congruence.
  rewrite Hsc, Hst in Hst'. injection Hst' as <- <-.
  destruct (copy_back_same _ _ _ _ _ _ _ _ H) as (S3 & _ & _).
  apply (copy_back_outside (writable_cells c)) in H.
  2: { intros q k loc i ka Hq Hi Hw Hka. eapply writable_cell; [exact Hst|..].
       - unfold frames_ok in Hok. rewrite Hst in Hok. by apply Forall_cons in Hok as [].
       - rewrite lookup_drop in Hka. by eapply list_elem_of_lookup_2.
       - assert (Hk : account_keys m !! q = Some k) by (rewrite <-Hkeys, list_lookup_fmap, Hq; done).
         destruct (Forall2_lookup_l _ _ _ _ _ Hfind Hk) as (i' & Hi' & Hq'). simplify_eq.
         by eapply copied_back_writable. }
  rewrite S3, Hsc. split_and!; [done..|]. etrans; [|exact H]. split.
  - etrans; [by apply subseteq_dom|done].
  - intros loc Hloc _. rewrite O2 by done. apply elem_of_dom in Hloc as [a Ha]. rewrite Ha. by eapply lookup_weaken.
Qed.

Lemma confined_update fr l ka f c s :
  invoke_stack c = fr :: l → (∃ i, instruction_account fr i = Some ka) →
  update_account ka (λ a, Ok (f a)) (cells c) = (s, Ok tt) → confined c (with_cells s c).
Proof.
  intros Hs [i Hi] (a & a' & Ha & _ & ->)%update_account_Ok _. cbn. split_and!; [done..|].
  eapply outside_insert; [done|]. unfold writable_cells. rewrite Hs. cbn.
  apply list_elem_of_fmap. exists ka. split; [done|]. revert Hi. unfold instruction_account, frame_range.
  case_bool_decide as Hx; [|done]. rewrite lookup_drop. intros Hi.
  apply (list_elem_of_lookup_2 _ (frame_start fr + i - frame_executables fr)). rewrite lookup_drop.
  by replace (frame_executables fr + (frame_start fr + i - frame_executables fr))%nat
    with (frame_start fr + i)%nat by lia.
Qed.

Lemma run_confined fuel p : disciplined plain p → keeps confined (run env fuel p).
Proof.
  revert p. induction fuel as [|fuel IH]; intros p Hp; cbn [run].
  all: apply (exec_keeps confined plain); [exact confined_update|by intros; apply confined_cells| |done].
  - intros ix js sg _ c c' a. done.
  - intros ix js sg Hok. by apply native_invoke_confined.
Qed.
End confined.
End message_frame.
