(* ===== verification/MessageReadonly.v ===== *)
(** * Accounts an instruction may not write

    [native_invoke] checks the caller's changes against privileges at the
    wrong indices, so that a read-only account can be changed by a program
    that passes it on read-only ([native_invoke_privileges_shifted]).  This is
    the only way: if programs ask for every account of the instructions they
    invoke as writable, as the one call in [programs/bpf_loader/src/lib.rs]
    does, an account that is read-only to an instruction stays as it was. *)

From S2P Require Import Prelude F64 Account Features Sysvar Message MessageProps.
From S2P Require Import MessageProcessor AccountRules MessageProcessorProps MessageFrame.

Module message_readonly.
Import message message_processor account_rules message_processor_props message_frame.

(** An instruction that asks for all its accounts as writable. *)
Definition overt (ix : Instruction) : Prop :=
  small ix ∧ Forall (λ x, meta_is_writable x = true) (ix_accounts ix).

Lemma overt_plain ix : overt ix → plain ix.
Proof.
  intros [Hs HF]. split; [done|]. intros k (x & Hx & <- & Hxs) _. exists x. split_and!; [done..|].
  unfold all_metas in Hx. cbn in Hx. rewrite app_nil_r in Hx.
  apply elem_of_app in Hx as [Hx|Hx%list_elem_of_singleton]; [|by subst].
  by apply (proj1 (Forall_forall _ _) HF).
Qed.

(** ** Read-only keys

    No keyed account of any frame gives write access to a key of [K]. *)
Section readonly.
Context (K : Pubkey → Prop).

Definition fits (f : Frame) : Prop := ∀ ka, ka ∈ frame_accounts f → K (key ka) → is_writable ka = false.
Definition frames_fit (c : Ctx) : Prop := Forall fits (invoke_stack c).

Definition kept (p p' : PreAccount) : Prop :=
  pre_key p' = pre_key p ∧ (K (pre_key p) → pre_account p' = pre_account p).

Definition shut (c c' : Ctx) : Prop :=
  frames_fit c → frames_fit c' ∧ Forall2 kept (pre_accounts c) (pre_accounts c').

Lemma kept_refl p : kept p p.
Proof. done. Qed.

Lemma Forall2_kept_refl l : Forall2 kept l l.
Proof. by apply Forall_Forall2_diag, Forall_forall. Qed.

Lemma Forall2_kept_trans l l1 l2 : Forall2 kept l l1 → Forall2 kept l1 l2 → Forall2 kept l l2.
Proof.
  intros H1 H2. eapply Forall2_trans; [|exact H1|exact H2].
  intros p p1 p2 [E1 K1] [E2 K2]. split; [congruence|]. intros Hk. rewrite K2, K1; [done..|by rewrite E1].
Qed.

#[export] Instance shut_preorder : PreOrder shut.
Proof.
  split; [intros c; split; [done|apply Forall2_kept_refl]|].
  intros c c1 c2 H1 H2 Hf. destruct (H1 Hf) as [F1 P1]. destruct (H2 F1) as [F2 P2].
  split; [done|by eapply Forall2_kept_trans].
Qed.

Lemma shut_same c c' :
  invoke_stack c' = invoke_stack c → pre_accounts c' = pre_accounts c → shut c c'.
Proof. intros Hs Hp Hf. unfold frames_fit in *. rewrite Hs, Hp. split; [done|apply Forall2_kept_refl]. Qed.

Lemma shut_start c k ks x n l :
  invoke_stack c = mkFrame k ks x n :: l → shut c (with_stack (mkFrame k ks x (S n) :: l) c).
Proof.
  intros Hs Hf. unfold frames_fit in *. rewrite Hs in Hf. split; [|apply Forall2_kept_refl].
  apply Forall_cons in Hf as [Hf Hl]. by constructor.
Qed.

(** Checking accounts outside [K] leaves those of [K] alone. *)
Lemma update_matching_kept k pid w rent a upd l p l' :
  ¬ K k → update_matching k pid w rent a upd l = Ok (p, l') → Forall2 kept l l'.
Proof.
  intros Hk. revert l'. induction l as [|x l IH]; intros l'; cbn [update_matching]; [done|].
  destruct (Z.eqb_spec k (pre_key x)) as [->|Hne].
  - destruct (PreAccount_verify _ _ _ _ _ _ _ _) as [t [[]| |]]; [|done..]. intros [= _ <-].
    constructor; [|apply Forall2_kept_refl].
    split; [by destruct (w && _)|by intros].
  - intros ([q l1] & Hu & [= <- <-])%res_bind_Ok. constructor; [done|]. by apply IH.
Qed.

Lemma update_work_kept pid accs rent ws upd s js : ∀ i u u',
  (∀ j k l, j ∈ js → accs !! j = Some (k, l) → ¬ K k) →
  visit (update_work pid accs rent ws upd s) i js u = (u', Ok tt) → Forall2 kept u.1 u'.1.
Proof.
  induction js as [|j js IH]; intros i u u' Hjs; cbn [visit].
  { intros [= <-]. apply Forall2_kept_refl. }
  intros (u1 & [] & H1 & H2)%st_bind_Ok. eapply Forall2_kept_trans; [|apply IH in H2; [exact H2|set_solver]].
  revert H1. unfold update_work. destruct (ws !! j) as [w|]; [|done].
  destruct (accs !! j) as [[k l]|] eqn:Ej; [|done].
  intros (u2 & a & [-> _]%expect_Ok & H)%st_bind_Ok.
  apply st_bind_Ok in H as (u2 & v & Hv & H). injection Hv as <- <-.
  apply st_bind_Ok in H as (u3 & [p l'] & [-> Hu]%lift_inv & [= <-]). cbn.
  eapply update_matching_kept; [|by symmetry in Hu]. by eapply Hjs; [left|].
Qed.

Lemma verify_and_update_shut env ci accs ws :
  (∀ j k l, j ∈ ci_accounts ci → accs !! j = Some (k, l) → ¬ K k) →
  keeps shut (verify_and_update env ci accs ws).
Proof.
  intros Hci c c' []. unfold verify_and_update. intros (c1 & x & Hg & H)%st_bind_Ok. injection Hg as <- <-.
  apply st_bind_Ok in H as (c2 & f & [-> Hf]%lift_inv & H).
  destruct (visit_each_account _ _ _) as [u r] eqn:E.
  apply st_bind_Ok in H as (c3 & [] & Hp & H). injection Hp as <-.
  apply st_bind_Ok in H as (c4 & [] & [-> Hr]%lift_inv & (_ & -> & _)%ensureS_Ok). subst r.
  intros Hfit. split; [done|]. apply update_work_kept in E; [done|].
  intros j k l [Hj _]%unique_from_elem. by apply Hci.
Qed.

(** The accounts of an invoked instruction are writable to the caller. *)
Lemma invoked_outside ix m ci f js chosen sg j k :
  overt ix → Message_new [ix] None = Some m → instructions m = [ci] → fits f →
  all_at_index (frame_range f) js = Ok chosen → check_all_privileges chosen sg (ix_accounts ix) = Ok tt →
  j ∈ ci_accounts ci → account_keys m !! j = Some k → ¬ K k.
Proof.
  intros [Hs HF] Hm Hci Hfit Hch Hpr Hj Hk HK.
  destruct (Message_new_spec [ix] None) as (m' & Hm' & _ & _ & Hd). rewrite Hm in Hm'. simplify_eq.
  destruct Hd as [Hd _].
  { pose proof (Message_new_keys_length _ _ _ Hm) as Hl. unfold all_metas, small in *. cbn in Hl.
    rewrite app_nil_r, length_app in Hl. cbn in Hl. lia. }
  rewrite Hci in Hd. apply Forall2_cons in Hd as [(_ & Hacc & _) _].
  apply mapM_Some_1 in Hacc. apply list_elem_of_lookup in Hj as [q Hq].
  destruct (Forall2_lookup_l _ _ _ _ _ Hacc Hq) as (k' & Hk' & Hkey). simplify_eq.
  rewrite list_lookup_fmap in Hk'. apply fmap_Some in Hk' as (x & Hx%list_elem_of_lookup_2 & ->).
  destruct (check_all_privileges_elem _ _ _ _ Hpr Hx) as (n & ka & Hf & Hw); [by apply (proj1 (Forall_forall _ _) HF)|].
  apply list_find_Some in Hf as (Hn & Hkk & _). apply list_elem_of_lookup_2 in Hn.
  assert (Hin : ka ∈ frame_accounts f).
  { clear -Hch Hn. revert chosen Hch Hn. induction js as [|i js IH]; intros chosen; cbn [all_at_index].
    - intros [= <-] []%not_elem_of_nil.
    - intros (k & Hk & (r & Hr & [= <-])%res_bind_Ok)%res_bind_Ok [->|Hn]%elem_of_cons; [|by eapply IH].
      apply ok_or_Ok in Hk. unfold frame_range in Hk. rewrite lookup_drop in Hk. by eapply list_elem_of_lookup_2. }
  specialize (Hfit ka Hin). rewrite Hkk in Hfit. specialize (Hfit HK). congruence.
Qed.

Lemma new_frame_fits m ci ex accs ks pid n :
  (∀ j k l, j ∈ ci_accounts ci → accs !! j = Some (k, l) → ¬ K k) →
  create_keyed_accounts m ci ex accs = Some ks → fits (mkFrame pid ks (length ex) n).
Proof.
  intros Hci (l & -> & HF)%create_keyed_accounts_spec ka Hka HK. cbn in Hka.
  apply elem_of_app in Hka as [([k loc] & -> & _)%list_elem_of_fmap|[q Hq]%list_elem_of_lookup]; [done|].
  destruct (Forall2_lookup_r _ _ _ _ _ HF Hq) as (j & Hj & k & Hk & <- & _).
  destruct (Hci j _ _ (list_elem_of_lookup_2 _ _ _ Hj) Hk HK).
Qed.

Section calls.
Context `{!Codec UpgradeableLoaderState} (env : Env) (Hdisc : programs_disciplined overt env).

Lemma call_and_verify_shut run m ci pid accs c c' :
  (∀ p, disciplined overt p → keeps shut (run p)) →
  (∀ j k l, j ∈ ci_accounts ci → accs !! j = Some (k, l) → ¬ K k) →
  call_and_verify env run m ci pid accs c = (c', Ok tt) →
  ∃ c1, shut c c1 ∧ c' = with_stack (tail (invoke_stack c1)) c1.
Proof.
  intros Hrun Hci. unfold call_and_verify.
  match goal with |- context [let '(_, _) := ?t in _] => destruct t as [c1 r] eqn:E end.
  intros (c2 & [] & Hp & [-> Hr]%lift_inv)%st_bind_Ok. injection Hp as <-. subst r.
  exists c1. split; [|done]. apply st_bind_Ok in E as (c2 & [] & H1 & H2). transitivity c2.
  - eapply (process_instruction_keeps env (disciplined overt) Hdisc shut shut_start run Hrun); [|exact H1].
    apply table_programs.
  - apply st_bind_Ok in H2 as (c3 & ws & [-> _]%expect_Ok & H2). by eapply verify_and_update_shut.
Qed.

Lemma process_cross_shut run m ci ex accs privs :
  (∀ p, disciplined overt p → keeps shut (run p)) → instructions m = [ci] →
  (∀ j k l, j ∈ ci_accounts ci → accs !! j = Some (k, l) → ¬ K k) →
  keeps shut (process_cross_program_instruction env run m ex accs privs).
Proof.
  intros Hrun Hi Hci c c' []. unfold process_cross_program_instruction. rewrite Hi.
  intros (c0 & pid & [-> _]%expect_Ok & H)%st_bind_Ok.
  apply st_bind_Ok in H as (c1 & [] & H1%verify_and_update_shut & H); [|done].
  apply st_bind_Ok in H as (c2 & ks & [-> Hks]%expect_Ok & H).
  apply st_bind_Ok in H as (c3 & [] & (-> & _)%push_Ok & H).
  apply call_and_verify_shut in H as (c4 & H4 & ->); [|done..].
  intros Hf. destruct (H1 Hf) as [F1 P1]. destruct H4 as [F4 P4].
  { constructor; [by eapply new_frame_fits|done]. }
  split; [|by eapply Forall2_kept_trans]. unfold frames_fit in *. cbn. by apply Forall_tail.
Qed.

Lemma native_invoke_shut run ix js sg :
  (∀ p, disciplined overt p → keeps shut (run p)) → overt ix → keeps shut (native_invoke env run ix js sg).
Proof.
  intros Hrun Ho c c' []. unfold native_invoke.
  intros (c0 & ks & (-> & f & l & Hst & ->)%keyed_accounts_Ok & H)%st_bind_Ok Hok.
  apply st_bind_Ok in H as (c0 & chosen & [-> Hch]%lift_inv & H). symmetry in Hch.
  apply st_bind_Ok in H as (c0 & [m pid] & (-> & -> & Hm & Hpr)%create_message_Ok & H).
  destruct (cross_program_id ix m (proj1 Ho) Hm) as (ci & Hci & _).
  apply st_bind_Ok in H as (c1 & [accs reord] & Hcp & H).
  destruct (copy_accounts_same _ _ _ _ _ _ Hcp) as (S1 & P1 & _).
  apply copy_accounts_spec in Hcp as (_ & Hkeys & _ & _).
  apply st_bind_Ok in H as (c2 & [] & [= <-] & H). apply st_bind_Ok in H as (c2 & ex & Hex & H).
  match type of Hex with load_executables env ?p ?x = _ =>
    pose proof (load_executables_state env p x) as E2; rewrite Hex in E2; cbn in E2; subst c2 end.
  apply st_bind_Ok in H as (c2 & [] & H2 & H).
  eapply process_cross_shut in H2; [|done..|].
  2: { intros j k loc Hj Hk. eapply invoked_outside; [done..| |exact Hch|exact Hpr|exact Hj|].
       - unfold frames_fit in Hok. rewrite Hst in Hok. by apply Forall_cons in Hok as [].
       - by rewrite <-Hkeys, list_lookup_fmap, Hk. }
  apply st_bind_Ok in H as (c3 & ks' & (-> & _)%keyed_accounts_Ok & H).
  apply copy_back_same in H as (S3 & P3 & _).
  unfold shut, frames_fit in H2. cbn in H2. rewrite S1, P1 in H2. specialize (H2 Hok) as [F2 P2].
  unfold frames_fit. by rewrite S3, P3.
Qed.

Lemma run_shut fuel p : disciplined overt p → keeps shut (run env fuel p).
Proof.
  revert p. induction fuel as [|fuel IH]; intros p Hp; cbn [run].
  all: apply (exec_keeps shut overt); [by intros; apply shut_same|by intros; apply shut_same| |done].
  - intros ix js sg _ c c' a. done.
  - intros ix js sg Hok. by apply native_invoke_shut.
Qed.
End calls.
End readonly.
End message_readonly.
