(* ===== verification/MessageRecorder.v ===== *)
(** * The recorder of inner instructions

    Recording the instructions that programs invoke changes nothing else: an
    execution without a recorder is the one with it, without the record. *)

From S2P Require Import Prelude F64 Account Features Sysvar Message.
From S2P Require Import MessageProcessor MessageProcessorProps.

Module message_recorder.
Import message message_processor message_processor_props.

Definition erase (c : Ctx) : Ctx := with_recorder None c.

(** [m] does not depend on the recorder. *)
Definition oblivious {A} (m : MP A) : Prop := ∀ c, m (erase c) = (erase (m c).1, (m c).2).

Lemma oblivious_bind {A B} (m : MP A) (k : A → MP B) :
  oblivious m → (∀ a, oblivious (k a)) → oblivious (m ≫= k).
Proof.
  intros Hm Hk c. unfold mbind, st_bind. rewrite Hm. destruct (m c) as [c1 [a|e|]]; cbn; [|done..]. apply Hk.
Qed.

(** What is read from the context does not depend on the recorder. *)
Lemma oblivious_get {B} (k : Ctx → MP B) :
  (∀ c, k (erase c) (erase c) = (erase (k c c).1, (k c c).2)) → oblivious (get ≫= k).
Proof. intros Hk c. apply Hk. Qed.

Lemma oblivious_lift {A} (r : res InstructionError A) : oblivious (lift r).
Proof. done. Qed.

Lemma oblivious_fail {A} (e : InstructionError) : oblivious (fail e : MP A).
Proof. done. Qed.

Lemma oblivious_ret {A} (a : A) : oblivious (mret a).
Proof. done. Qed.

Lemma oblivious_expect {A} (o : option A) : oblivious (expect o).
Proof. done. Qed.

Lemma oblivious_ensure b (e : InstructionError) : oblivious (ensureS b e).
Proof. intros c. unfold ensureS. by destruct b. Qed.

Lemma oblivious_cells {A} (m : M A) : oblivious (on_cells m).
Proof. intros c. unfold on_cells. cbn. by destruct (m (cells c)). Qed.

Lemma oblivious_keyed_accounts : oblivious keyed_accounts.
Proof. apply oblivious_get. done. Qed.

Lemma oblivious_remove_first : oblivious remove_first_keyed_account.
Proof. apply oblivious_get. intros c. cbn. by destruct (invoke_stack c). Qed.

Lemma oblivious_record ix : oblivious (record_instruction ix).
Proof. done. Qed.

Lemma oblivious_alloc a : oblivious (alloc a).
Proof. done. Qed.

Lemma oblivious_push env k x ks : oblivious (push env k x ks).
Proof.
  apply oblivious_get. intros c. cbv [mbind st_bind ensureS]. cbn [erase with_recorder invoke_stack].
  repeat match goal with |- context [ensure ?b ?e] => destruct (ensure b e) end; done.
Qed.

Lemma oblivious_verify_and_update env ci accs ws : oblivious (verify_and_update env ci accs ws).
Proof.
  apply oblivious_get. intros c. cbv [mbind st_bind lift put]. cbn [erase with_recorder invoke_stack cells pre_accounts].
  destruct (ok_or _ _) as [f|e|]; [|done..]. destruct (visit_each_account _ _ _) as [u r].
  destruct r as [[]|e|]; [|done..]. unfold ensureS. by destruct (_ =? _).
Qed.

#[local] Create HintDb oblivious.
#[local] Hint Resolve oblivious_lift oblivious_fail oblivious_ret oblivious_expect
  oblivious_ensure oblivious_cells oblivious_keyed_accounts oblivious_remove_first oblivious_record oblivious_alloc
  oblivious_push oblivious_verify_and_update : oblivious.
#[local] Ltac obl :=
  repeat first [solve [auto with oblivious] | apply oblivious_bind; [solve [auto with oblivious]|intros]].

Section exec.
Context (invoke : Instruction → list nat → list Pubkey → MP unit).
Context (Hinvoke : ∀ ix js sg, oblivious (invoke ix js sg)).

Lemma exec_oblivious p : oblivious (exec invoke p).
Proof.
  induction p as [r|k IH|i k IH|i f p IH|n k IH|ix js sg k IH]; cbn [exec].
  - apply oblivious_lift.
  - obl.
  - obl.
  - apply oblivious_get. intros c. change (invoke_stack (erase c)) with (invoke_stack c).
    assert (H : oblivious (fr ← lift (ok_or (head (invoke_stack c)) CallDepth);
      ka ← lift (ok_or (instruction_account fr i) NotEnoughAccountKeys);
      on_cells (update_account ka (λ a, Ok (f a)));; exec invoke p)) by obl.
    apply H.
  - intros c. exact (IH _ (with_meter (saturating_sub (compute_meter c) n) c)).
  - intros c. rewrite Hinvoke. destruct (invoke ix js sg c) as [c1 [[]|e|]]; cbn; [apply IH..|done].
Qed.
End exec.

Section run.
Context `{!Codec UpgradeableLoaderState} (env : Env).

Lemma process_instruction_oblivious run table pid d :
  (∀ p, oblivious (run p)) → oblivious (process_instruction env run table pid d).
Proof.
  intros Hrun. unfold process_instruction. obl. destruct a as [|root ks]; obl.
  destruct (a =? native_loader_id); [|by destruct (find_program table a); obl].
  destruct (find_program table (unsigned_key root)); obl.
Qed.

Lemma call_and_verify_oblivious run m ci pid accs :
  (∀ p, oblivious (run p)) → oblivious (call_and_verify env run m ci pid accs).
Proof.
  intros Hrun c. unfold call_and_verify.
  match goal with |- context [(mbind ?k ?m) (erase c)] => assert (H : oblivious (mbind k m)) end.
  { apply oblivious_bind; [by apply process_instruction_oblivious|intros]. obl. }
  rewrite H. match goal with |- context [mbind ?k ?m c] => by destruct (mbind k m c) end.
Qed.

Lemma copy_accounts_oblivious ks js keys : oblivious (copy_accounts ks js keys).
Proof.
  induction keys as [|k keys IH]; cbn [copy_accounts]; [obl|].
  destruct (list_find _ js) as [[? i]|]; obl.
Qed.

Lemma copy_back_oblivious m ks i accs js : oblivious (copy_back m ks i accs js).
Proof.
  revert i js. induction accs as [|[k l] accs IH]; intros i js; cbn [copy_back]; [obl|].
  destruct js as [|j js]; obl. apply oblivious_bind; [destruct (_ && _); obl|intros; obl].
Qed.

Lemma load_executables_oblivious pid : oblivious (load_executables env pid).
Proof.
  unfold load_executables. obl. destruct (owner _ =? _); obl.
  match goal with |- oblivious (match ?x with _ => _ end) => destruct x; obl end.
Qed.

Lemma create_message_oblivious ix ks sg : oblivious (create_message ix ks sg).
Proof. unfold create_message. obl. Qed.

Lemma native_invoke_oblivious run ix js sg :
  (∀ p, oblivious (run p)) → oblivious (native_invoke env run ix js sg).
Proof.
  intros Hrun. unfold native_invoke. obl.
  apply oblivious_bind; [apply create_message_oblivious|intros [m pid]]. apply oblivious_bind; [apply copy_accounts_oblivious|intros [accs reord]].
  apply oblivious_bind; [obl|intros _]. apply oblivious_bind; [apply load_executables_oblivious|intros ex].
  apply oblivious_bind; [|intros _; obl; apply copy_back_oblivious].
  unfold process_cross_program_instruction. destruct (instructions m); obl. by apply call_and_verify_oblivious.
Qed.

Lemma run_oblivious fuel p : oblivious (run env fuel p).
Proof.
  revert p. induction fuel as [|fuel IH]; intros p; cbn [run]; apply exec_oblivious; [done|].
  intros. by apply native_invoke_oblivious.
Qed.
End run.
End message_recorder.
