(* ===== verification/MessageSafety.v ===== *)
(** * What executed instructions and messages keep

    Whatever the programs of an instruction do, an instruction that succeeds
    conserves the lamports of its accounts and leaves executable accounts and
    the accounts of other owners alone; a message conserves lamports. *)

From S2P Require Import Prelude F64 Account Serial Features Sysvar Message MessageProps.
From S2P Require Import MessageProcessor AccountRules MessageProcessorProps MessageDepth MessageFrame MessageReadonly MessageRecorder.
From Stdlib Require Import Strings.Byte.

Module message_safety.
Import message message_processor account_rules message_processor_props message_frame message_readonly.
Import message_recorder(run_oblivious, process_instruction_oblivious, erase).

(** ** Lamports of cells *)

Definition lamports_at (s : gmap nat Account) (l : nat) : Z := default 0 (lamports <$> s !! l).
Definition total (s : gmap nat Account) (ls : list nat) : Z := sum_with (lamports_at s) ls.

(** The cells of the accounts of an instruction, each once. *)
Definition instruction_cells (accounts : list (Pubkey * nat)) (ci : CompiledInstruction) : list nat :=
  omap (λ j, snd <$> accounts !! j) (unique_from [] (ci_accounts ci)).

(** ** The accounts before the instruction *)

(** [p] is the account at index [j]. *)
Definition pre_of (accounts : list (Pubkey * nat)) (s : gmap nat Account) (j : nat) (p : PreAccount)
    : Prop :=
  ∃ k l a, accounts !! j = Some (k, l) ∧ s !! l = Some a ∧ p = PreAccount_new k a.

Lemma create_pre_accounts_spec m accounts s js : ∀ i l l' r,
  visit (λ _ account_index,
    ensureS (bool_decide (account_index < length (account_keys m))%nat &&
             bool_decide (account_index < length accounts)%nat) MissingAccount;;
    x ← expect (accounts !! account_index);
    a ← expect (s !! x.2);
    modify (λ l, l ++ [PreAccount_new x.1 a])) i js l = (l', r) →
  ∃ js' js'' pre, js = js' ++ js'' ∧ l' = l ++ pre ∧ Forall2 (pre_of accounts s) js' pre.
Proof.
  set (work := λ _ account_index, _) in |- *.
  assert (Hwork : ∀ i j l, (∃ p, work i j l = (l ++ [p], Ok tt) ∧ pre_of accounts s j p) ∨
                           (∃ r, work i j l = (l, r) ∧ r ≠ Ok tt)).
  { intros i j l. subst work. cbv beta. unfold expect.
    destruct (bool_decide _ && bool_decide _); [|right; by eexists].
    destruct (accounts !! j) as [[k c]|] eqn:Ej; [|right; by eexists].
    destruct (s !! c) as [a|] eqn:Ec.
    - left. exists (PreAccount_new k a). split; [|by exists k, c, a].
      cbv [mbind st_bind lift]. cbn. by rewrite Ec.
    - right. eexists. cbv [mbind st_bind lift]. cbn. by rewrite Ec. }
  induction js as [|j js IH]; intros i l l' r; cbn [visit].
  { intros [= <- _]. exists [], [], []. rewrite (app_nil_r l). by split_and!; [..|constructor]. }
  unfold mbind, st_bind. destruct (Hwork i j l) as [(p & -> & Hp)|(r1 & -> & Hr)].
  - intros (js' & js'' & pre & -> & -> & HF)%IH. exists (j :: js'), js'', (p :: pre).
    rewrite <-app_assoc. by split_and!; [..|constructor].
  - intros Hl. assert (l' = l) as -> by (destruct r1 as [[]| |]; congruence).
    exists [], (j :: js), []. rewrite (app_nil_r l). by split_and!; [..|constructor].
Qed.

(** ** The check after the instruction *)

(** The change of the account at index [j] since [p] passes the rules. *)
Definition verified (m : Message) (pid : Pubkey) (accounts : list (Pubkey * nat)) (rent : Rent)
    (upd : bool) (s : gmap nat Account) (j : nat) (p : PreAccount) : Prop :=
  ∃ k l a w, accounts !! j = Some (k, l) ∧ s !! l = Some a ∧ message_is_writable m j = Some w ∧
    allowed pid w rent upd (pre_account p) a.

Lemma verify_work_spec m pid pres accounts rent upd s i j v v' :
  verify_work m pid pres accounts rent upd s i j v = (v', Ok tt) →
  ∃ p, pres !! i = Some p ∧ verified m pid accounts rent upd s j p ∧
    v'.2.1 = v.2.1 + lamports (pre_account p) ∧
    v'.2.2 = v.2.2 + sum_with (lamports_at s) (omap (λ j, snd <$> accounts !! j) [j]).
Proof.
  unfold verify_work. intros (v1 & [k l] & [-> Hj]%expect_Ok & H)%st_bind_Ok.
  apply st_bind_Ok in H as (v2 & a & [-> Ha]%expect_Ok & H).
  apply st_bind_Ok in H as (v3 & p & [-> Hp]%expect_Ok & H).
  apply st_bind_Ok in H as (v4 & w & [-> Hw]%expect_Ok & H).
  apply st_bind_Ok in H as (v5 & x & Hg & H). injection Hg as <- <-.
  apply st_bind_Ok in H as (v6 & [[] t] & [-> Hv]%run_local_Ok & [= <-]).
  exists p. cbn in *. rewrite Hj. cbn. unfold lamports_at. rewrite Ha. cbn.
  split_and!; [done| |lia..]. exists k, l, a, w. split_and!; [done..|].
  apply (PreAccount_verify_spec p pid w rent a true upd v.1). by rewrite Hv.
Qed.

Lemma visit_verify_spec m pid pres accounts rent upd s js : ∀ i v v',
  visit (verify_work m pid pres accounts rent upd s) i js v = (v', Ok tt) →
  ∃ ps, ps = take (length js) (drop i pres) ∧ Forall2 (verified m pid accounts rent upd s) js ps ∧
    v'.2.1 = v.2.1 + pre_sum ps ∧
    v'.2.2 = v.2.2 + total s (omap (λ j, snd <$> accounts !! j) js).
Proof.
  induction js as [|j js IH]; intros i v v'; cbn [visit].
  { intros [= <-]. exists []. unfold pre_sum, total. cbn. split_and!; [done|constructor|lia..]. }
  intros (v1 & [] & H1%verify_work_spec & H2%IH)%st_bind_Ok.
  destruct H1 as (p & Hp & Hver & E1 & E2), H2 as (ps & -> & HF & E3 & E4).
  exists (p :: take (length js) (drop (S i) pres)). split_and!.
  - by rewrite (drop_S _ _ _ Hp).
  - by constructor.
  - unfold pre_sum, sum_with in *. cbn [foldr]. lia.
  - change (j :: js) with ([j] ++ js). unfold total in *. rewrite omap_app, sum_with_app. lia.
Qed.

Lemma Forall2_pre_total accounts s js pre :
  Forall2 (pre_of accounts s) js pre →
  pre_sum pre = total s (omap (λ j, snd <$> accounts !! j) js).
Proof.
  induction 1 as [|j p js pre (k & l & a & Hj & Hl & ->) HF IH]; [done|].
  change (j :: js) with ([j] ++ js). unfold pre_sum, total, sum_with in *.
  rewrite omap_app, foldr_app. cbn. rewrite Hj. cbn. unfold lamports_at at 1. rewrite Hl. cbn. by rewrite IH.
Qed.

(** The accounts before ([pres]) and those of the final check ([pres']) are
    those of the instruction. *)
Lemma verify_aligned m ci pres pres' accounts rent upd s s' pid t t' r :
  create_pre_accounts m ci accounts s [] = (pres, r) → length pres' = length pres →
  ci_program_id ci (account_keys m) = Some pid →
  verify m ci pres' accounts rent upd s' t = (t', Ok tt) →
  let js := unique_from [] (ci_accounts ci) in
  Forall2 (pre_of accounts s) js pres ∧ Forall2 (verified m pid accounts rent upd s') js pres' ∧
  pre_sum pres' = total s' (instruction_cells accounts ci).
Proof.
  intros Hpre L2 Hpid. unfold verify. intros (t1 & pid' & [-> Hpid']%expect_Ok & H)%st_bind_Ok.
  rewrite Hpid in Hpid'. injection Hpid' as <-.
  apply st_bind_Ok in H as (t2 & x & Hg & H). injection Hg as <- <-.
  destruct (visit_each_account _ _ _) as [v r'] eqn:E.
  apply st_bind_Ok in H as (t3 & [] & _ & H).
  apply st_bind_Ok in H as (t4 & [] & [-> <-]%lift_inv & (Heq & _)%ensureS_Ok).
  apply Z.eqb_eq in Heq. apply visit_verify_spec in E as (ps & -> & HF & E1 & E2). cbn in E1, E2.
  apply create_pre_accounts_spec in Hpre as (js' & js'' & pre & Hjs & -> & Hpre).
  cbn [app] in *. unfold instruction_cells. set (js := unique_from [] (ci_accounts ci)) in *.
  pose proof (Forall2_length _ _ _ Hpre) as L1. pose proof (Forall2_length _ _ _ HF) as L3. rewrite drop_0, length_take in *.
  assert (js'' = []) as ->.
  { apply length_zero_iff_nil. apply (f_equal length) in Hjs. rewrite length_app in Hjs. lia. }
  rewrite app_nil_r in Hjs. rewrite <-Hjs in *. rewrite take_ge in * by lia. split_and!; [done..|lia].
Qed.

(** From the accounts before, through the inner checks, to the final check. *)
Lemma verify_pre_spec m ci pres pres' accounts rent upd s s' P pid t t' r :
  create_pre_accounts m ci accounts s [] = (pres, r) →
  Forall2 (evolves P) pres pres' → pre_sum pres' = pre_sum pres → pid ∈ P →
  ci_program_id ci (account_keys m) = Some pid →
  verify m ci pres' accounts rent upd s' t = (t', Ok tt) →
  total s' (instruction_cells accounts ci) = total s (instruction_cells accounts ci) ∧
  ∀ j, j ∈ ci_accounts ci → ∃ k l a a', accounts !! j = Some (k, l) ∧
    s !! l = Some a ∧ s' !! l = Some a' ∧ respects P a a'.
Proof.
  intros Hpre HE HS HP Hpid Hv.
  destruct (verify_aligned _ _ _ _ _ _ _ _ _ _ _ _ _ Hpre (eq_sym (Forall2_length _ _ _ HE)) Hpid Hv) as (Hpres & HF & Hsum).
  split; [unfold instruction_cells; rewrite <-(Forall2_pre_total _ _ _ _ Hpres), <-HS; symmetry; exact Hsum|].
  intros j Hj. assert (Hu : j ∈ unique_from [] (ci_accounts ci)) by (apply unique_from_elem; set_solver).
  apply list_elem_of_lookup in Hu as [i Hi].
  destruct (Forall2_lookup_l _ _ _ _ _ Hpres Hi) as (p & Hp & (k & l & a & Hk & Ha & ->)).
  destruct (Forall2_lookup_l _ _ _ _ _ HE Hp) as (p' & Hp' & [_ HR]).
  destruct (Forall2_lookup_l _ _ _ _ _ HF Hi) as (p1 & Hp1 & (k' & l' & a' & w & Hk' & Ha' & _ & HA)).
  simplify_eq. exists k, l, a, a'. split_and!; [done..|].
  eapply (respects_trans P P [pid]); [done|set_solver|exact HR|by eapply allowed_respects].
Qed.

(** ** Instructions *)

Section instructions.
Context `{!Codec UpgradeableLoaderState} (env : Env).

Lemma ctx_new_Ok m ci ex pid n rec s c :
  ctx_new env m ci ex pid n rec s = Ok c →
  ∃ pres r ks, create_pre_accounts m ci (env_accounts env) s [] = (pres, r) ∧
    create_keyed_accounts m ci ex (env_accounts env) = Some ks ∧
    c = mkCtx [mkFrame pid ks (length ex) 0] pres n rec s.
Proof.
  unfold ctx_new. destruct (create_pre_accounts _ _ _ _ _) as [pres r].
  destruct r as [[]|e|]; [..|done].
  all: intros (ks & Hks & [= <-])%res_bind_Ok; unfold unwrap in Hks.
  all: destruct (create_keyed_accounts _ _ _ _) eqn:E; simplify_eq; eauto 10.
Qed.

(** The steps of an instruction that succeeds. *)
Lemma execute_instruction_Ok m ci ex mu rec idx o o' r :
  execute_instruction env m ci ex mu rec idx o = (o', Ok r) →
  ∃ o1 pid pres rr ks c' t', store_instruction_index env m idx o = (o1, Ok tt) ∧
    ci_program_id ci (account_keys m) = Some pid ∧
    create_pre_accounts m ci (env_accounts env) (o_cells o1) [] = (pres, rr) ∧
    create_keyed_accounts m ci ex (env_accounts env) = Some ks ∧
    process_instruction env (run env (S (max_invoke_depth env))) (programs env) pid (ci_data ci)
      (mkCtx [mkFrame pid ks (length ex) 0] pres (instruction_units env mu pid o1) rec (o_cells o1)) =
      (c', Ok tt) ∧
    verify m ci (pre_accounts c') (env_accounts env) (env_rent env)
      (feature_active env feature_set.updated_verify_policy) (cells c') (o_timings o1) = (t', Ok tt) ∧
    o_cells o' = cells c' ∧ r = instruction_recorder c'.
Proof.
  unfold execute_instruction. intros (o1 & [] & H1 & H)%st_bind_Ok.
  apply st_bind_Ok in H as (o2 & pid & [-> Hpid]%expect_Ok & H).
  apply st_bind_Ok in H as (o2 & x & Hg & H). injection Hg as <- <-.
  apply st_bind_Ok in H as (o2 & c & [-> Hc]%lift_inv & H). symmetry in Hc.
  destruct (process_instruction _ _ _ _ _ _) as [c' rp] eqn:Ep.
  apply st_bind_Ok in H as (o3 & [] & [= <-] & H).
  apply st_bind_Ok in H as (o4 & [] & [-> <-]%lift_inv & H).
  destruct (verify _ _ _ _ _ _ _ _) as [t' rv] eqn:Ev.
  apply st_bind_Ok in H as (o5 & [] & [= <-] & H).
  apply st_bind_Ok in H as (o6 & [] & [-> <-]%lift_inv & [= <- <-]).
  apply ctx_new_Ok in Hc as (pres & rr & ks & Hpre & Hks & ->).
  exists o1, pid, pres, rr, ks, c', t'. by split_and!.
Qed.

Lemma execute_instruction_rules m ci ex mu (recording : bool) idx o o' r :
  programs_disciplined small env →
  execute_instruction env m ci ex mu (if recording then Some [] else None) idx o = (o', Ok r) →
  ∃ o1 pid invoked, store_instruction_index env m idx o = (o1, Ok tt) ∧
    ci_program_id ci (account_keys m) = Some pid ∧
    match r with Some l => invoked = program_id <$> l | None => recording = false end ∧
    total (o_cells o') (instruction_cells (env_accounts env) ci) =
      total (o_cells o1) (instruction_cells (env_accounts env) ci) ∧
    ∀ j, j ∈ ci_accounts ci → ∃ k l a a', env_accounts env !! j = Some (k, l) ∧
      o_cells o1 !! l = Some a ∧ o_cells o' !! l = Some a' ∧ respects (pid :: invoked) a a'.
Proof.
  intros Hdisc (o1 & pid & pres & rr & ks & c' & t' & H1 & Hpid & Hpre & _ & Hp & Hv & -> & ->)
    %execute_instruction_Ok.
  eapply (process_instruction_keeps env (disciplined small) Hdisc tame tame_start) in Hp;
    [|intros; by apply (run_tame env small Hdisc (λ _ H, H))|done].
  destruct Hp as (_ & HS & ids & Hrec & HE). cbn in HS, HE, Hrec. exists o1, pid, ids.
  do 2 (split; [done|]). split; [|eapply verify_pre_spec; eauto; set_solver].
  unfold recorded in Hrec. cbn in Hrec. destruct recording; [by destruct Hrec as (l' & -> & ->)|by rewrite Hrec].
Qed.

(** An execution without a recorder is the one with it, without the record. *)
Lemma execute_instruction_erase m ci ex mu idx o :
  execute_instruction env m ci ex mu None idx o =
  let '(o', r) := execute_instruction env m ci ex mu (Some []) idx o in
  (o', match r with Ok _ => Ok None | Err e => Err e | Panic => Panic end).
Proof.
  unfold execute_instruction. cbv [mbind st_bind]. destruct (store_instruction_index env m idx o) as [o1 [[]|e|]]; [|done..].
  unfold expect at 1 2, lift, get. destruct (ci_program_id ci (account_keys m)) as [pid|]; cbn [unwrap]; [|done].
  pose proof (process_instruction_oblivious env (run env (S (max_invoke_depth env))) (programs env) pid (ci_data ci)
    (run_oblivious env _)) as HP. revert HP.
  generalize (process_instruction env (run env (S (max_invoke_depth env))) (programs env) pid (ci_data ci)).
  intros P HP. unfold ctx_new. destruct (create_pre_accounts _ _ _ _ _) as [pres rr].
  specialize (HP (mkCtx [mkFrame pid (default [] (create_keyed_accounts m ci ex (env_accounts env))) (length ex) 0] pres
    (instruction_units env mu pid o1) (Some []) (o_cells o1))). unfold erase, with_recorder in HP. cbn in HP.
  destruct (create_keyed_accounts _ _ _ _) as [ks|]; [|by destruct rr]. cbn in HP |- *.
  destruct rr as [[]|e|]; [| |done];
    rewrite HP; clear HP;
    match goal with |- context [let '(_, _) := P ?c in _] => destruct (P c) as [c1 [[]|e1|]] end; cbn; try done.
  all: destruct (verify _ _ _ _ _ _ _ _) as [t' [[]|e2|]]; done.
Qed.

Lemma execute_instruction_recorded m ci ex mu (recording : bool) idx o o' r :
  programs_disciplined small env →
  execute_instruction env m ci ex mu (if recording then Some [] else None) idx o = (o', Ok r) →
  ∃ inner, execute_instruction env m ci ex mu (Some []) idx o = (o', Ok (Some inner)) ∧
    r = if recording then Some inner else None.
Proof.
  intros Hdisc He.
  assert (∃ r', execute_instruction env m ci ex mu (Some []) idx o = (o', Ok r') ∧ (if recording then r = r' else r = None))
    as (r' & He' & Hr).
  { destruct recording; [by exists r|]. rewrite execute_instruction_erase in He.
    destruct (execute_instruction _ _ _ _ _ (Some []) _ _) as [o1 [r'|e|]]; [|done..]. injection He as -> <-. by exists r'. }
  apply (execute_instruction_rules m ci ex mu true) in He' as He''; [|done].
  destruct He'' as (o1 & pid & ids & _ & _ & Hm & _). destruct r' as [inner|]; [|done]. exists inner.
  split; [done|by destruct recording].
Qed.

Lemma writable_index m j : message_is_writable m j = Some true → (j < length (account_keys m))%nat.
Proof.
  unfold message_is_writable. destruct (_ || _); [|done]. intros (k & Hk & _)%bind_Some. by eapply lookup_lt_Some.
Qed.

(** Read-only accounts stay if programs ask for all accounts as writable. *)
Lemma execute_instruction_readonly m ci ex mu rec idx o o' r j k l :
  programs_disciplined overt env → NoDup (take (length (account_keys m)) (env_accounts env).*1) →
  execute_instruction env m ci ex mu rec idx o = (o', Ok r) →
  j ∈ ci_accounts ci → (j < length (account_keys m))%nat → message_is_writable m j = Some false → env_accounts env !! j = Some (k, l) →
  ∃ o1, store_instruction_index env m idx o = (o1, Ok tt) ∧ o_cells o' !! l = o_cells o1 !! l.
Proof.
  intros Hdisc Hnd (o1 & pid & pres & rr & ks & c' & t' & H1 & Hpid & Hpre & Hks & Hp & Hv & -> & _)
    %execute_instruction_Ok Hj Hlt Hw Hk.
  exists o1. split; [done|]. set (K := λ k', k' = k).
  eapply (process_instruction_keeps env (disciplined overt) Hdisc (shut K) (shut_start K)) in Hp;
    [|intros; by apply run_shut|done].
  destruct Hp as [_ HK].
  { constructor; [|constructor]. apply create_keyed_accounts_spec in Hks as (l' & -> & HF). intros ka. cbn.
    intros [(x & -> & _)%list_elem_of_fmap|[q Hq]%list_elem_of_lookup]%elem_of_app; [done|]. intros Hka.
    destruct (Forall2_lookup_r _ _ _ _ _ HF Hq) as (j' & _ & k' & Hk' & E & Hw').
    destruct (is_writable ka) eqn:Hka'; [|done]. pose proof (writable_index _ _ Hw') as Hlt'.
    assert (j = j') as <-; [|congruence].
    eapply NoDup_lookup; [exact Hnd|..]; rewrite lookup_take_lt, list_lookup_fmap, ?Hk, ?Hk' by done; [done|].
    cbn. by rewrite <-E, Hka. }
  cbn in HK.
  destruct (verify_aligned _ _ _ _ _ _ _ _ _ _ _ _ _ Hpre (eq_sym (Forall2_length _ _ _ HK)) Hpid Hv) as (HP & HV & _).
  assert (Hu : j ∈ unique_from [] (ci_accounts ci)) by (apply unique_from_elem; set_solver).
  apply list_elem_of_lookup in Hu as [i Hi].
  destruct (Forall2_lookup_l _ _ _ _ _ HP Hi) as (p & Hpp & (k1 & l1 & a & Hk1 & Ha & ->)).
  destruct (Forall2_lookup_l _ _ _ _ _ HK Hpp) as (p' & Hp' & [_ Hkept]).
  destruct (Forall2_lookup_l _ _ _ _ _ HV Hi) as (p1 & Hp1 & (k2 & l2 & a' & w & Hk2 & Ha' & Hw' & HA)).
  simplify_eq. rewrite Hkept in HA by done. apply allowed_readonly in HA. cbn in HA. by rewrite Ha, Ha', HA.
Qed.

(** Only the cells of the instruction's accounts change. *)
Lemma execute_instruction_frame m ci ex mu rec idx o o' r :
  programs_disciplined plain env →
  execute_instruction env m ci ex mu rec idx o = (o', Ok r) →
  ∃ o1, store_instruction_index env m idx o = (o1, Ok tt) ∧
    outside (instruction_cells (env_accounts env) ci) (o_cells o1) (o_cells o').
Proof.
  intros Hdisc (o1 & pid & pres & rr & ks & c' & t' & H1 & _ & _ & Hks & Hp & _ & -> & _)
    %execute_instruction_Ok.
  exists o1. split; [done|]. apply create_keyed_accounts_spec in Hks as (l & -> & HF).
  eapply (process_instruction_keeps env (disciplined plain) Hdisc confined confined_start) in Hp;
    [|intros; by apply run_confined|done].
  destruct Hp as (_ & _ & HD & HO); [by repeat constructor; apply new_frame_ok|]. split; [done|].
  intros loc Hloc Hn. apply HO; [done|]. contradict Hn. unfold writable_cells in Hn. cbn in Hn.
  rewrite drop_app_length' in Hn by (by rewrite length_fmap).
  apply list_elem_of_fmap in Hn as (ka & -> & [q Hq]%list_elem_of_lookup).
  destruct (Forall2_lookup_r _ _ _ _ _ HF Hq) as (j & Hj & k & Hk & _).
  apply list_elem_of_omap. exists j. split; [|by rewrite Hk].
  apply unique_from_elem. split; [by eapply list_elem_of_lookup_2|set_solver].
Qed.
End instructions.

(** ** Messages *)

Lemma total_frame s s' sub locs :
  NoDup sub → NoDup locs → sub ⊆ locs → (∀ l, l ∈ locs → is_Some (s !! l)) →
  outside sub s s' → total s' sub = total s sub → total s' locs = total s locs.
Proof.
  intros Hsub Hlocs Hin Hdom [_ HO] HT. apply NoDup_submseteq in Hin; [|done].
  apply submseteq_Permutation in Hin as [rest Hp]. unfold total in *.
  rewrite !(sum_with_perm _ _ _ Hp), !sum_with_app, HT. f_equal. apply sum_with_ext.
  intros l Hl. unfold lamports_at. rewrite HO; [done| |].
  - apply elem_of_dom, Hdom. rewrite Hp. set_solver.
  - rewrite Hp in Hlocs. apply NoDup_app in Hlocs as (_ & Hd & _). set_solver.
Qed.

Lemma instruction_cells_NoDup accounts ci :
  NoDup (snd <$> accounts) → NoDup (instruction_cells accounts ci).
Proof.
  intros Hnd. unfold instruction_cells. generalize (unique_from_NoDup [] (ci_accounts ci)).
  induction 1 as [|j js Hj Hjs IH]; cbn; [constructor|].
  destruct (accounts !! j) as [[k l]|] eqn:Ej; cbn; [|done]. constructor; [|done].
  intros (j' & Hj' & ([k' l'] & Hk' & ->)%fmap_Some)%list_elem_of_omap. cbn in *.
  assert (j = j') as ->; [|done].
  eapply NoDup_lookup; [exact Hnd|..]; rewrite list_lookup_fmap; [by rewrite Ej|by rewrite Hk'].
Qed.

Lemma instruction_cells_subset accounts ci : instruction_cells accounts ci ⊆ snd <$> accounts.
Proof.
  intros l (j & _ & ([k l'] & Hk & ->)%fmap_Some)%list_elem_of_omap.
  apply list_elem_of_fmap. exists (k, l'). split; [done|]. by eapply list_elem_of_lookup_2.
Qed.

Section messages.
Context `{!Codec UpgradeableLoaderState} (env : Env).

Definition all_present (o : Outer) : Prop := ∀ l, l ∈ snd <$> env_accounts env → is_Some (o_cells o !! l).

Lemma store_instruction_index_lamports m idx o o1 :
  store_instruction_index env m idx o = (o1, Ok tt) →
  (∀ l, lamports_at (o_cells o1) l = lamports_at (o_cells o) l) ∧
  dom (o_cells o1) = dom (o_cells o).
Proof.
  unfold store_instruction_index. destruct (feature_active _ _); [|by intros [= <-]].
  destruct (list_find _ _) as [[? [? c]]|]; [|by intros [= <-]].
  intros (o2 & x & Hg & H)%st_bind_Ok. injection Hg as <- <-.
  apply st_bind_Ok in H as (o2 & a & [-> Ha]%expect_Ok & H).
  apply st_bind_Ok in H as (o2 & d & [-> _]%expect_Ok & [= <-]). cbn. split.
  - intros l. unfold lamports_at. destruct (decide (l = c)) as [->|Hne].
    + by rewrite lookup_insert_eq, Ha.
    + by rewrite lookup_insert_ne.
  - rewrite dom_insert_L. apply elem_of_dom_2 in Ha. set_solver.
Qed.

Context (Hdisc : programs_disciplined plain env) (Hnodup : NoDup (snd <$> env_accounts env)).

Lemma execute_instruction_conserves m ci ex mu (recording : bool) idx o o' r :
  all_present o →
  execute_instruction env m ci ex mu (if recording then Some [] else None) idx o = (o', Ok r) →
  total (o_cells o') (snd <$> env_accounts env) = total (o_cells o) (snd <$> env_accounts env) ∧
  all_present o'.
Proof.
  intros Hp He. pose proof He as (o1 & H1 & HO)%execute_instruction_frame; [|done].
  apply execute_instruction_rules in He as (o2 & _ & _ & H2 & _ & _ & HT & _);
    [|eapply programs_disciplined_mono; [|exact Hdisc]; by intros ? []].
  rewrite H1 in H2. injection H2 as <-. apply store_instruction_index_lamports in H1 as [Hl Hd].
  assert (Hp1 : all_present o1) by (intros l Hin; apply elem_of_dom; rewrite Hd; by apply elem_of_dom, Hp).
  split.
  - rewrite (total_frame (o_cells o1) (o_cells o') (instruction_cells (env_accounts env) ci)); [|try done..].
    + apply sum_with_ext. intros. apply Hl.
    + by apply instruction_cells_NoDup.
    + apply instruction_cells_subset.
  - intros l Hin. apply elem_of_dom. apply HO. by apply elem_of_dom, Hp1.
Qed.

Lemma process_instructions_conserves m loaders mu recording cis : ∀ idx o o' rs,
  all_present o → process_instructions env m loaders mu recording idx cis o = (o', Ok rs) →
  total (o_cells o') (snd <$> env_accounts env) = total (o_cells o) (snd <$> env_accounts env).
Proof.
  induction cis as [|ci cis IH]; intros idx o o' rs Hp; cbn [process_instructions]; [by intros [= <- _]|].
  intros (o1 & ex & [-> _]%lift_inv & H)%st_bind_Ok.
  apply st_bind_Ok in H as (o1 & r & (r' & He & Hr)%mapE_inv & H). symmetry in Hr. apply map_err_Ok in Hr as ->.
  apply st_bind_Ok in H as (o2 & rs' & H2 & [= <- <-]).
  apply execute_instruction_conserves in He as [HT Hp1]; [|done]. by rewrite (IH _ _ _ _ Hp1 H2).
Qed.
End messages.

(** ** The properties *)

(** C3. What an instruction that succeeds did, for programs that pass the
    errors of their invocations on and invoke instructions of fewer than 255
    accounts: the lamports of its accounts add up to what they did before, and
    each of its accounts was changed only as its program and the programs
    invoked may: an executable account not at all, the rent epoch never, the
    size of the data only with the system program among them, and the owner,
    the data, the executable flag, and the lamports downwards, only if the
    account's owner is among them.  The programs invoked are those of the
    instructions recorded by the same execution with recording on; recording
    changes nothing else.  If the programs also ask for all accounts of the
    instructions they invoke as writable, and the keys of the message are
    distinct, an account that the message makes read-only was not changed at
    all. *)
Theorem instruction_respects_owners `{!Codec UpgradeableLoaderState} env m ci ex mu (recording : bool)
    idx o o' r :
  programs_disciplined small env →
  execute_instruction env m ci ex mu (if recording then Some [] else None) idx o = (o', Ok r) →
  ∃ o1 pid inner, store_instruction_index env m idx o = (o1, Ok tt) ∧
    ci_program_id ci (account_keys m) = Some pid ∧
    execute_instruction env m ci ex mu (Some []) idx o = (o', Ok (Some inner)) ∧
    r = (if recording then Some inner else None) ∧
    total (o_cells o') (instruction_cells (env_accounts env) ci) =
      total (o_cells o1) (instruction_cells (env_accounts env) ci) ∧
    ∀ j, j ∈ ci_accounts ci → ∃ k l a a', env_accounts env !! j = Some (k, l) ∧
      o_cells o1 !! l = Some a ∧ o_cells o' !! l = Some a' ∧
      respects (pid :: (program_id <$> inner)) a a' ∧
      (programs_disciplined overt env → NoDup (take (length (account_keys m)) (env_accounts env).*1) →
       (j < length (account_keys m))%nat → message_is_writable m j = Some false → a' = a).
Proof.
  intros Hdisc He. destruct (execute_instruction_recorded _ _ _ _ _ _ _ _ _ _ Hdisc He) as (inner & Hi & ->).
  destruct (execute_instruction_rules _ _ _ _ _ true _ _ _ _ Hdisc Hi) as (o1 & pid & ids & H1 & Hpid & -> & HT & HR).
  exists o1, pid, inner. do 5 (split; [done|]). intros j Hj. destruct (HR j Hj) as (k & l & a & a' & Hk & Ha & Ha' & Hr).
  exists k, l, a, a'. do 4 (split; [done|]). intros Ho Hnd Hlt Hw.
  destruct (execute_instruction_readonly _ _ _ _ _ _ _ _ _ _ _ _ _ Ho Hnd Hi Hj Hlt Hw Hk) as (o2 & H2 & E).
  rewrite H1 in H2. injection H2 as <-. congruence.
Qed.

(** C2. A message that succeeds creates and destroys no lamports: the lamports
    of all its accounts add up to what they did before, whatever its programs
    are, if they pass the errors of their invocations on and the instructions
    they invoke do not ask for one key both as a read-only signer and
    writable.  The accounts of the transaction are present, each in a cell of
    its own. *)
Theorem message_conserves_lamports `{!Codec UpgradeableLoaderState} env m loaders mu recording o o' rs :
  programs_disciplined plain env → NoDup (snd <$> env_accounts env) → all_present env o →
  process_message env m loaders mu recording o = (o', Ok rs) →
  total (o_cells o') (snd <$> env_accounts env) = total (o_cells o) (snd <$> env_accounts env).
Proof. intros Hd Hn Hp. by apply process_instructions_conserves. Qed.

(** ** Examples *)

Module example.

#[export] Instance uls_serial : Serial UpgradeableLoaderState.
Proof.
  refine (inj_serial' (A := (unit + option Z) + (Z + (Z * option Z)))
    (λ s, match s with
          | ULS_Uninitialized => inl (inl tt)
          | ULS_Buffer a => inl (inr a)
          | ULS_Program p => inr (inl p)
          | ULS_ProgramData s a => inr (inr (s, a))
          end)
    (λ x, match x with
          | inl (inl _) => ULS_Uninitialized
          | inl (inr a) => ULS_Buffer a
          | inr (inl p) => ULS_Program p
          | inr (inr (s, a)) => ULS_ProgramData s a
          end) _).
  abstract (by intros []).
Defined.
#[local] Instance uls_wf : Wf UpgradeableLoaderState := λ _, True.
#[local] Instance uls_wf_dec (x : UpgradeableLoaderState) : Decision (wf x).
Proof. apply True_dec. Defined.
#[export] Instance uls_codec : Codec UpgradeableLoaderState := serial_codec _.

(** Program 500 invokes program 501 with its three accounts, after changing
    the data of the account [written], if any. *)
Definition caller (ix : Instruction) (written : option nat) : Program := λ _ _,
  let p := NativeInvoke ix [0; 1; 2]%nat [] Return in
  match written with Some i => Update i (set_data [x01]) p | None => p end.

(** Program 501 moves [n] lamports from its first account to its second. *)
Definition callee (n : Z) : Program := λ _ _,
  Update 0 (λ a, set_lamports (lamports a - n) a)
    (Update 1 (λ a, set_lamports (lamports a + n) a) (Return (Ok tt))).

Definition env_with (p q : Program) : Env :=
  mkEnv Rent_default [(12, 0%nat); (11, 1%nat); (500, 2%nat); (501, 3%nat)] 4 (λ _, false)
    [(500, p); (501, q)] (λ _ _, Return (Err GenericError)).

Definition outer_with (owner1 owner2 : Pubkey) : Outer :=
  mkOuter {[ 0%nat := mkAccount 100 [x00] owner1 false 0; 1%nat := mkAccount 7 [x00] owner2 false 0;
             2%nat := mkAccount 1 [] native_loader_id true 0;
             3%nat := mkAccount 1 [] native_loader_id true 0 ]} Timings_default 0.

(** Account 12 signs; 12 is writable, and 11 if [w]. *)
Definition message_with (w : bool) : Message :=
  mkMessage (mkHeader 1 0 (if w then 2 else 3)) [12; 11; 500; 501] 0
    [mkCompiled 2 [0; 1; 3]%nat []].

Definition transfer_ix : Instruction :=
  mkInstruction 501 [mkMeta 12 true true; mkMeta 11 false true] [].
Definition transfer_env : Env := env_with (caller transfer_ix None) (callee 5).

Lemma transfer_plain : programs_disciplined plain transfer_env.
Proof.
  assert (Hp : plain transfer_ix).
  { split; [unfold small; cbn; lia|]. intros k (x & Hx & Hk & Hs) _. exists x. split_and!; [done..|].
    cbn in Hx. repeat (apply elem_of_cons in Hx as [->|Hx]; [done|]). by apply not_elem_of_nil in Hx. }
  split; [|by intros]. intros id p Hin pid d. cbn in Hin.
  apply elem_of_cons in Hin as [[= -> ->]|[[= -> ->]|[]%not_elem_of_nil]%elem_of_cons]; [|done].
  split_and!; [exact Hp|done..].
Qed.

Lemma transfer_overt : programs_disciplined overt transfer_env.
Proof.
  split; [|by intros]. intros id p Hin pid d. cbn in Hin.
  apply elem_of_cons in Hin as [[= -> ->]|[[= -> ->]|[]%not_elem_of_nil]%elem_of_cons]; [|done].
  split_and!; [|done..]. split; [unfold small; cbn; lia|by repeat constructor].
Qed.

Lemma instruction_respects_owners_witness :
  ∃ o' r, execute_instruction transfer_env (message_with true) (mkCompiled 2 [0; 1; 3]%nat [])
    [(500, 2%nat)] 200000 None 0 (outer_with 501 77) = (o', Ok r) ∧
    lamports_at (o_cells o') 0 = 95 ∧ lamports_at (o_cells o') 1 = 12 ∧
    ∀ j, j ∈ [0; 1; 3]%nat → ∃ k l a a', env_accounts transfer_env !! j = Some (k, l) ∧
      o_cells (outer_with 501 77) !! l = Some a ∧ o_cells o' !! l = Some a' ∧ respects [500; 501] a a' ∧
      (message_is_writable (message_with true) j = Some false → a' = a).
Proof.
  eexists _, _. split; [vm_compute; reflexivity|]. split; [vm_compute; reflexivity|]. split; [vm_compute; reflexivity|].
  edestruct (instruction_respects_owners transfer_env (message_with true) (mkCompiled 2 [0; 1; 3]%nat [])
    [(500, 2%nat)] 200000 false 0 (outer_with 501 77)) as (o1 & pid & inner & H1 & H2 & H3 & _ & _ & H).
  - eapply programs_disciplined_mono; [|exact transfer_plain]. by intros ? [].
  - vm_compute. reflexivity.
  - injection H1 as <-. vm_compute in H2. injection H2 as <-. vm_compute in H3. injection H3 as <-.
    intros j Hj. destruct (H j Hj) as (k & l & a & a' & Hk & Ha & Ha' & Hr & Hro). exists k, l, a, a'.
    do 4 (split; [done|]). apply Hro; [exact transfer_overt|apply (bool_decide_unpack _); vm_compute; exact I|].
    cbn in Hj |- *. repeat (apply elem_of_cons in Hj as [->|Hj]; [lia|]). by apply not_elem_of_nil in Hj.
Defined.

Lemma message_conserves_lamports_witness :
  ∃ o' rs, process_message transfer_env (message_with true) [[(500, 2%nat)]] 200000 true
    (outer_with 501 77) = (o', Ok rs) ∧
    total (o_cells o') [0; 1; 2; 3]%nat = total (o_cells (outer_with 501 77)) [0; 1; 2; 3]%nat.
Proof.
  eexists _, _. split; [vm_compute; reflexivity|].
  eapply (message_conserves_lamports transfer_env (message_with true) [[(500, 2%nat)]] 200000 true
            (outer_with 501 77)); [exact transfer_plain| | |vm_compute; reflexivity].
  - cbn. repeat (constructor; [set_solver|]). constructor.
  - intros l Hl. cbn in Hl.
    repeat (apply elem_of_cons in Hl as [->|Hl]; [by eexists|]). by apply not_elem_of_nil in Hl.
Defined.

(** The context in which program 500 runs, as its instruction starts. *)
Definition start_ctx : Ctx :=
  mkCtx [mkFrame 500 [mkKeyed false false 500 2; mkKeyed true true 12 0; mkKeyed false true 11 1;
                      mkKeyed false false 501 3] 1 1]
    [PreAccount_new 12 (mkAccount 100 [x00] 501 false 0); PreAccount_new 11 (mkAccount 7 [x00] 77 false 0);
     PreAccount_new 501 (mkAccount 1 [] native_loader_id true 0)]
    200000 (Some []) (o_cells (outer_with 501 77)).

Lemma run_fuel_enough_witness :
  let p := caller transfer_ix None 500 [] in
  ∃ c, run transfer_env 5 p start_ctx = (c, Ok tt) ∧ run transfer_env (5 + 2) p start_ctx = (c, Ok tt).
Proof.
  eexists. split; [vm_compute; reflexivity|].
  refine (eq_trans (proj1 (message_depth.run_fuel_enough transfer_env 5 2 _ start_ctx _ _)) _).
  - lia.
  - cbn. lia.
  - vm_compute. reflexivity.
Defined.

(** The caller owns both accounts and invokes a program that does nothing. *)
Definition writing_env (i : nat) : Env :=
  env_with (caller (mkInstruction 501 [mkMeta 12 true true; mkMeta 11 false false] []) (Some i))
    (λ _ _, Return (Ok tt)).

(** [native_invoke] reads the caller's write privileges at the wrong
    indices: they are listed in the order of the caller's accounts after a
    leading [false], and read in the order of the compiled message.  A program
    that changed a read-only account (11) before it invoked another passes all
    the checks, and the message succeeds with the account changed; one that
    changed a writable account (12) is refused. *)
Theorem native_invoke_privileges_shifted :
  (message_is_writable (message_with false) 1 = Some false ∧
   ∃ o' rs, process_message (writing_env 1) (message_with false) [[(500, 2%nat)]] 200000 true
     (outer_with 500 500) = (o', Ok rs) ∧ data <$> o_cells o' !! 1%nat = Some [x01] ∧
     data <$> o_cells (outer_with 500 500) !! 1%nat = Some [x00]) ∧
  (message_is_writable (message_with false) 0 = Some true ∧
   ∃ o', process_message (writing_env 0) (message_with false) [[(500, 2%nat)]] 200000 true
     (outer_with 500 500) = (o', Err (0, ReadonlyDataModified))).
Proof.
  split; (split; [vm_compute; reflexivity|]).
  - eexists _, _. split; [vm_compute; reflexivity|]. by split.
  - eexists. vm_compute. reflexivity.
Qed.
End example.
End message_safety.
