(* ===== verification/BpfLoader.v ===== *)
(** * Program addresses and the BPF loader

    Models the program derived addresses of [sdk/program/src/pubkey.rs], the
    account layout of [sdk/program/src/bpf_loader_upgradeable.rs] and the
    loader program of [programs/bpf_loader/src/lib.rs]: dispatch, writing and
    finalizing programs, and the buffers, programs and authorities of the
    upgradeable loader.

    The virtual machine is code of another crate: [Rbpf] gives the executable
    made from a program's bytes and its execution.  Whether 32 bytes are a point
    of the curve is a parameter too.  A keyed account that is borrowed for
    writing while another one is read makes the instruction fail when both are
    the same account; these borrows are written out. *)

From S2P Require Import Prelude F64 Account Features Sysvar Message System MessageProcessor.
From Stdlib Require Import Strings.Byte.

(** ** Program derived addresses *)

Module program_address.

Class CurvePoint := bytes_are_curve_point : Hash → bool.

Definition MAX_SEEDS : nat := 16.

Definition is_native_program_id (k : Pubkey) : bool :=
  bool_decide (k ∈ [bpf_loader_id; bpf_loader_deprecated_id; feature_program_id; config_program_id; stake_program_id;
                    stake_config_id; vote_program_id; secp256k1_program_id; system_program_id; sysvar_program_id]).

Section addresses.
Context `{!Sha256, !CurvePoint}.

Definition create_program_address (seeds : list (list byte)) (program_id : Pubkey) : res PubkeyError Pubkey :=
  if bool_decide (MAX_SEEDS < length seeds)%nat then Err PE_MaxSeedLengthExceeded
  else if negb (forallb (λ seed, bool_decide (length seed <= MAX_SEED_LEN)%nat) seeds) then Err PE_MaxSeedLengthExceeded
  else if is_native_program_id program_id then Err PE_IllegalOwner
  else
    let hash := hashv (seeds ++ [key_bytes program_id; PDA_MARKER]) in
    if bytes_are_curve_point hash then Err PE_InvalidSeeds else Ok hash.

(** The bump seeds from 255 down; 255 of the 256 values are tried. *)
Fixpoint find_bump (tries : nat) (bump_seed : Z) (seeds : list (list byte)) (program_id : Pubkey) : option (Pubkey * Z) :=
  match tries with
  | O => None
  | S tries' =>
      match create_program_address (seeds ++ [[byte_of_Z bump_seed]]) program_id with
      | Ok address => Some (address, bump_seed)
      | Err PE_InvalidSeeds => find_bump tries' (bump_seed - 1) seeds program_id
      | _ => None
      end
  end.

Definition try_find_program_address (seeds : list (list byte)) (program_id : Pubkey) : option (Pubkey * Z) :=
  find_bump 255 255 seeds program_id.

Definition find_program_address {E} (seeds : list (list byte)) (program_id : Pubkey) : res E (Pubkey * Z) :=
  unwrap (try_find_program_address seeds program_id).
End addresses.
End program_address.

(** ** The loader *)

Module bpf_loader.
Import message system_program message_processor program_address.

Inductive UpgradeableLoaderInstruction : Type :=
| InitializeBuffer
| Write (offset : Z) (bytes : list byte)
| DeployWithMaxDataLen (max_data_len : Z)
| Upgrade
| SetAuthority
| Close.

Inductive LoaderInstruction : Type :=
| LI_Write (offset : Z) (bytes : list byte)
| LI_Finalize.

Definition upgradeable_close_instruction : Pubkey :=
  Eval vm_compute in declare_id "FsPaByos3gA9bUEhp3EimQpQPCoSvCEigHod496NmABQ".

(** The virtual machine; [create_executable] registers the system calls,
    parses, verifies and, if asked, compiles the program. *)
Class Rbpf : Type := {
  executable_program : Type;
  create_executable : bool → list byte → res InstructionError executable_program;
  execute : executable_program → Pubkey → Pubkey → list byte → bool → MP unit;
}.

(** The sizes of the serialized states with an authority, which precede the
    program's bytes: four bytes of tag, the slot, the option, the key. *)
Definition buffer_len (program_len : Z) : Z := saturating_add64 37 program_len.
Definition buffer_data_offset : nat := 37.
Definition program_len : nat := 36.
Definition programdata_len (program_len : Z) : Z := saturating_add64 45 program_len.
Definition programdata_data_offset : nat := 45.

Definition check_loader_id (id : Pubkey) : bool :=
  (id =? bpf_loader_id) || (id =? bpf_loader_deprecated_id) || (id =? bpf_loader_upgradeable_id).

Section loader.
Context `{!Sha256, !CurvePoint, !Rbpf}.
Context `{!Codec UpgradeableLoaderState, !Codec UpgradeableLoaderInstruction, !Codec LoaderInstruction}.
Context `{!Codec Clock, !Codec Rent, !Codec SystemInstruction} (env : Env) (run : Prog → MP unit).

(** The invocation context, with the executors. *)
Record Loader : Type := mkLoader {
  ld_ctx : Ctx;
  executors : gmap Pubkey executable_program;
}.

Definition LD (A : Type) : Type := ST Loader InstructionError A.

Definition on_ctx {A} (m : MP A) : LD A := λ s, let '(c, r) := m (ld_ctx s) in (mkLoader c (executors s), r).
Definition acc {A} (m : M A) : LD A := on_ctx (on_cells m).
Definition get_keyed_accounts : LD (list KeyedAccount) := on_ctx keyed_accounts.
Definition at_index (ks : list KeyedAccount) (i : nat) : LD KeyedAccount := acc (keyed_account_at_index ks i).
Definition get_executor (k : Pubkey) : LD (option executable_program) := gets (λ s, executors s !! k).
Definition add_executor (k : Pubkey) (e : executable_program) : LD unit :=
  modify (λ s, mkLoader (ld_ctx s) (<[k := e]> (executors s))).
Definition get_caller : LD Pubkey :=
  s ← get; lift (ok_or (frame_key <$> head (invoke_stack (ld_ctx s))) CallDepth).

(** [k] is borrowed for writing while [l] are read. *)
Definition borrow_mut (k : KeyedAccount) (l : list KeyedAccount) : M unit :=
  ensureS (forallb (λ x, negb (bool_decide (account x = account k))) l) AccountBorrowFailed.

Definition set_executable (k : KeyedAccount) : M unit :=
  update_account k (λ a, Ok (mkAccount (lamports a) (data a) (owner a) true (rent_epoch a))).
Definition zero_lamports (k : KeyedAccount) : M unit := update_account k (λ a, Ok (set_lamports 0 a)).

(** [data[off..off + n].copy_from_slice(bytes)], with its panics. *)
Definition copy_from_slice (k : KeyedAccount) (off n : nat) (bytes : list byte) : M unit :=
  update_account k (λ a,
    if bool_decide (off + n <= length (data a))%nat && bool_decide (length bytes = n)
    then Ok (set_data (write_at off bytes (data a)) a) else Panic).

(** [&account.data()[off..]] *)
Definition data_from (k : KeyedAccount) (off : nat) : M (list byte) :=
  a ← try_account_ref k;
  if bool_decide (off <= length (data a))%nat then mret (drop off (data a)) else panic.

Definition create_executor (program_account_index program_data_offset : nat) (use_jit : bool) : LD executable_program :=
  ks ← get_keyed_accounts;
  program ← at_index ks program_account_index;
  bytes ← acc (data_from program program_data_offset);
  lift (create_executable use_jit bytes).

Definition write_program_data (program_account_index program_data_offset : nat) (bytes : list byte) : LD unit :=
  ks ← get_keyed_accounts;
  program ← at_index ks program_account_index;
  a ← acc (try_account_ref program);
  ensureS (negb (bool_decide (length (data a) < program_data_offset + length bytes)%nat)) AccountDataTooSmall;;
  acc (copy_from_slice program program_data_offset (length bytes) bytes).

Definition initialize_buffer (ks : list KeyedAccount) : LD unit :=
  buffer ← at_index ks 0;
  st ← acc (ka_state UpgradeableLoaderState buffer);
  ensureS (match st with ULS_Uninitialized => true | _ => false end) AccountAlreadyInitialized;;
  authority ← at_index ks 1;
  acc (ka_set_state buffer (ULS_Buffer (Some (unsigned_key authority)))).

(** The checks on an authority that must be there, be the given one, and have
    signed. *)
Definition check_authority (address : option Pubkey) (authority : KeyedAccount) : LD unit :=
  ensureS (bool_decide (is_Some address)) Immutable;;
  ensureS (bool_decide (address = Some (unsigned_key authority))) IncorrectAuthority;;
  ensureS (bool_decide (is_Some (signer_key authority))) MissingRequiredSignature.

Definition write_buffer (ks : list KeyedAccount) (offset : Z) (bytes : list byte) : LD unit :=
  buffer ← at_index ks 0;
  authority ← at_index ks 1;
  st ← acc (ka_state UpgradeableLoaderState buffer);
  match st with
  | ULS_Buffer authority_address => check_authority authority_address authority
  | _ => fail InvalidAccountData
  end;;
  write_program_data 0 (buffer_data_offset + Z.to_nat offset) bytes.

(** The buffer of a deployment or an upgrade: its authority is the given one,
    which signed. *)
Definition check_buffer (buffer authority : KeyedAccount) : LD unit :=
  st ← acc (ka_state UpgradeableLoaderState buffer);
  match st with
  | ULS_Buffer authority_address =>
      ensureS (bool_decide (authority_address = Some (unsigned_key authority))) IncorrectAuthority;;
      ensureS (bool_decide (is_Some (signer_key authority))) MissingRequiredSignature
  | _ => fail InvalidArgument
  end.

Definition create_account_instruction (from to : Pubkey) (lamports space : Z) (o : Pubkey) : Instruction :=
  mkInstruction system_program_id [mkMeta from true true; mkMeta to true true] (bincode_ser (CreateAccount lamports space o)).

(** The checks of a deployment before anything is written; the length of the
    buffer's program. *)
Definition check_deploy (program buffer authority : KeyedAccount) (rent : Rent) (max_data_len : Z) : LD nat :=
  st ← acc (ka_state UpgradeableLoaderState program);
  ensureS (match st with ULS_Uninitialized => true | _ => false end) AccountAlreadyInitialized;;
  n ← acc (ka_data_len program);
  ensureS (negb (bool_decide (n < program_len)%nat)) AccountDataTooSmall;;
  l ← acc (ka_lamports program);
  ensureS (negb (l <? minimum_balance rent n)) ExecutableAccountNotRentExempt;;
  check_buffer buffer authority;;
  len ← acc (ka_data_len buffer);
  let buffer_data_len := (len - buffer_data_offset)%nat in
  ensureS (negb (bool_decide (len < buffer_data_offset)%nat || bool_decide (buffer_data_len = 0%nat))) InvalidAccountData;;
  ensureS (negb (max_data_len <? Z.of_nat buffer_data_len)) AccountDataTooSmall;;
  ensureS (negb (MAX_PERMITTED_DATA_LENGTH <? programdata_len max_data_len)) InvalidArgument;;
  mret buffer_data_len.

Definition deploy_with_max_data_len (program_id : Pubkey) (ks : list KeyedAccount) (max_data_len : Z) (use_jit : bool) : LD unit :=
  payer ← at_index ks 0;
  programdata ← at_index ks 1;
  program ← at_index ks 2;
  buffer ← at_index ks 3;
  rent_account ← at_index ks 4;
  rent ← acc (from_keyed_account Rent rent_account);
  clock_account ← at_index ks 5;
  clock ← acc (from_keyed_account Clock clock_account);
  authority ← at_index ks 7;
  buffer_data_len ← check_deploy program buffer authority rent max_data_len;
  '(derived_address, bump_seed) ← lift (find_program_address [key_bytes (unsigned_key program)] program_id);
  ensureS (derived_address =? unsigned_key programdata) InvalidArgument;;
  let len := programdata_len max_data_len in
  let instruction := create_account_instruction (unsigned_key payer) (unsigned_key programdata)
    (Z.max 1 (minimum_balance rent (Z.to_nat len))) len program_id in
  caller_program_id ← get_caller;
  signer ← lift (map_err PubkeyError_into
    (create_program_address [key_bytes (unsigned_key program); [byte_of_Z bump_seed]] caller_program_id));
  on_ctx (native_invoke env run instruction [0; 1; 6]%nat [signer]);;
  executor ← create_executor 3 buffer_data_offset use_jit;
  add_executor program_id executor;;
  ks ← get_keyed_accounts;
  payer ← at_index ks 0;
  programdata ← at_index ks 1;
  program ← at_index ks 2;
  buffer ← at_index ks 3;
  acc (ka_set_state programdata (ULS_ProgramData (clock_slot clock) (Some (unsigned_key authority))));;
  acc (borrow_mut programdata [buffer]);;
  bytes ← acc (data_from buffer buffer_data_offset);
  acc (copy_from_slice programdata programdata_data_offset buffer_data_len bytes);;
  acc (ka_set_state program (ULS_Program (unsigned_key programdata)));;
  acc (set_executable program);;
  acc (borrow_mut payer [buffer]);;
  l ← acc (ka_lamports buffer);
  acc (ka_add_lamports payer l);;
  acc (zero_lamports buffer).

(** The checks of an upgrade; the length of the buffer's program and the
    balance the program data needs. *)
Definition check_upgrade (program_id : Pubkey) (programdata program buffer authority : KeyedAccount) (rent : Rent) : LD (nat * Z) :=
  a ← acc (try_account_ref program);
  ensureS (executable a) AccountNotExecutable;;
  ensureS (is_writable program) InvalidArgument;;
  ensureS (owner a =? program_id) IncorrectProgramId;;
  st ← acc (ka_state UpgradeableLoaderState program);
  match st with
  | ULS_Program programdata_address => ensureS (programdata_address =? unsigned_key programdata) InvalidArgument
  | _ => fail InvalidAccountData
  end;;
  check_buffer buffer authority;;
  len ← acc (ka_data_len buffer);
  let buffer_data_len := (len - buffer_data_offset)%nat in
  n ← acc (ka_data_len programdata);
  let programdata_balance_required := Z.max 1 (minimum_balance rent n) in
  ensureS (negb (bool_decide (len < buffer_data_offset)%nat || bool_decide (buffer_data_len = 0%nat))) InvalidAccountData;;
  ensureS (negb (Z.of_nat n <? programdata_len (Z.of_nat buffer_data_len))) AccountDataTooSmall;;
  l ← acc (ka_lamports programdata);
  l' ← acc (ka_lamports buffer);
  ensureS (negb (add64 l l' <? programdata_balance_required)) InsufficientFunds;;
  st ← acc (ka_state UpgradeableLoaderState programdata);
  match st with
  | ULS_ProgramData _ upgrade_authority_address => check_authority upgrade_authority_address authority
  | _ => fail InvalidAccountData
  end;;
  mret (buffer_data_len, programdata_balance_required).

(** The writes of an upgrade, which moves the program and the lamports of the
    buffer. *)
Definition apply_upgrade (programdata buffer spill : KeyedAccount) (slot : Slot) (authority : Pubkey) (buffer_data_len : nat)
    (programdata_balance_required : Z) : M unit :=
  ka_set_state programdata (ULS_ProgramData slot (Some authority));;
  borrow_mut programdata [buffer];;
  bytes ← data_from buffer buffer_data_offset;
  copy_from_slice programdata programdata_data_offset buffer_data_len bytes;;
  update_account programdata (λ a,
    let off := (programdata_data_offset + buffer_data_len)%nat in
    if bool_decide (off <= length (data a))%nat
    then Ok (set_data (take off (data a) ++ replicate (length (data a) - off) x00) a) else Panic);;
  borrow_mut spill [programdata; buffer];;
  l ← ka_lamports programdata;
  l' ← ka_lamports buffer;
  ka_add_lamports spill (saturating_sub (add64 l l') programdata_balance_required);;
  zero_lamports buffer;;
  update_account programdata (λ a, Ok (set_lamports programdata_balance_required a)).

Definition upgrade (program_id : Pubkey) (ks : list KeyedAccount) (use_jit : bool) : LD unit :=
  programdata ← at_index ks 0;
  program ← at_index ks 1;
  buffer ← at_index ks 2;
  rent_account ← at_index ks 4;
  rent ← acc (from_keyed_account Rent rent_account);
  clock_account ← at_index ks 5;
  clock ← acc (from_keyed_account Clock clock_account);
  authority ← at_index ks 6;
  '(buffer_data_len, programdata_balance_required) ← check_upgrade program_id programdata program buffer authority rent;
  executor ← create_executor 2 buffer_data_offset use_jit;
  ks ← get_keyed_accounts;
  program ← at_index ks 1;
  add_executor (unsigned_key program) executor;;
  programdata ← at_index ks 0;
  buffer ← at_index ks 2;
  spill ← at_index ks 3;
  authority ← at_index ks 6;
  acc (apply_upgrade programdata buffer spill (clock_slot clock) (unsigned_key authority) buffer_data_len programdata_balance_required).

Definition set_authority (ks : list KeyedAccount) : LD unit :=
  account ← at_index ks 0;
  present_authority ← at_index ks 1;
  let new_authority := unsigned_key <$> ks !! 2%nat in
  st ← acc (ka_state UpgradeableLoaderState account);
  match st with
  | ULS_Buffer authority_address =>
      ensureS (bool_decide (is_Some new_authority)) IncorrectAuthority;;
      check_authority authority_address present_authority;;
      acc (ka_set_state account (ULS_Buffer new_authority))
  | ULS_ProgramData slot upgrade_authority_address =>
      check_authority upgrade_authority_address present_authority;;
      acc (ka_set_state account (ULS_ProgramData slot new_authority))
  | _ => fail InvalidArgument
  end.

Definition close (ks : list KeyedAccount) : LD unit :=
  ensureS (feature_active env upgradeable_close_instruction) InvalidInstructionData;;
  close_account ← at_index ks 0;
  recipient_account ← at_index ks 1;
  authority ← at_index ks 2;
  ensureS (negb (unsigned_key close_account =? unsigned_key recipient_account)) InvalidArgument;;
  st ← acc (ka_state UpgradeableLoaderState close_account);
  match st with
  | ULS_Buffer authority_address =>
      check_authority authority_address authority;;
      acc (borrow_mut recipient_account [close_account]);;
      l ← acc (ka_lamports close_account);
      acc (ka_add_lamports recipient_account l);;
      acc (zero_lamports close_account);;
      acc (update_account close_account (λ a, Ok (set_data (replicate (length (data a)) x00) a)))
  | _ => fail InvalidArgument
  end.

Definition process_loader_upgradeable_instruction (program_id : Pubkey) (instruction_data : list byte) (use_jit : bool) : LD unit :=
  ks ← get_keyed_accounts;
  i ← lift (limited_deserialize (T:=UpgradeableLoaderInstruction) instruction_data);
  match i with
  | InitializeBuffer => initialize_buffer ks
  | Write offset bytes => write_buffer ks offset bytes
  | DeployWithMaxDataLen max_data_len => deploy_with_max_data_len program_id ks max_data_len use_jit
  | Upgrade => upgrade program_id ks use_jit
  | SetAuthority => set_authority ks
  | Close => close ks
  end.

Definition process_loader_instruction (program_id : Pubkey) (instruction_data : list byte) (use_jit : bool) : LD unit :=
  ks ← get_keyed_accounts;
  program ← at_index ks 0;
  o ← acc (ka_owner program);
  ensureS (o =? program_id) IncorrectProgramId;;
  i ← lift (limited_deserialize (T:=LoaderInstruction) instruction_data);
  ensureS (bool_decide (is_Some (signer_key program))) MissingRequiredSignature;;
  match i with
  | LI_Write offset bytes => write_program_data 0 (Z.to_nat offset) bytes
  | LI_Finalize =>
      executor ← create_executor 0 0 use_jit;
      ks ← get_keyed_accounts;
      program ← at_index ks 0;
      add_executor (unsigned_key program) executor;;
      acc (set_executable program)
  end.

Definition process_instruction_common (program_id : Pubkey) (instruction_data : list byte) (use_jit : bool) : LD unit :=
  ks ← get_keyed_accounts;
  first_account ← at_index ks 0;
  a ← acc (try_account_ref first_account);
  if executable a then
    ensureS (unsigned_key first_account =? program_id) IncorrectProgramId;;
    program_data_offset ←
      (if owner a =? bpf_loader_upgradeable_id then
         st ← acc (ka_state UpgradeableLoaderState first_account);
         match st with
         | ULS_Program programdata_address =>
             programdata ← at_index ks 1;
             ensureS (programdata_address =? unsigned_key programdata) InvalidArgument;;
             on_ctx remove_first_keyed_account;;
             mret programdata_data_offset
         | _ => fail InvalidAccountData
         end
       else mret 0%nat);
    ks ← get_keyed_accounts;
    program ← at_index ks 0;
    loader_id ← acc (ka_owner program);
    ensureS (check_loader_id loader_id) IncorrectProgramId;;
    cached ← get_executor program_id;
    executor ← match cached with
               | Some executor => mret executor
               | None =>
                   executor ← create_executor 0 program_data_offset use_jit;
                   add_executor program_id executor;;
                   mret executor
               end;
    on_ctx (execute executor loader_id program_id instruction_data use_jit)
  else
    ensureS (check_loader_id program_id) IncorrectProgramId;;
    if program_id =? bpf_loader_upgradeable_id then process_loader_upgradeable_instruction program_id instruction_data use_jit
    else process_loader_instruction program_id instruction_data use_jit.
End loader.
End bpf_loader.
