(* ===== verification/BpfLoaderProps.v ===== *)
(** * Properties of the BPF loader

    Who may change a program or a buffer, what an upgrade writes, and which
    addresses programs get. *)

From S2P Require Import Prelude F64 Account Features Sysvar Message System MessageProcessor Serial BpfLoader.
From Stdlib Require Import Strings.Byte.

Module bpf_loader_props.
Import message system_program message_processor program_address bpf_loader.

(** ** Program derived addresses *)

Section addresses.
Context `{SHA : !Sha256, CP : !CurvePoint}.

Lemma find_bump_spec n b seeds pid addr bump :
  find_bump n b seeds pid = Some (addr, bump) →
  create_program_address (seeds ++ [[byte_of_Z bump]]) pid = Ok addr ∧ b - Z.of_nat n < bump <= b ∧
  ∀ b', bump < b' <= b → create_program_address (seeds ++ [[byte_of_Z b']]) pid = Err PE_InvalidSeeds.
Proof.
  revert b. induction n as [|n IH]; intros b; cbn [find_bump]; [done|].
  destruct (create_program_address (seeds ++ [[byte_of_Z b]]) pid) as [x|e|] eqn:Hb; [| |done].
  - intros [= <- <-]. split_and!; [done|lia|lia|]. intros b' ?. lia.
  - destruct e; [done| |done]. intros (H1 & H2 & H3)%IH. split_and!; [done|lia|lia|].
    intros b' Hb'. destruct (decide (b' = b)) as [->|]; [done|]. apply H3. lia.
Qed.

Lemma create_program_address_Ok seeds pid addr :
  create_program_address seeds pid = Ok addr →
  bytes_are_curve_point addr = false ∧ addr = hashv (seeds ++ [key_bytes pid; PDA_MARKER]).
Proof. unfold create_program_address. repeat case_match; try done. intros [= <-]. done. Qed.

(** A derived address is never a point of the curve, so nobody has a key
    for it; it is the one of the largest bump seed that gives such an address,
    and the program can sign for it with that bump seed. *)
Theorem derived_addresses seeds pid addr bump :
  find_program_address (E := InstructionError) seeds pid = Ok (addr, bump) →
  bytes_are_curve_point addr = false ∧ 1 <= bump <= 255 ∧
  create_program_address (seeds ++ [[byte_of_Z bump]]) pid = Ok addr ∧
  ∀ b, bump < b <= 255 → bytes_are_curve_point (hashv (seeds ++ [[byte_of_Z b]] ++ [key_bytes pid; PDA_MARKER])) = true.
Proof.
  unfold find_program_address, try_find_program_address. destruct (find_bump _ _ _ _) as [[x y]|] eqn:Hf; [|done].
  intros [= -> ->]. apply find_bump_spec in Hf as (H1 & H2 & H3). pose proof (create_program_address_Ok _ _ _ H1) as [Hc _].
  split_and!; [done|lia|lia|done|]. intros b Hb. specialize (H3 b Hb). unfold create_program_address in H3.
  rewrite <-app_assoc in H3. repeat case_match; done.
Qed.
End addresses.

(** ** Reading and writing *)

Section loader.
Context `{SHA : !Sha256, CP : !CurvePoint, VM : !Rbpf}.
Context `{CS : !Codec UpgradeableLoaderState, CI : !Codec UpgradeableLoaderInstruction, CL : !Codec LoaderInstruction}.
Context `{CC : !Codec Clock, CR : !Codec Rent, CY : !Codec SystemInstruction} (env : Env) (run : Prog → MP unit).
Implicit Types (s : Loader) (c : gmap nat Account).

Definition lcells s : gmap nat Account := cells (ld_ctx s).
Definition with_lcells c s : Loader := mkLoader (with_cells c (ld_ctx s)) (executors s).

Lemma acc_Ok {A} (m : M A) s s' x :
  acc m s = (s', Ok x) ↔ ∃ c, m (lcells s) = (c, Ok x) ∧ s' = with_lcells c s.
Proof.
  unfold acc, on_ctx, on_cells, lcells, with_lcells. destruct (m (cells (ld_ctx s))) as [c r]. naive_solver.
Qed.

Lemma with_lcells_id s : with_lcells (lcells s) s = s.
Proof. by destruct s as [[] ?]. Qed.

Lemma acc_read {A} (m : M A) s s' x :
  (∀ c c' y, m c = (c', Ok y) → c' = c) → acc m s = (s', Ok x) → s' = s ∧ m (lcells s) = (lcells s, Ok x).
Proof.
  intros Hm (c & H & ->)%acc_Ok. pose proof (Hm _ _ _ H) as ->. by rewrite with_lcells_id.
Qed.

Lemma acc_state k s s' x :
  acc (ka_state UpgradeableLoaderState k) s = (s', Ok x) →
  s' = s ∧ ∃ a, lcells s !! account k = Some a ∧ deserialize (data a) = Some x.
Proof. intros [-> (_ & H)%ka_state_Ok]%acc_read; [done|]. by intros c c' y [-> _]%ka_state_Ok. Qed.

Lemma acc_ref k s s' a : acc (try_account_ref k) s = (s', Ok a) → s' = s ∧ lcells s !! account k = Some a.
Proof. intros [-> [_ H]%try_account_ref_Ok]%acc_read; [done|]. by intros c c' y [-> _]%try_account_ref_Ok. Qed.

Lemma acc_len k s s' n :
  acc (ka_data_len k) s = (s', Ok n) → s' = s ∧ ∃ a, lcells s !! account k = Some a ∧ n = length (data a).
Proof. intros [-> [_ H]%ka_data_len_Ok]%acc_read; [done|]. by intros c c' y [-> _]%ka_data_len_Ok. Qed.

Lemma acc_lamports k s s' n :
  acc (ka_lamports k) s = (s', Ok n) → s' = s ∧ ∃ a, lcells s !! account k = Some a ∧ n = lamports a.
Proof. intros [-> [_ H]%ka_lamports_Ok]%acc_read; [done|]. by intros c c' y [-> _]%ka_lamports_Ok. Qed.

Lemma acc_sysvar {T} `{!Codec T, !SysvarId T} k s s' (x : T) :
  acc (from_keyed_account T k) s = (s', Ok x) → s' = s ∧ from_keyed_account T k (lcells s) = (lcells s, Ok x).
Proof. intros [-> H]%acc_read; [done|]. intros c c' y. apply from_keyed_account_same. Qed.

Lemma at_index_Ok ks i s s' k : at_index ks i s = (s', Ok k) → s' = s ∧ ks !! i = Some k.
Proof. intros [-> [_ H]%keyed_account_at_index_Ok]%acc_read; [done|]. by intros c c' y [-> _]%keyed_account_at_index_Ok. Qed.

Lemma keyed_accounts_range (c c' : Ctx) ks :
  keyed_accounts c = (c', Ok ks) → c' = c ∧ frame_range <$> head (invoke_stack c) = Some ks.
Proof.
  unfold keyed_accounts, mbind, st_bind, get, lift. intros [= -> H]. split; [done|]. by apply ok_or_Ok in H.
Qed.

Lemma get_keyed_accounts_Ok s s' ks :
  get_keyed_accounts s = (s', Ok ks) → s' = s ∧ frame_range <$> head (invoke_stack (ld_ctx s)) = Some ks.
Proof.
  unfold get_keyed_accounts, on_ctx. destruct (keyed_accounts (ld_ctx s)) as [c r] eqn:H. intros [= <- ->].
  apply keyed_accounts_range in H as [-> H]. split; [by destruct s|done].
Qed.

Lemma borrow_mut_Ok k l c c' u :
  borrow_mut k l c = (c', Ok u) → c' = c ∧ ∀ x, x ∈ l → account x ≠ account k.
Proof.
  unfold borrow_mut. intros (H & -> & _)%ensureS_Ok. split; [done|]. intros x Hx Heq.
  rewrite forallb_forall in H. specialize (H x ltac:(by apply list_elem_of_In)). by rewrite bool_decide_true in H.
Qed.

Lemma data_from_Ok k off c c' d :
  data_from k off c = (c', Ok d) → c' = c ∧ ∃ a, c !! account k = Some a ∧ (off <= length (data a))%nat ∧ d = drop off (data a).
Proof.
  unfold data_from. intros (c1 & a & [-> Ha]%try_account_ref_Ok & H)%st_bind_Ok.
  destruct (bool_decide_reflect (off <= length (data a))%nat); [|done]. injection H as <- <-. eauto.
Qed.

Lemma create_executor_Ok i off jit s s' e :
  create_executor i off jit s = (s', Ok e) →
  s' = s ∧ ∃ ks k a, frame_range <$> head (invoke_stack (ld_ctx s)) = Some ks ∧ ks !! i = Some k ∧
    lcells s !! account k = Some a ∧ create_executable jit (drop off (data a)) = Ok e.
Proof.
  unfold create_executor. intros (s1 & ks & [-> Hks]%get_keyed_accounts_Ok & (s2 & k & [-> Hk]%at_index_Ok & (s3 & d & Hd & H)%st_bind_Ok)%st_bind_Ok)%st_bind_Ok.
  apply acc_read in Hd as [-> (_ & a & Ha & _ & ->)%data_from_Ok]; [|by intros c c' y [-> _]%data_from_Ok].
  apply lift_inv in H as [-> H]. split; [done|]. exists ks, k, a. split_and!; done.
Qed.

Lemma check_authority_Ok o k s s' u :
  check_authority o k s = (s', Ok u) → s' = s ∧ o = Some (key k) ∧ is_signer k = true.
Proof.
  unfold check_authority. intros (? & ? & (_ & -> & _)%ensureS_Ok & (? & ? & (H1 & -> & _)%ensureS_Ok & (H2 & -> & _)%ensureS_Ok)%st_bind_Ok)%st_bind_Ok.
  apply bool_decide_eq_true in H1 as ->. apply bool_decide_eq_true in H2 as [p [Hp _]%signer_key_Some]. done.
Qed.

Lemma check_buffer_Ok b k s s' u :
  check_buffer b k s = (s', Ok u) →
  s' = s ∧ is_signer k = true ∧ ∃ a, lcells s !! account b = Some a ∧ deserialize (data a) = Some (ULS_Buffer (Some (key k))).
Proof.
  unfold check_buffer. intros (s1 & st & [-> (a & Ha & Hd)]%acc_state & H)%st_bind_Ok. destruct st as [|o| |]; try done.
  apply st_bind_Ok in H as (? & ? & (H1 & -> & _)%ensureS_Ok & (H2 & -> & _)%ensureS_Ok).
  apply bool_decide_eq_true in H1 as ->. apply bool_decide_eq_true in H2 as [p [Hp _]%signer_key_Some]. eauto.
Qed.

(** ** Who may change what *)

(** What the loader's instructions never change. *)
Definition same_meta (a a' : Account) : Prop :=
  owner a' = owner a ∧ executable a' = executable a ∧ rent_epoch a' = rent_epoch a.

(** Outside of [L] no data changes and no lamports are taken. *)
Definition grows (L : list nat) c c' : Prop :=
  ∀ l a, c !! l = Some a → ∃ a', c' !! l = Some a' ∧ same_meta a a' ∧ (l ∉ L → data a' = data a ∧ lamports a <= lamports a').

Lemma grows_refl L c : grows L c c.
Proof. intros l a Ha. exists a. split_and!; [done|done|]. by split. Qed.

Lemma grows_trans L c1 c2 c3 : grows L c1 c2 → grows L c2 c3 → grows L c1 c3.
Proof.
  intros H1 H2 l a Ha. destruct (H1 l a Ha) as (a' & Ha' & (O1 & E1 & R1) & Hg1). destruct (H2 l a' Ha') as (a'' & Ha'' & (O2 & E2 & R2) & Hg2).
  exists a''. split; [done|]. split; [by split_and!; congruence|]. intros Hl. destruct (Hg1 Hl), (Hg2 Hl). split; [congruence|lia].
Qed.

Lemma grows_insert L c l a a' :
  c !! l = Some a → same_meta a a' → (l ∉ L → data a' = data a ∧ lamports a <= lamports a') → grows L c (<[l := a']> c).
Proof.
  intros Ha Hm Hg l' b Hb. destruct (decide (l = l')) as [<-|Hne].
  - rewrite Ha in Hb. injection Hb as <-. exists a'. by rewrite lookup_insert_eq.
  - rewrite lookup_insert_ne by done. exists b. split_and!; [done|done|by split].
Qed.

Lemma grows_update L k f c c' u :
  update_account k f c = (c', Ok u) → (∀ a a', f a = Ok a' → same_meta a a') → account k ∈ L → grows L c c'.
Proof. intros (a & a' & Ha & Hf & ->)%update_account_Ok Hm Hk. eapply grows_insert; [done|by apply Hm|done]. Qed.

Lemma grows_add L k n c c' u : ka_add_lamports k n c = (c', Ok u) → 0 <= n → grows L c c'.
Proof.
  intros (a & Ha & _ & ->)%ka_add_lamports_Ok Hn. eapply grows_insert; [done|done|]. intros _. cbn. split; [done|lia].
Qed.

Lemma grows_set_state L k (st : UpgradeableLoaderState) c c' u : ka_set_state k st c = (c', Ok u) → account k ∈ L → grows L c c'.
Proof. intros (a & Ha & _ & ->)%ka_set_state_Ok Hk. by eapply grows_insert. Qed.

Lemma write_program_data_grows i off bytes s s' u :
  write_program_data i off bytes s = (s', Ok u) →
  ∃ ks k, frame_range <$> head (invoke_stack (ld_ctx s)) = Some ks ∧ ks !! i = Some k ∧ grows [account k] (lcells s) (lcells s').
Proof.
  unfold write_program_data.
  intros (s1 & ks & [-> Hks]%get_keyed_accounts_Ok & (s2 & k & [-> Hk]%at_index_Ok & (s3 & a & [-> Ha]%acc_ref & (s4 & [] & (_ & -> & _)%ensureS_Ok & H)%st_bind_Ok)%st_bind_Ok)%st_bind_Ok)%st_bind_Ok.
  exists ks, k. split_and!; [done|done|]. apply acc_Ok in H as (c & H & ->). eapply grows_update; [exact H| |by left].
  intros b b'. cbv beta. destruct (_ && _); [|done]. by intros [= <-].
Qed.

Record upgrade_checks (pid : Pubkey) (pd pg buf au : KeyedAccount) (rent : Rent) (n : nat) (req : Z) s (ap ab : Account) : Prop := {
  uc_signed : is_signer au = true;
  uc_pd : lcells s !! account pd = Some ap;
  uc_buf : lcells s !! account buf = Some ab;
  uc_pd_state : ∃ slot, deserialize (data ap) = Some (ULS_ProgramData slot (Some (key au)));
  uc_buf_state : deserialize (data ab) = Some (ULS_Buffer (Some (key au)));
  uc_program : ∃ a, lcells s !! account pg = Some a ∧ deserialize (data a) = Some (ULS_Program (key pd)) ∧ owner a = pid;
  uc_n : n = (length (data ab) - 37)%nat;
  uc_len : (45 + n <= length (data ap))%nat;
  uc_req : req = Z.max 1 (minimum_balance rent (length (data ap)));
  uc_funds : req <= add64 (lamports ap) (lamports ab);
}.

(** The lamports and the data of every account fit their machine integers. *)
Definition cells_ok c : Prop := ∀ l a, c !! l = Some a → 0 <= lamports a ∧ Z.of_nat (length (data a)) < u64_max.

Lemma check_upgrade_Ok pid pd pg buf au rent s s' n req :
  cells_ok (lcells s) →
  check_upgrade pid pd pg buf au rent s = (s', Ok (n, req)) → s' = s ∧ ∃ ap ab, upgrade_checks pid pd pg buf au rent n req s ap ab.
Proof.
  intros Hcells. unfold check_upgrade.
  intros (s1 & a & [-> Ha]%acc_ref & (? & ? & (_ & -> & _)%ensureS_Ok & (? & ? & (_ & -> & _)%ensureS_Ok &
    (? & ? & (Ho & -> & _)%ensureS_Ok & (? & st & [-> (a' & Ha' & Hst)]%acc_state & (s2 & [] & Hp & H)%st_bind_Ok)%st_bind_Ok)%st_bind_Ok)%st_bind_Ok)%st_bind_Ok)%st_bind_Ok.
  rewrite Ha in Ha'. injection Ha' as <-.
  destruct st as [| |pda|]; try done. apply ensureS_Ok in Hp as (Hpda & -> & _).
  apply st_bind_Ok in H as (? & [] & (-> & Hsig & ab & Hab & Hbst)%check_buffer_Ok & (? & len & [-> (ab' & Hab' & ->)]%acc_len &
    (? & n0 & [-> (ap & Hap & ->)]%acc_len & H)%st_bind_Ok)%st_bind_Ok).
  rewrite Hab in Hab'. injection Hab' as <-.
  apply st_bind_Ok in H as (? & ? & (Hl1 & -> & _)%ensureS_Ok & (? & ? & (Hl2 & -> & _)%ensureS_Ok & (? & l & [-> (ap' & Hap' & ->)]%acc_lamports &
    (? & l' & [-> (ab' & Hab' & ->)]%acc_lamports & (? & ? & (Hf & -> & _)%ensureS_Ok & (? & st & [-> (ap'' & Hap'' & Hpst)]%acc_state &
     (? & [] & Hau & [= <- <- <-])%st_bind_Ok)%st_bind_Ok)%st_bind_Ok)%st_bind_Ok)%st_bind_Ok)%st_bind_Ok).
  rewrite Hap in Hap', Hap''. injection Hap' as <-. injection Hap'' as <-. rewrite Hab in Hab'. injection Hab' as <-.
  destruct st as [| | |slot o]; try done. apply check_authority_Ok in Hau as (-> & -> & _). split; [done|]. exists ap, ab.
  unfold programdata_len, saturating_add64, buffer_data_offset in *.
  split; [done|done|done|by exists slot|done| |done| |done|lia].
  - exists a. split_and!; [done| |lia]. rewrite Hst. do 2 f_equal. unfold unsigned_key in Hpda. lia.
  - destruct (Hcells _ _ Hap) as [_ Hsmall]. apply negb_true_iff, Z.ltb_ge in Hl2. clear -Hsmall Hl2. lia.
Qed.

(** The data of a program after an upgrade. *)
Definition upgraded_data (st : UpgradeableLoaderState) (ap ab : Account) : list byte :=
  take 45 (bincode_ser st ++ drop (length (bincode_ser st)) (data ap)) ++ drop 37 (data ab) ++
  replicate (length (data ap) - (45 + (length (data ab) - 37))) x00.

Lemma copy_from_slice_Ok k off n bytes c c' u :
  copy_from_slice k off n bytes c = (c', Ok u) →
  ∃ a, c !! account k = Some a ∧ (off + n <= length (data a))%nat ∧ length bytes = n ∧
    c' = <[account k := set_data (write_at off bytes (data a)) a]> c.
Proof.
  unfold copy_from_slice. intros (a & a' & Ha & Hf & ->)%update_account_Ok. exists a.
  destruct (bool_decide_reflect (off + n <= length (data a))%nat); [|done].
  destruct (bool_decide_reflect (length bytes = n)); [|done]. injection Hf as <-. done.
Qed.

Lemma upgraded_data_eq (d bytes : list byte) n :
  (45 + n <= length d)%nat → length bytes = n →
  let w := write_at 45 bytes d in
  take (45 + n) w ++ replicate (length w - (45 + n)) x00 = take 45 d ++ bytes ++ replicate (length d - (45 + n)) x00.
Proof.
  intros Hd Hb w. subst w. unfold write_at. rewrite !length_app, length_take, length_drop. rewrite (Nat.min_l 45) by lia.
  rewrite app_assoc, take_app_le by (rewrite length_app, length_take; lia).
  rewrite take_ge by (rewrite length_app, length_take; lia). rewrite <-app_assoc. do 3 f_equal. lia.
Qed.

Lemma apply_upgrade_Ok pd buf sp slot au n req c c' u ap ab :
  c !! account pd = Some ap → c !! account buf = Some ab → n = (length (data ab) - 37)%nat →
  apply_upgrade pd buf sp slot au n req c = (c', Ok u) →
  ∃ asp, (length (bincode_ser (ULS_ProgramData slot (Some au))) <= length (data ap))%nat ∧ account buf ≠ account pd ∧ account sp ≠ account pd ∧ account sp ≠ account buf ∧
    c !! account sp = Some asp ∧ lamports asp + saturating_sub (add64 (lamports ap) (lamports ab)) req <= u64_max ∧
    c' = <[account pd := set_lamports req (set_data (upgraded_data (ULS_ProgramData slot (Some au)) ap ab) ap)]>
         (<[account buf := set_lamports 0 ab]>
         (<[account sp := set_lamports (lamports asp + saturating_sub (add64 (lamports ap) (lamports ab)) req) asp]> c)).
Proof.
  intros Hp Hb Hn. unfold apply_upgrade. set (st := ULS_ProgramData slot (Some au)).
  intros (c1 & [] & (a & Ha & Hlen & ->)%ka_set_state_Ok & (? & [] & [-> Hne]%borrow_mut_Ok & (? & bytes & (-> & a1 & Ha1 & Hoff & ->)%data_from_Ok & H)%st_bind_Ok)%st_bind_Ok)%st_bind_Ok.
  specialize (Hne buf ltac:(by left)). rewrite Hp in Ha. injection Ha as <-. rewrite lookup_insert_ne, Hb in Ha1 by done. injection Ha1 as <-.
  apply st_bind_Ok in H as (c2 & [] & (a & Ha & Hcp & Hbl & ->)%copy_from_slice_Ok & (c3 & [] & H3 & H)%st_bind_Ok).
  rewrite lookup_insert_eq in Ha. injection Ha as <-. rewrite insert_insert_eq in H3.
  apply update_account_Ok in H3 as (a & a' & Ha & Hf & ->). rewrite lookup_insert_eq in Ha. injection Ha as <-.
  rewrite insert_insert_eq in H. cbn zeta in Hf.
  match type of Hf with context [bool_decide ?P] => destruct (bool_decide P) eqn:Hfit end; [|done]. apply bool_decide_eq_true in Hfit.
  injection Hf as <-. apply st_bind_Ok in H as (? & [] & [-> Hne']%borrow_mut_Ok & H).
  pose proof (Hne' pd ltac:(by left)) as Hsp. pose proof (Hne' buf ltac:(by right; left)) as Hsb.
  apply st_bind_Ok in H as (? & ? & (-> & a & Ha & ->)%ka_lamports_Ok & (? & ? & (-> & a' & Ha' & ->)%ka_lamports_Ok & (? & [] & (asp & Hasp & Hle & ->)%ka_add_lamports_Ok &
    (? & [] & (a2 & ? & Ha2 & [= <-] & ->)%update_account_Ok & (a3 & ? & Ha3 & [= <-] & ->)%update_account_Ok)%st_bind_Ok)%st_bind_Ok)%st_bind_Ok).
  rewrite lookup_insert_eq in Ha. injection Ha as <-. rewrite lookup_insert_ne, Hb in Ha' by done. injection Ha' as <-.
  rewrite lookup_insert_ne in Hasp by done. rewrite lookup_insert_ne, lookup_insert_ne, Hb in Ha2 by done. injection Ha2 as <-.
  rewrite lookup_insert_ne, lookup_insert_ne, lookup_insert_eq in Ha3 by done. injection Ha3 as <-.
  exists asp. split_and!; [done|done|done|done|done|exact Hle|].
  rewrite (insert_insert_ne _ (account sp)) by done. rewrite (insert_insert_ne _ (account buf)) by done. rewrite insert_insert_eq.
  f_equal. unfold set_lamports, set_data in *. cbn [data lamports owner executable rent_epoch] in *. f_equal.
  change programdata_data_offset with 45%nat in *. change buffer_data_offset with 37%nat in *.
  etrans; [exact (upgraded_data_eq _ _ n Hcp Hbl)|].
  unfold upgraded_data. fold st. do 2 f_equal. f_equal. rewrite length_app, length_drop. lia.
Qed.

(** An account whose data may change: its authority is among the signers. *)
Definition allowed (ks : list KeyedAccount) (a : Account) : Prop :=
  match deserialize (data a) with
  | Some (ULS_Buffer o) | Some (ULS_ProgramData _ o) => ∃ k, k ∈ ks ∧ is_signer k = true ∧ o = Some (key k)
  | _ => False
  end.

Definition guarded (ks : list KeyedAccount) c c' : Prop :=
  ∃ L, grows L c c' ∧ ∀ l a, l ∈ L → c !! l = Some a → allowed ks a.

Lemma guarded_one ks k c c' a :
  c !! account k = Some a → allowed ks a → grows [account k] c c' → guarded ks c c'.
Proof.
  intros Ha Hal Hg. exists [account k]. split; [done|]. intros l a' ->%list_elem_of_singleton Ha'. congruence.
Qed.

(** The first account becomes a buffer of the second one. *)
Lemma initialize_buffer_Ok ks s s' u :
  initialize_buffer ks s = (s', Ok u) →
  ∃ b k a, ks !! 0%nat = Some b ∧ ks !! 1%nat = Some k ∧ lcells s !! account b = Some a ∧ deserialize (data a) = Some ULS_Uninitialized ∧
    lcells s' = <[account b := set_data (let d := bincode_ser (ULS_Buffer (Some (key k))) in d ++ drop (length d) (data a)) a]> (lcells s).
Proof.
  unfold initialize_buffer. intros (? & b & [-> Hb]%at_index_Ok & (? & st & [-> (a & Ha & Hd)]%acc_state & (? & ? & (Hst & -> & _)%ensureS_Ok &
    (? & k & [-> Hk]%at_index_Ok & H)%st_bind_Ok)%st_bind_Ok)%st_bind_Ok)%st_bind_Ok.
  destruct st; try done. apply acc_Ok in H as (c & (a' & Ha' & _ & ->)%ka_set_state_Ok & ->). rewrite Ha in Ha'. injection Ha' as <-.
  exists b, k, a. done.
Qed.

Lemma write_buffer_guarded ks off bytes s s' u :
  frame_range <$> head (invoke_stack (ld_ctx s)) = Some ks →
  write_buffer ks off bytes s = (s', Ok u) → guarded ks (lcells s) (lcells s').
Proof.
  intros Hks. unfold write_buffer. intros (? & b & [-> Hb]%at_index_Ok & (? & k & [-> Hk]%at_index_Ok & (? & st & [-> (a & Ha & Hd)]%acc_state &
    (? & [] & Hst & H)%st_bind_Ok)%st_bind_Ok)%st_bind_Ok)%st_bind_Ok.
  destruct st as [|o| |]; try done. apply check_authority_Ok in Hst as (-> & -> & Hs).
  apply write_program_data_grows in H as (ks' & b' & Hks' & Hb' & Hg). rewrite Hks in Hks'. injection Hks' as <-.
  rewrite Hb in Hb'. injection Hb' as <-. eapply guarded_one; [exact Ha| |done]. unfold allowed. rewrite Hd. exists k.
  split_and!; [by eapply list_elem_of_lookup_2|done|done].
Qed.

Lemma set_authority_guarded ks s s' u : set_authority ks s = (s', Ok u) → guarded ks (lcells s) (lcells s').
Proof.
  unfold set_authority. intros (? & b & [-> Hb]%at_index_Ok & (? & k & [-> Hk]%at_index_Ok & (? & st & [-> (a & Ha & Hd)]%acc_state & H)%st_bind_Ok)%st_bind_Ok)%st_bind_Ok.
  destruct st as [|o| |slot o]; try done.
  - apply st_bind_Ok in H as (? & ? & (_ & -> & _)%ensureS_Ok & (? & ? & (-> & -> & Hs)%check_authority_Ok & H)%st_bind_Ok).
    apply acc_Ok in H as (c & H & ->).
    eapply guarded_one; [exact Ha| |eapply grows_set_state; [exact H|by left]]. unfold allowed. rewrite Hd.
    exists k. split_and!; [by eapply list_elem_of_lookup_2|done|done].
  - apply st_bind_Ok in H as (? & ? & (-> & -> & Hs)%check_authority_Ok & H).
    apply acc_Ok in H as (c & H & ->).
    eapply guarded_one; [exact Ha| |eapply grows_set_state; [exact H|by left]]. unfold allowed. rewrite Hd.
    exists k. split_and!; [by eapply list_elem_of_lookup_2|done|done].
Qed.

Lemma close_guarded ks s s' u : cells_ok (lcells s) → close env ks s = (s', Ok u) → guarded ks (lcells s) (lcells s').
Proof.
  intros Hc. unfold close. intros (? & ? & (_ & -> & _)%ensureS_Ok & (? & b & [-> Hb]%at_index_Ok & (? & r & [-> Hr]%at_index_Ok & (? & k & [-> Hk]%at_index_Ok &
    (? & ? & (_ & -> & _)%ensureS_Ok & (? & st & [-> (a & Ha & Hd)]%acc_state & H)%st_bind_Ok)%st_bind_Ok)%st_bind_Ok)%st_bind_Ok)%st_bind_Ok)%st_bind_Ok.
  destruct st as [|o| |]; try done.
  apply st_bind_Ok in H as (? & ? & (-> & -> & Hs)%check_authority_Ok & (? & ? & Hbor & (? & l & [-> (a' & Ha' & ->)]%acc_lamports & H)%st_bind_Ok)%st_bind_Ok).
  apply acc_read in Hbor as [-> _]; [|by intros c c' y [-> _]%borrow_mut_Ok]. rewrite Ha in Ha'. injection Ha' as <-.
  apply st_bind_Ok in H as (s1 & ? & (c1 & H1 & ->)%acc_Ok & (s2 & ? & H2 & H3)%st_bind_Ok).
  eapply guarded_one; [exact Ha| |].
  - unfold allowed. rewrite Hd. exists k. split_and!; [by eapply list_elem_of_lookup_2|done|done].
  - eapply grows_trans; [eapply grows_add; [exact H1|by destruct (Hc _ _ Ha)]|].
    apply acc_Ok in H2 as (c2 & H2 & ->). apply acc_Ok in H3 as (c3 & H3 & ->).
    eapply grows_trans; [eapply grows_update; [exact H2| |by left]|eapply grows_update; [exact H3| |by left]]; by intros ? ? [= <-].
Qed.

(** The accounts of a successful upgrade, and what becomes of them. *)
Record upgraded (pid : Pubkey) (ks : list KeyedAccount) (jit : bool) s s' (pd pg buf sp au : KeyedAccount) (ap ab asp : Account)
    (slot : Slot) (req : Z) (e : executable_program) : Prop := {
  up_pd : ks !! 0%nat = Some pd;
  up_pg : ks !! 1%nat = Some pg;
  up_buf : ks !! 2%nat = Some buf;
  up_sp : ks !! 3%nat = Some sp;
  up_au : ks !! 6%nat = Some au;
  up_checks : ∃ ra rent, ks !! 4%nat = Some ra ∧ from_keyed_account Rent ra (lcells s) = (lcells s, Ok rent) ∧
    upgrade_checks pid pd pg buf au rent (length (data ab) - 37) req s ap ab;
  up_clock : ∃ ca clk, ks !! 5%nat = Some ca ∧ from_keyed_account Clock ca (lcells s) = (lcells s, Ok clk) ∧ slot = clock_slot clk;
  up_spill : lcells s !! account sp = Some asp;
  up_distinct : account buf ≠ account pd ∧ account sp ≠ account pd ∧ account sp ≠ account buf;
  up_fits : (length (bincode_ser (ULS_ProgramData slot (Some (key au)))) <= length (data ap))%nat;
  up_executor : create_executable jit (drop 37 (data ab)) = Ok e ∧ executors s' = <[key pg := e]> (executors s);
  up_cells :
    lcells s' = <[account pd := set_lamports req (set_data (upgraded_data (ULS_ProgramData slot (Some (key au))) ap ab) ap)]>
      (<[account buf := set_lamports 0 ab]>
      (<[account sp := set_lamports (lamports asp + saturating_sub (add64 (lamports ap) (lamports ab)) req) asp]> (lcells s)));
}.

Lemma upgrade_Ok pid ks jit s s' u :
  cells_ok (lcells s) → frame_range <$> head (invoke_stack (ld_ctx s)) = Some ks →
  upgrade pid ks jit s = (s', Ok u) →
  ∃ pd pg buf sp au ap ab asp slot req e, upgraded pid ks jit s s' pd pg buf sp au ap ab asp slot req e.
Proof.
  intros Hcells Hks. unfold upgrade.
  intros (? & pd & [-> Hpd]%at_index_Ok & (? & pg & [-> Hpg]%at_index_Ok & (? & buf & [-> Hbuf]%at_index_Ok & (? & ra & [-> Hra]%at_index_Ok &
    (? & rent & [-> Hrent]%acc_sysvar & (? & ca & [-> Hca]%at_index_Ok & (? & clk & [-> Hclk]%acc_sysvar & (? & au & [-> Hau]%at_index_Ok &
    (? & [n req] & (-> & ap & ab & Hchk)%check_upgrade_Ok & H)%st_bind_Ok)%st_bind_Ok)%st_bind_Ok)%st_bind_Ok)%st_bind_Ok)%st_bind_Ok)%st_bind_Ok)%st_bind_Ok)%st_bind_Ok; [|done].
  apply st_bind_Ok in H as (? & e & (-> & ks1 & k1 & a1 & Hks1 & Hk1 & Ha1 & He)%create_executor_Ok & (? & ks2 & [-> Hks2]%get_keyed_accounts_Ok & H)%st_bind_Ok).
  rewrite Hks in Hks1, Hks2. injection Hks1 as <-. injection Hks2 as <-. rewrite Hbuf in Hk1. injection Hk1 as <-.
  rewrite (uc_buf _ _ _ _ _ _ _ _ _ _ _ Hchk) in Ha1. injection Ha1 as <-.
  apply st_bind_Ok in H as (? & pg' & [-> Hpg']%at_index_Ok & (s1 & ? & [= <-] & (? & pd' & [-> Hpd']%at_index_Ok & (? & buf' & [-> Hbuf']%at_index_Ok &
    (? & sp & [-> Hsp]%at_index_Ok & (? & au' & [-> Hau']%at_index_Ok & (c & Happ & ->)%acc_Ok)%st_bind_Ok)%st_bind_Ok)%st_bind_Ok)%st_bind_Ok)%st_bind_Ok).
  rewrite Hpg in Hpg'. injection Hpg' as <-. rewrite Hpd in Hpd'. injection Hpd' as <-. rewrite Hbuf in Hbuf'. injection Hbuf' as <-.
  rewrite Hau in Hau'. injection Hau' as <-. pose proof (uc_n _ _ _ _ _ _ _ _ _ _ _ Hchk) as ->.
  eapply apply_upgrade_Ok in Happ as (asp & ? & ? & ? & ? & Hasp & _ & ->); [|apply Hchk|apply Hchk|done].
  exists pd, pg, buf, sp, au, ap, ab, asp, (clock_slot clk), req, e. by split; eauto 10.
Qed.

Lemma upgrade_guarded pid ks jit s s' u :
  cells_ok (lcells s) → frame_range <$> head (invoke_stack (ld_ctx s)) = Some ks →
  upgrade pid ks jit s = (s', Ok u) → guarded ks (lcells s) (lcells s').
Proof.
  intros Hcells Hks (pd & pg & buf & sp & au & ap & ab & asp & slot & req & e & Hu)%upgrade_Ok; [|done..].
  destruct Hu as [Hpd Hpg Hbuf Hsp Hau (ra & rent & _ & _ & Hchk) _ Hasp [Hn1 [Hn2 Hn3]] _ _ Hc]. rewrite Hc.
  destruct Hchk as [Hsig Hap Hab [slot' Hpst] Hbst _ _ _ _ _].
  assert (au ∈ ks) as Hin by (by eapply list_elem_of_lookup_2).
  exists [account pd; account buf]. split.
  - eapply grows_trans; [|eapply grows_trans].
    + eapply (grows_insert _ _ (account sp) asp (set_lamports (lamports asp + saturating_sub _ req) asp)); [done|done|].
      intros _. cbn. split; [done|]. unfold saturating_sub. lia.
    + apply (grows_insert _ _ (account buf) ab (set_lamports 0 ab)); [by rewrite lookup_insert_ne|done|]. intros Hn. set_solver.
    + apply (grows_insert _ _ (account pd) ap); [by rewrite !lookup_insert_ne|done|]. intros Hn. set_solver.
  - intros l a Hl Ha. unfold allowed. apply elem_of_cons in Hl as [->|Hl]; [|apply list_elem_of_singleton in Hl as ->].
    + rewrite Hap in Ha. injection Ha as <-. rewrite Hpst. eauto.
    + rewrite Hab in Ha. injection Ha as <-. rewrite Hbst. eauto.
Qed.

(** C7. What an instruction of the upgradeable loader other than a deployment
    does to an account: it never changes the owner, the executable flag or the
    rent epoch; and it leaves the data and takes no lamports, unless the data
    holds the state of a buffer or of a program's data whose authority signed,
    or the account is the first one, the data holds the uninitialized state
    and the instruction makes it a buffer of the second account, keeping the
    lamports.  So a buffer or program data without an authority is immutable,
    and a program account, or one whose data is no state of the loader, can
    only be given lamports.  That the accounts are the loader's own is not
    checked here, but by the message processor. *)
Theorem program_code_guarded pid instruction_data jit i ks s s' l a :
  frame_range <$> head (invoke_stack (ld_ctx s)) = Some ks → cells_ok (lcells s) →
  limited_deserialize instruction_data = Ok i → (∀ n, i ≠ DeployWithMaxDataLen n) →
  process_loader_upgradeable_instruction env run pid instruction_data jit s = (s', Ok tt) →
  lcells s !! l = Some a →
  ∃ a', lcells s' !! l = Some a' ∧ owner a' = owner a ∧ executable a' = executable a ∧ rent_epoch a' = rent_epoch a ∧
    (data a' = data a ∧ lamports a <= lamports a' ∨
     match deserialize (data a) with
     | Some (ULS_Buffer o) | Some (ULS_ProgramData _ o) => ∃ k, k ∈ ks ∧ is_signer k = true ∧ o = Some (key k)
     | Some ULS_Uninitialized =>
         i = InitializeBuffer ∧ lamports a' = lamports a ∧
         ∃ b k, ks !! 0%nat = Some b ∧ account b = l ∧ ks !! 1%nat = Some k ∧
           let d := bincode_ser (ULS_Buffer (Some (key k))) in data a' = d ++ drop (length d) (data a)
     | _ => False
     end).
Proof.
  intros Hks Hcells Hi Hd. unfold process_loader_upgradeable_instruction.
  intros (? & ks' & [-> Hks']%get_keyed_accounts_Ok & (? & i' & [-> Hi']%lift_inv & H)%st_bind_Ok)%st_bind_Ok Ha.
  rewrite Hks in Hks'. injection Hks' as <-. rewrite Hi in Hi'. injection Hi' as ->.
  assert (i = InitializeBuffer ∨ guarded ks (lcells s) (lcells s')) as [->|(L & Hg & HL)].
  { destruct i; [by left|right..]; [by eapply write_buffer_guarded|by destruct (Hd max_data_len)|
      by eapply upgrade_guarded|by eapply set_authority_guarded|by eapply close_guarded]. }
  - apply initialize_buffer_Ok in H as (b & k & a0 & Hb & Hk & Ha0 & Hst & Hc). rewrite Hc. destruct (decide (account b = l)) as [<-|Hne].
    + rewrite Ha in Ha0. injection Ha0 as <-. rewrite lookup_insert_eq. eexists. split_and!; [done..|]. right. rewrite Hst. eauto 10.
    + rewrite lookup_insert_ne by done. exists a. split_and!; [done..|]. left. by split.
  - destruct (Hg l a Ha) as (a' & Ha' & (Ho & He & Hr) & Hout). exists a'. split_and!; [done..|].
    destruct (decide (l ∈ L)) as [Hl|Hl]; [|left; auto]. right. specialize (HL l a Hl Ha). unfold allowed in HL.
    by destruct (deserialize (data a)) as [[]|].
Qed.

(** ** What an upgrade does *)

Lemma upgraded_data_program st ap ab :
  (length (bincode_ser st) <= length (data ap))%nat → (45 <= length (data ap))%nat →
  drop 45 (upgraded_data st ap ab) = drop 37 (data ab) ++ replicate (length (data ap) - (45 + (length (data ab) - 37))) x00.
Proof.
  intros H1 H2. unfold upgraded_data. rewrite drop_app_ge by (rewrite length_take; lia).
  rewrite length_take, length_app, length_drop. rewrite Nat.min_l by lia. by rewrite Nat.sub_diag, drop_0.
Qed.

(** C24. A successful upgrade replaces the program, with the signature of the
    authority of both the program data and the buffer: the bytes of the program
    data become those of the buffer, which were verified, padded with zeros,
    and its state names the slot of the clock and the authority; the new
    program is the one that is cached.  The program data, the buffer and the
    spill account are three accounts, and no other account changes; the program
    data has exactly its rent-exempt balance then, the buffer nothing, and the
    spill account got the rest.  If the two balances add up within [u64], no
    lamports are lost. *)
Theorem upgrade_replaces_program pid ks jit s s' :
  cells_ok (lcells s) → frame_range <$> head (invoke_stack (ld_ctx s)) = Some ks →
  upgrade pid ks jit s = (s', Ok tt) →
  ∃ pd pg buf sp ra ca au ap ab asp rent clock e,
    ks !! 0%nat = Some pd ∧ ks !! 1%nat = Some pg ∧ ks !! 2%nat = Some buf ∧ ks !! 3%nat = Some sp ∧
    ks !! 4%nat = Some ra ∧ from_keyed_account Rent ra (lcells s) = (lcells s, Ok rent) ∧
    ks !! 5%nat = Some ca ∧ from_keyed_account Clock ca (lcells s) = (lcells s, Ok clock) ∧
    ks !! 6%nat = Some au ∧ is_signer au = true ∧
    lcells s !! account pd = Some ap ∧ lcells s !! account buf = Some ab ∧ lcells s !! account sp = Some asp ∧
    (∃ slot, deserialize (data ap) = Some (ULS_ProgramData slot (Some (key au)))) ∧
    deserialize (data ab) = Some (ULS_Buffer (Some (key au))) ∧
    NoDup [account pd; account buf; account sp] ∧
    create_executable jit (drop 37 (data ab)) = Ok e ∧ executors s' = <[key pg := e]> (executors s) ∧
    let required := Z.max 1 (minimum_balance rent (length (data ap))) in
    let d := upgraded_data (ULS_ProgramData (clock_slot clock) (Some (key au))) ap ab in
    drop 45 d = drop 37 (data ab) ++ replicate (length (data ap) - (45 + (length (data ab) - 37))) x00 ∧
    lcells s' !! account pd = Some (set_lamports required (set_data d ap)) ∧
    lcells s' !! account buf = Some (set_lamports 0 ab) ∧
    (∀ l, l ∉ [account pd; account buf; account sp] → lcells s' !! l = lcells s !! l) ∧
    (lamports ap + lamports ab <= u64_max →
     lcells s' !! account sp = Some (set_lamports (lamports asp + (lamports ap + lamports ab - required)) asp) ∧
     total_lamports (lcells s') = total_lamports (lcells s)).
Proof.
  intros Hcells Hks (pd & pg & buf & sp & au & ap & ab & asp & slot & req & e & Hu)%upgrade_Ok; [|done..].
  destruct Hu as [Hpd Hpg Hbuf Hsp Hau (ra & rent & Hra & Hrent & Hchk) (ca & clk & Hca & Hclk & ->) Hasp [Hn1 [Hn2 Hn3]] Hfits [He Hex] Hc].
  destruct Hchk as [Hsig Hap Hab Hps Hbs _ _ Hlen Hreq Hfunds].
  exists pd, pg, buf, sp, ra, ca, au, ap, ab, asp, rent, clk, e. do 15 (split; [done|]).
  split; [repeat constructor; set_solver|]. do 2 (split; [done|]). cbn zeta. rewrite <-Hreq, Hc. split_and!.
  - apply upgraded_data_program; [done|lia].
  - apply lookup_insert_eq.
  - by rewrite lookup_insert_ne, lookup_insert_eq.
  - intros l Hl. rewrite !elem_of_cons in Hl. by rewrite !lookup_insert_ne by naive_solver.
  - intros Hsum. unfold add64, wrap64 in *. destruct (Hcells _ _ Hap) as [? _]. destruct (Hcells _ _ Hab) as [? _].
    rewrite Z.mod_small in * by (unfold u64_max in *; lia). split.
    + rewrite !lookup_insert_ne, lookup_insert_eq by done. do 2 f_equal. unfold saturating_sub. lia.
    + rewrite (total_lamports_insert _ _ ap) by (rewrite !lookup_insert_ne by done; done).
      rewrite (total_lamports_insert _ _ ab) by (rewrite !lookup_insert_ne by done; done).
      rewrite (total_lamports_insert _ _ asp) by done. cbn [lamports set_lamports set_data]. unfold saturating_sub. lia.
Qed.

(** ** Deployments *)

Lemma on_ctx_executors {A} (m : MP A) s s' x : on_ctx m s = (s', Ok x) → executors s' = executors s.
Proof. unfold on_ctx. destruct (m (ld_ctx s)). by intros [= <- ->]. Qed.

(** A deployment caches the verified program under the id of the loader, not
    under the key of the program. *)
Theorem deploy_caches_under_loader pid ks n jit s s' :
  deploy_with_max_data_len env run pid ks n jit s = (s', Ok tt) → ∃ e, executors s' = <[pid := e]> (executors s).
Proof.
  unfold deploy_with_max_data_len.
  intros (? & payer & [-> _]%at_index_Ok & (? & pd & [-> _]%at_index_Ok & (? & pg & [-> _]%at_index_Ok & (? & buf & [-> _]%at_index_Ok & (? & ra & [-> _]%at_index_Ok &
    (? & rent & [-> _]%acc_sysvar & (? & ca & [-> _]%at_index_Ok & (? & clk & [-> _]%acc_sysvar & (? & au & [-> _]%at_index_Ok &
    (s1 & len & Hchk & H)%st_bind_Ok)%st_bind_Ok)%st_bind_Ok)%st_bind_Ok)%st_bind_Ok)%st_bind_Ok)%st_bind_Ok)%st_bind_Ok)%st_bind_Ok)%st_bind_Ok.
  assert (executors s1 = executors s) as Hs1.
  { unfold check_deploy in Hchk.
    apply st_bind_Ok in Hchk as (? & ? & [-> _]%acc_state & (? & ? & (_ & -> & _)%ensureS_Ok & (? & ? & [-> _]%acc_len & (? & ? & (_ & -> & _)%ensureS_Ok &
      (? & ? & [-> _]%acc_lamports & (? & ? & (_ & -> & _)%ensureS_Ok & (? & ? & [-> _]%check_buffer_Ok & (? & ? & [-> _]%acc_len & (? & ? & (_ & -> & _)%ensureS_Ok &
      (? & ? & (_ & -> & _)%ensureS_Ok & (? & ? & (_ & -> & _)%ensureS_Ok & [= <- _])%st_bind_Ok)%st_bind_Ok)%st_bind_Ok)%st_bind_Ok)%st_bind_Ok)%st_bind_Ok)%st_bind_Ok)%st_bind_Ok)%st_bind_Ok)%st_bind_Ok).
    done. }
  apply st_bind_Ok in H as (? & [addr bump] & [-> _]%lift_inv & (? & ? & (_ & -> & _)%ensureS_Ok & (s2 & caller & Hcaller & (? & sg & [-> _]%lift_inv &
    (s3 & ? & Hinv%on_ctx_executors & (? & e & [-> _]%create_executor_Ok & (s4 & ? & [= <-] & (? & ks' & [-> _]%get_keyed_accounts_Ok & Hrest)%st_bind_Ok)%st_bind_Ok)%st_bind_Ok)%st_bind_Ok)%st_bind_Ok)%st_bind_Ok)%st_bind_Ok).
  unfold get_caller in Hcaller. apply st_bind_Ok in Hcaller as (? & ? & [= <- <-] & [-> _]%lift_inv).
  exists e. rewrite <-Hs1, <-Hinv.
  repeat match type of Hrest with (_ ≫= _) _ = _ => let H1 := fresh in
    apply st_bind_Ok in Hrest as (? & ? & H1 & Hrest); first [apply at_index_Ok in H1 as [-> _]|apply on_ctx_executors in H1] end.
  apply on_ctx_executors in Hrest. cbn in *. congruence.
Qed.
End loader.

(** ** An upgrade

    The program at key 21 with its data at key 20, a buffer with a new program
    of three bytes, and the authority 26, which signs. *)

Module example.
#[export] Instance sha : Sha256 := foldr (λ b n, byte_val b + n) 0.
#[export] Instance curve : CurvePoint := λ h, Z.odd h.
#[export] Instance vm : Rbpf := {|
  executable_program := list byte;
  create_executable _ bytes := Ok bytes;
  execute _ _ _ _ _ := mret tt;
|}.

#[export] Instance state_serial : Serial UpgradeableLoaderState.
Proof.
  refine (inj_serial' (A := (unit + option Z) + (Z + Z * option Z))
    (λ x, match x with
          | ULS_Uninitialized => inl (inl tt)
          | ULS_Buffer o => inl (inr o)
          | ULS_Program k => inr (inl k)
          | ULS_ProgramData n o => inr (inr (n, o))
          end)
    (λ x, match x with
          | inl (inl _) => ULS_Uninitialized
          | inl (inr o) => ULS_Buffer o
          | inr (inl k) => ULS_Program k
          | inr (inr (n, o)) => ULS_ProgramData n o
          end) _).
  abstract (by intros []).
Defined.

#[export] Instance state_codec : Codec UpgradeableLoaderState := Build_Codec UpgradeableLoaderState ser de.
#[export] Instance instruction_codec : Codec UpgradeableLoaderInstruction :=
  Build_Codec UpgradeableLoaderInstruction (λ _, []) (λ l, Some (Upgrade, l)).
#[export] Instance loader_codec : Codec LoaderInstruction := Build_Codec LoaderInstruction (λ _, []) (λ l, Some (LI_Finalize, l)).
#[export] Instance clock_codec : Codec Clock := Build_Codec Clock (λ _, []) (λ l, Some (mkClock 70 0 4 5 100, l)).
#[export] Instance rent_codec : Codec Rent := Build_Codec Rent (λ _, []) (λ l, Some (Rent_default, l)).
#[export] Instance system_codec : Codec SystemInstruction := Build_Codec SystemInstruction (λ _, []) (λ _, None).

Definition pad (n : nat) (l : list byte) : list byte := l ++ replicate (n - length l) x00.
Definition loader_account (n : Z) (d : list byte) (x : bool) : Account := mkAccount n d bpf_loader_upgradeable_id x 0.

Definition start_cells : gmap nat Account :=
  {[ 0%nat := loader_account 2000000 (pad 45 (bincode_ser (ULS_ProgramData 3 (Some 26))) ++ [x01; x02; x03; x04; x05]) false;
     1%nat := loader_account 1500000 (pad 36 (bincode_ser (ULS_Program 20))) true;
     2%nat := loader_account 900000 (pad 37 (bincode_ser (ULS_Buffer (Some 26))) ++ [x11; x12; x13]) false;
     3%nat := mkAccount 10 [] system_program_id false 0;
     4%nat := mkAccount 1 [] sysvar_program_id false 0;
     5%nat := mkAccount 1 [] sysvar_program_id false 0;
     6%nat := mkAccount 5 [] system_program_id false 0 ]}.
Definition keyed : list KeyedAccount :=
  [mkKeyed false true 20 0; mkKeyed false true 21 1; mkKeyed false true 22 2; mkKeyed false true 23 3;
   mkKeyed false false sysvar_rent_id 4; mkKeyed false false sysvar_clock_id 5; mkKeyed true false 26 6].
Definition start : Loader := mkLoader (mkCtx [mkFrame bpf_loader_upgradeable_id keyed 0 0] [] 0 None start_cells) ∅.
Definition env : Env := mkEnv Rent_default [] 4 (λ _, true) [] (λ _ _, Return (Ok tt)).
Definition upgraded_start : Loader * res InstructionError unit := upgrade bpf_loader_upgradeable_id keyed false start.

Lemma start_cells_ok : cells_ok (lcells start).
Proof.
  unfold cells_ok. change (map_Forall (λ _ a, 0 <= lamports a ∧ Z.of_nat (length (data a)) < u64_max) start_cells).
  apply (bool_decide_unpack _). vm_compute. exact I.
Qed.

Lemma upgraded_start_ok : upgraded_start.2 = Ok tt.
Proof. vm_compute. done. Qed.

(** The program's address 21 with the bump seed 255 is on the curve. *)
Lemma derived_addresses_witness :
  find_program_address (E := InstructionError) [key_bytes 21] bpf_loader_upgradeable_id = Ok (5866, 254) ∧
  bytes_are_curve_point 5866 = false.
Proof.
  split; [vm_compute; done|]. apply (derived_addresses [key_bytes 21] bpf_loader_upgradeable_id 5866 254). vm_compute. done.
Defined.

Lemma upgrade_replaces_program_witness :
  ∃ ap', lcells upgraded_start.1 !! 0%nat = Some ap' ∧ drop 45 (data ap') = [x11; x12; x13; x00; x00] ∧
    lamports ap' = 1238880 ∧ total_lamports (lcells upgraded_start.1) = total_lamports (lcells start).
Proof.
  destruct (upgrade_replaces_program bpf_loader_upgradeable_id keyed false start upgraded_start.1 start_cells_ok eq_refl
    (eq_trans (surjective_pairing upgraded_start) (f_equal (pair upgraded_start.1) upgraded_start_ok)))
    as (pd & pg & buf & sp & ra & ca & au & ap & ab & asp & rent & clk & e & [= <-] & [= <-] & [= <-] & [= <-] & [= <-] & Hrent &
        [= <-] & _ & [= <-] & _ & Hap & Hab & _ & _ & _ & _ & _ & _ & Hd & Hap' & _ & _ & Ht).
  vm_compute in Hap, Hab, Hrent. injection Hap as <-. injection Hab as <-. injection Hrent as <-.
  eexists. split; [exact Hap'|]. split; [exact Hd|]. split; [vm_compute; done|]. apply Ht. vm_compute. done.
Defined.

Lemma program_code_guarded_witness :
  ∃ a' k, lcells upgraded_start.1 !! 0%nat = Some a' ∧ k ∈ keyed ∧ is_signer k = true ∧ Some 26 = Some (key k).
Proof.
  destruct (program_code_guarded env (λ _, mret tt) bpf_loader_upgradeable_id [] false Upgrade keyed start upgraded_start.1 0
    (default Account_default (start_cells !! 0%nat)))
    as (a' & Ha' & _ & _ & _ & [[Hd _]|(k & Hk)]).
  - reflexivity.
  - exact start_cells_ok.
  - reflexivity.
  - done.
  - exact (eq_trans (surjective_pairing upgraded_start) (f_equal (pair upgraded_start.1) upgraded_start_ok)).
  - vm_compute. done.
  - exfalso. vm_compute in Ha'. injection Ha' as <-. vm_compute in Hd. done.
  - exists a', k. split; [exact Ha'|exact Hk].
Defined.
End example.
End bpf_loader_props.
