(* ===== verification/VoteState.v ===== *)
(** * Vote state

    Models [programs/vote/src/vote_state/mod.rs] (the data and the methods of
    [VoteState]), [programs/vote/src/authorized_voters.rs], the 0.23.5 layout
    and its conversion.

    A vote account keeps a stack of lockouts.  Each vote on a slot locks the
    voter out of other forks for [2^n] slots, where [n] counts how many votes
    were stacked on it; when the stack holds 31 votes the oldest becomes the
    root and earns a credit. *)

From S2P Require Import Prelude Account BTreeMap Sysvar.

Definition MAX_LOCKOUT_HISTORY : nat := 31.
Definition INITIAL_LOCKOUT : Z := 2.
Definition MAX_EPOCH_CREDITS_HISTORY : nat := 64.

(** ** Data *)

Record Vote : Type := mkVote {
  vote_slots : list Slot;
  vote_hash : Hash;
  vote_timestamp : option UnixTimestamp;
}.

Definition Vote_new (slots : list Slot) (h : Hash) : Vote := mkVote slots h None.

Definition Vote_last_voted_slot (v : Vote) : option Slot := last (vote_slots v).

Record Lockout : Type := mkLockout {
  slot : Slot;
  confirmation_count : Z;
}.

Definition Lockout_new (s : Slot) : Lockout := mkLockout s 1.

Definition lockout (l : Lockout) : Z := wrap64 (INITIAL_LOCKOUT ^ confirmation_count l).

Definition last_locked_out_slot (l : Lockout) : Slot := add64 (slot l) (lockout l).

Definition is_locked_out_at_slot (l : Lockout) (s : Slot) : bool :=
  s <=? last_locked_out_slot l.

Record VoteInit : Type := mkVoteInit {
  init_node_pubkey : Pubkey;
  init_authorized_voter : Pubkey;
  init_authorized_withdrawer : Pubkey;
  init_commission : Z;
}.

Inductive VoteAuthorize : Type := Voter | Withdrawer.

Record BlockTimestamp : Type := mkBlockTimestamp {
  ts_slot : Slot;
  ts_timestamp : UnixTimestamp;
}.

#[export] Instance BlockTimestamp_eq_dec : EqDecision BlockTimestamp.
Proof. solve_decision. Defined.

Definition MAX_ITEMS : nat := 32.

Record CircBuf (I : Type) : Type := mkCircBuf {
  cb_buf : list I;
  cb_idx : nat;
  cb_is_empty : bool;
}.
Arguments mkCircBuf {I}.
Arguments cb_buf {I}.
Arguments cb_idx {I}.
Arguments cb_is_empty {I}.

Definition CircBuf_default {I} (d : I) : CircBuf I :=
  mkCircBuf (replicate MAX_ITEMS d) (MAX_ITEMS - 1) true.

Definition CircBuf_append {I} (b : CircBuf I) (item : I) : CircBuf I :=
  let idx := ((cb_idx b + 1) mod MAX_ITEMS)%nat in
  mkCircBuf (<[idx := item]> (cb_buf b)) idx false.

Definition CircBuf_last {E I} (b : CircBuf I) : res E (option I) :=
  if negb (cb_is_empty b) then
    match cb_buf b !! cb_idx b with Some x => Ok (Some x) | None => Panic end
  else Ok None.

(** ** authorized_voters.rs *)

Abbreviation AuthorizedVoters := (list (Z * Z)) (only parsing).

Definition AuthorizedVoters_new (epoch : Epoch) (pubkey : Pubkey) : AuthorizedVoters :=
  bt_insert epoch pubkey [].

Definition get_or_calculate_authorized_voter_for_epoch (av : AuthorizedVoters)
    (epoch : Epoch) : option (Pubkey * bool) :=
  match bt_get epoch av with
  | None => (λ e, (e.2, false)) <$> last (bt_range 0 epoch av)
  | Some pubkey => Some (pubkey, true)
  end.

Definition get_authorized_voter (av : AuthorizedVoters) (epoch : Epoch) : option Pubkey :=
  fst <$> get_or_calculate_authorized_voter_for_epoch av epoch.

Definition get_and_cache_authorized_voter_for_epoch (av : AuthorizedVoters)
    (epoch : Epoch) : AuthorizedVoters * option Pubkey :=
  match get_or_calculate_authorized_voter_for_epoch av epoch with
  | Some (pubkey, existed) =>
      ((if existed then av else bt_insert epoch pubkey av), Some pubkey)
  | None => (av, None)
  end.

(** [purge_authorized_voters]; [None] is the failed assertion that the map is
    not empty. *)
Definition purge_authorized_voters (av : AuthorizedVoters) (current_epoch : Epoch)
    : option AuthorizedVoters :=
  let expired_keys := fst <$> bt_range 0 current_epoch av in
  let av' := foldl (λ m k, bt_remove k m) av expired_keys in
  match av' with
  | [] => None
  | _ => Some av'
  end.

Definition av_contains (av : AuthorizedVoters) (epoch : Epoch) : bool :=
  bool_decide (is_Some (bt_get epoch av)).

(** ** VoteState *)

Record VoteState : Type := mkVoteState {
  node_pubkey : Pubkey;
  authorized_withdrawer : Pubkey;
  commission : Z;
  votes : list Lockout;
  root_slot : option Slot;
  authorized_voters : AuthorizedVoters;
  prior_voters : CircBuf (Z * Z * Z);
  epoch_credits : list (Z * Z * Z);
  last_timestamp : BlockTimestamp;
}.

Definition VoteState_default : VoteState :=
  mkVoteState Pubkey_default Pubkey_default 0 [] None [] (CircBuf_default (0, 0, 0)) []
    (mkBlockTimestamp 0 0).

Definition with_node_pubkey (p : Pubkey) (v : VoteState) : VoteState :=
  mkVoteState p (authorized_withdrawer v) (commission v) (votes v) (root_slot v)
    (authorized_voters v) (prior_voters v) (epoch_credits v) (last_timestamp v).
Definition with_authorized_withdrawer (p : Pubkey) (v : VoteState) : VoteState :=
  mkVoteState (node_pubkey v) p (commission v) (votes v) (root_slot v)
    (authorized_voters v) (prior_voters v) (epoch_credits v) (last_timestamp v).
Definition with_commission (c : Z) (v : VoteState) : VoteState :=
  mkVoteState (node_pubkey v) (authorized_withdrawer v) c (votes v) (root_slot v)
    (authorized_voters v) (prior_voters v) (epoch_credits v) (last_timestamp v).
Definition with_votes (l : list Lockout) (v : VoteState) : VoteState :=
  mkVoteState (node_pubkey v) (authorized_withdrawer v) (commission v) l (root_slot v)
    (authorized_voters v) (prior_voters v) (epoch_credits v) (last_timestamp v).
Definition with_root_slot (r : option Slot) (v : VoteState) : VoteState :=
  mkVoteState (node_pubkey v) (authorized_withdrawer v) (commission v) (votes v) r
    (authorized_voters v) (prior_voters v) (epoch_credits v) (last_timestamp v).
Definition with_authorized_voters (av : AuthorizedVoters) (v : VoteState) : VoteState :=
  mkVoteState (node_pubkey v) (authorized_withdrawer v) (commission v) (votes v)
    (root_slot v) av (prior_voters v) (epoch_credits v) (last_timestamp v).
Definition with_prior_voters (b : CircBuf (Z * Z * Z)) (v : VoteState) : VoteState :=
  mkVoteState (node_pubkey v) (authorized_withdrawer v) (commission v) (votes v)
    (root_slot v) (authorized_voters v) b (epoch_credits v) (last_timestamp v).
Definition with_epoch_credits (c : list (Z * Z * Z)) (v : VoteState) : VoteState :=
  mkVoteState (node_pubkey v) (authorized_withdrawer v) (commission v) (votes v)
    (root_slot v) (authorized_voters v) (prior_voters v) c (last_timestamp v).
Definition with_last_timestamp (t : BlockTimestamp) (v : VoteState) : VoteState :=
  mkVoteState (node_pubkey v) (authorized_withdrawer v) (commission v) (votes v)
    (root_slot v) (authorized_voters v) (prior_voters v) (epoch_credits v) t.

Definition VoteState_new (vote_init : VoteInit) (clock : Clock) : VoteState :=
  mkVoteState (init_node_pubkey vote_init) (init_authorized_withdrawer vote_init)
    (init_commission vote_init) [] None
    (AuthorizedVoters_new (clock_epoch clock) (init_authorized_voter vote_init))
    (CircBuf_default (0, 0, 0)) [] (mkBlockTimestamp 0 0).

Inductive VoteError : Type :=
| VoteTooOld
| SlotsMismatch
| SlotHashMismatch
| EmptySlots
| TimestampTooOld
| TooSoonToReauthorize.

(** [ToPrimitive] numbers the variants; none has a bit above the 32nd. *)
Definition VoteError_into (e : VoteError) : InstructionError :=
  Custom match e with
  | VoteTooOld => 0
  | SlotsMismatch => 1
  | SlotHashMismatch => 2
  | EmptySlots => 3
  | TimestampTooOld => 4
  | TooSoonToReauthorize => 5
  end.

(** [commission_split] returns (voter_portion, staker_portion, was_split). *)
Definition commission_split (v : VoteState) (on : Z) : Z * Z * bool :=
  let split := Z.min (commission v) 100 in
  if split =? 0 then (0, on, false)
  else if split =? 100 then (on, 0, false)
  else
    let mine := wrap128 (on * split) / 100 in
    let theirs := wrap128 (on * (100 - split)) / 100 in
    (wrap64 mine, wrap64 theirs, true).

(** *** The lockout stack *)

Definition last_lockout (v : VoteState) : option Lockout := last (votes v).

Definition last_voted_slot (v : VoteState) : option Slot := slot <$> last_lockout v.

Definition nth_recent_vote (v : VoteState) (position : nat) : option Lockout :=
  if bool_decide (position < length (votes v))%nat then
    votes v !! (length (votes v) - 1 - position)%nat
  else None.

Definition tower (v : VoteState) : list Slot := slot <$> votes v.

(** The loop of [pop_expired_votes] works from the back of the deque; on the
    reversed stack it drops a prefix. *)
Fixpoint pop_expired_rev (next_vote_slot : Slot) (l : list Lockout) : list Lockout :=
  match l with
  | [] => []
  | vote :: l' =>
      if negb (is_locked_out_at_slot vote next_vote_slot)
      then pop_expired_rev next_vote_slot l' else l
  end.

Definition pop_expired_votes (next_vote_slot : Slot) (v : VoteState) : VoteState :=
  with_votes (reverse (pop_expired_rev next_vote_slot (reverse (votes v)))) v.

Definition double_lockouts (v : VoteState) : VoteState :=
  let stack_depth := Z.of_nat (length (votes v)) in
  with_votes
    (imap (λ i l,
       if Z.of_nat i + confirmation_count l <? stack_depth
       then mkLockout (slot l) (add32 (confirmation_count l) 1) else l) (votes v)) v.

Definition credits (v : VoteState) : Z :=
  match last (epoch_credits v) with Some (_, c, _) => c | None => 0 end.

Definition current_epoch (v : VoteState) : Epoch :=
  match last (epoch_credits v) with Some (e, _, _) => e | None => 0 end.

(** [v.last_mut().unwrap().1 += 1] and the like: update the last entry. *)
Definition update_last {A} (f : A → A) (l : list A) : list A :=
  match reverse l with
  | [] => []
  | x :: l' => reverse (f x :: l')
  end.

Definition increment_credits (epoch : Epoch) (v : VoteState) : VoteState :=
  let ec := epoch_credits v in
  let ec :=
    match last ec with
    | None => ec ++ [(epoch, 0, 0)]
    | Some (e, credits, prev_credits) =>
        if negb (epoch =? e) then
          let ec :=
            if negb (credits =? prev_credits) then ec ++ [(epoch, credits, credits)]
            else update_last (λ t, (epoch, t.1.2, t.2)) ec in
          if bool_decide (MAX_EPOCH_CREDITS_HISTORY < length ec)%nat then drop 1 ec else ec
        else ec
    end in
  with_epoch_credits (update_last (λ t, (t.1.1, add64 t.1.2 1, t.2)) ec) v.

Definition process_next_vote_slot (next_vote_slot : Slot) (epoch : Epoch) (v : VoteState)
    : VoteState :=
  if match last_voted_slot v with
     | Some last_voted_slot => next_vote_slot <=? last_voted_slot
     | None => false
     end
  then v
  else
    let vote := Lockout_new next_vote_slot in
    let v := pop_expired_votes next_vote_slot v in
    let v :=
      if bool_decide (length (votes v) = MAX_LOCKOUT_HISTORY) then
        match votes v with
        | [] => v
        | oldest :: rest =>
            increment_credits epoch (with_root_slot (Some (slot oldest)) (with_votes rest v))
        end
      else v in
    double_lockouts (with_votes (votes v ++ [vote]) v).

(** *** Checking a vote against the slot hashes

    The two cursors of the source: [i] runs over the vote's slots, [j] runs
    backwards over the slot hashes.  The fuel bounds the number of rounds;
    each one advances [i] or decreases [j]. *)
Fixpoint check_loop (last_voted : option Slot) (slots : list Slot)
    (slot_hashes : list SlotHash) (fuel : nat) (i j : nat) : nat * nat :=
  match fuel with
  | O => (i, j)
  | S fuel' =>
      match slots !! i, j with
      | Some s, S j' =>
          if match last_voted with Some l => s <=? l | None => false end
          then check_loop last_voted slots slot_hashes fuel' (i + 1) j
          else
            match slot_hashes !! j' with
            | Some h =>
                if negb (s =? h.1)
                then check_loop last_voted slots slot_hashes fuel' i j'
                else check_loop last_voted slots slot_hashes fuel' (i + 1) j'
            | None => (i, j)
            end
      | _, _ => (i, j)
      end
  end.

Definition check_slots_are_valid (v : VoteState) (vote : Vote) (slot_hashes : list SlotHash)
    : res VoteError unit :=
  let n := length (vote_slots vote) in
  let m := length slot_hashes in
  let '(i, j) := check_loop (last_voted_slot v) (vote_slots vote) slot_hashes (n + m) 0 m in
  if bool_decide (j = m) then Err VoteTooOld
  else if negb (bool_decide (i = n)) then Err SlotsMismatch
  else
    h ← unwrap (slot_hashes !! j);
    ensure (h.2 =? vote_hash vote) SlotHashMismatch.

Definition VoteState_process_vote (vote : Vote) (slot_hashes : list SlotHash) (epoch : Epoch)
    : ST VoteState VoteError unit :=
  ensureS (negb (bool_decide (vote_slots vote = []))) EmptySlots;;
  v ← get;
  lift (check_slots_are_valid v vote slot_hashes);;
  modify (λ v, foldl (λ v s, process_next_vote_slot s epoch v) v (vote_slots vote)).

Definition process_vote_unchecked (vote : Vote) (v : VoteState) : VoteState :=
  let slot_hashes := (λ x, (x, vote_hash vote)) <$> reverse (vote_slots vote) in
  fst (VoteState_process_vote vote slot_hashes (current_epoch v) v).

Definition process_slot_vote_unchecked (s : Slot) (v : VoteState) : VoteState :=
  process_vote_unchecked (Vote_new [s] Hash_default) v.

Definition process_timestamp (s : Slot) (timestamp : UnixTimestamp)
    : ST VoteState VoteError unit :=
  v ← get;
  let lt := last_timestamp v in
  if ((s <? ts_slot lt) || (timestamp <? ts_timestamp lt))
     || ((s =? ts_slot lt) && negb (bool_decide (mkBlockTimestamp s timestamp = lt))
         && negb (ts_slot lt =? 0))
  then fail TimestampTooOld
  else put (with_last_timestamp (mkBlockTimestamp s timestamp) v).

(** *** Authorized voters *)

Definition get_and_update_authorized_voter (current_epoch : Epoch)
    : ST VoteState InstructionError Pubkey :=
  v ← get;
  let '(av, r) := get_and_cache_authorized_voter_for_epoch (authorized_voters v) current_epoch in
  put (with_authorized_voters av v);;
  pubkey ← lift (ok_or r InvalidAccountData);
  match purge_authorized_voters av current_epoch with
  | Some av' => put (with_authorized_voters av' v);; mret pubkey
  | None => panic
  end.

Definition set_new_authorized_voter (authorized_pubkey : Pubkey)
    (current_epoch target_epoch : Epoch) (verify : Pubkey → res InstructionError unit)
    : ST VoteState InstructionError unit :=
  epoch_authorized_voter ← get_and_update_authorized_voter current_epoch;
  lift (verify epoch_authorized_voter);;
  v ← get;
  ensureS (negb (av_contains (authorized_voters v) target_epoch))
    (VoteError_into TooSoonToReauthorize);;
  latest ← lift (ok_or (bt_last (authorized_voters v)) InvalidAccountData);
  let '(latest_epoch, latest_authorized_pubkey) := latest in
  (if negb (latest_authorized_pubkey =? authorized_pubkey) then
     last_prior ← lift (CircBuf_last (prior_voters v));
     let epoch_of_last_authorized_switch := default 0 (snd <$> last_prior) in
     if latest_epoch <? target_epoch then
       put (with_prior_voters
              (CircBuf_append (prior_voters v)
                 (latest_authorized_pubkey, epoch_of_last_authorized_switch, target_epoch)) v)
     else panic
   else mret tt);;
  modify (λ v, with_authorized_voters
                 (bt_insert target_epoch authorized_pubkey (authorized_voters v)) v).

(** *** Versions *)

Record VoteState0_23_5 : Type := mkVoteState0_23_5 {
  v0_node_pubkey : Pubkey;
  v0_authorized_voter : Pubkey;
  v0_authorized_voter_epoch : Epoch;
  v0_prior_voters : list (Z * Z * Z * Z) * nat;
  v0_authorized_withdrawer : Pubkey;
  v0_commission : Z;
  v0_votes : list Lockout;
  v0_root_slot : option Slot;
  v0_epoch_credits : list (Z * Z * Z);
  v0_last_timestamp : BlockTimestamp;
}.

Inductive VoteStateVersions : Type :=
| V0_23_5 (state : VoteState0_23_5)
| Current (state : VoteState).

Definition convert_to_current (vs : VoteStateVersions) : VoteState :=
  match vs with
  | V0_23_5 state =>
      mkVoteState (v0_node_pubkey state) (v0_authorized_withdrawer state)
        (v0_commission state) (v0_votes state) (v0_root_slot state)
        (AuthorizedVoters_new (v0_authorized_voter_epoch state) (v0_authorized_voter state))
        (CircBuf_default (0, 0, 0)) (v0_epoch_credits state) (v0_last_timestamp state)
  | Current state => state
  end.

Definition is_uninitialized (vs : VoteStateVersions) : bool :=
  match vs with
  | V0_23_5 vote_state => v0_authorized_voter vote_state =? Pubkey_default
  | Current vote_state => bool_decide (authorized_voters vote_state = [])
  end.
