(* ===== verification/VoteTower.v ===== *)
(** * The lockout stack: invariant, safety and progress

    Theorems about [process_next_vote_slot] and [process_vote] of
    [programs/vote/src/vote_state/mod.rs]. *)

From S2P Require Import Prelude Account BTreeMap Sysvar SysvarProps VoteState.

(** ** The invariant of the stack

    At most 31 votes, slots increasing and confirmation counts decreasing
    towards the top; a vote at depth [i] has at least as many confirmations as
    votes stacked from it to the top, and at most [31 - i]. *)

Record tower_inv (l : list Lockout) : Prop := {
  ti_len : (length l <= MAX_LOCKOUT_HISTORY)%nat;
  ti_slots : ∀ i j x y, (i < j)%nat → l !! i = Some x → l !! j = Some y → slot x < slot y;
  ti_counts : ∀ i j x y, (i < j)%nat → l !! i = Some x → l !! j = Some y →
    confirmation_count y < confirmation_count x;
  ti_depth : ∀ i x, l !! i = Some x →
    Z.of_nat (length l) - Z.of_nat i <= confirmation_count x
      <= Z.of_nat MAX_LOCKOUT_HISTORY - Z.of_nat i;
}.

(** Once there is a root the stack is not empty and lies above it. *)
Definition root_below (v : VoteState) : Prop :=
  ∀ r, root_slot v = Some r → votes v ≠ [] ∧ Forall (λ x, r < slot x) (votes v).

(** The credit history: bounded, each epoch starts from the credits of the one
    before, and credits never decrease within an epoch. *)
Definition credits_chain (ec : list (Z * Z * Z)) : Prop :=
  (∀ i a b, ec !! i = Some a → ec !! S i = Some b → b.2 = a.1.2) ∧
  (∀ i a, ec !! i = Some a → a.2 <= a.1.2).

Definition VoteState_inv (v : VoteState) : Prop :=
  tower_inv (votes v) ∧ root_below v ∧
  (length (epoch_credits v) <= MAX_EPOCH_CREDITS_HISTORY)%nat.

(** What pushing a vote and doubling the lockouts does to the stack. *)
Definition bump (depth : Z) (i : nat) (l : Lockout) : Lockout :=
  if Z.of_nat i + confirmation_count l <? depth
  then mkLockout (slot l) (add32 (confirmation_count l) 1) else l.

Definition push_vote (s : Slot) (l : list Lockout) : list Lockout :=
  imap (bump (Z.of_nat (length l) + 1)) l ++ [Lockout_new s].

(** ** Stack lemmas *)

Lemma tower_inv_nil : tower_inv [].
Proof. split; cbn; [lia|done..]. Qed.

Lemma tower_inv_app l k : tower_inv (l ++ k) → tower_inv l.
Proof.
  intros [Hl Hs Hc Hd]. rewrite length_app in *.
  assert (∀ i x, l !! i = Some x → (l ++ k) !! i = Some x) as Hlk
    by (intros; by apply lookup_app_l_Some).
  split; [lia|eauto..]. intros i x Hi. specialize (Hd i x (Hlk _ _ Hi)). lia.
Qed.

Lemma tower_inv_tail x l : tower_inv (x :: l) → tower_inv l.
Proof.
  intros [Hl Hs Hc Hd]. cbn in *. split; [lia|..].
  - intros i j a b ? Ha Hb. apply (Hs (S i) (S j)); [lia|done..].
  - intros i j a b ? Ha Hb. apply (Hc (S i) (S j)); [lia|done..].
  - intros i a Ha. specialize (Hd (S i) a Ha). lia.
Qed.

Lemma add32_small c : 0 <= c <= 31 → add32 c 1 = c + 1.
Proof. intros. apply wrap32_id. unfold is_u32, u32_max. lia. Qed.

Lemma tower_inv_push s l :
  tower_inv l → (length l < MAX_LOCKOUT_HISTORY)%nat → Forall (λ x, slot x < s) l →
  tower_inv (push_vote s l).
Proof.
  intros [Hl Hs Hc Hd] Hlen Hlast. unfold push_vote.
  set (d := Z.of_nat (length l) + 1).
  assert (Hnew : ∀ i x, (imap (bump d) l ++ [Lockout_new s]) !! i = Some x →
    (∃ x0, l !! i = Some x0 ∧ x = bump d i x0) ∨ (i = length l ∧ x = Lockout_new s)).
  { intros i x [Hi|[Hge Hi]]%lookup_app_Some.
    - left. rewrite list_lookup_imap in Hi. destruct (l !! i); naive_solver.
    - right. rewrite length_imap in *. apply list_lookup_singleton_Some in Hi as [? <-].
      split; [lia|done]. }
  assert (Hb : ∀ i x0, l !! i = Some x0 → slot (bump d i x0) = slot x0 ∧
    d - Z.of_nat i <= confirmation_count (bump d i x0) <= Z.of_nat MAX_LOCKOUT_HISTORY - Z.of_nat i
    ∧ confirmation_count x0 <= confirmation_count (bump d i x0)
    ∧ (confirmation_count (bump d i x0) = confirmation_count x0 ∨
       confirmation_count (bump d i x0) <= d - Z.of_nat i)).
  { intros i x0 Hi. specialize (Hd i x0 Hi). pose proof (lookup_lt_Some _ _ _ Hi).
    unfold MAX_LOCKOUT_HISTORY in *. unfold bump.
    destruct (Z.ltb_spec (Z.of_nat i + confirmation_count x0) d); cbn;
      [rewrite add32_small by lia|]; unfold d in *; split_and!; try lia; done. }
  split.
  - rewrite length_app, length_imap. cbn. lia.
  - intros i j x y Hij Hx Hy.
    apply Hnew in Hx as [(x0 & Hx0 & ->)|[-> ->]]; apply Hnew in Hy as [(y0 & Hy0 & ->)|[-> ->]].
    + destruct (Hb _ _ Hx0) as [-> _], (Hb _ _ Hy0) as [-> _]. eauto.
    + destruct (Hb _ _ Hx0) as [-> _]. cbn.
      apply (proj1 (Forall_lookup _ _) Hlast _ _ Hx0).
    + apply lookup_lt_Some in Hy0. lia.
    + lia.
  - intros i j x y Hij Hx Hy.
    apply Hnew in Hx as [(x0 & Hx0 & ->)|[-> ->]]; apply Hnew in Hy as [(y0 & Hy0 & ->)|[-> ->]].
    + destruct (Hb _ _ Hx0) as (_ & ? & ? & ?), (Hb _ _ Hy0) as (_ & ? & ? & [->|?]); [|lia].
      pose proof (Hc _ _ _ _ Hij Hx0 Hy0). lia.
    + destruct (Hb _ _ Hx0) as (_ & ? & _). apply lookup_lt_Some in Hx0. unfold d in *. cbn. lia.
    + apply lookup_lt_Some in Hy0. lia.
    + lia.
  - intros i x Hx. rewrite length_app, length_imap. cbn [length].
    apply Hnew in Hx as [(x0 & Hx0 & ->)|[-> ->]].
    + destruct (Hb _ _ Hx0) as (_ & ? & _). unfold d in *. lia.
    + cbn. lia.
Qed.

Lemma double_lockouts_push v s :
  votes (double_lockouts (with_votes (votes v ++ [Lockout_new s]) v)) = push_vote s (votes v).
Proof.
  unfold double_lockouts, push_vote. cbn. rewrite imap_app, length_app. cbn.
  f_equal.
  - apply imap_ext. intros i x Hx. unfold bump.
    by replace (Z.of_nat (length (votes v) + 1)) with (Z.of_nat (length (votes v)) + 1) by lia.
  - f_equal. destruct (Z.ltb_spec (Z.of_nat (length (votes v) + 0) + 1)
                         (Z.of_nat (length (votes v) + 1))); [lia|done].
Qed.

(** [pop_expired_votes] keeps a prefix of the stack, and what it drops has expired. *)
Lemma pop_expired_rev_spec s l :
  ∃ k, l = k ++ pop_expired_rev s l ∧ Forall (λ x, last_locked_out_slot x < s) k.
Proof.
  induction l as [|x l [k [IH Hk]]]; cbn; [by exists []|].
  unfold is_locked_out_at_slot. destruct (Z.leb_spec s (last_locked_out_slot x)); cbn.
  - by exists [].
  - exists (x :: k). split; [by rewrite <- app_comm_cons, <- IH|]. by constructor.
Qed.

Lemma pop_expired_votes_spec s v :
  ∃ k, votes v = votes (pop_expired_votes s v) ++ k ∧
       Forall (λ x, last_locked_out_slot x < s) k.
Proof.
  destruct (pop_expired_rev_spec s (reverse (votes v))) as (k & Hk & HF).
  exists (reverse k). cbn. split.
  - rewrite <- reverse_app, <- Hk. by rewrite reverse_involutive.
  - by apply Forall_reverse.
Qed.

(** The top of what is left is still locked out. *)
Lemma pop_expired_votes_last s v x :
  last_lockout (pop_expired_votes s v) = Some x → s <= last_locked_out_slot x.
Proof.
  unfold last_lockout. cbn. rewrite last_reverse.
  induction (reverse (votes v)) as [|y l IH]; cbn; [done|].
  unfold is_locked_out_at_slot. destruct (Z.leb_spec s (last_locked_out_slot y)); cbn; [|done].
  intros [= ->]. done.
Qed.

(** ** One vote slot *)

Definition stale (s : Slot) (v : VoteState) : Prop :=
  match last_voted_slot v with Some l => s <= l | None => False end.

#[export] Instance stale_dec s v : Decision (stale s v).
Proof. unfold stale. destruct (last_voted_slot v); apply _. Defined.

Definition incremented (epoch : Epoch) (ec : list (Z * Z * Z)) : list (Z * Z * Z) :=
  epoch_credits (increment_credits epoch (with_epoch_credits ec VoteState_default)).

Lemma process_next_vote_slot_stale s epoch v :
  stale s v → process_next_vote_slot s epoch v = v.
Proof.
  unfold stale, process_next_vote_slot. destruct (last_voted_slot v) as [l|]; [|done].
  by destruct (Z.leb_spec s l); [|lia].
Qed.

(** The three outcomes of the method, with the stack it leaves. *)
Lemma process_next_vote_slot_cases s epoch v :
  tower_inv (votes v) →
  let v' := process_next_vote_slot s epoch v in
  let kept := votes (pop_expired_votes s v) in
  (stale s v ∧ v' = v) ∨
  (¬ stale s v ∧ (length kept < MAX_LOCKOUT_HISTORY)%nat ∧
   votes v' = push_vote s kept ∧ root_slot v' = root_slot v ∧
   epoch_credits v' = epoch_credits v) ∨
  (¬ stale s v ∧ ∃ o rest, kept = o :: rest ∧ length kept = MAX_LOCKOUT_HISTORY ∧
   votes v' = push_vote s rest ∧ root_slot v' = Some (slot o) ∧
   epoch_credits v' = incremented epoch (epoch_credits v)).
Proof.
  intros Hinv. cbn zeta.
  destruct (pop_expired_votes_spec s v) as (k & Hk & _).
  assert (Hkept : tower_inv (votes (pop_expired_votes s v)))
    by (rewrite Hk in Hinv; by apply tower_inv_app in Hinv).
  destruct (decide (stale s v)) as [Hst|Hst].
  { left. split; [done|]. by apply process_next_vote_slot_stale. }
  right. unfold process_next_vote_slot.
  replace (match last_voted_slot v with Some l => s <=? l | None => false end) with false.
  2:{ symmetry. unfold stale in Hst. destruct (last_voted_slot v) as [l|]; [|done].
      apply Z.leb_gt. lia. }
  set (v1 := pop_expired_votes s v) in *.
  case_bool_decide as Hlen.
  - right. split; [done|]. destruct (votes v1) as [|o rest] eqn:E; [done|].
    exists o, rest. rewrite double_lockouts_push. done.
  - left. pose proof (ti_len _ Hkept). rewrite double_lockouts_push.
    split_and!; [done|lia|done..].
Qed.

Lemma fresh_above s v :
  tower_inv (votes v) → ¬ stale s v → Forall (λ x, slot x < s) (votes v).
Proof.
  intros Hinv Hst. apply Forall_lookup. intros i x Hi.
  unfold stale, last_voted_slot, last_lockout in Hst.
  destruct (last (votes v)) as [y|] eqn:Hl.
  - cbn in Hst. rewrite last_lookup in Hl.
    destruct (decide (i = pred (length (votes v)))) as [->|]; [simplify_eq; lia|].
    pose proof (lookup_lt_Some _ _ _ Hi).
    pose proof (ti_slots _ Hinv i (pred (length (votes v))) x y ltac:(lia) Hi Hl). lia.
  - apply last_None in Hl. by rewrite Hl in Hi.
Qed.

Lemma incremented_length epoch ec :
  (length ec <= MAX_EPOCH_CREDITS_HISTORY)%nat →
  (length (incremented epoch ec) <= MAX_EPOCH_CREDITS_HISTORY)%nat.
Proof.
  assert (Hul : ∀ A (f : A → A) l, length (update_last f l) = length l).
  { intros A f l. unfold update_last. rewrite <- (length_reverse l).
    destruct (reverse l); [done|]. by rewrite length_reverse. }
  unfold incremented, increment_credits, MAX_EPOCH_CREDITS_HISTORY. cbn. intros Hec.
  rewrite Hul. destruct (last ec) as [[[e c] p]|] eqn:Hl.
  - destruct (negb (epoch =? e)); [|done].
    case_bool_decide; [rewrite length_drop|lia].
    destruct (negb (c =? p)); rewrite ?length_app, ?Hul; cbn; lia.
  - apply last_None in Hl as ->. cbn. lia.
Qed.

Lemma push_vote_elem s l x :
  x ∈ push_vote s l → x = Lockout_new s ∨ ∃ y, y ∈ l ∧ slot x = slot y.
Proof.
  unfold push_vote. intros [Hx|Hx]%elem_of_app; [right|left; set_solver].
  apply list_elem_of_lookup in Hx as [i Hi]. rewrite list_lookup_imap in Hi.
  destruct (l !! i) as [y|] eqn:Hy; cbn in Hi; [|done]. simplify_eq. exists y.
  split; [by eapply list_elem_of_lookup_2|]. unfold bump. by destruct (_ <? _).
Qed.

Lemma push_vote_above r s l :
  r < s → Forall (λ x, r < slot x) l → push_vote s l ≠ [] ∧ Forall (λ x, r < slot x) (push_vote s l).
Proof.
  intros Hr HF. split; [unfold push_vote; by destruct (imap _ _)|].
  apply Forall_forall. intros x [->|(y & Hy & ->)]%push_vote_elem; [done|].
  by apply (proj1 (Forall_forall _ _) HF).
Qed.

(** The method keeps the invariant of the vote state. *)
Lemma process_next_vote_slot_inv s epoch v :
  VoteState_inv v → VoteState_inv (process_next_vote_slot s epoch v).
Proof.
  intros (Hinv & Hroot & Hec).
  destruct (pop_expired_votes_spec s v) as (k & Hk & _).
  assert (Hkept : tower_inv (votes (pop_expired_votes s v)))
    by (rewrite Hk in Hinv; by apply tower_inv_app in Hinv).
  assert (Habove : ¬ stale s v → Forall (λ x, slot x < s) (votes v))
    by (by apply fresh_above).
  destruct (process_next_vote_slot_cases s epoch v Hinv)
    as [[Hst ->]|[(Hst & Hlen & Hv & Hr & Hc)|(Hst & o & rest & Hko & Hlen & Hv & Hr & Hc)]];
    [done|specialize (Habove Hst)..]; unfold VoteState_inv, root_below; rewrite Hv, Hr, Hc.
  - split_and!; [|intros r Hrr|done].
    + apply tower_inv_push; [done..|]. rewrite Hk in Habove. by apply Forall_app in Habove as [? _].
    + destruct (Hroot r Hrr) as [Hne HF]. destruct (votes v) as [|y l] eqn:Ev; [done|].
      apply push_vote_above.
      * apply Forall_cons in HF as [? _]. apply Forall_cons in Habove as [? _]. lia.
      * rewrite Hk in HF. by apply Forall_app in HF as [? _].
  - rewrite Hk, Hko in Habove. apply Forall_app in Habove as [[Ho Habove]%Forall_cons _].
    rewrite Hko in Hkept, Hlen. cbn in Hlen.
    split_and!; [|intros r [= <-]|by apply incremented_length].
    + apply tower_inv_push; [by eapply tower_inv_tail|lia|done].
    + apply push_vote_above; [done|]. apply Forall_lookup. intros i y Hi.
      by apply (ti_slots _ Hkept 0%nat (S i) o y); [lia|..].
Qed.

(** ** Checking a vote against the slot hashes *)

Section check.
Context (lv : option Slot) (slots : list Slot) (sh : list (Z * Z)).

Definition fresh_slot (s : Slot) : Prop :=
  match lv with Some l => l < s | None => True end.

Lemma stale_test s :
  (match lv with Some l => s <=? l | None => false end) = true ↔ ¬ fresh_slot s.
Proof. unfold fresh_slot. destruct lv; [rewrite Z.leb_le; lia|naive_solver]. Qed.

(** What the cursors say when the loop stops: it stops at an end, every fresh
    slot passed was matched, the last match is at [j'], and [j] only moves for
    a fresh slot. *)
Lemma check_loop_sound fuel i j i' j' :
  (length slots - i + j <= fuel)%nat → (i <= length slots)%nat → (j <= length sh)%nat →
  check_loop lv slots sh fuel i j = (i', j') →
  (i <= i' <= length slots)%nat ∧ (j' <= j)%nat ∧
  (i' = length slots ∨ j' = 0%nat) ∧
  (∀ k s, (i <= k < i')%nat → slots !! k = Some s → fresh_slot s →
     ∃ p h, (j' <= p < j)%nat ∧ sh !! p = Some (s, h)) ∧
  (∀ s, (i < i')%nat → i' = length slots → slots !! pred i' = Some s → fresh_slot s →
     (j' < j)%nat ∧ ∃ h, sh !! j' = Some (s, h)) ∧
  ((j' < j)%nat → ∃ k s, (i <= k)%nat ∧ slots !! k = Some s ∧ fresh_slot s).
Proof.
  revert i j. induction fuel as [|fuel IH]; intros i j Hf Hi Hj Hl; cbn in Hl.
  { simplify_eq. split_and!; intros; lia. }
  destruct (slots !! i) as [s|] eqn:Es.
  2:{ simplify_eq. apply lookup_ge_None in Es. split_and!; intros; lia. }
  pose proof (lookup_lt_Some _ _ _ Es).
  destruct j as [|j0]; [simplify_eq; split_and!; intros; lia|].
  destruct (match lv with Some l => s <=? l | None => false end) eqn:Est.
  - apply stale_test in Est. apply IH in Hl as (? & ? & ? & Hm & Hlast & Hex); [|lia..].
    split_and!; [lia|lia|lia|done| |..].
    + intros k s' Hk Hs' Hfr. destruct (decide (k = i)) as [->|]; [naive_solver|].
      destruct (Hm k s' ltac:(lia) Hs' Hfr) as (p & h & ? & ?). exists p, h. split; [lia|done].
    + intros s' Hii Hn Hs' Hfr. destruct (decide (i' = i + 1)%nat) as [->|].
      * replace (pred (i + 1)) with i in Hs' by lia. naive_solver.
      * apply Hlast; [lia|done..].
    + intros Hjj. destruct (Hex ltac:(lia)) as (k & s' & ? & ?). exists k, s'. split; [lia|done].
  - assert (Hfresh : fresh_slot s).
    { unfold fresh_slot. destruct lv; [|done]. apply Z.leb_gt in Est. lia. }
    destruct (sh !! j0) as [h|] eqn:Eh; [|apply lookup_ge_None in Eh; lia].
    destruct (Z.eqb_spec s h.1) as [Heq|Hne]; cbn in Hl.
    + assert (Hend : (i + 1)%nat = length slots → j' = j0).
      { intros He. destruct fuel; cbn in Hl; [by simplify_eq|].
        by rewrite lookup_ge_None_2 in Hl by lia; simplify_eq. }
      apply IH in Hl as (? & ? & ? & Hm & Hlast & Hex); [|lia..].
      split_and!; [lia|lia|lia|done| |..].
      * intros k s' Hk Hs' Hfr. destruct (decide (k = i)) as [->|].
        { simplify_eq. exists j0, h.2. split; [lia|]. by destruct h. }
        destruct (Hm k s' ltac:(lia) Hs' Hfr) as (p & h' & ? & ?). exists p, h'. split; [lia|done].
      * intros s' Hii Hn Hs' Hfr. destruct (decide (i' = i + 1)%nat) as [->|].
        { replace (pred (i + 1)) with i in Hs' by lia. simplify_eq.
          rewrite (Hend Hn). split; [lia|]. destruct h; eauto. }
        destruct (Hlast s' ltac:(lia) Hn Hs' Hfr). split; [lia|done].
      * intros _. exists i, s. split; [lia|done].
    + apply IH in Hl as (? & ? & ? & Hm & Hlast & Hex); [|lia..].
      split_and!; [lia|lia|lia|done| |..].
      * intros k s' Hk Hs' Hfr.
        destruct (Hm k s' ltac:(lia) Hs' Hfr) as (p & h' & ? & ?). exists p, h'. split; [lia|done].
      * intros s' Hii Hn Hs' Hfr. destruct (Hlast s' Hii Hn Hs' Hfr). split; [lia|done].
      * intros _. exists i, s. split; [lia|done].
Qed.

(** On increasing vote slots and decreasing slot hashes, the loop passes every
    slot whose fresh ones are all in the slot hashes. *)
Lemma check_loop_complete fuel i j i' j' :
  (∀ a b x y, (a < b)%nat → slots !! a = Some x → slots !! b = Some y → x < y) →
  (∀ a b x y, (a < b)%nat → sh !! a = Some x → sh !! b = Some y → y.1 < x.1) →
  (length slots - i + j <= fuel)%nat → (i <= length slots)%nat → (j <= length sh)%nat →
  (0 < j)%nat →
  (∀ k s, (i <= k)%nat → slots !! k = Some s → fresh_slot s →
     ∃ p h, (p < j)%nat ∧ sh !! p = Some (s, h)) →
  check_loop lv slots sh fuel i j = (i', j') → i' = length slots.
Proof.
  intros Hss Hsh. revert i j. induction fuel as [|fuel IH]; intros i j Hf Hi Hj Hj0 Hin Hl; cbn in Hl.
  { simplify_eq. lia. }
  destruct (slots !! i) as [s|] eqn:Es.
  2:{ simplify_eq. apply lookup_ge_None in Es. lia. }
  pose proof (lookup_lt_Some _ _ _ Es).
  destruct j as [|j0]; [lia|].
  destruct (match lv with Some l => s <=? l | None => false end) eqn:Est.
  { apply IH in Hl; [done|lia..|]. intros k s' Hk. apply Hin. lia. }
  assert (Hfresh : fresh_slot s).
  { unfold fresh_slot. destruct lv; [|done]. apply Z.leb_gt in Est. lia. }
  destruct (Hin i s ltac:(lia) Es Hfresh) as (p & hp & Hp & Ehp).
  destruct (sh !! j0) as [h|] eqn:Eh; [|apply lookup_ge_None in Eh; lia].
  assert (Hlater : ∀ k s', (i < k)%nat → slots !! k = Some s' → fresh_slot s' →
     ∃ q hq, (q < p)%nat ∧ sh !! q = Some (s', hq)).
  { intros k s' Hk Hs' Hfr. destruct (Hin k s' ltac:(lia) Hs' Hfr) as (q & hq & Hq & Ehq).
    exists q, hq. split; [|done]. pose proof (Hss i k s s' ltac:(lia) Es Hs') as Hlt.
    destruct (decide (q < p)%nat) as [|Hge]; [done|exfalso].
    destruct (decide (q = p)) as [->|]; [simplify_eq; lia|].
    pose proof (Hsh p q _ _ ltac:(lia) Ehp Ehq) as Hc. cbn in Hc. lia. }
  destruct (Z.eqb_spec s h.1) as [Heq|Hne]; cbn in Hl.
  - assert (p = j0) as ->.
    { destruct (decide (p = j0)) as [|]; [done|exfalso].
      pose proof (Hsh p j0 _ _ ltac:(lia) Ehp Eh) as Hc. cbn in Hc. lia. }
    destruct (decide (i + 1 = length slots)%nat) as [Heqn|Hneq].
    + rewrite Heqn in Hl. destruct fuel; cbn in Hl; [by simplify_eq|].
      by rewrite lookup_ge_None_2 in Hl by lia; simplify_eq.
    + assert (exists s1, slots !! (i + 1)%nat = Some s1) as [s1 Es1]
        by (apply lookup_lt_is_Some_2; lia).
      pose proof (Hss i (i + 1)%nat s s1 ltac:(lia) Es Es1).
      assert (fresh_slot s1) as Hf1 by (unfold fresh_slot in *; destruct lv; [lia|done]).
      destruct (Hlater (i + 1)%nat s1 ltac:(lia) Es1 Hf1) as (q & hq & ? & ?).
      apply IH in Hl; [done|lia..|]. intros k s' Hk. apply Hlater. lia.
  - assert (p ≠ j0) by (intros ->; simplify_eq; done).
    apply IH in Hl; [done|lia..|]. intros k s' Hk Hs' Hfr.
    destruct (decide (k = i)) as [->|]; [simplify_eq; exists p, hp; split; [lia|done]|].
    destruct (Hlater k s' ltac:(lia) Hs' Hfr) as (q & hq & ? & ?). exists q, hq. split; [lia|done].
Qed.
End check.

(** The outcome of the check in terms of the final cursors. *)
Lemma check_slots_are_valid_eq v vote sh :
  ∃ i' j', check_loop (last_voted_slot v) (vote_slots vote) sh
             (length (vote_slots vote) + length sh) 0 (length sh) = (i', j') ∧
  (i' <= length (vote_slots vote))%nat ∧ (j' <= length sh)%nat ∧
  check_slots_are_valid v vote sh =
    if decide (j' = length sh) then Err VoteTooOld
    else if decide (i' = length (vote_slots vote)) then
      match sh !! j' with
      | Some h => if h.2 =? vote_hash vote then Ok tt else Err SlotHashMismatch
      | None => Panic
      end
    else Err SlotsMismatch.
Proof.
  unfold check_slots_are_valid.
  destruct (check_loop _ _ _ _ _ _) as [i' j'] eqn:E. exists i', j'.
  pose proof (check_loop_sound (last_voted_slot v) (vote_slots vote) sh
    (length (vote_slots vote) + length sh) 0 (length sh) _ _
    ltac:(lia) ltac:(lia) ltac:(lia) E)
    as ([_ ?] & ? & _).
  split_and!; [done..|]. rewrite !(bool_decide_decide).
  destruct (decide (j' = length sh)); [done|].
  destruct (decide (i' = length (vote_slots vote))); [|done]. cbn.
  destruct (sh !! j') as [h|]; [|done]. cbn. unfold ensure. done.
Qed.

(** On a vote with increasing slots and slot hashes in decreasing slot
    order, the check accepts exactly the votes whose last slot is newer than
    the last recorded vote, whose new slots are all in the slot hashes, and
    whose hash is the one recorded for the last slot. *)
Theorem check_slots_are_valid_iff v vote sh :
  increasing (vote_slots vote) → decreasing_keys sh →
  check_slots_are_valid v vote sh = Ok tt ↔
  ∃ s, last (vote_slots vote) = Some s ∧ fresh_slot (last_voted_slot v) s ∧
       (∀ s', s' ∈ vote_slots vote → fresh_slot (last_voted_slot v) s' → ∃ h, (s', h) ∈ sh) ∧
       (s, vote_hash vote) ∈ sh.
Proof.
  intros Hinc Hdec.
  assert (Hss : ∀ a b x y, (a < b)%nat → vote_slots vote !! a = Some x →
            vote_slots vote !! b = Some y → x < y)
    by (intros; by eapply (StronglySorted_lookup _ _ a b)).
  assert (Hsh : ∀ a b x y, (a < b)%nat → sh !! a = Some x → sh !! b = Some y → y.1 < x.1)
    by (intros; by apply (StronglySorted_lookup _ _ a b _ _ Hdec)).
  destruct (check_slots_are_valid_eq v vote sh) as (i' & j' & E & Hi & Hj & ->).
  pose proof (check_loop_sound (last_voted_slot v) (vote_slots vote) sh
    (length (vote_slots vote) + length sh) 0 (length sh) _ _
    ltac:(lia) ltac:(lia) ltac:(lia) E)
    as (_ & _ & _ & Hm & Hlast & Hex).
  split.
  - destruct (decide (j' = length sh)) as [|Hne]; [done|].
    destruct (decide (i' = length (vote_slots vote))) as [->|]; [|done].
    destruct (sh !! j') as [h|] eqn:Eh; [|done].
    destruct (Z.eqb_spec h.2 (vote_hash vote)) as [Hh|]; [intros _|done].
    destruct (Hex ltac:(lia)) as (k & s & _ & Ek & Hfr).
    pose proof (lookup_lt_Some _ _ _ Ek).
    destruct (last (vote_slots vote)) as [sl|] eqn:El.
    2:{ apply last_None in El. by rewrite El in Ek. }
    exists sl. rewrite last_lookup in El.
    assert (fresh_slot (last_voted_slot v) sl) as Hfl.
    { destruct (decide (k = pred (length (vote_slots vote)))) as [->|]; [by simplify_eq|].
      pose proof (Hss k (pred (length (vote_slots vote))) _ _ ltac:(lia) Ek El).
      unfold fresh_slot in *. destruct (last_voted_slot v); [lia|done]. }
    destruct (Hlast sl ltac:(lia) eq_refl El Hfl) as (_ & h' & Eh'). simplify_eq.
    split_and!; [done|done| |cbn in *; subst; by eapply list_elem_of_lookup_2].
    intros s' [k' Ek']%list_elem_of_lookup Hfr'. pose proof (lookup_lt_Some _ _ _ Ek').
    destruct (Hm k' s' ltac:(lia) Ek' Hfr') as (p & hp & _ & Ep).
    exists hp. by eapply list_elem_of_lookup_2.
  - intros (s & El & Hfr & Hall & Hin). rewrite last_lookup in El.
    pose proof (lookup_lt_Some _ _ _ El).
    assert (0 < length sh)%nat by (destruct sh; [set_solver|cbn; lia]).
    assert (i' = length (vote_slots vote)) as ->.
    { eapply (check_loop_complete (last_voted_slot v) (vote_slots vote) sh
        (length (vote_slots vote) + length sh) 0 (length sh) _ j'); [exact Hss|exact Hsh|lia..| |exact E].
      intros k s' _ Ek Hfr'. destruct (Hall s') as [h' Hh']; [by eapply list_elem_of_lookup_2|done|].
      apply list_elem_of_lookup in Hh' as [p Hp]. pose proof (lookup_lt_Some _ _ _ Hp). eauto. }
    destruct (Hlast s ltac:(lia) eq_refl El Hfr) as (? & h & Eh).
    destruct (decide (j' = length sh)); [lia|]. rewrite decide_True by done. rewrite Eh. cbn.
    rewrite (decreasing_keys_unique sh s h (vote_hash vote) Hdec); [|by eapply list_elem_of_lookup_2|done].
    by rewrite Z.eqb_refl.
Qed.

Lemma check_slots_are_valid_iff_witness :
  check_slots_are_valid VoteState_default (Vote_new [3; 5] 9) [(7, 1); (5, 9); (3, 8)] = Ok tt.
Proof.
  apply (check_slots_are_valid_iff VoteState_default (Vote_new [3; 5] 9) [(7, 1); (5, 9); (3, 8)]).
  - repeat constructor; lia.
  - repeat constructor; cbn; lia.
  - exists 5. split_and!; [done|done| |right; left].
    intros s' [->|[->|[]%not_elem_of_nil]%elem_of_cons]%elem_of_cons _; eexists.
    + right. right. left.
    + right. left.
Defined.
