(* ===== verification/VoteProps.v ===== *)
(** * Properties of the vote state

    What [VoteState::process_vote] and its helpers promise: the stack
    invariant, safety of lockouts, rooting and credits, the commission split
    and the schedule of authorized voters. *)

From S2P Require Import Prelude Account BTreeMap Sysvar VoteState VoteTower.

(** ** process_vote *)

Lemma fold_process_inv epoch l v :
  VoteState_inv v → VoteState_inv (foldl (λ v s, process_next_vote_slot s epoch v) v l).
Proof.
  revert v. induction l as [|s l IH]; intros v Hv; [done|]. cbn.
  by apply IH, process_next_vote_slot_inv.
Qed.

Lemma check_slots_no_panic v vote sh : check_slots_are_valid v vote sh ≠ Panic.
Proof.
  destruct (check_slots_are_valid_eq v vote sh) as (i' & j' & _ & _ & Hj & ->).
  destruct (decide (j' = length sh)); [done|].
  destruct (decide (i' = length (vote_slots vote))); [|done].
  destruct (sh !! j') as [h|] eqn:E; [by destruct (_ =? _)|].
  apply lookup_ge_None in E. lia.
Qed.

Lemma process_vote_outcome vote sh epoch v v' r :
  VoteState_process_vote vote sh epoch v = (v', r) →
  r ≠ Panic ∧ (∀ e, r = Err e → v' = v) ∧
  (r = Ok tt → v' = foldl (λ v s, process_next_vote_slot s epoch v) v (vote_slots vote)).
Proof.
  intros Hp. unfold VoteState_process_vote in Hp. destruct r as [[]|e|]; st_inv; try done.
  exfalso. by eapply check_slots_no_panic.
Qed.

Lemma process_vote_inv vote sh epoch v v' r :
  VoteState_inv v → VoteState_process_vote vote sh epoch v = (v', r) → VoteState_inv v'.
Proof.
  intros Hv Hp. destruct (process_vote_outcome _ _ _ _ _ _ Hp) as (Hnp & Herr & Hok).
  destruct r as [[]|e|]; [|by rewrite (Herr e eq_refl)|done].
  rewrite Hok by done. by apply fold_process_inv.
Qed.

(** C38. Whatever the vote and the slot hashes, [process_vote] does not panic,
    keeps the invariant of the stack, and leaves the state alone when it
    reports an error. *)
Theorem process_vote_safe vote sh epoch v v' r :
  VoteState_inv v → VoteState_process_vote vote sh epoch v = (v', r) →
  VoteState_inv v' ∧ r ≠ Panic ∧ (∀ e, r = Err e → v' = v).
Proof.
  intros Hv Hp. destruct (process_vote_outcome _ _ _ _ _ _ Hp) as (? & ? & _).
  split_and!; [by eapply process_vote_inv|done..].
Qed.

Lemma process_vote_safe_witness :
  VoteState_inv VoteState_default ∧
  (VoteState_process_vote (Vote_new [3; 5] 9) [(5, 9); (3, 8)] 0 VoteState_default).2 = Ok tt ∧
  VoteState_inv
    (VoteState_process_vote (Vote_new [3; 5] 9) [(5, 9); (3, 8)] 0 VoteState_default).1.
Proof.
  assert (H : VoteState_inv VoteState_default).
  { split_and!; [apply tower_inv_nil|done|cbn; lia]. }
  split_and!; [done|vm_compute; reflexivity|].
  eapply (process_vote_safe (Vote_new [3; 5] 9) [(5, 9); (3, 8)] 0 VoteState_default);
    [done|apply surjective_pairing].
Defined.

(** ** Lockouts *)

Lemma push_vote_keeps s l i x :
  (length l < MAX_LOCKOUT_HISTORY)%nat → tower_inv l → l !! i = Some x →
  ∃ y, push_vote s l !! i = Some y ∧ slot y = slot x ∧
       confirmation_count x <= confirmation_count y.
Proof.
  intros Hlen Hinv Hi. pose proof (lookup_lt_Some _ _ _ Hi).
  pose proof (ti_depth _ Hinv i x Hi). unfold MAX_LOCKOUT_HISTORY in *.
  exists (bump (Z.of_nat (length l) + 1) i x). split_and!.
  - unfold push_vote. rewrite lookup_app_l by (rewrite length_imap; lia).
    by rewrite list_lookup_imap, Hi.
  - unfold bump. by destruct (_ <? _).
  - unfold bump. destruct (_ <? _); [|done]. cbn. rewrite add32_small by lia. lia.
Qed.

(** A vote that still locks the voter out at the new slot stays or is rooted. *)
Lemma vote_survives s epoch v x :
  tower_inv (votes v) → ¬ stale s v → x ∈ votes v → s <= last_locked_out_slot x →
  let v' := process_next_vote_slot s epoch v in
  (∃ y, y ∈ votes v' ∧ slot y = slot x ∧ confirmation_count x <= confirmation_count y)
  ∨ root_slot v' = Some (slot x).
Proof.
  intros Hinv Hst Hx Hlock. cbn zeta.
  destruct (pop_expired_votes_spec s v) as (k & Hk & HF).
  assert (Hkept : tower_inv (votes (pop_expired_votes s v)))
    by (rewrite Hk in Hinv; by apply tower_inv_app in Hinv).
  assert (x ∈ votes (pop_expired_votes s v)) as Hx'.
  { rewrite Hk in Hx. apply elem_of_app in Hx as [?|Hx]; [done|].
    assert (last_locked_out_slot x < s) by (by apply (proj1 (Forall_forall _ _) HF)). lia. }
  apply list_elem_of_lookup in Hx' as [i Hi].
  destruct (process_next_vote_slot_cases s epoch v Hinv)
    as [[? ?]|[(_ & Hlen & Hv & Hr & Hc)|(_ & o & rest & Hko & Hlen & Hv & Hr & Hc)]]; [done|..].
  - left. destruct (push_vote_keeps s _ i x Hlen Hkept Hi) as (y & Hy & ? & ?).
    exists y. rewrite Hv. split; [by eapply list_elem_of_lookup_2|done].
  - rewrite Hko in Hi, Hkept, Hlen. destruct i as [|i]; cbn in Hi; [right; by simplify_eq|].
    left. cbn in Hlen. unfold MAX_LOCKOUT_HISTORY in *.
    destruct (push_vote_keeps s rest i x ltac:(unfold MAX_LOCKOUT_HISTORY; lia)
                (tower_inv_tail _ _ Hkept) Hi) as (y & Hy & ? & ?).
    exists y. rewrite Hv. split; [by eapply list_elem_of_lookup_2|done].
Qed.

(** C8. Safety of lockouts: after voting on a new slot [s], every earlier vote
    that still locks the voter out at [s] is still in the stack with at least
    as many confirmations, or has become the root. *)
Theorem lockout_respected s epoch v x :
  VoteState_inv v → ¬ stale s v → x ∈ votes v → s <= last_locked_out_slot x →
  let v' := process_next_vote_slot s epoch v in
  (∃ y, y ∈ votes v' ∧ slot y = slot x ∧ confirmation_count x <= confirmation_count y)
  ∨ root_slot v' = Some (slot x).
Proof. intros (Hinv & _ & _). by apply vote_survives. Qed.

Definition demo_state : VoteState :=
  foldl (λ v s, process_next_vote_slot s 0 v) VoteState_default [0; 1; 2; 3].

Lemma demo_state_inv : VoteState_inv demo_state.
Proof. apply fold_process_inv. split_and!; [apply tower_inv_nil|done|cbn; lia]. Qed.

Lemma lockout_respected_witness :
  let v' := process_next_vote_slot 12 0 demo_state in
  (∃ y, y ∈ votes v' ∧ slot y = 0 ∧ 4 <= confirmation_count y) ∨ root_slot v' = Some 0.
Proof.
  apply (lockout_respected 12 0 demo_state (mkLockout 0 4)).
  - apply demo_state_inv.
  - vm_compute. intros H. by apply H.
  - vm_compute. left.
  - vm_compute. intros H. by discriminate H.
Defined.

Lemma last_update_last {A} (f : A → A) l : last (update_last f l) = f <$> last l.
Proof.
  unfold update_last. destruct l as [|x l] using rev_ind; [done|].
  by rewrite reverse_snoc, reverse_cons, !last_snoc.
Qed.

Lemma last_drop_1 {A} (l : list A) : (1 < length l)%nat → last (drop 1 l) = last l.
Proof. destruct l as [|x [|y l]]; cbn; [lia..|done]. Qed.

Lemma last_incremented epoch ec :
  ∃ e p, last (incremented epoch ec) =
    Some (e, add64 (match last ec with Some (_, c, _) => c | None => 0 end) 1, p).
Proof.
  unfold incremented, increment_credits. cbn. rewrite last_update_last.
  destruct (last ec) as [[[e c] p]|] eqn:Hl; [|rewrite last_snoc; cbn; eauto].
  destruct (epoch =? e); cbn; [rewrite Hl; cbn; eauto|].
  assert (0 < length ec)%nat by (destruct ec; [done|cbn; lia]).
  case_bool_decide as Hlen; [rewrite last_drop_1 by (unfold MAX_EPOCH_CREDITS_HISTORY in *; lia)|];
    (destruct (c =? p); cbn; [rewrite last_update_last, Hl|rewrite last_snoc]); cbn; eauto.
Qed.

(** Rooting and credits: voting on a new slot roots the oldest vote exactly
    when 31 unexpired votes are stacked; then the credits grow by one, and
    otherwise root and credits stay.  The root never moves backwards. *)
Theorem root_advances s epoch v :
  VoteState_inv v → credits v < u64_max → 0 <= credits v → ¬ stale s v →
  let kept := votes (pop_expired_votes s v) in
  let v' := process_next_vote_slot s epoch v in
  (length kept = MAX_LOCKOUT_HISTORY →
     root_slot v' = slot <$> head kept ∧ credits v' = credits v + 1) ∧
  (length kept ≠ MAX_LOCKOUT_HISTORY →
     root_slot v' = root_slot v ∧ credits v' = credits v) ∧
  (∀ r, root_slot v = Some r → ∃ r', root_slot v' = Some r' ∧ r <= r').
Proof.
  intros (Hinv & Hroot & _) Hcu Hc0 Hst. cbn zeta.
  destruct (pop_expired_votes_spec s v) as (k & Hk & _).
  destruct (process_next_vote_slot_cases s epoch v Hinv)
    as [[? ?]|[(_ & Hlen & Hv & Hr & Hc)|(_ & o & rest & Hko & Hlen & Hv & Hr & Hc)]]; [done|..].
  - split_and!; [lia|by unfold credits; rewrite Hr, Hc|].
    intros r Hrr. exists r. rewrite Hr. split; [done|lia].
  - split_and!; [intros _|lia|].
    + rewrite Hr, Hko. split; [done|]. unfold credits at 1. rewrite Hc.
      destruct (last_incremented epoch (epoch_credits v)) as (e & p & ->).
      apply add64_id. unfold credits in *. lia.
    + intros r Hrr. exists (slot o). split; [done|].
      destruct (Hroot r Hrr) as [_ HF]. rewrite Hk, Hko in HF.
      apply Forall_app in HF as [[? _]%Forall_cons _]. lia.
Qed.

Definition full_state : VoteState :=
  foldl (λ v s, process_next_vote_slot s 0 v) VoteState_default (Z.of_nat <$> seq 0 31).

Lemma root_advances_witness :
  root_slot (process_next_vote_slot 31 0 full_state) = Some 0 ∧
  credits (process_next_vote_slot 31 0 full_state) = 1.
Proof.
  apply (root_advances 31 0 full_state).
  - apply fold_process_inv. split_and!; [apply tower_inv_nil|done|cbn; lia].
  - vm_compute. reflexivity.
  - vm_compute. intros H. discriminate H.
  - vm_compute. intros H. by apply H.
  - vm_compute. reflexivity.
Defined.

(** ** Progress: consecutive votes *)

(** The stack after voting on [s + a], ..., [s + n - 1] in a row. *)
Definition run_stack (s : Z) (a len : nat) : list Lockout :=
  (λ i, mkLockout (s + Z.of_nat i) (Z.of_nat (a + len) - Z.of_nat i)) <$> seq a len.

Lemma run_stack_lookup s a len i x :
  run_stack s a len !! i = Some x ↔
  (i < len)%nat ∧ x = mkLockout (s + Z.of_nat (a + i)) (Z.of_nat len - Z.of_nat i).
Proof.
  unfold run_stack. rewrite list_lookup_fmap, fmap_Some. split.
  - intros (y & [-> Hi]%lookup_seq & ->). split; [lia|]. f_equal; lia.
  - intros [Hi ->]. exists (a + i)%nat. rewrite lookup_seq. split; [done|]. f_equal; lia.
Qed.

Lemma run_stack_push s a len :
  (len < MAX_LOCKOUT_HISTORY)%nat →
  push_vote (s + Z.of_nat (a + len)) (run_stack s a len) = run_stack s a (S len).
Proof.
  intros Hlen. unfold MAX_LOCKOUT_HISTORY in Hlen.
  assert (Hl : ∀ l, length (run_stack s a l) = l)
    by (intros; unfold run_stack; by rewrite length_fmap, length_seq).
  apply list_eq. intros i. apply option_eq. intros x. rewrite run_stack_lookup.
  unfold push_vote. rewrite lookup_app_Some, length_imap, Hl, list_lookup_imap, fmap_Some. split.
  - intros [(y & [Hi ->]%run_stack_lookup & ->)|[Hge [Hi <-]%list_lookup_singleton_Some]].
    + split; [lia|]. unfold bump. cbn -[Z.of_nat].
      destruct (Z.ltb_spec (Z.of_nat i + (Z.of_nat len - Z.of_nat i)) (Z.of_nat len + 1)); [|lia].
      rewrite add32_small by lia. f_equal; lia.
    + split; [lia|]. unfold Lockout_new. f_equal; lia.
  - intros [Hi ->]. destruct (decide (i = len)) as [->|].
    + right. split; [lia|]. rewrite Nat.sub_diag. cbn. unfold Lockout_new. do 2 f_equal; lia.
    + left. eexists. rewrite run_stack_lookup. split; [split; [lia|done]|].
      unfold bump. cbn -[Z.of_nat].
      destruct (Z.ltb_spec (Z.of_nat i + (Z.of_nat len - Z.of_nat i)) (Z.of_nat len + 1)); [|lia].
      rewrite add32_small by lia. f_equal; lia.
Qed.

Lemma run_stack_cons s a len :
  run_stack s a (S len) =
  mkLockout (s + Z.of_nat a) (Z.of_nat (S len)) :: run_stack s (S a) len.
Proof.
  unfold run_stack. cbn -[Z.of_nat]. f_equal; [f_equal; lia|].
  apply list_fmap_ext. intros i x Hi. f_equal. lia.
Qed.

Lemma run_stack_tower_inv s a len :
  (len <= MAX_LOCKOUT_HISTORY)%nat → tower_inv (run_stack s a len).
Proof.
  intros Hlen.
  assert (Hl : length (run_stack s a len) = len)
    by (unfold run_stack; by rewrite length_fmap, length_seq).
  split; rewrite ?Hl; [done|..].
  - intros i j x y Hij [_ ->]%run_stack_lookup [_ ->]%run_stack_lookup. cbn. lia.
  - intros i j x y Hij [_ ->]%run_stack_lookup [_ ->]%run_stack_lookup. cbn. lia.
  - intros i x [? ->]%run_stack_lookup. cbn. lia.
Qed.

(** The newest vote of a run locks out the next slot, so nothing is popped. *)
Lemma run_stack_pop s a len v :
  0 <= s → s + Z.of_nat (a + len) + 1 <= u64_max →
  votes v = run_stack s a len → pop_expired_votes (s + Z.of_nat (a + len)) v = v.
Proof.
  intros Hs Hmax Hv. unfold pop_expired_votes.
  assert (pop_expired_rev (s + Z.of_nat (a + len)) (reverse (votes v)) = reverse (votes v)) as ->.
  { rewrite Hv. destruct len as [|len]; [done|].
    unfold run_stack. rewrite seq_S, fmap_app, reverse_app. cbn -[Z.of_nat].
    unfold is_locked_out_at_slot, last_locked_out_slot, lockout. cbn -[Z.of_nat].
    replace (Z.of_nat (a + S len) - Z.of_nat (a + len)) with 1 by lia.
    change (wrap64 (INITIAL_LOCKOUT ^ 1)) with 2. rewrite add64_id by lia.
    by destruct (Z.leb_spec (s + Z.of_nat (a + S len)) (s + Z.of_nat (a + len) + 2)); [|lia]. }
  rewrite reverse_involutive. by destruct v.
Qed.

Lemma run_stack_fresh s a len v :
  votes v = run_stack s a len → ¬ stale (s + Z.of_nat (a + len)) v.
Proof.
  intros Hv. unfold stale, last_voted_slot, last_lockout. rewrite Hv.
  destruct len as [|len]; [by intros ?|].
  unfold run_stack. rewrite seq_S, fmap_app, last_app. cbn -[Z.of_nat]. lia.
Qed.

Definition vote_run (s : Slot) (epoch : Epoch) (n : nat) (v : VoteState) : VoteState :=
  foldl (λ v i, process_next_vote_slot (s + Z.of_nat i) epoch v) v (seq 0 n).

(** C39. Liveness: a vote state with an empty stack, whatever its root and its
    credits, in which [n] consecutive slots from [s] are voted on ends with the
    last [min n 31] of them stacked, confirmation counts one apart; its root is
    the vote 31 slots back, if there is one, and it has one credit more for
    each vote beyond the 31st.  Slots and credits do not overflow [u64]. *)
Theorem consecutive_votes s epoch n v :
  0 <= s → s + Z.of_nat n + 1 <= u64_max → votes v = [] →
  0 <= credits v → credits v + Z.of_nat n <= u64_max →
  let v' := vote_run s epoch n v in
  let d := (n - MAX_LOCKOUT_HISTORY)%nat in
  votes v' = run_stack s d (n - d) ∧
  root_slot v' = (if decide (d = 0%nat) then root_slot v else Some (s + Z.of_nat d - 1)) ∧
  credits v' = credits v + Z.of_nat d.
Proof.
  intros Hs Hmax Hv Hc0 Hcmax. cbn zeta. unfold vote_run, MAX_LOCKOUT_HISTORY. revert Hmax Hcmax.
  induction n as [|n IH]; intros Hmax Hcmax; [cbn; rewrite Hv; split_and!; [done..|lia]|].
  rewrite seq_S, foldl_snoc. cbn [Nat.add].
  destruct IH as (IHv & IHr & IHc); [lia..|].
  set (w := foldl _ v (seq 0 n)) in *. set (d := (n - 31)%nat) in *.
  assert (d + (n - d) = n)%nat as Hdn by lia.
  pose proof (run_stack_fresh s d (n - d) w IHv) as Hst.
  pose proof (run_stack_pop s d (n - d) w Hs ltac:(lia) IHv) as Hpop.
  rewrite Hdn in Hst, Hpop.
  assert (Hti : tower_inv (votes w))
    by (rewrite IHv; apply run_stack_tower_inv; unfold MAX_LOCKOUT_HISTORY; lia).
  assert (Hlw : length (votes w) = (n - d)%nat)
    by (rewrite IHv; unfold run_stack; by rewrite length_fmap, length_seq).
  destruct (process_next_vote_slot_cases (s + Z.of_nat n) epoch w Hti)
    as [[? ?]|[(_ & Hlen & Hv' & Hr' & Hc')|(_ & o & rest & Hko & Hlen & Hv' & Hr' & Hc')]]; [done|..];
    rewrite Hpop in *; rewrite Hlw in Hlen; unfold MAX_LOCKOUT_HISTORY in *.
  - rewrite Hv', Hr', IHv. unfold credits in *. rewrite Hc', IHc, IHr.
    replace (S n - 31)%nat with 0%nat by lia. replace d with 0%nat in * by lia. split_and!; [|done..].
    replace (s + Z.of_nat n) with (s + Z.of_nat (0 + (n - 0))) by lia.
    rewrite run_stack_push by (unfold MAX_LOCKOUT_HISTORY; lia). f_equal. lia.
  - replace (n - d)%nat with (S 30) in * by lia.
    rewrite IHv, run_stack_cons in Hko. injection Hko as <- <-.
    rewrite Hv', Hr'. replace (S n - 31)%nat with (S d) by lia. split_and!.
    + replace (s + Z.of_nat n) with (s + Z.of_nat (S d + 30)) by lia.
      rewrite run_stack_push by (unfold MAX_LOCKOUT_HISTORY; lia). f_equal. lia.
    + rewrite decide_False by lia. cbn [slot]. f_equal. lia.
    + unfold credits at 1. rewrite Hc'.
      destruct (last_incremented epoch (epoch_credits w)) as (e & p & ->).
      fold (credits w). rewrite IHc. rewrite add64_id; lia.
Qed.

Lemma consecutive_votes_witness :
  root_slot (vote_run 100 7 40 VoteState_default) = Some 108 ∧
  credits (vote_run 100 7 40 VoteState_default) = 9.
Proof.
  apply (consecutive_votes 100 7 40 VoteState_default); try reflexivity; unfold u64_max; cbn; lia.
Defined.

(** ** Commission *)

Lemma commission_split_spec v on :
  is_u8 (commission v) → is_u64 on →
  let '(mine, theirs, was_split) := commission_split v on in
  0 <= mine ∧ 0 <= theirs ∧ on - 1 <= mine + theirs <= on ∧
  mine = on * Z.min (commission v) 100 / 100 ∧
  (was_split = false → mine + theirs = on).
Proof.
  unfold is_u8, is_u64, u8_max, u64_max, commission_split. intros Hc Hon.
  set (c := Z.min (commission v) 100). assert (0 <= c <= 100) by lia.
  destruct (Z.eqb_spec c 0) as [->|]; [rewrite Z.mul_0_r, Z.div_0_l by lia; lia|].
  destruct (Z.eqb_spec c 100) as [->|].
  { rewrite Z.div_mul by lia. lia. }
  assert (Hw : ∀ k, 0 <= k <= 100 → wrap64 (wrap128 (on * k) / 100) = on * k / 100).
  { intros k Hk. unfold wrap128. rewrite (Z.mod_small (on * k)) by nia.
    apply wrap64_id. unfold is_u64, u64_max. split; [apply Z.div_pos; nia|].
    apply Z.div_le_upper_bound; nia. }
  rewrite !Hw by lia.
  pose proof (Z.div_mod (on * c) 100 ltac:(lia)).
  pose proof (Z.mod_pos_bound (on * c) 100 ltac:(lia)).
  pose proof (Z.div_mod (on * (100 - c)) 100 ltac:(lia)).
  pose proof (Z.mod_pos_bound (on * (100 - c)) 100 ltac:(lia)).
  split_and!; try lia; apply Z.div_pos; nia.
Qed.

(** The commission split never pays out more than it splits and loses at
    most one lamport; the voter's part is the commission percentage rounded
    down, and no intermediate product overflows. *)
Theorem commission_split_bounds v on :
  is_u8 (commission v) → is_u64 on →
  let '(mine, theirs, was_split) := commission_split v on in
  0 <= mine ∧ 0 <= theirs ∧ on - 1 <= mine + theirs <= on ∧
  mine = on * Z.min (commission v) 100 / 100 ∧
  (was_split = false → mine + theirs = on).
Proof. apply commission_split_spec. Qed.

Lemma commission_split_bounds_witness :
  commission_split (with_commission 33 VoteState_default) 10 = (3, 6, true) ∧
  (9 <= 3 + 6 <= 10 ∧ 3 = 10 * 33 / 100).
Proof.
  split; [reflexivity|].
  pose proof (commission_split_bounds (with_commission 33 VoteState_default) 10
    ltac:(vm_compute; split; intros H; discriminate H)
    ltac:(vm_compute; split; intros H; discriminate H)) as (_ & _ & H1 & H2 & _).
  split; [exact H1|exact H2].
Defined.

(** ** Authorized voters *)

(** The abstract schedule: the voter of an epoch is the one set for the latest
    epoch not after it. *)
Fixpoint voter_at (av : list (Z * Z)) (e : Epoch) : option Pubkey :=
  match av with
  | [] => None
  | (k, p) :: av' => if k <=? e then Some (default p (voter_at av' e)) else None
  end.

Definition av_ok (av : list (Z * Z)) : Prop := bt_sorted av ∧ Forall (λ x, 0 <= x.1) av.

Lemma voter_at_low av e : Forall (λ x, e < x.1) av → voter_at av e = None.
Proof.
  destruct 1 as [|[k p] av Hk _]; [done|]. cbn in *. by destruct (Z.leb_spec k e); [lia|].
Qed.

Lemma voter_at_app av1 av2 e :
  Forall (λ x, x.1 <= e) av1 →
  voter_at (av1 ++ av2) e = match voter_at av2 e with Some p => Some p | None => snd <$> last av1 end.
Proof.
  induction 1 as [|[k p] av1 Hk HF IH]; [by cbn; destruct (voter_at av2 e)|].
  cbn in *. destruct (Z.leb_spec k e); [|lia]. rewrite IH.
  destruct (voter_at av2 e); [done|]. destruct av1 as [|y av1] using rev_ind; [done|].
  by rewrite app_comm_cons, !last_snoc.
Qed.

(** The map's lookup is the abstract schedule. *)
Lemma get_authorized_voter_spec av e :
  av_ok av → get_authorized_voter av e = voter_at av e.
Proof.
  intros [Hs Hp]. unfold get_authorized_voter, get_or_calculate_authorized_voter_for_epoch.
  induction Hs as [|[k p] av Hs IH HF]; [done|].
  apply Forall_cons in Hp as [Hk Hp]. specialize (IH Hp).
  unfold bt_range in *. rewrite filter_cons. cbn -[filter] in *.
  destruct (Z.eqb_spec e k) as [->|Hne]; [|destruct (Z.leb_spec k e)].
  - rewrite Z.leb_refl. by rewrite voter_at_low.
  - rewrite decide_True by lia. rewrite <- IH.
    destruct (bt_get e av) as [q|]; [done|].
    destruct (filter _ av) as [|y l] using rev_ind; [done|].
    by rewrite app_comm_cons, !last_snoc.
  - rewrite decide_False by lia.
    assert (Forall (λ x : Z * Z, e < x.1) av) as Hlow
      by (eapply Forall_impl; [exact HF|]; intros [] ?; cbn in *; lia).
    rewrite IH. by apply voter_at_low.
Qed.

Lemma voter_at_insert_low av e0 p e :
  Forall (λ x, e0 < x.1) av →
  voter_at (bt_insert e0 p av) e = if e0 <=? e then Some (default p (voter_at av e)) else None.
Proof.
  destruct 1 as [|[k q] av Hk HF]; [done|]. cbn in Hk |- *.
  destruct (Z.ltb_spec e0 k); [done|lia].
Qed.

(** Caching the voter of an epoch under that epoch changes no epoch's voter. *)
Lemma voter_at_insert_cached av e0 p e :
  bt_sorted av → voter_at av e0 = Some p → voter_at (bt_insert e0 p av) e = voter_at av e.
Proof.
  intros Hs. induction Hs as [|[k q] av Hs IH HF]; [done|]. cbn in HF |- *.
  destruct (Z.leb_spec k e0); [|done]. intros Hp.
  destruct (Z.ltb_spec e0 k); [lia|]. destruct (Z.eqb_spec e0 k) as [->|]; cbn.
  - rewrite voter_at_low in Hp by done. cbn in Hp. by simplify_eq.
  - destruct (Z.leb_spec k e); [|done]. f_equal.
    destruct (voter_at av e0) as [p'|] eqn:E; cbn in Hp; simplify_eq; [by rewrite IH|].
    assert (Forall (λ x : Z * Z, e0 < x.1) av) as Hlow.
    { destruct Hs as [|[k' p'] av Hs HF']; [done|]. cbn in E.
      destruct (Z.leb_spec k' e0); [done|]. constructor; [done|].
      eapply Forall_impl; [exact HF'|]. intros [] ?. cbn in *. lia. }
    rewrite voter_at_insert_low by done. destruct (Z.leb_spec e0 e); cbn; [done|].
    rewrite voter_at_low; [done|]. eapply Forall_impl; [exact Hlow|]. intros [] ?. cbn in *. lia.
Qed.

Lemma voter_at_insert_last av e0 p e :
  Forall (λ x, x.1 < e0) av →
  voter_at (bt_insert e0 p av) e = if e0 <=? e then Some p else voter_at av e.
Proof.
  induction 1 as [|[k q] av Hk HF IH]; [done|]. cbn in Hk |- *.
  destruct (Z.ltb_spec e0 k); [lia|]. destruct (Z.eqb_spec e0 k); [lia|]. cbn. rewrite IH.
  destruct (Z.leb_spec e0 e), (Z.leb_spec k e); try done. lia.
Qed.

Lemma voter_at_is_Some av k p e :
  bt_sorted av → (k, p) ∈ av → k <= e → is_Some (voter_at av e).
Proof.
  destruct 1 as [|[k' p'] av Hs HF]; [set_solver|].
  intros [[= -> ->]|Hin]%elem_of_cons He; cbn; [destruct (Z.leb_spec k' e); [eauto|lia]|].
  assert (k' < k) by (by apply (proj1 (Forall_forall _ _) HF (k, p))).
  destruct (Z.leb_spec k' e); [eauto|lia].
Qed.

(** Purging the entries before an epoch that has one changes no later voter. *)
Lemma voter_at_purge av e0 p e :
  bt_sorted av → bt_get e0 av = Some p → e0 <= e →
  voter_at (filter (λ x, e0 <= x.1) av) e = voter_at av e.
Proof.
  intros Hs Hget He. induction Hs as [|[k q] av Hs IH HF]; [done|]. rewrite filter_cons.
  cbn -[filter] in *. destruct (Z.eqb_spec e0 k) as [->|].
  - rewrite decide_True by lia. cbn -[filter].
    replace (filter (λ x : Z * Z, k <= x.1) av) with av; [done|].
    symmetry. apply filter_all_id. eapply Forall_impl; [exact HF|]. intros [] ?. cbn in *. lia.
  - apply bt_get_Some_elem in Hget as Hin.
    assert (k < e0) by (by apply (proj1 (Forall_forall _ _) HF (e0, p))).
    rewrite decide_False by lia. rewrite IH by done.
    destruct (Z.leb_spec k e); [|lia].
    assert (is_Some (voter_at av e)) as [x ->]; [|done].
    by eapply voter_at_is_Some.
Qed.

Lemma purge_spec av e :
  av_ok av → foldl (λ m k, bt_remove k m) av (fst <$> bt_range 0 e av) = filter (λ x, e <= x.1) av.
Proof.
  intros [Hs Hp].
  assert (Hrem : ∀ ks m, foldl (λ (m : list (Z * Z)) k, bt_remove k m) m ks = filter (λ x, x.1 ∉ ks) m).
  { induction ks as [|k ks IH]; intros m; cbn -[filter].
    - symmetry. apply filter_all_id, Forall_true. set_solver.
    - rewrite IH. unfold bt_remove. rewrite list_filter_filter. apply list_filter_iff.
      intros x. set_solver. }
  rewrite Hrem. apply filter_ext_elem. intros [k p] Hin. cbn.
  assert (0 <= k) by (by apply (proj1 (Forall_forall _ _) Hp (k, p))).
  rewrite list_elem_of_fmap. unfold bt_range. split.
  - intros Hn. destruct (Z.le_gt_cases e k); [done|exfalso]. apply Hn.
    exists (k, p). split; [done|]. apply list_elem_of_filter. cbn. split; [lia|done].
  - intros Hk ([k' p'] & -> & [? _]%list_elem_of_filter). cbn in *. lia.
Qed.

(** Caching: the map after [get_and_cache_authorized_voter_for_epoch]. *)
Lemma get_and_cache_spec av e av1 r :
  av_ok av → 0 <= e → get_and_cache_authorized_voter_for_epoch av e = (av1, r) →
  r = voter_at av e ∧
  match r with
  | None => av1 = av
  | Some p => av_ok av1 ∧ bt_get e av1 = Some p ∧
      (∀ x, x ∈ av1 → x = (e, p) ∨ x ∈ av) ∧ (∀ e', voter_at av1 e' = voter_at av e')
  end.
Proof.
  intros [Hs Hp] He Hc. rewrite <- (get_authorized_voter_spec av e) by done.
  assert (Hv := get_authorized_voter_spec av e (conj Hs Hp)).
  unfold get_and_cache_authorized_voter_for_epoch, get_authorized_voter in *.
  destruct (get_or_calculate_authorized_voter_for_epoch av e) as [[p b]|] eqn:E; [|by simplify_eq].
  simplify_eq. split; [done|]. unfold get_or_calculate_authorized_voter_for_epoch in E.
  destruct (bt_get e av) as [q|] eqn:Eg; simplify_eq.
  { split_and!; [by split|auto..]. }
  destruct (last (bt_range 0 e av)) as [x|] eqn:El; cbn in E; simplify_eq. split_and!.
  - split; [by apply bt_insert_sorted|].
    apply Forall_forall. intros y [->|Hy]%bt_insert_In; [done|].
    by apply (proj1 (Forall_forall _ _) Hp).
  - apply bt_get_insert_eq.
  - intros y [->|Hy]%bt_insert_In; auto.
  - intros e'. by apply voter_at_insert_cached.
Qed.

(** What [get_and_update_authorized_voter] does to a well-formed map. *)
Lemma get_and_update_spec e v v' r :
  av_ok (authorized_voters v) → 0 <= e →
  get_and_update_authorized_voter e v = (v', r) →
  match voter_at (authorized_voters v) e with
  | None => r = Err InvalidAccountData ∧ v' = v
  | Some p =>
      r = Ok p ∧ v' = with_authorized_voters (authorized_voters v') v ∧
      av_ok (authorized_voters v') ∧ Forall (λ x, e <= x.1) (authorized_voters v') ∧
      (∀ x, x ∈ authorized_voters v' → x = (e, p) ∨ x ∈ authorized_voters v) ∧
      (∀ e', e <= e' → voter_at (authorized_voters v') e' = voter_at (authorized_voters v) e')
  end.
Proof.
  intros Hok He Hrun. unfold get_and_update_authorized_voter in Hrun. st_compute Hrun.
  destruct (get_and_cache_authorized_voter_for_epoch (authorized_voters v) e) as [av1 o] eqn:Ec.
  apply get_and_cache_spec in Ec as [-> Hc]; [|done..].
  destruct (voter_at (authorized_voters v) e) as [p|]; cbn in Hrun.
  2:{ subst av1. simplify_eq. split; [done|by destruct v]. }
  destruct Hc as (Hok1 & Hget & Hsub & Hva). cbn in Hrun.
  unfold purge_authorized_voters in Hrun. rewrite purge_spec in Hrun by done.
  assert (Hin : (e, p) ∈ filter (λ x : Z * Z, e <= x.1) av1)
    by (apply list_elem_of_filter; split; [cbn; lia|by apply bt_get_Some_elem]).
  destruct (filter _ av1) as [|y l] eqn:Ef; [set_solver|]. cbn in Hrun. simplify_eq.
  cbn [authorized_voters with_authorized_voters].
  rewrite <- Ef. destruct Hok1 as [Hs1 Hp1].
  assert (Hfsub : ∀ x, x ∈ filter (λ x : Z * Z, e <= x.1) av1 → e <= x.1 ∧ x ∈ av1)
    by (intros x Hx; by apply list_elem_of_filter in Hx).
  split_and!; [done|by destruct v| | | |].
  - split; [by apply bt_filter_sorted|].
    apply Forall_forall. intros x [_ Hx]%Hfsub. by apply (proj1 (Forall_forall _ _) Hp1).
  - apply Forall_forall. by intros x [Hx _]%Hfsub.
  - intros x [_ Hx]%Hfsub. auto.
  - intros e' He'. rewrite (voter_at_purge av1 e p) by done. apply Hva.
Qed.

(** Looking up the voter of the current epoch never trips the assertion in
    [purge_authorized_voters]; it answers the voter scheduled for that epoch,
    forgets the earlier epochs and changes the voter of no later one. *)
Theorem authorized_voter_lookup e v v' r :
  av_ok (authorized_voters v) → 0 <= e →
  get_and_update_authorized_voter e v = (v', r) →
  r = ok_or (voter_at (authorized_voters v) e) InvalidAccountData ∧
  av_ok (authorized_voters v') ∧
  (∀ p, r = Ok p → Forall (λ x, e <= x.1) (authorized_voters v')) ∧
  (∀ e', e <= e' → voter_at (authorized_voters v') e' = voter_at (authorized_voters v) e').
Proof.
  intros Hok He Hrun. pose proof (get_and_update_spec e v v' r Hok He Hrun) as H.
  destruct (voter_at (authorized_voters v) e) as [p|] eqn:E.
  - destruct H as (-> & _ & ? & ? & _ & ?). done.
  - destruct H as [-> ->]. done.
Qed.

Definition demo_voters : VoteState :=
  with_authorized_voters [(2, 70); (5, 71)] VoteState_default.

Lemma demo_voters_ok : av_ok (authorized_voters demo_voters).
Proof. split; repeat constructor; cbn; lia. Qed.

Lemma authorized_voter_lookup_witness :
  (get_and_update_authorized_voter 4 demo_voters).2 = Ok 70 ∧
  av_ok (authorized_voters (get_and_update_authorized_voter 4 demo_voters).1).
Proof.
  destruct (authorized_voter_lookup 4 demo_voters _ _ demo_voters_ok ltac:(lia)
              (surjective_pairing _)) as (H1 & H2 & _).
  split; [rewrite H1; reflexivity|exact H2].
Defined.

(** The circular buffer's index is a valid one. *)
Definition circ_ok {I} (b : CircBuf I) : Prop :=
  length (cb_buf b) = MAX_ITEMS ∧ (cb_idx b < MAX_ITEMS)%nat.

Lemma circ_ok_last {E I} (b : CircBuf I) : circ_ok b → ∃ x, CircBuf_last (E:=E) b = Ok x.
Proof.
  intros [Hl Hi]. unfold CircBuf_last. destruct (cb_is_empty b); cbn; [eauto|].
  rewrite <- Hl in Hi. apply lookup_lt_is_Some_2 in Hi as [x ->]. eauto.
Qed.

(** Appending stores the item as the newest one and keeps the index valid. *)
Lemma circ_ok_append {E I} (b : CircBuf I) x :
  circ_ok b → circ_ok (CircBuf_append b x) ∧
  CircBuf_last (E:=E) (CircBuf_append b x) = Ok (Some x).
Proof.
  intros [Hl Hi]. assert (Hm : ((cb_idx b + 1) mod MAX_ITEMS < MAX_ITEMS)%nat)
    by (apply Nat.mod_upper_bound; unfold MAX_ITEMS; lia).
  split; [split; [cbn; by rewrite length_insert|done]|].
  unfold CircBuf_last. cbn -[Nat.modulo].
  by rewrite list_lookup_insert_eq by (rewrite Hl; done).
Qed.

(** Handing over the vote authority: when every scheduled epoch is at most
    the target, [set_new_authorized_voter] does not panic, and when it succeeds
    the current voter approved, the new key votes from the target epoch on, and
    the epochs before keep their voter.  The replaced key is recorded as the
    newest prior voter, up to the target epoch. *)
Theorem authority_handover new cur target verify v v' r :
  av_ok (authorized_voters v) → Forall (λ x, x.1 <= target) (authorized_voters v) →
  0 <= cur < target → (∀ p, verify p ≠ Panic) → circ_ok (prior_voters v) →
  set_new_authorized_voter new cur target verify v = (v', r) →
  r ≠ Panic ∧
  (r = Ok tt →
     (∃ p, voter_at (authorized_voters v) cur = Some p ∧ verify p = Ok tt) ∧
     av_ok (authorized_voters v') ∧ circ_ok (prior_voters v') ∧
     (∀ e, cur <= e → voter_at (authorized_voters v') e =
        if target <=? e then Some new else voter_at (authorized_voters v) e) ∧
     (∀ q, voter_at (authorized_voters v) (target - 1) = Some q → q ≠ new →
        ∃ since, CircBuf_last (E:=VoteError) (prior_voters v') = Ok (Some (q, since, target)))).
Proof.
  intros Hok Hle Hct Hver Hcirc Hrun. unfold set_new_authorized_voter in Hrun.
  destruct (get_and_update_authorized_voter cur v) as [v1 r1] eqn:E1.
  pose proof (get_and_update_spec cur v v1 r1 Hok ltac:(lia) E1) as H1.
  st_compute Hrun. rewrite E1 in Hrun.
  destruct (voter_at (authorized_voters v) cur) as [p|]; [|destruct H1 as [-> ->]; by simplify_eq].
  destruct H1 as (-> & Hv1 & Hok1 & Hge & Hsub & Hva).
  assert (Hpv : prior_voters v1 = prior_voters v) by (by rewrite Hv1).
  assert (Hle1 : Forall (λ x, x.1 <= target) (authorized_voters v1)).
  { apply Forall_forall. intros x [->|Hx]%Hsub; [cbn; lia|]. by apply (proj1 (Forall_forall _ _) Hle). }
  st_compute Hrun. destruct (verify p) as [[]|e|] eqn:Ev; [|by simplify_eq|by apply Hver in Ev].
  unfold ensure, av_contains in Hrun. case_bool_decide as Hcont; cbn in Hrun; [by simplify_eq|].
  assert (Hlt : Forall (λ x, x.1 < target) (authorized_voters v1)).
  { apply Forall_forall. intros [k q] Hx.
    pose proof (proj1 (Forall_forall _ _) Hle1 _ Hx) as Hk. cbn in Hk |- *.
    destruct (decide (k = target)) as [->|]; [|lia]. exfalso. apply Hcont.
    rewrite (bt_get_elem target q); [done| |done]. apply Hok1. }
  destruct (bt_last (authorized_voters v1)) as [[le lp]|] eqn:El; cbn in Hrun; [|by simplify_eq].
  assert (le < target).
  { apply last_Some in El as [l' Hl']. rewrite Hl' in Hlt. by apply Forall_app in Hlt as [_ [? _]%Forall_cons]. }
  assert (Hlast : voter_at (authorized_voters v) (target - 1) = Some lp).
  { rewrite <- Hva by lia. apply last_Some in El as [l' Hl'].
    assert (Forall (λ x, x.1 <= target - 1) (authorized_voters v1)) as HF
      by (eapply Forall_impl; [exact Hlt|]; intros [] ?; cbn in *; lia).
    rewrite <- (app_nil_r (authorized_voters v1)), voter_at_app by done.
    by rewrite Hl', last_snoc. }
  destruct (circ_ok_last (E:=InstructionError) _ Hcirc) as [o Ho].
  assert (Hfin : r = Ok tt ∧ authorized_voters v' = bt_insert target new (authorized_voters v1) ∧
    circ_ok (prior_voters v') ∧
    (lp ≠ new → ∃ since, CircBuf_last (E:=VoteError) (prior_voters v') = Ok (Some (lp, since, target)))).
  { rewrite Hpv, Ho in Hrun. destruct (Z.eqb_spec lp new) as [->|]; cbn in Hrun.
    - simplify_eq. cbn. rewrite Hpv. split_and!; done.
    - destruct (Z.ltb_spec le target); [|lia]. cbn in Hrun. simplify_eq. cbn [prior_voters authorized_voters with_prior_voters with_authorized_voters].
      destruct (circ_ok_append (E:=VoteError) (prior_voters v)
        (lp, default 0 (snd <$> o), target) Hcirc) as [? ?]. split_and!; eauto. }
  destruct Hfin as (-> & -> & Hc' & Hprior). split; [done|]. intros _. split_and!; [eauto|split|done|..].
  - apply bt_insert_sorted, Hok1.
  - apply Forall_forall. intros x [->|Hx]%bt_insert_In; [cbn; lia|].
    by apply (proj1 (Forall_forall _ _) (proj2 Hok1)).
  - intros e He. rewrite voter_at_insert_last by done. by rewrite Hva.
  - intros q Hq Hne. rewrite Hlast in Hq. simplify_eq. by apply Hprior.
Qed.

Lemma authority_handover_witness :
  let v' := (set_new_authorized_voter 99 4 7 (λ _, Ok tt) demo_voters).1 in
  voter_at (authorized_voters v') 6 = Some 71 ∧ voter_at (authorized_voters v') 7 = Some 99.
Proof.
  destruct (authority_handover 99 4 7 (λ _, Ok tt) demo_voters _ _ demo_voters_ok
    ltac:(repeat constructor; cbn; lia) ltac:(lia) ltac:(done) ltac:(split; cbn; unfold MAX_ITEMS; lia) (surjective_pairing _))
    as [_ H].
  destruct (H eq_refl) as (_ & _ & _ & Hs & _). split; rewrite Hs by lia; reflexivity.
Defined.

(** ** Timestamps *)

(** Vote timestamps only move forward: an accepted timestamp is recorded and
    neither its slot nor its time is older than the recorded one; for the slot
    already recorded only the same timestamp is accepted; a rejected one
    changes nothing. *)
Theorem timestamps_monotone s t v v' r :
  process_timestamp s t v = (v', r) →
  (r = Ok tt ∧ last_timestamp v' = mkBlockTimestamp s t ∧
   ts_slot (last_timestamp v) <= s ∧ ts_timestamp (last_timestamp v) <= t ∧
   (ts_slot (last_timestamp v) = s → s ≠ 0 → ts_timestamp (last_timestamp v) = t))
  ∨ (r = Err TimestampTooOld ∧ v' = v).
Proof.
  intros Hrun. unfold process_timestamp in Hrun. st_compute Hrun.
  destruct (_ || _) eqn:E; st_compute Hrun; simplify_eq; [by right|left]. cbn. bool_prop.
  split_and!; [done..|]. intros Hs Hnz.
  repeat (match goal with H : _ ∨ _ |- _ => destruct H end; bool_prop); try lia.
  match goal with H : _ = last_timestamp v |- _ => by rewrite <- H end.
Qed.

Lemma timestamps_monotone_witness :
  let v := with_last_timestamp (mkBlockTimestamp 10 50) VoteState_default in
  (process_timestamp 11 60 v).2 = Ok tt ∧ ts_timestamp (last_timestamp v) <= 60.
Proof.
  cbn zeta.
  destruct (timestamps_monotone 11 60
    (with_last_timestamp (mkBlockTimestamp 10 50) VoteState_default) _ _
    (surjective_pairing _)) as [(H & _ & _ & Ht & _)|[H _]].
  - split; [exact H|exact Ht].
  - vm_compute in H. discriminate H.
Defined.
