(* ===== verification/VoteWf.v ===== *)
(** * Ranges of the vote state's fields

    The values the Rust types can hold, and that every method of the vote state
    stays within them: the side condition under which a state written to an
    account is read back unchanged. *)

From S2P Require Import Prelude F64 Account Serial BTreeMap Sysvar VoteState VoteTower VoteProps.


Definition wf_lockout (l : Lockout) : Prop := is_u64 (slot l) ∧ is_u32 (confirmation_count l).
Definition wf_prior (x : Z * Z * Z) : Prop := is_key x.1.1 ∧ is_u64 x.1.2 ∧ is_u64 x.2.
Definition wf_credit (x : Z * Z * Z) : Prop := is_u64 x.1.1 ∧ is_u64 x.1.2 ∧ is_u64 x.2.
Definition wf_voter (x : Z * Z) : Prop := is_u64 x.1 ∧ is_key x.2.
Definition wf_timestamp (t : BlockTimestamp) : Prop := is_u64 (ts_slot t) ∧ is_i64 (ts_timestamp t).
Definition wf_root (r : option Z) : Prop := match r with Some s => is_u64 s | None => True end.

Fixpoint sorted_keys {V} (m : list (Z * V)) : bool :=
  match m with
  | [] => true
  | x :: m' => forallb (λ y, x.1 <? y.1) m' && sorted_keys m'
  end.

Record wf_vote_state (v : VoteState) : Prop := {
  wv_node : is_key (node_pubkey v);
  wv_withdrawer : is_key (authorized_withdrawer v);
  wv_commission : is_u8 (commission v);
  wv_votes : Forall wf_lockout (votes v);
  wv_root : wf_root (root_slot v);
  wv_voters : Forall wf_voter (authorized_voters v) ∧ sorted_keys (authorized_voters v) = true;
  wv_prior : Forall wf_prior (cb_buf (prior_voters v)) ∧
             length (cb_buf (prior_voters v)) = MAX_ITEMS ∧
             Z.of_nat (cb_idx (prior_voters v)) <= u64_max;
  wv_credits : Forall wf_credit (epoch_credits v);
  wv_timestamp : wf_timestamp (last_timestamp v);
}.

Record wf_vote_state_0_23_5 (v : VoteState0_23_5) : Prop := {
  w0_node : is_key (v0_node_pubkey v);
  w0_voter : is_key (v0_authorized_voter v) ∧ is_u64 (v0_authorized_voter_epoch v);
  w0_prior : Forall (λ x, wf_prior x.1 ∧ is_u64 x.2) (v0_prior_voters v).1 ∧
             length (v0_prior_voters v).1 = MAX_ITEMS ∧
             Z.of_nat (v0_prior_voters v).2 <= u64_max;
  w0_withdrawer : is_key (v0_authorized_withdrawer v);
  w0_commission : is_u8 (v0_commission v);
  w0_votes : Forall wf_lockout (v0_votes v);
  w0_root : wf_root (v0_root_slot v);
  w0_credits : Forall wf_credit (v0_epoch_credits v);
  w0_timestamp : wf_timestamp (v0_last_timestamp v);
}.

#[export] Instance wf_VoteStateVersions : Wf VoteStateVersions := λ vs,
  match vs with
  | V0_23_5 v => wf_vote_state_0_23_5 v
  | Current v => wf_vote_state v
  end.

Record wf_clock (c : Clock) : Prop := {
  wc_slot : is_u64 (clock_slot c);
  wc_epoch : is_u64 (clock_epoch c);
  wc_leader : is_u64 (leader_schedule_epoch c);
  wc_start : is_i64 (epoch_start_timestamp c);
  wc_unix : is_i64 (unix_timestamp c);
}.
#[export] Instance wf_Clock : Wf Clock := wf_clock.

Definition wf_vote (v : Vote) : Prop :=
  Forall is_u64 (vote_slots v) ∧ is_key (vote_hash v) ∧
  match vote_timestamp v with Some t => is_i64 t | None => True end.

Definition keys_ok (ks : list KeyedAccount) : Prop := Forall (λ k, is_key (key k)) ks.

(** ** Lemmas *)

Lemma sorted_keys_spec {V} (m : list (Z * V)) : sorted_keys m = true ↔ bt_sorted m.
Proof.
  unfold bt_sorted. induction m as [|x m IH]; cbn; [split; [constructor|done]|].
  rewrite andb_true_iff, IH, StronglySorted_cons, forallb_forall, Forall_forall.
  setoid_rewrite list_elem_of_In. by setoid_rewrite Z.ltb_lt.
Qed.

Lemma wf_av_ok v : wf_vote_state v → av_ok (authorized_voters v).
Proof.
  intros [_ _ _ _ _ [Hv Hs] _ _ _]. split; [by apply sorted_keys_spec|].
  eapply Forall_impl; [exact Hv|]. intros x [? _]. unfold is_u64 in *. lia.
Qed.

Lemma add32_range a : is_u32 (add32 a 1).
Proof.
  unfold is_u32, add32, wrap32, u32_max. pose proof (Z.mod_pos_bound (a + 1) (2 ^ 32)). lia.
Qed.

Lemma is_key_0 : is_key 0.
Proof. unfold is_key. lia. Qed.
Lemma is_u64_0 : is_u64 0.
Proof. unfold is_u64, u64_max. lia. Qed.
#[export] Hint Resolve is_key_0 is_u64_0 wrap64_range : sol.

Lemma wf_CircBuf_default :
  Forall wf_prior (cb_buf (CircBuf_default (0, 0, 0))) ∧
  length (cb_buf (CircBuf_default (0, 0, 0))) = MAX_ITEMS ∧
  Z.of_nat (cb_idx (CircBuf_default (0, 0, 0))) <= u64_max.
Proof.
  split_and!; [|done|unfold u64_max, MAX_ITEMS; cbn; lia].
  apply Forall_replicate. repeat split; cbn; unfold u64_max; lia.
Qed.

Lemma wf_double_lockouts v : wf_vote_state v → wf_vote_state (double_lockouts v).
Proof.
  intros []. split; try done. cbn. apply Forall_lookup. intros i x.
  rewrite list_lookup_imap, fmap_Some. intros (y & Hy & ->).
  pose proof (proj1 (Forall_lookup _ _) wv_votes0 i y Hy) as [? ?].
  destruct (_ <? _); [|done]. split; [done|apply add32_range].
Qed.

Lemma wf_pop_expired s v : wf_vote_state v → wf_vote_state (pop_expired_votes s v).
Proof.
  intros Hw. destruct (pop_expired_votes_spec s v) as (k & Hk & _).
  destruct Hw. split; try done. rewrite Hk in wv_votes0. by apply Forall_app in wv_votes0 as [? _].
Qed.

Lemma wf_update_last {A} (P : A → Prop) f l :
  (∀ x, P x → P (f x)) → Forall P l → Forall P (update_last f l).
Proof.
  intros Hf Hl. unfold update_last. apply Forall_reverse in Hl.
  destruct Hl; [constructor|]. apply Forall_reverse. constructor; auto.
Qed.

Lemma wf_increment_credits e v :
  is_u64 e → wf_vote_state v → wf_vote_state (increment_credits e v).
Proof.
  intros He []. split; try done. cbn.
  apply wf_update_last; [intros x (? & ? & ?); by split_and!; [|apply wrap64_range|]|].
  destruct (last (epoch_credits v)) as [[[e0 c] p]|] eqn:El.
  - destruct (negb (e =? e0)); [|done].
    assert (Forall wf_credit (if negb (c =? p) then epoch_credits v ++ [(e, c, c)]
      else update_last (λ t, (e, t.1.2, t.2)) (epoch_credits v))) as H.
    { destruct (negb (c =? p)).
      - apply Forall_app. split; [done|]. apply Forall_singleton.
        apply last_Some in El as [l' El]. rewrite El in wv_credits0.
        by apply Forall_app in wv_credits0 as [_ [(? & ? & ?) _]%Forall_cons].
      - apply wf_update_last; [|done]. intros x (? & ? & ?). done. }
    case_bool_decide; [by apply Forall_drop|done].
  - apply Forall_app. split; [done|]. apply Forall_singleton. split_and!; auto with sol.
Qed.

Lemma wf_process_next s e v :
  is_u64 s → is_u64 e → wf_vote_state v → wf_vote_state (process_next_vote_slot s e v).
Proof.
  intros Hs He Hw. unfold process_next_vote_slot. destruct (match _ with Some _ => _ | None => _ end); [done|].
  apply (wf_pop_expired s) in Hw. set (v1 := pop_expired_votes s v) in *.
  apply wf_double_lockouts.
  assert (Hpush : ∀ w, wf_vote_state w → wf_vote_state (with_votes (votes w ++ [Lockout_new s]) w)).
  { intros w []. split; try done. cbn. apply Forall_app. split; [done|].
    apply Forall_singleton. split; [done|]. unfold is_u32, u32_max. cbn. lia. }
  apply Hpush. case_bool_decide; [|done]. destruct (votes v1) as [|o rest] eqn:E; [done|].
  apply wf_increment_credits; [done|]. destruct Hw. rewrite E in wv_votes0.
  apply Forall_cons in wv_votes0 as [[? _] ?]. by split.
Qed.

Lemma wf_fold_process l e v :
  Forall is_u64 l → is_u64 e → wf_vote_state v →
  wf_vote_state (foldl (λ v s, process_next_vote_slot s e v) v l).
Proof.
  intros Hl He. revert v. induction Hl as [|s l Hs Hl IH]; intros v Hw; [done|].
  cbn. by apply IH, wf_process_next.
Qed.

(** Every scheduled voter is a key, so the one looked up is. *)
Lemma voter_at_key av e p : Forall wf_voter av → voter_at av e = Some p → is_key p.
Proof.
  intros Hav. revert p. induction Hav as [|[k q] av [_ Hq] Hav IH]; intros p; [done|]. cbn.
  destruct (k <=? e); [|done]. intros [= <-]. destruct (voter_at av e); cbn; auto.
Qed.

Lemma wf_with_voters av v :
  wf_vote_state v → Forall wf_voter av → bt_sorted av → wf_vote_state (with_authorized_voters av v).
Proof. intros [] Hav Hs. split; try done. by rewrite sorted_keys_spec. Qed.

Lemma wf_get_and_update e v v' r :
  is_u64 e → wf_vote_state v → get_and_update_authorized_voter e v = (v', r) → wf_vote_state v'.
Proof.
  intros He Hw Hrun. pose proof (wf_av_ok v Hw) as Hok.
  pose proof (get_and_update_spec e v v' r Hok ltac:(unfold is_u64 in *; lia) Hrun) as H.
  destruct (voter_at (authorized_voters v) e) as [p|] eqn:E; [|by destruct H as [_ ->]].
  destruct H as (_ & -> & [Hs _] & _ & Hsub & _). apply wf_with_voters; [done| |done].
  apply Forall_forall. intros x [->|Hx]%Hsub.
  - split; [done|]. cbn. eapply voter_at_key; [apply Hw|done].
  - by apply (proj1 (Forall_forall _ _) (proj1 (wv_voters v Hw))).
Qed.

Lemma wf_CircBuf_last {E} (b : CircBuf (Z * Z * Z)) o :
  Forall wf_prior (cb_buf b) → CircBuf_last (E:=E) b = Ok o → is_u64 (default 0 (snd <$> o)).
Proof.
  intros HF. unfold CircBuf_last. destruct (negb _); [|intros [= <-]; apply is_u64_0].
  destruct (cb_buf b !! cb_idx b) as [x|] eqn:E1; [|done]. intros [= <-]. cbn.
  by apply (proj1 (Forall_lookup _ _) HF _ _ E1).
Qed.

Lemma wf_CircBuf_append (b : CircBuf (Z * Z * Z)) x :
  Forall wf_prior (cb_buf b) → length (cb_buf b) = MAX_ITEMS → wf_prior x →
  Forall wf_prior (cb_buf (CircBuf_append b x)) ∧
  length (cb_buf (CircBuf_append b x)) = MAX_ITEMS ∧
  Z.of_nat (cb_idx (CircBuf_append b x)) <= u64_max.
Proof.
  intros HF Hl Hx. cbn -[Nat.modulo]. rewrite length_insert. split_and!; [|done|].
  - by apply Forall_insert.
  - pose proof (Nat.mod_upper_bound (cb_idx b + 1) MAX_ITEMS).
    unfold MAX_ITEMS, u64_max in *. lia.
Qed.

Lemma wf_set_new_authorized_voter new cur target verify v v' x :
  is_key new → is_u64 cur → is_u64 target → wf_vote_state v →
  set_new_authorized_voter new cur target verify v = (v', Ok x) → wf_vote_state v'.
Proof.
  intros Hnew Hcur Htar Hw Hrun. unfold set_new_authorized_voter in Hrun.
  apply st_bind_Ok in Hrun as (v1 & p & E1 & Hrun).
  pose proof (wf_get_and_update _ _ _ _ Hcur Hw E1) as Hw1. st_inv.
  match goal with H : bt_last _ = Some ?l |- _ => destruct l as [le lp]; rename H into El end.
  apply st_bind_Ok in Hrun as (v2 & u & Hput & Hrun). st_inv.
  assert (Hw2 : wf_vote_state v2).
  { destruct (lp =? new); cbn in Hput; [by st_inv|]. st_inv.
    destruct (le <? target); st_inv. destruct Hw1 as [? ? ? ? ? Hv (Hp & Hl & Hi) ? ?].
    split; try done. apply wf_CircBuf_append; [done..|]. split_and!; [|by eapply wf_CircBuf_last|done].
    apply last_Some in El as [l' El]. rewrite El in Hv. destruct Hv as [Hv _].
    by apply Forall_app in Hv as [_ [[_ ?] _]%Forall_cons]. }
  apply wf_with_voters; [done|..].
  - apply Forall_forall. intros y [->|Hy]%bt_insert_In; [done|].
    by apply (proj1 (Forall_forall _ _) (proj1 (wv_voters v2 Hw2))).
  - apply bt_insert_sorted, sorted_keys_spec, Hw2.
Qed.

Lemma wf_process_vote vote sh e v v' r :
  wf_vote vote → is_u64 e → wf_vote_state v →
  VoteState_process_vote vote sh e v = (v', r) → wf_vote_state v'.
Proof.
  intros [Hv _] He Hw Hrun. unfold VoteState_process_vote in Hrun.
  destruct r as [[]|err|]; st_inv; try done. by apply wf_fold_process.
Qed.

Lemma wf_process_timestamp s t v v' r :
  is_u64 s → is_i64 t → wf_vote_state v → process_timestamp s t v = (v', r) → wf_vote_state v'.
Proof.
  intros Hs Ht Hw Hrun. unfold process_timestamp in Hrun. st_compute Hrun.
  destruct (_ || _); st_compute Hrun; simplify_eq; [done|]. destruct Hw. split; try done.
Qed.

Lemma wf_convert_to_current vs : wf vs → wf_vote_state (convert_to_current vs).
Proof.
  destruct vs as [v|v]; [|done]. intros [? [? ?] ? ? ? ? ? ?].
  split; try done; [|apply wf_CircBuf_default].
  split; [|done]. apply Forall_singleton. done.
Qed.

Lemma wf_VoteState_new i c :
  is_key (init_node_pubkey i) → is_key (init_authorized_voter i) →
  is_key (init_authorized_withdrawer i) → is_u8 (init_commission i) → is_u64 (clock_epoch c) →
  wf_vote_state (VoteState_new i c).
Proof.
  intros. split; try done; [|apply wf_CircBuf_default].
  split; [|done]. by apply Forall_singleton.
Qed.

Lemma wf_VoteState_default : wf_vote_state VoteState_default.
Proof.
  split; try done. apply wf_CircBuf_default.
Qed.

(** ** Decidability and concrete codecs *)

#[export] Instance wf_lockout_dec l : Decision (wf_lockout l).
Proof. unfold wf_lockout. apply _. Defined.
#[export] Instance wf_prior_dec x : Decision (wf_prior x).
Proof. unfold wf_prior. apply _. Defined.
#[export] Instance wf_credit_dec x : Decision (wf_credit x).
Proof. unfold wf_credit. apply _. Defined.
#[export] Instance wf_voter_dec x : Decision (wf_voter x).
Proof. unfold wf_voter. apply _. Defined.
#[export] Instance wf_timestamp_dec t : Decision (wf_timestamp t).
Proof. unfold wf_timestamp. apply _. Defined.
#[export] Instance wf_root_dec r : Decision (wf_root r).
Proof. destruct r; cbn; apply _. Defined.

#[export] Instance wf_vote_state_dec v : Decision (wf_vote_state v).
Proof.
  refine (dec_iff (P := is_key (node_pubkey v) ∧ is_key (authorized_withdrawer v) ∧
    is_u8 (commission v) ∧ Forall wf_lockout (votes v) ∧ wf_root (root_slot v) ∧
    (Forall wf_voter (authorized_voters v) ∧ sorted_keys (authorized_voters v) = true) ∧
    (Forall wf_prior (cb_buf (prior_voters v)) ∧ length (cb_buf (prior_voters v)) = MAX_ITEMS ∧
     Z.of_nat (cb_idx (prior_voters v)) <= u64_max) ∧
    Forall wf_credit (epoch_credits v) ∧ wf_timestamp (last_timestamp v)) _ _).
  abstract (split; [intros (? & ? & ? & ? & ? & ? & ? & ? & ?); by split|intros []; tauto]).
Defined.

#[export] Instance wf_vote_state_0_23_5_dec v : Decision (wf_vote_state_0_23_5 v).
Proof.
  refine (dec_iff (P := is_key (v0_node_pubkey v) ∧
    (is_key (v0_authorized_voter v) ∧ is_u64 (v0_authorized_voter_epoch v)) ∧
    (Forall (λ x, wf_prior x.1 ∧ is_u64 x.2) (v0_prior_voters v).1 ∧
     length (v0_prior_voters v).1 = MAX_ITEMS ∧ Z.of_nat (v0_prior_voters v).2 <= u64_max) ∧
    is_key (v0_authorized_withdrawer v) ∧ is_u8 (v0_commission v) ∧
    Forall wf_lockout (v0_votes v) ∧ wf_root (v0_root_slot v) ∧
    Forall wf_credit (v0_epoch_credits v) ∧ wf_timestamp (v0_last_timestamp v)) _ _).
  abstract (split; [intros (? & ? & ? & ? & ? & ? & ? & ? & ?); by split|intros []; tauto]).
Defined.

#[export] Instance wf_versions_dec (vs : VoteStateVersions) : Decision (wf vs).
Proof. destruct vs; cbn; apply _. Defined.

#[export] Instance wf_Clock_dec (c : Clock) : Decision (wf c).
Proof.
  refine (dec_iff (P := is_u64 (clock_slot c) ∧ is_u64 (clock_epoch c) ∧
    is_u64 (leader_schedule_epoch c) ∧ is_i64 (epoch_start_timestamp c) ∧
    is_i64 (unix_timestamp c)) _ _).
  abstract (split; [intros (? & ? & ? & ? & ?); by split|intros []; tauto]).
Defined.

#[export] Instance Lockout_serial : Serial Lockout.
Proof.
  refine (inj_serial' (λ l, (slot l, confirmation_count l)) (λ p, mkLockout p.1 p.2) _).
  abstract (by intros []).
Defined.
#[export] Instance BlockTimestamp_serial : Serial BlockTimestamp.
Proof.
  refine (inj_serial' (λ t, (ts_slot t, ts_timestamp t)) (λ p, mkBlockTimestamp p.1 p.2) _).
  abstract (by intros []).
Defined.
#[export] Instance CircBuf_serial {I} `{!Serial I} : Serial (CircBuf I).
Proof.
  refine (inj_serial' (λ b, (cb_buf b, cb_idx b, cb_is_empty b))
            (λ '(b, i, e), mkCircBuf b i e) _).
  abstract (by intros []).
Defined.
#[export] Instance VoteState_serial : Serial VoteState.
Proof.
  refine (inj_serial' (λ v, (node_pubkey v, authorized_withdrawer v, commission v,
             (votes v, root_slot v, authorized_voters v),
             (prior_voters v, epoch_credits v, last_timestamp v)))
            (λ '(n, w, c, (vs, r, av), (p, e, t)), mkVoteState n w c vs r av p e t) _).
  abstract (by intros []).
Defined.
#[export] Instance VoteState0_23_5_serial : Serial VoteState0_23_5.
Proof.
  refine (inj_serial' (λ v, (v0_node_pubkey v, v0_authorized_voter v,
             v0_authorized_voter_epoch v, v0_prior_voters v, v0_authorized_withdrawer v,
             (v0_commission v, v0_votes v, v0_root_slot v),
             (v0_epoch_credits v, v0_last_timestamp v)))
            (λ '(n, a, ae, p, w, (c, vs, r), (e, t)), mkVoteState0_23_5 n a ae p w c vs r e t) _).
  abstract (by intros []).
Defined.
#[export] Instance VoteStateVersions_serial : Serial VoteStateVersions.
Proof.
  refine (inj_serial' (λ v, match v with V0_23_5 v => inl v | Current v => inr v end)
            (λ v, match v with inl v => V0_23_5 v | inr v => Current v end) _).
  abstract (by intros []).
Defined.
#[export] Instance Clock_serial : Serial Clock.
Proof.
  refine (inj_serial' (λ c, (clock_slot c, epoch_start_timestamp c, clock_epoch c,
             leader_schedule_epoch c, unix_timestamp c))
            (λ '(s, st, e, l, u), mkClock s st e l u) _).
  abstract (by intros []).
Defined.
