(* ===== verification/VoteProgram.v ===== *)
(** * The vote program

    Models the account-level functions of
    [programs/vote/src/vote_state/mod.rs] and [process_instruction] of
    [programs/vote/src/vote_instruction.rs]. *)

From S2P Require Import Prelude F64 Account Serial Features BTreeMap Sysvar VoteState VoteTower VoteProps VoteWf.

Module vote_program.

Definition id : Pubkey := vote_program_id.

#[export] Instance SlotHashes_id : SysvarId (list (Z * Z)) := sysvar_slot_hashes_id.

Inductive VoteInstruction : Type :=
| InitializeAccount (vote_init : VoteInit)
| Authorize (voter_pubkey : Pubkey) (vote_authorize : VoteAuthorize)
| VoteIx (vote : Vote)
| Withdraw (lamports : Z)
| UpdateValidatorIdentity
| UpdateCommission (commission : Z)
| VoteSwitch (vote : Vote) (proof_hash : Hash)
| AuthorizeChecked (vote_authorize : VoteAuthorize).

Definition verify_authorized_signer (authorized : Pubkey) (signers : list Pubkey)
    : res InstructionError unit :=
  ensure (bool_decide (authorized ∈ signers)) MissingRequiredSignature.

Section program.
Context `{!Codec VoteStateVersions, !Codec Clock, !Codec Rent, !Codec (list (Z * Z)),
          !Codec VoteInstruction}.

(** [get_max_sized_vote_state]; the keys are random and only their length
    matters. *)
Definition get_max_sized_vote_state (new_rand : Z → Pubkey) : VoteState :=
  mkVoteState Pubkey_default Pubkey_default 0
    (replicate MAX_LOCKOUT_HISTORY (mkLockout 0 0)) (Some u64_max)
    (foldl (λ m i, bt_insert i (new_rand i) m) []
       (seqZ 0 (MAX_LEADER_SCHEDULE_EPOCH_OFFSET + 1)))
    (CircBuf_default (0, 0, 0)) (replicate MAX_EPOCH_CREDITS_HISTORY (0, 0, 0))
    (mkBlockTimestamp 0 0).

Definition VoteState_size_of : nat :=
  length (bincode_ser (Current (get_max_sized_vote_state (λ _, 0)))).

Definition authorize (vote_account : KeyedAccount) (authorized : Pubkey)
    (vote_authorize : VoteAuthorize) (signers : list Pubkey) (clock : Clock) : M unit :=
  versions ← ka_state VoteStateVersions vote_account;
  let vote_state := convert_to_current versions in
  match vote_authorize with
  | Voter =>
      r ← run_local (set_new_authorized_voter authorized (clock_epoch clock)
             (add64 (leader_schedule_epoch clock) 1)
             (λ epoch_authorized_voter, verify_authorized_signer epoch_authorized_voter signers))
            vote_state;
      ka_set_state vote_account (Current r.2)
  | Withdrawer =>
      lift (verify_authorized_signer (authorized_withdrawer vote_state) signers);;
      ka_set_state vote_account (Current (with_authorized_withdrawer authorized vote_state))
  end.

Definition update_validator_identity (vote_account : KeyedAccount) (node : Pubkey)
    (signers : list Pubkey) : M unit :=
  versions ← ka_state VoteStateVersions vote_account;
  let vote_state := convert_to_current versions in
  lift (verify_authorized_signer (authorized_withdrawer vote_state) signers);;
  lift (verify_authorized_signer node signers);;
  ka_set_state vote_account (Current (with_node_pubkey node vote_state)).

Definition update_commission (vote_account : KeyedAccount) (c : Z)
    (signers : list Pubkey) : M unit :=
  versions ← ka_state VoteStateVersions vote_account;
  let vote_state := convert_to_current versions in
  lift (verify_authorized_signer (authorized_withdrawer vote_state) signers);;
  ka_set_state vote_account (Current (with_commission c vote_state)).

Definition withdraw (vote_account : KeyedAccount) (amount : Z) (to_account : KeyedAccount)
    (signers : list Pubkey) : M unit :=
  versions ← ka_state VoteStateVersions vote_account;
  let vote_state := convert_to_current versions in
  lift (verify_authorized_signer (authorized_withdrawer vote_state) signers);;
  balance ← ka_lamports vote_account;
  match balance ?= amount with
  | Lt => fail InsufficientFunds
  | Eq => ka_set_state vote_account (Current VoteState_default)
  | Gt => mret tt
  end;;
  ka_sub_lamports vote_account amount;;
  ka_add_lamports to_account amount.

Definition initialize_account (vote_account : KeyedAccount) (vote_init : VoteInit)
    (signers : list Pubkey) (clock : Clock) (check_data_size : bool) : M unit :=
  data_len ← ka_data_len vote_account;
  ensureS (negb (check_data_size && negb (bool_decide (data_len = VoteState_size_of))))
    InvalidAccountData;;
  versioned ← ka_state VoteStateVersions vote_account;
  ensureS (is_uninitialized versioned) AccountAlreadyInitialized;;
  lift (verify_authorized_signer (init_node_pubkey vote_init) signers);;
  ka_set_state vote_account (Current (VoteState_new vote_init clock)).

(** The largest of the vote's slots ([iter().max()]). *)
Definition max_slot (l : list Slot) : option Slot :=
  match l with [] => None | s :: l' => Some (foldl Z.max s l') end.

Definition process_vote (vote_account : KeyedAccount) (slot_hashes : list (Z * Z))
    (clock : Clock) (vote : Vote) (signers : list Pubkey) : M unit :=
  versioned ← ka_state VoteStateVersions vote_account;
  ensureS (negb (is_uninitialized versioned)) UninitializedAccount;;
  let vote_state := convert_to_current versioned in
  a ← run_local (get_and_update_authorized_voter (clock_epoch clock)) vote_state;
  lift (verify_authorized_signer a.1 signers);;
  p ← run_local (mapE VoteError_into
         (VoteState_process_vote vote slot_hashes (clock_epoch clock))) a.2;
  t ← match vote_timestamp vote with
      | Some timestamp =>
          s ← lift (ok_or (max_slot (vote_slots vote)) (VoteError_into EmptySlots));
          run_local (mapE VoteError_into (process_timestamp s timestamp)) p.2
      | None => mret (tt, p.2)
      end;
  ka_set_state vote_account (Current t.2).

Definition verify_rent_exemption (keyed_account rent_sysvar_account : KeyedAccount) : M unit :=
  rent ← from_keyed_account Rent rent_sysvar_account;
  balance ← ka_lamports keyed_account;
  data_len ← ka_data_len keyed_account;
  ensureS (is_exempt rent balance data_len) InsufficientFunds.

Definition process_instruction (ic : InvokeContext) (data : list Byte.byte) : M unit :=
  let keyed_accounts := get_keyed_accounts ic in
  let signers := get_signers keyed_accounts in
  me ← keyed_account_at_index keyed_accounts 0;
  (if is_feature_active ic feature_set.check_program_owner then
     me_owner ← ka_owner me;
     ensureS (me_owner =? id) InvalidAccountOwner
   else mret tt);;
  instruction ← lift (limited_deserialize data);
  match instruction with
  | InitializeAccount vote_init =>
      rent_account ← keyed_account_at_index keyed_accounts 1;
      verify_rent_exemption me rent_account;;
      clock_account ← keyed_account_at_index keyed_accounts 2;
      clock ← from_keyed_account Clock clock_account;
      initialize_account me vote_init signers clock
        (is_feature_active ic feature_set.check_init_vote_data)
  | Authorize voter_pubkey vote_authorize =>
      clock_account ← keyed_account_at_index keyed_accounts 1;
      clock ← from_keyed_account Clock clock_account;
      authorize me voter_pubkey vote_authorize signers clock
  | UpdateValidatorIdentity =>
      node ← keyed_account_at_index keyed_accounts 1;
      update_validator_identity me (unsigned_key node) signers
  | UpdateCommission c => update_commission me c signers
  | VoteIx vote | VoteSwitch vote _ =>
      sh_account ← keyed_account_at_index keyed_accounts 1;
      slot_hashes ← from_keyed_account (list (Z * Z)) sh_account;
      clock_account ← keyed_account_at_index keyed_accounts 2;
      clock ← from_keyed_account Clock clock_account;
      process_vote me slot_hashes clock vote signers
  | Withdraw amount =>
      to ← keyed_account_at_index keyed_accounts 1;
      withdraw me amount to signers
  | AuthorizeChecked vote_authorize =>
      if is_feature_active ic feature_set.vote_stake_checked_instructions then
        voter ← keyed_account_at_index keyed_accounts 3;
        voter_pubkey ← lift (ok_or (signer_key voter) MissingRequiredSignature);
        clock_account ← keyed_account_at_index keyed_accounts 1;
        clock ← from_keyed_account Clock clock_account;
        authorize me voter_pubkey vote_authorize signers clock
      else fail InvalidInstructionData
  end.
End program.

(** ** Properties *)

#[export] Instance wf_VoteInstruction : Wf VoteInstruction := λ i,
  match i with
  | InitializeAccount vi =>
      is_key (init_node_pubkey vi) ∧ is_key (init_authorized_voter vi) ∧
      is_key (init_authorized_withdrawer vi) ∧ is_u8 (init_commission vi)
  | Authorize p _ => is_key p
  | VoteIx v => wf_vote v
  | VoteSwitch v h => wf_vote v ∧ is_key h
  | Withdraw l => is_u64 l
  | UpdateCommission c => is_u8 c
  | UpdateValidatorIdentity | AuthorizeChecked _ => True
  end.

(** A vote state the program may store. *)
Definition vote_ok (v : VoteState) : Prop :=
  wf_vote_state v ∧ VoteState_inv v ∧ circ_ok (prior_voters v).

Section properties.
Context `{!Codec VoteStateVersions, !Codec Clock, !Codec Rent, !Codec (list (Z * Z)),
          !Codec VoteInstruction}.
Context `{!CodecOk VoteStateVersions, !CodecOk Clock, !CodecOk VoteInstruction}.

(** Every account of the vote program holds a state with the invariant. *)
Definition stored_ok (s : gmap nat Account) : Prop :=
  ∀ l a vs, s !! l = Some a → owner a = id → deserialize (data a) = Some vs →
    vote_ok (convert_to_current vs).

Lemma stored_ok_write k v (s s' : gmap nat Account) u :
  ka_set_state k (Current v) s = (s', Ok u) → (∀ a, s !! account k = Some a → owner a = id → vote_ok v) →
  wf_vote_state v → stored_ok s → stored_ok s'.
Proof.
  intros (a & Ha & Hl & ->)%ka_set_state_Ok Hv Hw Hs l b vs Hb Ho Hd.
  apply lookup_insert_Some in Hb as [[<- <-]|[_ Hb]]; [|by eapply Hs]. cbn in Ho, Hd.
  unfold deserialize in Hd. rewrite bincode_roundtrip in Hd by done. cbn in Hd. simplify_eq. eauto.
Qed.

Lemma stored_ok_lamports l x a (s : gmap nat Account) :
  s !! l = Some a → stored_ok s → stored_ok (<[l := set_lamports x a]> s).
Proof.
  intros Ha Hs l' b vs Hb Ho Hd. apply lookup_insert_Some in Hb as [[<- <-]|[_ Hb]]; eapply Hs; eauto.
Qed.

Lemma stored_ok_state k (s s' : gmap nat Account) vs :
  ka_state VoteStateVersions k s = (s', Ok vs) → stored_ok s →
  s' = s ∧ wf_vote_state (convert_to_current vs) ∧
  (∀ a, s !! account k = Some a → owner a = id → vote_ok (convert_to_current vs)).
Proof.
  intros Hst Hs. pose proof (ka_state_wf _ _ _ _ Hst) as Hw.
  apply ka_state_Ok in Hst as (-> & a & Ha & Hd).
  split_and!; [done|by apply wf_convert_to_current|]. intros b Hb Ho. eapply Hs; eauto. congruence.
Qed.
(** The methods that only touch the authorities keep the stack. *)
Lemma VoteState_inv_frame v v' :
  votes v' = votes v → root_slot v' = root_slot v → epoch_credits v' = epoch_credits v →
  VoteState_inv v → VoteState_inv v'.
Proof. unfold VoteState_inv, root_below. by intros -> -> ->. Qed.

Lemma get_and_update_frame e v v' r :
  get_and_update_authorized_voter e v = (v', r) →
  votes v' = votes v ∧ root_slot v' = root_slot v ∧ epoch_credits v' = epoch_credits v ∧
  prior_voters v' = prior_voters v.
Proof.
  unfold get_and_update_authorized_voter. intros H. st_compute H.
  destruct (get_and_cache_authorized_voter_for_epoch _ _) as [av o].
  destruct (ok_or o _); simplify_eq; [|done..].
  destruct (purge_authorized_voters av e); simplify_eq; done.
Qed.

Lemma set_new_frame new cur target verify v v' x :
  circ_ok (prior_voters v) → set_new_authorized_voter new cur target verify v = (v', Ok x) →
  votes v' = votes v ∧ root_slot v' = root_slot v ∧ epoch_credits v' = epoch_credits v ∧
  circ_ok (prior_voters v').
Proof.
  intros Hc Hrun. unfold set_new_authorized_voter in Hrun.
  apply st_bind_Ok in Hrun as (v1 & p & E1 & Hrun).
  apply get_and_update_frame in E1 as (Hv & Hr & He & Hp). st_inv.
  match goal with l : (Z * Z)%type |- _ => destruct l as [le lp] end.
  apply st_bind_Ok in Hrun as (v2 & u & Hput & Hrun). st_inv. cbn.
  destruct (lp =? new); cbn in Hput; st_inv; [by rewrite Hv, Hr, He, Hp|].
  destruct (le <? target); st_inv. cbn [votes root_slot epoch_credits prior_voters with_prior_voters].
  rewrite Hv, Hr, He, Hp. split_and!; [done..|]. by eapply (circ_ok_append (E:=VoteError)).
Qed.

Lemma vote_ok_default : vote_ok VoteState_default.
Proof.
  split_and!; [apply wf_VoteState_default| |].
  - split_and!; [apply tower_inv_nil|done|cbn; lia].
  - split; [done|]. unfold MAX_ITEMS. cbn. lia.
Qed.

Lemma authorize_stored_ok k p va signers c (s s' : gmap nat Account) u :
  is_key p → wf c → authorize k p va signers c s = (s', Ok u) → stored_ok s → stored_ok s'.
Proof.
  intros Hp Hc Hrun Hs. unfold authorize in Hrun. apply st_bind_Ok in Hrun as (s1 & vs & Hst & Hrun).
  apply stored_ok_state in Hst as (-> & Hw & Hok); [|done]. destruct va; st_inv.
  - match goal with H : set_new_authorized_voter _ _ _ _ _ = _ |- _ => rename H into Hset end.
    pose proof (wf_set_new_authorized_voter _ _ _ _ _ _ _ Hp (wc_epoch c Hc) (wrap64_range _) Hw Hset) as Hw'.
    eapply stored_ok_write; [done| |done..]. intros a Ha Ho.
    destruct (Hok a Ha Ho) as (_ & Hi & Hcirc).
    destruct (set_new_frame _ _ _ _ _ _ _ Hcirc Hset) as (? & ? & ? & ?).
    split_and!; [done|by eapply VoteState_inv_frame|done].
  - assert (Hw' : wf_vote_state (with_authorized_withdrawer p (convert_to_current vs)))
      by (destruct Hw; by split).
    eapply stored_ok_write; [done| |done..]. intros a Ha Ho.
    destruct (Hok a Ha Ho) as (_ & Hi & Hcirc). by split_and!.
Qed.

Lemma process_next_prior s e v : prior_voters (process_next_vote_slot s e v) = prior_voters v.
Proof.
  unfold process_next_vote_slot. destruct (match _ with Some _ => _ | None => _ end); [done|].
  set (w := pop_expired_votes s v). change (prior_voters v) with (prior_voters w).
  case_bool_decide; [|done]. by destruct (votes w).
Qed.

Lemma process_vote_prior vote sh e v v' r :
  VoteState_process_vote vote sh e v = (v', r) → prior_voters v' = prior_voters v.
Proof.
  intros Hp. destruct (process_vote_outcome _ _ _ _ _ _ Hp) as (Hnp & Herr & Hok).
  destruct r as [[]|err|]; [|by rewrite (Herr err eq_refl)|done]. rewrite Hok by done.
  clear. revert v. induction (vote_slots vote) as [|s l IH]; intros v; [done|].
  cbn. by rewrite IH, process_next_prior.
Qed.

Lemma process_timestamp_frame s t v v' r :
  process_timestamp s t v = (v', r) →
  votes v' = votes v ∧ root_slot v' = root_slot v ∧ epoch_credits v' = epoch_credits v ∧
  prior_voters v' = prior_voters v.
Proof.
  unfold process_timestamp. intros H. st_compute H. destruct (_ || _); st_compute H; by simplify_eq.
Qed.

Lemma max_slot_range l s : Forall is_u64 l → max_slot l = Some s → is_u64 s.
Proof.
  destruct 1 as [|x l Hx Hl]; [done|]. cbn. intros [= <-].
  revert x Hx. induction Hl as [|y l Hy Hl IH]; intros x Hx; [done|]. cbn. apply IH.
  unfold is_u64 in *. lia.
Qed.

(** What [process_vote] writes keeps the invariant of what it read. *)
Lemma process_vote_stored_ok k sh c vote signers (s s' : gmap nat Account) u :
  wf c → wf_vote vote → process_vote k sh c vote signers s = (s', Ok u) → stored_ok s → stored_ok s'.
Proof.
  intros Hc Hvote Hrun Hs. unfold process_vote in Hrun.
  apply st_bind_Ok in Hrun as (s1 & vs & Hst & Hrun).
  apply stored_ok_state in Hst as (-> & Hw & Hok); [|done]. st_inv.
  match goal with
  | H1 : get_and_update_authorized_voter _ _ = (?x1, _),
    H2 : VoteState_process_vote _ _ _ _ = (?x2, _) |- _ =>
      cbn in H2; rename H1 into Hg, H2 into Hp, x1 into v1, x2 into v2
  end.
  pose proof (wf_get_and_update _ _ _ _ (wc_epoch c Hc) Hw Hg) as Hw1.
  pose proof (wf_process_vote _ _ _ _ _ _ Hvote (wc_epoch c Hc) Hw1 Hp) as Hw2.
  destruct (get_and_update_frame _ _ _ _ Hg) as (Hf1 & Hf2 & Hf3 & Hf4).
  pose proof (process_vote_prior _ _ _ _ _ _ Hp) as Hf5.
  match goal with H : match vote_timestamp vote with _ => _ end _ = (?s1, Ok ?x) |- _ =>
    assert (Ht : s1 = s ∧ wf_vote_state x.2 ∧ votes x.2 = votes v2 ∧
      root_slot x.2 = root_slot v2 ∧ epoch_credits x.2 = epoch_credits v2 ∧
      prior_voters x.2 = prior_voters v2); [|destruct Ht as (-> & Hw3 & Hg1 & Hg2 & Hg3 & Hg4)]
  end.
  { destruct (vote_timestamp vote) as [t|] eqn:Et; st_inv; [|cbn; by split_and!].
    match goal with H : process_timestamp _ _ _ = _ |- _ => cbn in H; rename H into Hts end.
    pose proof (process_timestamp_frame _ _ _ _ _ Hts) as Hfr. destruct Hvote as (Hvs & _ & Hvt).
    rewrite Et in Hvt. split_and!; [done| |by apply Hfr..].
    eapply wf_process_timestamp; [|done..|exact Hts]. by eapply max_slot_range. }
  eapply stored_ok_write; [done| |done..]. intros a Ha Ho.
  destruct (Hok a Ha Ho) as (_ & Hi & Hcirc). split_and!; [done| |by rewrite Hg4, Hf5, Hf4].
  eapply VoteState_inv_frame; [done..|]. eapply process_vote_inv; [|exact Hp].
  by eapply VoteState_inv_frame.
Qed.
Lemma withdraw_stored_ok k amount to signers (s s' : gmap nat Account) u :
  withdraw k amount to signers s = (s', Ok u) → stored_ok s → stored_ok s'.
Proof.
  intros Hrun Hs. unfold withdraw in Hrun. apply st_bind_Ok in Hrun as (s1 & vs & Hst & Hrun).
  apply stored_ok_state in Hst as (-> & Hw & Hok); [|done]. acc_inv.
  match goal with H : match ?c with Eq => _ | Lt => _ | Gt => _ end ?s0 = (?s2, _) |- _ =>
    assert (Hs2 : stored_ok s2); [destruct c|] end.
  { eapply stored_ok_write; [done| |apply wf_VoteState_default|done]. intros. apply vote_ok_default. }
  { by acc_inv. }
  { by acc_inv. }
  match goal with H : ka_sub_lamports _ _ _ = _ |- _ => apply ka_sub_lamports_Ok in H as (? & ? & _ & ->) end.
  match goal with H : ka_add_lamports _ _ _ = _ |- _ => apply ka_add_lamports_Ok in H as (? & ? & _ & ->) end.
  apply stored_ok_lamports; [done|]. by apply stored_ok_lamports.
Qed.

Lemma update_stored_ok k vs v' (s s1 s' : gmap nat Account) u :
  ka_state VoteStateVersions k s = (s1, Ok vs) → ka_set_state k (Current v') s1 = (s', Ok u) →
  wf_vote_state v' →
  (VoteState_inv (convert_to_current vs) → VoteState_inv v') →
  prior_voters v' = prior_voters (convert_to_current vs) → stored_ok s → stored_ok s'.
Proof.
  intros Hst Hset Hw Hinv Hp Hs. apply stored_ok_state in Hst as (-> & _ & Hok); [|done].
  eapply stored_ok_write; [done| |done..]. intros a Ha Ho.
  destruct (Hok a Ha Ho) as (_ & Hi & Hcirc). split_and!; [done|auto|by rewrite Hp].
Qed.

Lemma initialize_stored_ok k vi signers c b (s s' : gmap nat Account) u :
  wf (InitializeAccount vi) → wf c → initialize_account k vi signers c b s = (s', Ok u) →
  stored_ok s → stored_ok s'.
Proof.
  intros (? & ? & ? & ?) Hc Hrun Hs. unfold initialize_account in Hrun. acc_inv.
  match goal with H : ka_state _ _ _ = _ |- _ => apply stored_ok_state in H as (-> & _ & _); [|done] end.
  assert (Hw : wf_vote_state (VoteState_new vi c)) by (apply wf_VoteState_new; [done..|apply Hc]).
  eapply stored_ok_write; [done| |done..]. intros _ _ _. split_and!; [done| |].
  - split_and!; [apply tower_inv_nil|done|cbn; lia].
  - split; [done|]. unfold MAX_ITEMS. cbn. lia.
Qed.

Ltac sysvar_inv :=
  repeat match goal with
  | H : from_keyed_account (list _) _ _ = (_, Ok _) |- _ => apply from_keyed_account_same in H as ->
  | H : from_keyed_account Rent _ _ = (_, Ok _) |- _ => apply from_keyed_account_same in H as ->
  | H : from_keyed_account Clock _ _ = (_, Ok _) |- _ => apply from_keyed_account_wf in H as [-> ?]
  end.

(** Opens a successful run of [process_instruction] up to the handler. *)
Ltac dispatch_inv Hrun :=
  unfold process_instruction in Hrun; acc_inv;
  match goal with H : (if _ then _ else _) ?s0 = (?s1, Ok _) |- _ =>
    assert (s1 = s0) as -> by (destruct (is_feature_active _ _); by acc_inv); clear H end;
  match goal with H : Ok ?i = limited_deserialize _ |- _ =>
    symmetry in H; pose proof (limited_deserialize_wf _ _ H) as Hwf; destruct i end;
  acc_inv; sysvar_inv.

(** C16. The vote program keeps its accounts well formed: if every account it
    owns holds a state with the stack invariant and in-range fields, then so
    it is after any instruction that succeeds.  The keys of the accounts are
    of 32 bytes. *)
Theorem vote_accounts_ok ic d (s s' : gmap nat Account) u :
  keys_ok (get_keyed_accounts ic) → stored_ok s →
  process_instruction ic d s = (s', Ok u) → stored_ok s'.
Proof.
  intros Hk Hs Hrun. dispatch_inv Hrun.
  - unfold verify_rent_exemption in *. acc_inv. sysvar_inv. by eapply initialize_stored_ok.
  - by eapply authorize_stored_ok.
  - by eapply process_vote_stored_ok.
  - by eapply withdraw_stored_ok.
  - unfold update_validator_identity in Hrun. acc_inv.
    match goal with H : ka_state _ _ _ = _ |- _ => pose proof (ka_state_wf _ _ _ _ H) as Hw end.
    apply wf_convert_to_current in Hw. eapply update_stored_ok; [done|done| |done..].
    destruct Hw; split; try done. by eapply (proj1 (Forall_lookup _ _) Hk).
  - unfold update_commission in Hrun. acc_inv.
    match goal with H : ka_state _ _ _ = _ |- _ => pose proof (ka_state_wf _ _ _ _ H) as Hw end.
    apply wf_convert_to_current in Hw. eapply update_stored_ok; [done|done| |done..]. by destruct Hw.
  - eapply process_vote_stored_ok; [done|apply Hwf|done..].
  - destruct (is_feature_active _ _); acc_inv. sysvar_inv. eapply authorize_stored_ok; [|done..].
    match goal with H : signer_key _ = _ |- _ => apply signer_key_Some in H as [_ <-] end.
    by eapply (proj1 (Forall_lookup _ _) Hk).
Qed.

(** How the handlers other than [withdraw] act on the store: one write of the
    state of the vote account. *)
Definition one_write (k : KeyedAccount) (s s' : gmap nat Account) : Prop :=
  ∃ v : VoteState, ka_set_state k (Current v) s = (s', Ok tt).

Ltac state_inv :=
  repeat match goal with
  | H : ka_state VoteStateVersions _ _ = (_, Ok _) |- _ => apply ka_state_Ok in H as (-> & ? & ? & ?)
  end.

Lemma authorize_one_write k p va signers c (s s' : gmap nat Account) u :
  authorize k p va signers c s = (s', Ok u) → one_write k s s'.
Proof. unfold authorize. intros H. acc_inv. destruct va; acc_inv; state_inv; by eexists. Qed.

Lemma process_vote_one_write k sh c vote signers (s s' : gmap nat Account) u :
  process_vote k sh c vote signers s = (s', Ok u) → one_write k s s'.
Proof.
  unfold process_vote. intros H. acc_inv. state_inv.
  destruct (vote_timestamp vote); acc_inv; by eexists.
Qed.

Lemma one_write_total k s s' : one_write k s s' → total_lamports s' = total_lamports s.
Proof. intros [v H]. exact (ka_set_state_total _ _ _ _ _ H). Qed.

(** Every successful instruction is one state write, or a withdrawal. *)
Lemma process_instruction_effect ic d (s s' : gmap nat Account) u :
  process_instruction ic d s = (s', Ok u) →
  ∃ me, get_keyed_accounts ic !! 0%nat = Some me ∧
    (one_write me s s' ∨
     ∃ amount to, get_keyed_accounts ic !! 1%nat = Some to ∧
       withdraw me amount to (get_signers (get_keyed_accounts ic)) s = (s', Ok u)).
Proof.
  intros Hrun. dispatch_inv Hrun; eexists; (split; [done|]).
  - left. unfold verify_rent_exemption in *. acc_inv. sysvar_inv.
    unfold initialize_account in Hrun. acc_inv. state_inv. by eexists.
  - left. by eapply authorize_one_write.
  - left. by eapply process_vote_one_write.
  - right. eauto.
  - left. unfold update_validator_identity in Hrun. acc_inv. state_inv. by eexists.
  - left. unfold update_commission in Hrun. acc_inv. state_inv. by eexists.
  - left. by eapply process_vote_one_write.
  - left. destruct (is_feature_active _ _); acc_inv. sysvar_inv. by eapply authorize_one_write.
Qed.

Lemma withdraw_total k amount to signers (s s' : gmap nat Account) u :
  withdraw k amount to signers s = (s', Ok u) → total_lamports s' = total_lamports s.
Proof.
  unfold withdraw. intros H. acc_inv. state_inv.
  rewrite (transfer_total _ _ _ _ _ _ _ _ ltac:(eassumption) ltac:(eassumption)).
  match goal with H : match ?c with Eq => _ | Lt => _ | Gt => _ end _ = _ |- _ => destruct c end; acc_inv;
    [by eapply (ka_set_state_total (T:=VoteStateVersions))|done].
Qed.

(** Lamports are neither created nor destroyed by the vote program: the
    total over all accounts is the same after every successful instruction,
    also when the destination of a withdrawal is the vote account itself. *)
Theorem vote_lamports_conserved ic d (s s' : gmap nat Account) u :
  process_instruction ic d s = (s', Ok u) → total_lamports s' = total_lamports s.
Proof.
  intros (me & _ & [Hw|(amount & to & _ & Hw)])%process_instruction_effect;
    [by eapply one_write_total|by eapply withdraw_total].
Qed.

(** The fields only the withdraw authority may change. *)
Definition same_identity (v v' : VoteState) : Prop :=
  node_pubkey v' = node_pubkey v ∧ authorized_withdrawer v' = authorized_withdrawer v ∧
  commission v' = commission v.

Lemma same_identity_trans v1 v2 v3 :
  same_identity v1 v2 → same_identity v2 v3 → same_identity v1 v3.
Proof. unfold same_identity. intuition congruence. Qed.

Lemma get_and_update_identity e v v' r :
  get_and_update_authorized_voter e v = (v', r) → same_identity v v'.
Proof.
  unfold get_and_update_authorized_voter. intros H. st_compute H.
  destruct (get_and_cache_authorized_voter_for_epoch _ _) as [av o].
  destruct (ok_or o _); simplify_eq; [|done..].
  destruct (purge_authorized_voters av e); simplify_eq; done.
Qed.

Lemma get_and_update_voter e v v' p :
  get_and_update_authorized_voter e v = (v', Ok p) →
  get_authorized_voter (authorized_voters v) e = Some p.
Proof.
  unfold get_and_update_authorized_voter, get_and_cache_authorized_voter_for_epoch,
    get_authorized_voter. intros H. st_compute H.
  destruct (get_or_calculate_authorized_voter_for_epoch _ _) as [[q b]|]; simplify_eq/=.
  destruct (purge_authorized_voters _ _); by simplify_eq.
Qed.

Lemma set_new_identity new cur target verify v v' u :
  set_new_authorized_voter new cur target verify v = (v', Ok u) →
  same_identity v v' ∧
  ∃ p, get_authorized_voter (authorized_voters v) cur = Some p ∧ verify p = Ok tt.
Proof.
  unfold set_new_authorized_voter. intros H. acc_inv.
  match goal with H : get_and_update_authorized_voter _ _ = _ |- _ =>
    pose proof (get_and_update_identity _ _ _ _ H) as Hid; apply get_and_update_voter in H end.
  match goal with l : (Z * Z)%type |- _ => destruct l as [le lp] end.
  apply st_bind_Ok in H as (v2 & u & Hput & H). acc_inv. split; [|eauto].
  destruct (lp =? new); cbn in Hput; acc_inv; [done|]. by destruct (le <? target); acc_inv.
Qed.

Lemma process_next_identity s e v : same_identity v (process_next_vote_slot s e v).
Proof.
  unfold process_next_vote_slot. destruct (match _ with Some _ => _ | None => _ end); [done|].
  set (w := pop_expired_votes s v). change (same_identity v) with (same_identity w).
  case_bool_decide; [|done]. by destruct (votes w).
Qed.

Lemma process_vote_identity vote sh e v v' r :
  VoteState_process_vote vote sh e v = (v', r) → same_identity v v'.
Proof.
  intros Hp. destruct (process_vote_outcome _ _ _ _ _ _ Hp) as (Hnp & Herr & Hok).
  destruct r as [[]|err|]; [|by rewrite (Herr err eq_refl)|done]. rewrite Hok by done.
  clear. revert v. induction (vote_slots vote) as [|s l IH]; intros v; [done|].
  eapply same_identity_trans; [apply process_next_identity|apply IH].
Qed.

Lemma process_timestamp_identity s t v v' r : process_timestamp s t v = (v', r) → same_identity v v'.
Proof.
  unfold process_timestamp. intros H. st_compute H. destruct (_ || _); st_compute H; by simplify_eq.
Qed.

Lemma verify_authorized_signer_Ok p signers u :
  verify_authorized_signer p signers = Ok u ↔ p ∈ signers.
Proof.
  destruct u. unfold verify_authorized_signer, ensure. case_bool_decide; naive_solver.
Qed.

(** What a signature of the voter the state schedules allows. *)
Definition voter_write (k : KeyedAccount) (v : VoteState) (signers : list Pubkey)
    (s s' : gmap nat Account) : Prop :=
  ∃ v' e p, ka_set_state k (Current v') s = (s', Ok tt) ∧ same_identity v v' ∧
    get_authorized_voter (authorized_voters v) e = Some p ∧ p ∈ signers.

Ltac signer_inv :=
  repeat match goal with
  | H : Ok _ = verify_authorized_signer _ _ |- _ => symmetry in H; apply verify_authorized_signer_Ok in H
  | H : verify_authorized_signer _ _ = Ok _ |- _ => apply verify_authorized_signer_Ok in H
  end.

Lemma authorize_authority k p va signers c (s s' : gmap nat Account) u a vs :
  authorize k p va signers c s = (s', Ok u) →
  s !! account k = Some a → deserialize (data a) = Some vs →
  authorized_withdrawer (convert_to_current vs) ∈ signers ∨
  voter_write k (convert_to_current vs) signers s s'.
Proof.
  unfold authorize. intros H Ha Hd. acc_inv. state_inv. simplify_eq. destruct va; acc_inv; signer_inv.
  - right. match goal with H : set_new_authorized_voter _ _ _ _ _ = _ |- _ =>
      apply set_new_identity in H as (? & q & ? & ?) end. signer_inv. by eexists _, _, q.
  - by left.
Qed.

Lemma process_vote_authority k sh c vote signers (s s' : gmap nat Account) u a vs :
  process_vote k sh c vote signers s = (s', Ok u) →
  s !! account k = Some a → deserialize (data a) = Some vs →
  voter_write k (convert_to_current vs) signers s s'.
Proof.
  unfold process_vote. intros H Ha Hd. acc_inv. state_inv. simplify_eq. cbn [fst snd] in *. signer_inv.
  repeat match goal with
  | H : get_and_update_authorized_voter _ _ = _ |- _ =>
      pose proof (get_and_update_identity _ _ _ _ H); apply get_and_update_voter in H
  | H : VoteState_process_vote _ _ _ _ = _ |- _ => apply process_vote_identity in H
  end.
  destruct (vote_timestamp vote); acc_inv; cbn [fst snd] in *.
  - match goal with H : process_timestamp _ _ _ = _ |- _ => apply process_timestamp_identity in H end.
    eexists _, _, _. split_and!; [done| |done..]. eauto using same_identity_trans.
  - eexists _, _, _. split_and!; [done| |done..]. eauto using same_identity_trans.
Qed.

(** C17. Who may do what to a vote account.  After a successful instruction
    either its withdraw authority signed; or the voter its schedule names for
    some epoch signed, and then no balance changed and the node, the withdraw
    authority and the commission are as before; or the account was not yet
    initialized, and then the node named in its new state signed. *)
Theorem vote_authority ic d (s s' : gmap nat Account) u me a vs :
  process_instruction ic d s = (s', Ok u) →
  get_keyed_accounts ic !! 0%nat = Some me → s !! account me = Some a →
  deserialize (data a) = Some vs →
  let signers := get_signers (get_keyed_accounts ic) in
  authorized_withdrawer (convert_to_current vs) ∈ signers ∨
  voter_write me (convert_to_current vs) signers s s' ∨
  is_uninitialized vs = true ∧
    ∃ vi c, ka_set_state me (Current (VoteState_new vi c)) s = (s', Ok tt) ∧
            init_node_pubkey vi ∈ signers.
Proof.
  intros Hrun Hme Ha Hd signers. dispatch_inv Hrun; simplify_eq.
  - unfold verify_rent_exemption, initialize_account in *. acc_inv. sysvar_inv. state_inv.
    simplify_eq. signer_inv. right. right. eauto.
  - edestruct authorize_authority; eauto.
  - right. left. by eapply process_vote_authority.
  - unfold withdraw in Hrun. acc_inv. state_inv. simplify_eq. signer_inv. by left.
  - unfold update_validator_identity in Hrun. acc_inv. state_inv. simplify_eq. signer_inv. by left.
  - unfold update_commission in Hrun. acc_inv. state_inv. simplify_eq. signer_inv. by left.
  - right. left. by eapply process_vote_authority.
  - destruct (is_feature_active _ _); acc_inv. sysvar_inv. edestruct authorize_authority; eauto.
Qed.
End properties.

(** ** A concrete vote account

    The codecs are instantiated, and a vote account is taken through a vote, a
    withdrawal into itself and a change of voter. *)


Definition vote_of (p : list Z * Z * option Z) : Vote := mkVote p.1.1 p.1.2 p.2.
Definition of_vote (v : Vote) := (vote_slots v, vote_hash v, vote_timestamp v).
Definition auth_of (b : bool) : VoteAuthorize := if b then Voter else Withdrawer.
Definition of_auth (a : VoteAuthorize) : bool := match a with Voter => true | Withdrawer => false end.

#[export] Instance VoteInstruction_serial : Serial VoteInstruction.
Proof.
  refine (inj_serial'
    (λ i, match i with
     | InitializeAccount (mkVoteInit a b c d) => inl (inl (inl (a, b, c, d)))
     | Authorize p a => inl (inl (inr (p, of_auth a)))
     | VoteIx v => inl (inr (inl (of_vote v)))
     | Withdraw l => inl (inr (inr l))
     | UpdateValidatorIdentity => inr (inl (inl tt))
     | UpdateCommission c => inr (inl (inr c))
     | VoteSwitch v h => inr (inr (inl (of_vote v, h)))
     | AuthorizeChecked a => inr (inr (inr (of_auth a)))
     end)
    (λ x, match x with
     | inl (inl (inl (a, b, c, d))) => InitializeAccount (mkVoteInit a b c d)
     | inl (inl (inr (p, a))) => Authorize p (auth_of a)
     | inl (inr (inl v)) => VoteIx (vote_of v)
     | inl (inr (inr l)) => Withdraw l
     | inr (inl (inl _)) => UpdateValidatorIdentity
     | inr (inl (inr c)) => UpdateCommission c
     | inr (inr (inl (v, h))) => VoteSwitch (vote_of v) h
     | inr (inr (inr a)) => AuthorizeChecked (auth_of a)
     end) _).
  abstract (by intros [[]|? []|[]| | | |[] ?|[]]).
Defined.

#[export] Instance wf_vote_dec v : Decision (wf_vote v).
Proof. unfold wf_vote. destruct (vote_timestamp v); apply _. Defined.
#[export] Instance wf_instruction_dec (i : VoteInstruction) : Decision (wf i).
Proof. destruct i; cbn; apply _. Defined.
#[export] Instance wf_SlotHashes : Wf (list (Z * Z)) := Forall (λ x, is_u64 x.1 ∧ is_key x.2).
#[export] Instance wf_SlotHashes_dec (l : list (Z * Z)) : Decision (wf l).
Proof. unfold wf, wf_SlotHashes. apply _. Defined.

Module example.
#[export] Instance versions_codec : Codec VoteStateVersions := serial_codec _.
#[export] Instance clock_codec : Codec Clock := serial_codec _.
#[export] Instance slot_hashes_codec : Codec (list (Z * Z)) := serial_codec _.
#[export] Instance instruction_codec : Codec VoteInstruction := serial_codec _.
#[export] Instance rent_codec : Codec Rent := Build_Codec Rent (λ _, []) (λ l, Some (Rent_default, l)).
#[export] Instance versions_ok : CodecOk VoteStateVersions := serial_codec_ok _.
#[export] Instance clock_ok : CodecOk Clock := serial_codec_ok _.
#[export] Instance instruction_ok : CodecOk VoteInstruction := serial_codec_ok _.

Definition clock : Clock := mkClock 7 0 1 2 100.
Definition voter : Pubkey := 5.
Definition withdrawer : Pubkey := 6.
Definition state : VoteState := VoteState_new (mkVoteInit 4 voter withdrawer 10) clock.

Definition store : gmap nat Account :=
  {[ 0%nat := mkAccount 50 (bincode_ser (Current state) ++ replicate 4000 Byte.x00) id false 0;
     1%nat := mkAccount 1 (bincode_ser [(5, 9); (3, 8)]) 0 false 0;
     2%nat := mkAccount 1 (bincode_ser clock) 0 false 0 ]}.

Definition accounts (p : Pubkey) : list KeyedAccount :=
  [ mkKeyed false true 3 0; mkKeyed false false sysvar_slot_hashes_id 1;
    mkKeyed false false sysvar_clock_id 2; mkKeyed true false p 3 ].

Definition self_accounts : list KeyedAccount :=
  [ mkKeyed false true 3 0; mkKeyed false true 3 0; mkKeyed true false withdrawer 3 ].

Definition vote_data : list Byte.byte := bincode_ser (VoteIx (mkVote [3; 5] 9 (Some 42))).
Definition withdraw_data : list Byte.byte := bincode_ser (Withdraw 20).

Definition vote_ic : InvokeContext := mkInvokeContext (accounts voter) (λ _, true) (λ _, None).
Definition withdraw_ic : InvokeContext := mkInvokeContext self_accounts (λ _, true) (λ _, None).

Lemma store_0 :
  store !! 0%nat = Some (mkAccount 50 (bincode_ser (Current state) ++ replicate 4000 Byte.x00) id false 0).
Proof. reflexivity. Qed.

Lemma state_wf : wf_vote_state state.
Proof. by apply (bool_decide_unpack (wf_vote_state state)); vm_compute. Qed.

Lemma state_de pad : deserialize (bincode_ser (Current state) ++ pad) = Some (Current state).
Proof. unfold deserialize. by rewrite bincode_roundtrip by apply state_wf. Qed.

Lemma store_ok : stored_ok store.
Proof.
  intros l a vs Hl Ho Hd. unfold store in Hl.
  repeat (apply lookup_insert_Some in Hl as [[<- <-]|[_ Hl]]); [|done..|].
  - cbn [data] in Hd. rewrite state_de in Hd. simplify_eq. split_and!; [apply state_wf| |].
    + split_and!; [apply tower_inv_nil|done|cbn; lia].
    + split; [done|]. unfold MAX_ITEMS. cbn. lia.
  - by apply lookup_singleton_Some in Hl as [<- <-].
Qed.

Lemma vote_accounts_ok_witness :
  (process_instruction vote_ic vote_data store).2 = Ok tt ∧
  stored_ok (process_instruction vote_ic vote_data store).1.
Proof.
  assert (H : (process_instruction vote_ic vote_data store).2 = Ok tt) by (vm_compute; reflexivity).
  split; [exact H|].
  refine (vote_accounts_ok vote_ic vote_data store _ tt _ store_ok (run_ok _ _ _ H)).
  apply (bool_decide_unpack (Forall _ _)). vm_compute. exact I.
Defined.

Lemma vote_lamports_conserved_witness :
  (process_instruction withdraw_ic withdraw_data store).2 = Ok tt ∧
  total_lamports (process_instruction withdraw_ic withdraw_data store).1 = 52.
Proof.
  assert (H : (process_instruction withdraw_ic withdraw_data store).2 = Ok tt)
    by (vm_compute; reflexivity).
  split; [exact H|].
  rewrite (vote_lamports_conserved withdraw_ic withdraw_data store _ tt (run_ok _ _ _ H)).
  vm_compute. reflexivity.
Defined.

Lemma vote_authority_witness :
  (process_instruction vote_ic vote_data store).2 = Ok tt ∧
  (withdrawer ∈ get_signers (accounts voter) ∨
   voter_write (mkKeyed false true 3 0) state (get_signers (accounts voter)) store
     (process_instruction vote_ic vote_data store).1 ∨
   is_uninitialized (Current state) = true ∧
     ∃ vi c, ka_set_state (mkKeyed false true 3 0) (Current (VoteState_new vi c)) store =
               ((process_instruction vote_ic vote_data store).1, Ok tt) ∧
             init_node_pubkey vi ∈ get_signers (accounts voter)).
Proof.
  assert (H : (process_instruction vote_ic vote_data store).2 = Ok tt) by (vm_compute; reflexivity).
  split; [exact H|].
  exact (vote_authority vote_ic vote_data store _ tt _ _ (Current state) (run_ok _ _ _ H)
           eq_refl store_0 (state_de _)).
Defined.
End example.
End vote_program.
