(* ===== verification/Bank.v ===== *)
(** * The bank: from a batch of transactions to the accounts

    Models the path of a batch through [runtime/src/bank.rs] and
    [runtime/src/accounts.rs]: the checks of age and of the status cache, the
    loading of accounts with the collection of fee and rent, the execution of
    the messages, and the commit with its nonce rollback, its rent and its
    fees.

    The accounts a bank sees are a map from keys to accounts; the accounts
    database keeps them.  The message processor is an interface here
    ([Executor]); [BankExecutor] implements it with the processor's model.
    Executor caches, logs, timings, error counters and the caches of stake and
    vote accounts are not modelled. *)

From S2P Require Import Prelude F64 Account Features Sysvar Message Fees System Transaction AccountLocks StatusCache MessageProcessor VoteState VoteProgram.
From Stdlib Require Import Strings.Byte.

(** What the bank asks of the message processor: run a message on its loaded
    accounts, with the accounts of its programs and the compute units. *)
Class Executor : Type :=
  process_message : message.Message → list (list (Pubkey * Account)) → list (Pubkey * Account) → Z →
    list (Pubkey * Account) * res transaction.TransactionError unit.

Module bank.
Import message fees system_program nonce transaction account_locks status_cache.
Import message_processor(UpgradeableLoaderState, ULS_Uninitialized, ULS_Buffer, ULS_Program, ULS_ProgramData).
Import vote_program(VoteInstruction, VoteIx, VoteSwitch).

Inductive ClusterType : Type := Testnet | MainnetBeta | Devnet | Development.
#[export] Instance ClusterType_eq_dec : EqDecision ClusterType.
Proof. solve_decision. Defined.

(** What stays fixed while a bank processes transactions. *)
Record BankConfig : Type := mkBankConfig {
  bank_slot : Slot;
  bank_epoch : Epoch;
  bank_ancestors : gset Slot;
  cluster_type : ClusterType;
  feature_active : Pubkey → bool;
  rent_collector : RentCollector;
  compute_budget_units : option Z;
}.

Record Bank : Type := mkBank {
  accounts : gmap Pubkey Account;
  blockhash_queue : BlockhashQueue;
  bank_status_cache : StatusCache (Result unit);
  collector_fees : Z;
  collected_rent : Z;
  transaction_count : Z;
  signature_count : Z;
  transaction_error_count : Z;
  transaction_entries_count : Z;
  transactions_per_entry_max : Z;
  is_delta : bool;
  freeze_started : bool;
}.

Definition with_accounts (a : gmap Pubkey Account) (b : Bank) : Bank :=
  mkBank a (blockhash_queue b) (bank_status_cache b) (collector_fees b) (collected_rent b) (transaction_count b)
    (signature_count b) (transaction_error_count b) (transaction_entries_count b) (transactions_per_entry_max b)
    (is_delta b) (freeze_started b).
Definition with_status_cache (c : StatusCache (Result unit)) (b : Bank) : Bank :=
  mkBank (accounts b) (blockhash_queue b) c (collector_fees b) (collected_rent b) (transaction_count b)
    (signature_count b) (transaction_error_count b) (transaction_entries_count b) (transactions_per_entry_max b)
    (is_delta b) (freeze_started b).
Definition add_collector_fees (n : Z) (b : Bank) : Bank :=
  mkBank (accounts b) (blockhash_queue b) (bank_status_cache b) (add64 (collector_fees b) n) (collected_rent b)
    (transaction_count b) (signature_count b) (transaction_error_count b) (transaction_entries_count b)
    (transactions_per_entry_max b) (is_delta b) (freeze_started b).
Definition add_collected_rent (n : Z) (b : Bank) : Bank :=
  mkBank (accounts b) (blockhash_queue b) (bank_status_cache b) (collector_fees b) (add64 (collected_rent b) n)
    (transaction_count b) (signature_count b) (transaction_error_count b) (transaction_entries_count b)
    (transactions_per_entry_max b) (is_delta b) (freeze_started b).
(** The counters of [commit_transactions]. *)
Definition count_transactions (tx_count sig_count processed : Z) (delta : bool) (b : Bank) : Bank :=
  let some := negb (processed =? 0) in
  mkBank (accounts b) (blockhash_queue b) (bank_status_cache b) (collector_fees b) (collected_rent b)
    (add64 (transaction_count b) tx_count) (add64 (signature_count b) sig_count)
    (if some then add64 (transaction_error_count b) (saturating_sub processed tx_count) else transaction_error_count b)
    (if some then add64 (transaction_entries_count b) 1 else transaction_entries_count b)
    (if some then Z.max (transactions_per_entry_max b) processed else transactions_per_entry_max b)
    (is_delta b || delta) (freeze_started b).

(** ** The accounts database *)

(** A stored account without lamports is an empty one. *)
Definition db_store (k : Pubkey) (a : Account) (m : gmap Pubkey Account) : gmap Pubkey Account :=
  <[k := if lamports a =? 0 then Account_default else a]> m.
Definition db_store_all (l : list (Pubkey * Account)) (m : gmap Pubkey Account) : gmap Pubkey Account :=
  foldl (λ m x, db_store x.1 x.2 m) m l.

(** [Bank::get_account]: accounts without lamports do not exist. *)
Definition get_account (k : Pubkey) (m : gmap Pubkey Account) : option Account :=
  a ← m !! k; if 0 <? lamports a then Some a else None.

(** ** Loading *)

Definition RentDebits : Type := list (Pubkey * (Z * Z)).
Definition push_rent_debit (k : Pubkey) (rent post_balance : Z) (l : RentDebits) : RentDebits :=
  if negb (rent =? 0) && (rent <=? i64_max) then l ++ [(k, (- rent, post_balance))] else l.

Record LoadedTransaction : Type := mkLoaded {
  lt_accounts : list (Pubkey * Account);
  lt_loaders : list (list (Pubkey * Account));
  lt_rent : Z;
  lt_rent_debits : RentDebits;
}.

(** The rollbacks of a durable nonce: the nonce account, and the fee payer's
    account if that is another one. *)
Record NonceRollbackPartial : Type := mkNonceRollbackPartial {
  np_address : Pubkey;
  np_account : Account;
}.
Record NonceRollbackFull : Type := mkNonceRollbackFull {
  nf_address : Pubkey;
  nf_account : Account;
  nf_fee_account : option Account;
}.

Definition TransactionCheckResult : Type := Result unit * option NonceRollbackPartial.
Definition TransactionLoadResult : Type := Result LoadedTransaction * option NonceRollbackFull.
Definition TransactionExecutionResult : Type := Result unit * option NonceRollbackFull.

Section bank.
Context `{!Codec Versions, !Codec SystemInstruction, !Codec UpgradeableLoaderState}.
Context (cfg : BankConfig).

Definition rent_for_sysvars : bool := feature_active cfg feature_set.rent_for_sysvars.

Definition construct_instructions_account (m : Message) : option Account :=
  data ← serialize_instructions m;
  Some (set_data (data ++ [x00; x00]) Account_default).

(** One account of a message: the account, the rent collected, and the account
    of the program's data. *)
Definition load_key (db : gmap Pubkey Account) (m : Message) (i : nat) (key : Pubkey)
    : Result (Account * Z * option (Pubkey * Account)) :=
  if negb (is_non_loader_key m i) then Ok (Account_default, 0, None)
  else if (key =? sysvar_instructions_id) && feature_active cfg feature_set.instructions_sysvar_enabled then
    w ← unwrap (message_is_writable m i);
    ensure (negb w) InvalidAccountIndex;;
    a ← unwrap (construct_instructions_account m);
    Ok (a, 0, None)
  else
    '(account, rent) ←
      match db !! key with
      | Some a =>
          w ← unwrap (message_is_writable m i);
          if w : bool then
            let '(rent_due, a) := collect_from_existing_account (rent_collector cfg) key a rent_for_sysvars in
            Ok (a, rent_due)
          else Ok (a, 0)
      | None => Ok (Account_default, 0)
      end;
    dep ←
      (if executable account && (owner account =? bpf_loader_upgradeable_id) then
         match account_state account with
         | Ok (ULS_Program programdata_address) =>
             match db !! programdata_address with
             | Some a => Ok (Some (programdata_address, a))
             | None => Err ProgramAccountNotFound
             end
         | _ => Err InvalidProgramForExecution
         end
       else Ok None);
    Ok (account, rent, dep).

(** The loop over the keys, from index [i]. *)
Fixpoint load_keys (db : gmap Pubkey Account) (m : Message) (i : nat) (keys : list Pubkey)
    : Result (list (Pubkey * Account) * list (Pubkey * Account) * Z * RentDebits) :=
  match keys with
  | [] => Ok ([], [], 0, [])
  | key :: keys' =>
      '(account, rent, dep) ← load_key db m i key;
      '(accs, deps, total, debits) ← load_keys db m (S i) keys';
      Ok ((key, account) :: accs, option_list dep ++ deps, add64 rent total,
          push_rent_debit key rent (lamports account) [] ++ debits)
  end.

(** The chain of programs that load a program, outermost first; at most five. *)
Fixpoint load_executables (db : gmap Pubkey Account) (depth : nat) (program_id : Pubkey) (acc : list (Pubkey * Account))
    : Result (list (Pubkey * Account)) :=
  if program_id =? native_loader_id then Ok acc
  else match depth with
  | O => Err CallChainTooDeep
  | S depth' =>
      program ← ok_or (db !! program_id) ProgramAccountNotFound;
      ensure (executable program) InvalidProgramForExecution;;
      acc ←
        (if owner program =? bpf_loader_upgradeable_id then
           match account_state program with
           | Ok (ULS_Program programdata_address) =>
               match db !! programdata_address with
               | Some a => Ok ((programdata_address, a) :: acc)
               | None => Err ProgramAccountNotFound
               end
           | _ => Err InvalidProgramForExecution
           end
         else Ok acc);
      load_executables db depth' (owner program) ((program_id, program) :: acc)
  end.
Definition load_executable_accounts (db : gmap Pubkey Account) (program_id : Pubkey) : Result (list (Pubkey * Account)) :=
  load_executables db 5 program_id [].

Fixpoint load_loaders (db : gmap Pubkey Account) (m : Message) (cis : list CompiledInstruction)
    : Result (list (list (Pubkey * Account))) :=
  match cis with
  | [] => Ok []
  | ci :: cis' =>
      program_id ← ok_or (account_keys m !! program_id_index ci) AccountNotFound;
      l ← load_executable_accounts db program_id;
      ls ← load_loaders db m cis';
      Ok (l :: ls)
  end.

(** The first key that is not only a program. *)
Definition payer_index (m : Message) : option nat :=
  fst <$> list_find (λ i, is_non_loader_key m i = true) (seq 0 (length (account_keys m))).

(** The fee payer after the fee. *)
Definition charge_fee (fee : Z) (payer : Account) : Result Account :=
  ensure (negb (lamports payer =? 0)) AccountNotFound;;
  kind ← ok_or (get_system_account_kind payer) InvalidAccountForFee;
  let min_balance :=
    match kind with
    | System => 0
    | Nonce => minimum_balance (rc_rent (rent_collector cfg)) State_size
    end in
  ensure (negb (lamports payer <? add64 fee min_balance)) InsufficientFundsForFee;;
  map_err (λ _, InsufficientFundsForFee) (checked_sub_lamports fee payer).

Definition load_transaction (db : gmap Pubkey Account) (tx : SanitizedTransaction) (fee : Z) : Result LoadedTransaction :=
  let m := st_message tx in
  ensure (negb (bool_decide (st_signatures tx = []) && negb (fee =? 0))) MissingSignatureForFee;;
  '(accs, deps, rent, debits) ← load_keys db m 0 (account_keys m);
  let accs := accs ++ deps in
  match payer_index m with
  | None => Err AccountNotFound
  | Some p =>
      x ← unwrap (accs !! p);
      payer ← charge_fee fee x.2;
      loaders ← load_loaders db m (instructions m);
      Ok (mkLoaded (<[p := (x.1, payer)]> accs) loaders rent debits)
  end.

Definition from_partial (partial : NonceRollbackPartial) (m : Message) (accs : list (Pubkey * Account))
    : Result NonceRollbackFull :=
  match list_find (λ i, is_Some (accs !! i) ∧ is_non_loader_key m i = true) (seq 0 (length (account_keys m))) with
  | None => Err AccountNotFound
  | Some (_, i) =>
      x ← unwrap (accs !! i);
      if x.1 =? np_address partial then Ok (mkNonceRollbackFull (np_address partial) x.2 None)
      else Ok (mkNonceRollbackFull (np_address partial) (np_account partial) (Some x.2))
  end.

Definition load_one (db : gmap Pubkey Account) (q : BlockhashQueue) (tx : SanitizedTransaction)
    (c : TransactionCheckResult) : TransactionLoadResult :=
  match c with
  | (Ok _, nonce_rollback) =>
      let fee_calculator :=
        match nonce_rollback with
        | Some n => fee_calculator_of (np_account n)
        | None => get_fee_calculator q (recent_blockhash (st_message tx))
        end in
      match fee_calculator with
      | None => (Err BlockhashNotFound, None)
      | Some fc =>
          match load_transaction db tx (calculate_fee fc (st_message tx)) with
          | Ok loaded =>
              match nonce_rollback with
              | None => (Ok loaded, None)
              | Some n =>
                  match from_partial n (st_message tx) (lt_accounts loaded) with
                  | Ok full => (Ok loaded, Some full)
                  | Err e => (Err e, None)
                  | Panic => (Panic, None)
                  end
              end
          | Err e => (Err e, None)
          | Panic => (Panic, None)
          end
      end
  | (Err e, _) => (Err e, None)
  | (Panic, _) => (Panic, None)
  end.

Definition load_accounts (db : gmap Pubkey Account) (q : BlockhashQueue) (txs : list SanitizedTransaction)
    (checks : list TransactionCheckResult) : list TransactionLoadResult :=
  zip_with (load_one db q) txs checks.

(** ** Checking *)

Context `{!Codec VoteInstruction} `{!Executor}.
(** [borsh] decodes the requests of the compute budget program. *)
Context (borsh : list byte → option Z).

Definition check_tx_durable_nonce (db : gmap Pubkey Account) (m : Message) : option (Pubkey * Account) :=
  ix ← uses_durable_nonce m;
  k ← get_nonce_pubkey_from_instruction ix m;
  a ← get_account k db;
  if verify_nonce_account a (recent_blockhash m) then Some (k, a) else None.

Definition check_age (b : Bank) (max_age : nat) (tx : SanitizedTransaction) (lock_res : Result unit) : TransactionCheckResult :=
  match lock_res with
  | Ok _ =>
      let m := st_message tx in
      let hash_age := check_hash_age (blockhash_queue b) (recent_blockhash m) max_age in
      if bool_decide (hash_age = Some true) then (Ok tt, None)
      else match check_tx_durable_nonce (accounts b) m with
           | Some (k, a) => (Ok tt, Some (mkNonceRollbackPartial k a))
           | None => (Err BlockhashNotFound, None)
           end
  | Err e => (Err e, None)
  | Panic => (Panic, None)
  end.

Definition is_tx_already_processed (b : Bank) (tx : SanitizedTransaction) : option bool :=
  status ← get_status (key_bytes (message_hash tx)) (recent_blockhash (st_message tx)) (bank_ancestors cfg) (bank_status_cache b);
  Some (bool_decide (is_Some status)).

Definition check_status_cache (b : Bank) (tx : SanitizedTransaction) (c : TransactionCheckResult) : TransactionCheckResult :=
  match c with
  | (Ok _, _) =>
      match is_tx_already_processed b tx with
      | Some true => (Err AlreadyProcessed, None)
      | Some false => c
      | None => (Panic, None)
      end
  | _ => c
  end.

Definition is_simple_vote_transaction (m : Message) : option bool :=
  match instructions m with
  | [ci] =>
      program_pubkey ← account_keys m !! program_id_index ci;
      Some (if program_pubkey =? vote_program_id then
              match limited_deserialize (T:=VoteInstruction) (ci_data ci) with
              | Ok (VoteIx _) | Ok (VoteSwitch _ _) => true
              | _ => false
              end
            else false)
  | _ => Some false
  end.

Definition filter_by_vote_transactions (tx : SanitizedTransaction) (c : TransactionCheckResult) : TransactionCheckResult :=
  match c with
  | (Ok _, n) =>
      match is_simple_vote_transaction (st_message tx) with
      | Some true => c
      | Some false => (Err ClusterMaintenance, n)
      | None => (Panic, n)
      end
  | _ => c
  end.

Definition upgrade_epoch : bool :=
  match cluster_type cfg with MainnetBeta => bank_epoch cfg =? 61 | _ => false end.

Definition check_one (b : Bank) (max_age : nat) (tx : SanitizedTransaction) (lock_res : Result unit) : TransactionCheckResult :=
  let c := check_status_cache b tx (check_age b max_age tx lock_res) in
  if upgrade_epoch then filter_by_vote_transactions tx c else c.

Definition check_transactions (b : Bank) (max_age : nat) (txs : list SanitizedTransaction) (lock_results : list (Result unit))
    : list TransactionCheckResult :=
  zip_with (check_one b max_age) txs lock_results.

(** ** Executing *)

Definition is_instruction_error (r : Result unit) : bool := match r with Err (TxInstructionError _ _) => true | _ => false end.

Definition execute_one (loaded : TransactionLoadResult) (tx : SanitizedTransaction)
    : TransactionLoadResult * TransactionExecutionResult :=
  match loaded with
  | (Ok lt, nonce_rollback) =>
      let m := st_message tx in
      let max_units := default DEFAULT_UNITS (compute_budget_units cfg) in
      let budget :=
        if feature_active cfg feature_set.tx_wide_compute_cap then process_transaction borsh m max_units else Ok max_units in
      let '(lt', process_result) :=
        match budget with
        | Ok units =>
            let '(accs, r) := process_message m (lt_loaders lt) (lt_accounts lt) units in
            (mkLoaded accs (lt_loaders lt) (lt_rent lt) (lt_rent_debits lt), r)
        | Err e => (lt, Err e)
        | Panic => (lt, Panic)
        end in
      ((Ok lt', nonce_rollback),
       (process_result,
        match process_result with
        | Ok _ => nonce_rollback
        | _ => if is_instruction_error process_result then nonce_rollback else None
        end))
  | (Err e, n) => ((Err e, n), (Err e, None))
  | (Panic, n) => ((Panic, n), (Panic, None))
  end.

(** No computation of the batch has panicked. *)
Definition no_panic {A} (r : Result A) : bool := match r with Panic => false | _ => true end.

Record Executed : Type := mkExecuted {
  ex_loaded : list TransactionLoadResult;
  ex_results : list TransactionExecutionResult;
  ex_retryable : list nat;
  ex_tx_count : Z;
  ex_signature_count : Z;
}.

Definition load_and_execute_transactions (b : Bank) (batch : TransactionBatch) (max_age : nat) : res Empty_set Executed :=
  let txs := sanitized_txs batch in
  let retryable := (filter (λ x : nat * Result unit, match x.2 with Err AccountInUse => true | _ => false end = true)
                      (imap pair (lock_results batch))).*1 in
  let loaded := load_accounts (accounts b) (blockhash_queue b) txs (check_transactions b max_age txs (lock_results batch)) in
  let executed := zip_with execute_one loaded txs in
  if forallb (λ x : TransactionLoadResult * TransactionExecutionResult, no_panic x.2.1) executed then
    Ok (mkExecuted executed.*1 executed.*2 retryable
          (Z.of_nat (length (filter (λ x : TransactionExecutionResult, is_ok x.1 = true) executed.*2)))
          (foldl (λ n x, if is_ok (x.1 : TransactionLoadResult).1
                         then add64 n (num_required_signatures (header (st_message x.2))) else n) 0 (zip loaded txs)))
  else Panic.

(** ** Committing *)

Definition can_commit (r : Result unit) : bool :=
  match r with Ok _ | Err (TxInstructionError _ _) => true | _ => false end.

Definition INITIAL_RENT_EPOCH : Epoch := 0.

Definition fix_recent_blockhashes_sysvar_delay : bool :=
  match cluster_type cfg with
  | Development | Devnet | Testnet => true
  | MainnetBeta => feature_active cfg feature_set.consistent_recent_blockhashes_sysvar
  end.

Definition last_blockhash_with_fee_calculator (b : Bank) : res Empty_set (Hash * FeeCalculator) :=
  h ← unwrap (last_hash (blockhash_queue b));
  fc ← unwrap (get_fee_calculator (blockhash_queue b) h);
  Ok (h, fc).

(** The account as it is to be stored, and whether it is the nonce account. *)
Definition prepare_if_nonce_account (account : Account) (key : Pubkey) (failed : bool)
    (maybe_nonce_rollback : option NonceRollbackFull) (last : Hash * FeeCalculator) : res Empty_set (Account * bool) :=
  match maybe_nonce_rollback with
  | None => Ok (account, false)
  | Some n =>
      if negb (key =? nf_address n) then Ok (account, false)
      else
        let account := if failed then nf_account n else account in
        if failed || negb fix_recent_blockhashes_sysvar_delay then
          match account_state (T:=Versions) (nf_account n) with
          | Ok v =>
              match convert_to_current v with
              | Initialized d =>
                  match account_set_state (new_current (Initialized (mkData (authority d) last.1 last.2))) account with
                  | Ok account => Ok (account, true)
                  | _ => Panic
                  end
              | Uninitialized => Ok (account, true)
              end
          | _ => Panic
          end
        else Ok (account, true)
  end.

(** What is stored for one key of a transaction: nothing, or the account with
    the rent of an account that is new. *)
Definition account_to_store (m : Message) (failed : bool) (maybe_nonce_rollback : option NonceRollbackFull)
    (last : Hash * FeeCalculator) (is_fee_payer : bool) (i : nat) (x : Pubkey * Account)
    : res Empty_set (option (Account * Z)) :=
  '(account, is_nonce_account) ← prepare_if_nonce_account x.2 x.1 failed maybe_nonce_rollback last;
  w ← unwrap (message_is_writable m i);
  if w && (negb failed || (bool_decide (is_Some (nf_address <$> maybe_nonce_rollback)) && (is_nonce_account || is_fee_payer))) then
    account ←
      (if failed then
         match is_nonce_account, is_fee_payer, nf_fee_account <$> maybe_nonce_rollback with
         | true, true, Some None => Ok account
         | true, false, Some (Some _) => Ok account
         | false, true, Some (Some fee_payer_account) => Ok fee_payer_account
         | _, _, _ => Panic
         end
       else Ok account);
    if rent_epoch account =? INITIAL_RENT_EPOCH then
      let '(rent, account) := collect_from_created_account (rent_collector cfg) x.1 account rent_for_sysvars in
      Ok (Some (account, rent))
    else Ok (Some (account, 0))
  else Ok None.

(** The accounts of one transaction from index [i], with the rent collected. *)
Fixpoint collect_keys (m : Message) (failed : bool) (maybe_nonce_rollback : option NonceRollbackFull)
    (last : Hash * FeeCalculator) (fee_payer_index : option nat) (i : nat) (accs : list (Pubkey * Account))
    : res Empty_set (list (Pubkey * Account) * Z * RentDebits) :=
  match accs with
  | [] => Ok ([], 0, [])
  | x :: accs' =>
      if is_non_loader_key m i then
        let fee_payer_index := match fee_payer_index with Some p => Some p | None => Some i end in
        s ← account_to_store m failed maybe_nonce_rollback last (bool_decide (Some i = fee_payer_index)) i x;
        '(l, rent, debits) ← collect_keys m failed maybe_nonce_rollback last fee_payer_index (S i) accs';
        match s with
        | Some (a, r) => Ok ((x.1, a) :: l, add64 r rent, push_rent_debit x.1 r (lamports a) [] ++ debits)
        | None => Ok (l, rent, debits)
        end
      else collect_keys m failed maybe_nonce_rollback last fee_payer_index (S i) accs'
  end.

(** One transaction: the accounts to store, and the loaded transaction with the
    rent of the new accounts. *)
Definition collect_one (last : Hash * FeeCalculator) (tx : SanitizedTransaction) (loaded : TransactionLoadResult)
    (executed : TransactionExecutionResult) : res Empty_set (list (Pubkey * Account) * TransactionLoadResult) :=
  match loaded with
  | (Ok lt, n) =>
      let '(r, nonce_rollback) := executed in
      let m := st_message tx in
      if is_ok r || (is_instruction_error r && bool_decide (is_Some (nf_address <$> nonce_rollback))) then
        '(l, rent, debits) ← collect_keys m (negb (is_ok r)) nonce_rollback last None 0
                               (take (length (account_keys m)) (lt_accounts lt));
        Ok (l, (Ok (mkLoaded (lt_accounts lt) (lt_loaders lt) (add64 (lt_rent lt) rent) (lt_rent_debits lt ++ debits)), n))
      else Ok ([], loaded)
  | _ => Ok ([], loaded)
  end.

Fixpoint collect_accounts_to_store (last : Hash * FeeCalculator) (txs : list SanitizedTransaction)
    (loaded : list TransactionLoadResult) (executed : list TransactionExecutionResult)
    : res Empty_set (list (Pubkey * Account) * list TransactionLoadResult) :=
  match txs, loaded, executed with
  | tx :: txs', l :: loaded', e :: executed' =>
      '(s, l') ← collect_one last tx l e;
      '(ss, ls) ← collect_accounts_to_store last txs' loaded' executed';
      Ok (s ++ ss, l' :: ls)
  | _, _, _ => Ok ([], loaded)
  end.

(** [collect_rent]: the rent of the transactions that succeeded. *)
Definition rent_of (x : TransactionLoadResult * TransactionExecutionResult) : Z :=
  match x.1.1 with Ok lt => if is_ok x.2.1 then lt_rent lt else 0 | _ => 0 end.
Definition collect_rent (loaded : list TransactionLoadResult) (executed : list TransactionExecutionResult) (b : Bank) : Bank :=
  add_collected_rent (foldl (λ n x, add64 n (rent_of x)) 0 (zip loaded executed)) b.

(** [draw] is what the random generator yields for a new blockhash. *)
Fixpoint update_transaction_statuses (draw : Hash → nat) (txs : list SanitizedTransaction)
    (executed : list TransactionExecutionResult) (c : StatusCache (Result unit)) : res Empty_set (StatusCache (Result unit)) :=
  match txs, executed with
  | tx :: txs', (r, _) :: executed' =>
      let h := recent_blockhash (st_message tx) in
      c ←
        (match st_signatures tx with
         | sig :: _ =>
             if can_commit r then
               c ← unwrap (insert (draw h) h (key_bytes (message_hash tx)) (bank_slot cfg) r c);
               unwrap (insert (draw h) h sig (bank_slot cfg) r c)
             else Ok c
         | [] => Ok c
         end);
      update_transaction_statuses draw txs' executed' c
  | _, _ => Ok c
  end.

Definition withdraw (k : Pubkey) (amount : Z) (db : gmap Pubkey Account) : Result (gmap Pubkey Account) :=
  match get_account k db with
  | Some account =>
      let min_balance :=
        match get_system_account_kind account with
        | Some Nonce => minimum_balance (rc_rent (rent_collector cfg)) State_size
        | _ => 0
        end in
      ensure (match checked_add64 amount min_balance with
              | Some required_balance => required_balance <=? lamports account
              | None => false
              end) InsufficientFundsForFee;;
      account ← map_err (λ _, InsufficientFundsForFee) (checked_sub_lamports amount account);
      Ok (db_store k account db)
  | None => Err AccountNotFound
  end.

(** One transaction of [filter_program_errors_and_collect_fee]: the result, the
    fee collected and the accounts. *)
Definition collect_fee_one (q : BlockhashQueue) (tx : SanitizedTransaction) (executed : TransactionExecutionResult)
    (db : gmap Pubkey Account) : Result unit * Z * gmap Pubkey Account :=
  let m := st_message tx in
  let '(r, nonce_rollback) := executed in
  let fee_calculator :=
    match nonce_rollback with
    | Some n => fee_calculator_of (nf_account n)
    | None => get_fee_calculator q (recent_blockhash m)
    end in
  match fee_calculator with
  | None => (Err BlockhashNotFound, 0, db)
  | Some fc =>
      let fee := calculate_fee fc m in
      match r with
      | Err (TxInstructionError _ _) =>
          match nonce_rollback with
          | Some _ => (Ok tt, fee, db)
          | None =>
              match account_keys m !! 0%nat with
              | None => (Panic, 0, db)
              | Some k =>
                  match withdraw k fee db with
                  | Ok db' => (Ok tt, fee, db')
                  | Err e => (Err e, 0, db)
                  | Panic => (Panic, 0, db)
                  end
              end
          end
      | Ok _ => (Ok tt, fee, db)
      | _ => (r, 0, db)
      end
  end.

Fixpoint collect_fees_each (q : BlockhashQueue) (txs : list SanitizedTransaction) (executed : list TransactionExecutionResult)
    (db : gmap Pubkey Account) : list (Result unit) * Z * gmap Pubkey Account :=
  match txs, executed with
  | tx :: txs', e :: executed' =>
      let '(r, fee, db) := collect_fee_one q tx e db in
      let '(rs, fees, db) := collect_fees_each q txs' executed' db in
      (r :: rs, add64 fee fees, db)
  | _, _ => ([], 0, db)
  end.

Definition filter_program_errors_and_collect_fee (txs : list SanitizedTransaction) (executed : list TransactionExecutionResult)
    : ST Bank Empty_set (list (Result unit)) :=
  b ← get;
  let '(rs, fees, db) := collect_fees_each (blockhash_queue b) txs executed (accounts b) in
  assert_ (forallb no_panic rs);;
  put (add_collector_fees fees (with_accounts db b));;
  mret rs.

Record TransactionResults : Type := mkResults {
  fee_collection_results : list (Result unit);
  execution_results : list TransactionExecutionResult;
  rent_debits : list RentDebits;
}.

Definition commit_transactions (draw : Hash → nat) (txs : list SanitizedTransaction) (ex : Executed)
    : ST Bank Empty_set TransactionResults :=
  b ← get;
  assert_ (negb (freeze_started b));;
  modify (count_transactions (ex_tx_count ex) (ex_signature_count ex) (Z.of_nat (length txs))
            (existsb (λ x : TransactionExecutionResult, can_commit x.1) (ex_results ex)));;
  last ← lift (last_blockhash_with_fee_calculator b);
  '(to_store, loaded) ← lift (collect_accounts_to_store last txs (ex_loaded ex) (ex_results ex));
  modify (λ b, with_accounts (db_store_all to_store (accounts b)) b);;
  modify (collect_rent loaded (ex_results ex));;
  b ← get;
  c ← lift (update_transaction_statuses draw txs (ex_results ex) (bank_status_cache b));
  modify (with_status_cache c);;
  rs ← filter_program_errors_and_collect_fee txs (ex_results ex);
  mret (mkResults rs (ex_results ex)
          ((λ x : TransactionLoadResult * TransactionExecutionResult,
              match x.1.1 with Ok lt => if is_ok x.2.1 then lt_rent_debits lt else [] | _ => [] end)
           <$> zip loaded (ex_results ex))).

Definition load_execute_and_commit_transactions (draw : Hash → nat) (batch : TransactionBatch) (max_age : nat)
    : ST Bank Empty_set TransactionResults :=
  b ← get;
  ex ← lift (load_and_execute_transactions b batch max_age);
  commit_transactions draw (sanitized_txs batch) ex.
End bank.
End bank.
