(* ===== verification/BankProps.v ===== *)
(** * The bank conserves lamports

    Processing a batch moves lamports between the accounts and the bank's two
    purses, the collected fees and the collected rent, and never makes any.
    The message processor enters through the laws of its interface
    ([ExecutorOk]). *)

From S2P Require Import Prelude F64 Account Features Sysvar Message MessageProps Fees FeesProps System Transaction AccountLocks StatusCache MessageProcessor VoteState VoteProgram Bank.
From Stdlib Require Import Strings.Byte.

Module bank_props.
Import message fees fees_props system_program nonce transaction account_locks status_cache bank.
Import message_processor(UpgradeableLoaderState, ULS_Uninitialized, ULS_Buffer, ULS_Program, ULS_ProgramData).
Import vote_program(VoteInstruction).

(** ** Totals *)

Definition lam (o : option Account) : Z := match o with Some a => lamports a | None => 0 end.
Definition total (db : gmap Pubkey Account) : Z := sum_with (λ x : Pubkey * Account, lamports x.2) (map_to_list db).
Definition db_ok (db : gmap Pubkey Account) : Prop := ∀ k a, db !! k = Some a → is_u64 (lamports a).

Lemma total_insert db k a : total (<[k := a]> db) = total db - lam (db !! k) + lamports a.
Proof.
  unfold total. destruct (db !! k) as [o|] eqn:Hk.
  - rewrite <-insert_delete_eq. rewrite (sum_with_perm _ _ _ (map_to_list_insert (delete k db) k a (lookup_delete_eq db k))).
    rewrite <-(insert_delete_id db k o Hk) at 2.
    rewrite (sum_with_perm _ _ _ (map_to_list_insert (delete k db) k o (lookup_delete_eq db k))). unfold sum_with. cbn. lia.
  - rewrite (sum_with_perm _ _ _ (map_to_list_insert db k a Hk)). unfold sum_with. cbn. lia.
Qed.

Lemma total_nonneg db : db_ok db → 0 <= total db.
Proof.
  intros H. apply sum_with_nonneg, Forall_forall. intros [k a] Hx%elem_of_map_to_list. destruct (H k a Hx). done.
Qed.

Lemma total_store db k a : total (db_store k a db) = total db - lam (db !! k) + lamports a.
Proof. unfold db_store. rewrite total_insert. destruct (Z.eqb_spec (lamports a) 0); cbn; lia. Qed.

Lemma lookup_store db k a k' : k' ≠ k → db_store k a db !! k' = db !! k'.
Proof. intros. unfold db_store. by rewrite lookup_insert_ne. Qed.

Lemma db_ok_store db k a : db_ok db → is_u64 (lamports a) → db_ok (db_store k a db).
Proof.
  intros H Ha k' a'. unfold db_store. rewrite lookup_insert_Some. intros [[<- <-]|[_ Hk]]; [|by eapply H].
  by destruct (_ =? 0).
Qed.

Lemma total_store_all l db :
  NoDup l.*1 →
  total (db_store_all l db) = total db + sum_with (λ x : Pubkey * Account, lamports x.2 - lam (db !! x.1)) l.
Proof.
  revert db. induction l as [|[k a] l IH]; intros db Hnd; [unfold db_store_all, sum_with; cbn; lia|].
  apply NoDup_cons in Hnd as [Hk Hnd]. unfold db_store_all in *. cbn [foldl fst snd]. rewrite IH by done. rewrite total_store.
  unfold sum_with. cbn [foldr fst snd].
  assert (Heq : ∀ l0, k ∉ l0.*1 → foldr (λ x n, lamports x.2 - lam (db_store k a db !! x.1) + n) 0 l0 =
    foldr (λ (x : Pubkey * Account) n, lamports x.2 - lam (db !! x.1) + n) 0 l0).
  { clear. induction l0 as [|[k' a'] l0 IH]; intros Hk; cbn; [done|]. rewrite IH by (cbn in Hk; set_solver).
    rewrite lookup_store by (cbn in Hk; set_solver). done. }
  rewrite (Heq l Hk). lia.
Qed.

Lemma db_ok_store_all l db :
  db_ok db → Forall (λ x : Pubkey * Account, is_u64 (lamports x.2)) l → db_ok (db_store_all l db).
Proof.
  intros Hdb Hl. revert db Hdb. unfold db_store_all. induction Hl as [|x l Hx Hl IH]; intros db Hdb; cbn; [done|].
  apply IH. by apply db_ok_store.
Qed.

(** ** The accounts a transaction may change *)

(** The account at the index is writable and not only a program. *)
Definition writable_at (m : Message) (i : nat) : bool :=
  bool_decide (i < length (account_keys m))%nat && is_non_loader_key m i && bool_decide (message_is_writable m i = Some true).

Fixpoint wlist {A} (m : Message) (i : nat) (l : list A) : list A :=
  match l with
  | [] => []
  | x :: l' => if writable_at m i then x :: wlist m (S i) l' else wlist m (S i) l'
  end.

Lemma wlist_fmap {A B} (f : A → B) m i l : f <$> wlist m i l = wlist m i (f <$> l).
Proof. revert i. induction l as [|x l IH]; intros i; cbn; [done|]. destruct (writable_at m i); cbn; by rewrite IH. Qed.

Lemma wlist_elem {A} m i (l : list A) x : x ∈ wlist m i l → ∃ j, l !! j = Some x ∧ writable_at m (i + j) = true.
Proof.
  revert i. induction l as [|y l IH]; intros i; cbn; [set_solver|]. destruct (writable_at m i) eqn:Hw.
  - intros [->|Hx]%elem_of_cons; [exists 0%nat; by rewrite Nat.add_0_r|]. destruct (IH _ Hx) as (j & Hj & Hwj).
    exists (S j). by rewrite Nat.add_succ_r.
  - intros Hx. destruct (IH _ Hx) as (j & Hj & Hwj). exists (S j). by rewrite Nat.add_succ_r.
Qed.

Lemma wlist_sublist {A} m i (l : list A) : sublist (wlist m i l) l.
Proof. revert i. induction l as [|x l IH]; intros i; cbn; [constructor|]. destruct (writable_at m i); by constructor. Qed.

Lemma wlist_take {A} m (l : list A) : wlist m 0 l = wlist m 0 (take (length (account_keys m)) l).
Proof.
  rewrite <-(Nat.sub_0_r (length _)). generalize 0%nat as i. induction l as [|x l IH]; intros i; [by rewrite take_nil|].
  destruct (length (account_keys m) - i)%nat as [|n] eqn:Hn.
  - assert (Hw : ∀ j, (i <= j)%nat → writable_at m j = false).
    { intros j Hj. unfold writable_at. by rewrite bool_decide_eq_false_2 by lia. }
    cbn. rewrite Hw, IH by lia. by replace (length _ - S i)%nat with 0%nat by lia.
  - cbn. replace n with (length (account_keys m) - S i)%nat by lia. by rewrite IH.
Qed.

(** Equal totals and equal entries elsewhere give equal totals of the writable
    entries. *)
Lemma wlist_total {A} (f : A → Z) m i l l' :
  length l = length l' →
  (∀ j x x', l !! j = Some x → l' !! j = Some x' → writable_at m (i + j) = false → f x' = f x) →
  sum_with f l' - sum_with f (wlist m i l') = sum_with f l - sum_with f (wlist m i l).
Proof.
  revert i l'. induction l as [|x l IH]; intros i [|x' l'] Hlen Hsame; try done.
  cbn [wlist]. assert (IH' : sum_with f l' - sum_with f (wlist m (S i) l') = sum_with f l - sum_with f (wlist m (S i) l)).
  { apply IH; [by injection Hlen|]. intros j y y' Hy Hy' Hw. apply (Hsame (S j)); [done..|by rewrite Nat.add_succ_r]. }
  pose proof (Hsame 0%nat x x' eq_refl eq_refl) as Hx. rewrite Nat.add_0_r in Hx.
  destruct (writable_at m i); unfold sum_with in *; cbn [foldr]; [lia|]. specialize (Hx eq_refl). lia.
Qed.

(** ** What the message processor promises *)

Section laws.
Context `{!Executor}.

Class ExecutorOk : Prop := {
  execute_keys m loaders accs units accs' r :
    process_message m loaders accs units = (accs', r) → accs'.*1 = accs.*1;
  execute_conserves m loaders accs units accs' :
    process_message m loaders accs units = (accs', Ok tt) → sanitize m = Ok tt →
    NoDup (take (length (account_keys m)) accs.*1) →
    Forall (λ x, is_u64 (lamports x.2)) accs → Forall (Forall (λ x, is_u64 (lamports x.2))) loaders →
    Forall (λ x, is_u64 (lamports x.2)) accs' ∧
    sum_with (λ x, lamports x.2) accs' = sum_with (λ x, lamports x.2) accs ∧
    ∀ i x x', accs !! i = Some x → accs' !! i = Some x' → writable_at m i = false → lamports x'.2 = lamports x.2;
}.
End laws.

(** ** Loading *)

Section loading.
Context `{!Codec Versions, !Codec SystemInstruction, !Codec UpgradeableLoaderState}.
Context (cfg : BankConfig).

Lemma collect_rent_spec rc k a b r a' :
  is_u64 (lamports a) → collect_from_existing_account rc k a b = (r, a') →
  0 <= r ∧ lamports a' + r = lamports a ∧ is_u64 (lamports a') ∧ (lamports a' ≠ 0 → data a' = data a).
Proof.
  unfold is_u64, u64_max. intros Ha Hc.
  destruct (collect_cases _ _ _ _ _ _ (proj1 Ha) Hc) as [[-> ->]|[(-> & -> & _)|[(-> & _ & ->)|(Hr & _ & ->)]]];
    cbn; split_and!; try lia; done.
Qed.

Lemma load_key_spec db m i k a rent dep :
  db_ok db → (i < length (account_keys m))%nat → load_key cfg db m i k = Ok (a, rent, dep) →
  0 <= rent ∧ is_u64 (lamports a) ∧ (writable_at m i = false → rent = 0) ∧
  (writable_at m i = true → lamports a + rent = lam (db !! k) ∧ (lamports a ≠ 0 → ∃ a0, db !! k = Some a0 ∧ data a = data a0)) ∧
  Forall (λ x : Pubkey * Account, is_u64 (lamports x.2)) (option_list dep).
Proof.
  intros Hdb Hi. unfold load_key, writable_at. rewrite (bool_decide_eq_true_2 (i < _)%nat) by done. cbn [andb].
  destruct (is_non_loader_key m i); cbn [negb andb]; [|intros [= <- <- <-]; by split_and!].
  destruct (is_writable_total m i Hi) as [w Hw]. rewrite Hw. cbn [unwrap].
  destruct ((k =? _) && _).
  { cbn. destruct w; cbn; [done|]. destruct (construct_instructions_account m) as [ia|] eqn:Hia; cbn; [|done]. intros [= <- <- <-].
    unfold construct_instructions_account in Hia. destruct (serialize_instructions m); [|done]. injection Hia as <-. by split_and!. }
  intros ([account rent'] & Hload & Hdep)%res_bind_Ok. apply res_bind_Ok in Hdep as (dep' & Hdep & [= -> -> ->]).
  assert (HF : Forall (λ x : Pubkey * Account, is_u64 (lamports x.2)) (option_list dep)).
  { destruct (executable a && _); [|by injection Hdep as <-]. destruct (account_state a) as [[| | |]|e|]; try done.
    destruct (db !! programdata_address) as [pa|] eqn:Hpa; [|done]. injection Hdep as <-. apply Forall_singleton. by eapply Hdb. }
  destruct (db !! k) as [a0|] eqn:Hk; cbn in Hload.
  - pose proof (Hdb _ _ Hk) as Ha0. destruct w.
    + destruct (collect_from_existing_account _ k a0 _) as [due a1] eqn:Hc. injection Hload as <- <-.
      destruct (collect_rent_spec _ _ _ _ _ _ Ha0 Hc) as (H1 & H2 & H3 & H4). split_and!; [done..| |done]. intros _. cbn. eauto.
    + injection Hload as <- <-. split_and!; try done. 
  - injection Hload as <- <-. split_and!; try done.
Qed.

Lemma wrap64_add_l x y : add64 x (wrap64 y) = wrap64 (x + y).
Proof. unfold add64, wrap64. by rewrite Z.add_mod_idemp_r. Qed.

Lemma wrap64_add_wrap x y : add64 (wrap64 x) (wrap64 y) = wrap64 (x + y).
Proof. unfold add64, wrap64. by rewrite Z.add_mod_idemp_l, Z.add_mod_idemp_r. Qed.

Lemma load_keys_spec db m keys i accs deps rent debits :
  db_ok db → (i + length keys = length (account_keys m))%nat → load_keys cfg db m i keys = Ok (accs, deps, rent, debits) →
  accs.*1 = keys ∧ Forall (λ x, is_u64 (lamports x.2)) accs ∧ Forall (λ x, is_u64 (lamports x.2)) deps ∧
  ∃ R, rent = wrap64 R ∧ 0 <= R ∧
    sum_with (λ x, lamports x.2) (wlist m i accs) + R = sum_with (λ k, lam (db !! k)) (wlist m i keys).
Proof.
  intros Hdb. revert i accs deps rent debits. induction keys as [|k keys IH]; intros i accs deps rent debits Hlen; cbn [load_keys].
  { intros [= <- <- <- <-]. split_and!; [done..|]. exists 0. done. }
  intros ([[a r] dep] & Hk & ([[[accs' deps'] rent'] debits'] & Hks & [= <- <- <- <-])%res_bind_Ok)%res_bind_Ok.
  cbn in Hlen. destruct (load_key_spec db m i _ _ _ _ Hdb ltac:(lia) Hk) as (H1 & H2 & H3 & H4 & H5).
  destruct (IH (S i) _ _ _ _ ltac:(lia) Hks) as (Hkeys & HFa & HFd & R & -> & HR & Hsum).
  cbn. split_and!; [by rewrite Hkeys|by constructor|by apply Forall_app|].
  exists (r + R). rewrite wrap64_add_l. split_and!; [done|lia|].
  destruct (writable_at m i); unfold sum_with in *; cbn [foldr fst snd]; [|rewrite (H3 eq_refl); lia].
  destruct (H4 eq_refl) as [H4' _]. lia.
Qed.

(** The fee payer is the first key, and writable. *)
Definition pays_first (m : Message) : Prop :=
  (∃ k, account_keys m !! 0%nat = Some k) ∧ is_non_loader_key m 0 = true ∧ message_is_writable m 0 = Some true.

Lemma pays_first_writable m : pays_first m → writable_at m 0 = true.
Proof.
  intros ([k Hk] & Hn & Hw). unfold writable_at. rewrite Hn, Hw, !bool_decide_eq_true_2; [done|done|]. by apply lookup_lt_Some in Hk.
Qed.

Lemma pays_first_index m : pays_first m → payer_index m = Some 0%nat.
Proof.
  intros ([k Hk] & Hn & _). unfold payer_index. apply lookup_lt_Some in Hk. destruct (account_keys m); cbn in *; [lia|].
  by rewrite decide_True.
Qed.

Lemma charge_fee_spec fee a a' :
  charge_fee cfg fee a = Ok a' → a' = set_lamports (lamports a - fee) a ∧ fee <= lamports a ∧ lamports a ≠ 0.
Proof.
  unfold charge_fee. intros ([] & H1 & H)%res_bind_Ok. apply res_bind_Ok in H as (kind & _ & H). apply res_bind_Ok in H as ([] & _ & H).
  unfold ensure in H1. destruct (Z.eqb_spec (lamports a) 0); [done|]. unfold checked_sub_lamports in H.
  destruct (checked_sub64 (lamports a) fee) as [l|] eqn:Hc; [|done]. injection H as <-. apply checked_sub64_Some in Hc as [-> ?]. auto.
Qed.

Lemma load_executables_u64 db depth k acc l :
  db_ok db → Forall (λ x, is_u64 (lamports x.2)) acc → load_executables db depth k acc = Ok l →
  Forall (λ x, is_u64 (lamports x.2)) l.
Proof.
  intros Hdb. revert k acc. induction depth as [|depth IH]; intros k acc Hacc; cbn [load_executables];
    (destruct (k =? native_loader_id); [by intros [= <-]|]); [done|].
  intros (program & Hp%ok_or_Ok & ([] & _ & (acc' & Ha & Hl)%res_bind_Ok)%res_bind_Ok)%res_bind_Ok.
  apply IH in Hl; [done|]. constructor; [by eapply Hdb|].
  destruct (owner program =? _); [|by injection Ha as <-]. destruct (account_state program) as [[]| |]; try done.
  destruct (db !! programdata_address) eqn:Hd; [|done]. injection Ha as <-. constructor; [by eapply Hdb|done].
Qed.

Lemma load_loaders_u64 db m cis ls :
  db_ok db → load_loaders db m cis = Ok ls → Forall (Forall (λ x, is_u64 (lamports x.2))) ls.
Proof.
  intros Hdb. revert ls. induction cis as [|ci cis IH]; intros ls; cbn [load_loaders]; [by intros [= <-]|].
  intros (k & _ & (l & Hl & (ls' & Hls & [= <-])%res_bind_Ok)%res_bind_Ok)%res_bind_Ok.
  constructor; [|by apply IH]. by eapply load_executables_u64; [|constructor|exact Hl].
Qed.

Lemma load_transaction_loaders db tx fee lt :
  db_ok db → load_transaction cfg db tx fee = Ok lt → Forall (Forall (λ x, is_u64 (lamports x.2))) (lt_loaders lt).
Proof.
  intros Hdb. unfold load_transaction. intros ([] & _ & ([[[accs deps] rent] debits] & _ & H)%res_bind_Ok)%res_bind_Ok.
  destruct (payer_index _); [|done].
  apply res_bind_Ok in H as (x & _ & (payer & _ & (loaders & Hl & [= <-])%res_bind_Ok)%res_bind_Ok).
  by eapply load_loaders_u64.
Qed.

Lemma load_transaction_spec db tx fee lt :
  db_ok db → pays_first (st_message tx) → is_u64 fee → load_transaction cfg db tx fee = Ok lt →
  let m := st_message tx in
  take (length (account_keys m)) (lt_accounts lt).*1 = account_keys m ∧
  Forall (λ x, is_u64 (lamports x.2)) (lt_accounts lt) ∧
  (∃ R, lt_rent lt = wrap64 R ∧ 0 <= R ∧
    sum_with (λ x, lamports x.2) (wlist m 0 (take (length (account_keys m)) (lt_accounts lt))) + R + fee =
    sum_with (λ k, lam (db !! k)) (wlist m 0 (account_keys m))) ∧
  ∃ k a a0 , lt_accounts lt !! 0%nat = Some (k, a) ∧ account_keys m !! 0%nat = Some k ∧ db !! k = Some a0 ∧
    lamports a + fee <= lamports a0 ∧ data a = data a0.
Proof.
  intros Hdb Hp Hfee. cbn zeta. set (m := st_message tx) in *. unfold load_transaction. fold m.
  intros ([] & _ & ([[[accs deps] rent] debits] & Hl & H)%res_bind_Ok)%res_bind_Ok. rewrite (pays_first_index m Hp) in H.
  destruct (load_keys_spec db m (account_keys m) 0 _ _ _ _ Hdb eq_refl Hl) as (Hkeys & HFa & HFd & R & -> & HR & Hsum).
  apply res_bind_Ok in H as (x & Hx & (payer & Hpay & (loaders & _ & [= <-])%res_bind_Ok)%res_bind_Ok). cbn [lt_accounts lt_rent].
  apply charge_fee_spec in Hpay as (-> & Hle & Hnz). destruct Hp as ([k0 Hk0] & Hn0 & Hw0).
  pose proof (pays_first_writable m ltac:(by split_and!; eauto)) as Hw.
  destruct (account_keys m) as [|k keys] eqn:Hm; [done|]. injection Hk0 as ->.
  cbn [load_keys] in Hl. apply res_bind_Ok in Hl as ([[a r] dep] & Hkey & Hl).
  apply res_bind_Ok in Hl as ([[[accs' deps'] rent'] debits'] & _ & [= <- _ _ _]). cbn in Hx. injection Hx as <-. cbn [fst snd] in *.
  destruct (load_key_spec db m 0 _ _ _ _ Hdb ltac:(rewrite Hm; cbn; lia) Hkey) as (H1 & H2 & _ & H4 & _).
  destruct (H4 Hw) as [H4' H5]. destruct (H5 Hnz) as (a0 & Ha0 & Hdata). rewrite Ha0 in H4'. cbn in H4', Hkeys. injection Hkeys as Hkeys.
  assert (Hlen : length keys = length accs') by (by rewrite <-Hkeys, length_fmap). clear H4 H5 Hkey.
  apply Forall_cons in HFa as [_ HFa]. cbn [app length take]. rewrite Hlen.
  change (<[0%nat := ?y]> (?z :: accs' ++ deps)) with (y :: accs' ++ deps). split_and!.
  - rewrite fmap_cons, fmap_app. cbn. f_equal. rewrite <-Hkeys. rewrite <-(length_fmap fst accs'). by rewrite take_app_length.
  - constructor; [|by apply Forall_app]. cbn. unfold is_u64 in *. lia.
  - exists R. split_and!; [done..|]. rewrite <-Hsum. cbn [take wlist]. rewrite take_app_length, Hw.
    unfold sum_with. cbn [foldr fst snd lamports set_lamports]. lia.
  - exists k0, (set_lamports (lamports a - fee) a), a0. split_and!; [done..|cbn; lia|done].
Qed.
End loading.

(** ** Storing *)

Section storing.
Context `{!Codec Versions, !Codec SystemInstruction, !Codec UpgradeableLoaderState}.
Context (cfg : BankConfig) (last : Hash * FeeCalculator).

Lemma prepare_spec a k failed n a' isn :
  prepare_if_nonce_account cfg a k failed n last = Ok (a', isn) →
  match n with
  | Some n => isn = (k =? nf_address n) ∧ lamports a' = if isn && failed then lamports (nf_account n) else lamports a
  | None => isn = false ∧ a' = a
  end.
Proof.
  unfold prepare_if_nonce_account. destruct n as [n|]; [|by intros [= <- <-]].
  destruct (Z.eqb_spec k (nf_address n)) as [->|]; cbn [negb]; [|by intros [= <- <-]].
  assert (Hl : lamports (if failed then nf_account n else a) = if true && failed then lamports (nf_account n) else lamports a) by (by destruct failed).
  destruct (failed || _); [|intros [= <- <-]; done].
  destruct (account_state _) as [v|e|]; [|done..]. destruct (convert_to_current v) as [|d]; [by intros [= <- <-]|].
  unfold account_set_state. case_bool_decide; [done|]. intros [= <- <-]. done.
Qed.

(** The rent of an account that is new comes out of it. *)
Lemma created_spec k a :
  is_u64 (lamports a) →
  ∃ a' r, (if rent_epoch a =? INITIAL_RENT_EPOCH then
     let '(rent, a') := collect_from_created_account (rent_collector cfg) k a (rent_for_sysvars cfg) in Ok (Some (a', rent))
   else Ok (Some (a, 0))) = Ok (E:=Empty_set) (Some (a', r)) ∧ 0 <= r ∧ lamports a' + r = lamports a ∧ is_u64 (lamports a').
Proof.
  intros Ha. destruct (_ =? _); [|exists a, 0; split_and!; [done|done|lia|done]].
  destruct (collect_from_created_account _ k a _) as [r a'] eqn:Hc. exists a', r. split; [done|].
  unfold collect_from_created_account in Hc. apply collect_rent_spec in Hc as (H1 & H2 & H3 & _); done.
Qed.

Lemma store_success m n p i x s :
  (i < length (account_keys m))%nat → is_non_loader_key m i = true → is_u64 (lamports x.2) →
  account_to_store cfg m false n last p i x = Ok s →
  if writable_at m i then ∃ a r, s = Some (a, r) ∧ 0 <= r ∧ lamports a + r = lamports x.2 ∧ is_u64 (lamports a)
  else s = None.
Proof.
  intros Hi Hn Hx. unfold account_to_store, writable_at. rewrite (bool_decide_eq_true_2 (i < _)%nat), Hn by done. cbn [andb].
  intros ([a isn] & Hprep & H)%res_bind_Ok. apply prepare_spec in Hprep.
  assert (Hl : lamports a = lamports x.2) by (destruct n; [destruct Hprep as [_ ->]; by rewrite andb_false_r|by destruct Hprep as [_ ->]]).
  destruct (is_writable_total m i Hi) as [w Hw]. rewrite Hw in H |- *. cbn in H. destruct w; cbn in H.
  - rewrite bool_decide_eq_true_2 by done. destruct (created_spec x.1 a ltac:(by rewrite Hl)) as (a' & r & Hc & Hr). rewrite Hc in H.
    injection H as <-. exists a', r. rewrite <-Hl. done.
  - rewrite bool_decide_eq_false_2 by done. by injection H as <-.
Qed.

Lemma collect_success m n fp i accs l rent debits :
  (i + length accs = length (account_keys m))%nat → Forall (λ x, is_u64 (lamports x.2)) accs →
  collect_keys cfg m false n last fp i accs = Ok (l, rent, debits) →
  l.*1 = (wlist m i accs).*1 ∧ Forall (λ x, is_u64 (lamports x.2)) l ∧
  ∃ R, rent = wrap64 R ∧ 0 <= R ∧ sum_with (λ x, lamports x.2) l + R = sum_with (λ x, lamports x.2) (wlist m i accs).
Proof.
  intros Hlen HF. revert fp i l rent debits Hlen. induction HF as [|x accs Hx HF IH]; intros fp i l rent debits Hlen; cbn [collect_keys].
  { intros [= <- <- <-]. split_and!; [done..|]. by exists 0. }
  cbn [length] in Hlen. cbn [wlist]. destruct (is_non_loader_key m i) eqn:Hn.
  - intros (s & Hs & ([[l' rent'] debits'] & Hl & H)%res_bind_Ok)%res_bind_Ok.
    destruct (IH _ (S i) _ _ _ ltac:(lia) Hl) as (Hk & HFl & R & -> & HR & Hsum).
    pose proof (store_success m n _ i x s ltac:(lia) Hn Hx Hs) as Hst. destruct (writable_at m i).
    + destruct Hst as (a & r & -> & Hr & Har & Ha). injection H as <- <- <-. cbn. split_and!; [by rewrite Hk|by constructor|].
      exists (r + R). rewrite wrap64_add_l. unfold sum_with in *. cbn [foldr snd]. split_and!; [done|lia..].
    + subst s. injection H as <- <- <-. split_and!; [done..|]. by exists R.
  - intros Hl. assert (writable_at m i = false) as -> by (unfold writable_at; rewrite Hn; by rewrite andb_false_r).
    apply (IH _ (S i)) in Hl; [done|lia].
Qed.

(** *** A failed transaction with a durable nonce *)

Lemma store_failed m n p i x s :
  (i < length (account_keys m))%nat → is_non_loader_key m i = true →
  account_to_store cfg m true (Some n) last p i x = Ok s → is_u64 (lamports (nf_account n)) →
  (∀ a, nf_fee_account n = Some a → is_u64 (lamports a)) →
  match s with
  | None => writable_at m i = true → p = false
  | Some (a, r) => writable_at m i = true ∧ is_u64 (lamports a) ∧
      ∃ base, (if p then nf_fee_account n = None ∧ x.1 = nf_address n ∧ base = nf_account n ∨ nf_fee_account n = Some base ∧ x.1 ≠ nf_address n
               else is_Some (nf_fee_account n) ∧ x.1 = nf_address n ∧ base = nf_account n) ∧ lamports a <= lamports base
  end.
Proof.
  intros Hi Hn Hs Hun Hua. unfold account_to_store in Hs. apply res_bind_Ok in Hs as ([a isn] & Hprep & H).
  apply prepare_spec in Hprep as [-> Hl]. destruct (is_writable_total m i Hi) as [w Hw].
  unfold writable_at. rewrite (bool_decide_eq_true_2 (i < _)%nat), Hn by done. rewrite Hw in H |- *. cbn in H |- *.
  rewrite andb_true_r in Hl.
  destruct w; cbn in H; [rewrite (bool_decide_eq_true_2 (Some true = Some true)) by done|injection H as <-; by rewrite bool_decide_eq_false_2].
  assert (Hc : ∀ b, is_u64 (lamports b) → (if rent_epoch b =? INITIAL_RENT_EPOCH then
      let '(rent, a') := collect_from_created_account (rent_collector cfg) x.1 b (rent_for_sysvars cfg) in Ok (Some (a', rent))
      else Ok (Some (b, 0))) = Ok (E:=Empty_set) s → ∃ a' r, s = Some (a', r) ∧ is_u64 (lamports a') ∧ lamports a' <= lamports b).
  { intros b Hb Hcb. destruct (created_spec x.1 b Hb) as (a' & r & Hc & Hr & Hs & Hu). rewrite Hc in Hcb. injection Hcb as <-.
    exists a', r. split_and!; [done..|lia]. }
  destruct (Z.eqb_spec x.1 (nf_address n)) as [Hk|Hk], p; cbn in H; [| | |by injection H as <-];
    destruct (nf_fee_account n) as [fa|] eqn:Hfa; try done; cbn in H; apply Hc in H as (a' & r & -> & Hu & Hle);
    try (by rewrite Hl); try (by apply Hua); (split; [done|]); (split; [done|]).
  - exists (nf_account n). split; [by left|lia].
  - exists (nf_account n). split; [by eauto|lia].
  - exists fa. split; [by right|done].
Qed.

(** After the payer, only the nonce account is stored, as it was. *)
Lemma collect_failed_tail (db : gmap Pubkey Account) m n i accs l rent debits :
  (i + length accs = length (account_keys m))%nat → (i ≠ 0)%nat → is_u64 (lamports (nf_account n)) →
  (∀ a, nf_fee_account n = Some a → is_u64 (lamports a) ∧ lamports (nf_account n) <= lam (db !! nf_address n)) →
  collect_keys cfg m true (Some n) last (Some 0%nat) i accs = Ok (l, rent, debits) →
  sublist l.*1 (wlist m i accs).*1 ∧ Forall (λ x, is_u64 (lamports x.2) ∧ lamports x.2 <= lam (db !! x.1)) l.
Proof.
  intros Hlen Hi Hun Hua. revert i l rent debits Hlen Hi. induction accs as [|x accs IH]; intros i l rent debits Hlen Hi; cbn [collect_keys].
  { by intros [= <- <- <-]. }
  cbn [length] in Hlen. cbn [wlist]. destruct (is_non_loader_key m i) eqn:Hn.
  - intros (s & Hs & ([[l' rent'] debits'] & Hl & H)%res_bind_Ok)%res_bind_Ok. rewrite bool_decide_eq_false_2 in Hs by naive_solver.
    destruct (IH (S i) _ _ _ ltac:(lia) ltac:(lia) Hl) as [Hk HFl].
    pose proof (store_failed m n _ i x s ltac:(lia) Hn Hs Hun (λ a Ha, proj1 (Hua a Ha))) as Hst. destruct s as [[a r]|].
    + destruct Hst as (-> & Ha & base & ([fa Hfa] & Hx & ->) & Hle). injection H as <- <- <-. cbn. split; [by constructor|].
      constructor; [|done]. cbn. rewrite Hx. destruct (Hua _ Hfa). split; [done|lia].
    + injection H as <- <- <-. split; [|done]. destruct (writable_at m i); [by constructor|done].
  - intros Hl. assert (writable_at m i = false) as -> by (unfold writable_at; rewrite Hn; by rewrite andb_false_r).
    apply (IH (S i)) in Hl; [done|lia..].
Qed.

(** The payer is stored too, after the fee. *)
Lemma collect_failed (db : gmap Pubkey Account) m n k x accs base l rent debits :
  pays_first m → S (length accs) = length (account_keys m) → is_u64 (lamports (nf_account n)) →
  (∀ a, nf_fee_account n = Some a → is_u64 (lamports a) ∧ lamports (nf_account n) <= lam (db !! nf_address n)) →
  (if k =? nf_address n then nf_account n = base ∧ nf_fee_account n = None else nf_fee_account n = Some base) →
  collect_keys cfg m true (Some n) last None 0 ((k, x) :: accs) = Ok (l, rent, debits) →
  sublist l.*1 (wlist m 0 ((k, x) :: accs)).*1 ∧ Forall (λ x, is_u64 (lamports x.2)) l ∧
  sum_with (λ x, lamports x.2 - lam (db !! x.1)) l <= lamports base - lam (db !! k).
Proof.
  intros Hp Hlen Hun Hua Hbase. pose proof (pays_first_writable m Hp) as Hw. destruct Hp as ([k0 Hk0] & Hn & _).
  cbn [collect_keys wlist]. rewrite Hn, Hw. intros (s & Hs & ([[l' rent'] debits'] & Hl & Heq)%res_bind_Ok)%res_bind_Ok.
  rewrite bool_decide_eq_true_2 in Hs by done.
  pose proof (store_failed m n _ 0 _ s ltac:(lia) Hn Hs Hun (λ a Ha, proj1 (Hua a Ha))) as Hst.
  destruct s as [[a r]|]; [|by specialize (Hst Hw)]. destruct Hst as (_ & Ha & b & Hb & Hle). cbn in Hb.
  destruct (collect_failed_tail db m n 1 accs _ _ _ ltac:(lia) ltac:(lia) Hun Hua Hl) as [Hsub HF]. injection Heq as <- <- <-. cbn.
  split_and!; [by constructor|constructor; [done|]; eapply Forall_impl; [exact HF|]; by intros ? []|].
  assert (sum_with (λ x, lamports x.2 - lam (db !! x.1)) l' <= 0).
  { clear -HF. unfold sum_with. induction HF as [|y l [] HF IH]; cbn; lia. }
  assert (b = base) as ->. { destruct (Z.eqb_spec k (nf_address n)), Hb as [(? & ? & ?)|[? ?]]; naive_solver. }
  unfold sum_with in *. cbn. lia.
Qed.
End storing.

(** ** One transaction *)

Section transactions.
Context `{!Codec Versions, !Codec SystemInstruction, !Codec UpgradeableLoaderState}.
Context (cfg : BankConfig) `{!Codec VoteInstruction} `{!Executor} (borsh : list byte → option Z).

(** The transaction failed in an instruction, and advances its durable nonce. *)
Definition failed_nonce (e : TransactionExecutionResult) : bool := is_instruction_error e.1 && bool_decide (is_Some (nf_address <$> e.2)).

(** The fee that leaves with the accounts that are stored. *)
Definition fee_due (q : BlockhashQueue) (tx : SanitizedTransaction) (e : TransactionExecutionResult) : Z :=
  if is_ok e.1 || failed_nonce e then
    match match e.2 with Some n => fee_calculator_of (nf_account n) | None => get_fee_calculator q (recent_blockhash (st_message tx)) end with
    | Some fc => calculate_fee fc (st_message tx)
    | None => 0
    end
  else 0.

Lemma calculate_fee_u64 fc m : is_u64 (calculate_fee fc m).
Proof. unfold calculate_fee, mul64. apply wrap64_range. Qed.

Lemma fee_due_nonneg q tx e : 0 <= fee_due q tx e.
Proof.
  unfold fee_due. destruct (_ || _); [|done]. destruct (match e.2 with Some _ => _ | None => _ end) as [fc|]; [|done].
  apply calculate_fee_u64.
Qed.

Lemma withdraw_spec k fee db db' :
  db_ok db → 0 <= fee → withdraw cfg k fee db = Ok db' → total db' + fee = total db ∧ db_ok db'.
Proof.
  intros Hdb Hf. unfold withdraw, get_account. destruct (db !! k) as [a|] eqn:Hk; [|done].
  pose proof (Hdb _ _ Hk) as Ha. cbn [mbind option_bind]. destruct (0 <? lamports a); [|done].
  intros ([] & _ & (a' & Hs & [= <-])%res_bind_Ok)%res_bind_Ok. unfold checked_sub_lamports in Hs.
  destruct (checked_sub64 (lamports a) fee) as [n|] eqn:Hc; [|done]. injection Hs as <-. apply checked_sub64_Some in Hc as [-> ?].
  split; [rewrite total_store, Hk; cbn; lia|]. apply db_ok_store; [done|]. unfold is_u64, u64_max in *. cbn. lia.
Qed.

(** The other fees are withdrawn. *)
Lemma collect_fee_one_spec q tx e db r f db' :
  db_ok db → collect_fee_one cfg q tx e db = (r, f, db') →
  db_ok db' ∧ ∃ W, 0 <= W ∧ f = fee_due q tx e + W ∧ total db' + W = total db.
Proof.
  intros Hdb. unfold collect_fee_one, fee_due, failed_nonce. destruct e as [er n]. cbn [fst snd].
  destruct (match n with Some _ => _ | None => _ end) as [fc|] eqn:Hfc.
  2:{ rewrite ?Hfc. intros [= <- <- <-]. split; [done|]. exists 0. split_and!; [done| |lia]. by destruct (_ || _). }
  pose proof (calculate_fee_u64 fc (st_message tx)) as [Hf0 _].
  assert (H0 : ∀ r', (r', 0, db) = (r, f, db') → db_ok db' ∧ ∃ W, 0 <= W ∧ f = 0 + W ∧ total db' + W = total db).
  { intros r' [= <- <- <-]. split; [done|]. exists 0. lia. }
  assert (H1 : (Ok tt, calculate_fee fc (st_message tx), db) = (r, f, db') →
    db_ok db' ∧ ∃ W, 0 <= W ∧ f = calculate_fee fc (st_message tx) + W ∧ total db' + W = total db).
  { intros [= <- <- <-]. split; [done|]. exists 0. lia. }
  destruct er as [[]|[]|]; cbn; try (by apply H0); try (by apply H1).
  destruct n as [n|]; cbn; [by apply H1|]. destruct (account_keys _ !! 0%nat) as [k|]; [|by apply H0].
  destruct (withdraw cfg k _ db) as [db1|e'|] eqn:Hw; [|by apply H0..]. intros [= <- <- <-].
  apply withdraw_spec in Hw as [Ht Hok]; [|done..]. split; [done|]. exists (calculate_fee fc (st_message tx)). lia.
Qed.

Lemma check_one_Ok b max_age tx lr u n :
  check_one cfg b max_age tx lr = (Ok u, n) →
  is_ok lr = true ∧ is_tx_already_processed cfg b tx = Some false ∧
  ∀ p, n = Some p → accounts b !! np_address p = Some (np_account p).
Proof.
  assert (Hage : ∀ u n, check_age b max_age tx lr = (Ok u, n) →
    is_ok lr = true ∧ ∀ p, n = Some p → accounts b !! np_address p = Some (np_account p)).
  { clear. intros u n. unfold check_age. destruct lr as [[]|e|]; [|done..]. case_bool_decide; [intros [= <- <-]; split; [done|by intros p]|].
    unfold check_tx_durable_nonce. destruct (uses_durable_nonce _) as [ix|]; [|done]. cbn.
    destruct (get_nonce_pubkey_from_instruction ix _) as [k|]; [|done]. cbn.
    destruct (get_account k (accounts b)) as [a|] eqn:Ha; [|done]. cbn. destruct (verify_nonce_account a _); [|done].
    intros [= <- <-]. split; [done|]. intros p [= <-]. cbn. unfold get_account in Ha.
    destruct (accounts b !! k) as [a1|]; [|done]. cbn in Ha. by destruct (0 <? lamports a1); simplify_eq. }
  unfold check_one. intros Hone. assert (Hc : check_status_cache cfg b tx (check_age b max_age tx lr) = (Ok u, n)).
  { destruct (upgrade_epoch cfg); [|done]. unfold filter_by_vote_transactions in Hone. destruct (check_status_cache _ _ _ _) as [[]  n']; [|done..].
    destruct (is_simple_vote_transaction _) as [[]|]; done. }
  unfold check_status_cache in Hc. destruct (check_age b max_age tx lr) as [[]  n'] eqn:Ha; [|done..].
  destruct (is_tx_already_processed cfg b tx) as [[]|]; [done| |done]. injection Hc as -> ->.
  destruct (Hage _ _ eq_refl). done.
Qed.

Lemma from_partial_spec p m accs k a n :
  pays_first m → accs !! 0%nat = Some (k, a) → from_partial p m accs = Ok n →
  nf_address n = np_address p ∧
  if k =? np_address p then nf_account n = a ∧ nf_fee_account n = None
  else nf_account n = np_account p ∧ nf_fee_account n = Some a.
Proof.
  intros ([k0 Hk0] & Hn & _) Ha. unfold from_partial. apply lookup_lt_Some in Hk0. destruct (account_keys m) as [|k1 ks]; cbn in *; [lia|].
  rewrite decide_True by (split; [by rewrite Ha|done]). rewrite Ha. cbn. by destruct (k =? np_address p); intros [= <-].
Qed.

Lemma fee_calculator_of_data a a' : data a = data a' → fee_calculator_of a = fee_calculator_of a'.
Proof. intros Hd. unfold fee_calculator_of, account_state. by rewrite Hd. Qed.

(** What one transaction does to the accounts that will be stored: [R] is the
    rent it pays, [L] what is lost. *)
Definition stored_ok (db : gmap Pubkey Account) (q : BlockhashQueue) (tx : SanitizedTransaction) (e : TransactionExecutionResult)
    (s : list (Pubkey * Account)) (rent : Z) : Prop :=
  sublist s.*1 (wlist (st_message tx) 0 (account_keys (st_message tx))) ∧ Forall (λ x, is_u64 (lamports x.2)) s ∧
  ∃ R L, rent = wrap64 R ∧ 0 <= R ∧ 0 <= L ∧ (failed_nonce e = false → L = 0) ∧
    sum_with (λ x, lamports x.2 - lam (db !! x.1)) s + R + fee_due q tx e + L = 0.

Lemma sum_with_diff (db : gmap Pubkey Account) l :
  sum_with (λ x, lamports x.2 - lam (db !! x.1)) l = sum_with (λ x, lamports x.2) l - sum_with (λ k, lam (db !! k)) l.*1.
Proof. unfold sum_with. induction l as [|x l IH]; cbn; lia. Qed.

Context `{!ExecutorOk}.

(** A transaction that succeeds. *)
Lemma success_stored db q tx lt n accs' r last s rent debits fee :
  db_ok db → pays_first (st_message tx) → sanitize (st_message tx) = Ok tt → NoDup (account_keys (st_message tx)) → is_u64 fee → load_transaction cfg db tx fee = Ok lt →
  process_message (st_message tx) (lt_loaders lt) (lt_accounts lt) r = (accs', Ok tt) →
  collect_keys cfg (st_message tx) false n last None 0 (take (length (account_keys (st_message tx))) accs') = Ok (s, rent, debits) →
  fee_due q tx (Ok tt, n) = fee →
  stored_ok db q tx (Ok tt, n) s (add64 (lt_rent lt) rent).
Proof.
  intros Hdb Hp Hs Hnd Hfee Hl Hex Hc Hdue. set (m := st_message tx) in *. set (k := length (account_keys m)) in *.
  destruct (load_transaction_spec cfg db tx fee lt Hdb Hp Hfee Hl) as (Hk & HF & (R & HR & HR0 & Hsum) & _).
  pose proof (execute_keys _ _ _ _ _ _ Hex) as Hkeys. 
  destruct (execute_conserves _ _ _ _ _ Hex Hs) as (HF' & Htot & Hro); [exact (eq_ind_r (λ l, NoDup l) Hnd Hk)|done|by eapply load_transaction_loaders|].
  assert (Hk' : (take k accs').*1 = account_keys m) by (rewrite fmap_take, Hkeys; exact Hk).
  assert (Hlen : length (take k accs') = k) by (by rewrite <-(length_fmap fst), Hk').
  destruct (collect_success cfg last m n None 0 (take k accs') s rent debits) as (Hsk & HFs & R' & -> & HR' & Hsum'); [done|by apply Forall_take|done|].
  rewrite wlist_fmap, Hk' in Hsk. split; [by rewrite Hsk|split; [done|]]. exists (R + R'), 0. rewrite HR, wrap64_add_wrap.
  split_and!; [done|lia|done..|]. rewrite Hdue, sum_with_diff, Hsk. unfold k in *. rewrite <-(wlist_take m) in Hsum, Hsum'.
  pose proof (wlist_total (λ x, lamports x.2) m 0 (lt_accounts lt) accs') as Hw. fold m in Hsum. rewrite Htot in Hw.
  enough (sum_with (λ x, lamports x.2) (wlist m 0 accs') = sum_with (λ x, lamports x.2) (wlist m 0 (lt_accounts lt))) by lia.
  assert (length (lt_accounts lt) = length accs') as Hl' by (by rewrite <-(length_fmap fst), <-Hkeys, length_fmap).
  specialize (Hw Hl' Hro). lia.
Qed.

(** A transaction that fails, with a durable nonce. *)
Lemma failed_stored db q tx lt p n i e accs' last s rent debits fee :
  db_ok db → pays_first (st_message tx) → is_u64 fee → load_transaction cfg db tx fee = Ok lt →
  from_partial p (st_message tx) (lt_accounts lt) = Ok n → db !! np_address p = Some (np_account p) → accs'.*1 = (lt_accounts lt).*1 →
  collect_keys cfg (st_message tx) true (Some n) last None 0 (take (length (account_keys (st_message tx))) accs') = Ok (s, rent, debits) →
  fee_due q tx (Err (TxInstructionError i e), Some n) = fee →
  stored_ok db q tx (Err (TxInstructionError i e), Some n) s 0.
Proof.
  intros Hdb Hp Hfee Hl Hn Hnp Hkeys Hc Hdue. set (m := st_message tx) in *.
  destruct (load_transaction_spec cfg db tx fee lt Hdb Hp Hfee Hl) as (Hk & HF & _ & (k & a & a0 & Ha & Hk0 & Ha0 & Hle & _)).
  fold m in Hk, Hk0. destruct (from_partial_spec p m _ k a n Hp Ha Hn) as [Hna Hnf].
  assert (Hua : is_u64 (lamports a)) by (apply (proj1 (Forall_lookup _ _) HF 0%nat (k, a) Ha)).
  pose proof (Hdb _ _ Hnp) as Hup.
  assert (Hbase : is_u64 (lamports (nf_account n)) ∧
    (∀ a, nf_fee_account n = Some a → is_u64 (lamports a) ∧ lamports (nf_account n) <= lam (db !! nf_address n))).
  { destruct (k =? np_address p); destruct Hnf as [-> ->]; (split; [done|]); intros a1 [= <-]. rewrite Hna, Hnp. cbn. split; [done|lia]. }
  destruct Hbase as [Hun Hufa].
  assert (Hk' : (take (length (account_keys m)) accs').*1 = account_keys m) by (by rewrite fmap_take, Hkeys).
  assert (Hlen : length (take (length (account_keys m)) accs') = length (account_keys m)) by (by rewrite <-(length_fmap fst), Hk').
  destruct (take _ accs') as [|[k1 x] accs]; [by rewrite <-Hk' in Hk0|].
  assert (k1 = k) as -> by (rewrite <-Hk' in Hk0; by injection Hk0).
  destruct (collect_failed cfg last db m n k x accs a s rent debits) as (Hsub & HFs & Hsum); [done..| |done|].
  { rewrite Hna. destruct (k =? np_address p); [done|apply Hnf]. }
  rewrite wlist_fmap, Hk' in Hsub. split; [done|split; [done|]].
  exists 0, (- fee - sum_with (λ x, lamports x.2 - lam (db !! x.1)) s). rewrite Ha0 in Hsum. cbn [lam] in Hsum.
  split_and!; [done..|lia|done|lia].
Qed.

Lemma stored_none db q tx e : fee_due q tx e = 0 → stored_ok db q tx e [] 0.
Proof.
  intros Hf. split; [apply sublist_nil_l|split; [done|]]. exists 0, 0. rewrite Hf. unfold sum_with. cbn. split_and!; done.
Qed.

Lemma fee_due_none q tx r : is_ok r = false → fee_due q tx (r, None) = 0.
Proof. intros Hr. unfold fee_due, failed_nonce. cbn. by rewrite Hr, andb_false_r. Qed.

Lemma load_one_Ok b max_age tx lr lt n :
  load_one cfg (accounts b) (blockhash_queue b) tx (check_one cfg b max_age tx lr) = (Ok lt, n) →
  is_ok lr = true ∧ is_tx_already_processed cfg b tx = Some false ∧
  ∃ fc, load_transaction cfg (accounts b) tx (calculate_fee fc (st_message tx)) = Ok lt ∧
  match n with
  | Some n => ∃ p, from_partial p (st_message tx) (lt_accounts lt) = Ok n ∧ accounts b !! np_address p = Some (np_account p) ∧
                fee_calculator_of (np_account p) = Some fc
  | None => get_fee_calculator (blockhash_queue b) (recent_blockhash (st_message tx)) = Some fc
  end.
Proof.
  unfold load_one. destruct (check_one cfg b max_age tx lr) as [[u|e|] pn] eqn:Hc; [|done..].
  apply check_one_Ok in Hc as (Hlr & Hap & Hp). destruct (match pn with Some _ => _ | None => _ end) as [fc|] eqn:Hfc; [|done].
  destruct (load_transaction _ _ _ _) as [lt1|e|] eqn:Hl; [|done..]. intros Heq. split; [done|split; [done|]]. exists fc. destruct pn as [p|].
  - destruct (from_partial p _ (lt_accounts lt1)) as [n1|e|] eqn:Hn; [|done..]. injection Heq as <- <-. split; [done|]. exists p. auto.
  - by injection Heq as <- <-.
Qed.

Lemma execute_one_Ok lt n tx :
  ∃ accs r, execute_one cfg borsh (Ok lt, n) tx =
    ((Ok (mkLoaded accs (lt_loaders lt) (lt_rent lt) (lt_rent_debits lt)), n), (r, if can_commit r then n else None)) ∧
  accs.*1 = (lt_accounts lt).*1 ∧
  (is_ok r = true → ∃ units, process_message (st_message tx) (lt_loaders lt) (lt_accounts lt) units = (accs, Ok tt)).
Proof.
  unfold execute_one. destruct (if feature_active cfg _ then _ else _) as [units|e|].
  - destruct (process_message _ _ _ units) as [accs r] eqn:Hex. exists accs, r. split_and!.
    + by destruct r as [|[]|].
    + by eapply execute_keys.
    + destruct r as [[]|e|]; [|done..]. eauto.
  - exists (lt_accounts lt), (Err e). destruct lt. by destruct e.
  - exists (lt_accounts lt), Panic. by destruct lt.
Qed.

Definition tx_ok (tx : SanitizedTransaction) : Prop :=
  sanitize (st_message tx) = Ok tt ∧ NoDup (account_keys (st_message tx)) ∧ pays_first (st_message tx).

Lemma tx_stored b max_age tx lr last l e s l' :
  db_ok (accounts b) → tx_ok tx →
  execute_one cfg borsh (load_one cfg (accounts b) (blockhash_queue b) tx (check_one cfg b max_age tx lr)) tx = (l, e) →
  collect_one cfg last tx l e = Ok (s, l') →
  stored_ok (accounts b) (blockhash_queue b) tx e s (rent_of (l', e)) ∧ (s ≠ [] → is_ok lr = true).
Proof.
  intros Hdb (Hs & Hnd & Hp) Hex Hc. destruct (load_one cfg _ _ tx _) as [[lt|er|] n] eqn:Hload.
  2,3: cbn in Hex; injection Hex as <- <-; cbn in Hc; injection Hc as <- <-; (split; [by apply stored_none, fee_due_none|done]).
  apply load_one_Ok in Hload as (Hlr & _ & fc & Hl & Hn). split; [|done]. set (fee := calculate_fee fc _) in *.
  pose proof (calculate_fee_u64 fc (st_message tx)) as Hu. fold fee in Hu.
  destruct (execute_one_Ok lt n tx) as (accs & r & Heq & Hkeys & Hok). rewrite Heq in Hex. injection Hex as <- <-.
  assert (Hdue : can_commit r = true → (is_ok r = true ∨ is_Some n) → fee_due (blockhash_queue b) tx (r, if can_commit r then n else None) = fee).
  { intros Hcan Hor. rewrite Hcan. unfold fee_due, failed_nonce. cbn [fst snd].
    assert (is_ok r || is_instruction_error r && bool_decide (is_Some (nf_address <$> n)) = true) as ->.
    { destruct r as [|[]|]; try done. destruct Hor as [?|[? ->]]; [done|]. by rewrite bool_decide_eq_true_2 by eauto. }
    destruct n as [n|]; [|by rewrite Hn]. destruct Hn as (p & Hpn & Hpa & Hfc).
    destruct (load_transaction_spec cfg _ tx fee lt Hdb Hp Hu Hl) as (_ & _ & _ & (k & a & a0 & Ha & _ & Ha0 & _ & Hdata)).
    destruct (from_partial_spec p _ _ k a n Hp Ha Hpn) as [_ Hnf]. destruct (Z.eqb_spec k (np_address p)) as [->|].
    - destruct Hnf as [-> _]. rewrite Hpa in Ha0. injection Ha0 as <-. by rewrite (fee_calculator_of_data _ _ Hdata), Hfc.
    - destruct Hnf as [-> _]. by rewrite Hfc. }
  unfold collect_one in Hc. destruct (can_commit r) eqn:Hcan; [|].
  - destruct r as [[]|[]|]; try done.
    + cbn [is_ok orb] in Hc. apply res_bind_Ok in Hc as ([[s1 rent] debits] & Hc & [= <- <-]). destruct Hok as [units Hok]; [done|].
      unfold rent_of. cbn. eapply success_stored; try done. by apply Hdue; [|left].
    + cbn [is_ok orb is_instruction_error andb] in Hc. destruct n as [n|]; cbn in Hc.
      * apply res_bind_Ok in Hc as ([[s1 rent] debits] & Hc & [= <- <-]). destruct Hn as (p & Hpn & Hpa & _).
        unfold rent_of. cbn. eapply failed_stored; try done. apply Hdue; [done|by right].
      * injection Hc as <- <-. by apply stored_none, fee_due_none.
  - assert (Hr : is_ok r = false) by (by destruct r). rewrite Hr in Hc. cbn in Hc. rewrite andb_false_r in Hc. injection Hc as <- <-.
    unfold rent_of. cbn. rewrite Hr. by apply stored_none, fee_due_none.
Qed.
End transactions.

End bank_props.
