(* ===== verification/BankExecutor.v ===== *)
(** * The message processor executes the bank's transactions

    The accounts of a loaded transaction are put into cells
    ([accounts_to_refcells] of [runtime/src/bank.rs]), the message processor
    works on the cells, and the accounts are taken out again.  For orderly
    programs this keeps what the bank relies on ([ExecutorOk]). *)

From S2P Require Import Prelude F64 Account Features Sysvar Message MessageProps Transaction AccountLocks MessageProcessor AccountRules MessageProcessorProps MessageFrame MessageReadonly MessageSafety Bank BankProps.
From Stdlib Require Import Strings.Byte.

Module bank_executor.
Import message transaction message_processor account_rules message_processor_props message_frame message_readonly message_safety.
Import account_locks(is_writable_total).
Import bank_props(writable_at, ExecutorOk, execute_keys, execute_conserves).

(** ** Cells *)

(** The cells of a list of accounts, from cell [i]. *)
Fixpoint put_cells (i : nat) (l : list Account) (s : gmap nat Account) : gmap nat Account :=
  match l with [] => s | a :: l' => <[i := a]> (put_cells (S i) l' s) end.

(** The accounts named by their cells, from cell [i]. *)
Definition cells_from (i : nat) (l : list (Pubkey * Account)) : list (Pubkey * nat) := imap (λ j x, (x.1, (i + j)%nat)) l.

Fixpoint loader_cells (i : nat) (loaders : list (list (Pubkey * Account))) : list (list (Pubkey * nat)) :=
  match loaders with [] => [] | l :: ls => cells_from i l :: loader_cells (i + length l) ls end.

Definition accounts_to_refcells (accs : list (Pubkey * Account)) (loaders : list (list (Pubkey * Account)))
    : list (Pubkey * nat) * list (list (Pubkey * nat)) * gmap nat Account :=
  (cells_from 0 accs, loader_cells (length accs) loaders, put_cells 0 (snd <$> accs ++ concat loaders) ∅).

Definition refcells_to_accounts (s : gmap nat Account) (accs : list (Pubkey * Account)) : list (Pubkey * Account) :=
  imap (λ i x, (x.1, default x.2 (s !! i))) accs.

(** The processor of the bank; what stays fixed comes from [base]. *)
Definition env_of (base : Env) (accs : list (Pubkey * nat)) : Env :=
  mkEnv (env_rent base) accs (max_invoke_depth base) (feature_active base) (programs base) (native_loader base).

Definition message_executor `{!Codec UpgradeableLoaderState} (base : Env) : Executor := λ m loaders accs units,
  let '(account_refcells, loader_refcells, s) := accounts_to_refcells accs loaders in
  let '(o, r) := message_processor.process_message (env_of base account_refcells) m loader_refcells units false
                   (mkOuter s Timings_default units) in
  (refcells_to_accounts (o_cells o) accs,
   match r with
   | Ok _ => Ok tt
   | Err (i, e) => Err (TxInstructionError i e)
   | Panic => Panic
   end).

(** ** Orderly programs

    Accounts of the program's own making have [u64] lamports; it passes the
    errors of its invocations on, and asks for all accounts of the
    instructions it invokes as writable, as the only native program that
    invokes another does, the upgradeable loader. *)
Fixpoint orderly (p : Prog) : Prop :=
  match p with
  | Return _ => True
  | KeyedAccounts k => ∀ ks, orderly (k ks)
  | Read _ k => ∀ a, orderly (k a)
  | Update _ f p => (∀ a, is_u64 (lamports a) → is_u64 (lamports (f a))) ∧ orderly p
  | Consume _ k => ∀ r, orderly (k r)
  | NativeInvoke ix _ _ k => overt ix ∧ (∀ e, k (Err e) = Return (Err e)) ∧ orderly (k (Ok tt))
  end.

Lemma orderly_disciplined p : orderly p → disciplined overt p.
Proof. induction p; cbn; naive_solver. Qed.

Lemma orderly_overt env : programs_all orderly env → programs_disciplined overt env.
Proof. intros [Hp Hn]. split; intros; apply orderly_disciplined; [by eapply Hp|apply Hn]. Qed.

Lemma orderly_plain env : programs_all orderly env → programs_disciplined plain env.
Proof. intros H%orderly_overt. eapply programs_disciplined_mono; [|exact H]. apply overt_plain. Qed.

(** ** Balances stay [u64] *)

Definition cells_ok (s : gmap nat Account) : Prop := ∀ l a, s !! l = Some a → is_u64 (lamports a).
Definition sober (c c' : Ctx) : Prop := cells_ok (cells c) → cells_ok (cells c').
#[export] Instance sober_preorder : PreOrder sober.
Proof. split; [by intros ? ?|]. intros c1 c2 c3 H1 H2 H. auto. Qed.

Lemma cells_ok_insert s l a : cells_ok s → is_u64 (lamports a) → cells_ok (<[l := a]> s).
Proof. intros Hs Ha l' a'. rewrite lookup_insert_Some. intros [[_ <-]|[_ H]]; [done|by eapply Hs]. Qed.

Lemma update_sober ka f :
  (∀ a, is_u64 (lamports a) → is_u64 (lamports (f a))) → keeps sober (on_cells (update_account ka (λ a, Ok (f a)))).
Proof.
  intros Hf c c' [] (s & (a & a' & Ha & [= <-] & ->)%update_account_Ok & ->)%on_cells_Ok Hc.
  apply cells_ok_insert; [done|]. by eapply Hf, Hc.
Qed.

Lemma exec_sober invoke p :
  (∀ ix js sg, overt ix → keeps sober (invoke ix js sg)) → orderly p → keeps sober (exec invoke p).
Proof.
  intros Hinv. induction p as [r|k IH|i k IH|i f p IH|n k IH|ix js sg k IH]; cbn [orderly exec].
  - intros _ c c' a [-> _]%lift_inv. done.
  - intros Hd. apply (keeps_bind sober); [apply (keeps_read sober), keyed_accounts_state|intros; by apply IH].
  - intros Hd. apply (keeps_bind sober); [apply (keeps_read sober), keyed_accounts_state|intros ks].
    apply (keeps_bind sober); [by apply (keeps_read sober)|intros ka].
    apply (keeps_bind sober); [apply (keeps_read sober), on_cells_ref_state|intros; by apply IH].
  - intros [Hf Hd]. apply (keeps_bind sober); [by apply (keeps_read sober)|intros c0].
    apply (keeps_bind sober); [by apply (keeps_read sober)|intros fr].
    apply (keeps_bind sober); [by apply (keeps_read sober)|intros ka].
    apply (keeps_bind sober); [by apply update_sober|intros _; by apply IH].
  - intros Hd c c' a. cbn. intros H. transitivity (with_meter (saturating_sub (compute_meter c) n) c); [by intros ?|by eapply IH].
  - intros (Ho & Herr & Hd) c c' a. destruct (invoke ix js sg c) as [c1 r] eqn:E. destruct r as [[]|e|]; [| |done].
    + intros H. transitivity c1; [by eapply Hinv|by eapply IH].
    + rewrite Herr. intros [-> ?]%lift_inv. done.
Qed.

Lemma copy_accounts_sober ks js keys : keeps sober (copy_accounts ks js keys).
Proof.
  induction keys as [|k keys IH]; cbn [copy_accounts]; [by apply (keeps_read sober)|].
  destruct (list_find _ js) as [[? i]|]; [|by apply (keeps_read sober)].
  apply (keeps_bind sober); [by apply (keeps_read sober)|intros ka]. intros c c' x H Hc.
  apply st_bind_Ok in H as (c1 & a & (s & [-> Ha]%try_account_ref_Ok & ->)%on_cells_Ok & H).
  apply st_bind_Ok in H as (c2 & l & [= <- <-] & H). apply st_bind_Ok in H as (c3 & y & Hy%IH & [= <- <-]).
  apply Hy. cbn. apply cells_ok_insert; [done|by eapply Hc].
Qed.

Lemma copy_back_sober m ks i accs js : keeps sober (copy_back m ks i accs js).
Proof.
  revert i js. induction accs as [|[k l] accs IH]; intros i js; cbn [copy_back]; [by apply (keeps_read sober)|].
  destruct js as [|j js]; [by apply (keeps_read sober)|].
  apply (keeps_bind sober); [by apply (keeps_read sober)|intros dst]. intros c c' x H Hc.
  apply st_bind_Ok in H as (c1 & src & (s & [-> Hsrc]%try_account_ref_Ok & ->)%on_cells_Ok & H).
  apply st_bind_Ok in H as (c2 & w & [-> _]%expect_Ok & H). apply st_bind_Ok in H as (c3 & [] & H3 & H%IH). apply H.
  destruct (w && negb (executable src)); [|by injection H3 as <-].
  apply st_bind_Ok in H3 as (c4 & n & (s4 & [-> _]%ka_data_len_Ok & ->)%on_cells_Ok & H3).
  apply st_bind_Ok in H3 as (c5 & [] & (_ & -> & _)%ensureS_Ok & H3).
  apply st_bind_Ok in H3 as (c6 & [] & H6%update_sober & H3).
  2: { intros a _. cbn. by eapply Hc. }
  apply st_bind_Ok in H3 as (c7 & [] & H7%update_sober & H3%update_sober); [|done..]. by apply H3, H7, H6.
Qed.

Section executor.
Context `{!Codec UpgradeableLoaderState} (env : Env) (Horderly : programs_all orderly env).

Lemma sober_start c k ks x n l :
  invoke_stack c = mkFrame k ks x n :: l → sober c (with_stack (mkFrame k ks x (S n) :: l) c).
Proof. by intros _ ?. Qed.

Lemma native_invoke_sober run ix js sg :
  (∀ p, orderly p → keeps sober (run p)) → keeps sober (native_invoke env run ix js sg).
Proof.
  intros Hrun. unfold native_invoke.
  apply (keeps_bind sober); [apply (keeps_read sober), keyed_accounts_state|intros ks].
  apply (keeps_bind sober); [by apply (keeps_read sober)|intros chosen].
  apply (keeps_bind sober); [by intros c c' [m pid] (-> & _)%create_message_Ok ?|intros [m pid]].
  apply (keeps_bind sober); [apply copy_accounts_sober|intros [accs reord]].
  apply (keeps_bind sober); [by intros c c' [] [= <-] ?|intros _].
  apply (keeps_bind sober); [apply (keeps_read sober), load_executables_state|intros ex].
  apply (keeps_bind sober); [|intros _; apply (keeps_bind sober);
    [apply (keeps_read sober), keyed_accounts_state|intros ks'; apply copy_back_sober]].
  unfold process_cross_program_instruction. destruct (instructions m) as [|ci cis]; [by apply (keeps_read sober)|].
  apply (keeps_bind sober); [by apply (keeps_read sober)|intros p].
  apply (keeps_bind sober); [by intros c c' [] (l & ->)%verify_and_update_pre ?|intros _].
  apply (keeps_bind sober); [by apply (keeps_read sober)|intros ks'].
  apply (keeps_bind sober); [by intros c c' [] (-> & _)%push_Ok ?|intros _].
  intros c c' []. unfold call_and_verify.
  match goal with |- context [let '(_, _) := ?t in _] => destruct t as [c1 r] eqn:E end.
  intros (c2 & [] & Hp & [-> Hr]%lift_inv)%st_bind_Ok. injection Hp as <-. subst r. intros Hc. cbn. revert Hc.
  apply st_bind_Ok in E as (c2 & [] & H1 & H2).
  apply st_bind_Ok in H2 as (c3 & ws & [-> _]%expect_Ok & (l & ->)%verify_and_update_pre). cbn.
  eapply (process_instruction_keeps env orderly Horderly sober sober_start run Hrun); [|exact H1]. apply table_programs.
Qed.

Lemma run_sober fuel p : orderly p → keeps sober (run env fuel p).
Proof.
  revert p. induction fuel as [|fuel IH]; intros p Hp; cbn [run]; apply exec_sober; try done.
  intros ix js sg _. by apply native_invoke_sober.
Qed.

(** An instruction changes the lamports of accounts that are its own and
    writable in the message. *)
Lemma execute_instruction_sober m ci ex mu idx o o' r :
  NoDup (take (length (account_keys m)) (env_accounts env).*1) →
  (∀ j, j ∈ ci_accounts ci → (j < length (account_keys m))%nat) →
  execute_instruction env m ci ex mu None idx o = (o', Ok r) → cells_ok (o_cells o) →
  cells_ok (o_cells o') ∧
  ∀ l, is_Some (o_cells o !! l) → lamports_at (o_cells o') l ≠ lamports_at (o_cells o) l →
    ∃ j k, env_accounts env !! j = Some (k, l) ∧ j ∈ ci_accounts ci ∧ message_is_writable m j = Some true.
Proof.
  intros Hnd Hlt He Hok. pose proof He as (o1' & H1' & [_ HO])%execute_instruction_frame; [|by apply orderly_plain].
  pose proof He as (o1 & pid & pres & rr & ks & c' & t' & H1 & Hpid & Hpre & Hks & Hp & Hv & Hc' & _)%execute_instruction_Ok.
  rewrite H1 in H1'. injection H1' as <-. pose proof H1 as [Hl Hd]%store_instruction_index_lamports. split.
  - eapply (process_instruction_keeps env orderly Horderly sober sober_start) in Hp; [|intros; by apply run_sober|done].
    rewrite Hc'. apply Hp. cbn. intros l a Ha.
    assert (is_Some (o_cells o !! l)) as [a0 Ha0] by (apply elem_of_dom; rewrite <-Hd; by eapply elem_of_dom_2).
    specialize (Hl l). unfold lamports_at in Hl. rewrite Ha, Ha0 in Hl. cbn in Hl. rewrite Hl. by eapply Hok.
  - intros l Hin Hne. rewrite <-Hl in Hne.
    destruct (decide (l ∈ instruction_cells (env_accounts env) ci)) as [Hcell|Hcell].
    2: { unfold lamports_at in Hne. rewrite HO in Hne; [done| |done]. rewrite Hd. by apply elem_of_dom. }
    apply list_elem_of_omap in Hcell as (j & [Hj _]%unique_from_elem & ([k l'] & Hk & ->)%fmap_Some). exists j, k.
    do 2 (split; [done|]). destruct (is_writable_total m j (Hlt j Hj)) as [[] Hw]; [done|].
    destruct (execute_instruction_readonly env _ _ _ _ _ _ _ _ _ _ _ _ (orderly_overt _ Horderly) Hnd He Hj (Hlt j Hj) Hw Hk)
      as (o2 & H2 & E). rewrite H1 in H2. injection H2 as <-. unfold lamports_at in Hne. cbn in Hne, E. by rewrite E in Hne.
Qed.

Lemma process_instructions_sober m loaders mu cis : ∀ idx o o' rs,
  NoDup (take (length (account_keys m)) (env_accounts env).*1) →
  (∀ ci j, ci ∈ cis → j ∈ ci_accounts ci → (j < length (account_keys m))%nat) →
  process_instructions env m loaders mu false idx cis o = (o', Ok rs) → cells_ok (o_cells o) →
  cells_ok (o_cells o') ∧ dom (o_cells o) ⊆ dom (o_cells o') ∧
  ∀ l, is_Some (o_cells o !! l) → lamports_at (o_cells o') l ≠ lamports_at (o_cells o) l →
    ∃ ci j k, ci ∈ cis ∧ env_accounts env !! j = Some (k, l) ∧ j ∈ ci_accounts ci ∧ message_is_writable m j = Some true.
Proof.
  induction cis as [|ci cis IH]; intros idx o o' rs Hnd Hlt; cbn [process_instructions]; [by intros [= <- _]|].
  intros (o1 & ex & [-> _]%lift_inv & H)%st_bind_Ok Hok.
  apply st_bind_Ok in H as (o1 & r & (r' & He & Hr)%mapE_inv & H). symmetry in Hr. apply map_err_Ok in Hr as ->.
  apply st_bind_Ok in H as (o2 & rs' & H2 & [= <- <-]).
  assert (Hdom : dom (o_cells o) ⊆ dom (o_cells o1)).
  { pose proof He as (o3 & H3 & [HD _])%execute_instruction_frame; [|by apply orderly_plain].
    apply store_instruction_index_lamports in H3 as [_ <-]. done. }
  apply execute_instruction_sober in He as [Hok1 Hch]; [|done|intros j; apply Hlt; left|done].
  apply IH in H2 as (Hok2 & Hdom2 & Hch2); [|done|intros; by eapply Hlt; [right|]|done].
  split_and!; [done|by etrans|]. intros l Hin Hne.
  destruct (decide (lamports_at (o_cells o1) l = lamports_at (o_cells o) l)) as [Heq|Hne1].
  - rewrite <-Heq in Hne. destruct (Hch2 l) as (ci' & j & k & Hci & Hj); [apply elem_of_dom, Hdom; by apply elem_of_dom|done|].
    exists ci', j, k. split; [by right|done].
  - destruct (Hch l Hin Hne1) as (j & k & Hj). exists ci, j, k. split; [left|done].
Qed.
End executor.

Lemma put_cells_lookup i l j : put_cells i l ∅ !! j = if decide (j < i)%nat then None else l !! (j - i)%nat.
Proof.
  revert i. induction l as [|a l IH]; intros i; cbn [put_cells]; [rewrite lookup_empty; by case_decide|].
  destruct (decide (j = i)) as [->|Hne]; [rewrite lookup_insert_eq, decide_False by lia; by rewrite Nat.sub_diag|].
  rewrite lookup_insert_ne, IH by done. repeat case_decide; try lia; [done|]. by replace (j - i)%nat with (S (j - S i)) by lia.
Qed.

Lemma cells_from_lookup l j : cells_from 0 l !! j = (λ x : Pubkey * Account, (x.1, j)) <$> l !! j.
Proof. unfold cells_from. by rewrite list_lookup_imap. Qed.

Lemma cells_from_cells l : snd <$> cells_from 0 l = seq 0 (length l).
Proof.
  apply list_eq. intros j. rewrite list_lookup_fmap, cells_from_lookup. destruct (l !! j) as [x|] eqn:Hj; cbn.
  - apply lookup_lt_Some in Hj. by rewrite lookup_seq_lt.
  - apply lookup_ge_None in Hj. by rewrite lookup_seq_ge.
Qed.

Lemma refcells_total s l :
  (∀ i, (i < length l)%nat → is_Some (s !! i)) →
  sum_with (λ x, lamports x.2) (refcells_to_accounts s l) = total s (seq 0 (length l)).
Proof.
  intros Hs. unfold total. rewrite <-(sum_with_fmap (λ x, x) (λ x : Pubkey * Account, lamports x.2)), <-(sum_with_fmap (λ x, x) (lamports_at s)).
  f_equal. apply list_eq. intros i. rewrite !list_lookup_fmap. unfold refcells_to_accounts. rewrite list_lookup_imap.
  destruct (l !! i) as [x|] eqn:Hi; cbn.
  - apply lookup_lt_Some in Hi. rewrite lookup_seq_lt by done. cbn. destruct (Hs i Hi) as [a Ha]. unfold lamports_at. by rewrite Ha.
  - apply lookup_ge_None in Hi. by rewrite lookup_seq_ge.
Qed.

(** An account passed to an instruction is more than a program. *)
Lemma passed_writable m ci j :
  sanitize m = Ok tt → ci ∈ instructions m → j ∈ ci_accounts ci → message_is_writable m j = Some true → writable_at m j = true.
Proof.
  intros (_ & _ & Hs)%sanitize_Ok Hci Hj Hw. unfold writable_at. rewrite (bool_decide_eq_true_2 (_ = Some true)) by done.
  rewrite forallb_forall in Hs. pose proof Hci as Hin. apply list_elem_of_In in Hin. apply Hs, sanitize_instruction_spec in Hin as (_ & _ & Hlt).
  rewrite (bool_decide_eq_true_2 (j < _)%nat) by auto. unfold is_non_loader_key, is_key_called_as_program, is_key_passed_to_program.
  case_bool_decide; [|done]. cbn. rewrite andb_true_r, orb_true_iff. right. apply existsb_exists. exists ci.
  split; [by apply list_elem_of_In|]. by rewrite bool_decide_eq_true_2.
Qed.

Lemma put_cells_accounts (accs : list (Pubkey * Account)) rest i x :
  accs !! i = Some x → put_cells 0 (snd <$> accs ++ rest) ∅ !! i = Some x.2.
Proof.
  intros Hx. rewrite put_cells_lookup, decide_False, Nat.sub_0_r, fmap_app by lia.
  rewrite lookup_app_l by (rewrite length_fmap; by eapply lookup_lt_Some). by rewrite list_lookup_fmap, Hx.
Qed.

Lemma put_cells_ok (l : list (Pubkey * Account)) :
  Forall (λ x, is_u64 (lamports x.2)) l → cells_ok (put_cells 0 (snd <$> l) ∅).
Proof.
  intros HF i a. rewrite put_cells_lookup. case_decide; [done|]. rewrite list_lookup_fmap.
  intros (x & Hx & ->)%fmap_Some. by apply (proj1 (Forall_lookup _ _) HF _ _ Hx).
Qed.

(** A run of the processor on the cells of the accounts. *)
Lemma processor_keeps `{!Codec UpgradeableLoaderState} base m loaders accs mu o o' rs :
  programs_all orderly base → sanitize m = Ok tt → NoDup (take (length (account_keys m)) accs.*1) → cells_ok (o_cells o) →
  (∀ i x, accs !! i = Some x → o_cells o !! i = Some x.2) →
  message_processor.process_message (env_of base (cells_from 0 accs)) m loaders mu false o = (o', Ok rs) →
  (∀ i, (i < length accs)%nat → is_Some (o_cells o' !! i)) ∧ cells_ok (o_cells o') ∧
  total (o_cells o') (seq 0 (length accs)) = sum_with (λ x, lamports x.2) accs ∧
  ∀ i x, accs !! i = Some x → writable_at m i = false → lamports_at (o_cells o') i = lamports x.2.
Proof.
  intros Horderly Hs Hnd Hok Ho Hrun. set (env := env_of base (cells_from 0 accs)) in *. unfold message_processor.process_message in Hrun.
  assert (Hcells : snd <$> env_accounts env = seq 0 (length accs)) by apply cells_from_cells.
  assert (Hkeys : (env_accounts env).*1 = accs.*1).
  { apply list_eq. intros i. rewrite !list_lookup_fmap. cbn. rewrite cells_from_lookup. by destruct (accs !! i). }
  assert (Hin : ∀ i, (i < length accs)%nat → is_Some (o_cells o !! i)).
  { intros i [x Hx]%lookup_lt_is_Some. rewrite (Ho _ _ Hx). eauto. }
  assert (Hlt : ∀ ci j, ci ∈ instructions m → j ∈ ci_accounts ci → (j < length (account_keys m))%nat).
  { intros ci j Hci%list_elem_of_In Hj. pose proof Hs as (_ & _ & Hsi)%sanitize_Ok. rewrite forallb_forall in Hsi.
    apply Hsi, sanitize_instruction_spec in Hci as (_ & _ & Hlt). auto. }
  pose proof Hrun as Hcons. apply process_instructions_conserves in Hcons; [|by apply orderly_plain| |].
  2:{ rewrite Hcells. apply NoDup_seq. }
  2:{ intros l. rewrite Hcells, elem_of_seq. intros [_ Hl]. by apply Hin. }
  apply (process_instructions_sober env Horderly) in Hrun as (Hok' & Hdom & Hch); [|by rewrite Hkeys|done..].
  rewrite Hcells in Hcons. split_and!.
  - intros i Hi. apply elem_of_dom, Hdom. by apply elem_of_dom, Hin.
  - done.
  - rewrite Hcons, <-(refcells_total (o_cells o)) by done. f_equal. unfold refcells_to_accounts. apply list_eq. intros i.
    rewrite list_lookup_imap. destruct (accs !! i) as [[k a]|] eqn:Hi; [|done]. cbn. by rewrite (Ho _ _ Hi).
  - intros i x Hx Hw. assert (Heq : lamports_at (o_cells o) i = lamports x.2) by (unfold lamports_at; by rewrite (Ho _ _ Hx)).
    rewrite <-Heq. destruct (decide (lamports_at (o_cells o') i = lamports_at (o_cells o) i)) as [?|Hne]; [done|].
    destruct (Hch i) as (ci & j & k & Hci & Hj & Hjc & Hjw); [by rewrite (Ho _ _ Hx)|done|].
    cbn in Hj. rewrite cells_from_lookup in Hj. destruct (accs !! j); [|done]. injection Hj as _ ->.
    by rewrite (passed_writable m ci i) in Hw.
Qed.

(** The message processor keeps what the bank relies on. *)
Lemma message_executor_ok `{!Codec UpgradeableLoaderState} base :
  programs_all orderly base → @ExecutorOk (message_executor base).
Proof.
  intros Horderly. split.
  - intros m loaders accs units accs' r. unfold Bank.process_message, message_executor.
    destruct (accounts_to_refcells accs loaders) as [[ra rl] s].
    destruct (message_processor.process_message (env_of base ra) m rl units false _) as [o ro]. intros [= <- _]. unfold refcells_to_accounts.
    apply list_eq. intros i. rewrite !list_lookup_fmap, list_lookup_imap. by destruct (accs !! i).
  - intros m loaders accs units accs'. unfold Bank.process_message, message_executor, accounts_to_refcells.
    destruct (message_processor.process_message _ m _ _ _ _) as [o' ro] eqn:Hrun. intros [= <- Hro] Hs Hnd HF HL.
    destruct ro as [rs|[i e]|]; [|done..].
    apply processor_keeps in Hrun as (Hin & Hok & Htot & Hro'); [|done..| |intros; by apply put_cells_accounts].
    2: { apply put_cells_ok, Forall_app. split; [done|by apply Forall_concat]. }
    rewrite refcells_total by done. split_and!; [|done|].
    + apply Forall_lookup. intros i x. unfold refcells_to_accounts. rewrite list_lookup_imap.
      destruct (accs !! i) as [[k a]|] eqn:Hi; [|done]. intros [= <-]. cbn. apply lookup_lt_Some in Hi.
      destruct (Hin i Hi) as [a' Ha']. rewrite Ha'. by eapply Hok.
    + intros i x x' Hx. unfold refcells_to_accounts. rewrite list_lookup_imap, Hx. intros [= <-] Hw. cbn.
      rewrite <-(Hro' _ _ Hx Hw). apply lookup_lt_Some in Hx. unfold lamports_at. by destruct (Hin i Hx) as [a' ->].
Qed.
End bank_executor.
