(* ===== verification/BankBatch.v ===== *)
(** * Processing a batch conserves lamports

    The transactions of a batch that hold their locks write different
    accounts, so what each of them stores adds up; the fees of the
    transactions that failed are withdrawn afterwards. *)

From S2P Require Import Prelude F64 Account Features Sysvar Message MessageProps Fees FeesProps System Transaction AccountLocks StatusCache MessageProcessor MessageProcessorProps VoteState VoteProgram Bank BankProps BankExecutor.
From Stdlib Require Import Strings.Byte.

Module bank_batch.
Import message fees system_program nonce transaction status_cache account_locks bank bank_props.
Import message_processor(UpgradeableLoaderState, Env) message_processor_props(programs_all) bank_executor(orderly, message_executor, message_executor_ok).
Import vote_program(VoteInstruction).

(** ** What the locks give *)

Definition batch_entry : Type := SanitizedTransaction * Result unit.

Fixpoint apart (l : list batch_entry) : Prop :=
  match l with
  | [] => True
  | x :: l' =>
      (∀ y k, y ∈ l' → is_ok x.2 = true → is_ok y.2 = true → writes (st_message x.1) k → ¬ writes (st_message y.1) k) ∧ apart l'
  end.

Lemma run_needs_unlock bs l : run bs l → Forall (λ b, needs_unlock b = true) bs.
Proof.
  induction 1 as [|bs l txs b l' _ IH _ _ Hp|bs1 b bs2 l b' l' _ IH _]; [done| |].
  - apply Forall_app. split; [done|]. apply Forall_singleton. unfold prepare_sanitized_batch, TransactionBatch_new in Hp.
    destruct (lock_accounts txs l) as [[rs l1]|]; [|done]. cbn in Hp. case_bool_decide; [|done]. by injection Hp as <- <-.
  - apply Forall_app in IH as [? [? ?]%Forall_cons]. by apply Forall_app.
Qed.

Lemma tx_keys_writes tx k : k ∈ (tx_keys tx).1 ↔ writes (st_message tx) k.
Proof. destruct (lock_keys (st_message tx)) as (w & r & Hk & Hw & _). rewrite tx_keys_Some in Hk. injection Hk as ->. apply Hw. Qed.

(** The transactions of a list that hold locks do not conflict. *)
Lemma apart_locked (l : list batch_entry) (H : list (list Pubkey * list Pubkey)) :
  (∀ i j x y, i ≠ j → H !! i = Some x → H !! j = Some y → ¬ conflict x y) →
  sublist (tx_keys <$> (filter (λ x : batch_entry, took_locks x.2 = true) l).*1) H → apart l.
Proof.
  revert H. induction l as [|x l IH]; intros H Hno Hsub; [done|]. rewrite filter_cons in Hsub. case_decide as Ht.
  - cbn in Hsub. apply sublist_cons_l in Hsub as (H1 & H2 & -> & Hsub). split.
    + intros y k Hy Hx Hyr Hwx Hwy.
      assert (Hin : tx_keys y.1 ∈ H2).
      { eapply elem_of_sublist; [|exact Hsub]. apply list_elem_of_fmap. exists y.1. split; [done|].
        apply list_elem_of_fmap. exists y. split; [done|]. apply list_elem_of_filter. split; [|done]. by destruct y as [? [|[]|]]. }
      apply list_elem_of_lookup in Hin as [j Hj]. apply (Hno (length H1) (length H1 + S j)%nat (tx_keys x.1) (tx_keys y.1)); [lia| | |].
      * by rewrite list_lookup_middle.
      * rewrite lookup_app_r by lia. by replace (length H1 + S j - length H1)%nat with (S j) by lia.
      * exists k. left. rewrite !tx_keys_writes. auto.
    + apply (IH H2); [|done]. intros i j a c Hij Ha Hc. apply (Hno (length H1 + S i)%nat (length H1 + S j)%nat); [lia| |].
      * rewrite lookup_app_r by lia. by replace (length H1 + S i - length H1)%nat with (S i) by lia.
      * rewrite lookup_app_r by lia. by replace (length H1 + S j - length H1)%nat with (S j) by lia.
  - split; [|by eapply IH]. intros y k _ Hx. exfalso. apply Ht. by destruct x as [? [|[]|]].
Qed.

Lemma batch_apart bs l batch : run bs l → batch ∈ bs → apart (zip (sanitized_txs batch) (lock_results batch)).
Proof.
  intros Hrun Hb. pose proof (run_needs_unlock _ _ Hrun) as Hu. apply run_locked in Hrun as [Hl _].
  apply (apart_locked _ _ (lk_apart _ _ Hl)). rewrite Forall_forall in Hu. specialize (Hu _ Hb).
  apply list_elem_of_split in Hb as (bs1 & bs2 & ->). rewrite bind_app. cbn. rewrite !fmap_app.
  apply sublist_inserts_l, sublist_inserts_r. unfold holders. by rewrite Hu.
Qed.

(** A transaction the bank has sanitized; its counts have their widths, and
    its fee payer is not one of the keys that nobody writes. *)
Definition admissible (tx : SanitizedTransaction) : Prop :=
  (∃ t h, try_create t h = Ok tx) ∧ message_ok (st_message tx) ∧
  ∀ k, account_keys (st_message tx) !! 0%nat = Some k → reserved_key k = false.

Lemma sanitized_pays_first m :
  message_ok m → sanitize m = Ok tt → (∀ k, account_keys m !! 0%nat = Some k → reserved_key k = false) → pays_first m.
Proof.
  intros Hm Hs Hk. pose proof (sanitized_writable m 0 Hm Hs) as Hw. apply sanitize_Ok in Hs as (H1 & H2 & H3).
  destruct Hm as (U1 & U2 & U3 & _). unfold is_u8 in *.
  assert (is_Some (account_keys m !! 0%nat)) as [k Hk0] by (apply lookup_lt_is_Some; lia). split_and!; [by eauto| |].
  - unfold is_non_loader_key, is_key_called_as_program. destruct (existsb _ _) eqn:He; [|by rewrite andb_false_r].
    apply existsb_exists in He as (ci & Hci & Hz%bool_decide_eq_true). rewrite forallb_forall in H3.
    apply H3, sanitize_instruction_spec in Hci as (_ & ? & _). done.
  - rewrite Hw, Hk0. rewrite (proj2 (Z.ltb_lt _ _)) by lia. cbn. by rewrite (Hk k Hk0).
Qed.

Lemma admissible_ok tx : admissible tx → tx_ok tx ∧ st_signatures tx ≠ [].
Proof.
  intros ((t & h & Hc) & Hm & Hk). apply try_create_Ok in Hc as (-> & Hnd & Hs & Hsig). split.
  - split_and!; [done..|by apply sanitized_pays_first].
  - apply sanitize_Ok in Hs as (_ & H2 & _). destruct Hm as (_ & U2 & _). unfold is_u8, st_message, st_signatures in *. cbn in *.
    intros He. rewrite He in Hsig. cbn in Hsig. lia.
Qed.

(** ** What is stored *)

Section batches.
Context `{!Codec Versions, !Codec SystemInstruction, !Codec UpgradeableLoaderState}.
Context (cfg : BankConfig) `{!Codec VoteInstruction} `{!Executor} `{!ExecutorOk} (borsh : list byte → option Z).

Definition fees_due (q : BlockhashQueue) (txs : list SanitizedTransaction) (es : list TransactionExecutionResult) : Z :=
  sum_with (λ x, fee_due q x.1 x.2) (zip txs es).

Definition execute_all (b : Bank) (max_age : nat) (txs : list SanitizedTransaction) (lrs : list (Result unit))
    : list (TransactionLoadResult * TransactionExecutionResult) :=
  zip_with (execute_one cfg borsh) (load_accounts cfg (accounts b) (blockhash_queue b) txs (check_transactions cfg b max_age txs lrs)) txs.

Lemma stored_writes db q tx e s rent k : stored_ok db q tx e s rent → k ∈ s.*1 → writes (st_message tx) k.
Proof.
  intros [Hsub _] Hk. eapply elem_of_sublist in Hk; [|exact Hsub]. apply wlist_elem in Hk as (j & Hj & Hw). exists j.
  unfold writable_at in Hw. apply andb_true_iff in Hw as [_ Hw%bool_decide_eq_true]. done.
Qed.

Lemma batch_stored b max_age last txs lrs ss ls :
  db_ok (accounts b) → Forall tx_ok txs → apart (zip txs lrs) →
  collect_accounts_to_store cfg last txs (execute_all b max_age txs lrs).*1 (execute_all b max_age txs lrs).*2 = Ok (ss, ls) →
  NoDup ss.*1 ∧ (∀ k, k ∈ ss.*1 → ∃ x, x ∈ zip txs lrs ∧ is_ok x.2 = true ∧ writes (st_message x.1) k) ∧
  Forall (λ x, is_u64 (lamports x.2)) ss ∧
  ∃ R L, (∀ n, foldl (λ n x, add64 n (rent_of x)) (wrap64 n) (zip ls (execute_all b max_age txs lrs).*2) = wrap64 (n + R)) ∧
    0 <= R ∧ 0 <= L ∧ (forallb (λ e, negb (failed_nonce e)) (execute_all b max_age txs lrs).*2 = true → L = 0) ∧
    sum_with (λ x, lamports x.2 - lam (accounts b !! x.1)) ss + R +
      fees_due (blockhash_queue b) txs (execute_all b max_age txs lrs).*2 + L = 0.
Proof.
  intros Hdb HF. revert lrs ss ls. induction HF as [|tx txs Htx HF IH]; intros [|lr lrs] ss ls Hap; cbn [execute_all zip_with].
  1-3: intros [= <- <-]; split; [constructor|split; [set_solver|split; [done|]]]; exists 0, 0; unfold fees_due, sum_with; cbn;
    (split; [by intros n; rewrite Z.add_0_r|done]).
  unfold execute_all, load_accounts, check_transactions in *. cbn [zip_with fmap list_fmap].
  destruct (execute_one _ _ _ tx) as [l e] eqn:Hex. cbn [fst snd collect_accounts_to_store]. fold (@fmap list _).
  intros ([s l'] & Hc & ([ss' ls'] & Hcs & [= <- <-])%res_bind_Ok)%res_bind_Ok. destruct Hap as [Hhd Hap].
  destruct (IH _ _ _ Hap Hcs) as (Hnd & Hks & HFs & R & L & Hrent & HR & HL & HL0 & Hsum).
  destruct (tx_stored cfg borsh b max_age tx lr last l e s l' Hdb Htx Hex Hc) as [Hst Hlr].
  set (es := (zip_with (execute_one cfg borsh) _ txs).*2) in *.
  pose proof (λ k, stored_writes _ _ _ _ _ _ k Hst) as Hw. destruct Hst as (Hsub & HFst & R1 & L1 & HR1 & HR1' & HL1 & HL10 & Hsum1).
  rewrite fmap_app. split_and!.
  - apply NoDup_app. split_and!; [|intros k Hk Hk'|done].
    + eapply sublist_NoDup; [|exact Hsub]. eapply sublist_NoDup; [|apply wlist_sublist]. apply Htx.
    + destruct (Hks _ Hk') as (y & Hy & Hyo & Hyw). apply (Hhd y k Hy); [apply Hlr; intros ->; by apply not_elem_of_nil in Hk|done|by apply Hw|done].
  - intros k [Hk|Hk]%elem_of_app; [|destruct (Hks _ Hk) as (y & ? & ? & ?); exists y; set_solver].
    exists (tx, lr). split; [left|]. split; [apply Hlr; intros ->; by apply not_elem_of_nil in Hk|by apply Hw].
  - by apply Forall_app.
  - exists (R1 + R), (L1 + L). split.
    { intros n. cbn [zip_with foldl]. rewrite HR1, wrap64_add_wrap, Hrent. f_equal. lia. }
    split; [lia|split; [lia|]]. split.
    + cbn. intros [He Hes]%andb_true_iff. apply negb_true_iff in He. rewrite HL10, HL0 by done. done.
    + unfold fees_due in *. cbn [zip_with]. rewrite sum_with_app. unfold sum_with in *. cbn [foldr fst snd]. lia.
Qed.

(** ** The fees *)

Lemma batch_fees q txs es db rs fees db' :
  db_ok db → collect_fees_each cfg q txs es db = (rs, fees, db') →
  db_ok db' ∧ ∃ W, 0 <= W ∧ fees = wrap64 (fees_due q txs es + W) ∧ total db' + W = total db.
Proof.
  revert es db rs fees db'. induction txs as [|tx txs IH]; intros [|e es] db rs fees db' Hdb; cbn [collect_fees_each].
  1-3: intros [= <- <- <-]; split; [done|exists 0; split_and!; [done|done|lia]].
  destruct (collect_fee_one cfg q tx e db) as [[r f] db1] eqn:H1. destruct (collect_fees_each cfg q txs es db1) as [[rs1 fees1] db2] eqn:H2.
  intros [= <- <- <-]. apply collect_fee_one_spec in H1 as (Hdb1 & W1 & HW1 & -> & Ht1); [|done].
  apply IH in H2 as (Hdb2 & W2 & HW2 & -> & Ht2); [|done]. split; [done|]. exists (W1 + W2). split_and!; [lia| |lia].
  rewrite wrap64_add_l. unfold fees_due, sum_with. cbn [zip_with foldr fst snd]. f_equal. lia.
Qed.

Lemma fees_due_nonneg q txs es : 0 <= fees_due q txs es.
Proof. apply sum_with_nonneg, Forall_forall. intros x _. apply fee_due_nonneg. Qed.

(** ** The bank *)

(** What the accounts and the two purses hold together. *)
Definition value (b : Bank) : Z := total (accounts b) + collector_fees b + collected_rent b.

Definition bank_ok (b : Bank) : Prop :=
  db_ok (accounts b) ∧ 0 <= collector_fees b ∧ 0 <= collected_rent b ∧ value b <= u64_max.

Lemma assert_inv (c : bool) (b b' : Bank) : assert_ (E:=Empty_set) c b = (b', Ok tt) → b' = b.
Proof. unfold assert_. by destruct c; intros [= <-]. Qed.

Lemma commit_inv draw txs ex b b' rs :
  commit_transactions cfg draw txs ex b = (b', Ok rs) →
  ∃ last ss ls frs fees c,
    collect_accounts_to_store cfg last txs (ex_loaded ex) (ex_results ex) = Ok (ss, ls) ∧
    update_transaction_statuses cfg draw txs (ex_results ex) (bank_status_cache b) = Ok c ∧
    collect_fees_each cfg (blockhash_queue b) txs (ex_results ex) (db_store_all ss (accounts b)) = (frs, fees, accounts b') ∧
    bank_status_cache b' = c ∧ blockhash_queue b' = blockhash_queue b ∧
    collector_fees b' = add64 (collector_fees b) fees ∧
    collected_rent b' = add64 (collected_rent b) (foldl (λ n x, add64 n (rent_of x)) 0 (zip ls (ex_results ex))) ∧
    execution_results rs = ex_results ex.
Proof.
  unfold commit_transactions, filter_program_errors_and_collect_fee.
  intros (b0 & ? & [= <- <-] & (? & [] & Ha & Hc)%st_bind_Ok)%st_bind_Ok. apply assert_inv in Ha as ->.
  apply st_bind_Ok in Hc as (? & [] & [= <-] & (? & last & [-> _]%lift_inv & (? & [ss ls] & [-> Hcol]%lift_inv & Hc)%st_bind_Ok)%st_bind_Ok).
  apply st_bind_Ok in Hc as (? & [] & [= <-] & (? & [] & [= <-] & (? & ? & [= <- <-] & Hc)%st_bind_Ok)%st_bind_Ok).
  apply st_bind_Ok in Hc as (? & c & [-> Hst]%lift_inv & (? & [] & [= <-] & (? & frs & Hfil & [= <- <-])%st_bind_Ok)%st_bind_Ok).
  apply st_bind_Ok in Hfil as (? & ? & [= <- <-] & Hfil).
  destruct (collect_fees_each _ _ _ _ _) as [[rs0 fees] db'] eqn:Hfees.
  apply st_bind_Ok in Hfil as (? & [] & Ha & (? & [] & [= <-] & [= <- _])%st_bind_Ok). apply assert_inv in Ha as ->.
  exists last, ss, ls, rs0, fees, c. by split_and!.
Qed.

Lemma commit_value draw b max_age batch b' rs :
  bank_ok b → Forall tx_ok (sanitized_txs batch) → apart (zip (sanitized_txs batch) (lock_results batch)) →
  load_execute_and_commit_transactions cfg borsh draw batch max_age b = (b', Ok rs) →
  bank_ok b' ∧ value b' <= value b ∧
  (forallb (λ e, negb (failed_nonce e)) (execution_results rs) = true → value b' = value b).
Proof.
  intros (Hdb & Hf & Hr & Hv) HF Hap. unfold load_execute_and_commit_transactions.
  intros (b1 & ? & [= <- <-] & (b2 & ex & [-> Hex]%lift_inv & Hc)%st_bind_Ok)%st_bind_Ok.
  unfold load_and_execute_transactions in Hex. fold (execute_all b max_age (sanitized_txs batch) (lock_results batch)) in Hex.
  destruct (forallb _ _); [|done]. injection Hex as ->.
  apply commit_inv in Hc as (last & ss & ls & frs & fees & c & Hcol & _ & Hfees & _ & _ & Hcf & Hcr & Hres). cbn in *.
  apply batch_stored in Hcol as (Hnd & _ & HFs & R & L & Hrent & HR & HL & HL0 & Hsum); [|done..].
  apply batch_fees in Hfees as (Hdb' & W & HW & -> & Htot); [|by apply db_ok_store_all]. rewrite total_store_all in Htot by done.
  specialize (Hrent 0). change (wrap64 0) with 0 in Hrent. rewrite Hrent, wrap64_add_l in Hcr. rewrite wrap64_add_l in Hcf.
  pose proof (fees_due_nonneg (blockhash_queue b) (sanitized_txs batch) (execute_all b max_age (sanitized_txs batch) (lock_results batch)).*2).
  pose proof (total_nonneg _ Hdb'). unfold bank_ok, value in *.
  rewrite wrap64_id in Hcf, Hcr by (unfold is_u64; lia). rewrite Hres, Hcf, Hcr. split_and!; [done|lia..|]. intros Hn. specialize (HL0 Hn). lia.
Qed.

End batches.

(** ** The property *)

Section processor.
Context `{!Codec Versions, !Codec SystemInstruction, !Codec UpgradeableLoaderState, !Codec VoteInstruction}.
Context (base : Env).

(** The bank executes messages with the message processor. *)
#[local] Instance processor_executor : Executor := message_executor base.

(** C1. Processing a batch creates no lamports: what the accounts, the
    collected fees and the collected rent hold together stays the same, and
    is less afterwards only if a transaction with a durable nonce failed in an
    instruction.  No balance overflows.  The batch holds its locks, its
    transactions passed [SanitizedTransaction::try_create] with fee payers
    that are not reserved keys, and the balances of the bank and their sum are
    [u64].  The messages run in the message processor with any programs that
    are orderly: that write [u64] balances, pass the errors of their
    invocations on, and ask for all the accounts of the instructions they
    invoke as writable (the last is needed for [native_invoke] to keep
    read-only accounts as they are). *)
Theorem batch_conserves_lamports cfg borsh draw bs locks batch max_age b b' rs :
  programs_all orderly base →
  run bs locks → batch ∈ bs → Forall admissible (sanitized_txs batch) → bank_ok b →
  load_execute_and_commit_transactions cfg borsh draw batch max_age b = (b', Ok rs) →
  bank_ok b' ∧ value b' <= value b ∧
  (forallb (λ e, negb (failed_nonce e)) (execution_results rs) = true → value b' = value b).
Proof.
  intros Hbase Hrun Hb Hadm Hok Hex. pose proof (message_executor_ok base Hbase) as Hexec.
  eapply (commit_value cfg borsh); [done| |by eapply batch_apart|exact Hex].
  eapply Forall_impl; [exact Hadm|]. intros tx Htx. by apply admissible_ok.
Qed.
End processor.
End bank_batch.
