(* ===== verification/BankOnce.v ===== *)
(** * A bank commits a message once

    The status cache and the account locks together keep a bank from
    committing the same message twice: a later batch finds the message in the
    cache, and two copies in one batch would both need the write lock of the
    fee payer. *)

From S2P Require Import Prelude F64 Account Features Sysvar Message MessageProps Fees FeesProps System Transaction AccountLocks StatusCache MessageProcessor VoteState VoteProgram Bank BankProps BankBatch.
From Stdlib Require Import Strings.Byte.

Module bank_once.
Import message fees system_program nonce transaction status_cache account_locks bank bank_props bank_batch.
Import message_processor(UpgradeableLoaderState).
Import vote_program(VoteInstruction).

(** ** Loading fails with errors of its own *)






Section loading.
Context `{!Codec Versions, !Codec SystemInstruction, !Codec UpgradeableLoaderState}.
Context (cfg : BankConfig).








Context `{!Codec VoteInstruction}.


End loading.

(** ** One bank *)





Section once.
Context `{!Codec Versions, !Codec SystemInstruction, !Codec UpgradeableLoaderState}.
Context (cfg : BankConfig) `{!Codec VoteInstruction} `{!Executor} `{!ExecutorOk} (borsh : list byte → option Z).
(** [message_hash] is the hash of the message. *)
Context (hash_of : Message → Hash).









End once.
End bank_once.
