(* ===== verification/BankExample.v ===== *)
(** * A bank at work

    A batch on a small bank, for the properties of the bank: one transaction
    moves lamports, one fails and pays its fee, one does not get its locks.
    The programs run in the message processor.  Then two batches with durable
    nonces, which show what a failing one loses. *)

From S2P Require Import Prelude F64 Account Serial Features Sysvar Message MessageProps Fees FeesProps System SystemProps Transaction AccountLocks StatusCache MessageProcessor MessageProcessorProps MessageSafety VoteState VoteProgram Bank BankProps BankExecutor BankBatch BankOnce.
From Stdlib Require Import Strings.Byte.

Module bank_example.
Import message fees system_program nonce transaction status_cache account_locks bank bank_props bank_executor bank_batch bank_once.
Import message_processor(UpgradeableLoaderState, Prog, Program, Return, Read, Update, Env, mkEnv).
Import vote_program(VoteInstruction).

#[local] Existing Instances system_props.example.versions_codec system_props.example.instruction_codec.
#[local] Existing Instances message_safety.example.uls_codec vote_program.example.instruction_codec.

(** ** Programs *)

(** Program 500 moves five lamports from its first account to its second;
    program 501 fails. *)
Definition mover : Program := λ _ _,
  Update 0 (λ a, set_lamports (sub64 (lamports a) 5) a)
    (Update 1 (λ a, set_lamports (add64 (lamports a) 5) a) (Return (Ok tt))).
Definition failing : Program := λ _ _, Return (Err (Custom 7)).

Definition base : Env :=
  mkEnv Rent_default [] 4 (λ _, false) [(500, mover); (501, failing)] (λ _ _, Return (Err GenericError)).

Lemma base_orderly : message_processor_props.programs_all orderly base.
Proof.
  split; [|done]. intros id p Hin pid d. cbn in Hin.
  apply elem_of_cons in Hin as [[= -> ->]|[[= -> ->]|[]%not_elem_of_nil]%elem_of_cons]; [|done].
  cbn. split_and!; [intros; apply wrap64_range..|done].
Qed.

#[local] Instance executor : Executor := message_executor base.
#[local] Instance executor_ok : ExecutorOk := message_executor_ok base base_orderly.

(** ** The bank *)

Definition cfg : BankConfig :=
  mkBankConfig 9 30 {[9; 8]} Development (λ _, false) fees_props.rent_collector None.

Definition program_account : Account := mkAccount 1 [x00] native_loader_id true 30.
Definition bank : Bank :=
  mkBank {[ 12 := mkAccount 10000000 [] system_program_id false 31;
            13 := mkAccount 10000000 [] system_program_id false 31;
            11 := mkAccount 500000 [x00; x01] 500 false 28;
            500 := program_account; 501 := program_account ]}
    (mkQueue 3 (Some 77) {[ 77 := mkHashAge (mkFeeCalculator 5000) 3 0 ]} 10)
    StatusCache_default 100 0 0 0 0 0 0 false false.

Definition message (payer program : Pubkey) : Message :=
  mkMessage (mkHeader 1 0 1) [payer; 11; program] 77 [mkCompiled 2 [1; 0]%nat []].
Definition tx (m : Message) (h : Hash) : SanitizedTransaction := mkSanitized (mkTransaction [key_bytes h] m) h.

(** The second one needs account 11, which the first one writes; the last one
    has only its payer. *)
Definition failing_message : Message := mkMessage (mkHeader 1 0 1) [13; 501] 77 [mkCompiled 1 [0]%nat []].
Definition txs : list SanitizedTransaction :=
  [tx (message 12 500) 1001; tx (message 13 501) 1002; tx failing_message 1003].
Definition batch : TransactionBatch := mkBatch [Ok tt; Err AccountInUse; Ok tt] txs true.
Definition locks : AccountLocks := default AccountLocks_default (snd <$> prepare_sanitized_batch txs AccountLocks_default).

Lemma batch_run : run [batch] locks.
Proof.
  apply (run_prepare [] AccountLocks_default txs); [constructor| |done|vm_compute; reflexivity].
  repeat constructor; cbn; set_solver by lia.
Qed.

Definition commit (b : Bank) : Bank * res Empty_set TransactionResults :=
  load_execute_and_commit_transactions cfg (λ _, None) (λ _, 3%nat) batch 10 b.
Definition bank' : Bank := (commit bank).1.
Definition results : TransactionResults :=
  match (commit bank).2 with Ok r => r | _ => mkResults [] [] [] end.

Lemma commit_eq : commit bank = (bank', Ok results).
Proof. vm_compute. reflexivity. Qed.

(** The hashes of the three messages. *)
Definition hash_of (m : Message) : Hash :=
  if bool_decide (head (account_keys m) = Some 12) then 1001
  else if bool_decide (length (account_keys m) = 3%nat) then 1002 else 1003.

Lemma txs_admissible : Forall (λ tx, admissible tx ∧ message_hash tx = hash_of (st_message tx)) txs.
Proof.
  repeat apply Forall_cons_2; [..|done].
  all: match goal with |- admissible ?x ∧ _ => assert (Hx : try_create (st_transaction x) (message_hash x) = Ok x) by (vm_compute; reflexivity) end.
  all: split; [split_and!; [by eexists _, _|vm_compute; intuition congruence|by intros k [= <-]]|vm_compute; reflexivity].
Qed.

Lemma bank_is_ok : bank_ok bank.
Proof.
  split_and!; [|vm_compute; congruence..]. unfold db_ok. change (map_Forall (λ _ a, is_u64 (lamports a)) (accounts bank)).
  apply (bool_decide_unpack _). vm_compute. exact I.
Qed.

(** The lamports of the bank, of which 10000 are new fees and 7431 new rent. *)
Lemma batch_conserves_lamports_witness :
  value bank' = value bank ∧ collector_fees bank' = 10100 ∧ collected_rent bank' = 7431.
Proof.
  destruct (batch_conserves_lamports base cfg (λ _, None) (λ _, 3%nat) [batch] locks batch 10 bank bank' results) as (_ & _ & Heq).
  - exact base_orderly.
  - exact batch_run.
  - left.
  - eapply Forall_impl; [exact txs_admissible|]. by intros ? [].
  - exact bank_is_ok.
  - exact commit_eq.
  - split_and!; [apply Heq; vm_compute; reflexivity|vm_compute; reflexivity..].
Defined.



(** ** Failing with a durable nonce *)

Module durable.
(** Every message fails in its second instruction. *)
#[local] Instance failing_executor : Executor := λ _ _ accs _, (accs, Err (TxInstructionError 1 (Custom 7))).

(** Account 20 holds the nonce 55, which payer 12 may advance. *)
Definition nonce_account : Account :=
  mkAccount 5000000 (bincode_ser (new_current (Initialized (mkData 12 55 (mkFeeCalculator 5000)))) ++ replicate 20 x00)
    system_program_id false 31.
Definition bank_with (payer : Account) : Bank :=
  mkBank {[ 12 := payer; 20 := nonce_account; system_program_id := program_account; 501 := program_account ]}
    (mkQueue 3 (Some 77) {[ 77 := mkHashAge (mkFeeCalculator 5000) 3 0 ]} 10)
    StatusCache_default 0 0 0 0 0 0 0 false false.

(** The nonce account is writable, or one of three read-only accounts. *)
Definition nonce_message (w : bool) : Message :=
  mkMessage (mkHeader 1 0 (if w then 2 else 3)) [12; 20; system_program_id; 501] 55
    [mkCompiled 2 [1; 0; 0]%nat (bincode_ser AdvanceNonceAccount); mkCompiled 3 [0]%nat []].
Definition batch (w : bool) : TransactionBatch := mkBatch [Ok tt] [tx (nonce_message w) 1004] true.
Definition commit (w : bool) (b : Bank) : Bank * res Empty_set TransactionResults :=
  load_execute_and_commit_transactions cfg (λ _, None) (λ _, 3%nat) (batch w) 10 b.

(** A payer that owes rent since epoch 28, and one that owes none. *)
Definition owing : Account := mkAccount 500000 [] system_program_id false 28.
Definition paid : Account := mkAccount 10000000 [] system_program_id false 31.

(** The rent a payer owes is taken from it when it is loaded.  If the
    transaction then fails with a durable nonce, the payer is stored without
    the rent, and the bank does not count the rent: 7317 lamports are gone. *)
Theorem failed_nonce_loses_rent :
  let b := (commit true (bank_with owing)).1 in
  value (bank_with owing) = 5500002 ∧ lamports <$> accounts b !! 12 = Some 487683 ∧
  collector_fees b = 5000 ∧ collected_rent b = 0 ∧ value b = 5492685.
Proof. vm_compute. split_and!; reflexivity. Qed.

(** If the nonce account is read-only in the message, a failing transaction
    pays its fee but does not advance the nonce. *)
Theorem readonly_nonce_stays :
  let b := (commit false (bank_with paid)).1 in
  collector_fees b = 5000 ∧ lamports <$> accounts b !! 12 = Some 9995000 ∧ accounts b !! 20 = Some nonce_account.
Proof. vm_compute. split_and!; reflexivity. Qed.
End durable.
End bank_example.
