(* ===== verification/RentPartition.v ===== *)
(** * Which accounts a bank visits to collect rent

    Models the partitions of the eager rent collection in
    [runtime/src/bank.rs]: every bank visits the part of the key space between
    its parent's slot and its own.  The theorem: where a collection cycle is an
    epoch, in every epoch that has a block every key is visited, whatever slots
    are skipped. *)

From S2P Require Import Prelude Account Sysvar SysvarProps Bank.

Module rent_partition.
Import bank(ClusterType, Testnet, MainnetBeta, Devnet, Development).

(** [(start_index, end_index, partition_count)] *)
Definition Partition : Type := Z * Z * Z.

Record RentCollectionCycleParams : Type := mkCycleParams {
  cp_epoch : Epoch;
  cp_slot_count_per_epoch : Z;
  cp_in_multi_epoch_cycle : bool;
  cp_base_epoch : Epoch;
  cp_epoch_count_per_cycle : Z;
  cp_partition_count : Z;
}.

Abbreviation R := (res Empty_set) (only parsing).

(** Division panics on zero. *)
Definition div64 (a b : Z) : R Z := if b =? 0 then Panic else Ok (a / b).
Definition rem64 (a b : Z) : R Z := if b =? 0 then Panic else Ok (a mod b).
Definition check (b : bool) : R unit := if b then Ok tt else Panic.

(** ** Ranges of keys

    Keys compare as 32 bytes, the first eight are the prefix. *)

Definition PREFIX_MAX : Z := u64_max.

(** A key with this prefix and the other bytes zero, or all ones. *)
Definition key_from (prefix : Z) (ones : bool) : Pubkey := prefix * 2 ^ 192 + if ones then 2 ^ 192 - 1 else 0.

Definition pubkey_range_from_partition (p : Partition) : R (Pubkey * Pubkey) :=
  let '(start_index, end_index, partition_count) := p in
  check (start_index <=? end_index);;
  check (start_index <? partition_count);;
  check (end_index <? partition_count);;
  check (0 <? partition_count);;
  if partition_count =? 1 then
    check (start_index =? 0);;
    check (end_index =? 0);;
    Ok (key_from 0 false, key_from PREFIX_MAX true)
  else
    let partition_width := (PREFIX_MAX - partition_count + 1) / partition_count + 1 in
    let start_key_prefix :=
      if (start_index =? 0) && (end_index =? 0) then 0
      else if start_index + 1 =? partition_count then PREFIX_MAX
      else mul64 (start_index + 1) partition_width in
    let end_key_prefix :=
      if end_index + 1 =? partition_count then PREFIX_MAX
      else sub64 (mul64 (end_index + 1) partition_width) 1 in
    if negb (start_index =? 0) && (start_index =? end_index) then
      if end_key_prefix =? PREFIX_MAX then Ok (key_from end_key_prefix true, key_from end_key_prefix true)
      else Ok (key_from start_key_prefix false, key_from start_key_prefix false)
    else Ok (key_from start_key_prefix false, key_from end_key_prefix true).

(** ** The partitions of a bank *)

Section bank.
Context (es : EpochSchedule) (cluster_type : ClusterType) (ticks_per_slot : Z).

Definition slot_count_in_two_day : R Z := div64 (2 * DEFAULT_TICKS_PER_SECOND * SECONDS_PER_DAY) ticks_per_slot.

Definition slot_count_per_normal_epoch : Z := get_slots_in_epoch es (first_normal_epoch es).

Definition use_multi_epoch_collection_cycle (epoch : Epoch) : R bool :=
  if slot_count_per_normal_epoch =? MINIMUM_SLOTS_PER_EPOCH then Ok false
  else if first_normal_epoch es <=? epoch then
    n ← slot_count_in_two_day; Ok (slot_count_per_normal_epoch <? n)
  else Ok false.

Definition use_fixed_collection_cycle : R bool :=
  if slot_count_per_normal_epoch =? MINIMUM_SLOTS_PER_EPOCH then Ok false
  else match cluster_type with
       | MainnetBeta => Ok false
       | _ => n ← slot_count_in_two_day; Ok (slot_count_per_normal_epoch <? n)
       end.

Definition determine_collection_cycle_params (epoch : Epoch) : R RentCollectionCycleParams :=
  let slot_count_per_epoch := get_slots_in_epoch es epoch in
  multi ← use_multi_epoch_collection_cycle epoch;
  if multi : bool then
    n ← slot_count_in_two_day;
    epoch_count_in_cycle ← div64 n slot_count_per_epoch;
    Ok (mkCycleParams epoch slot_count_per_epoch true (first_normal_epoch es) epoch_count_in_cycle
          (mul64 slot_count_per_epoch epoch_count_in_cycle))
  else Ok (mkCycleParams epoch slot_count_per_epoch false 0 1 slot_count_per_epoch).

Definition partition_index_from_slot_index (slot_index_in_epoch : Z) (cp : RentCollectionCycleParams) : R Z :=
  let epoch_offset := sub64 (cp_epoch cp) (cp_base_epoch cp) in
  epoch_index_in_cycle ← rem64 epoch_offset (cp_epoch_count_per_cycle cp);
  Ok (add64 slot_index_in_epoch (mul64 epoch_index_in_cycle (cp_slot_count_per_epoch cp))).

Definition do_partition_from_slot_indexes (start_slot_index end_slot_index : Z) (epoch : Epoch)
    (generated_for_gapped_epochs : bool) : R Partition :=
  cp ← determine_collection_cycle_params epoch;
  start_partition_index ← partition_index_from_slot_index start_slot_index cp;
  end_partition_index ← partition_index_from_slot_index end_slot_index cp;
  let is_special_new_epoch := (start_slot_index =? 0) && negb (end_slot_index =? 1) in
  let in_middle_of_cycle := 0 <? start_partition_index in
  if cp_in_multi_epoch_cycle cp && is_special_new_epoch && in_middle_of_cycle then
    if generated_for_gapped_epochs then
      check (start_slot_index =? end_slot_index);;
      Ok (sub64 start_partition_index 1, sub64 end_partition_index 1, cp_partition_count cp)
    else Ok (sub64 start_partition_index 1, end_partition_index, cp_partition_count cp)
  else Ok (start_partition_index, end_partition_index, cp_partition_count cp).

Definition partition_from_normal_slot_indexes (start_slot_index end_slot_index : Z) (epoch : Epoch) : R Partition :=
  do_partition_from_slot_indexes start_slot_index end_slot_index epoch false.
Definition partition_from_slot_indexes_with_gapped_epochs (start_slot_index end_slot_index : Z) (epoch : Epoch) : R Partition :=
  do_partition_from_slot_indexes start_slot_index end_slot_index epoch true.

Definition variable_cycle_partitions (parent_slot slot : Slot) : R (list Partition) :=
  let '(current_epoch, current_slot_index) := get_epoch_and_slot_index es slot in
  let '(parent_epoch, parent_slot_index) := get_epoch_and_slot_index es parent_slot in
  if parent_epoch <? current_epoch then
    gapped ←
      (if 1 <? sub64 slot parent_slot then
         let parent_last_slot_index := sub64 (get_slots_in_epoch es parent_epoch) 1 in
         p ← partition_from_slot_indexes_with_gapped_epochs parent_slot_index parent_last_slot_index parent_epoch;
         if 0 <? current_slot_index then
           q ← partition_from_slot_indexes_with_gapped_epochs 0 0 current_epoch;
           Ok [p; q]
         else Ok [p]
       else Ok []);
    p ← partition_from_normal_slot_indexes 0 current_slot_index current_epoch;
    Ok (gapped ++ [p])
  else
    p ← partition_from_normal_slot_indexes parent_slot_index current_slot_index current_epoch;
    Ok [p].

Definition fixed_cycle_partitions (parent_slot slot : Slot) : R (list Partition) :=
  n ← slot_count_in_two_day;
  parent_cycle ← div64 parent_slot n;
  current_cycle ← div64 slot n;
  parent_cycle_index ← rem64 parent_slot n;
  current_cycle_index ← rem64 slot n;
  if parent_cycle <? current_cycle then
    Ok ((if 0 <? current_cycle_index then [(parent_cycle_index, sub64 n 1, n); (0, 0, n)] else []) ++
        [(0, current_cycle_index, n)])
  else Ok [(parent_cycle_index, current_cycle_index, n)].

Definition rent_collection_partitions (parent_slot slot : Slot) : R (list Partition) :=
  fixed ← use_fixed_collection_cycle;
  if fixed : bool then fixed_cycle_partitions parent_slot slot else variable_cycle_partitions parent_slot slot.
End bank.

(** ** Ranges and indexes *)

(** The partition of a key, of [n]. *)
Definition index_of (n : Z) (k : Pubkey) : Z := Z.min (k / 2 ^ 192 / (2 ^ 64 / n)) (n - 1).

Lemma width_eq n : 2 <= n <= u64_max → (PREFIX_MAX - n + 1) / n + 1 = 2 ^ 64 / n.
Proof.
  unfold PREFIX_MAX, u64_max. intros Hn. replace (2 ^ 64 - 1 - n + 1) with (2 ^ 64 + (-1) * n) by lia.
  rewrite Z.div_add by lia. lia.
Qed.

Lemma key_range_prefix lo hi k : key_from lo false <= k <= key_from hi true ↔ lo <= k / 2 ^ 192 <= hi.
Proof.
  unfold key_from. pose proof (Z.div_mod k (2 ^ 192) ltac:(lia)) as Hk. pose proof (Z.mod_pos_bound k (2 ^ 192) ltac:(lia)).
  split; intros [H1 H2]; nia.
Qed.

Lemma range_index n a b k :
  2 <= n <= u64_max → 0 <= k < 2 ^ 256 → a = 0 ∧ b = 0 ∨ 0 <= a < b ∧ b < n →
  ∃ lo hi, pubkey_range_from_partition (a, b, n) = Ok (lo, hi) ∧
    (lo <= k <= hi ↔ if (a =? 0) && (b =? 0) then index_of n k = 0 else a < index_of n k <= b).
Proof.
  intros Hn Hk Hab. unfold pubkey_range_from_partition, index_of. rewrite width_eq by done.
  set (w := 2 ^ 64 / n). set (x := k / 2 ^ 192).
  assert (Hw : 1 <= w) by (apply Z.div_le_lower_bound; unfold u64_max in *; lia).
  assert (Hwn : n * w <= 2 ^ 64) by (apply Z.mul_div_le; lia).
  assert (Hx : 0 <= x <= u64_max). { unfold x, u64_max. split; [apply Z.div_pos; lia|].
    enough (k / 2 ^ 192 < 2 ^ 64) by lia. apply Z.div_lt_upper_bound; lia. }
  assert (Hge : ∀ c, c * w <= x ↔ c <= x / w). { intros c. split; [intros; apply Z.div_le_lower_bound; lia|].
    intros Hc. pose proof (Z.mul_div_le x w ltac:(lia)). nia. }
  unfold check. rewrite !(proj2 (Z.leb_le _ _)), !(proj2 (Z.ltb_lt _ _)), (proj2 (Z.eqb_neq n 1)) by lia. cbn.
  assert (Hmul : ∀ c, 1 <= c < n → mul64 c w = c * w ∧ sub64 (mul64 c w) 1 = c * w - 1).
  { intros c Hc. assert (1 <= c * w <= u64_max) by (unfold u64_max; nia). unfold mul64, sub64.
    rewrite (wrap64_id (c * w)), wrap64_id by (unfold is_u64; lia). done. }
  assert (Hend : x <= (if b + 1 =? n then PREFIX_MAX else sub64 (mul64 (b + 1) w) 1) ↔ Z.min (x / w) (n - 1) <= b).
  { destruct (Z.eqb_spec (b + 1) n); [unfold PREFIX_MAX; lia|]. rewrite (proj2 (Hmul (b + 1) ltac:(lia))). specialize (Hge (b + 1)). lia. }
  set (hi := if b + 1 =? n then _ else _) in *. assert (0 <= x / w) by (apply Z.div_pos; lia).
  destruct Hab as [[-> ->]|[Hab Hb]].
  - cbn. eexists _, _. split; [done|]. rewrite key_range_prefix. fold x. lia.
  - rewrite (proj2 (Z.eqb_neq b 0)), (proj2 (Z.eqb_neq a b)), !andb_false_r by lia. rewrite (proj2 (Z.eqb_neq (a + 1) n)) by lia.
    eexists _, _. split; [done|]. rewrite key_range_prefix. fold x. rewrite (proj1 (Hmul (a + 1) ltac:(lia))), Hge. lia.
Qed.

(** ** Coverage *)

Section coverage.
Context (es : EpochSchedule) (cluster : ClusterType) (ticks_per_slot : Z) (spe off : Z) (w : bool).
Context (Hes : EpochSchedule_custom spe off w = Some es) (Hspe : spe <= 2 ^ 63).

(** The cycle of the epoch is the epoch. *)
Definition single_epoch (e : Epoch) : Prop := use_multi_epoch_collection_cycle es ticks_per_slot e = Ok false.

Lemma do_partition_single a b e g :
  single_epoch e → is_u64 a → is_u64 b →
  do_partition_from_slot_indexes es ticks_per_slot a b e g = Ok (a, b, get_slots_in_epoch es e).
Proof.
  intros Hm Ha Hb. unfold do_partition_from_slot_indexes, determine_collection_cycle_params. rewrite Hm. cbn.
  unfold partition_index_from_slot_index, rem64, mul64, add64. cbn. rewrite Z.mod_1_r. cbn.
  change (wrap64 0) with 0. by rewrite !Z.add_0_r, !wrap64_id.
Qed.

Lemma slots_in_epoch_bounds s e i :
  is_u64 s → get_epoch_and_slot_index es s = (e, i) → 0 <= i < get_slots_in_epoch es e ∧ 2 <= get_slots_in_epoch es e <= u64_max.
Proof.
  intros Hs Hei. destruct (slot_in_epoch _ _ _ _ _ _ _ Hes Hspe Hs Hei) as [_ Hi]. split; [done|]. unfold get_slots_in_epoch.
  destruct (schedule_custom_exp _ _ _ _ Hes Hspe) as (-> & Hsp & _). destruct (e <? _); [|unfold u64_max; lia].
  unfold saturating_pow64, saturating_add32. change (trailing_zeros64 MINIMUM_SLOTS_PER_EPOCH) with 5.
  assert (0 <= wrap32 e) by (unfold wrap32; apply Z.mod_pos_bound; lia).
  pose proof (Z.pow_le_mono_r 2 1 (Z.min (wrap32 e + 5) u32_max) ltac:(lia) ltac:(unfold u32_max; lia)). unfold u64_max. lia.
Qed.

Context (Hsingle : ∀ e, single_epoch e) (Hfixed : use_fixed_collection_cycle es cluster ticks_per_slot = Ok false).

(** The bank of [slot], whose parent is the bank of [parent], visits the key. *)
Definition visits (parent slot : Slot) (k : Pubkey) : Prop :=
  ∃ parts part lo hi, rent_collection_partitions es cluster ticks_per_slot parent slot = Ok parts ∧ part ∈ parts ∧
    pubkey_range_from_partition part = Ok (lo, hi) ∧ lo <= k <= hi.

Lemma visits_by parent slot parts a b n k :
  variable_cycle_partitions es ticks_per_slot parent slot = Ok parts → (a, b, n) ∈ parts → 2 <= n <= u64_max → 0 <= k < 2 ^ 256 →
  a = 0 ∧ b = 0 ∧ index_of n k = 0 ∨ 0 <= a < index_of n k ∧ index_of n k <= b ∧ b < n → visits parent slot k.
Proof.
  intros Hp Hin Hn Hk Hab. destruct (range_index n a b k Hn Hk) as (lo & hi & Hr & Hiff); [lia|].
  exists parts, (a, b, n), lo, hi. split; [unfold rent_collection_partitions; by rewrite Hfixed|]. split; [done|split; [done|]].
  apply Hiff. destruct Hab as [(-> & -> & ?)|?]; [done|]. rewrite (proj2 (Z.eqb_neq b 0)), andb_false_r by lia. lia.
Qed.

Section steps.
Context (p s e i e' i' : Z) (Hp : 0 <= p < s) (Hs : s <= u64_max).
Context (Hpe : get_epoch_and_slot_index es p = (e, i)) (Hse : get_epoch_and_slot_index es s = (e', i')).

Lemma index_u64 : is_u64 i ∧ is_u64 i'.
Proof.
  destruct (slots_in_epoch_bounds p e i) as [? ?]; [unfold is_u64; lia|done|].
  destruct (slots_in_epoch_bounds s e' i') as [? ?]; [unfold is_u64; lia|done|]. unfold is_u64. lia.
Qed.

Lemma visits_inside k :
  e = e' → 0 <= k < 2 ^ 256 → i < index_of (get_slots_in_epoch es e) k <= i' → visits p s k.
Proof.
  destruct index_u64 as [Hi Hi']. intros <- Hk Hidx.
  destruct (slots_in_epoch_bounds s e i') as [Hb Hn]; [unfold is_u64; lia|done|].
  apply (visits_by p s [(i, i', get_slots_in_epoch es e)] i i' (get_slots_in_epoch es e)); [|left|done|done|right; unfold is_u64 in *; lia].
  unfold variable_cycle_partitions. rewrite Hse, Hpe, Z.ltb_irrefl. unfold partition_from_normal_slot_indexes. by rewrite do_partition_single.
Qed.

Lemma skipped_lt : s - p > 1 → (1 <? sub64 s p) = true.
Proof. intros. unfold sub64. rewrite wrap64_id by (unfold is_u64; lia). apply Z.ltb_lt. lia. Qed.

Lemma visits_enter k : e < e' → 0 <= k < 2 ^ 256 → index_of (get_slots_in_epoch es e') k <= i' → visits p s k.
Proof.
  intros He Hk Hidx. destruct index_u64 as [Hi Hi'].
  destruct (slots_in_epoch_bounds p e i) as [Hbp Hnp]; [unfold is_u64; lia|done|].
  destruct (slots_in_epoch_bounds s e' i') as [Hb Hn]; [unfold is_u64; lia|done|].
  set (n := get_slots_in_epoch es e') in *.
  assert (Hparts : ∃ gapped, variable_cycle_partitions es ticks_per_slot p s = Ok (gapped ++ [(0, i', n)]) ∧ (0 < i' → (0, 0, n) ∈ gapped)).
  { unfold variable_cycle_partitions, partition_from_slot_indexes_with_gapped_epochs, partition_from_normal_slot_indexes.
    rewrite Hse, Hpe, (proj2 (Z.ltb_lt e e')) by done. rewrite !do_partition_single by (done || apply wrap64_range). cbn.
    destruct (Z.ltb_spec 1 (sub64 s p)) as [Hskip|Hskip].
    - set (gap := (i, sub64 (get_slots_in_epoch es e) 1, get_slots_in_epoch es e)).
      destruct (Z.ltb_spec 0 i'); [exists [gap; (0, 0, n)]|exists [gap]]; (split; [reflexivity|]); [set_solver|lia].
    - exists []. split; [done|]. intros Hpos. exfalso. assert (s = p + 1) as ->.
      { unfold sub64 in Hskip. rewrite wrap64_id in Hskip by (unfold is_u64; lia). lia. }
      rewrite (slot_next spe off w es p e i Hes Hspe ltac:(lia) Hpe) in Hse. destruct (_ <? _); injection Hse as <- <-; lia. }
  destruct Hparts as (gapped & Hparts & Hz). assert (0 <= index_of n k).
  { unfold index_of. assert (0 <= k / 2 ^ 192 / (2 ^ 64 / n)); [|lia]. apply Z.div_pos; [apply Z.div_pos; lia|].
    apply Z.div_str_pos. unfold u64_max in *. lia. }
  destruct (decide (index_of n k = 0)) as [H0|H0]; [|eapply (visits_by p s _ 0 i' n); [done|set_solver|done|done|right; lia]].
  destruct (decide (i' = 0)) as [->|Hne]; (eapply (visits_by p s _ 0 0 n); [exact Hparts| |done|done|by left]).
  - set_solver.
  - apply elem_of_app. left. apply Hz. lia.
Qed.

Lemma visits_leave k : e < e' → 0 <= k < 2 ^ 256 → i < index_of (get_slots_in_epoch es e) k → visits p s k.
Proof.
  destruct index_u64 as [Hi Hi']. intros He Hk Hidx.
  destruct (slots_in_epoch_bounds p e i) as [Hbp Hnp]; [unfold is_u64; lia|done|]. set (n := get_slots_in_epoch es e) in *.
  assert (Hmax : index_of n k <= n - 1) by (unfold index_of; lia).
  assert (Hskip : (1 <? sub64 s p) = true).
  { apply skipped_lt. destruct (decide (s = p + 1)) as [Heq|]; [|lia]. exfalso. pose proof Hse as Hse1. rewrite Heq in Hse1.
    rewrite (slot_next spe off w es p e i Hes Hspe ltac:(lia) Hpe) in Hse1. fold n in Hse1.
    rewrite (proj2 (Z.ltb_lt (i + 1) n)) in Hse1 by lia. injection Hse1 as ? ?. lia. }
  assert (Hlast : sub64 n 1 = n - 1) by (unfold sub64; apply wrap64_id; unfold is_u64; lia).
  assert (Hparts : ∃ rest, variable_cycle_partitions es ticks_per_slot p s = Ok ((i, n - 1, n) :: rest)).
  { unfold variable_cycle_partitions, partition_from_slot_indexes_with_gapped_epochs, partition_from_normal_slot_indexes.
    rewrite Hse, Hpe, (proj2 (Z.ltb_lt e e')), Hskip by done. fold n. rewrite Hlast.
    rewrite !do_partition_single by (done || unfold is_u64; lia). fold n. cbn. destruct (0 <? i'); cbn; eauto. }
  destruct Hparts as [rest Hparts]. eapply (visits_by p s _ i (n - 1) n); [exact Hparts|left|done|done|right; unfold is_u64 in *; lia].
Qed.
End steps.

(** The chain visits the key at one of its steps. *)
Definition chain_visits (slots : list Slot) (k : Pubkey) : Prop :=
  ∃ j p s, slots !! j = Some p ∧ slots !! S j = Some s ∧ visits p s k.

Lemma chain_visits_cons p slots k : chain_visits slots k → chain_visits (p :: slots) k.
Proof. intros (j & a & b & ? & ? & ?). exists (S j), a, b. done. Qed.

Definition epoch_of (s : Slot) : Epoch := (get_epoch_and_slot_index es s).1.
Definition index_in (s : Slot) : Z := (get_epoch_and_slot_index es s).2.

Lemma rest_visited e s l q k :
  StronglySorted Z.lt (s :: l ++ [q]) → 0 <= s → q <= u64_max → Forall (λ x, epoch_of x = e) (s :: l) → e < epoch_of q →
  0 <= k < 2 ^ 256 → index_in s < index_of (get_slots_in_epoch es e) k → chain_visits (s :: l ++ [q]) k.
Proof.
  revert s. induction l as [|s' l IH]; intros s Hsort Hs Hq HF He Hk Hidx; apply StronglySorted_inv in Hsort as [Hsort Hlt];
    apply Forall_cons in HF as [Hse HF].
  - apply Forall_cons in Hlt as [Hsq _]. exists 0%nat, s, q. split; [done|split; [done|]]. unfold epoch_of, index_in in *.
    destruct (get_epoch_and_slot_index es s) as [e0 i] eqn:E0, (get_epoch_and_slot_index es q) as [e1 i1] eqn:E1. cbn in *. subst e0.
    by apply (visits_leave s q e i e1 i1).
  - assert (Hlt' : s < s' ∧ s' < q).
    { split; [by apply Forall_cons in Hlt as [? _]|]. apply StronglySorted_inv in Hsort as [_ Hl]. apply Forall_app in Hl as [_ Hl].
      by apply Forall_cons in Hl as [? _]. }
    destruct (decide (index_of (get_slots_in_epoch es e) k <= index_in s')) as [Hle|Hgt].
    + exists 0%nat, s, s'. split; [done|split; [done|]]. apply Forall_cons in HF as [Hse' _]. unfold epoch_of, index_in in *.
      destruct (get_epoch_and_slot_index es s) as [e0 i] eqn:E0, (get_epoch_and_slot_index es s') as [e1 i1] eqn:E1. cbn in *. subst e0 e1.
      apply (visits_inside s s' e i e i1); [lia..|done|done|done|done|lia].
    + apply chain_visits_cons. apply (IH s'); [done|lia|done..|lia].
Qed.

Lemma epoch_visited e p s l q k :
  StronglySorted Z.lt (p :: s :: l ++ [q]) → 0 <= p → q <= u64_max →
  epoch_of p < e → Forall (λ x, epoch_of x = e) (s :: l) → e < epoch_of q → 0 <= k < 2 ^ 256 →
  chain_visits (p :: s :: l ++ [q]) k.
Proof.
  intros Hsort Hp Hq Hpe HF He Hk. destruct (decide (index_of (get_slots_in_epoch es e) k <= index_in s)) as [Hle|Hgt].
  - exists 0%nat, p, s. split; [done|split; [done|]]. apply Forall_cons in HF as [Hse _]. unfold epoch_of, index_in in *.
    apply StronglySorted_inv in Hsort as [Hsort Hlt]. apply Forall_cons in Hlt as [Hps _].
    apply StronglySorted_inv in Hsort as [_ Hl]. apply Forall_app in Hl as [_ [Hsq _]%Forall_cons].
    destruct (get_epoch_and_slot_index es p) as [e0 i] eqn:E0, (get_epoch_and_slot_index es s) as [e1 i1] eqn:E1. cbn in *. subst e1.
    apply (visits_enter p s e0 i e i1); [lia..|done|done|done|done|done].
  - apply chain_visits_cons. apply StronglySorted_inv in Hsort as [Hsort Hlt]. apply Forall_cons in Hlt as [Hps _].
    apply (rest_visited e s l q k); [done|lia|done..|lia].
Qed.
End coverage.

(** Every epoch has its own cycle: the normal epochs are two days or longer, or
    have the minimal length that local tests use. *)
Definition collects_each_epoch (es : EpochSchedule) (ticks_per_slot : Z) : Prop :=
  slot_count_per_normal_epoch es = MINIMUM_SLOTS_PER_EPOCH ∨
  ∃ n, slot_count_in_two_day ticks_per_slot = Ok n ∧ n <= slot_count_per_normal_epoch es.

Lemma collects_each_epoch_cycles es cluster ticks_per_slot :
  collects_each_epoch es ticks_per_slot →
  (∀ e, single_epoch es ticks_per_slot e) ∧ use_fixed_collection_cycle es cluster ticks_per_slot = Ok false.
Proof.
  unfold single_epoch, use_multi_epoch_collection_cycle, use_fixed_collection_cycle.
  intros [->|(n & -> & Hn)]; [by rewrite Z.eqb_refl|]. cbn. rewrite (proj2 (Z.ltb_ge _ _)) by done.
  split; [intros e; by repeat case_match|by repeat case_match].
Qed.

(** C22. On a cluster whose normal epochs are at least two days long, or have
    the minimal length of 32 slots, rent is collected from every account in
    every epoch that has a block, whatever slots are skipped: along a chain of
    blocks that reaches from before the epoch to after it, with a block in the
    epoch, every key lies in the range of keys that one of the blocks visits.
    The schedule is one that [EpochSchedule::custom] makes, with epochs of at
    most [2^63] slots.  Clusters with other epochs use cycles of several epochs
    or the fixed cycle of two days, and nothing is stated of them. *)
Theorem rent_partitions_cover es cluster ticks_per_slot spe off w e p s l q k :
  EpochSchedule_custom spe off w = Some es → spe <= 2 ^ 63 → collects_each_epoch es ticks_per_slot →
  StronglySorted Z.lt (p :: s :: l ++ [q]) → 0 <= p → q <= u64_max →
  epoch_of es p < e → Forall (λ x, epoch_of es x = e) (s :: l) → e < epoch_of es q → 0 <= k < 2 ^ 256 →
  chain_visits es cluster ticks_per_slot (p :: s :: l ++ [q]) k.
Proof.
  intros Hes Hspe [Hsingle Hfixed]%(collects_each_epoch_cycles _ cluster) Hsort Hp Hq Hpe HF He Hk. by eapply epoch_visited.
Qed.

Module example.
(** The schedule of the main network, and a chain with many skipped slots. *)
Definition es : EpochSchedule := mkEpochSchedule 432000 432000 false 0 0.

Lemma rent_partitions_cover_witness :
  chain_visits es MainnetBeta 64 (431990 :: 432005 :: [700000] ++ [864003]) (2 ^ 255 + 12345) ∧
  variable_cycle_partitions es 64 431990 432005 = Ok [(431990, 431999, 432000); (0, 0, 432000); (0, 5, 432000)].
Proof.
  split; [|vm_compute; reflexivity].
  apply (rent_partitions_cover es MainnetBeta 64 432000 432000 false) with (e := 1).
  - vm_compute. reflexivity.
  - lia.
  - right. exists 432000. split; vm_compute; [reflexivity|discriminate].
  - repeat constructor; lia.
  - lia.
  - unfold u64_max. lia.
  - vm_compute. reflexivity.
  - repeat constructor; vm_compute; reflexivity.
  - vm_compute. reflexivity.
  - lia.
Defined.

(** The fixed cycle loses keys: when the first block after skipped slots is the
    first of a cycle, the rest of its parent's cycle is not visited.  Here the
    cycle has 432000 slots, the parent is at index 9 and nothing from index 10
    on is in the ranges of the new bank. *)
Definition short : EpochSchedule := mkEpochSchedule 8192 8192 false 0 0.

Lemma fixed_cycle_drops_gap :
  rent_collection_partitions short Development 64 9 432000 = Ok [(0, 0, 432000)] ∧
  rent_collection_partitions short Development 64 9 432001 = Ok [(9, 431999, 432000); (0, 0, 432000); (0, 1, 432000)].
Proof. split; vm_compute; reflexivity. Qed.
End example.
End rent_partition.
