(* ===== verification/BankFreeze.v ===== *)
(** * Freezing a bank

    Models the end of a slot in [runtime/src/bank.rs]: rent is collected
    eagerly, the collected fees and the collected rent are paid out or burned,
    the slot history is updated and the incinerator emptied; then the bank is
    frozen.  Rewards are only reported and are left out.

    The stakes cache is an argument ([vote_accounts]), and so is the view of
    the accounts without this slot ([parent_account]). *)

From S2P Require Import Prelude F64 Account Features Sysvar SlotHistory Fees VoteState Bank RentPartition.
From Stdlib Require Import Strings.Byte.

Module bank_freeze.
Import fees bank rent_partition slot_history.

(** A bank with its capitalization, the keys stored in its slot, and its
    hash. *)
Record Freezing : Type := mkFreezing {
  fz_bank : Bank;
  fz_stored : gset Pubkey;
  capitalization : Z;
  fz_hash : Hash;
}.

Definition with_capitalization (n : Z) (f : Freezing) : Freezing := mkFreezing (fz_bank f) (fz_stored f) n (fz_hash f).
Definition burn_lamports (n : Z) (f : Freezing) : Freezing := with_capitalization (sub64 (capitalization f) n) f.
Definition with_bank (b : Bank) (f : Freezing) : Freezing := mkFreezing b (fz_stored f) (capitalization f) (fz_hash f).
Definition start_freeze (b : Bank) : Bank :=
  mkBank (accounts b) (blockhash_queue b) (bank_status_cache b) (collector_fees b) (collected_rent b) (transaction_count b)
    (signature_count b) (transaction_error_count b) (transaction_entries_count b) (transactions_per_entry_max b)
    (is_delta b) true.

Definition FZ (A : Type) : Type := ST Freezing Empty_set A.

Definition find_account (k : Pubkey) (f : Freezing) : option Account := get_account k (accounts (fz_bank f)).

(** [Bank::store_account]; the stakes cache is an argument of the model. *)
Definition store_account (k : Pubkey) (a : Account) : FZ unit :=
  f ← get;
  assert_ (negb (freeze_started (fz_bank f)));;
  put (mkFreezing (with_accounts (db_store k a (accounts (fz_bank f))) (fz_bank f)) ({[k]} ∪ fz_stored f) (capitalization f) (fz_hash f)).

Definition store_account_and_update_capitalization (k : Pubkey) (new_account : Account) : FZ unit :=
  f ← get;
  match find_account k f with
  | Some old_account =>
      if lamports old_account <? lamports new_account then
        put (with_capitalization (add64 (capitalization f) (lamports new_account - lamports old_account)) f)
      else if lamports new_account <? lamports old_account then
        put (burn_lamports (lamports old_account - lamports new_account) f)
      else mret tt
  | None => put (with_capitalization (add64 (capitalization f) (lamports new_account)) f)
  end;;
  store_account k new_account.

(** [Bank::deposit]: [false] is the overflow. *)
Definition deposit (k : Pubkey) (n : Z) : FZ bool :=
  f ← get;
  match checked_add_lamports n (default Account_default (find_account k f)) with
  | Ok account => store_account k account;; mret true
  | Err _ => mret false
  | Panic => panic
  end.

Section freeze.
Context (cfg : BankConfig) (parent_slot : Slot) (ticks_per_slot : Z) (lazy_rent_collection : bool).
Context (collector_id : Pubkey) (fee_rate_governor : FeeRateGovernor).
Context (vote_accounts : list (Pubkey * (Z * option VoteState))).
Context `{BV : !BitVec} `{!Codec SlotHistory} (parent_account : Pubkey → option Account).
Context (hash_internal_state : Freezing → Hash).

(** ** Eager rent collection *)

Definition load_to_collect_rent_eagerly (lo hi : Pubkey) (db : gmap Pubkey Account) : list (Pubkey * Account) :=
  filter (λ x : Pubkey * Account, lo <= x.1 ∧ x.1 <= hi ∧ 0 < lamports x.2) (map_to_list db).

Fixpoint collect_rent_each (l : list (Pubkey * Account)) (total_rent : Z) : FZ Z :=
  match l with
  | [] => mret total_rent
  | (k, a) :: l' =>
      let '(rent, a') := collect_from_existing_account (rent_collector cfg) k a (rent_for_sysvars cfg) in
      store_account k a';;
      collect_rent_each l' (add64 total_rent rent)
  end.

Definition collect_rent_in_partition (p : Partition) : FZ unit :=
  '(lo, hi) ← lift (pubkey_range_from_partition p);
  f ← get;
  total_rent ← collect_rent_each (load_to_collect_rent_eagerly lo hi (accounts (fz_bank f))) 0;
  modify (λ f, with_bank (add_collected_rent total_rent (fz_bank f)) f).

Fixpoint collect_rent_in_partitions (l : list Partition) : FZ unit :=
  match l with [] => mret tt | p :: l' => collect_rent_in_partition p;; collect_rent_in_partitions l' end.

Definition collect_rent_eagerly : FZ unit :=
  if lazy_rent_collection then mret tt
  else
    parts ← lift (rent_collection_partitions (rc_epoch_schedule (rent_collector cfg)) (cluster_type cfg) ticks_per_slot
                    parent_slot (bank_slot cfg));
    collect_rent_in_partitions parts.

(** ** Fees *)

Definition collect_fees : FZ unit :=
  f ← get;
  let collector_fees := collector_fees (fz_bank f) in
  if collector_fees =? 0 then mret tt
  else
    let '(d, burned) := burn fee_rate_governor collector_fees in
    ok ← deposit collector_id d;
    modify (burn_lamports (if ok : bool then burned else add64 burned d)).

(** ** Rent *)

(** The validators and their stakes, and the total stake: a vote account
    without a vote state counts for the total only. *)
Definition validator_stakes : list (Pubkey * Z) :=
  omap (λ x : Pubkey * (Z * option VoteState),
          if x.2.1 =? 0 then None else (λ v, (node_pubkey v, x.2.1)) <$> x.2.2) vote_accounts.
Definition total_staked : Z := foldl (λ n x, add64 n x.2.1) 0 vote_accounts.

(** The larger stake first, then the larger identity. *)
Definition stake_before (x y : Pubkey * Z) : bool :=
  match x.2 ?= y.2 with Gt => true | Lt => false | Eq => y.1 <=? x.1 end.

Definition enforce_fix : bool := feature_active cfg feature_set.no_overflow_rent_distribution.

Definition rent_share (rent_to_be_distributed staked : Z) : res Empty_set Z :=
  if enforce_fix then
    if total_staked =? 0 then Panic
    else
      let share := staked * rent_to_be_distributed / total_staked in
      if share <=? u64_max then Ok share else Panic
  else Ok (f64_to_u64 (f64_div (f64_of_Z (mul64 staked rent_to_be_distributed)) (f64_of_Z total_staked))).

Fixpoint rent_shares (rent_to_be_distributed : Z) (l : list (Pubkey * Z)) : res Empty_set (list (Pubkey * Z) * Z) :=
  match l with
  | [] => Ok ([], 0)
  | (k, staked) :: l' =>
      share ← rent_share rent_to_be_distributed staked;
      '(shares, sum) ← rent_shares rent_to_be_distributed l';
      Ok ((k, share) :: shares, add64 share sum)
  end.

Fixpoint pay_shares (l : list (Pubkey * Z)) (leftover_lamports : Z) : FZ Z :=
  match l with
  | [] => mret leftover_lamports
  | (k, share) :: l' =>
      let '(rent_to_be_paid, leftover_lamports) :=
        if 0 <? leftover_lamports then (add64 share 1, leftover_lamports - 1) else (share, leftover_lamports) in
      (if negb enforce_fix || (0 <? rent_to_be_paid) then
         ok ← deposit k rent_to_be_paid;
         if ok : bool then mret tt else modify (burn_lamports rent_to_be_paid)
       else mret tt);;
      pay_shares l' leftover_lamports
  end.

Definition distribute_rent_to_validators (rent_to_be_distributed : Z) : FZ unit :=
  assert_ (negb (bool_decide (validator_stakes = [])));;
  '(shares, distributed) ← lift (rent_shares rent_to_be_distributed (sort_by stake_before validator_stakes));
  leftover_lamports ← pay_shares shares (sub64 rent_to_be_distributed distributed);
  if enforce_fix then assert_ (leftover_lamports =? 0)
  else if negb (leftover_lamports =? 0) then modify (burn_lamports leftover_lamports)
  else mret tt.

Definition distribute_rent : FZ unit :=
  f ← get;
  let '(burned_portion, rent_to_be_distributed) := calculate_burn (rc_rent (rent_collector cfg)) (collected_rent (fz_bank f)) in
  modify (burn_lamports burned_portion);;
  if rent_to_be_distributed =? 0 then mret tt
  else distribute_rent_to_validators rent_to_be_distributed.

(** ** The slot history *)

(** [SlotHistory::size_of] *)
Definition SlotHistory_size_of : nat := Z.to_nat 131097.

Definition create_account (size_of : nat) (bytes : list byte) (lamports rent_epoch : Z) : Account :=
  mkAccount lamports (bytes ++ replicate (size_of - length bytes) x00) sysvar_program_id false rent_epoch.

Definition inherit_specially_retained_account_fields (old_account : option Account) : Z * Epoch :=
  (match old_account with Some a => lamports a | None => 1 end,
   if negb (rent_for_sysvars cfg) then INITIAL_RENT_EPOCH
   else match old_account with Some a => rent_epoch a | None => INITIAL_RENT_EPOCH end).

Definition adjust_sysvar_balance_for_rent (a : Account) : Account :=
  set_lamports (Z.max (minimum_balance (rc_rent (rent_collector cfg)) (length (data a))) (lamports a)) a.

Definition update_sysvar_account (k : Pubkey) (updater : option Account → res Empty_set Account) : FZ unit :=
  f ← get;
  let old_account := if rent_for_sysvars cfg then find_account k f else parent_account k in
  new_account ← lift (updater old_account);
  store_account_and_update_capitalization k
    (if rent_for_sysvars cfg then adjust_sysvar_balance_for_rent new_account else new_account).

Definition update_slot_history : FZ unit :=
  update_sysvar_account sysvar_slot_history_id (λ old_account,
    h ← match old_account with
        | Some a => unwrap (deserialize (T:=SlotHistory) (data a))
        | None => Ok SlotHistory_default
        end;
    let h := add (bank_slot cfg) h in
    let '(l, e) := inherit_specially_retained_account_fields old_account in
    Ok (create_account SlotHistory_size_of (bincode_ser h) l e)).

(** ** The incinerator *)

Definition run_incinerator : FZ unit :=
  f ← get;
  match (if bool_decide (incinerator_id ∈ fz_stored f) then find_account incinerator_id f else None) with
  | Some account =>
      modify (burn_lamports (lamports account));;
      store_account incinerator_id Account_default
  | None => mret tt
  end.

Definition freeze : FZ unit :=
  f ← get;
  if fz_hash f =? Hash_default then
    collect_rent_eagerly;;
    collect_fees;;
    distribute_rent;;
    update_slot_history;;
    run_incinerator;;
    modify (λ f, with_bank (start_freeze (fz_bank f)) f);;
    modify (λ f, mkFreezing (fz_bank f) (fz_stored f) (capitalization f) (hash_internal_state f))
  else mret tt.
End freeze.
End bank_freeze.
