(* ===== verification/FreezeProps.v ===== *)
(** * Freezing settles the capitalization

    While a bank processes transactions its capitalization is what the
    accounts and the two purses hold together; freezing empties the purses, so
    that a frozen bank's capitalization is what its accounts hold. *)

From S2P Require Import Prelude F64 Account Features Sysvar SlotHistory Fees FeesProps StatusCache VoteState Bank BankProps BankBatch RentPartition BankFreeze.
From Stdlib Require Import Strings.Byte.

Module freeze_props.
Import fees bank bank_props bank_batch rent_partition slot_history bank_freeze.

Definition db (f : Freezing) : gmap Pubkey Account := accounts (fz_bank f).

(** The capitalization counts the accounts and [pending]. *)
Definition settled (pending : Z) (f : Freezing) : Prop :=
  db_ok (db f) ∧ capitalization f = wrap64 (total (db f) + pending).

Definition purses (f : Freezing) : Z * Z := (collector_fees (fz_bank f), collected_rent (fz_bank f)).

Lemma wrap64_eq x y k : x = y + k * 2 ^ 64 → wrap64 x = wrap64 y.
Proof. intros ->. unfold wrap64. by rewrite Z.mod_add. Qed.

Lemma wrap64_ex x : ∃ k, wrap64 x = x + k * 2 ^ 64.
Proof. exists (- (x / 2 ^ 64)). unfold wrap64. pose proof (Z.div_mod x (2 ^ 64) ltac:(lia)). lia. Qed.

Lemma wrap64_inj x y : wrap64 x = wrap64 y → ∃ k, x = y + k * 2 ^ 64.
Proof. intros H. destruct (wrap64_ex x) as [a Ha], (wrap64_ex y) as [b Hb]. exists (b - a). lia. Qed.

Lemma wrap64_sub x y : sub64 (wrap64 x) y = wrap64 (x - y).
Proof. unfold sub64, wrap64. by rewrite Zminus_mod_idemp_l. Qed.

Lemma wrap64_add_r x y : add64 (wrap64 x) y = wrap64 (x + y).
Proof. unfold add64, wrap64. by rewrite Z.add_mod_idemp_l. Qed.

(** ** Storing *)

Lemma store_spec k a f f' u :
  store_account k a f = (f', Ok u) →
  db f' = db_store k a (db f) ∧ capitalization f' = capitalization f ∧ purses f' = purses f ∧ fz_hash f' = fz_hash f.
Proof.
  unfold store_account. intros (? & ? & [= <- <-] & (? & [] & Ha & [= <- <-])%st_bind_Ok)%st_bind_Ok.
  unfold assert_ in Ha. destruct (negb _); [|done]. injection Ha as <-. done.
Qed.

Lemma find_lam k f : db_ok (db f) → lam (find_account k f) = lam (db f !! k).
Proof.
  intros Hdb. unfold find_account, get_account. fold (db f). destruct (db f !! k) as [a|] eqn:Hk; [|done]. cbn.
  destruct (Z.ltb_spec 0 (lamports a)); [done|]. destruct (Hdb _ _ Hk). cbn. lia.
Qed.

Lemma deposit_spec k n f f' ok :
  db_ok (db f) → 0 <= n → deposit k n f = (f', Ok ok) →
  db_ok (db f') ∧ capitalization f' = capitalization f ∧ purses f' = purses f ∧ fz_hash f' = fz_hash f ∧
  total (db f') = total (db f) + (if ok then n else 0) ∧ (ok = false → u64_max < lam (db f !! k) + n).
Proof.
  intros Hdb Hn. unfold deposit. intros (? & ? & [= <- <-] & H)%st_bind_Ok. pose proof (find_lam k f Hdb) as Hlam.
  assert (Hd : lamports (default Account_default (find_account k f)) = lam (db f !! k)) by (rewrite <-Hlam; by destruct (find_account k f)).
  unfold checked_add_lamports in H. rewrite Hd in H. destruct (checked_add64 (lam (db f !! k)) n) as [l|] eqn:Hc.
  - apply checked_add64_Some in Hc as [-> Hle]. apply st_bind_Ok in H as (f1 & [] & Hs & [= <- <-]).
    apply store_spec in Hs as (Hf' & Hcap & Hp & Hh). rewrite Hf'. split_and!; try done.
    + apply db_ok_store; [done|]. cbn. split; [|lia]. destruct (db f !! k) as [a|] eqn:Hk; cbn; [destruct (Hdb _ _ Hk)|]; lia.
    + rewrite total_store. cbn. lia.
  - apply checked_add64_None in Hc. injection H as <- <-. split_and!; try done; lia.
Qed.

(** ** Rent *)

Section freeze.
Context (cfg : BankConfig).

Lemma collect_each_spec l t f f' r :
  db_ok (db f) → NoDup l.*1 → Forall (λ x, db f !! x.1 = Some x.2) l →
  collect_rent_each cfg l t f = (f', Ok r) →
  db_ok (db f') ∧ capitalization f' = capitalization f ∧ purses f' = purses f ∧ fz_hash f' = fz_hash f ∧
  ∃ R, wrap64 r = wrap64 (t + R) ∧ total (db f') + R = total (db f).
Proof.
  revert t f. induction l as [|[k a] l IH]; intros t f Hdb Hnd HF; cbn [collect_rent_each].
  { intros [= <- <-]. split_and!; try done. exists 0. split; [f_equal|]; lia. }
  apply NoDup_cons in Hnd as [Hk Hnd]. apply Forall_cons in HF as [Ha HF]. cbn in Ha.
  destruct (collect_from_existing_account _ k a _) as [rent a'] eqn:Hc. intros (f1 & [] & Hs & Hl)%st_bind_Ok.
  destruct (collect_rent_spec _ _ _ _ _ _ (Hdb _ _ Ha) Hc) as (Hr & Heq & Hu & _).
  apply store_spec in Hs as (Hf1 & Hcap & Hp & Hh). apply IH in Hl as (Hdb' & Hcap' & Hp' & Hh' & R & HR & Htot).
  - split_and!; [done|congruence..|]. exists (rent + R). split.
    + rewrite HR. unfold add64, wrap64. rewrite Z.add_mod_idemp_l by lia. f_equal; lia.
    + rewrite Hf1, total_store, Ha in Htot. cbn in Htot. lia.
  - rewrite Hf1. by apply db_ok_store.
  - done.
  - apply Forall_forall. intros x Hx. rewrite Forall_forall in HF. rewrite Hf1, lookup_store; [by apply HF|]. intros Heq'.
    apply Hk. rewrite <-Heq'. apply list_elem_of_fmap. by exists x.
Qed.

(** What a bank's purses and accounts hold. *)
Definition pending (f : Freezing) : Z := (purses f).1 + (purses f).2.

Lemma collect_partition_spec p f f' u :
  settled (pending f) f → collect_rent_in_partition cfg p f = (f', Ok u) → settled (pending f') f' ∧ fz_hash f' = fz_hash f.
Proof.
  intros [Hdb Hcap]. unfold collect_rent_in_partition. intros (? & [lo hi] & [-> _]%lift_inv & H)%st_bind_Ok.
  apply st_bind_Ok in H as (? & ? & [= <- <-] & (f1 & r & Hl & [= <- <-])%st_bind_Ok).
  apply collect_each_spec in Hl as (Hdb' & Hcap' & Hp & Hh & R & HR & Htot); [|done|..].
  - split; [|done]. split; [done|]. cbn. rewrite Hcap', Hcap. unfold pending, purses in *. cbn. injection Hp as -> ->.
    transitivity (wrap64 (total (db f1) + R + (collector_fees (fz_bank f) + collected_rent (fz_bank f)))); [f_equal; lia|].
    unfold db. cbn. unfold add64. destruct (wrap64_inj _ _ HR) as [k Hk], (wrap64_ex (collected_rent (fz_bank f) + r)) as [k' ->].
    apply (wrap64_eq _ _ (- k - k')). unfold db. lia.
  - unfold load_to_collect_rent_eagerly. eapply sublist_NoDup; [|apply fmap_sublist, sublist_filter]. apply NoDup_fst_map_to_list.
  - apply Forall_forall. intros [k a] [_ Hin]%list_elem_of_filter. by apply elem_of_map_to_list.
Qed.

Lemma collect_partitions_spec l f f' u :
  settled (pending f) f → collect_rent_in_partitions cfg l f = (f', Ok u) → settled (pending f') f' ∧ fz_hash f' = fz_hash f.
Proof.
  revert f. induction l as [|p l IH]; intros f Hs; cbn [collect_rent_in_partitions]; [by intros [= <- _]|].
  intros (f1 & [] & [H1 Hh1]%collect_partition_spec & [H2 Hh2]%IH)%st_bind_Ok; [|done..]. split; [done|congruence].
Qed.

(** ** Fees *)

Lemma settled_burn n p f : settled p f → settled (p - n) (burn_lamports n f).
Proof.
  intros [Hdb Hcap]. split; [done|]. cbn. rewrite Hcap, wrap64_sub. f_equal. unfold db. cbn. lia.
Qed.

Lemma settled_eq p q k f : p = q + k * 2 ^ 64 → settled p f → settled q f.
Proof. intros -> [Hdb Hcap]. split; [done|]. rewrite Hcap. apply (wrap64_eq _ _ k). lia. Qed.

(** A deposit, or burning what cannot be deposited, settles it. *)
Lemma deposit_settled k n p f f' ok :
  settled p f → 0 <= n → deposit k n f = (f', Ok ok) →
  settled (p - if ok then n else 0) f' ∧ purses f' = purses f ∧ fz_hash f' = fz_hash f.
Proof.
  intros [Hdb Hcap] Hn Hd. apply deposit_spec in Hd as (Hdb' & Hcap' & Hp & Hh & Ht & _); [|done..]. split_and!; [|done..].
  split; [done|]. rewrite Hcap', Hcap, Ht. f_equal; lia.
Qed.

Lemma burn_split g fees d b : burn g fees = (d, b) → ∃ k, d + b = fees + k * 2 ^ 64.
Proof.
  unfold burn. intros [= <- <-]. unfold sub64. destruct (wrap64_ex (fees - mul64 fees (fee_burn_percent g) / 100)) as [k ->].
  exists k. lia.
Qed.

Lemma collect_fees_spec collector g f f' u :
  settled (pending f) f → collect_fees collector g f = (f', Ok u) →
  settled (purses f').2 f' ∧ fz_hash f' = fz_hash f.
Proof.
  intros Hs. unfold collect_fees. intros (? & ? & [= <- <-] & H)%st_bind_Ok. unfold pending in Hs. cbn [purses fst snd] in *.
  destruct (Z.eqb_spec (collector_fees (fz_bank f)) 0) as [H0|H0].
  { injection H as <- _. split; [|done]. cbn. rewrite H0 in Hs. done. }
  destruct (burn g _) as [d b] eqn:Hb. apply st_bind_Ok in H as (f1 & ok & Hd & [= <- _]).
  pose proof Hb as [k Hk]%burn_split. assert (0 <= d) by (injection Hb as <- _; apply wrap64_range).
  apply (deposit_settled _ _ _ _ _ _ Hs) in Hd as (H1 & Hp & Hh); [|done]. split; [|done].
  apply (settled_burn (if ok then b else add64 b d)) in H1. change (collected_rent (fz_bank f)) with (purses f).2 in H1. rewrite <-Hp in H1.
  destruct ok; [eapply (settled_eq _ _ (-k)); [|exact H1]; cbn; lia|]. destruct (wrap64_ex (b + d)) as [k' Hk']. unfold add64 in *.
  eapply (settled_eq _ _ (- k - k')); [|exact H1]. cbn. lia.
Qed.

(** ** Distributing the rent *)

Context (vote_accounts : list (Pubkey * (Z * option VoteState))).

Lemma total_staked_range : is_u64 (total_staked vote_accounts).
Proof.
  unfold total_staked. assert (H0 : is_u64 0) by done. revert H0. generalize 0. induction vote_accounts as [|x l IH]; intros n Hn; cbn; [done|].
  apply IH, wrap64_range.
Qed.

Lemma rent_share_nonneg R staked share :
  0 <= R → 0 <= staked → rent_share cfg vote_accounts R staked = Ok share → 0 <= share.
Proof.
  intros HR Hs. unfold rent_share. destruct (enforce_fix cfg); [|intros [= <-]; apply f64_to_u64_range].
  destruct (Z.eqb_spec (total_staked vote_accounts) 0); [done|]. destruct (_ <=? _); [|done]. intros [= <-].
  destruct total_staked_range. apply Z.div_pos; lia.
Qed.

Lemma pay_shares_spec l left p f f' left' :
  settled p f → Forall (λ x, 0 <= x.2) l → pay_shares cfg l left f = (f', Ok left') →
  purses f' = purses f ∧ fz_hash f' = fz_hash f ∧
  ∃ k, settled (p - (sum_with snd l + left - left') + k * 2 ^ 64) f'.
Proof.
  revert left p f. induction l as [|[k share] l IH]; intros left p f Hs HF; cbn [pay_shares].
  { intros [= <- <-]. split_and!; [done..|]. exists 0. replace (p - _ + _) with p; [done|]. unfold sum_with. cbn. lia. }
  apply Forall_cons in HF as [Hsh HF]. cbn in Hsh.
  destruct (if 0 <? left then _ else _) as [paid left1] eqn:Hpay.
  assert (Hpaid : 0 <= paid ∧ ∃ j, paid + left1 = share + left + j * 2 ^ 64).
  { destruct (0 <? left); injection Hpay as <- <-; [|split; [done|exists 0; lia]]. unfold add64. split; [apply wrap64_range|].
    destruct (wrap64_ex (share + 1)) as [j ->]. exists j. lia. }
  destruct Hpaid as [Hp0 [j Hj]]. intros (f1 & [] & H1 & H2)%st_bind_Ok.
  assert (Hstep : purses f1 = purses f ∧ fz_hash f1 = fz_hash f ∧ settled (p - paid) f1).
  { destruct (negb (enforce_fix cfg) || (0 <? paid)) eqn:Hg.
    - apply st_bind_Ok in H1 as (f2 & ok & Hd & H1). apply (deposit_settled _ _ _ _ _ _ Hs) in Hd as (Hs2 & Hp2 & Hh2); [|done].
      destruct ok; [injection H1 as <-; done|]. injection H1 as <-. split_and!; [done..|].
      apply (settled_burn paid) in Hs2. by replace (p - 0 - paid) with (p - paid) in Hs2 by lia.
    - apply orb_false_iff in Hg as [_ Hz%Z.ltb_ge]. injection H1 as <-. split_and!; [done..|]. by replace (p - paid) with p by lia. }
  destruct Hstep as (Hp1 & Hh1 & Hs1). destruct (IH _ _ _ Hs1 HF H2) as (Hp2 & Hh2 & k2 & Hs2). split_and!; [congruence..|].
  exists (k2 - j). eapply (settled_eq _ _ 0); [|exact Hs2]. unfold sum_with in *. cbn [foldr snd]. lia.
Qed.

Lemma rent_shares_spec R l shares sum :
  0 <= R → Forall (λ x, 0 <= x.2) l → rent_shares cfg vote_accounts R l = Ok (shares, sum) →
  Forall (λ x, 0 <= x.2) shares ∧ ∃ k, sum = sum_with snd shares + k * 2 ^ 64.
Proof.
  intros HR HF. revert shares sum. induction HF as [|[k staked] l Hs HF IH]; intros shares sum; cbn [rent_shares].
  { intros [= <- <-]. split; [done|]. by exists 0. }
  intros (share & Hshare & ([shares' sum'] & Hl & [= <- <-])%res_bind_Ok)%res_bind_Ok. destruct (IH _ _ Hl) as [HF' [j ->]].
  split; [constructor; [exact (rent_share_nonneg R staked share HR Hs Hshare)|done]|]. unfold add64.
  destruct (wrap64_ex (share + (sum_with snd shares' + j * 2 ^ 64))) as [j' ->]. exists (j + j'). unfold sum_with. cbn. lia.
Qed.

Definition stakes_ok : Prop := Forall (λ x : Pubkey * (Z * option VoteState), 0 <= x.2.1) vote_accounts.

Lemma validator_stakes_elem k staked :
  (k, staked) ∈ validator_stakes vote_accounts →
  ∃ x v, x ∈ vote_accounts ∧ x.2.1 ≠ 0 ∧ x.2.2 = Some v ∧ k = node_pubkey v ∧ staked = x.2.1.
Proof.
  intros (x & Hx & Heq)%list_elem_of_omap. destruct (Z.eqb_spec x.2.1 0); [done|]. destruct (x.2.2) as [v|] eqn:Hv; [|done].
  injection Heq as <- <-. eauto 10.
Qed.

Lemma sorted_stakes_nonneg : stakes_ok → Forall (λ x, 0 <= x.2) (sort_by stake_before (validator_stakes vote_accounts)).
Proof.
  intros Hok. apply Forall_forall. intros [k staked] (x & v & Hx & _ & _ & _ & ->)%sort_by_elem%validator_stakes_elem.
  unfold stakes_ok in Hok. rewrite Forall_forall in Hok. by apply Hok.
Qed.

Lemma distribute_to_validators_spec R p f f' u :
  stakes_ok → 0 <= R → settled p f → distribute_rent_to_validators cfg vote_accounts R f = (f', Ok u) →
  purses f' = purses f ∧ fz_hash f' = fz_hash f ∧ settled (p - R) f'.
Proof.
  intros Hok HR Hs. unfold distribute_rent_to_validators. intros (f0 & [] & Ha & H)%st_bind_Ok.
  unfold assert_ in Ha at 1. destruct (negb _); [|done]. injection Ha as <-.
  apply st_bind_Ok in H as (f1 & [shares dist] & [-> Hsh]%lift_inv & (f2 & left & Hpay & H)%st_bind_Ok). symmetry in Hsh.
  apply rent_shares_spec in Hsh as [HFs [j ->]]; [|done|by apply sorted_stakes_nonneg].
  destruct (pay_shares_spec _ _ _ _ _ _ Hs HFs Hpay) as (Hp & Hh & k & Hs2).
  unfold sub64 in Hs2. destruct (wrap64_ex (R - (sum_with snd shares + j * 2 ^ 64))) as [j' Hj']. rewrite Hj' in Hs2.
  assert (Hs3 : settled (p - R + left) f2) by (eapply (settled_eq _ _ (j - j' + k)); [|exact Hs2]; lia).
  destruct (enforce_fix cfg).
  - unfold assert_ in H. destruct (Z.eqb_spec left 0) as [->|]; [|done]. injection H as <- _. split_and!; [done..|].
    by rewrite Z.add_0_r in Hs3.
  - destruct (Z.eqb_spec left 0) as [->|]; injection H as <- _; split_and!; try done; [by rewrite Z.add_0_r in Hs3|].
    apply (settled_burn left) in Hs3. by replace (p - R + left - left) with (p - R) in Hs3 by lia.
Qed.

Lemma distribute_rent_spec f f' u :
  stakes_ok → settled (purses f).2 f → distribute_rent cfg vote_accounts f = (f', Ok u) →
  settled 0 f' ∧ fz_hash f' = fz_hash f.
Proof.
  intros Hok Hs. unfold distribute_rent. intros (? & ? & [= <- <-] & H)%st_bind_Ok.
  destruct (calculate_burn _ _) as [b R] eqn:Hb. apply st_bind_Ok in H as (f1 & [] & [= <-] & H).
  apply (settled_burn b) in Hs. unfold calculate_burn in Hb. injection Hb as Hb HR.
  assert (HR0 : 0 <= R) by (rewrite <-HR; apply wrap64_range). unfold sub64 in HR.
  destruct (wrap64_ex (collected_rent (fz_bank f) - mul64 (collected_rent (fz_bank f)) (burn_percent (rc_rent (rent_collector cfg))) / 100)) as [k Hk].
  rewrite HR, Hb in Hk. cbn in Hs.
  destruct (Z.eqb_spec R 0) as [->|Hne].
  - injection H as <- _. split; [|done]. eapply (settled_eq _ _ (- k)); [|exact Hs]. lia.
  - eapply distribute_to_validators_spec in H as (_ & Hh & Hs2); [|done..]. split; [|done].
    eapply (settled_eq _ _ (- k)); [|exact Hs2]. lia.
Qed.

(** ** The slot history and the incinerator *)

Lemma store_capitalized k a f f' u :
  settled 0 f → is_u64 (lamports a) → store_account_and_update_capitalization k a f = (f', Ok u) →
  settled 0 f' ∧ fz_hash f' = fz_hash f.
Proof.
  intros [Hdb Hcap] Ha. unfold store_account_and_update_capitalization.
  intros (? & ? & [= <- <-] & (f1 & [] & H1 & (Hdb' & Hcap' & _ & Hh)%store_spec)%st_bind_Ok)%st_bind_Ok.
  pose proof (find_lam k f Hdb) as Hlam.
  assert (Hf1 : db f1 = db f ∧ fz_hash f1 = fz_hash f ∧ capitalization f1 = wrap64 (total (db f) - lam (db f !! k) + lamports a)).
  { rewrite <-Hlam. destruct (find_account k f) as [o|]; cbn [lam].
    - destruct (Z.ltb_spec (lamports o) (lamports a)); [|destruct (Z.ltb_spec (lamports a) (lamports o))];
        injection H1 as <-; cbn; rewrite Hcap; (split; [done|split; [done|]]).
      + rewrite wrap64_add_r. f_equal; lia.
      + rewrite wrap64_sub. f_equal; lia.
      + f_equal; lia.
    - injection H1 as <-. cbn. rewrite Hcap, wrap64_add_r. split; [done|split; [done|]]. f_equal; lia. }
  destruct Hf1 as (Hf1 & Hh1 & Hc1). split; [|congruence]. split; [rewrite Hdb', Hf1; by apply db_ok_store|].
  rewrite Hcap', Hc1, Hdb', Hf1, total_store, Z.add_0_r. done.
Qed.

Context `{BV : !BitVec} `{!Codec SlotHistory} (parent_account : Pubkey → option Account).
Context (Hparent : ∀ k a, parent_account k = Some a → is_u64 (lamports a)).

Lemma update_slot_history_spec f f' u :
  settled 0 f → update_slot_history cfg parent_account f = (f', Ok u) → settled 0 f' ∧ fz_hash f' = fz_hash f.
Proof.
  intros Hs. unfold update_slot_history, update_sysvar_account. intros (? & ? & [= <- <-] & (? & a & [-> Ha]%lift_inv & H)%st_bind_Ok)%st_bind_Ok.
  apply store_capitalized in H; [done|done|]. symmetry in Ha. apply res_bind_Ok in Ha as (h & _ & [= <-]). destruct Hs as [Hdb _].
  assert (Hold : ∀ o, (if rent_for_sysvars cfg then find_account sysvar_slot_history_id f else parent_account sysvar_slot_history_id) = Some o →
    is_u64 (lamports o)).
  { intros o. destruct (rent_for_sysvars cfg); [|apply Hparent]. unfold find_account, get_account.
    destruct (accounts (fz_bank f) !! _) as [o'|] eqn:Hk; [|done]. cbn. destruct (0 <? _); [|done]. intros [= <-]. by eapply Hdb. }
  set (old := if rent_for_sysvars cfg then find_account sysvar_slot_history_id f else parent_account sysvar_slot_history_id) in *.
  assert (Hl : is_u64 (match old with Some o => lamports o | None => 1 end)) by (destruct old; [by apply Hold|done]).
  destruct (rent_for_sysvars cfg); [|exact Hl]. cbn. destruct Hl as [Hl1 Hl2].
  match goal with |- is_u64 (Z.max (minimum_balance ?r ?n) _) => assert (is_u64 (minimum_balance r n)) as [Hm1 Hm2] by (apply f64_to_u64_range) end.
  split; lia.
Qed.

Lemma run_incinerator_spec f f' u :
  settled 0 f → run_incinerator f = (f', Ok u) → settled 0 f' ∧ fz_hash f' = fz_hash f.
Proof.
  intros [Hdb Hcap]. unfold run_incinerator. intros (? & ? & [= <- <-] & H)%st_bind_Ok. pose proof (find_lam incinerator_id f Hdb) as Hlam.
  destruct (if bool_decide _ then _ else _) as [a|] eqn:Ha; [|by injection H as <-].
  destruct (bool_decide _); [|done]. rewrite Ha in Hlam. cbn in Hlam.
  apply st_bind_Ok in H as (f1 & [] & [= <-] & (Hdb' & Hcap' & _ & Hh)%store_spec). split; [|done].
  split; [rewrite Hdb'; by apply db_ok_store|]. rewrite Hcap'. cbn. rewrite Hcap, wrap64_sub, Hdb', total_store. cbn.
  f_equal. unfold db in *. cbn. lia.
Qed.

(** C10. When a bank is frozen, its capitalization is what its accounts hold,
    if it was what the accounts, the collected fees and the collected rent
    held together: fees and rent are paid out or burned to the last lamport,
    and every other change of the accounts is counted.  The bank is not frozen
    yet, its balances are [u64], and no stake is negative. *)
Theorem freeze_settles parent_slot ticks_per_slot lazy collector g hash_internal_state f f' :
  stakes_ok → fz_hash f = Hash_default → db_ok (accounts (fz_bank f)) → capitalization f = wrap64 (value (fz_bank f)) →
  freeze cfg parent_slot ticks_per_slot lazy collector g vote_accounts parent_account hash_internal_state f = (f', Ok tt) →
  db_ok (accounts (fz_bank f')) ∧ capitalization f' = wrap64 (total (accounts (fz_bank f'))) ∧ freeze_started (fz_bank f') = true.
Proof.
  intros Hok Hh Hdb Hcap. unfold freeze. intros (? & ? & [= <- <-] & H)%st_bind_Ok. rewrite Hh, Z.eqb_refl in H.
  assert (Hs : settled (pending f) f).
  { split; [done|]. rewrite Hcap. unfold value, pending, purses, db. cbn. f_equal; lia. }
  apply st_bind_Ok in H as (f1 & [] & H1 & (f2 & [] & H2 & (f3 & [] & H3 & (f4 & [] & H4 & (f5 & [] & H5 & H)%st_bind_Ok)%st_bind_Ok)%st_bind_Ok)%st_bind_Ok).
  assert (Hs1 : settled (pending f1) f1).
  { unfold collect_rent_eagerly in H1. destruct lazy; [by injection H1 as <-|].
    apply st_bind_Ok in H1 as (? & parts & [-> _]%lift_inv & H1). by apply collect_partitions_spec in H1 as [? _]. }
  apply collect_fees_spec in H2 as [Hs2 _]; [|done]. apply distribute_rent_spec in H3 as [Hs3 _]; [|done..].
  apply update_slot_history_spec in H4 as [Hs4 _]; [|done]. apply run_incinerator_spec in H5 as [[Hdb5 Hcap5] _]; [|done].
  apply st_bind_Ok in H as (f6 & [] & [= <-] & [= <-]). cbn. rewrite Z.add_0_r in Hcap5. done.
Qed.
End freeze.

(** ** The rent distribution is exact *)

Lemma lam_le_total m k : db_ok m → 0 <= lam (m !! k) <= total m.
Proof.
  intros Hm. destruct (m !! k) as [a|] eqn:Hk; cbn; [|split; [done|by apply total_nonneg]].
  destruct (Hm _ _ Hk) as [Ha _]. split; [done|]. rewrite <-(insert_delete_id m k a Hk), total_insert, lookup_delete_eq. cbn.
  assert (db_ok (delete k m)) by (intros k' a' [_ H']%lookup_delete_Some; by eapply Hm). pose proof (total_nonneg _ H). lia.
Qed.

Lemma deposit_total k n f :
  db_ok (db f) → 0 <= n → lam (db f !! k) + n <= u64_max → freeze_started (fz_bank f) = false →
  ∃ f', deposit k n f = (f', Ok true) ∧ db_ok (db f') ∧ capitalization f' = capitalization f ∧ freeze_started (fz_bank f') = false ∧
    total (db f') = total (db f) + n ∧ ∀ k', lam (db f' !! k') = lam (db f !! k') + if bool_decide (k' = k) then n else 0.
Proof.
  intros Hdb Hn Hle Hfz. pose proof (find_lam k f Hdb) as Hlam.
  assert (Hd : lamports (default Account_default (find_account k f)) = lam (db f !! k)) by (rewrite <-Hlam; by destruct (find_account k f)).
  set (a := set_lamports (lam (db f !! k) + n) (default Account_default (find_account k f))).
  destruct (lam_le_total (db f) k Hdb) as [Hl0 _].
  eexists (mkFreezing (with_accounts (db_store k a (db f)) (fz_bank f)) ({[k]} ∪ fz_stored f) (capitalization f) (fz_hash f)).
  split; [|split_and!].
  - unfold deposit. cbn. unfold mbind, st_bind. cbn. unfold checked_add_lamports. rewrite Hd.
    rewrite (proj2 (checked_add64_Some _ _ _) (conj eq_refl Hle)). unfold store_account. cbn. unfold mbind, st_bind. cbn.
    unfold assert_. by rewrite Hfz.
  - unfold db. cbn. apply db_ok_store; [done|]. cbn. split; lia.
  - done.
  - done.
  - unfold db. cbn. rewrite total_store. cbn. unfold db in *. lia.
  - intros k'. unfold db at 1. cbn. case_bool_decide as Hk'; [subst k'|by rewrite lookup_store, Z.add_0_r].
    unfold db_store. rewrite lookup_insert_eq. destruct (Z.eqb_spec (lamports a) 0) as [Hz|]; cbn; [|done]. cbn in Hz. lia.
Qed.

Lemma sum_with_elem {A} (g : A → Z) l x : Forall (λ y, 0 <= g y) l → x ∈ l → g x <= sum_with g l.
Proof.
  unfold sum_with. induction 1 as [|y l Hy Hl IH]; [by intros ?%not_elem_of_nil|]. cbn. pose proof (sum_with_nonneg g l Hl). unfold sum_with in *.
  intros [->|Hx]%elem_of_cons; [|specialize (IH Hx)]; lia.
Qed.

Section distribution.
Context (cfg : BankConfig) (Hfix : enforce_fix cfg = true).

(** What the entries of a list give to a key. *)
Definition given (k : Pubkey) (l : list (Pubkey * Z)) : Z := sum_with (λ x, if bool_decide (x.1 = k) then x.2 else 0) l.

(** Everything is paid, the leftover one by one. *)
Lemma pay_shares_total l left f :
  db_ok (db f) → freeze_started (fz_bank f) = false → Forall (λ x, 0 <= x.2) l → 0 <= left <= Z.of_nat (length l) →
  total (db f) + sum_with snd l + left <= u64_max →
  ∃ f', pay_shares cfg l left f = (f', Ok 0) ∧ db_ok (db f') ∧ capitalization f' = capitalization f ∧
    total (db f') = total (db f) + sum_with snd l + left ∧
    ∀ k, given k l <= lam (db f' !! k) - lam (db f !! k) <= given k l + Z.of_nat (length (filter (λ x, x.1 = k) l)).
Proof.
  revert left f. induction l as [|[k share] l IH]; intros left f Hdb Hfz HF Hleft Hmax.
  { exists f. cbn in *. replace left with 0 by lia. split_and!; [done|done|done|unfold sum_with; cbn; lia|]. intros k. unfold given, sum_with. cbn. lia. }
  apply Forall_cons in HF as [Hsh HF]. cbn in Hsh. cbn [length] in Hleft. unfold sum_with in Hmax. cbn [foldr snd] in Hmax. fold (sum_with (A:=Pubkey * Z) snd l) in Hmax.
  assert (Hsum : 0 <= sum_with snd l) by (apply sum_with_nonneg; done).
  destruct (lam_le_total (db f) k Hdb) as [Hl0 Hl1].
  set (paid := if 0 <? left then share + 1 else share). set (left1 := if 0 <? left then left - 1 else left).
  assert (Hpay : (if 0 <? left then (add64 share 1, left - 1) else (share, left)) = (paid, left1)).
  { unfold paid, left1. destruct (Z.ltb_spec 0 left); [|done]. f_equal. unfold add64. apply wrap64_id. split; lia. }
  assert (Hp : share <= paid <= share + 1 ∧ paid + left1 = share + left ∧ 0 <= left1 <= Z.of_nat (length l)).
  { unfold paid, left1. destruct (Z.ltb_spec 0 left); lia. }
  assert (Hstep : ∃ f1, (if negb (enforce_fix cfg) || (0 <? paid) then
      ok ← deposit k paid; if ok : bool then mret tt else modify (burn_lamports paid) else mret tt) f = (f1, Ok tt) ∧
    db_ok (db f1) ∧ capitalization f1 = capitalization f ∧ freeze_started (fz_bank f1) = false ∧ total (db f1) = total (db f) + paid ∧
    ∀ k', lam (db f1 !! k') = lam (db f !! k') + if bool_decide (k' = k) then paid else 0).
  { rewrite Hfix. cbn. destruct (Z.ltb_spec 0 paid).
    - destruct (deposit_total k paid f Hdb ltac:(lia) ltac:(lia) Hfz) as (f1 & Hd & H1). exists f1. split; [|done].
      apply st_bind_Ok. by exists f1, true.
    - exists f. split_and!; [done..|lia|]. intros k'. case_bool_decide; lia. }
  destruct Hstep as (f1 & Hrun & Hdb1 & Hcap1 & Hfz1 & Ht1 & Hlam1).
  destruct (IH left1 f1) as (f' & Hrun' & Hdb' & Hcap' & Ht' & Hgiven); [done|done|done|lia|lia|].
  exists f'. split; [|split_and!; [done|congruence|unfold sum_with in *; cbn [foldr snd]; lia|]].
  - cbn [pay_shares]. rewrite Hpay. apply st_bind_Ok. by exists f1, tt.
  - intros k'. specialize (Hgiven k'). specialize (Hlam1 k'). unfold given, sum_with in *. cbn [foldr fst snd].
    rewrite filter_cons. cbn [fst]. destruct (bool_decide_reflect (k = k')) as [->|Hne].
    + rewrite decide_True, bool_decide_eq_true_2 in * by done. cbn [length]. lia.
    + rewrite decide_False, bool_decide_eq_false_2 in * by done. lia.
Qed.

Context (vote_accounts : list (Pubkey * (Z * option VoteState))).

(** Every vote account with stake has a vote state. *)
Definition stakes_valid : Prop :=
  Forall (λ x : Pubkey * (Z * option VoteState), 0 <= x.2.1 ∧ (x.2.1 ≠ 0 → is_Some x.2.2)) vote_accounts.
Definition stake_sum : Z := sum_with (λ x : Pubkey * (Z * option VoteState), x.2.1) vote_accounts.

Lemma total_staked_eq : stakes_valid → stake_sum <= u64_max → total_staked vote_accounts = stake_sum.
Proof.
  intros Hv Hmax. unfold total_staked, stake_sum in *.
  assert (Hgen : ∀ n, 0 <= n → n + sum_with (λ x : Pubkey * (Z * option VoteState), x.2.1) vote_accounts <= u64_max →
    foldl (λ n x, add64 n x.2.1) n vote_accounts = n + sum_with (λ x : Pubkey * (Z * option VoteState), x.2.1) vote_accounts).
  { clear Hmax. induction Hv as [|x l [Hx _] Hl IH]; intros n Hn Hle; [unfold sum_with; cbn; lia|]. unfold sum_with in *. cbn [foldl foldr] in *.
    assert (0 <= foldr (λ (x : Pubkey * (Z * option VoteState)) n, x.2.1 + n) 0 l).
    { apply (sum_with_nonneg (λ x : Pubkey * (Z * option VoteState), x.2.1)). eapply Forall_impl; [exact Hl|]. by intros ? []. }
    assert (add64 n x.2.1 = n + x.2.1) as -> by (unfold add64; apply wrap64_id; split; lia). rewrite IH by lia. lia. }
  rewrite Hgen by lia. done.
Qed.

Lemma validator_stakes_sum : stakes_valid → sum_with snd (validator_stakes vote_accounts) = stake_sum.
Proof.
  unfold validator_stakes, stake_sum, sum_with. induction 1 as [|x l [_ Hx] Hl IH]; [done|]. cbn [omap list_omap foldr].
  destruct (Z.eqb_spec x.2.1 0) as [H0|H0]; [rewrite H0; exact IH|]. destruct (Hx H0) as [v Hv]. rewrite Hv. cbn. by rewrite IH.
Qed.

(** The part of the rent that belongs to a stake, rounded down. *)
Definition fair (R : Z) (x : Pubkey * Z) : Pubkey * Z := (x.1, x.2 * R / stake_sum).

Lemma rent_shares_total R l :
  total_staked vote_accounts = stake_sum → 0 < stake_sum → is_u64 R → Forall (λ x, 0 <= x.2 <= stake_sum) l →
  ∃ k, rent_shares cfg vote_accounts R l = Ok (fair R <$> l, sum_with snd (fair R <$> l) + k * 2 ^ 64).
Proof.
  intros Hts Hpos HR. induction 1 as [|[k0 staked] l Hs HF [k IH]]; [by exists 0|]. cbn [rent_shares]. rewrite IH.
  assert (Hshare : rent_share cfg vote_accounts R staked = Ok (staked * R / stake_sum)).
  { unfold rent_share. rewrite Hfix, Hts. destruct (Z.eqb_spec stake_sum 0); [lia|]. cbn in Hs.
    assert (staked * R / stake_sum <= u64_max) as Hle by (apply Z.div_le_upper_bound; [done|]; destruct HR; nia).
    apply Z.leb_le in Hle. by rewrite Hle. }
  rewrite Hshare. cbn. unfold add64. destruct (wrap64_ex (staked * R / stake_sum + (sum_with snd (fair R <$> l) + k * 2 ^ 64))) as [j ->].
  exists (k + j). do 2 f_equal. unfold sum_with. cbn. lia.
Qed.

(** Rounding down loses less than one lamport each. *)
Lemma fair_sum R l :
  0 < stake_sum → let S := sum_with snd (fair R <$> l) in
  S * stake_sum <= sum_with snd l * R <= S * stake_sum + (stake_sum - 1) * Z.of_nat (length l).
Proof.
  intros Hpos. cbn zeta. induction l as [|x l IH]; [unfold sum_with; cbn; lia|]. unfold sum_with in *. cbn [fmap list_fmap foldr length].
  pose proof (Z.div_mod (x.2 * R) stake_sum ltac:(lia)). pose proof (Z.mod_pos_bound (x.2 * R) stake_sum ltac:(lia)). cbn [fair snd] in *. lia.
Qed.

(** The rent distribution pays exactly the rent: if every vote account with
    stake has a vote state, it does not panic, the accounts grow by the rent,
    nothing is burned, and every validator gets the shares of its stakes
    rounded down, and at most one lamport more for each. *)
Theorem rent_distribution_exact R f :
  stakes_valid → 0 < stake_sum <= u64_max → is_u64 R →
  db_ok (accounts (fz_bank f)) → freeze_started (fz_bank f) = false → total (accounts (fz_bank f)) + R <= u64_max →
  ∃ f', distribute_rent_to_validators cfg vote_accounts R f = (f', Ok tt) ∧
    total (accounts (fz_bank f')) = total (accounts (fz_bank f)) + R ∧ capitalization f' = capitalization f ∧
    ∀ k, let stakes := validator_stakes vote_accounts in
      given k (fair R <$> stakes) <= lam (accounts (fz_bank f') !! k) - lam (accounts (fz_bank f) !! k) <=
      given k (fair R <$> stakes) + Z.of_nat (length (filter (λ x, x.1 = k) (fair R <$> stakes))).
Proof.
  intros Hv Hpos HR Hdb Hfz Hmax. pose proof (total_staked_eq Hv ltac:(lia)) as Hts. set (l := sort_by stake_before (validator_stakes vote_accounts)).
  assert (Hperm : l ≡ₚ validator_stakes vote_accounts) by apply sort_by_Permutation.
  assert (Hsum : sum_with snd l = stake_sum) by (rewrite (sum_with_perm _ _ _ Hperm); by apply validator_stakes_sum).
  assert (HF0 : Forall (λ x, 0 <= x.2) l).
  { apply sorted_stakes_nonneg. eapply Forall_impl; [exact Hv|]. by intros ? []. }
  assert (HF : Forall (λ x, 0 <= x.2 <= stake_sum) l).
  { apply Forall_forall. intros x Hx. split; [by apply (proj1 (Forall_forall _ _) HF0)|]. rewrite <-Hsum. by apply (sum_with_elem snd). }
  destruct (rent_shares_total R l Hts ltac:(lia) HR HF) as [j Hshares].
  pose proof (fair_sum R l ltac:(lia)) as [H1 H2]. rewrite Hsum in H1, H2. set (S := sum_with snd (fair R <$> l)) in *.
  assert (HS : S <= R) by nia. assert (HSn : R - S <= Z.of_nat (length l)) by nia.
  assert (HFs : Forall (λ x, 0 <= x.2) (fair R <$> l)).
  { apply Forall_fmap. eapply Forall_impl; [exact HF0|]. intros x Hx. cbn. apply Z.div_pos; [|lia]. apply Z.mul_nonneg_nonneg; [done|by destruct HR]. }
  assert (HS0 : 0 <= S) by (apply sum_with_nonneg; done).
  destruct (pay_shares_total (fair R <$> l) (R - S) f Hdb Hfz HFs) as (f' & Hpay & Hdb' & Hcap & Htot & Hgiven); [rewrite length_fmap; lia|unfold db; lia|].
  exists f'. split; [|split; [fold (db f') (db f); fold S in Htot; lia|split; [done|]]].
  - unfold distribute_rent_to_validators. rewrite bool_decide_eq_false_2.
    2:{ intros Hnil. rewrite <-validator_stakes_sum, Hnil in Hpos by done. by destruct Hpos. }
    apply st_bind_Ok. exists f, tt. split; [done|]. apply st_bind_Ok. exists f, (fair R <$> l, S + j * 2 ^ 64). fold l. rewrite Hshares.
    split; [done|]. apply st_bind_Ok. exists f', 0. rewrite Hfix. split; [|done].
    replace (sub64 R (S + j * 2 ^ 64)) with (R - S); [done|]. unfold sub64. rewrite (wrap64_eq _ (R - S) (- j)) by lia.
    symmetry. apply wrap64_id. destruct HR. split; lia.
  - intros k. cbn zeta. specialize (Hgiven k). unfold given in *.
    assert (Hp : fair R <$> l ≡ₚ fair R <$> validator_stakes vote_accounts) by (by apply fmap_Permutation).
    rewrite (sum_with_perm _ _ _ Hp) in Hgiven. rewrite (Permutation_length (filter_Permutation _ _ _ Hp)) in Hgiven. done.
Qed.
End distribution.

Module example.
Import slot_history.example.
#[local] Instance history_codec : Codec SlotHistory :=
  Build_Codec SlotHistory (λ _, []) (λ l, Some (mkSlotHistory (bits SlotHistory_default) 432000, l)).

(** The first slot of epoch 1, with all fixes active. *)
Definition cfg : BankConfig :=
  mkBankConfig 432000 1 {[432000]} MainnetBeta (λ _, true)
    (mkRentCollector 30 (mkEpochSchedule 432000 432000 false 0 0) (f64_of_Z 78892314) Rent_default) None.

(** Two validators, the larger one with two vote accounts. *)
Definition voter (node : Pubkey) : VoteState := with_node_pubkey node VoteState_default.
Definition voters : list (Pubkey * (Z * option VoteState)) :=
  [(901, (300, Some (voter 91))); (902, (500, Some (voter 92))); (903, (200, Some (voter 91))); (904, (0, None))].

Definition start : Freezing :=
  mkFreezing
    (mkBank {[ 11 := mkAccount 500000 [x00; x01] 500 false 28; 91 := mkAccount 10000000 [] system_program_id false 31;
               incinerator_id := mkAccount 77 [] system_program_id false 31;
               sysvar_slot_history_id := mkAccount 1 [] sysvar_program_id false 0 ]}
       (BlockhashQueue_new 10) status_cache.StatusCache_default 10100 7431 0 0 0 0 0 false false)
    {[ incinerator_id ]} (500000 + 10000000 + 77 + 1 + 10100 + 7431) Hash_default.

Definition frozen : Freezing * res Empty_set unit :=
  freeze cfg 431999 64 false 90 (mkGovernor 5000 5000 20000 5000 5000 50) voters (λ _, None) (λ _, 12345) start.

Lemma start_ok : db_ok (accounts (fz_bank start)).
Proof.
  unfold db_ok. change (map_Forall (λ _ a, is_u64 (lamports a)) (accounts (fz_bank start))). apply (bool_decide_unpack _). vm_compute. exact I.
Qed.

Lemma voters_valid : stakes_valid voters.
Proof. repeat constructor; cbn; try lia; by intros. Qed.

Lemma frozen_ok : frozen.2 = Ok tt.
Proof. vm_compute. done. Qed.

Lemma freeze_settles_witness :
  db_ok (accounts (fz_bank frozen.1)) ∧ capitalization frozen.1 = wrap64 (total (accounts (fz_bank frozen.1))) ∧
  freeze_started (fz_bank frozen.1) = true.
Proof.
  refine (freeze_settles cfg voters (λ _, None) _ 431999 64 false 90 (mkGovernor 5000 5000 20000 5000 5000 50) (λ _, 12345) start frozen.1 _ _ start_ok _ _).
  - done.
  - repeat constructor; cbn; lia.
  - done.
  - vm_compute. done.
  - exact (eq_trans (surjective_pairing frozen) (f_equal (pair frozen.1) frozen_ok)).
Defined.

Lemma rent_distribution_exact_witness :
  ∃ f', distribute_rent_to_validators cfg voters 7431 start = (f', Ok tt) ∧
    total (accounts (fz_bank f')) = total (accounts (fz_bank start)) + 7431.
Proof.
  destruct (rent_distribution_exact cfg eq_refl voters 7431 start) as (f' & H & Ht & _).
  - exact voters_valid.
  - vm_compute. done.
  - done.
  - exact start_ok.
  - done.
  - vm_compute. done.
  - exact (ex_intro _ f' (conj H Ht)).
Defined.

(** A vote account with stake but no vote state counts for the total only: the
    rest of the rent is more than the validators take one lamport each of, and
    the distribution panics. *)
Theorem unreadable_vote_account_panics :
  (distribute_rent_to_validators cfg ((905, (500, None)) :: voters) 7431 start).2 = Panic.
Proof. vm_compute. done. Qed.
End example.
End freeze_props.
