(* ===== verification/Timestamp.v ===== *)
(** * The clock of the cluster

    Models [runtime/src/stake_weighted_timestamp.rs] and the clock update of
    [runtime/src/bank.rs]: the time of a slot is the stake-weighted median of
    the timestamps of the recent votes, moved to the slot, kept within an
    allowed drift of the time the slots since the start of the epoch should
    have taken, and never below the time of the parent. *)

From S2P Require Import Prelude F64 Account Features BTreeMap Sysvar Fees StatusCache VoteState VoteWf VoteProgram Bank BankFreeze FreezeProps.
From Stdlib Require Import Strings.Byte.

Module timestamp.
Import bank bank_freeze.

(** ** [i64], [u128] and [Duration] *)

(** [x as u64] *)
Definition as_u64 (x : Z) : Z := wrap64 x.

Definition clamp_i64 (x : Z) : Z := Z.max i64_min (Z.min i64_max x).
Definition saturating_add_i64 (a b : Z) : Z := clamp_i64 (a + b).
Definition saturating_sub_i64 (a b : Z) : Z := clamp_i64 (a - b).
Definition saturating_add128 (a b : Z) : Z := Z.min (a + b) u128_max.

(** A [Duration], in nanoseconds. *)
Definition Duration : Type := Z.
Definition NANOS_PER_SEC : Z := 1000000000.
Definition Duration_MAX : Duration := u64_max * NANOS_PER_SEC + 999999999.
Definition from_secs (s : Z) : Duration := s * NANOS_PER_SEC.
Definition as_secs (d : Duration) : Z := d / NANOS_PER_SEC.
Definition duration_saturating_mul (d : Duration) (n : Z) : Duration := Z.min (d * n) Duration_MAX.
Definition duration_saturating_sub (a b : Duration) : Duration := Z.max (a - b) 0.

(** ** The estimate *)

Definition MAX_ALLOWABLE_DRIFT_PERCENTAGE : Z := 50.
Definition MAX_ALLOWABLE_DRIFT_PERCENTAGE_FAST : Z := 25.
Definition MAX_ALLOWABLE_DRIFT_PERCENTAGE_SLOW : Z := 80.

Record MaxAllowableDrift : Type := mkDrift { fast : Z; slow : Z }.

(** A timestamp of [timestamp_slot], moved to [slot]. *)
Definition moved (slot : Slot) (slot_duration : Duration) (t : Slot * UnixTimestamp) : UnixTimestamp :=
  let offset := duration_saturating_mul slot_duration (wrap32 (saturating_sub slot t.1)) in
  saturating_add_i64 t.2 (as_i64 (as_secs offset)).

Definition add_stake (estimate : UnixTimestamp) (stake : Z) (m : list (UnixTimestamp * Z)) : list (UnixTimestamp * Z) :=
  bt_insert estimate (match bt_get estimate m with Some s => saturating_add128 s stake | None => stake end) m.

Fixpoint collect_stakes (stakes : gmap Pubkey Z) (slot : Slot) (slot_duration : Duration)
    (unique_timestamps : list (Pubkey * (Slot * UnixTimestamp))) (acc : list (UnixTimestamp * Z) * Z)
  : list (UnixTimestamp * Z) * Z :=
  match unique_timestamps with
  | [] => acc
  | (vote_pubkey, t) :: l =>
      let stake := default 0 (stakes !! vote_pubkey) in
      collect_stakes stakes slot slot_duration l
        (add_stake (moved slot slot_duration t) stake acc.1, saturating_add128 acc.2 stake)
  end.

(** The first timestamp at which more than half of the stake is passed. *)
Fixpoint median (total_stake stake_accumulator : Z) (m : list (UnixTimestamp * Z)) : UnixTimestamp :=
  match m with
  | [] => 0
  | (timestamp, stake) :: m' =>
      let stake_accumulator := saturating_add128 stake_accumulator stake in
      if total_stake / 2 <? stake_accumulator then timestamp else median total_stake stake_accumulator m'
  end.

(** Bound the estimate by the drift since the start of the epoch. *)
Definition bound_estimate (slot : Slot) (slot_duration : Duration) (start : Slot * UnixTimestamp)
    (max_allowable_drift : MaxAllowableDrift) (fix_estimate_into_u64 : bool) (estimate : UnixTimestamp) : UnixTimestamp :=
  let '(epoch_start_slot, epoch_start_timestamp) := start in
  let poh_estimate_offset := duration_saturating_mul slot_duration (wrap32 (saturating_sub slot epoch_start_slot)) in
  let estimate_offset := from_secs (
    if fix_estimate_into_u64 then saturating_sub (as_u64 estimate) (as_u64 epoch_start_timestamp)
    else as_u64 (saturating_sub_i64 estimate epoch_start_timestamp)) in
  let max_allowable_drift_fast := duration_saturating_mul poh_estimate_offset (fast max_allowable_drift) / 100 in
  let max_allowable_drift_slow := duration_saturating_mul poh_estimate_offset (slow max_allowable_drift) / 100 in
  if (poh_estimate_offset <? estimate_offset)
     && (max_allowable_drift_slow <? duration_saturating_sub estimate_offset poh_estimate_offset)
  then
    saturating_add_i64 (saturating_add_i64 epoch_start_timestamp (as_i64 (as_secs poh_estimate_offset)))
      (as_i64 (as_secs max_allowable_drift_slow))
  else if (estimate_offset <? poh_estimate_offset)
     && (max_allowable_drift_fast <? duration_saturating_sub poh_estimate_offset estimate_offset)
  then
    saturating_sub_i64 (saturating_add_i64 epoch_start_timestamp (as_i64 (as_secs poh_estimate_offset)))
      (as_i64 (as_secs max_allowable_drift_fast))
  else estimate.

Definition calculate_stake_weighted_timestamp (unique_timestamps : list (Pubkey * (Slot * UnixTimestamp)))
    (stakes : gmap Pubkey Z) (slot : Slot) (slot_duration : Duration) (epoch_start_timestamp : option (Slot * UnixTimestamp))
    (max_allowable_drift : MaxAllowableDrift) (fix_estimate_into_u64 : bool) : option UnixTimestamp :=
  let '(stake_per_timestamp, total_stake) := collect_stakes stakes slot slot_duration unique_timestamps ([], 0) in
  if total_stake =? 0 then None
  else
    let estimate := median total_stake 0 stake_per_timestamp in
    Some (match epoch_start_timestamp with
          | Some start => bound_estimate slot slot_duration start max_allowable_drift fix_estimate_into_u64 estimate
          | None => estimate
          end).

(** ** The clock of a bank *)

Definition Clock_default : Clock := mkClock 0 0 0 0 0.
Definition Clock_size_of : nat := 40.

Section clock.
Context (cfg : BankConfig) (parent_account : Pubkey → option Account) `{!Codec Clock}.
Context (epoch_schedule : EpochSchedule) (ns_per_slot genesis_creation_time : Z).
Context (vote_accounts : list (Pubkey * option VoteState)) (epoch_vote_accounts : gmap Epoch (gmap Pubkey Z)).

(** The slot at which the feature was activated, if it is active. *)
Context (warp_timestamp_again : option Slot).

Definition unix_timestamp_from_genesis : UnixTimestamp :=
  as_i64 (genesis_creation_time + as_i64 (wrap128 (bank_slot cfg * ns_per_slot) / 1000000000)).

Definition clock (f : Freezing) : Clock :=
  default Clock_default (deserialize (T:=Clock) (data (default Account_default (find_account sysvar_clock_id f)))).

Definition recent_timestamps : list (Pubkey * (Slot * UnixTimestamp)) :=
  omap (λ x : Pubkey * option VoteState,
    vote_state ← x.2;
    slot_delta ← checked_sub64 (bank_slot cfg) (ts_slot (last_timestamp vote_state));
    if slot_delta <=? slots_per_epoch epoch_schedule
    then Some (x.1, (ts_slot (last_timestamp vote_state), ts_timestamp (last_timestamp vote_state)))
    else None) vote_accounts.

Definition get_timestamp_estimate (max_allowable_drift : MaxAllowableDrift)
    (epoch_start_timestamp : option (Slot * UnixTimestamp)) : option UnixTimestamp :=
  stakes ← epoch_vote_accounts !! get_epoch epoch_schedule (bank_slot cfg);
  calculate_stake_weighted_timestamp recent_timestamps stakes (bank_slot cfg) (as_u64 ns_per_slot)
    epoch_start_timestamp max_allowable_drift (bool_decide (is_Some warp_timestamp_again)).

Definition clock_drift : MaxAllowableDrift :=
  match warp_timestamp_again with
  | Some _ => mkDrift MAX_ALLOWABLE_DRIFT_PERCENTAGE_FAST MAX_ALLOWABLE_DRIFT_PERCENTAGE_SLOW
  | None => mkDrift MAX_ALLOWABLE_DRIFT_PERCENTAGE MAX_ALLOWABLE_DRIFT_PERCENTAGE
  end.

(** The start of the epoch the drift is counted from. *)
Definition drift_start (parent_epoch : option Epoch) (c : Clock) : option (Slot * UnixTimestamp) :=
  if bool_decide (warp_timestamp_again = Some (bank_slot cfg)) then None
  else Some (get_first_slot_in_epoch epoch_schedule (default (bank_epoch cfg) parent_epoch), epoch_start_timestamp c).

Definition next_clock (parent_epoch : option Epoch) (c : Clock) : Clock :=
  let ancestor_timestamp := unix_timestamp c in
  let unix_timestamp :=
    match get_timestamp_estimate clock_drift (drift_start parent_epoch c) with
    | Some timestamp_estimate =>
        if timestamp_estimate <? ancestor_timestamp then ancestor_timestamp else timestamp_estimate
    | None => unix_timestamp c
    end in
  let epoch_start_timestamp :=
    match parent_epoch with
    | Some e => if e =? bank_epoch cfg then epoch_start_timestamp c else unix_timestamp
    | None => epoch_start_timestamp c
    end in
  let '(unix_timestamp, epoch_start_timestamp) :=
    if bank_slot cfg =? 0 then (unix_timestamp_from_genesis, unix_timestamp_from_genesis)
    else (unix_timestamp, epoch_start_timestamp) in
  mkClock (bank_slot cfg) epoch_start_timestamp (get_epoch epoch_schedule (bank_slot cfg))
    (get_leader_schedule_epoch epoch_schedule (bank_slot cfg)) unix_timestamp.

Definition update_clock (parent_epoch : option Epoch) : FZ unit :=
  f ← get;
  update_sysvar_account cfg parent_account sysvar_clock_id (λ old_account,
    let '(l, e) := inherit_specially_retained_account_fields cfg old_account in
    Ok (create_account Clock_size_of (bincode_ser (next_clock parent_epoch (clock f))) l e)).
End clock.

(** ** The median *)

#[local] Ltac Zify.zify_post_hook ::= Z.to_euclidean_division_equations.

Definition wsum (g : Z → bool) (m : list (Z * Z)) : Z := sum_with (λ e, if g e.1 then e.2 else 0) m.

Lemma wsum_insert g k v m :
  bt_sorted m → wsum g (bt_insert k v m) = wsum g m + (if g k then v - default 0 (bt_get k m) else 0).
Proof.
  unfold wsum, sum_with, bt_sorted. induction 1 as [|[k' v'] m Hs IH Hall]; cbn [foldr bt_insert bt_get default fst snd];
    [destruct (g k); lia|].
  destruct (Z.ltb_spec k k'); [|destruct (Z.eqb_spec k k') as [->|]]; cbn [foldr fst snd].
  - destruct (Z.eqb_spec k k'); [lia|].
    assert (bt_get k m = None) as ->; [|cbn; destruct (g k); lia].
    apply bt_get_None. intros v0 Hin. apply (proj1 (Forall_forall _ _) Hall) in Hin. cbn in Hin. lia.
  - destruct (g k'); cbn; lia.
  - rewrite IH. destruct (Z.eqb_spec k k'); lia.
Qed.

Definition nonneg_stakes (m : list (Z * Z)) : Prop := Forall (λ e, 0 <= e.2) m.

Lemma wsum_bounds g m : nonneg_stakes m → 0 <= wsum g m <= wsum (λ _, true) m.
Proof. unfold wsum, sum_with. induction 1; cbn [foldr]; [lia|]. destruct (g x.1); lia. Qed.

Lemma bt_get_le_wsum k m : nonneg_stakes m → 0 <= default 0 (bt_get k m) <= wsum (λ _, true) m.
Proof.
  unfold wsum, sum_with. induction 1 as [|[k' v'] m Hv Hm IH]; cbn [foldr bt_get default fst snd] in *; [lia|].
  pose proof (wsum_bounds (λ _, true) m Hm) as Hw. unfold wsum, sum_with in Hw.
  destruct (k =? k'); cbn in *; lia.
Qed.

Lemma add_stake_sum g t s m :
  bt_sorted m → nonneg_stakes m → 0 <= s → wsum (λ _, true) m + s <= u128_max →
  bt_sorted (add_stake t s m) ∧ nonneg_stakes (add_stake t s m) ∧
  wsum g (add_stake t s m) = wsum g m + (if g t then s else 0).
Proof.
  intros Hs Hm Hs0 Hle. unfold add_stake. pose proof (bt_get_le_wsum t m Hm) as Hget.
  split_and!; [by apply bt_insert_sorted| |].
  - apply Forall_forall. intros e [->|He]%bt_insert_In; [|by apply (proj1 (Forall_forall _ _) Hm)].
    cbn. unfold saturating_add128. destruct (bt_get t m); cbn in *; lia.
  - rewrite wsum_insert by done. unfold saturating_add128. destruct (g t), (bt_get t m); cbn in *; lia.
Qed.

Section collect.
Context (stakes : gmap Pubkey Z) (slot : Slot) (slot_duration : Duration).
Implicit Types votes : list (Pubkey * (Slot * UnixTimestamp)).

Definition vote_weight (v : Pubkey * (Slot * UnixTimestamp)) : Z := default 0 (stakes !! v.1).
Definition weight_where (g : Z → bool) votes : Z :=
  sum_with (λ v, if g (moved slot slot_duration v.2) then vote_weight v else 0) votes.

Context (Hstakes : ∀ k s, stakes !! k = Some s → 0 <= s).

Lemma vote_weight_nonneg v : 0 <= vote_weight v.
Proof. unfold vote_weight. destruct (stakes !! v.1) eqn:H; cbn; [by eapply Hstakes|lia]. Qed.

Lemma collect_stakes_spec g votes m n :
  bt_sorted m → nonneg_stakes m → n = wsum (λ _, true) m → n + weight_where (λ _, true) votes <= u128_max →
  let '(m', n') := collect_stakes stakes slot slot_duration votes (m, n) in
  bt_sorted m' ∧ nonneg_stakes m' ∧ n' = wsum (λ _, true) m' ∧
  wsum g m' = wsum g m + weight_where g votes ∧ n' = n + weight_where (λ _, true) votes.
Proof.
  revert m n. unfold weight_where, sum_with.
  induction votes as [|v votes IH]; intros m n Hs Hm Hn Hle; cbn [collect_stakes foldr] in *.
  { split_and!; try done; lia. }
  destruct v as [k t]. cbn [fst snd] in *. fold (vote_weight (k, t)).
  pose proof (vote_weight_nonneg (k, t)) as Hw. cbn in Hw.
  assert (0 <= weight_where (λ _, true) votes) as Hrest.
  { apply sum_with_nonneg, Forall_forall. intros. apply vote_weight_nonneg. }
  unfold weight_where, sum_with in Hrest. unfold vote_weight in *. cbn [fst] in *.
  set (s := default 0 (stakes !! k)) in *.
  destruct (add_stake_sum g (moved slot slot_duration t) s m) as (Hs' & Hm' & Hg); [done..|lia|].
  destruct (add_stake_sum (λ _, true) (moved slot slot_duration t) s m) as (_ & _ & Ht); [done..|lia|].
  specialize (IH _ (saturating_add128 n s) Hs' Hm'). unfold saturating_add128 in *. rewrite Z.min_l in * by lia.
  destruct (collect_stakes _ _ _ _ _) as [m' n']. destruct IH as (? & ? & ? & ? & ?); [lia|lia|].
  split_and!; try done; lia.
Qed.

Lemma median_spec T m acc :
  bt_sorted m → nonneg_stakes m → 0 <= acc → acc + wsum (λ _, true) m = T → T <= u128_max → acc <= T / 2 → 0 < T →
  let t := median T acc m in
  (∃ s, (t, s) ∈ m) ∧ 2 * (acc + wsum (λ x, x <? t) m) <= T < 2 * (acc + wsum (λ x, x <=? t) m).
Proof.
  intros Hs Hm. revert acc. unfold bt_sorted in Hs.
  induction Hs as [|[k v] m Hs IH Hall]; intros acc Hacc HT Hmax Hhalf Hpos; [exfalso; change (wsum _ []) with 0 in HT; pose proof (Z.div_lt T 2); lia|].
  inversion Hm as [|? ? Hv Hm']; subst x l. cbn [snd] in Hv.
  pose proof (wsum_bounds (λ _, true) m Hm') as Hw.
  assert (wsum (λ _, true) ((k, v) :: m) = v + wsum (λ _, true) m) as Hcons by done.
  cbn [median]. unfold saturating_add128. rewrite Z.min_l by lia.
  destruct (Z.ltb_spec (T / 2) (acc + v)) as [Hgt|Hle].
  - split; [exists v; by left|].
    assert (wsum (λ x, x <? k) m = 0) as Hz.
    { unfold wsum. rewrite (sum_with_ext _ (λ _, 0)); [unfold sum_with; clear; induction m; cbn; lia|].
      intros e He. apply (proj1 (Forall_forall _ _) Hall) in He. cbn in He. destruct (Z.ltb_spec e.1 k); lia. }
    pose proof (wsum_bounds (λ x, x <=? k) m Hm') as Hw'.
    unfold wsum, sum_with in *. cbn [foldr fst snd]. rewrite Z.ltb_irrefl, Z.leb_refl. lia.
  - destruct (IH Hm' (acc + v)) as ((s & Hin) & Hlo & Hhi); [lia..|].
    set (t := median T (acc + v) m) in *.
    assert (k < t) as Hkt by (apply (proj1 (Forall_forall _ _) Hall) in Hin; exact Hin).
    split; [exists s; by right|]. unfold wsum, sum_with in *. cbn [foldr fst snd].
    destruct (Z.ltb_spec k t); [|lia]. destruct (Z.leb_spec k t); lia.
Qed.

Lemma collect_stakes_keys votes m n t s :
  (t, s) ∈ (collect_stakes stakes slot slot_duration votes (m, n)).1 →
  (∃ v, v ∈ votes ∧ moved slot slot_duration v.2 = t) ∨ ∃ s', (t, s') ∈ m.
Proof.
  revert m n. induction votes as [|[k t'] votes IH]; intros m n; cbn [collect_stakes fst snd]; [eauto|].
  intros [(v & Hv & Ht)|(s' & [[= -> ->]|Hin]%bt_insert_In)]%IH.
  - left. exists v. split; [by right|done].
  - left. exists (k, t'). split; [by left|done].
  - right. eauto.
Qed.

(** The time the validators agree on is the stake-weighted median of
    their timestamps, each moved to the current slot: the votes before it have
    at most half of the stake, the votes up to it have more than half, and it
    is the time of one of the votes.  There is no estimate exactly when the
    votes have no stake. *)
Theorem timestamp_median votes drift fix_estimate :
  weight_where (λ _, true) votes <= u128_max →
  match calculate_stake_weighted_timestamp votes stakes slot slot_duration None drift fix_estimate with
  | None => weight_where (λ _, true) votes = 0
  | Some t =>
      (∃ v, v ∈ votes ∧ moved slot slot_duration v.2 = t) ∧
      2 * weight_where (λ x, x <? t) votes <= weight_where (λ _, true) votes < 2 * weight_where (λ x, x <=? t) votes
  end.
Proof.
  intros Hle. unfold calculate_stake_weighted_timestamp.
  pose proof (λ g, collect_stakes_spec g votes [] 0 ltac:(constructor) ltac:(constructor) eq_refl ltac:(exact Hle)) as H.
  pose proof (λ t s, collect_stakes_keys votes [] 0 t s) as Hk.
  assert (0 <= weight_where (λ _, true) votes) as H0 by (apply sum_with_nonneg, Forall_forall; intros; apply vote_weight_nonneg).
  destruct (collect_stakes _ _ _ _ _) as [m n]. destruct (H (λ _, true)) as (Hs & Hm & Hn & _ & Ht).
  destruct (Z.eqb_spec n 0); [lia|].
  destruct (median_spec n m 0) as ((s & Hin) & Hlo & Hhi); [done|done|lia|lia|lia|apply Z.div_pos; lia|lia|].
  split; [destruct (Hk _ _ Hin) as [?|[? []%elem_of_nil]]; done|].
  destruct (H (λ x, x <? median n 0 m)) as (_ & _ & _ & H1 & _).
  destruct (H (λ x, x <=? median n 0 m)) as (_ & _ & _ & H2 & _). change (wsum _ []) with 0 in *. lia.
Qed.
End collect.

(** ** The bounds *)

Lemma as_i64_small x : 0 <= x < 2 ^ 63 → as_i64 x = x.
Proof. intros H. unfold as_i64. rewrite Z.mod_small; lia. Qed.

Lemma clamp_i64_small x : is_i64 x → clamp_i64 x = x.
Proof. unfold is_i64, clamp_i64. lia. Qed.

Lemma clamp_i64_range x : is_i64 (clamp_i64 x).
Proof. unfold is_i64, clamp_i64, i64_min, i64_max. lia. Qed.

Lemma as_u64_cases x : is_i64 x → (0 <= x ∧ as_u64 x = x) ∨ (x < 0 ∧ as_u64 x = x + 2 ^ 64).
Proof.
  unfold is_i64, as_u64, wrap64, i64_min, i64_max. intros H. destruct (Z.neg_nonneg_cases x) as [Hx|Hx].
  - right. split; [done|]. rewrite <-(Z.mod_add _ 1) by lia. rewrite Z.mod_small; lia.
  - left. split; [done|]. rewrite Z.mod_small; lia.
Qed.

(** The nanoseconds of the slots since the start of the epoch. *)
Definition poh_offset (slot : Slot) (slot_duration : Duration) (start : Slot) : Z :=
  slot_duration * wrap32 (saturating_sub slot start).

Definition within_drift (P : Z) (drift : MaxAllowableDrift) (start t : UnixTimestamp) : Prop :=
  P - P * fast drift / 100 - NANOS_PER_SEC < NANOS_PER_SEC * (t - start) <= P + P * slow drift / 100.

Lemma bound_estimate_drift slot slot_duration start drift e :
  0 < poh_offset slot slot_duration start.1 <= 2 ^ 56 * NANOS_PER_SEC → 0 <= start.2 <= 2 ^ 56 →
  0 <= fast drift < 100 → 0 <= slow drift <= 100 → is_i64 e →
  within_drift (poh_offset slot slot_duration start.1) drift start.2
    (bound_estimate slot slot_duration start drift true e).
Proof.
  destruct start as [s T], drift as [fa sl]. unfold bound_estimate, poh_offset, within_drift. cbn [fst snd fast slow].
  set (P := slot_duration * wrap32 (saturating_sub slot s)). intros HP HT Hfa Hsl He. unfold NANOS_PER_SEC in HP.
  assert (0 <= P * fa <= P * 99 ∧ 0 <= P * sl <= P * 100) as [HF HS] by nia.
  unfold duration_saturating_mul. fold P. assert (Duration_MAX = 2 ^ 64 * 1000000000 - 1) as HD by done.
  rewrite !(Z.min_l P), !(Z.min_l (P * _)) by lia. unfold from_secs, as_secs, duration_saturating_sub, saturating_sub, NANOS_PER_SEC.
  set (F := P * fa / 100) in *. set (S := P * sl / 100) in *.
  assert (0 <= F <= P * 99 / 100 ∧ 0 <= S <= P) as [HF' HS'] by (subst F S; lia).
  rewrite (as_i64_small (P / _)), (as_i64_small (S / _)), (as_i64_small (F / _)) by lia.
  unfold saturating_add_i64, saturating_sub_i64.
  rewrite (clamp_i64_small (T + _)) by (unfold is_i64, i64_min, i64_max; lia).
  rewrite !clamp_i64_small by (unfold is_i64, i64_min, i64_max; lia). unfold is_i64, i64_min, i64_max in He.
  destruct (as_u64_cases T) as [[_ ->]|[? _]]; [unfold is_i64, i64_min, i64_max; lia| |lia].
  destruct (as_u64_cases e) as [[He0 ->]|[He0 ->]]; [done| |].
  all: repeat match goal with |- context [?a <? ?b] => destruct (Z.ltb_spec a b) end; cbn [andb]; lia.
Qed.

(** The nearest time within the drift, to the second. *)
Definition clamp_drift (P : Z) (drift : MaxAllowableDrift) (start t : UnixTimestamp) : UnixTimestamp :=
  let ahead := P * slow drift / 100 in
  let behind := P * fast drift / 100 in
  if P + ahead <? NANOS_PER_SEC * (t - start) then start + P / NANOS_PER_SEC + ahead / NANOS_PER_SEC
  else if NANOS_PER_SEC * (t - start) <? P - behind then start + P / NANOS_PER_SEC - behind / NANOS_PER_SEC
  else t.

Lemma bound_estimate_clamp slot slot_duration start drift e :
  0 < poh_offset slot slot_duration start.1 <= 2 ^ 56 * NANOS_PER_SEC → 0 <= start.2 <= 2 ^ 56 →
  0 <= fast drift < 100 → 0 <= slow drift <= 100 → is_i64 e → 0 <= e →
  bound_estimate slot slot_duration start drift true e = clamp_drift (poh_offset slot slot_duration start.1) drift start.2 e.
Proof.
  destruct start as [s T], drift as [fa sl]. unfold bound_estimate, poh_offset, clamp_drift. cbn [fst snd fast slow].
  set (P := slot_duration * wrap32 (saturating_sub slot s)). intros HP HT Hfa Hsl He He0. unfold NANOS_PER_SEC in HP.
  assert (0 <= P * fa <= P * 99 ∧ 0 <= P * sl <= P * 100) as [HF HS] by nia.
  unfold duration_saturating_mul. fold P. assert (Duration_MAX = 2 ^ 64 * 1000000000 - 1) as HD by done.
  rewrite !(Z.min_l P), !(Z.min_l (P * _)) by lia. unfold from_secs, as_secs, duration_saturating_sub, saturating_sub, NANOS_PER_SEC.
  set (F := P * fa / 100) in *. set (S := P * sl / 100) in *.
  assert (0 <= F <= P * 99 / 100 ∧ 0 <= S <= P) as [HF' HS'] by (subst F S; lia).
  rewrite (as_i64_small (P / _)), (as_i64_small (S / _)), (as_i64_small (F / _)) by lia.
  unfold saturating_add_i64, saturating_sub_i64.
  rewrite (clamp_i64_small (T + _)) by (unfold is_i64, i64_min, i64_max; lia).
  rewrite !clamp_i64_small by (unfold is_i64, i64_min, i64_max; lia). unfold is_i64, i64_min, i64_max in He.
  destruct (as_u64_cases T) as [[_ ->]|[? _]]; [unfold is_i64, i64_min, i64_max; lia| |lia].
  destruct (as_u64_cases e) as [[_ ->]|[? _]]; [done| |lia].
  repeat match goal with |- context [?a <? ?b] => destruct (Z.ltb_spec a b) end; cbn [andb]; lia.
Qed.

Lemma bound_estimate_range slot slot_duration start drift fix_estimate e :
  is_i64 e → is_i64 (bound_estimate slot slot_duration start drift fix_estimate e).
Proof.
  intros He. unfold bound_estimate. destruct start.
  repeat case_match; first [apply clamp_i64_range|done].
Qed.

Lemma median_range T acc m : (∀ t s, (t, s) ∈ m → is_i64 t) → is_i64 (median T acc m).
Proof.
  revert acc. induction m as [|[t s] m IH]; intros acc Hm; cbn [median]; [done|].
  case_match; [apply (Hm t s); by left|]. apply IH. intros t' s' ?. apply (Hm t' s'). by right.
Qed.

Lemma collected_median_range stakes slot slot_duration votes T :
  is_i64 (median T 0 (collect_stakes stakes slot slot_duration votes ([], 0)).1).
Proof.
  apply median_range. intros t s [(v & _ & <-)|[? []%elem_of_nil]]%collect_stakes_keys. apply clamp_i64_range.
Qed.

Lemma calculate_range votes stakes slot slot_duration start drift fix_estimate t :
  calculate_stake_weighted_timestamp votes stakes slot slot_duration start drift fix_estimate = Some t → is_i64 t.
Proof.
  unfold calculate_stake_weighted_timestamp. pose proof (collected_median_range stakes slot slot_duration votes) as Hm.
  destruct (collect_stakes _ _ _ _ _) as [m n]. case_match; [done|]. specialize (Hm n). cbn in Hm.
  intros [= <-]. destruct start; [by apply bound_estimate_range|done].
Qed.

Section clock_props.
Import freeze_props.
Context (cfg : BankConfig) (parent_account : Pubkey → option Account) `{!Codec Clock, !CodecOk Clock}.
Context (epoch_schedule : EpochSchedule) (ns_per_slot genesis_creation_time : Z).
Context (vote_accounts : list (Pubkey * option VoteState)) (epoch_vote_accounts : gmap Epoch (gmap Pubkey Z)).
Context (warp : option Slot) (Hparent : ∀ k a, parent_account k = Some a → 0 < lamports a).
Context (Hslot : is_u64 (bank_slot cfg)) (Hepoch : is_u64 (get_epoch epoch_schedule (bank_slot cfg))).
Context (Hleader : is_u64 (get_leader_schedule_epoch epoch_schedule (bank_slot cfg))).

#[local] Abbreviation next c pe :=
  (next_clock cfg epoch_schedule ns_per_slot genesis_creation_time vote_accounts epoch_vote_accounts warp pe c).
#[local] Abbreviation estimate pe c :=
  (get_timestamp_estimate cfg epoch_schedule ns_per_slot vote_accounts epoch_vote_accounts warp (clock_drift warp)
     (drift_start cfg epoch_schedule warp pe c)).

Lemma clock_wf f : wf (clock f).
Proof.
  unfold clock, deserialize. destruct (bincode_de _) as [[c rest]|] eqn:H; [by eapply bincode_de_wf|by split].
Qed.

Lemma estimate_range pe c t : estimate pe c = Some t → is_i64 t.
Proof.
  unfold get_timestamp_estimate. destruct (epoch_vote_accounts !! _); [|done]. cbn. apply calculate_range.
Qed.

Lemma next_unix pe c :
  bank_slot cfg ≠ 0 →
  unix_timestamp (next c pe) = match estimate pe c with Some t => Z.max t (unix_timestamp c) | None => unix_timestamp c end ∧
  epoch_start_timestamp (next c pe) =
    match pe with Some e => if e =? bank_epoch cfg then epoch_start_timestamp c else unix_timestamp (next c pe)
                | None => epoch_start_timestamp c end.
Proof.
  intros H0. unfold next_clock. apply Z.eqb_neq in H0 as ->. cbn [unix_timestamp epoch_start_timestamp]. split; [|done].
  destruct (estimate pe c) as [t|]; [|done]. destruct (Z.ltb_spec t (unix_timestamp c)); lia.
Qed.

Lemma next_wf pe c : wf c → bank_slot cfg ≠ 0 → wf (next c pe).
Proof.
  intros [_ _ _ Hs Hu] H0. destruct (next_unix pe c H0) as [Hx Hy].
  assert (is_i64 (unix_timestamp (next c pe))) as Hn.
  { rewrite Hx. destruct (estimate pe c) as [t|] eqn:Ht; [|done]. apply estimate_range in Ht. unfold is_i64 in *. lia. }
  split; [unfold next_clock; by destruct (bank_slot cfg =? 0)..| |done]. rewrite Hy. destruct pe; [case_match; done|done].
Qed.

Lemma update_clock_stored pe f f' u :
  bank_slot cfg ≠ 0 →
  update_clock cfg parent_account epoch_schedule ns_per_slot genesis_creation_time vote_accounts epoch_vote_accounts warp pe f
    = (f', Ok u) →
  clock f' = next (clock f) pe.
Proof.
  intros H0. unfold update_clock, update_sysvar_account.
  intros (? & ? & [= <- <-] & (? & ? & [= <- <-] & (? & a & [-> Ha]%lift_inv & H)%st_bind_Ok)%st_bind_Ok)%st_bind_Ok.
  injection Ha as ->. unfold store_account_and_update_capitalization in H.
  apply st_bind_Ok in H as (? & ? & [= <- <-] & (f1 & [] & H1 & (Hdb & _)%store_spec)%st_bind_Ok).
  unfold clock at 1, find_account. fold (db f'). rewrite Hdb. unfold db_store, get_account. rewrite lookup_insert_eq. cbn [mbind option_bind].
  match goal with |- context [if lamports ?a =? 0 then _ else _] => set (a' := a) end.
  assert (Hold : ∀ o, (if rent_for_sysvars cfg then find_account sysvar_clock_id f else parent_account sysvar_clock_id) = Some o →
    0 < lamports o).
  { intros o. destruct (rent_for_sysvars cfg); [|apply Hparent]. unfold find_account, get_account.
    destruct (accounts (fz_bank f) !! _) as [o'|]; [|done]. cbn. destruct (Z.ltb_spec 0 (lamports o')); [|done]. by intros [= <-]. }
  assert (0 < lamports a' ∧ ∃ n, data a' = bincode_ser (next (clock f) pe) ++ replicate n x00) as [Hl [n Hd]].
  { subst a'. split; [|destruct (rent_for_sysvars cfg); by eexists].
    destruct (if rent_for_sysvars cfg then find_account _ f else _) as [o|] eqn:Ho; [specialize (Hold o eq_refl)|];
      destruct (rent_for_sysvars cfg); cbn; lia. }
  destruct (Z.eqb_spec (lamports a') 0); [lia|]. destruct (Z.ltb_spec 0 (lamports a')); [|lia].
  change (default Account_default (Some a')) with a'. rewrite Hd. unfold deserialize. rewrite bincode_roundtrip by (apply next_wf; [apply clock_wf|done]). done.
Qed.

(** The stake behind the votes whose moved timestamp satisfies [g], by the
    stakes of the epoch of the slot. *)
Definition recent_weight (g : Z → bool) : Z :=
  weight_where (default ∅ (epoch_vote_accounts !! get_epoch epoch_schedule (bank_slot cfg))) (bank_slot cfg) (as_u64 ns_per_slot) g
    (recent_timestamps cfg epoch_schedule vote_accounts).

(** [t] is the stake-weighted median of the recent timestamps: one of them,
    before it at most half of the stake, up to it more than half. *)
Definition is_median (t : UnixTimestamp) : Prop :=
  (∃ v, v ∈ recent_timestamps cfg epoch_schedule vote_accounts ∧ moved (bank_slot cfg) (as_u64 ns_per_slot) v.2 = t) ∧
  2 * recent_weight (λ x, x <? t) <= recent_weight (λ _, true) < 2 * recent_weight (λ x, x <=? t).

Context (Hstakes : ∀ stakes k s, epoch_vote_accounts !! get_epoch epoch_schedule (bank_slot cfg) = Some stakes →
  stakes !! k = Some s → 0 <= s) (Htotal : recent_weight (λ _, true) <= u128_max).

Lemma recent_weight_missing g :
  epoch_vote_accounts !! get_epoch epoch_schedule (bank_slot cfg) = None → recent_weight g = 0.
Proof.
  intros Hn. unfold recent_weight. rewrite Hn. unfold weight_where, vote_weight, sum_with. cbn [default].
  induction (recent_timestamps _ _ _) as [|v l IH]; [done|]. cbn [foldr]. rewrite IH, lookup_empty. by destruct (g _).
Qed.

Lemma recent_weight_le g : 0 <= recent_weight g <= recent_weight (λ _, true).
Proof.
  destruct (epoch_vote_accounts !! get_epoch epoch_schedule (bank_slot cfg)) as [stakes|] eqn:Hs; [|by rewrite !recent_weight_missing by done].
  unfold recent_weight. rewrite Hs. cbn [default id]. unfold weight_where, sum_with.
  induction (recent_timestamps _ _ _) as [|v l IH]; [done|]. cbn [foldr].
  pose proof (vote_weight_nonneg stakes (λ k s, Hstakes stakes k s eq_refl) v). destruct (g _); lia.
Qed.

Lemma estimate_median pe c a :
  warp = Some a → a ≠ bank_slot cfg →
  match estimate pe c with
  | None => recent_weight (λ _, true) = 0
  | Some t => ∃ m, is_median m ∧ is_i64 m ∧
      t = bound_estimate (bank_slot cfg) (as_u64 ns_per_slot)
            (get_first_slot_in_epoch epoch_schedule (default (bank_epoch cfg) pe), epoch_start_timestamp c) (mkDrift 25 80) true m
  end.
Proof.
  intros Hw Ha. unfold get_timestamp_estimate. destruct (epoch_vote_accounts !! _) as [stakes|] eqn:Hs; [|by apply recent_weight_missing].
  cbn [mbind option_bind]. unfold drift_start, clock_drift. rewrite Hw, (bool_decide_false (Some a = _)) by congruence.
  unfold is_median, recent_weight in *. rewrite Hs in *. cbn [default id] in *.
  set (votes := recent_timestamps _ _ _) in *. change (bool_decide (is_Some (Some a))) with true.
  pose proof (timestamp_median stakes (bank_slot cfg) (as_u64 ns_per_slot) (λ k s, Hstakes stakes k s eq_refl) votes (mkDrift 25 80) true Htotal) as Hm.
  pose proof (collected_median_range stakes (bank_slot cfg) (as_u64 ns_per_slot) votes) as Hr.
  unfold calculate_stake_weighted_timestamp in *. destruct (collect_stakes _ _ _ _ _) as [l n].
  destruct (n =? 0); [done|]. by exists (median n 0 l).
Qed.

(** C25. A clock update after the genesis slot, with the feature
    [warp_timestamp_again] active and not just activated in this slot, stores
    the slot and its epoch, never turns the time back, and starts a new epoch
    at the new time.  Without stake behind the recent timestamps the time is
    the parent's.  Otherwise it is an estimate, or the parent's time if that is
    later: the estimate is the stake-weighted median of the recent timestamps,
    each moved to this slot, if the median is within the allowed drift, a
    quarter fast and four fifths slow, of the time the slots since the start of
    the epoch should have taken, and the nearer end of that range, to the
    second, if it is not.  Assumed: a median that is not negative (a negative
    one only keeps the bounds), a slot after the first slot of the parent's
    epoch, times of at most [2^56] seconds, [u64] slots and epochs, stakes that
    sum within [u128], and that accounts of the parent hold lamports. *)
Theorem clock_bounded pe f f' a :
  bank_slot cfg ≠ 0 →
  update_clock cfg parent_account epoch_schedule ns_per_slot genesis_creation_time vote_accounts epoch_vote_accounts warp pe f
    = (f', Ok tt) →
  warp = Some a → a ≠ bank_slot cfg →
  let c := clock f in
  let c' := clock f' in
  let start := get_first_slot_in_epoch epoch_schedule (default (bank_epoch cfg) pe) in
  let P := poh_offset (bank_slot cfg) (as_u64 ns_per_slot) start in
  0 < P <= 2 ^ 56 * NANOS_PER_SEC → 0 <= epoch_start_timestamp c <= 2 ^ 56 →
  clock_slot c' = bank_slot cfg ∧ clock_epoch c' = get_epoch epoch_schedule (bank_slot cfg) ∧
  unix_timestamp c <= unix_timestamp c' ∧
  epoch_start_timestamp c' =
    (if bool_decide (pe = None ∨ pe = Some (bank_epoch cfg)) then epoch_start_timestamp c else unix_timestamp c') ∧
  (recent_weight (λ _, true) = 0 → unix_timestamp c' = unix_timestamp c) ∧
  (recent_weight (λ _, true) ≠ 0 →
   ∃ m t, is_median m ∧ unix_timestamp c' = Z.max t (unix_timestamp c) ∧
     within_drift P (mkDrift 25 80) (epoch_start_timestamp c) t ∧
     (0 <= m → t = clamp_drift P (mkDrift 25 80) (epoch_start_timestamp c) m)).
Proof.
  intros H0 Hf Hw Ha c c' start P HP HT. subst c c'. apply update_clock_stored in Hf as ->; [|done].
  set (c := clock f) in *. destruct (next_unix pe c H0) as [Hx Hy].
  split; [unfold next_clock; by destruct (bank_slot cfg =? 0)|].
  split; [unfold next_clock; by destruct (bank_slot cfg =? 0)|].
  split; [rewrite Hx; destruct (estimate pe c); lia|].
  split. { rewrite Hy. destruct pe as [e|]; [|done]. case_bool_decide as He; destruct (Z.eqb_spec e (bank_epoch cfg)); naive_solver. }
  rewrite Hx. pose proof (estimate_median pe c a Hw Ha) as He. destruct (estimate pe c) as [t|]; [|done].
  destruct He as (m & Hm & Hr & Ht). split; [intros Hz; destruct Hm as [_ Hm]; pose proof (recent_weight_le (λ x, x <=? m)); lia|].
  intros _. exists m, t. split; [done|]. split; [done|]. subst t. split.
  - by apply (bound_estimate_drift (bank_slot cfg) (as_u64 ns_per_slot) (start, epoch_start_timestamp c) (mkDrift 25 80)).
  - intros. by apply (bound_estimate_clamp (bank_slot cfg) (as_u64 ns_per_slot) (start, epoch_start_timestamp c) (mkDrift 25 80)).
Qed.
End clock_props.

(** ** A concrete slot

    Slot 432100, the hundredth of epoch 1: the slots should have taken 40
    seconds.  Three validators voted, the largest with a clock ten minutes
    ahead. *)

Module example.
Import fees.
#[local] Instance clock_codec : Codec Clock := vote_program.example.clock_codec.
#[local] Instance clock_codec_ok : CodecOk Clock := vote_program.example.clock_ok.

Definition stakes : gmap Pubkey Z := {[ 901 := 300; 902 := 400; 903 := 200 ]}.
Definition voter (slot : Slot) (t : UnixTimestamp) : option VoteState :=
  Some (mkVoteState Pubkey_default Pubkey_default 0 [] None [] (CircBuf_default (0, 0, 0)) [] (mkBlockTimestamp slot t)).
Definition voters : list (Pubkey * option VoteState) :=
  [(901, voter 432098 1000039); (902, voter 432099 1000640); (903, voter 432090 1000036); (904, None)].
Definition timestamps : list (Pubkey * (Slot * UnixTimestamp)) :=
  [(901, (432098, 1000039)); (902, (432099, 1000640)); (903, (432090, 1000036))].

Lemma stakes_nonneg : map_Forall (λ _ s, 0 <= s) stakes.
Proof. apply (bool_decide_unpack _). vm_compute. exact I. Qed.

Lemma timestamp_median_witness :
  calculate_stake_weighted_timestamp timestamps stakes 432100 400000000 None (mkDrift 25 80) true = Some 1000040 ∧
  2 * weight_where stakes 432100 400000000 (λ x, x <? 1000040) timestamps <= 900.
Proof.
  split; [vm_compute; done|].
  pose proof (timestamp_median stakes 432100 400000000) as H.
  specialize (H stakes_nonneg timestamps (mkDrift 25 80) true ltac:(vm_compute; done)).
  assert (calculate_stake_weighted_timestamp timestamps stakes 432100 400000000 None (mkDrift 25 80) true = Some 1000040) as Ht
    by (vm_compute; done).
  rewrite Ht in H. apply H.
Defined.

Definition cfg : BankConfig :=
  mkBankConfig 432100 1 {[432100]} MainnetBeta (λ _, true)
    (mkRentCollector 30 (mkEpochSchedule 432000 432000 false 0 0) (f64_of_Z 78892314) Rent_default) None.
Definition schedule : EpochSchedule := mkEpochSchedule 432000 432000 false 0 0.
Definition before : Clock := mkClock 432099 1000000 1 2 1000039.
Definition start : Freezing :=
  mkFreezing
    (mkBank {[ sysvar_clock_id := mkAccount 1 (bincode_ser before) sysvar_program_id false 0 ]}
       (BlockhashQueue_new 10) status_cache.StatusCache_default 0 0 0 0 0 0 0 false false)
    ∅ 1 Hash_default.
Definition updated : Freezing * res Empty_set unit :=
  update_clock cfg (λ _, None) schedule 400000000 0 voters {[ 1 := stakes ]} (Some 1) (Some 1) start.

Lemma updated_ok : updated.2 = Ok tt.
Proof. vm_compute. done. Qed.

Lemma clock_bounded_witness :
  unix_timestamp (clock start) <= unix_timestamp (clock updated.1) ∧ unix_timestamp (clock updated.1) = 1000040 ∧
  recent_weight cfg schedule 400000000 voters {[ 1 := stakes ]} (λ _, true) = 900.
Proof.
  split; [|split; vm_compute; done].
  refine (proj1 (proj2 (proj2 (clock_bounded cfg (λ _, None) schedule 400000000 0 voters {[ 1 := stakes ]} (Some 1) _ _ _ _ _ _
    (Some 1) start updated.1 1 _ _ eq_refl _ _ _)))).
  - done.
  - done.
  - vm_compute. done.
  - vm_compute. done.
  - intros st k s Hst. change (get_epoch schedule (bank_slot cfg)) with 1 in Hst. rewrite lookup_singleton_eq in Hst.
    injection Hst as <-. apply stakes_nonneg.
  - vm_compute. done.
  - done.
  - exact (eq_trans (surjective_pairing updated) (f_equal (pair updated.1) updated_ok)).
  - done.
  - vm_compute. done.
  - vm_compute. done.
Defined.
End example.
End timestamp.
