(* ===== verification/Stake.v ===== *)
(** * Stake state

    Models [sdk/program/src/stake/state.rs] and the functions of
    [programs/stake/src/stake_state.rs] that compute on values: delegation with
    its warm-up and cool-down, points and rewards, splitting and merging.

    A delegation becomes effective over several epochs: at each epoch the
    cluster lets a fraction ([warmup_cooldown_rate]) of its effective stake
    change, and each delegation takes its share.  The share is computed in
    [f64].  The inflation tracer only observes and is left out. *)

From S2P Require Import Prelude F64 Account BTreeMap Sysvar VoteState.

Module stake.

(** ** config.rs *)

Definition DEFAULT_WARMUP_COOLDOWN_RATE : f64 := Eval vm_compute in f64_of_ratio 1 4.
Definition DEFAULT_SLASH_PENALTY : Z := 5 * u8_max / 100.

Record Config : Type := mkConfig {
  cfg_warmup_cooldown_rate : f64;
  slash_penalty : Z;
}.

Definition Config_default : Config := mkConfig DEFAULT_WARMUP_COOLDOWN_RATE DEFAULT_SLASH_PENALTY.

(** ** Errors *)

Inductive StakeError : Type :=
| NoCreditsToRedeem
| LockupInForce
| AlreadyDeactivated
| TooSoonToRedelegate
| InsufficientStake
| MergeTransientStake
| MergeMismatch
| CustodianMissing
| CustodianSignatureMissing.

Definition StakeError_into (e : StakeError) : InstructionError :=
  Custom match e with
  | NoCreditsToRedeem => 0
  | LockupInForce => 1
  | AlreadyDeactivated => 2
  | TooSoonToRedelegate => 3
  | InsufficientStake => 4
  | MergeTransientStake => 5
  | MergeMismatch => 6
  | CustodianMissing => 7
  | CustodianSignatureMissing => 8
  end.

(** ** Lockups and authorities *)

Inductive StakeAuthorize : Type := Staker | Withdrawer.

Record Lockup : Type := mkLockup {
  lk_unix_timestamp : UnixTimestamp;
  lk_epoch : Epoch;
  lk_custodian : Pubkey;
}.

Definition Lockup_default : Lockup := mkLockup 0 0 Pubkey_default.

Record LockupArgs : Type := mkLockupArgs {
  la_unix_timestamp : option UnixTimestamp;
  la_epoch : option Epoch;
  la_custodian : option Pubkey;
}.

Definition is_in_force (l : Lockup) (clock : Clock) (custodian : option Pubkey) : bool :=
  if bool_decide (custodian = Some (lk_custodian l)) then false
  else (unix_timestamp clock <? lk_unix_timestamp l) || (clock_epoch clock <? lk_epoch l).

Record Authorized : Type := mkAuthorized {
  staker : Pubkey;
  withdrawer : Pubkey;
}.

Definition Authorized_default : Authorized := mkAuthorized Pubkey_default Pubkey_default.
Definition Authorized_auto (a : Pubkey) : Authorized := mkAuthorized a a.

Definition check (a : Authorized) (signers : list Pubkey) (stake_authorize : StakeAuthorize)
    : res InstructionError unit :=
  match stake_authorize with
  | Staker => ensure (bool_decide (staker a ∈ signers)) MissingRequiredSignature
  | Withdrawer => ensure (bool_decide (withdrawer a ∈ signers)) MissingRequiredSignature
  end.

(** [Authorized::authorize]: the new value of [self]. *)
Definition Authorized_authorize (a : Authorized) (signers : list Pubkey) (new_authorized : Pubkey)
    (stake_authorize : StakeAuthorize)
    (lockup_custodian_args : option (Lockup * Clock * option Pubkey))
    : res InstructionError Authorized :=
  match stake_authorize with
  | Staker =>
      if negb (bool_decide (staker a ∈ signers)) && negb (bool_decide (withdrawer a ∈ signers))
      then Err MissingRequiredSignature
      else Ok (mkAuthorized new_authorized (withdrawer a))
  | Withdrawer =>
      match lockup_custodian_args with
      | Some (lockup, clock, custodian) =>
          if is_in_force lockup clock None then
            match custodian with
            | None => Err (StakeError_into CustodianMissing)
            | Some custodian =>
                if negb (bool_decide (custodian ∈ signers)) then
                  Err (StakeError_into CustodianSignatureMissing)
                else if is_in_force lockup clock (Some custodian) then
                  Err (StakeError_into LockupInForce)
                else Ok tt
            end
          else Ok tt
      | None => Ok tt
      end;;
      check a signers Withdrawer;;
      mret (mkAuthorized (staker a) new_authorized)
  end.

Record Meta : Type := mkMeta {
  rent_exempt_reserve : Z;
  authorized : Authorized;
  lockup : Lockup;
}.

Definition Meta_default : Meta := mkMeta 0 Authorized_default Lockup_default.
Definition Meta_auto (a : Pubkey) : Meta := mkMeta 0 (Authorized_auto a) Lockup_default.

Definition with_authorized (a : Authorized) (m : Meta) : Meta :=
  mkMeta (rent_exempt_reserve m) a (lockup m).
Definition with_reserve (r : Z) (m : Meta) : Meta := mkMeta r (authorized m) (lockup m).

(** [Meta::set_lockup]; without a clock it is the behaviour before
    [stake_program_v4]. *)
Definition Meta_set_lockup (m : Meta) (args : LockupArgs) (signers : list Pubkey)
    (clock : option Clock) : res InstructionError Meta :=
  match clock with
  | None =>
      ensure (bool_decide (lk_custodian (lockup m) ∈ signers)) MissingRequiredSignature
  | Some clock =>
      if is_in_force (lockup m) clock None then
        ensure (bool_decide (lk_custodian (lockup m) ∈ signers)) MissingRequiredSignature
      else
        ensure (bool_decide (withdrawer (authorized m) ∈ signers)) MissingRequiredSignature
  end;;
  mret (mkMeta (rent_exempt_reserve m) (authorized m)
          (mkLockup (default (lk_unix_timestamp (lockup m)) (la_unix_timestamp args))
                    (default (lk_epoch (lockup m)) (la_epoch args))
                    (default (lk_custodian (lockup m)) (la_custodian args)))).

Definition rewrite_rent_exempt_reserve (m : Meta) (rent : Rent) (data_len : nat)
    : Meta * option (Z * Z) :=
  let corrected := minimum_balance rent data_len in
  if negb (corrected =? rent_exempt_reserve m)
  then (with_reserve corrected m, Some (rent_exempt_reserve m, corrected))
  else (m, None).

(** ** Delegations *)

Record Delegation : Type := mkDelegation {
  voter_pubkey : Pubkey;
  d_stake : Z;
  activation_epoch : Epoch;
  deactivation_epoch : Epoch;
  warmup_cooldown_rate : f64;
}.

Definition Delegation_new (voter : Pubkey) (stake : Z) (activation : Epoch) (rate : f64)
    : Delegation :=
  mkDelegation voter stake activation u64_max rate.

Definition with_d_stake (s : Z) (d : Delegation) : Delegation :=
  mkDelegation (voter_pubkey d) s (activation_epoch d) (deactivation_epoch d)
    (warmup_cooldown_rate d).
Definition with_deactivation (e : Epoch) (d : Delegation) : Delegation :=
  mkDelegation (voter_pubkey d) (d_stake d) (activation_epoch d) e (warmup_cooldown_rate d).

Definition is_bootstrap (d : Delegation) : bool := activation_epoch d =? u64_max.

Definition history_at (history : option (list (Z * StakeHistoryEntry))) (e : Epoch)
    : option (list (Z * StakeHistoryEntry) * StakeHistoryEntry) :=
  h ← history; x ← StakeHistory_get h e; Some (h, x).

(** The share of a cluster-wide change a delegation takes: at least 1. *)
Definition portion (mine total : Z) (effective : Z) (rate : f64) : Z :=
  let weight := f64_div (f64_of_Z mine) (f64_of_Z total) in
  let newly_cluster_stake := f64_mul (f64_of_Z effective) rate in
  Z.max (f64_to_u64 (f64_mul weight newly_cluster_stake)) 1.

(** The loop of [stake_and_activating], from [prev_epoch] on.  Every round but
    the first reads a new entry of the history, so its length bounds the
    rounds; [None] is running out of fuel. *)
Fixpoint warmup_loop (fuel : nat) (d : Delegation) (target_epoch : Epoch)
    (history : list (Z * StakeHistoryEntry)) (prev_epoch : Epoch)
    (prev_cluster_stake : StakeHistoryEntry) (current_effective_stake : Z) : option Z :=
  match fuel with
  | O => None
  | S fuel' =>
      let current_epoch := add64 prev_epoch 1 in
      if sh_activating prev_cluster_stake =? 0 then Some current_effective_stake else
      let remaining_activating_stake := sub64 (d_stake d) current_effective_stake in
      let newly_effective_stake :=
        portion remaining_activating_stake (sh_activating prev_cluster_stake)
          (sh_effective prev_cluster_stake) (warmup_cooldown_rate d) in
      let current_effective_stake := add64 current_effective_stake newly_effective_stake in
      if d_stake d <=? current_effective_stake then Some (d_stake d) else
      if (target_epoch <=? current_epoch) || (deactivation_epoch d <=? current_epoch)
      then Some current_effective_stake else
      match StakeHistory_get history current_epoch with
      | Some current_cluster_stake =>
          warmup_loop fuel' d target_epoch history current_epoch current_cluster_stake
            current_effective_stake
      | None => Some current_effective_stake
      end
  end.

Definition stake_and_activating (d : Delegation) (target_epoch : Epoch)
    (history : option (list (Z * StakeHistoryEntry))) (fix_stake_deactivate : bool) : Z * Z :=
  let delegated_stake := d_stake d in
  if is_bootstrap d then (delegated_stake, 0)
  else if fix_stake_deactivate && (activation_epoch d =? deactivation_epoch d) then (0, 0)
  else if target_epoch =? activation_epoch d then (0, delegated_stake)
  else if target_epoch <? activation_epoch d then (0, 0)
  else match history_at history (activation_epoch d) with
  | Some (history, prev_cluster_stake) =>
      let current_effective_stake :=
        default 0 (warmup_loop (S (length history)) d target_epoch history (activation_epoch d)
                     prev_cluster_stake 0) in
      (current_effective_stake, sub64 delegated_stake current_effective_stake)
  | None => (delegated_stake, 0)
  end.

(** The loop of [stake_activating_and_deactivating]. *)
Fixpoint cooldown_loop (fuel : nat) (d : Delegation) (target_epoch : Epoch)
    (history : list (Z * StakeHistoryEntry)) (prev_epoch : Epoch)
    (prev_cluster_stake : StakeHistoryEntry) (current_effective_stake : Z) : option Z :=
  match fuel with
  | O => None
  | S fuel' =>
      let current_epoch := add64 prev_epoch 1 in
      if sh_deactivating prev_cluster_stake =? 0 then Some current_effective_stake else
      let newly_not_effective_stake :=
        portion current_effective_stake (sh_deactivating prev_cluster_stake)
          (sh_effective prev_cluster_stake) (warmup_cooldown_rate d) in
      let current_effective_stake :=
        saturating_sub current_effective_stake newly_not_effective_stake in
      if current_effective_stake =? 0 then Some current_effective_stake else
      if target_epoch <=? current_epoch then Some current_effective_stake else
      match StakeHistory_get history current_epoch with
      | Some current_cluster_stake =>
          cooldown_loop fuel' d target_epoch history current_epoch current_cluster_stake
            current_effective_stake
      | None => Some current_effective_stake
      end
  end.

(** The triple is (effective, activating, deactivating). *)
Definition stake_activating_and_deactivating (d : Delegation) (target_epoch : Epoch)
    (history : option (list (Z * StakeHistoryEntry))) (fix_stake_deactivate : bool)
    : Z * Z * Z :=
  let delegated_stake := d_stake d in
  let '(effective_stake, activating_stake) :=
    stake_and_activating d target_epoch history fix_stake_deactivate in
  if target_epoch <? deactivation_epoch d then (effective_stake, activating_stake, 0)
  else if target_epoch =? deactivation_epoch d then
    (effective_stake, 0, Z.min effective_stake delegated_stake)
  else match history_at history (deactivation_epoch d) with
  | Some (history, prev_cluster_stake) =>
      let current_effective_stake :=
        default 0 (cooldown_loop (S (length history)) d target_epoch history
                     (deactivation_epoch d) prev_cluster_stake effective_stake) in
      (current_effective_stake, 0, current_effective_stake)
  | None => (0, 0, 0)
  end.

Definition Delegation_stake (d : Delegation) (epoch : Epoch)
    (history : option (list (Z * StakeHistoryEntry))) (fix_stake_deactivate : bool) : Z :=
  (stake_activating_and_deactivating d epoch history fix_stake_deactivate).1.1.

Definition rewrite_stake (d : Delegation) (account_balance rent_exempt_balance : Z)
    : Delegation * option (Z * Z) :=
  let corrected_stake := saturating_sub account_balance rent_exempt_balance in
  if negb (d_stake d =? corrected_stake)
  then (with_d_stake corrected_stake d, Some (d_stake d, corrected_stake))
  else (d, None).

(** ** Stake *)

Record Stake : Type := mkStake {
  delegation : Delegation;
  credits_observed : Z;
}.

Definition Stake_stake (s : Stake) (epoch : Epoch)
    (history : option (list (Z * StakeHistoryEntry))) (fix_stake_deactivate : bool) : Z :=
  Delegation_stake (delegation s) epoch history fix_stake_deactivate.

(** [Stake::split]: the remaining stake and the new one. *)
Definition Stake_split (s : Stake) (remaining_stake_delta split_stake_amount : Z)
    : res StakeError (Stake * Stake) :=
  if d_stake (delegation s) <? remaining_stake_delta then Err InsufficientStake
  else
    let s := mkStake (with_d_stake (sub64 (d_stake (delegation s)) remaining_stake_delta)
                                   (delegation s)) (credits_observed s) in
    Ok (s, mkStake (with_d_stake split_stake_amount (delegation s)) (credits_observed s)).

Definition Stake_deactivate (s : Stake) (epoch : Epoch) : res StakeError Stake :=
  if negb (deactivation_epoch (delegation s) =? u64_max) then Err AlreadyDeactivated
  else Ok (mkStake (with_deactivation epoch (delegation s)) (credits_observed s)).

Inductive StakeState : Type :=
| Uninitialized
| Initialized (meta : Meta)
| StakeSt (meta : Meta) (stake : Stake)
| RewardsPool.

Definition StakeState_stake (s : StakeState) : option Stake :=
  match s with StakeSt _ stake => Some stake | _ => None end.
Definition StakeState_delegation (s : StakeState) : option Delegation :=
  match s with StakeSt _ stake => Some (delegation stake) | _ => None end.
Definition StakeState_meta (s : StakeState) : option Meta :=
  match s with StakeSt meta _ => Some meta | Initialized meta => Some meta | _ => None end.
Definition StakeState_authorized (s : StakeState) : option Authorized :=
  match s with
  | StakeSt meta _ => Some (authorized meta)
  | Initialized meta => Some (authorized meta)
  | _ => None
  end.
Definition StakeState_lockup (s : StakeState) : option Lockup := lockup <$> StakeState_meta s.

(** [std::mem::size_of::<StakeState>()]: a tag word, the meta data (120 bytes)
    and the stake (72 bytes). *)
Definition SIZE_OF_STAKE_STATE : nat := 200.

Definition get_rent_exempt_reserve (rent : Rent) : Z := minimum_balance rent SIZE_OF_STAKE_STATE.

(** ** stake_state.rs: delegating *)

Definition new_stake (stake : Z) (voter : Pubkey) (vote_state : VoteState) (activation : Epoch)
    (config : Config) : Stake :=
  mkStake (Delegation_new voter stake activation (cfg_warmup_cooldown_rate config))
          (credits vote_state).

Definition redelegate (stake : Stake) (stake_lamports : Z) (voter : Pubkey)
    (vote_state : VoteState) (clock : Clock) (stake_history : list (Z * StakeHistoryEntry))
    (config : Config) (can_reverse_deactivation : bool) : res StakeError Stake :=
  if negb (Stake_stake stake (clock_epoch clock) (Some stake_history) true =? 0) then
    if (voter_pubkey (delegation stake) =? voter) &&
       (clock_epoch clock =? deactivation_epoch (delegation stake)) && can_reverse_deactivation
    then Ok (mkStake (with_deactivation u64_max (delegation stake)) (credits_observed stake))
    else Err TooSoonToRedelegate
  else
    Ok (mkStake (mkDelegation voter stake_lamports (clock_epoch clock) u64_max
                   (cfg_warmup_cooldown_rate config)) (credits vote_state)).

(** ** Points and rewards *)

Record PointValue : Type := mkPointValue {
  rewards : Z;
  points : Z;
}.

(** One round of the loop over the vote account's epoch credits. *)
Definition points_step (stake : Stake) (stake_history : option (list (Z * StakeHistoryEntry)))
    (fix_stake_deactivate : bool) (acc : Z * Z) (entry : Z * Z * Z) : Z * Z :=
  let '(points, new_credits_observed) := acc in
  let '(epoch, final_epoch_credits, initial_epoch_credits) := entry in
  let stake_amount := Delegation_stake (delegation stake) epoch stake_history
                        fix_stake_deactivate in
  let earned_credits :=
    if credits_observed stake <? initial_epoch_credits then
      sub64 final_epoch_credits initial_epoch_credits
    else if credits_observed stake <? final_epoch_credits then
      sub64 final_epoch_credits new_credits_observed
    else 0 in
  let new_credits_observed := Z.max new_credits_observed final_epoch_credits in
  let earned_points := wrap128 (stake_amount * earned_credits) in
  (wrap128 (points + earned_points), new_credits_observed).

Definition calculate_stake_points_and_credits (stake : Stake) (new_vote_state : VoteState)
    (stake_history : option (list (Z * StakeHistoryEntry))) (fix_stake_deactivate : bool)
    : Z * Z :=
  if credits new_vote_state <=? credits_observed stake then
    if fix_stake_deactivate then (0, credits_observed stake) else (0, 0)
  else
    foldl (points_step stake stake_history fix_stake_deactivate) (0, credits_observed stake)
      (epoch_credits new_vote_state).

Definition calculate_stake_points (stake : Stake) (vote_state : VoteState)
    (stake_history : option (list (Z * StakeHistoryEntry))) (fix_stake_deactivate : bool) : Z :=
  (calculate_stake_points_and_credits stake vote_state stake_history fix_stake_deactivate).1.

(** [None] of the source is [Ok None]; the [unwrap]s are [Panic]. *)
Definition calculate_stake_rewards {E} (stake : Stake) (point_value : PointValue)
    (vote_state : VoteState) (stake_history : option (list (Z * StakeHistoryEntry)))
    (fix_stake_deactivate : bool) : res E (option (Z * Z * Z)) :=
  let '(pts, credits_observed) :=
    calculate_stake_points_and_credits stake vote_state stake_history fix_stake_deactivate in
  if (rewards point_value =? 0) && fix_stake_deactivate then Ok (Some (0, 0, credits_observed))
  else if pts =? 0 then Ok None
  else if points point_value =? 0 then Ok None
  else
    product ← unwrap (checked_mul128 pts (rewards point_value));
    quotient ← unwrap (checked_div product (points point_value));
    rewards ← unwrap (if quotient <=? u64_max then Some quotient else None);
    if rewards =? 0 then Ok None
    else
      let '(voter_rewards, staker_rewards, is_split) := commission_split vote_state rewards in
      if ((voter_rewards =? 0) || (staker_rewards =? 0)) && is_split then Ok None
      else Ok (Some (staker_rewards, voter_rewards, credits_observed)).

(** [redeem_stake_rewards]: the new stake and the two rewards. *)
Definition redeem_stake_rewards {E} (stake : Stake) (point_value : PointValue)
    (vote_state : VoteState) (stake_history : option (list (Z * StakeHistoryEntry)))
    (fix_stake_deactivate : bool) : res E (option (Stake * Z * Z)) :=
  r ← calculate_stake_rewards stake point_value vote_state stake_history fix_stake_deactivate;
  mret match r with
  | Some (stakers_reward, voters_reward, credits_observed) =>
      Some (mkStake (with_d_stake (add64 (d_stake (delegation stake)) stakers_reward)
                                  (delegation stake)) credits_observed,
            stakers_reward, voters_reward)
  | None => None
  end.

(** ** Merging *)

Inductive MergeKind : Type :=
| Inactive (meta : Meta) (lamports : Z)
| ActivationEpoch (meta : Meta) (stake : Stake)
| FullyActive (meta : Meta) (stake : Stake).

Definition MergeKind_meta (k : MergeKind) : Meta :=
  match k with Inactive meta _ => meta | ActivationEpoch meta _ => meta | FullyActive meta _ => meta end.

Definition active_stake (k : MergeKind) : option Stake :=
  match k with
  | Inactive _ _ => None
  | ActivationEpoch _ stake => Some stake
  | FullyActive _ stake => Some stake
  end.

#[export] Instance Lockup_eq_dec : EqDecision Lockup.
Proof. solve_decision. Defined.
#[export] Instance Authorized_eq_dec : EqDecision Authorized.
Proof. solve_decision. Defined.

Definition metas_can_merge (stake source : Meta) (clock : option Clock)
    : res InstructionError unit :=
  let can_merge_lockups :=
    match clock with
    | None => bool_decide (lockup stake = lockup source)
    | Some clock =>
        bool_decide (lockup stake = lockup source) ||
        (negb (is_in_force (lockup stake) clock None) &&
         negb (is_in_force (lockup source) clock None))
    end in
  ensure (bool_decide (authorized stake = authorized source) && can_merge_lockups)
    (StakeError_into MergeMismatch).

Definition active_delegations_can_merge (stake source : Delegation)
    : res InstructionError unit :=
  if negb (voter_pubkey stake =? voter_pubkey source) then Err (StakeError_into MergeMismatch)
  else ensure (f64_lt (f64_abs (f64_sub (warmup_cooldown_rate stake)
                                        (warmup_cooldown_rate source))) f64_epsilon &&
               (deactivation_epoch stake =? u64_max) &&
               (deactivation_epoch source =? u64_max))
         (StakeError_into MergeMismatch).

Definition active_stakes_can_merge (stake source : Stake) : res InstructionError unit :=
  active_delegations_can_merge (delegation stake) (delegation source);;
  ensure (credits_observed stake =? credits_observed source) (StakeError_into MergeMismatch).

Definition add_stake (s : Stake) (amount : Z) : res InstructionError Stake :=
  x ← checked_add (d_stake (delegation s)) amount;
  mret (mkStake (with_d_stake x (delegation s)) (credits_observed s)).

Definition MergeKind_merge (self source : MergeKind) (clock : option Clock)
    : res InstructionError (option StakeState) :=
  metas_can_merge (MergeKind_meta self) (MergeKind_meta source) clock;;
  match active_stake self, active_stake source with
  | Some stake, Some source => active_stakes_can_merge stake source
  | _, _ => Ok tt
  end;;
  match self, source with
  | Inactive _ _, Inactive _ _ => mret None
  | Inactive _ _, ActivationEpoch _ _ => mret None
  | ActivationEpoch meta stake, Inactive _ source_lamports =>
      stake ← add_stake stake source_lamports;
      mret (Some (StakeSt meta stake))
  | ActivationEpoch meta stake, ActivationEpoch source_meta source_stake =>
      source_lamports ← checked_add (rent_exempt_reserve source_meta)
                                    (d_stake (delegation source_stake));
      stake ← add_stake stake source_lamports;
      mret (Some (StakeSt meta stake))
  | FullyActive meta stake, FullyActive _ source_stake =>
      stake ← add_stake stake (d_stake (delegation source_stake));
      mret (Some (StakeSt meta stake))
  | _, _ => Err (StakeError_into MergeMismatch)
  end.

(** ** Utilities *)

Definition calculate_split_rent_exempt_reserve (source_rent_exempt_reserve source_data_len
    split_data_len : Z) : Z :=
  let lamports_per_byte_year :=
    source_rent_exempt_reserve / add64 source_data_len ACCOUNT_STORAGE_OVERHEAD in
  mul64 lamports_per_byte_year (add64 split_data_len ACCOUNT_STORAGE_OVERHEAD).

Definition new_stake_history_entry (epoch : Epoch) (stakes : list Delegation)
    (history : option (list (Z * StakeHistoryEntry))) (fix_stake_deactivate : bool)
    : StakeHistoryEntry :=
  let '(effective, activating, deactivating) :=
    foldl (λ sum d,
      let '(a0, a1, a2) := sum in
      let '(b0, b1, b2) :=
        stake_activating_and_deactivating d epoch history fix_stake_deactivate in
      (add64 a0 b0, add64 a1 b1, add64 a2 b2)) (0, 0, 0) stakes in
  mkStakeHistoryEntry effective activating deactivating.
End stake.
