(* ===== verification/StakeProps.v ===== *)
(** * Properties of stakes

    The warm-up and cool-down loops end, the three parts of a delegation stay
    within it, and credits are paid once. *)

From S2P Require Import Prelude F64 Account BTreeMap Sysvar SysvarProps VoteState VoteTower VoteProps Stake.

Module stake_props.
Import stake.

(** ** The loops end *)

Section loops.
Context (h : list (Z * StakeHistoryEntry)).

(** How many entries of the history are at epoch [e] or later. *)
Definition newer (e : Z) : nat := length (filter (λ x, e <= x.1) h).

Lemma newer_length e : (newer e <= length h)%nat.
Proof. apply length_filter. Qed.

Lemma StakeHistory_get_elem e x : StakeHistory_get h e = Some x → (e, x) ∈ h.
Proof.
  unfold StakeHistory_get, assoc_get. intros H.
  destruct (binary_search_by _ h) as [i|] eqn:E; [|done].
  destruct (h !! i) as [[k y]|] eqn:Hi; [|done]. cbn in H. simplify_eq.
  pose proof (binary_search_loop_hit _ _ _ _ _ _ _ _ E Hi) as Hk. apply Z.compare_eq in Hk. cbn in Hk. subst. by eapply list_elem_of_lookup_2.
Qed.

(** Reading the entry of an epoch uses it up. *)
Lemma newer_step e x : StakeHistory_get h e = Some x → (newer (e + 1) < newer e)%nat.
Proof.
  intros [i Hi]%StakeHistory_get_elem%list_elem_of_lookup. unfold newer.
  rewrite <- (take_drop_middle h i _ Hi), !filter_app, !length_app.
  rewrite filter_cons_False, filter_cons_True by (cbn; lia). cbn [length].
  assert (Hle : ∀ l : list (Z * StakeHistoryEntry),
    (length (filter (λ x, e + 1 <= x.1)%Z l) <= length (filter (λ x, e <= x.1)%Z l))%nat).
  { induction l as [|y l IH]; [done|]. rewrite !filter_cons.
    destruct (decide (e + 1 <= y.1)), (decide (e <= y.1)); cbn; lia. }
  pose proof (Hle (take i h)). pose proof (Hle (drop (S i) h)). lia.
Qed.

(** Below the target no epoch wraps around. *)
Lemma next_epoch p target : 0 <= p < target → is_u64 target → add64 p 1 = p + 1.
Proof. unfold is_u64. intros. apply add64_id. lia. Qed.

Lemma warmup_loop_total fuel d target p x c :
  is_u64 target → 0 <= p < target → (newer (p + 1) < fuel)%nat →
  is_Some (warmup_loop fuel d target h p x c).
Proof.
  intros Ht. revert p x c. induction fuel as [|fuel IH]; intros p x c Hp Hf; [lia|].
  cbn [warmup_loop]. rewrite (next_epoch p target) by done.
  destruct (_ =? 0); [by eexists|]. destruct (_ <=? _); [by eexists|].
  destruct (Z.leb_spec target (p + 1)); [by eexists|]. destruct (_ <=? _); [by eexists|]. cbn [orb].
  destruct (StakeHistory_get h (p + 1)) as [y|] eqn:E; [|by eexists].
  apply newer_step in E. apply IH; lia.
Qed.

Lemma cooldown_loop_total fuel d target p x c :
  is_u64 target → 0 <= p < target → (newer (p + 1) < fuel)%nat →
  is_Some (cooldown_loop fuel d target h p x c).
Proof.
  intros Ht. revert p x c. induction fuel as [|fuel IH]; intros p x c Hp Hf; [lia|].
  cbn [cooldown_loop]. rewrite (next_epoch p target) by done.
  destruct (_ =? 0); [by eexists|]. destruct (_ =? 0); [by eexists|].
  destruct (Z.leb_spec target (p + 1)); [by eexists|].
  destruct (StakeHistory_get h (p + 1)) as [y|] eqn:E; [|by eexists].
  apply newer_step in E. apply IH; lia.
Qed.

(** The warm-up and cool-down loops end: started below a 64-bit target
    epoch they break after at most one round more than the history has
    entries, whatever the history holds (sorted or not, with any cluster
    stakes) and whatever the floating point rate. *)
Theorem stake_loops_terminate d target p x c :
  is_u64 target → 0 <= p < target →
  is_Some (warmup_loop (S (length h)) d target h p x c) ∧
  is_Some (cooldown_loop (S (length h)) d target h p x c).
Proof.
  intros Ht Hp. pose proof (newer_length (p + 1)).
  split; [apply warmup_loop_total|apply cooldown_loop_total]; (done || lia).
Qed.

(** ** The parts of a delegation *)

Lemma portion_pos m t e r : 1 <= portion m t e r.
Proof. unfold portion. lia. Qed.

Lemma warmup_loop_bounds fuel d target p x c r :
  is_u64 (d_stake d) → 0 <= c <= d_stake d →
  warmup_loop fuel d target h p x c = Some r → 0 <= r <= d_stake d.
Proof.
  intros Hd. revert p x c. induction fuel as [|fuel IH]; intros p x c Hc H; [done|].
  cbn [warmup_loop] in H. destruct (_ =? 0); [by simplify_eq|].
  set (c' := add64 c _) in H. assert (0 <= c') by apply wrap64_range.
  destruct (Z.leb_spec (d_stake d) c'); [simplify_eq; unfold is_u64 in Hd; lia|].
  destruct (_ || _); [simplify_eq; lia|]. destruct (StakeHistory_get h _); [|simplify_eq; lia].
  eapply IH; [|exact H]. lia.
Qed.

Lemma cooldown_loop_bounds fuel d target p x c r :
  0 <= c → cooldown_loop fuel d target h p x c = Some r → 0 <= r <= c.
Proof.
  revert p x c. induction fuel as [|fuel IH]; intros p x c Hc H; [done|].
  cbn [cooldown_loop] in H. destruct (_ =? 0); [simplify_eq; lia|].
  set (c' := saturating_sub c _) in H.
  assert (0 <= c' <= c).
  { subst c'. unfold saturating_sub. pose proof (portion_pos c (sh_deactivating x) (sh_effective x)
      (warmup_cooldown_rate d)). lia. }
  destruct (_ =? 0); [simplify_eq; lia|]. destruct (_ <=? _); [simplify_eq; lia|].
  destruct (StakeHistory_get h _); [|simplify_eq; lia].
  pose proof (IH _ _ c' ltac:(lia) H). lia.
Qed.
End loops.

Lemma stake_and_activating_bounds d target history b :
  is_u64 (d_stake d) → let '(e, a) := stake_and_activating d target history b in
  0 <= e ∧ 0 <= a ∧ e + a <= d_stake d.
Proof.
  intros Hd. unfold stake_and_activating. unfold is_u64 in Hd.
  repeat (match goal with |- context [if ?c then _ else _] => destruct c end; [cbn; lia|]).
  destruct (history_at history _) as [[h x]|]; [|cbn; lia].
  destruct (warmup_loop _ _ _ _ _ _ _) as [r|] eqn:E; cbn [default].
  - apply warmup_loop_bounds in E; [|done|lia]. cbn [from_option]. unfold id.
    rewrite sub64_id by lia. lia.
  - cbn. rewrite sub64_id by lia. lia.
Qed.

Lemma parts_bounds d target history b :
  is_u64 (d_stake d) →
  let '(e, a, x) := stake_activating_and_deactivating d target history b in
  0 <= e ∧ 0 <= a ∧ e + a <= d_stake d ∧ 0 <= x <= e.
Proof.
  intros Hd. unfold stake_activating_and_deactivating.
  pose proof (stake_and_activating_bounds d target history b Hd) as H.
  destruct (stake_and_activating d target history b) as [e a].
  destruct (_ <? _); [lia|]. destruct (_ =? _); [lia|].
  destruct (history_at history _) as [[h x]|]; [|unfold is_u64 in Hd; lia].
  destruct (cooldown_loop _ _ _ _ _ _ _) as [r|] eqn:E; cbn; [|unfold is_u64 in Hd; lia].
  apply cooldown_loop_bounds in E; [|lia]. unfold id. lia.
Qed.

(** At every epoch the effective, activating and deactivating parts of a
    delegation are non-negative, the effective and activating parts together
    do not exceed the delegated stake, and only effective stake deactivates. *)
Theorem delegation_parts_bounds d target history b :
  is_u64 (d_stake d) →
  let '(e, a, x) := stake_activating_and_deactivating d target history b in
  0 <= e ∧ 0 <= a ∧ e + a <= d_stake d ∧ 0 <= x <= e.
Proof. apply parts_bounds. Qed.

Lemma stake_loops_terminate_witness :
  is_Some (warmup_loop 2 (Delegation_new 1 100 3 DEFAULT_WARMUP_COOLDOWN_RATE) 9
             [(3, mkStakeHistoryEntry 1000 400 0)] 3 (mkStakeHistoryEntry 1000 400 0) 0) ∧
  warmup_loop 2 (Delegation_new 1 100 3 DEFAULT_WARMUP_COOLDOWN_RATE) 9
    [(3, mkStakeHistoryEntry 1000 400 0)] 3 (mkStakeHistoryEntry 1000 400 0) 0 = Some 62.
Proof.
  split; [|vm_compute; reflexivity].
  apply (stake_loops_terminate [(3, mkStakeHistoryEntry 1000 400 0)]
           (Delegation_new 1 100 3 DEFAULT_WARMUP_COOLDOWN_RATE) 9 3
           (mkStakeHistoryEntry 1000 400 0) 0); unfold is_u64, u64_max; lia.
Defined.

Lemma delegation_parts_bounds_witness :
  stake_activating_and_deactivating (Delegation_new 1 100 3 DEFAULT_WARMUP_COOLDOWN_RATE) 9
    (Some [(3, mkStakeHistoryEntry 1000 400 0)]) true = (62, 38, 0) ∧ 62 + 38 <= 100.
Proof.
  assert (H : stake_activating_and_deactivating
    (Delegation_new 1 100 3 DEFAULT_WARMUP_COOLDOWN_RATE) 9
    (Some [(3, mkStakeHistoryEntry 1000 400 0)]) true = (62, 38, 0)) by (vm_compute; reflexivity).
  split; [exact H|].
  pose proof (delegation_parts_bounds (Delegation_new 1 100 3 DEFAULT_WARMUP_COOLDOWN_RATE) 9
    (Some [(3, mkStakeHistoryEntry 1000 400 0)]) true) as Hp. rewrite H in Hp.
  apply Hp. cbn. unfold is_u64, u64_max. lia.
Defined.

(** ** Rewards *)

Lemma points_step_credits s h b acc e :
  acc.2 <= (points_step s h b acc e).2 ∧ e.1.2 <= (points_step s h b acc e).2 ∧
  0 <= (points_step s h b acc e).1.
Proof.
  destruct acc as [p c], e as [[ep f] i]. cbn. split_and!; [lia..|].
  apply Z.mod_pos_bound. lia.
Qed.

Lemma points_fold s h b l acc :
  0 <= acc.1 →
  let r := foldl (points_step s h b) acc l in
  0 <= r.1 ∧ acc.2 <= r.2 ∧ (∀ e, last l = Some e → e.1.2 <= r.2).
Proof.
  revert acc. induction l as [|e l IH]; intros acc Ha; cbn [foldl]; [done|].
  pose proof (points_step_credits s h b acc e) as (H1 & H2 & H3).
  destruct (IH (points_step s h b acc e) H3) as (H4 & H5 & H6). split_and!; [done|lia|].
  intros e' He. destruct l as [|e2 l]; [cbn in *; simplify_eq; lia|]. by apply H6.
Qed.

(** The points are non-negative, and the credits returned cover the vote
    account's, unless there was nothing new and the fix is off. *)
Lemma points_and_credits_spec s v h b :
  0 <= credits_observed s →
  let '(p, c) := calculate_stake_points_and_credits s v h b in
  0 <= p ∧ (p = 0 ∧ b = false ∨ credits_observed s <= c ∧ credits v <= c).
Proof.
  intros Hc. unfold calculate_stake_points_and_credits. destruct (Z.leb_spec (credits v) (credits_observed s)).
  - destruct b; [split; [done|right; lia]|split; [done|by left]].
  - destruct (foldl _ _ _) as [p c] eqn:E.
    pose proof (points_fold s h b (epoch_credits v) (0, credits_observed s) ltac:(cbn; lia)) as Hf.
    rewrite E in Hf. cbn in Hf. destruct Hf as (H1 & H2 & H3). split; [done|]. right. split; [done|].
    unfold credits. destruct (last (epoch_credits v)) as [[[e f] i]|]; [apply (H3 _ eq_refl)|lia].
Qed.

(** What [calculate_stake_rewards] pays out of a share of the points. *)
Lemma rewards_spec {E} s pv v h b sr vr c :
  0 <= credits_observed s → is_u64 (rewards pv) → 0 <= points pv → is_u8 (commission v) →
  calculate_stake_rewards (E:=E) s pv v h b = Ok (Some (sr, vr, c)) →
  0 <= sr ∧ 0 <= vr ∧
  (sr + vr) * points pv <= calculate_stake_points s v h b * rewards pv ∧
  credits_observed s <= c ∧ credits v <= c.
Proof.
  intros Hc Hr Hp Hcom. unfold calculate_stake_rewards, calculate_stake_points.
  pose proof (points_and_credits_spec s v h b Hc) as Hs.
  destruct (calculate_stake_points_and_credits s v h b) as [p c0]. destruct Hs as [Hp0 Hs].
  unfold is_u64 in Hr. destruct (Z.eqb_spec (rewards pv) 0) as [Hz|]; [destruct b; cbn [andb]|cbn [andb]].
  { intros [= <- <- <-]. cbn. rewrite Hz. split_and!; [lia..| |]; destruct Hs as [[_ ?]|[? ?]]; done. }
  all: destruct (Z.eqb_spec p 0); [done|]; destruct (Z.eqb_spec (points pv) 0); [done|].
  all: intros H; apply res_bind_Ok in H as (prod & Hprod & H); unfold checked_mul128 in Hprod;
       destruct (_ <=? u128_max); cbn in Hprod; [|done]; simplify_eq.
  all: apply res_bind_Ok in H as (q & Hq & H); unfold checked_div in Hq;
       destruct (Z.eqb_spec (points pv) 0); cbn in Hq; [done|]; simplify_eq.
  all: apply res_bind_Ok in H as (w & Hw & H); destruct (Z.leb_spec (p * rewards pv / points pv) u64_max);
       cbn in Hw; [|done]; simplify_eq.
  all: pose proof (Z.mul_div_le (p * rewards pv) (points pv) ltac:(lia)).
  all: set (w := p * rewards pv / points pv) in *; destruct (Z.eqb_spec w 0); [done|].
  all: assert (Hw : is_u64 w) by (split; [apply Z.div_pos; nia|done]).
  all: pose proof (commission_split_spec v w Hcom Hw) as Hsplit;
       destruct (commission_split v w) as [[mine theirs] sp].
  all: destruct (_ && _); [done|]; injection H as <- <- <-; destruct Hsplit as (? & ? & ? & _ & _).
  all: assert (points pv * (theirs + mine) <= points pv * w) by (apply Z.mul_le_mono_nonneg_l; lia).
  all: split_and!; [lia|lia|cbn [fst]; lia|..]; destruct Hs as [[? _]|[? ?]]; done.
Qed.

Lemma rewards_points_nonneg s v h b :
  0 <= credits_observed s → 0 <= calculate_stake_points s v h b.
Proof.
  intros Hc. pose proof (points_and_credits_spec s v h b Hc) as Hs. unfold calculate_stake_points.
  destruct (calculate_stake_points_and_credits s v h b). apply Hs.
Qed.

(** The lamports a payout moves. *)
Definition paid (r : res InstructionError (option (Z * Z * Z))) : Z :=
  match r with Ok (Some (s, v, _)) => s + v | _ => 0 end.

Lemma paid_bound s pv v h b :
  0 <= credits_observed s → is_u64 (rewards pv) → 0 <= points pv → is_u8 (commission v) →
  0 <= paid (calculate_stake_rewards s pv v h b) ∧
  paid (calculate_stake_rewards s pv v h b) * points pv <=
    calculate_stake_points s v h b * rewards pv.
Proof.
  intros Hc Hr Hp Hcom. pose proof (rewards_points_nonneg s v h b Hc). unfold is_u64 in Hr.
  destruct (calculate_stake_rewards s pv v h b) as [[[[sr vr] c]|]|e|] eqn:E; cbn [paid];
    [|split; nia..].
  apply rewards_spec in E as (? & ? & ? & _); [|done..]. split; [lia|done].
Qed.

(** C18. An inflation payout stays within its budget: if the points of all the
    stakes rewarded add up to at most the round's points, then all that is paid
    to stakers and voters together is at most the round's lamports. *)
Theorem rewards_within_budget (l : list (Stake * VoteState)) pv h b :
  Forall (λ x, 0 <= credits_observed x.1 ∧ is_u8 (commission x.2)) l →
  is_u64 (rewards pv) → 0 < points pv →
  sum_with (λ x, calculate_stake_points x.1 x.2 h b) l <= points pv →
  sum_with (λ x, paid (calculate_stake_rewards x.1 pv x.2 h b)) l <= rewards pv.
Proof.
  intros Hl Hr Hp Hsum.
  assert (Hb : sum_with (λ x, paid (calculate_stake_rewards x.1 pv x.2 h b)) l * points pv <=
               sum_with (λ x, calculate_stake_points x.1 x.2 h b) l * rewards pv).
  { clear Hsum. induction Hl as [|x l [Hc Hcom] Hl IH]; cbn; [lia|].
    pose proof (paid_bound x.1 pv x.2 h b Hc Hr ltac:(lia) Hcom) as [_ ?]. unfold sum_with in IH. lia. }
  unfold is_u64 in Hr. nia.
Qed.

(** Credits are paid once: after a stake's rewards are redeemed against a
    vote account, the same vote account gives it no more points, whatever
    history is used the second time. *)
Theorem redeem_once {E} s pv v h b s' sr vr h' b' :
  0 <= credits_observed s → is_u64 (rewards pv) → 0 <= points pv → is_u8 (commission v) →
  redeem_stake_rewards (E:=E) s pv v h b = Ok (Some (s', sr, vr)) →
  calculate_stake_points s' v h' b' = 0 ∧ credits_observed s <= credits_observed s' ∧
  d_stake (delegation s') = add64 (d_stake (delegation s)) sr.
Proof.
  intros Hc Hr Hp Hcom. unfold redeem_stake_rewards. intros ([[[sr0 vr0] c]|] & Hk & H)%res_bind_Ok; [|done].
  injection H as <- <- <-. apply rewards_spec in Hk as (_ & _ & _ & H1 & H2); [|done..].
  split_and!; [|exact H1|done]. unfold calculate_stake_points, calculate_stake_points_and_credits. cbn.
  destruct (Z.leb_spec (credits v) c); [|lia]. by destruct b'.
Qed.

(** ** Example: two stakes share 1000 lamports over 5000 points *)

Definition ex_vote (commission : Z) : VoteState :=
  mkVoteState 1 2 commission [] None [] (CircBuf_default (0, 0, 0)) [(0, 10, 0); (1, 30, 10)]
    (mkBlockTimestamp 0 0).
Definition ex_stake (s : Z) : Stake :=
  mkStake (Delegation_new 1 s u64_max DEFAULT_WARMUP_COOLDOWN_RATE) 10.

Lemma rewards_within_budget_witness :
  sum_with (λ x, paid (calculate_stake_rewards x.1 (mkPointValue 1000 5000) x.2 None true))
    [(ex_stake 200, ex_vote 10); (ex_stake 50, ex_vote 100)] = 1000 ∧
  sum_with (λ x, paid (calculate_stake_rewards x.1 (mkPointValue 1000 5000) x.2 None true))
    [(ex_stake 200, ex_vote 10); (ex_stake 50, ex_vote 100)] <= 1000.
Proof.
  split; [vm_compute; reflexivity|].
  apply (rewards_within_budget [(ex_stake 200, ex_vote 10); (ex_stake 50, ex_vote 100)]
           (mkPointValue 1000 5000) None true).
  - repeat constructor; cbn; unfold u8_max; lia.
  - cbn. unfold is_u64, u64_max. lia.
  - cbn. lia.
  - vm_compute. discriminate.
Defined.

Lemma redeem_once_witness :
  ∃ s', redeem_stake_rewards (E:=InstructionError) (ex_stake 200) (mkPointValue 1000 5000)
          (ex_vote 10) None true = Ok (Some (s', 720, 80)) ∧
        calculate_stake_points s' (ex_vote 10) None true = 0.
Proof.
  eexists. split; [vm_compute; reflexivity|].
  apply (redeem_once (E:=InstructionError) (ex_stake 200) (mkPointValue 1000 5000) (ex_vote 10)
           None true _ 720 80 None true); try (vm_compute; reflexivity);
    cbn; unfold is_u64, is_u8, u64_max, u8_max; lia.
Defined.
End stake_props.
