(* ===== verification/Config.v ===== *)
(** * The config program

    Models [programs/config/src/config_processor.rs] and the config data layout
    of [programs/config/src/lib.rs].

    A config account starts with a list of keys, each marked as a required
    signer or not.  An update supplies a new list; its signers must have signed
    and, once the account is initialized, belong to the stored signers. *)

From S2P Require Import Prelude Account Serial Features.

Module config.

Abbreviation ConfigKeys := (list (Z * bool)) (only parsing).

(** The keys marked as signers. *)
Definition signer_keys (keys : list (Z * bool)) : list Pubkey :=
  fst <$> filter (λ k, k.2 = true) keys.

Section program.
Context `{!Codec (list (Z * bool))}.

(** [get_config_data]: what follows the keys; slicing past the end panics. *)
Definition get_config_data {E} (bytes : list Byte.byte) : res E (option (list Byte.byte)) :=
  match deserialize (T:=list (Z * bool)) bytes with
  | None => Ok None
  | Some keys =>
      let offset := length (bincode_ser keys) in
      if bool_decide (offset <= length bytes)%nat then Ok (Some (drop offset bytes)) else Panic
  end.

(** The loop over the new signers: the accounts not yet consumed and the
    number of signers seen so far. *)
Fixpoint check_signers (config : KeyedAccount) (current_keys : list (Z * bool))
    (signers : list Pubkey) (accounts : list KeyedAccount) (counter : nat)
    : res InstructionError nat :=
  match signers with
  | [] => Ok counter
  | signer :: signers' =>
      let counter := S counter in
      if negb (signer =? unsigned_key config) then
        match accounts with
        | [] => Err MissingRequiredSignature
        | signer_account :: accounts' =>
            match signer_key signer_account with
            | None => Err MissingRequiredSignature
            | Some key =>
                if negb (key =? signer) then Err MissingRequiredSignature
                else if negb (bool_decide (current_keys = [])) &&
                        negb (bool_decide (signer ∈ signer_keys current_keys))
                then Err MissingRequiredSignature
                else check_signers config current_keys signers' accounts' counter
            end
        end
      else if bool_decide (signer_key config = None) then Err MissingRequiredSignature
      else check_signers config current_keys signers' accounts counter
  end.

Definition write_prefix (d : list Byte.byte) (a : Account) : res InstructionError Account :=
  Ok (set_data (d ++ drop (length d) (Account.data a)) a).

Definition process_instruction (ic : InvokeContext) (data : list Byte.byte) : M unit :=
  let keyed_accounts := get_keyed_accounts ic in
  key_list ← lift (limited_deserialize (T:=list (Z * bool)) data);
  config_keyed_account ← keyed_account_at_index keyed_accounts 0;
  config_account ← try_account_ref config_keyed_account;
  ensureS (negb (is_feature_active ic feature_set.check_program_owner &&
                 negb (owner config_account =? config_program_id))) InvalidAccountOwner;;
  current_data ← lift (ok_or (deserialize (T:=list (Z * bool)) (Account.data config_account))
                             InvalidAccountData);
  let current_signer_keys := signer_keys current_data in
  ensureS (negb (bool_decide (current_signer_keys = []) &&
                 bool_decide (signer_key config_keyed_account = None)))
    MissingRequiredSignature;;
  counter ← lift (check_signers config_keyed_account current_data (signer_keys key_list)
                    (drop 1 keyed_accounts) 0);
  ensureS (negb (is_feature_active ic feature_set.dedupe_config_program_signers &&
                 negb (bool_decide (NoDup key_list)))) InvalidArgument;;
  ensureS (negb (bool_decide (counter < length current_signer_keys)%nat))
    MissingRequiredSignature;;
  data_len ← ka_data_len config_keyed_account;
  ensureS (negb (bool_decide (data_len < length data)%nat)) InvalidInstructionData;;
  update_account config_keyed_account (write_prefix data).
End program.

(** ** Properties *)

Lemma check_signers_Ok config cur signers accounts n m :
  check_signers config cur signers accounts n = Ok m →
  m = (n + length signers)%nat ∧
  Forall (λ x, (x = key config ∧ is_signer config = true) ∨
               (x ∈ get_signers accounts ∧ (cur = [] ∨ x ∈ signer_keys cur))) signers.
Proof.
  revert accounts n. induction signers as [|x l IH]; intros accounts n H; cbn in H.
  { simplify_eq. split; [cbn; lia|constructor]. }
  destruct (Z.eqb_spec x (unsigned_key config)) as [->|Hne]; cbn in H.
  - case_bool_decide as Hs; [done|]. apply IH in H as [-> HF]. split; [cbn; lia|].
    constructor; [|done]. left. split; [done|]. unfold signer_key in Hs.
    by destruct (is_signer config).
  - destruct accounts as [|a accounts]; [done|].
    destruct (signer_key a) as [y|] eqn:Ey; [|done].
    destruct (Z.eqb_spec y x) as [->|]; [|done]. cbn in H.
    destruct (_ && _) eqn:Eb in H; [done|]. apply IH in H as [-> HF]. split; [cbn; lia|].
    assert (Hin : get_signers (a :: accounts) = x :: get_signers accounts)
      by (unfold get_signers; cbn; by rewrite Ey).
    constructor.
    + right. rewrite Hin. split; [by left|].
      apply andb_false_iff in Eb as [Eb|Eb]; bool_prop; auto.
    + eapply Forall_impl; [exact HF|]. intros z [?|[? ?]]; [by left|right].
      rewrite Hin. split; [by right|done].
Qed.

Lemma signer_keys_NoDup (keys : list (Z * bool)) : NoDup keys → NoDup (signer_keys keys).
Proof.
  intros H. unfold signer_keys. apply NoDup_fmap_2_strong; [|by apply NoDup_filter].
  intros [x1 b1] [x2 b2] [H1 _]%list_elem_of_filter [H2 _]%list_elem_of_filter Heq.
  cbn in *. congruence.
Qed.

(** Distinct members of a list that are as many as the list are all of it. *)
Lemma cover_all (l m : list Z) :
  NoDup l → (∀ x, x ∈ l → x ∈ m) → (length m <= length l)%nat → ∀ x, x ∈ m → x ∈ l.
Proof.
  intros Hnd Hin Hlen x. rewrite !list_elem_of_In.
  apply (List.NoDup_length_incl (l:=l) (l':=m)); [by apply NoDup_ListNoDup|done|].
  intros y. rewrite <- !list_elem_of_In. apply Hin.
Qed.

Section properties.
Context `{!Codec (list (Z * bool))}.

(** What a successful update has checked. *)
Lemma process_instruction_Ok ic d (s s' : gmap nat Account) u :
  process_instruction ic d s = (s', Ok u) →
  ∃ config a cur keys,
    get_keyed_accounts ic !! 0%nat = Some config ∧ s !! account config = Some a ∧
    deserialize (Account.data a) = Some cur ∧ limited_deserialize d = Ok keys ∧
    (signer_keys cur = [] → is_signer config = true) ∧
    check_signers config cur (signer_keys keys) (drop 1 (get_keyed_accounts ic)) 0 =
      Ok (length (signer_keys keys)) ∧
    (is_feature_active ic feature_set.dedupe_config_program_signers = true → NoDup keys) ∧
    (length (signer_keys cur) <= length (signer_keys keys))%nat ∧
    (length d <= length (Account.data a))%nat ∧
    s' = <[account config := set_data (d ++ drop (length d) (Account.data a)) a]> s.
Proof.
  intros H. unfold process_instruction in H. acc_inv.
  apply update_account_Ok in H as (a & a' & Ha & [= <-] & ->). simplify_eq.
  match goal with H : Ok ?n = check_signers _ _ _ _ _ |- _ =>
    symmetry in H; pose proof (proj1 (check_signers_Ok _ _ _ _ _ _ H)); subst n end.
  bool_prop. eexists _, _, _, _. split_and!; try done.
  - intros Hs. destruct_or!; bool_prop; try congruence; unfold signer_key in *; by destruct (is_signer _).
  - intros Hd. destruct_or!; bool_prop; by try congruence.
  - lia.
  - lia.
Qed.

(** An update of an initialized config account needs its signers: if the
    duplicate check is active and the update does not name the config account
    itself as a signer, then every stored signer has signed. *)
Theorem config_update_signed ic d (s s' : gmap nat Account) u config a cur keys :
  process_instruction ic d s = (s', Ok u) →
  is_feature_active ic feature_set.dedupe_config_program_signers = true →
  get_keyed_accounts ic !! 0%nat = Some config → s !! account config = Some a →
  deserialize (Account.data a) = Some cur → cur ≠ [] →
  limited_deserialize d = Ok keys → key config ∉ signer_keys keys →
  ∀ x, x ∈ signer_keys cur → x ∈ get_signers (get_keyed_accounts ic).
Proof.
  intros Hrun Hf Hc Ha Hcur Hne Hkeys Hself x Hx.
  apply process_instruction_Ok in Hrun as (config' & a' & cur' & keys' & ? & ? & ? & ? & _ & Hck & Hnd & Hlen & _).
  simplify_eq. apply check_signers_Ok in Hck as [_ HF]. rewrite Forall_forall in HF.
  assert (Hin : x ∈ signer_keys keys').
  { apply (cover_all (signer_keys keys') (signer_keys cur')); [by apply signer_keys_NoDup, Hnd| |done|done].
    intros y Hy. destruct (HF y Hy) as [[Heq _]|[_ [Hnil|?]]]; [congruence|done..]. }
  destruct (HF x Hin) as [[Heq _]|[Hs _]]; [congruence|].
  destruct (get_keyed_accounts ic) as [|k ks]; [done|].
  change (x ∈ get_signers ks) in Hs.
  unfold get_signers in *. cbn. destruct (signer_key k); [by right|done].
Qed.
End properties.

(** ** Examples *)

Module example.
#[export] Instance wf_keys : Wf (list (Z * bool)) := λ _, True.
#[export] Instance keys_codec : Codec (list (Z * bool)) := serial_codec _.

(** A config account (key 3) whose stored signer is key 7. *)
Definition store : gmap nat Account :=
  {[ 0%nat := mkAccount 1 (bincode_ser [(7, true)] ++ replicate 40 Byte.x00) config_program_id false 0 ]}.

Definition update_ic : InvokeContext :=
  mkInvokeContext [mkKeyed false true 3 0; mkKeyed true false 7 1] (λ _, true) (λ _, None).
Definition update_data : list Byte.byte := bincode_ser [(7, true); (8, false)].

Lemma config_update_signed_witness :
  (process_instruction update_ic update_data store).2 = Ok tt ∧
  7 ∈ get_signers (get_keyed_accounts update_ic).
Proof.
  assert (H : (process_instruction update_ic update_data store).2 = Ok tt)
    by (vm_compute; reflexivity).
  split; [exact H|].
  refine (config_update_signed update_ic update_data store _ tt _ _ [(7, true)]
            [(7, true); (8, false)] (run_ok _ _ _ H) eq_refl eq_refl eq_refl _ _ _ _ 7 _).
  - vm_compute. reflexivity.
  - discriminate.
  - vm_compute. reflexivity.
  - apply (bool_decide_unpack (3 ∉ [7])). vm_compute. exact I.
  - vm_compute. left.
Defined.

(** The config account's own key signs, the stored signer does not. *)
Definition bypass_ic : InvokeContext :=
  mkInvokeContext [mkKeyed true true 3 0] (λ _, true) (λ _, None).
Definition bypass_data : list Byte.byte := bincode_ser [(3, true)].

(** The exception above is real: an update that names the config account
    itself as its only signer replaces the stored signer without that signer's
    signature, all features active.  The count of new signers is compared with
    the count of stored ones, and the config account's own key is counted
    without being looked up among them. *)
Theorem config_self_signer_bypass :
  let '(s', r) := process_instruction bypass_ic bypass_data store in
  r = Ok tt ∧
  (deserialize (T:=list (Z * bool)) ∘ Account.data) <$> store !! 0%nat = Some (Some [(7, true)]) ∧
  (deserialize (T:=list (Z * bool)) ∘ Account.data) <$> s' !! 0%nat = Some (Some [(3, true)]) ∧
  7 ∉ get_signers (get_keyed_accounts bypass_ic).
Proof.
  destruct (process_instruction bypass_ic bypass_data store) as [s' r] eqn:E.
  vm_compute in E. injection E as <- <-. split_and!; [done|vm_compute; reflexivity..|].
  apply (bool_decide_unpack (7 ∉ [3])). vm_compute. exact I.
Qed.
End example.
End config.
