(* ===== verification/StakeProgram.v ===== *)
(** * The stake program

    Models the account-level functions of [programs/stake/src/stake_state.rs]
    (the [StakeAccount] trait and the utilities of the runtime),
    [programs/stake/src/config.rs] and [process_instruction] of
    [programs/stake/src/stake_instruction.rs]. *)

From S2P Require Import Prelude F64 Account Features BTreeMap Sysvar VoteState Stake Config.

Module stake_program.
Import stake.

Definition id : Pubkey := stake_program_id.

#[export] Instance StakeHistory_id : SysvarId (list (Z * StakeHistoryEntry)) :=
  sysvar_stake_history_id.

Record AuthorizeWithSeedArgs : Type := mkAuthorizeWithSeedArgs {
  aws_new_authorized_pubkey : Pubkey;
  aws_stake_authorize : StakeAuthorize;
  aws_authority_seed : list Byte.byte;
  aws_authority_owner : Pubkey;
}.

Record AuthorizeCheckedWithSeedArgs : Type := mkAuthorizeCheckedWithSeedArgs {
  acs_stake_authorize : StakeAuthorize;
  acs_authority_seed : list Byte.byte;
  acs_authority_owner : Pubkey;
}.

Record LockupCheckedArgs : Type := mkLockupCheckedArgs {
  lc_unix_timestamp : option UnixTimestamp;
  lc_epoch : option Epoch;
}.

Inductive StakeInstruction : Type :=
| Initialize (authorized : Authorized) (lockup : Lockup)
| Authorize (new_authorized : Pubkey) (stake_authorize : StakeAuthorize)
| DelegateStake
| Split (lamports : Z)
| Withdraw (lamports : Z)
| Deactivate
| SetLockup (args : LockupArgs)
| Merge
| AuthorizeWithSeed (args : AuthorizeWithSeedArgs)
| InitializeChecked
| AuthorizeChecked (stake_authorize : StakeAuthorize)
| AuthorizeCheckedWithSeed (args : AuthorizeCheckedWithSeedArgs)
| SetLockupChecked (args : LockupCheckedArgs).

Definition Clock_default : Clock := mkClock 0 0 0 0 0.

Section program.
Context `{!Codec StakeState, !Codec VoteStateVersions, !Codec Clock, !Codec Rent,
          !Codec (list (Z * StakeHistoryEntry)), !Codec Config, !Codec (list (Z * bool)),
          !Codec StakeInstruction, !Sha256}.

(** ** config.rs *)

Definition config_from_keyed_account (k : KeyedAccount) : M Config :=
  ensureS (unsigned_key k =? stake_config_id) InvalidArgument;;
  a ← try_account_ref k;
  d ← lift (config.get_config_data (data a));
  lift (ok_or (d ≫= deserialize) InvalidArgument).

(** ** The [StakeAccount] operations *)

Definition initialize (self : KeyedAccount) (auth : Authorized) (lk : Lockup) (rent : Rent)
    : M unit :=
  data_len ← ka_data_len self;
  ensureS (bool_decide (data_len = SIZE_OF_STAKE_STATE)) InvalidAccountData;;
  st ← ka_state StakeState self;
  match st with
  | Uninitialized =>
      data_len ← ka_data_len self;
      let reserve := minimum_balance rent data_len in
      l ← ka_lamports self;
      if reserve <? l then ka_set_state self (Initialized (mkMeta reserve auth lk))
      else fail InsufficientFunds
  | _ => fail InvalidAccountData
  end.

Definition authorize (self : KeyedAccount) (signers : list Pubkey) (new_authority : Pubkey)
    (stake_authorize : StakeAuthorize) (require_custodian : bool) (clock : Clock)
    (custodian : option Pubkey) : M unit :=
  st ← ka_state StakeState self;
  match st with
  | StakeSt meta stake =>
      a ← lift (Authorized_authorize (authorized meta) signers new_authority stake_authorize
                  (if require_custodian then Some (lockup meta, clock, custodian) else None));
      ka_set_state self (StakeSt (with_authorized a meta) stake)
  | Initialized meta =>
      a ← lift (Authorized_authorize (authorized meta) signers new_authority stake_authorize
                  (if require_custodian then Some (lockup meta, clock, custodian) else None));
      ka_set_state self (Initialized (with_authorized a meta))
  | _ => fail InvalidAccountData
  end.

Definition authorize_with_seed (self authority_base : KeyedAccount)
    (authority_seed : list Byte.byte) (authority_owner new_authority : Pubkey)
    (stake_authorize : StakeAuthorize) (require_custodian : bool) (clock : Clock)
    (custodian : option Pubkey) : M unit :=
  signers ← match signer_key authority_base with
            | Some base_pubkey =>
                p ← lift (map_err PubkeyError_into
                            (create_with_seed base_pubkey authority_seed authority_owner));
                mret [p]
            | None => mret []
            end;
  authorize self signers new_authority stake_authorize require_custodian clock custodian.

Definition delegate (self vote_account : KeyedAccount) (clock : Clock)
    (stake_history : list (Z * StakeHistoryEntry)) (config : Config) (signers : list Pubkey)
    (can_reverse_deactivation : bool) : M unit :=
  vote_owner ← ka_owner vote_account;
  ensureS (vote_owner =? vote_program_id) IncorrectProgramId;;
  st ← ka_state StakeState self;
  match st with
  | Initialized meta =>
      lift (check (authorized meta) signers Staker);;
      l ← ka_lamports self;
      versions ← ka_state VoteStateVersions vote_account;
      let stake := new_stake (saturating_sub l (rent_exempt_reserve meta))
                     (unsigned_key vote_account) (convert_to_current versions)
                     (clock_epoch clock) config in
      ka_set_state self (StakeSt meta stake)
  | StakeSt meta stake =>
      lift (check (authorized meta) signers Staker);;
      l ← ka_lamports self;
      versions ← ka_state VoteStateVersions vote_account;
      stake ← lift (map_err StakeError_into
                (redelegate stake (saturating_sub l (rent_exempt_reserve meta))
                   (unsigned_key vote_account) (convert_to_current versions) clock stake_history
                   config can_reverse_deactivation));
      ka_set_state self (StakeSt meta stake)
  | _ => fail InvalidAccountData
  end.

Definition deactivate (self : KeyedAccount) (clock : Clock) (signers : list Pubkey) : M unit :=
  st ← ka_state StakeState self;
  match st with
  | StakeSt meta stake =>
      lift (check (authorized meta) signers Staker);;
      stake ← lift (map_err StakeError_into (Stake_deactivate stake (clock_epoch clock)));
      ka_set_state self (StakeSt meta stake)
  | _ => fail InvalidAccountData
  end.

Definition set_lockup (self : KeyedAccount) (args : LockupArgs) (signers : list Pubkey)
    (clock : option Clock) : M unit :=
  st ← ka_state StakeState self;
  match st with
  | Initialized meta =>
      meta ← lift (Meta_set_lockup meta args signers clock);
      ka_set_state self (Initialized meta)
  | StakeSt meta stake =>
      meta ← lift (Meta_set_lockup meta args signers clock);
      ka_set_state self (StakeSt meta stake)
  | _ => fail InvalidAccountData
  end.

(** The guard [split] applies to delegated and to initialized accounts: enough
    for the reserve of the new account, and either all or something above the
    reserve is left. *)
Definition split_funds_ok (l split_reserve split_lamports self_lamports reserve : Z)
    : res InstructionError unit :=
  if l <=? saturating_sub split_reserve split_lamports then Err InsufficientFunds
  else if negb (l =? self_lamports) then
    sum ← checked_add l reserve;
    ensure (negb (self_lamports <=? sum)) InsufficientFunds
  else Ok tt.

Definition split (self : KeyedAccount) (l : Z) (split : KeyedAccount) (signers : list Pubkey)
    : M unit :=
  split_owner ← ka_owner split;
  ensureS (split_owner =? id) IncorrectProgramId;;
  split_len ← ka_data_len split;
  ensureS (bool_decide (split_len = SIZE_OF_STAKE_STATE)) InvalidAccountData;;
  split_state ← ka_state StakeState split;
  match split_state with
  | Uninitialized =>
      self_lamports ← ka_lamports self;
      ensureS (negb (self_lamports <? l)) InsufficientFunds;;
      st ← ka_state StakeState self;
      match st with
      | StakeSt meta stake =>
          lift (check (authorized meta) signers Staker);;
          self_len ← ka_data_len self;
          split_len ← ka_data_len split;
          let split_reserve :=
            calculate_split_rent_exempt_reserve (rent_exempt_reserve meta)
              (Z.of_nat self_len) (Z.of_nat split_len) in
          split_lamports ← ka_lamports split;
          self_lamports ← ka_lamports self;
          lift (split_funds_ok l split_reserve split_lamports self_lamports
                  (rent_exempt_reserve meta));;
          let '(remaining_stake_delta, split_stake_amount) :=
            if l =? self_lamports then
              (saturating_sub l (rent_exempt_reserve meta),
               saturating_sub l (rent_exempt_reserve meta))
            else (l, sub64 l (saturating_sub split_reserve split_lamports)) in
          r ← lift (map_err StakeError_into
                      (Stake_split stake remaining_stake_delta split_stake_amount));
          let '(stake, split_stake) := r in
          ka_set_state self (StakeSt meta stake);;
          ka_set_state split (StakeSt (with_reserve split_reserve meta) split_stake)
      | Initialized meta =>
          lift (check (authorized meta) signers Staker);;
          self_len ← ka_data_len self;
          split_len ← ka_data_len split;
          let split_reserve :=
            calculate_split_rent_exempt_reserve (rent_exempt_reserve meta)
              (Z.of_nat self_len) (Z.of_nat split_len) in
          split_lamports ← ka_lamports split;
          self_lamports ← ka_lamports self;
          lift (split_funds_ok l split_reserve split_lamports self_lamports
                  (rent_exempt_reserve meta));;
          ka_set_state split (Initialized (with_reserve split_reserve meta))
      | Uninitialized =>
          ensureS (bool_decide (unsigned_key self ∈ signers)) MissingRequiredSignature
      | RewardsPool => fail InvalidAccountData
      end;;
      self_lamports ← ka_lamports self;
      (if l =? self_lamports then ka_set_state self Uninitialized else mret tt);;
      ka_add_lamports split l;;
      ka_sub_lamports self l
  | _ => fail InvalidAccountData
  end.

(** [MergeKind::get_if_mergeable] *)
Definition get_if_mergeable (k : KeyedAccount) (clock : Clock)
    (stake_history : list (Z * StakeHistoryEntry)) : M MergeKind :=
  st ← ka_state StakeState k;
  match st with
  | StakeSt meta stake =>
      let '(effective, activating, deactivating) :=
        stake_activating_and_deactivating (delegation stake) (clock_epoch clock)
          (Some stake_history) true in
      if (effective =? 0) && (activating =? 0) && (deactivating =? 0) then
        l ← ka_lamports k; mret (Inactive meta l)
      else if effective =? 0 then mret (ActivationEpoch meta stake)
      else if (activating =? 0) && (deactivating =? 0) then mret (FullyActive meta stake)
      else fail (StakeError_into MergeTransientStake)
  | Initialized meta => l ← ka_lamports k; mret (Inactive meta l)
  | _ => fail InvalidAccountData
  end.

Definition merge (self source_account : KeyedAccount) (clock : Clock)
    (stake_history : list (Z * StakeHistoryEntry)) (signers : list Pubkey)
    (can_merge_expired_lockups : bool) : M unit :=
  source_owner ← ka_owner source_account;
  ensureS (source_owner =? id) IncorrectProgramId;;
  ensureS (negb (unsigned_key source_account =? unsigned_key self)) InvalidArgument;;
  stake_merge_kind ← get_if_mergeable self clock stake_history;
  lift (check (authorized (MergeKind_meta stake_merge_kind)) signers Staker);;
  source_merge_kind ← get_if_mergeable source_account clock stake_history;
  merged ← lift (MergeKind_merge stake_merge_kind source_merge_kind
                   (if can_merge_expired_lockups then Some clock else None));
  match merged with
  | Some merged_state => ka_set_state self merged_state
  | None => mret tt
  end;;
  ka_set_state source_account Uninitialized;;
  l ← ka_lamports source_account;
  ka_sub_lamports source_account l;;
  ka_add_lamports self l.

(** What [withdraw] must leave behind: the lockup, the reserve and whether
    stake is still locked. *)
Definition withdraw_reserve (self : KeyedAccount) (st : StakeState) (clock : Clock)
    (stake_history : list (Z * StakeHistoryEntry)) (signers : list Pubkey)
    (prevent_withdraw_to_zero : bool) : res InstructionError (Lockup * Z * bool) :=
  match st with
  | StakeSt meta stake =>
      check (authorized meta) signers Withdrawer;;
      let staked :=
        if deactivation_epoch (delegation stake) <=? clock_epoch clock then
          Delegation_stake (delegation stake) (clock_epoch clock) (Some stake_history) true
        else d_stake (delegation stake) in
      staked_and_reserve ← checked_add staked (rent_exempt_reserve meta);
      mret (lockup meta, staked_and_reserve, negb (staked =? 0))
  | Initialized meta =>
      check (authorized meta) signers Withdrawer;;
      reserve ← (if prevent_withdraw_to_zero then checked_add (rent_exempt_reserve meta) 1
                 else Ok (rent_exempt_reserve meta));
      mret (lockup meta, reserve, false)
  | Uninitialized =>
      ensure (bool_decide (unsigned_key self ∈ signers)) MissingRequiredSignature;;
      mret (Lockup_default, 0, false)
  | RewardsPool => Err InvalidAccountData
  end.

Definition withdraw (self : KeyedAccount) (l : Z) (to : KeyedAccount) (clock : Clock)
    (stake_history : list (Z * StakeHistoryEntry)) (withdraw_authority : KeyedAccount)
    (custodian : option KeyedAccount) (prevent_withdraw_to_zero : bool) : M unit :=
  withdraw_authority_pubkey ← lift (ok_or (signer_key withdraw_authority)
                                      MissingRequiredSignature);
  st ← ka_state StakeState self;
  r ← lift (withdraw_reserve self st clock stake_history [withdraw_authority_pubkey]
              prevent_withdraw_to_zero);
  let '(lk, reserve, is_staked) := r in
  let custodian_pubkey := custodian ≫= signer_key in
  ensureS (negb (is_in_force lk clock custodian_pubkey)) (StakeError_into LockupInForce);;
  lamports_and_reserve ← lift (checked_add l reserve);
  self_lamports ← ka_lamports self;
  ensureS (negb (is_staked && (self_lamports <? lamports_and_reserve))) InsufficientFunds;;
  (if negb (l =? self_lamports) && (self_lamports <? lamports_and_reserve) then
     if negb is_staked then fail InsufficientFunds else panic
   else mret tt);;
  (if l =? self_lamports then ka_set_state self Uninitialized else mret tt);;
  ka_sub_lamports self l;;
  ka_add_lamports to l.

(** [keyed_account_at_index(..).ok()] *)
Definition at_index_ok (ks : list KeyedAccount) (i : nat) : option KeyedAccount := ks !! i.

(** ** process_instruction *)

Definition process_instruction (ic : InvokeContext) (d : list Byte.byte) : M unit :=
  let keyed_accounts := get_keyed_accounts ic in
  let signers := get_signers keyed_accounts in
  let feature := is_feature_active ic in
  me ← keyed_account_at_index keyed_accounts 0;
  me_owner ← ka_owner me;
  ensureS (me_owner =? id)
    (if feature feature_set.check_program_owner then InvalidAccountOwner else IncorrectProgramId);;
  instruction ← lift (limited_deserialize d);
  match instruction with
  | Initialize auth lk =>
      rent_account ← keyed_account_at_index keyed_accounts 1;
      rent ← from_keyed_account Rent rent_account;
      initialize me auth lk rent
  | Authorize authorized_pubkey stake_authorize =>
      if feature feature_set.require_custodian_for_locked_stake_authorize then
        clock_account ← keyed_account_at_index keyed_accounts 1;
        clock ← from_keyed_account Clock clock_account;
        _current_authority ← keyed_account_at_index keyed_accounts 2;
        authorize me signers authorized_pubkey stake_authorize true clock
          (unsigned_key <$> at_index_ok keyed_accounts 3)
      else authorize me signers authorized_pubkey stake_authorize false Clock_default None
  | AuthorizeWithSeed args =>
      authority_base ← keyed_account_at_index keyed_accounts 1;
      if feature feature_set.require_custodian_for_locked_stake_authorize then
        clock_account ← keyed_account_at_index keyed_accounts 2;
        clock ← from_keyed_account Clock clock_account;
        authorize_with_seed me authority_base (aws_authority_seed args) (aws_authority_owner args)
          (aws_new_authorized_pubkey args) (aws_stake_authorize args) true clock
          (unsigned_key <$> at_index_ok keyed_accounts 3)
      else
        authorize_with_seed me authority_base (aws_authority_seed args) (aws_authority_owner args)
          (aws_new_authorized_pubkey args) (aws_stake_authorize args) false Clock_default None
  | DelegateStake =>
      vote ← keyed_account_at_index keyed_accounts 1;
      clock_account ← keyed_account_at_index keyed_accounts 2;
      clock ← from_keyed_account Clock clock_account;
      history_account ← keyed_account_at_index keyed_accounts 3;
      stake_history ← from_keyed_account (list (Z * StakeHistoryEntry)) history_account;
      config_account ← keyed_account_at_index keyed_accounts 4;
      config ← config_from_keyed_account config_account;
      delegate me vote clock stake_history config signers (feature feature_set.stake_program_v4)
  | Split l =>
      split_stake ← keyed_account_at_index keyed_accounts 1;
      split me l split_stake signers
  | Merge =>
      source_stake ← keyed_account_at_index keyed_accounts 1;
      clock_account ← keyed_account_at_index keyed_accounts 2;
      clock ← from_keyed_account Clock clock_account;
      history_account ← keyed_account_at_index keyed_accounts 3;
      stake_history ← from_keyed_account (list (Z * StakeHistoryEntry)) history_account;
      merge me source_stake clock stake_history signers (feature feature_set.stake_program_v4)
  | Withdraw l =>
      to ← keyed_account_at_index keyed_accounts 1;
      clock_account ← keyed_account_at_index keyed_accounts 2;
      clock ← from_keyed_account Clock clock_account;
      history_account ← keyed_account_at_index keyed_accounts 3;
      stake_history ← from_keyed_account (list (Z * StakeHistoryEntry)) history_account;
      withdraw_authority ← keyed_account_at_index keyed_accounts 4;
      withdraw me l to clock stake_history withdraw_authority (at_index_ok keyed_accounts 5)
        (feature feature_set.stake_program_v4)
  | Deactivate =>
      clock_account ← keyed_account_at_index keyed_accounts 1;
      clock ← from_keyed_account Clock clock_account;
      deactivate me clock signers
  | SetLockup args =>
      clock ← (if feature feature_set.stake_program_v4
               then c ← lift (get_sysvar ic sysvar_clock_id); mret (Some c)
               else mret None);
      set_lockup me args signers clock
  | InitializeChecked =>
      if feature feature_set.vote_stake_checked_instructions then
        staker_account ← keyed_account_at_index keyed_accounts 2;
        withdrawer_account ← keyed_account_at_index keyed_accounts 3;
        withdrawer_key ← lift (ok_or (signer_key withdrawer_account) MissingRequiredSignature);
        rent_account ← keyed_account_at_index keyed_accounts 1;
        rent ← from_keyed_account Rent rent_account;
        initialize me (mkAuthorized (unsigned_key staker_account) withdrawer_key)
          Lockup_default rent
      else fail InvalidInstructionData
  | AuthorizeChecked stake_authorize =>
      if feature feature_set.vote_stake_checked_instructions then
        clock_account ← keyed_account_at_index keyed_accounts 1;
        clock ← from_keyed_account Clock clock_account;
        _current_authority ← keyed_account_at_index keyed_accounts 2;
        authorized_account ← keyed_account_at_index keyed_accounts 3;
        authorized_pubkey ← lift (ok_or (signer_key authorized_account) MissingRequiredSignature);
        authorize me signers authorized_pubkey stake_authorize true clock
          (unsigned_key <$> at_index_ok keyed_accounts 4)
      else fail InvalidInstructionData
  | AuthorizeCheckedWithSeed args =>
      if feature feature_set.vote_stake_checked_instructions then
        authority_base ← keyed_account_at_index keyed_accounts 1;
        clock_account ← keyed_account_at_index keyed_accounts 2;
        clock ← from_keyed_account Clock clock_account;
        authorized_account ← keyed_account_at_index keyed_accounts 3;
        authorized_pubkey ← lift (ok_or (signer_key authorized_account) MissingRequiredSignature);
        authorize_with_seed me authority_base (acs_authority_seed args) (acs_authority_owner args)
          authorized_pubkey (acs_stake_authorize args) true clock
          (unsigned_key <$> at_index_ok keyed_accounts 4)
      else fail InvalidInstructionData
  | SetLockupChecked args =>
      if feature feature_set.vote_stake_checked_instructions then
        custodian ← match at_index_ok keyed_accounts 2 with
                    | Some custodian =>
                        p ← lift (ok_or (signer_key custodian) MissingRequiredSignature);
                        mret (Some p)
                    | None => mret None
                    end;
        clock ← lift (get_sysvar ic sysvar_clock_id);
        set_lockup me (mkLockupArgs (lc_unix_timestamp args) (lc_epoch args) custodian) signers
          (Some clock)
      else fail InvalidInstructionData
  end.

(** ** Utilities of the runtime *)

(** [redeem_rewards]: the stake account, the vote account and the rewards. *)
Definition redeem_rewards (stake_account vote_account : Account) (vote_state : VoteState)
    (point_value : PointValue) (stake_history : option (list (Z * StakeHistoryEntry)))
    (fix_stake_deactivate : bool) : res InstructionError (Account * Account * Z * Z) :=
  st ← account_state stake_account;
  match st with
  | StakeSt meta stake =>
      r ← redeem_stake_rewards stake point_value vote_state stake_history fix_stake_deactivate;
      match r with
      | Some (stake, stakers_reward, voters_reward) =>
          stake_account ← map_err LamportsError_into
                            (checked_add_lamports stakers_reward stake_account);
          vote_account ← map_err LamportsError_into
                           (checked_add_lamports voters_reward vote_account);
          stake_account ← account_set_state (StakeSt meta stake) stake_account;
          mret (stake_account, vote_account, stakers_reward, voters_reward)
      | None => Err (StakeError_into NoCreditsToRedeem)
      end
  | _ => Err InvalidAccountData
  end.

Definition calculate_points (stake_account vote_account : Account)
    (stake_history : option (list (Z * StakeHistoryEntry))) (fix_stake_deactivate : bool)
    : res InstructionError Z :=
  st ← account_state stake_account;
  match st with
  | StakeSt _ stake =>
      versions ← account_state vote_account;
      mret (calculate_stake_points stake (convert_to_current versions) stake_history
              fix_stake_deactivate)
  | _ => Err InvalidAccountData
  end.

(** [rewrite_stakes]: the new account and the two changes made. *)
Definition rewrite_stakes (stake_account : Account) (rent : Rent)
    : res InstructionError (Account * (Z * Z) * (Z * Z)) :=
  st ← account_state stake_account;
  match st with
  | Initialized meta =>
      let '(meta, meta_status) :=
        rewrite_rent_exempt_reserve meta rent (length (data stake_account)) in
      match meta_status with
      | None => Err InvalidAccountData
      | Some m =>
          a ← account_set_state (Initialized meta) stake_account;
          mret (a, m, (0, 0))
      end
  | StakeSt meta stake =>
      let '(meta, meta_status) :=
        rewrite_rent_exempt_reserve meta rent (length (data stake_account)) in
      let '(d, stake_status) :=
        rewrite_stake (delegation stake) (lamports stake_account) (rent_exempt_reserve meta) in
      match meta_status, stake_status with
      | None, None => Err InvalidAccountData
      | _, _ =>
          a ← account_set_state (StakeSt meta (mkStake d (credits_observed stake))) stake_account;
          mret (a, default (0, 0) meta_status, default (0, 0) stake_status)
      end
  | _ => Err InvalidAccountData
  end.

(** [create_lockup_stake_account]; the failed assertion is a panic. *)
Definition create_lockup_stake_account (auth : Authorized) (lk : Lockup) (rent : Rent) (l : Z)
    : res InstructionError Account :=
  let stake_account := shared_new l SIZE_OF_STAKE_STATE id in
  let reserve := minimum_balance rent (length (data stake_account)) in
  if negb (reserve <=? l) then Panic
  else match account_set_state (Initialized (mkMeta reserve auth lk)) stake_account with
       | Ok a => Ok a
       | _ => Panic
       end.

Definition do_create_account (auth voter : Pubkey) (vote_account : Account) (rent : Rent) (l : Z)
    (activation : Epoch) : res InstructionError Account :=
  let stake_account := shared_new l SIZE_OF_STAKE_STATE id in
  match deserialize (T:=VoteStateVersions) (data vote_account) with
  | None => Panic
  | Some versions =>
      let reserve := minimum_balance rent (length (data stake_account)) in
      match account_set_state
              (StakeSt (mkMeta reserve (Authorized_auto auth) Lockup_default)
                 (new_stake (sub64 l reserve) voter (convert_to_current versions) activation
                    Config_default)) stake_account with
      | Ok a => Ok a
      | _ => Panic
      end
  end.

Definition create_account (auth voter : Pubkey) (vote_account : Account) (rent : Rent) (l : Z)
    : res InstructionError Account :=
  do_create_account auth voter vote_account rent l u64_max.
End program.
End stake_program.
