(* ===== verification/StakeInv.v ===== *)
(** * Invariant of the stake program: delegations are backed

    Every stake account keeps its rent reserve, and a delegation that is not
    being deactivated never exceeds what the account holds above the reserve.
    The invariant does not mention the clock or the stake history, so it carries
    over from one instruction to the next. *)

From S2P Require Import Prelude F64 Account Serial Features BTreeMap Sysvar SysvarProps VoteState VoteTower.
From S2P Require Import VoteProps VoteWf System Stake StakeProps Config StakeProgram.

Module stake_inv.
Import stake stake_props stake_program system_program(MAX_PERMITTED_DATA_LENGTH).

(** ** Ranges *)

Definition wf_f64 (x : f64) : Prop := valid_binary f64_prec f64_emax x = true.

Definition wf_authorized (a : Authorized) : Prop := is_key (staker a) ∧ is_key (withdrawer a).
Definition wf_lockup (l : Lockup) : Prop :=
  is_i64 (lk_unix_timestamp l) ∧ is_u64 (lk_epoch l) ∧ is_key (lk_custodian l).
Definition wf_meta (m : Meta) : Prop :=
  is_u64 (rent_exempt_reserve m) ∧ wf_authorized (authorized m) ∧ wf_lockup (lockup m).
Definition wf_delegation (d : Delegation) : Prop :=
  is_key (voter_pubkey d) ∧ is_u64 (d_stake d) ∧ is_u64 (activation_epoch d) ∧
  is_u64 (deactivation_epoch d) ∧ wf_f64 (warmup_cooldown_rate d).
Definition wf_stake (s : Stake) : Prop := wf_delegation (delegation s) ∧ is_u64 (credits_observed s).

#[export] Instance wf_StakeState : Wf StakeState := λ st,
  match st with
  | Uninitialized | RewardsPool => True
  | Initialized m => wf_meta m
  | StakeSt m s => wf_meta m ∧ wf_stake s
  end.

#[export] Instance wf_Config : Wf Config := λ c,
  wf_f64 (cfg_warmup_cooldown_rate c) ∧ is_u8 (slash_penalty c).

Definition wf_opt {A} (P : A → Prop) (o : option A) : Prop :=
  match o with Some x => P x | None => True end.

#[export] Instance wf_StakeInstruction : Wf StakeInstruction := λ i,
  match i with
  | Initialize a l => wf_authorized a ∧ wf_lockup l
  | Authorize p _ => is_key p
  | Split l | Withdraw l => is_u64 l
  | SetLockup args =>
      wf_opt is_i64 (la_unix_timestamp args) ∧ wf_opt is_u64 (la_epoch args) ∧
      wf_opt is_key (la_custodian args)
  | AuthorizeWithSeed args => is_key (aws_new_authorized_pubkey args) ∧ is_key (aws_authority_owner args)
  | AuthorizeCheckedWithSeed args => is_key (acs_authority_owner args)
  | SetLockupChecked args => wf_opt is_i64 (lc_unix_timestamp args) ∧ wf_opt is_u64 (lc_epoch args)
  | DelegateStake | Deactivate | Merge | InitializeChecked | AuthorizeChecked _ => True
  end.

(** ** The invariant *)

(** The size of an account that holds a stake: at least that of the state, as
    [initialize] and [split] make them, and at most what the system program
    allocates. *)
Definition full_size (len : nat) : Prop :=
  (SIZE_OF_STAKE_STATE <= len)%nat ∧ Z.of_nat len <= MAX_PERMITTED_DATA_LENGTH.

Lemma full_size_new : full_size SIZE_OF_STAKE_STATE.
Proof. by split. Qed.

Definition backed_state (st : StakeState) (l : Z) (len : nat) : Prop :=
  match st with
  | Uninitialized | RewardsPool => True
  | Initialized m => rent_exempt_reserve m <= l ∧ full_size len
  | StakeSt m s =>
      rent_exempt_reserve m <= l ∧ full_size len ∧
      (deactivation_epoch (delegation s) = u64_max →
       d_stake (delegation s) + rent_exempt_reserve m <= l)
  end.

Section inv.
Context `{!Codec StakeState, !CodecOk StakeState}.

Definition cell_ok (a : Account) : Prop :=
  owner a = id → ∀ st, deserialize (data a) = Some st → backed_state st (lamports a) (length (data a)).

(** Every account of the stake program is backed. *)
Definition backed (s : gmap nat Account) : Prop := map_Forall (λ _ a, cell_ok a) s.

Lemma backed_state_mono st l l' len : l <= l' → backed_state st l len → backed_state st l' len.
Proof. destruct st; cbn; intros; intuition lia. Qed.

Lemma cell_ok_lamports x a : lamports a <= x → cell_ok a → cell_ok (set_lamports x a).
Proof. intros Hx Ha Ho st Hd. eapply backed_state_mono; [exact Hx|]. by apply Ha. Qed.

(** The account after [ka_set_state] and a change of balance. *)
Definition cell (x : StakeState) (l : Z) (a : Account) : Account :=
  set_lamports l (set_data (bincode_ser x ++ drop (length (bincode_ser x)) (data a)) a).

Lemma set_data_cell x a :
  set_data (bincode_ser x ++ drop (length (bincode_ser x)) (data a)) a = cell x (lamports a) a.
Proof. done. Qed.

Lemma cell_len x l a :
  (length (bincode_ser x) <= length (data a))%nat → length (data (cell x l a)) = length (data a).
Proof. intros. cbn. rewrite length_app, length_drop. lia. Qed.

Lemma cell_state x l a : wf x → deserialize (data (cell x l a)) = Some x.
Proof. intros. cbn. unfold deserialize. by rewrite bincode_roundtrip. Qed.

Lemma cell_ok_write x l a :
  wf x → (length (bincode_ser x) <= length (data a))%nat →
  (owner a = id → backed_state x l (length (data a))) → cell_ok (cell x l a).
Proof.
  intros Hw Hl Hb Ho st Hd. rewrite cell_state in Hd by done. injection Hd as <-.
  rewrite cell_len by done. by apply Hb.
Qed.

Lemma backed_insert l a s : cell_ok a → backed s → backed (<[l := a]> s).
Proof. intros Ha Hs. by apply (map_Forall_insert_2 (λ _ a, cell_ok a)). Qed.

Lemma backed_write k x (s s' : gmap nat Account) u :
  ka_set_state k x s = (s', Ok u) → wf x →
  (∀ a, s !! account k = Some a → owner a = id → backed_state x (lamports a) (length (data a))) →
  backed s → backed s'.
Proof.
  intros (a & Ha & Hl & ->)%ka_set_state_Ok Hw Hb Hs. apply backed_insert; [|done].
  rewrite set_data_cell. apply cell_ok_write; [done..|]. by apply Hb.
Qed.

Lemma backed_state_of k (s s' : gmap nat Account) st :
  ka_state StakeState k s = (s', Ok st) → backed s →
  s' = s ∧ wf st ∧ ∃ a, s !! account k = Some a ∧ deserialize (data a) = Some st ∧
    (owner a = id → backed_state st (lamports a) (length (data a))).
Proof.
  intros Hst Hs. pose proof (ka_state_wf _ _ _ _ Hst) as Hw.
  apply ka_state_Ok in Hst as (-> & a & Ha & Hd). split_and!; [done..|].
  exists a. split_and!; [done..|]. intros Ho. by apply (Hs _ _ Ha).
Qed.

Ltac inv_state :=
  match goal with H : ka_state StakeState _ _ = (_, Ok ?st) |- _ =>
    apply backed_state_of in H as (-> & ? & ? & ? & ? & ?); [|done]; destruct st end.

(** A handler that writes one state derived from the one it read. *)
Lemma backed_update k x (s s' : gmap nat Account) u a :
  ka_set_state k x s = (s', Ok u) → wf x → s !! account k = Some a →
  (owner a = id → backed_state x (lamports a) (length (data a))) → backed s → backed s'.
Proof. intros Hset Hw Ha Hb Hs. eapply backed_write; [done..| |done]. intros b Hb'. by simplify_eq. Qed.

Lemma f64_range_minimum rent n : is_u64 (minimum_balance rent n).
Proof. apply f64_to_u64_range. Qed.

Lemma initialize_backed k auth lk rent (s s' : gmap nat Account) u :
  wf_authorized auth → wf_lockup lk → initialize k auth lk rent s = (s', Ok u) →
  backed s → backed s'.
Proof.
  intros Ha Hl Hrun Hs. unfold initialize in Hrun. acc_inv. inv_state; acc_inv.
  simplify_eq. match goal with H : (if ?b then _ else _) _ = _ |- _ => destruct b eqn:? end; acc_inv.
  eapply backed_update; [done| |done| |done].
  - split_and!; [apply f64_range_minimum|done..].
  - bool_prop. cbn. intros _. split; [lia|].
    match goal with H : length _ = _ |- _ => rewrite H end. apply full_size_new.
Qed.

Lemma wf_authorize a signers p sa args a' :
  wf_authorized a → is_key p → Authorized_authorize a signers p sa args = Ok a' → wf_authorized a'.
Proof.
  intros [Hs Hw] Hp H. destruct sa; cbn in H.
  - destruct (_ && _); simplify_eq. done.
  - apply res_bind_Ok in H as (? & _ & H). apply res_bind_Ok in H as (? & _ & H).
    injection H as <-. done.
Qed.

Lemma authorize_backed k signers p sa req c cust (s s' : gmap nat Account) u :
  is_key p → authorize k signers p sa req c cust s = (s', Ok u) → backed s → backed s'.
Proof.
  intros Hp Hrun Hs. unfold authorize in Hrun. acc_inv. inv_state; acc_inv.
  - match goal with H : Ok _ = _ |- _ => symmetry in H; apply wf_authorize in H end;
      [|by destruct H as (? & ? & ?)|done].
    eapply backed_update; [done| |done| |done]; [|done]. destruct H as (? & ? & ?). by split_and!.
  - match goal with H : Ok _ = _ |- _ => symmetry in H; apply wf_authorize in H end;
      [|by destruct H as ((? & ? & ?) & ?)|done].
    eapply backed_update; [done| |done| |done]; [|done]. destruct H as ((? & ? & ?) & ?).
    split; [by split_and!|done].
Qed.

Lemma authorize_with_seed_backed `{!Sha256} k base seed o p sa req c cust (s s' : gmap nat Account) u :
  is_key p → authorize_with_seed k base seed o p sa req c cust s = (s', Ok u) →
  backed s → backed s'.
Proof.
  intros Hp Hrun Hs. unfold authorize_with_seed in Hrun. apply st_bind_Ok in Hrun as (s1 & sg & H1 & Hrun).
  assert (s1 = s) as -> by (destruct (signer_key base); by acc_inv).
  by eapply authorize_backed.
Qed.

Lemma wf_set_lockup m args signers clock m' :
  wf_meta m → wf (SetLockup args) → Meta_set_lockup m args signers clock = Ok m' →
  wf_meta m' ∧ rent_exempt_reserve m' = rent_exempt_reserve m.
Proof.
  intros (Hm1 & Hm2 & Hm3 & Hm4 & Hm5) (Ha1 & Ha2 & Ha3) H. unfold Meta_set_lockup in H.
  apply res_bind_Ok in H as (? & _ & H). injection H as <-. split; [|done].
  split_and!; [done..| | |]; cbn; by destruct args as [[] [] []].
Qed.

Lemma set_lockup_backed k args signers clock (s s' : gmap nat Account) u :
  wf (SetLockup args) → set_lockup k args signers clock s = (s', Ok u) → backed s → backed s'.
Proof.
  intros Ha Hrun Hs. unfold set_lockup in Hrun. acc_inv. inv_state; acc_inv.
  - match goal with H : Ok _ = _ |- _ => symmetry in H; apply wf_set_lockup in H as [? Hr]; [|done..] end.
    eapply backed_update; [done..| |done]. cbn. by rewrite Hr.
  - destruct H as [Hm Hst].
    match goal with H : Ok _ = _ |- _ => symmetry in H; apply wf_set_lockup in H as [? Hr]; [|done..] end.
    eapply backed_update; [done|by split|done| |done]. cbn. by rewrite Hr.
Qed.

Lemma deactivate_backed k clock signers (s s' : gmap nat Account) u :
  wf clock → deactivate k clock signers s = (s', Ok u) → backed s → backed s'.
Proof.
  intros Hc Hrun Hs. unfold deactivate in Hrun. acc_inv. inv_state; acc_inv.
  unfold Stake_deactivate in *. destruct H as [Hm [(? & ? & ? & ? & ?) ?]].
  match goal with H : context [?e =? u64_max] |- _ => destruct (Z.eqb_spec e u64_max) as [Heq|] end;
    simplify_eq/=.
  eapply backed_update; [done| |done| |done].
  - split; [done|]. split; [|done]. split_and!; try done. apply Hc.
  - cbn. intros Ho. intuition.
Qed.

Lemma credits_range v : wf_vote_state v → is_u64 (credits v).
Proof.
  intros Hw. unfold credits. destruct (last (epoch_credits v)) as [[[e c] p]|] eqn:E; [|apply is_u64_0].
  apply last_Some in E as [l E]. pose proof (wv_credits v Hw) as HF. rewrite E in HF.
  apply Forall_app in HF as [_ HF]. inversion HF as [|? ? Hx]. apply Hx.
Qed.

(** The stake a delegation gets: the balance above the reserve. *)
Lemma free_balance l r : r <= l → 0 <= r → l <= u64_max → is_u64 (saturating_sub l r) ∧ saturating_sub l r + r <= l.
Proof. unfold saturating_sub, is_u64. lia. Qed.

(** Balances are 64-bit. *)
Definition lamports_ok (s : gmap nat Account) : Prop := map_Forall (λ _ a, is_u64 (lamports a)) s.

Lemma sat_range l r : is_u64 l → 0 <= r → is_u64 (saturating_sub l r).
Proof. unfold is_u64, saturating_sub. lia. Qed.

Lemma delegate_backed `{!Codec VoteStateVersions, !CodecOk VoteStateVersions} k vote clock h cfg signers
    (s s' : gmap nat Account) u :
  is_key (key vote) → wf clock → wf cfg → lamports_ok s →
  (∀ a, s !! account k = Some a → owner a = id) →
  delegate k vote clock h cfg signers false s = (s', Ok u) → backed s → backed s'.
Proof.
  intros Hk Hc [Hcfg _] Hl Ho Hrun Hs. unfold delegate in Hrun. acc_inv. inv_state; acc_inv.
  - match goal with H : ka_state VoteStateVersions _ _ = _ |- _ =>
      pose proof (ka_state_wf _ _ _ _ H) as Hv; apply ka_state_Ok in H as (-> & _) end.
    apply wf_convert_to_current, credits_range in Hv. simplify_eq.
    match goal with Ha : s !! account k = Some ?a |- _ =>
      pose proof (Hl _ _ Ha) as Hla; pose proof (Ho _ Ha) as Hoa end.
    destruct H as (Hr & Hm). match goal with Hb : owner _ = id → _ |- _ => destruct (Hb Hoa) as [Hb1 Hb2] end.
    cbv beta in Hla. eapply backed_update; [done| |done| |done].
    + split; [by split|]. split; [|done]. split_and!; cbn; try done.
      * apply sat_range; [done|apply Hr].
      * apply Hc.
    + cbn. intros _. split_and!; [done..|]. intros _. unfold saturating_sub, is_u64 in *. lia.
  - match goal with H : ka_state VoteStateVersions _ _ = _ |- _ =>
      pose proof (ka_state_wf _ _ _ _ H) as Hv; apply ka_state_Ok in H as (-> & _) end.
    apply wf_convert_to_current, credits_range in Hv. simplify_eq. unfold redelegate in *.
    rewrite andb_false_r in *.
    match goal with H : (if ?b then _ else _) = Ok _ |- _ => destruct b; simplify_eq end.
    match goal with Ha : s !! account k = Some ?a |- _ =>
      pose proof (Hl _ _ Ha) as Hla; pose proof (Ho _ Ha) as Hoa end.
    destruct H as [(Hr & Hm) _]. match goal with Hb : owner _ = id → _ |- _ => destruct (Hb Hoa) as (Hb1 & Hb2 & _) end.
    cbv beta in Hla. eapply backed_update; [done| |done| |done].
    + split; [by split|]. split; [|done]. split_and!; cbn; try done.
      * apply sat_range; [done|apply Hr].
      * apply Hc.
    + cbn. intros _. split_and!; [done..|]. intros _. unfold saturating_sub, is_u64 in *. lia.
Qed.

Lemma checked_add_Ok a b c : checked_add a b = Ok c ↔ c = a + b ∧ a + b <= u64_max.
Proof. unfold checked_add. by rewrite ok_or_Ok, checked_add64_Some. Qed.

Lemma backed_add k l (s s' : gmap nat Account) u :
  0 <= l → ka_add_lamports k l s = (s', Ok u) → backed s → backed s'.
Proof.
  intros Hl (a & Ha & _ & ->)%ka_add_lamports_Ok Hs. apply backed_insert; [|done].
  apply cell_ok_lamports; [lia|]. by apply (Hs _ _ Ha).
Qed.

(** A partial withdrawal leaves the reserve and the stake. *)
Lemma withdraw_reserve_backed self st clock h signers prevent lk r staked l bal len :
  wf st → clock_epoch clock < u64_max →
  withdraw_reserve self st clock h signers prevent = Ok (lk, r, staked) →
  l + r <= bal → backed_state st bal len → backed_state st (bal - l) len.
Proof.
  intros Hw Hc Hr Hl Hb. destruct st as [|m|m st|]; [done| | |done]; cbn in *.
  - apply res_bind_Ok in Hr as (_ & _ & Hr). apply res_bind_Ok in Hr as (r' & Hr' & [= <- <- <-]).
    split; [|apply Hb]. destruct prevent; [apply checked_add_Ok in Hr' as [-> _]|injection Hr' as ->]; lia.
  - apply res_bind_Ok in Hr as (_ & _ & Hr). apply res_bind_Ok in Hr as (r' & Hr' & [= <- <- <-]).
    apply checked_add_Ok in Hr' as [-> _]. destruct Hw as (Hm & Hd & _). destruct Hd as (_ & Hd & _).
    pose proof (parts_bounds (delegation st) (clock_epoch clock) (Some h) true Hd) as Hp.
    unfold Delegation_stake in *. destruct (stake_activating_and_deactivating _ _ _ _) as [[e act] x].
    unfold is_u64 in Hd. split_and!; [|apply Hb|].
    + destruct (_ <=? clock_epoch clock); cbn in Hl; lia.
    + intros Hmax. rewrite Hmax in Hl. destruct (Z.leb_spec u64_max (clock_epoch clock)); lia.
Qed.

Lemma withdraw_backed k l to clock h auth cust prevent (s s' : gmap nat Account) u :
  0 <= l → clock_epoch clock < u64_max → (∀ a, s !! account k = Some a → owner a = id) →
  withdraw k l to clock h auth cust prevent s = (s', Ok u) → backed s → backed s'.
Proof.
  intros Hl0 Hc Ho Hrun Hs. unfold withdraw in Hrun. acc_inv.
  match goal with H : ka_state StakeState _ _ = (_, Ok ?x) |- _ =>
    apply backed_state_of in H as (-> & Hw & a & Ha & Hd & Hb); [|done]; rename x into st end.
  match goal with x : (Lockup * Z * bool)%type |- _ => destruct x as [[lk r] staked] end. acc_inv.
  match goal with H : Ok ?n = checked_add l r |- _ =>
    symmetry in H; apply checked_add_Ok in H as [-> _] end. simplify_eq.
  match goal with Ha : s !! account k = Some ?b |- _ => rename b into a; specialize (Hb (Ho _ Ha)) end.
  eapply backed_add; [exact Hl0|exact Hrun|].
  match goal with H : ka_sub_lamports _ _ _ = _ |- _ => apply ka_sub_lamports_Ok in H as (b & Hbk & _ & ->) end.
  destruct (Z.eqb_spec l (lamports a)) as [->|Hne]; cbn [negb andb] in *; acc_inv.
  - match goal with H : ka_set_state _ _ _ = _ |- _ => apply ka_set_state_Ok in H as (a1 & Ha1 & Hlen & ->) end.
    rewrite lookup_insert_eq in Hbk. simplify_eq. apply backed_insert; [|apply backed_insert; [|done]];
      by apply (cell_ok_write Uninitialized _ a).
  - destruct (Z.ltb_spec (lamports a) (l + r)); [destruct (negb staked); by acc_inv|]. acc_inv. simplify_eq.
    apply backed_insert; [|done]. intros _ st' Hd'. cbn in Hd'. simplify_eq.
    by eapply withdraw_reserve_backed.
Qed.

(** ** Split *)

Lemma backed_two (s s' : gmap nat Account) k1 k2 a1 a2 :
  backed s → s' !! k1 = Some a1 → cell_ok a1 → s' !! k2 = Some a2 → cell_ok a2 →
  (∀ l, l ≠ k1 → l ≠ k2 → s' !! l = s !! l) → backed s'.
Proof.
  intros Hs H1 Hc1 H2 Hc2 Hrest l a Hl.
  destruct (decide (l = k1)) as [->|]; [by simplify_eq|].
  destruct (decide (l = k2)) as [->|]; [by simplify_eq|].
  rewrite Hrest in Hl by done. by apply (Hs l).
Qed.

(** The end of [split]: clear an emptied account, then move the lamports. *)
Lemma split_tail k k2 l a b (s s1 s2 s' : gmap nat Account) u1 u2 u3 :
  (if l =? lamports a then ka_set_state k Uninitialized else mret tt) s = (s1, Ok u1) →
  ka_add_lamports k2 l s1 = (s2, Ok u2) → ka_sub_lamports k l s2 = (s', Ok u3) →
  s !! account k = Some a → s !! account k2 = Some b → account k ≠ account k2 →
  s' !! account k2 = Some (set_lamports (lamports b + l) b) ∧
  (∃ a', s' !! account k = Some a' ∧
    (l = lamports a ∧ (length (bincode_ser Uninitialized) <= length (data a))%nat ∧
       a' = cell Uninitialized 0 a ∨
     l ≠ lamports a ∧ a' = set_lamports (lamports a - l) a)) ∧
  ∀ i, i ≠ account k → i ≠ account k2 → s' !! i = s !! i.
Proof.
  intros H1 (b1 & Hb1 & _ & ->)%ka_add_lamports_Ok (a1 & Ha1 & _ & ->)%ka_sub_lamports_Ok Ha Hb Hne.
  rewrite lookup_insert_ne in Ha1 by done.
  destruct (Z.eqb_spec l (lamports a)) as [->|Hl].
  - apply ka_set_state_Ok in H1 as (a2 & Ha2 & Hlen & ->). simplify_eq.
    rewrite lookup_insert_ne in Hb1 by done. rewrite lookup_insert_eq in Ha1. simplify_eq.
    rewrite lookup_insert_ne, lookup_insert_eq by done. split_and!; [done| |].
    + eexists. rewrite lookup_insert_eq. split; [done|]. left. split_and!; [done..|].
      unfold cell. cbn. by rewrite Z.sub_diag.
    + intros i ? ?. by rewrite !lookup_insert_ne by done.
  - acc_inv. simplify_eq. rewrite lookup_insert_ne, lookup_insert_eq by done. split_and!; [done| |].
    + eexists. rewrite lookup_insert_eq. split; [done|]. by right.
    + intros i ? ?. by rewrite !lookup_insert_ne by done.
Qed.

Lemma split_reserve_le r len :
  is_u64 r → full_size len → 0 <= calculate_split_rent_exempt_reserve r (Z.of_nat len) 200 <= r.
Proof.
  unfold is_u64, full_size, SIZE_OF_STAKE_STATE, MAX_PERMITTED_DATA_LENGTH. intros Hr [Hl1 Hl2].
  unfold calculate_split_rent_exempt_reserve, ACCOUNT_STORAGE_OVERHEAD.
  change (add64 200 128) with 328. rewrite add64_id by (unfold u64_max; lia). set (d := Z.of_nat len + 128).
  pose proof (Z.mul_div_le r d ltac:(lia)). assert (0 <= r / d) by (apply Z.div_pos; lia).
  assert (328 * (r / d) <= d * (r / d)) by (apply Z.mul_le_mono_nonneg_r; lia).
  unfold mul64. rewrite wrap64_id by (unfold is_u64; lia). lia.
Qed.

Lemma split_funds_ok_spec l sr sl bal r u :
  split_funds_ok l sr sl bal r = Ok u →
  saturating_sub sr sl < l ∧ (l = bal ∨ l + r < bal ∧ l ≠ bal).
Proof.
  unfold split_funds_ok. destruct (Z.leb_spec l (saturating_sub sr sl)); [done|].
  destruct (Z.eqb_spec l bal); cbn [negb]; [auto|].
  intros (x & [-> _]%checked_add_Ok & Hx)%res_bind_Ok. unfold ensure in Hx.
  destruct (Z.leb_spec bal (l + r)); [done|]. auto with lia.
Qed.

Lemma wf_with_d_stake st x :
  wf_stake st → is_u64 x → wf_stake (mkStake (with_d_stake x (delegation st)) (credits_observed st)).
Proof. intros [(? & ? & ? & ? & ?) ?] ?. by split; [split_and!|]. Qed.

(** The delegations on both sides of a split are backed. *)
Lemma split_amounts_backed stake m l sr sl bal len rem amount stake1 stake2 :
  wf_stake stake → wf_meta m → is_u64 l → 0 <= sl → 0 <= sr <= rent_exempt_reserve m →
  saturating_sub sr sl < l → (l = bal ∨ l + rent_exempt_reserve m < bal ∧ l ≠ bal) →
  (rem, amount) = (if l =? bal then (saturating_sub l (rent_exempt_reserve m),
                                     saturating_sub l (rent_exempt_reserve m))
                   else (l, sub64 l (saturating_sub sr sl))) →
  Stake_split stake rem amount = Ok (stake1, stake2) →
  backed_state (StakeSt m stake) bal len →
  wf_stake stake1 ∧ wf_stake stake2 ∧
  (l ≠ bal → backed_state (StakeSt m stake1) (bal - l) len) ∧
  backed_state (StakeSt (with_reserve sr m) stake2) (sl + l) SIZE_OF_STAKE_STATE.
Proof.
  intros Hw (Hr & _) Hl Hsl Hsr Hlt Hbal Hif Hsp (Hb1 & Hb2 & Hb3).
  unfold Stake_split in Hsp. destruct (Z.ltb_spec (d_stake (delegation stake)) rem); [done|].
  injection Hsp as <- <-. pose proof Hw as [(_ & Hd2 & _) _]. unfold is_u64 in Hr, Hl, Hd2.
  assert (0 <= rem ∧ is_u64 amount) as [Hrem Ham].
  { destruct (l =? bal); injection Hif as -> ->; unfold saturating_sub, is_u64 in *;
      [lia|]. split; [lia|]. rewrite sub64_id by lia. lia. }
  rewrite sub64_id by lia. split_and!.
  - apply wf_with_d_stake; [done|]. unfold is_u64. lia.
  - by apply (wf_with_d_stake stake).
  - intros Hne. destruct (Z.eqb_spec l bal); [done|]. injection Hif as -> ->. cbn.
    split_and!; [lia|done|]. intros Hm. specialize (Hb3 Hm). lia.
  - cbn. split_and!; [unfold saturating_sub in *; lia|apply full_size_new|]. intros _.
    destruct (Z.eqb_spec l bal); injection Hif as -> ->; unfold saturating_sub in *;
      [lia|]. rewrite sub64_id by lia. lia.
Qed.

(** Lookups in a store after two writes. *)
Ltac two_writes :=
  repeat match goal with
  | H : ka_set_state _ _ _ = (_, Ok _) |- _ => apply ka_set_state_Ok in H as (? & ? & ? & ->)
  end;
  repeat match goal with
  | H : <[?i := _]> _ !! ?i = Some _ |- _ => rewrite lookup_insert_eq in H
  | H : <[_ := _]> _ !! _ = Some _ |- _ => rewrite lookup_insert_ne in H by done
  end; simplify_eq.

Lemma wf_with_reserve r m : is_u64 r → wf_meta m → wf_meta (with_reserve r m).
Proof. by intros ? (? & ? & ?). Qed.

Lemma split_tail_backed k k2 l a b (s0 s s1 s2 s' : gmap nat Account) u1 u2 u3 :
  (if l =? lamports a then ka_set_state k Uninitialized else mret tt) s = (s1, Ok u1) →
  ka_add_lamports k2 l s1 = (s2, Ok u2) → ka_sub_lamports k l s2 = (s', Ok u3) →
  s !! account k = Some a → s !! account k2 = Some b → account k ≠ account k2 →
  backed s0 → (∀ i, i ≠ account k → i ≠ account k2 → s !! i = s0 !! i) →
  (l ≠ lamports a → cell_ok (set_lamports (lamports a - l) a)) →
  cell_ok (set_lamports (lamports b + l) b) → backed s'.
Proof.
  intros H1 H2 H3 Ha Hb Hne Hs Hrest Hca Hcb.
  destruct (split_tail _ _ _ _ _ _ _ _ _ _ _ _ H1 H2 H3 Ha Hb Hne) as (Hk2 & (a' & Hk & Hc) & Hr).
  eapply (backed_two s0 s' (account k) (account k2)); [done|done| |done|done|].
  - destruct Hc as [(-> & Hlen & ->)|(Hn & ->)]; [by apply cell_ok_write|by apply Hca].
  - intros i ? ?. by rewrite Hr, Hrest.
Qed.

(** Splitting off an account that holds no stake yet. *)
Lemma split_uninitialized_backed k k2 l a (s s1 s2 s' : gmap nat Account) u1 u2 u3 :
  (if l =? lamports a then ka_set_state k Uninitialized else mret tt) s = (s1, Ok u1) →
  ka_add_lamports k2 l s1 = (s2, Ok u2) → ka_sub_lamports k l s2 = (s', Ok u3) →
  0 <= l → s !! account k = Some a → deserialize (data a) = Some Uninitialized →
  backed s → backed s'.
Proof.
  intros H1 H2 H3 Hl Ha Hd Hs.
  assert (Hs1 : backed s1 ∧ ∃ a1, s1 !! account k = Some a1 ∧ deserialize (data a1) = Some Uninitialized).
  { destruct (l =? lamports a); acc_inv; [|eauto].
    pose proof (backed_write _ _ _ _ _ H1 I ltac:(done) Hs). split; [done|].
    apply ka_set_state_Ok in H1 as (a2 & Ha2 & Hlen & ->). rewrite lookup_insert_eq.
    eexists. split; [done|]. by apply (cell_state Uninitialized (lamports a2)). }
  destruct Hs1 as (Hs1 & a1 & Ha1 & Hd1). pose proof (backed_add _ _ _ _ _ Hl H2 Hs1) as Hs2.
  apply ka_add_lamports_Ok in H2 as (b & Hb & _ & ->).
  apply ka_sub_lamports_Ok in H3 as (a2 & Ha2 & _ & ->). apply backed_insert; [|done].
  intros _ st Hst. cbn in Hst.
  assert (st = Uninitialized) as ->; [|done].
  apply lookup_insert_Some in Ha2 as [[Heq <-]|[_ Ha2]]; cbn in Hst; congruence.
Qed.

Lemma split_backed k k2 l signers (s s' : gmap nat Account) u :
  is_u64 l → lamports_ok s → (∀ a, s !! account k = Some a → owner a = id) →
  split k l k2 signers s = (s', Ok u) → backed s → backed s'.
Proof.
  intros Hl Hlam Ho Hrun Hs. unfold split in Hrun. acc_inv.
  match goal with H : ka_state StakeState k2 _ = (_, Ok ?x) |- _ =>
    apply backed_state_of in H as (-> & _ & b & Hb & Hbd & _); [|done]; destruct x; acc_inv end.
  match goal with H : ka_state StakeState k _ = (_, Ok ?x) |- _ =>
    apply backed_state_of in H as (-> & Hw & a & Ha & Had & Hba); [|done]; rename x into st end.
  specialize (Hba (Ho _ Ha)).
  assert (Hne : st ≠ Uninitialized → account k ≠ account k2) by (intros ? Heq; congruence).
  simplify_eq. bool_prop.
  match goal with
  | Hk : s !! account k = Some ?a0, Hk2 : s !! account k2 = Some ?b0, Hx : ?s4 !! account k = Some ?c0,
    Hm : match st with _ => _ end s = (?s4, _) |- _ =>
      rename a0 into a, b0 into b, Hk into Ha, Hk2 into Hb, Hm into Hmid, s4 into s1, c0 into a1, Hx into Ha1 end.
  pose proof (Hlam _ _ Ha) as Hla. pose proof (Hlam _ _ Hb) as Hlb. unfold is_u64 in Hla, Hlb, Hl.
  destruct st as [|meta|meta stake|]; acc_inv.
  - simplify_eq. eapply split_uninitialized_backed; try done. lia.
  - specialize (Hne ltac:(done)). simplify_eq. destruct Hba as [Hr1 Hr2].
    repeat match goal with H : Ok _ = split_funds_ok _ _ _ _ _ |- _ =>
      symmetry in H; apply split_funds_ok_spec in H as [Hf1 Hf2] end.
    match goal with H : length (data b) = _ |- _ => rename H into Hlen; rewrite Hlen in * end.
    pose proof (split_reserve_le (rent_exempt_reserve meta) _ (proj1 Hw) Hr2) as Hsr.
    change (Z.of_nat SIZE_OF_STAKE_STATE) with 200 in *.
    two_writes. eapply (split_tail_backed k k2 l a _ s);
      [done|done|done| |by rewrite lookup_insert_eq|done|done| | |].
    + by rewrite lookup_insert_ne by done.
    + intros i ? ?. by rewrite lookup_insert_ne by done.
    + intros Hl1 _ st' Hd'. cbn in Hd'. simplify_eq. cbn. split; [lia|done].
    + apply (cell_ok_write (Initialized _)); [|done|].
      * apply wf_with_reserve; [unfold is_u64; destruct Hw as [? _]; unfold is_u64 in *; lia|done].
      * intros _. rewrite Hlen. cbn. split; [unfold saturating_sub in *; lia|apply full_size_new].
  - specialize (Hne ltac:(done)). simplify_eq. pose proof Hba as (_ & Hr2 & _).
    repeat match goal with H : Ok _ = split_funds_ok _ _ _ _ _ |- _ =>
      symmetry in H; apply split_funds_ok_spec in H as [Hf1 Hf2] end.
    match goal with H : length (data b) = _ |- _ => rename H into Hlen; rewrite Hlen in * end.
    destruct Hw as [Hwm Hws]. pose proof (split_reserve_le (rent_exempt_reserve meta) _ (proj1 Hwm) Hr2) as Hsr.
    change (Z.of_nat SIZE_OF_STAKE_STATE) with 200 in *.
    match goal with H : context [let '(_, _) := ?c in _] |- _ => destruct c as [rem amount] eqn:Hif end.
    acc_inv. match goal with x : (Stake * Stake)%type |- _ => destruct x as [stake1 stake2] end. acc_inv.
    match goal with H : Stake_split _ _ _ = _ |- _ =>
      destruct (split_amounts_backed stake meta l _ (lamports b) (lamports a) (length (data a)) rem amount stake1 stake2
                  Hws Hwm ltac:(done) ltac:(lia) Hsr Hf1 Hf2 (eq_sym Hif) H Hba) as (Hw1 & Hw2 & Hb1 & Hb2) end.
    two_writes. eapply (split_tail_backed k k2 l _ _ s);
      [done|done|done| |by rewrite lookup_insert_eq|done|done| | |].
    + by rewrite lookup_insert_ne, lookup_insert_eq by done.
    + intros i ? ?. by rewrite !lookup_insert_ne by done.
    + intros Hl1. apply (cell_ok_write (StakeSt _ _)); [by split|done|]. intros _. cbn in Hl1. by apply Hb1.
    + apply (cell_ok_write (StakeSt _ _)); [|done|].
      * split; [|done]. apply wf_with_reserve; [|done]. destruct Hwm as [? _]. unfold is_u64 in *. lia.
      * intros _. by rewrite Hlen.
Qed.

(** ** Merge *)

(** What [get_if_mergeable] tells of the account it read. *)
Definition kind_of (kind : MergeKind) (st : StakeState) (l : Z) : Prop :=
  match kind with
  | Inactive m x => x = l ∧ (st = Initialized m ∨ ∃ stake, st = StakeSt m stake)
  | ActivationEpoch m stake | FullyActive m stake => st = StakeSt m stake
  end.

Lemma get_if_mergeable_spec k clock h (s s' : gmap nat Account) kind :
  get_if_mergeable k clock h s = (s', Ok kind) →
  s' = s ∧ ∃ a st, s !! account k = Some a ∧ deserialize (data a) = Some st ∧
    kind_of kind st (lamports a).
Proof.
  unfold get_if_mergeable. intros H. acc_inv.
  match goal with H : ka_state _ _ _ = _ |- _ => apply ka_state_Ok in H as (-> & a & Ha & Hd) end.
  match goal with x : StakeState |- _ => destruct x as [|m|m stake|]; acc_inv end.
  - simplify_eq. split; [done|]. eexists _, _. split_and!; [done..|]. by split; [|left].
  - destruct (stake_activating_and_deactivating _ _ _ _) as [[e act] de].
    repeat match goal with H : (if ?b then _ else _) _ = _ |- _ => destruct b end; acc_inv;
      simplify_eq; (split; [done|]); eexists _, _; (split_and!; [done..|]); try done.
    split; [done|]. right. by eexists.
Qed.

Lemma add_stake_spec st x st' :
  add_stake st x = Ok st' → wf_stake st → 0 <= x →
  wf_stake st' ∧ d_stake (delegation st') = d_stake (delegation st) + x ∧
  deactivation_epoch (delegation st') = deactivation_epoch (delegation st).
Proof.
  unfold add_stake. intros (y & [-> Hy]%checked_add_Ok & [= <-])%res_bind_Ok Hw Hx.
  split_and!; [|done..]. apply wf_with_d_stake; [done|]. destruct Hw as [(_ & [? ?] & _) _].
  unfold is_u64. lia.
Qed.

Lemma active_can_merge_max s1 s2 u :
  active_stakes_can_merge s1 s2 = Ok u → deactivation_epoch (delegation s2) = u64_max.
Proof.
  unfold active_stakes_can_merge, active_delegations_can_merge. intros (x & H & _)%res_bind_Ok.
  destruct (negb _); [done|]. unfold ensure in H. destruct (_ && _) eqn:E; [|done]. bool_prop. done.
Qed.

Lemma merged_state_backed k1 k2 clk st1 st2 l1 l2 len1 len2 st' :
  wf st1 → wf st2 → kind_of k1 st1 l1 → kind_of k2 st2 l2 → 0 <= l2 →
  backed_state st1 l1 len1 → backed_state st2 l2 len2 →
  MergeKind_merge k1 k2 clk = Ok (Some st') → wf st' ∧ backed_state st' (l1 + l2) len1.
Proof.
  intros Hw1 Hw2 Hk1 Hk2 Hl2 Hb1 Hb2 Hm. unfold MergeKind_merge in Hm.
  apply res_bind_Ok in Hm as ([] & _ & Hm). apply res_bind_Ok in Hm as ([] & Hact & Hm).
  destruct k1 as [m1 x1|m1 t1|m1 t1], k2 as [m2 x2|m2 t2|m2 t2]; cbn in Hk1, Hk2, Hact; try done;
    subst st1; destruct Hw1 as [Hwm1 Hws1], Hb1 as (Hr & Hlen & Hb1).
  - destruct Hk2 as [-> _]. apply res_bind_Ok in Hm as (t' & Ht & [= <-]).
    apply add_stake_spec in Ht as (Hw' & Hd & Hde); [|done..].
    split; [by split|]. cbn. split_and!; [lia|done|]. rewrite Hde, Hd. intros He. specialize (Hb1 He). lia.
  - subst st2. apply active_can_merge_max in Hact. destruct Hb2 as (Hr2 & _ & Hb2), Hw2 as [[[Hm2 _] _] [(_ & [Hd2 _] & _) _]].
    apply res_bind_Ok in Hm as (y & [-> _]%checked_add_Ok & Hm).
    apply res_bind_Ok in Hm as (t' & Ht & [= <-]). specialize (Hb2 Hact).
    apply add_stake_spec in Ht as (Hw' & Hd & Hde); [|done|lia].
    split; [by split|]. cbn. split_and!; [lia|done|]. rewrite Hde, Hd. intros He. specialize (Hb1 He). lia.
  - subst st2. apply active_can_merge_max in Hact. destruct Hb2 as (Hr2 & _ & Hb2), Hw2 as [[[Hm2 _] _] [(_ & [Hd2 _] & _) _]].
    apply res_bind_Ok in Hm as (t' & Ht & [= <-]). specialize (Hb2 Hact).
    apply add_stake_spec in Ht as (Hw' & Hd & Hde); [|done|lia].
    split; [by split|]. cbn. split_and!; [lia|done|]. rewrite Hde, Hd. intros He. specialize (Hb1 He). lia.
Qed.

(** The end of [merge]: clear the source and move all its lamports. *)
Lemma merge_tail_backed k k2 a b c (s0 s s1 s2 s' : gmap nat Account) u1 u2 u3 :
  ka_set_state k2 Uninitialized s = (s1, Ok u1) → s1 !! account k2 = Some c →
  ka_sub_lamports k2 (lamports c) s1 = (s2, Ok u2) → ka_add_lamports k (lamports c) s2 = (s', Ok u3) →
  s !! account k = Some a → s !! account k2 = Some b → account k ≠ account k2 →
  backed s0 → (∀ i, i ≠ account k → i ≠ account k2 → s !! i = s0 !! i) →
  cell_ok (set_lamports (lamports a + lamports b) a) → backed s'.
Proof.
  intros H1 Hc H2 H3 Ha Hb Hne Hs Hrest Hca. two_writes.
  apply ka_sub_lamports_Ok in H2 as (c & Hc & _ & ->). rewrite lookup_insert_eq in Hc. simplify_eq.
  apply ka_add_lamports_Ok in H3 as (a1 & Ha1 & _ & ->). rewrite !lookup_insert_ne in Ha1 by done. simplify_eq.
  eapply (backed_two s0 _ (account k) (account k2)); [done| |exact Hca| | |].
  - by rewrite lookup_insert_eq.
  - by rewrite lookup_insert_ne, lookup_insert_eq by done.
  - by apply (cell_ok_write Uninitialized).
  - intros i ? ?. rewrite !lookup_insert_ne by done. by apply Hrest.
Qed.

Lemma merge_backed k k2 clock h signers b (s s' : gmap nat Account) u :
  lamports_ok s → (∀ a, s !! account k = Some a → owner a = id) →
  (account k2 = account k → key k2 = key k) →
  merge k k2 clock h signers b s = (s', Ok u) → backed s → backed s'.
Proof.
  intros Hlam Ho Hkey Hrun Hs. unfold merge in Hrun. acc_inv.
  match goal with H1 : get_if_mergeable k _ _ _ = _, H2 : get_if_mergeable k2 _ _ _ = _ |- _ =>
    apply get_if_mergeable_spec in H1 as (-> & a & st1 & Ha & Hd1 & Hk1);
    apply get_if_mergeable_spec in H2 as (-> & b' & st2 & Hb & Hd2 & Hk2) end.
  bool_prop. simplify_eq.
  match goal with H : s !! account k2 = Some ?x |- _ => rename x into b', H into Hb end.
  assert (Hne : account k ≠ account k2) by (intros Heq; unfold unsigned_key in *; symmetry in Heq; naive_solver).
  match goal with H : Ok ?m = MergeKind_merge _ _ _ |- _ => symmetry in H; rename H into Hm; destruct m as [st'|] end.
  - pose proof (merged_state_backed _ _ _ _ _ _ _ (length (data a)) (length (data b')) _ (deserialize_wf _ _ Hd1) (deserialize_wf _ _ Hd2) Hk1 Hk2
      (proj1 (Hlam _ _ Hb)) (Hs _ _ Ha (Ho _ Ha) _ Hd1) (Hs _ _ Hb ltac:(done) _ Hd2) Hm) as [Hw' Hb'].
    match goal with H : ka_set_state k st' _ = _ |- _ => apply ka_set_state_Ok in H as (a0 & Ha0 & Hlen & ->) end.
    simplify_eq. eapply (merge_tail_backed k k2 _ b' _ s); [done..| | |done|done| |].
    + by rewrite lookup_insert_eq.
    + by rewrite lookup_insert_ne by done.
    + intros i ? ?. by rewrite lookup_insert_ne by done.
    + by apply (cell_ok_write st').
  - acc_inv. eapply (merge_tail_backed k k2 a b'); try done.
    apply cell_ok_lamports; [|by apply (Hs _ _ Ha)]. pose proof (proj1 (Hlam _ _ Hb)). lia.
Qed.
End inv.

(** ** Decidability and concrete codecs *)

#[export] Instance wf_f64_dec x : Decision (wf_f64 x).
Proof. unfold wf_f64. apply _. Defined.
#[export] Instance wf_authorized_dec a : Decision (wf_authorized a).
Proof. unfold wf_authorized. apply _. Defined.
#[export] Instance wf_lockup_dec' l : Decision (wf_lockup l).
Proof. unfold wf_lockup. apply _. Defined.
#[export] Instance wf_meta_dec m : Decision (wf_meta m).
Proof. unfold wf_meta. apply _. Defined.
#[export] Instance wf_stake_dec s : Decision (wf_stake s).
Proof. unfold wf_stake, wf_delegation. apply _. Defined.
#[export] Instance wf_StakeState_dec (st : StakeState) : Decision (wf st).
Proof. destruct st; cbn; apply _. Defined.
#[export] Instance wf_Config_dec (c : Config) : Decision (wf c).
Proof. unfold wf, wf_Config. apply _. Defined.
#[export] Instance wf_opt_dec {A} (P : A → Prop) `{!∀ x, Decision (P x)} o : Decision (wf_opt P o).
Proof. destruct o; cbn; apply _. Defined.
#[export] Instance wf_StakeInstruction_dec (i : StakeInstruction) : Decision (wf i).
Proof. destruct i; cbn; apply _. Defined.

#[export] Instance backed_state_dec st l len : Decision (backed_state st l len).
Proof. destruct st; cbn; apply _. Defined.

#[export] Instance cell_ok_dec `{!Codec StakeState} a : Decision (cell_ok a).
Proof.
  refine (dec_iff (P := owner a = id → match deserialize (data a) with
    | Some st => backed_state st (lamports a) (length (data a)) | None => True end) _ _).
  abstract (unfold cell_ok; destruct (deserialize (data a)); naive_solver).
Defined.

(** A float as five numbers and back. *)
Definition f64_list (x : f64) : list Z :=
  match x with
  | S754_zero s => [0; Z.b2z s; 0; 0]
  | S754_infinity s => [1; Z.b2z s; 0; 0]
  | S754_nan => [2; 0; 0; 0]
  | S754_finite s m e => [3; Z.b2z s; Z.pos m; e]
  end.
Definition f64_unlist (t s m e : Z) : f64 :=
  if t =? 0 then S754_zero (s =? 1)
  else if t =? 1 then S754_infinity (s =? 1)
  else if t =? 2 then S754_nan
  else S754_finite (s =? 1) (Z.to_pos m) e.

Definition meta_list (m : Meta) : list Z :=
  [rent_exempt_reserve m; staker (authorized m); withdrawer (authorized m);
   lk_unix_timestamp (lockup m); lk_epoch (lockup m); lk_custodian (lockup m)].
Definition stake_list (s : Stake) : list Z :=
  let d := delegation s in
  [voter_pubkey d; d_stake d; activation_epoch d; deactivation_epoch d; credits_observed s] ++
  f64_list (warmup_cooldown_rate d).

Definition state_list (st : StakeState) : list Z :=
  match st with
  | Uninitialized => [0]
  | Initialized m => 1 :: meta_list m
  | StakeSt m s => 2 :: meta_list m ++ stake_list s
  | RewardsPool => [3]
  end.
Definition state_unlist (l : list Z) : option StakeState :=
  match l with
  | [0] => Some Uninitialized
  | [1; r; a; w; u; e; c] => Some (Initialized (mkMeta r (mkAuthorized a w) (mkLockup u e c)))
  | [2; r; a; w; u; e; c; v; s; ae; de; co; ft; fs; fm; fe] =>
      Some (StakeSt (mkMeta r (mkAuthorized a w) (mkLockup u e c))
              (mkStake (mkDelegation v s ae de (f64_unlist ft fs fm fe)) co))
  | [3] => Some RewardsPool
  | _ => None
  end.

#[export] Instance StakeState_serial : Serial StakeState.
Proof.
  refine (inj_serial state_list state_unlist _).
  abstract (intros [|[r [a w] [u e c]]|[r [a w] [u e c]] [[v s ae de [[]|[]| |[] m ex]] co]|]; reflexivity).
Defined.

Definition config_unlist (l : list Z) : option Config :=
  match l with
  | [ft; fs; fm; fe; p] => Some (mkConfig (f64_unlist ft fs fm fe) p)
  | _ => None
  end.
#[export] Instance Config_serial : Serial Config.
Proof.
  refine (inj_serial (λ c, f64_list (cfg_warmup_cooldown_rate c) ++ [slash_penalty c]) config_unlist _).
  abstract (intros [[[]|[]| |[] m ex] p]; reflexivity).
Defined.

#[export] Instance StakeHistoryEntry_serial : Serial StakeHistoryEntry.
Proof.
  refine (inj_serial' (λ h, (sh_effective h, sh_activating h, sh_deactivating h))
            (λ '(e, a, d), mkStakeHistoryEntry e a d) _).
  abstract (by intros []).
Defined.

Definition sa_of (b : bool) : StakeAuthorize := if b then Staker else Withdrawer.
Definition of_sa (a : StakeAuthorize) : bool := match a with Staker => true | Withdrawer => false end.

#[export] Instance StakeInstruction_serial : Serial StakeInstruction.
Proof.
  refine (inj_serial'
    (λ i, match i with
     | Initialize (mkAuthorized s w) (mkLockup u e c) => inl (inl (inl (inl (s, w, u, e, c))))
     | Authorize p a => inl (inl (inl (inr (p, of_sa a))))
     | DelegateStake => inl (inl (inr 0))
     | Deactivate => inl (inl (inr 1))
     | Merge => inl (inl (inr 2))
     | InitializeChecked => inl (inl (inr 3))
     | Split l => inl (inr (inl (inl l)))
     | Withdraw l => inl (inr (inl (inr l)))
     | SetLockup (mkLockupArgs u e c) => inl (inr (inr (u, e, c)))
     | AuthorizeWithSeed (mkAuthorizeWithSeedArgs p a sd o) => inr (inl (inl (p, of_sa a, sd, o)))
     | AuthorizeChecked a => inr (inl (inr (of_sa a)))
     | AuthorizeCheckedWithSeed (mkAuthorizeCheckedWithSeedArgs a sd o) => inr (inr (inl (of_sa a, sd, o)))
     | SetLockupChecked (mkLockupCheckedArgs u e) => inr (inr (inr (u, e)))
     end)
    (λ x, match x with
     | inl (inl (inl (inl (s, w, u, e, c)))) => Initialize (mkAuthorized s w) (mkLockup u e c)
     | inl (inl (inl (inr (p, a)))) => Authorize p (sa_of a)
     | inl (inl (inr n)) =>
         if n =? 0 then DelegateStake else if n =? 1 then Deactivate else if n =? 2 then Merge
         else InitializeChecked
     | inl (inr (inl (inl l))) => Split l
     | inl (inr (inl (inr l))) => Withdraw l
     | inl (inr (inr (u, e, c))) => SetLockup (mkLockupArgs u e c)
     | inr (inl (inl (p, a, sd, o))) => AuthorizeWithSeed (mkAuthorizeWithSeedArgs p (sa_of a) sd o)
     | inr (inl (inr a)) => AuthorizeChecked (sa_of a)
     | inr (inr (inl (a, sd, o))) => AuthorizeCheckedWithSeed (mkAuthorizeCheckedWithSeedArgs (sa_of a) sd o)
     | inr (inr (inr (u, e))) => SetLockupChecked (mkLockupCheckedArgs u e)
     end) _).
  abstract (by intros [[] []|? []| | | | |[]| |[? [] ? ?]| |[]|[[] ? ?]|[]]).
Defined.
End stake_inv.
