(* ===== verification/StakeSafety.v ===== *)
(** * Safety of the stake program

    Over every instruction: delegations stay backed, lamports are conserved,
    and what leaves a stake account leaves under the right authority.  Then the
    one way to break the backing, through [can_reverse_deactivation]. *)

From S2P Require Import Prelude F64 Account Serial Features BTreeMap Sysvar SysvarProps VoteState VoteTower.
From S2P Require Import VoteProps VoteWf Stake StakeProps Config StakeProgram StakeInv.

Module stake_safety.
Import stake stake_program stake_inv.

Section properties.
Context `{!Codec StakeState, !Codec VoteStateVersions, !Codec Clock, !Codec Rent,
          !Codec (list (Z * StakeHistoryEntry)), !Codec Config, !Codec (list (Z * bool)),
          !Codec StakeInstruction, !Sha256}.

(** ** Lamports *)

Ltac state_inv :=
  repeat match goal with
  | H : ka_state _ _ _ = (_, Ok _) |- _ => apply ka_state_Ok in H as (-> & ? & ? & ?)
  | H : get_if_mergeable _ _ _ _ = (_, Ok _) |- _ =>
      apply get_if_mergeable_spec in H as (-> & ? & ? & ? & ? & ?)
  end.

Lemma set_total k (x : StakeState) (s s' : gmap nat Account) u :
  ka_set_state k x s = (s', Ok u) → total_lamports s' = total_lamports s.
Proof. apply ka_set_state_total. Qed.

Ltac one_state Hrun :=
  acc_inv; match goal with x : StakeState |- _ => destruct x end; acc_inv; state_inv;
  by apply set_total in Hrun.

Lemma initialize_total k auth lk rent (s s' : gmap nat Account) u :
  initialize k auth lk rent s = (s', Ok u) → total_lamports s' = total_lamports s.
Proof.
  unfold initialize. intros Hrun. acc_inv. match goal with x : StakeState |- _ => destruct x end; acc_inv.
  state_inv. match goal with H : (if ?b then _ else _) _ = _ |- _ => destruct b end; acc_inv.
  by apply set_total in Hrun.
Qed.

Lemma authorize_total k signers p sa req c cust (s s' : gmap nat Account) u :
  authorize k signers p sa req c cust s = (s', Ok u) → total_lamports s' = total_lamports s.
Proof. unfold authorize. intros Hrun. one_state Hrun. Qed.

Lemma authorize_with_seed_total k base seed o p sa req c cust (s s' : gmap nat Account) u :
  authorize_with_seed k base seed o p sa req c cust s = (s', Ok u) →
  total_lamports s' = total_lamports s.
Proof.
  unfold authorize_with_seed. intros (s1 & sg & H1 & Hr)%st_bind_Ok. apply authorize_total in Hr as ->.
  by destruct (signer_key base); acc_inv.
Qed.

Lemma delegate_total k vote clock h cfg signers b (s s' : gmap nat Account) u :
  delegate k vote clock h cfg signers b s = (s', Ok u) → total_lamports s' = total_lamports s.
Proof. unfold delegate. intros Hrun. one_state Hrun. Qed.

Lemma deactivate_total k clock signers (s s' : gmap nat Account) u :
  deactivate k clock signers s = (s', Ok u) → total_lamports s' = total_lamports s.
Proof. unfold deactivate. intros Hrun. one_state Hrun. Qed.

Lemma set_lockup_total k args signers clock (s s' : gmap nat Account) u :
  set_lockup k args signers clock s = (s', Ok u) → total_lamports s' = total_lamports s.
Proof. unfold set_lockup. intros Hrun. one_state Hrun. Qed.

(** Crediting first and debiting after also conserves. *)
Lemma transfer_total_rev k1 k2 l (s1 s2 s3 : gmap nat Account) x y :
  ka_add_lamports k2 l s1 = (s2, Ok x) → ka_sub_lamports k1 l s2 = (s3, Ok y) →
  total_lamports s3 = total_lamports s1.
Proof.
  intros (a & Ha & _ & ->)%ka_add_lamports_Ok (b & Hb & _ & ->)%ka_sub_lamports_Ok.
  rewrite (total_lamports_insert _ _ _ _ Hb), (total_lamports_insert _ _ _ _ Ha). cbn. lia.
Qed.

Lemma clear_total k b (s s' : gmap nat Account) u :
  (if b : bool then ka_set_state k Uninitialized else mret tt) s = (s', Ok u) →
  total_lamports s' = total_lamports s.
Proof. destruct b; intros Hr; [by apply set_total in Hr|by acc_inv]. Qed.

Lemma stake_withdraw_total k l to clock h auth cust prevent (s s' : gmap nat Account) u :
  withdraw k l to clock h auth cust prevent s = (s', Ok u) → total_lamports s' = total_lamports s.
Proof.
  unfold withdraw. intros Hrun. acc_inv. state_inv.
  match goal with x : (Lockup * Z * bool)%type |- _ => destruct x as [[lk r] staked] end. acc_inv.
  rewrite (transfer_total _ _ _ _ _ _ _ _ ltac:(eassumption) ltac:(eassumption)).
  match goal with H : (if ?b then ka_set_state _ _ else _) _ = _ |- _ => apply clear_total in H as -> end.
  match goal with H : (if ?b then _ else _) _ = _ |- _ => destruct b; [destruct staked|]; by acc_inv end.
Qed.

Lemma split_total k l k2 signers (s s' : gmap nat Account) u :
  split k l k2 signers s = (s', Ok u) → total_lamports s' = total_lamports s.
Proof.
  unfold split. intros Hrun. acc_inv. match goal with x : StakeState |- _ => destruct x end; acc_inv. state_inv.
  rewrite (transfer_total_rev _ _ _ _ _ _ _ _ ltac:(eassumption) ltac:(eassumption)).
  match goal with H : (if _ then ka_set_state _ _ else _) _ = _ |- _ => apply clear_total in H as -> end.
  match goal with x : StakeState |- _ => destruct x end; acc_inv; [done|by eapply set_total|].
  match goal with H : context [let '(_, _) := ?c in _] |- _ => destruct c end. acc_inv.
  match goal with x : (Stake * Stake)%type |- _ => destruct x end. acc_inv.
  repeat match goal with H : ka_set_state _ _ _ = _ |- _ => apply set_total in H end. congruence.
Qed.

Lemma merge_total k k2 clock h signers b (s s' : gmap nat Account) u :
  merge k k2 clock h signers b s = (s', Ok u) → total_lamports s' = total_lamports s.
Proof.
  unfold merge. intros Hrun. acc_inv. state_inv.
  rewrite (transfer_total _ _ _ _ _ _ _ _ ltac:(eassumption) ltac:(eassumption)).
  match goal with H : ka_set_state k2 _ _ = _ |- _ => apply set_total in H as -> end.
  match goal with H : match ?m with Some _ => _ | None => _ end _ = _ |- _ => destruct m end; acc_inv;
    [by eapply set_total|done].
Qed.

(** ** Dispatch *)

Lemma config_from_same k (s s' : gmap nat Account) c :
  config_from_keyed_account k s = (s', Ok c) → s' = s.
Proof. unfold config_from_keyed_account. intros Hr. by acc_inv. Qed.

Ltac sysvar_same :=
  repeat match goal with
  | H : from_keyed_account _ _ _ = (_, Ok _) |- _ => apply from_keyed_account_same in H as ->
  | H : config_from_keyed_account _ _ = (_, Ok _) |- _ => apply config_from_same in H as ->
  end.

(** Opens a successful run up to the handler. *)
Ltac dispatch_inv Hrun :=
  unfold process_instruction in Hrun; acc_inv;
  match goal with H : Ok ?i = limited_deserialize _ |- _ => symmetry in H; destruct i end;
  acc_inv;
  repeat match goal with H : (if is_feature_active ?ic ?f then _ else _) _ = (_, Ok _) |- _ =>
    destruct (is_feature_active ic f) eqn:?; acc_inv end.

(** The stake program conserves lamports: after every successful
    instruction the total over all accounts is what it was, whatever accounts
    alias. *)
Theorem stake_lamports_conserved ic d (s s' : gmap nat Account) u :
  process_instruction ic d s = (s', Ok u) → total_lamports s' = total_lamports s.
Proof.
  intros Hrun. dispatch_inv Hrun; sysvar_same;
    try (match goal with H : match at_index_ok ?l ?i with _ => _ end _ = _ |- _ =>
           destruct (at_index_ok l i) end; acc_inv);
    eauto using initialize_total, authorize_total, authorize_with_seed_total, delegate_total,
      split_total, merge_total, stake_withdraw_total, deactivate_total, set_lockup_total.
Qed.

(** ** Withdrawals *)

(** The part of a delegation that may not be withdrawn at an epoch. *)
Definition locked_stake (stake : Stake) (clock : Clock) (h : list (Z * StakeHistoryEntry)) : Z :=
  if deactivation_epoch (delegation stake) <=? clock_epoch clock
  then Delegation_stake (delegation stake) (clock_epoch clock) (Some h) true
  else d_stake (delegation stake).

Lemma locked_stake_nonneg stake clock h : wf_stake stake → 0 <= locked_stake stake clock h.
Proof.
  intros [(_ & Hd & _) _]. unfold locked_stake. destruct (_ <=? _); [|apply Hd].
  pose proof (stake_props.parts_bounds (delegation stake) (clock_epoch clock) (Some h) true Hd) as Hp.
  unfold Delegation_stake. destruct (stake_activating_and_deactivating _ _ _ _) as [[? ?] ?]. apply Hp.
Qed.

Lemma StakeState_cases st meta :
  StakeState_meta st = Some meta → st = Initialized meta ∨ ∃ stake, st = StakeSt meta stake.
Proof. destruct st; cbn; intros; simplify_eq; eauto. Qed.

Lemma in_force_custodian lk clock cust :
  is_in_force lk clock cust = false →
  is_in_force lk clock None = false ∨ cust = Some (lk_custodian lk).
Proof.
  unfold is_in_force. case_bool_decide; [by right|]. intros Hf. left. by rewrite bool_decide_eq_false_2.
Qed.

Lemma check_withdrawer a p u : check a [p] Withdrawer = Ok u → p = withdrawer a.
Proof.
  cbn. unfold ensure. case_bool_decide as Hin; [|done]. by apply list_elem_of_singleton in Hin.
Qed.

Lemma withdraw_reserve_spec self st clock h p prevent lk r staked meta :
  withdraw_reserve self st clock h [p] prevent = Ok (lk, r, staked) →
  StakeState_meta st = Some meta →
  lk = lockup meta ∧ p = withdrawer (authorized meta) ∧
  match st with
  | StakeSt _ stake => r = locked_stake stake clock h + rent_exempt_reserve meta ∧
                       staked = negb (locked_stake stake clock h =? 0)
  | _ => rent_exempt_reserve meta <= r ∧ staked = false
  end.
Proof.
  intros Hr Hm. destruct st as [|m|m stake|]; cbn in Hm; simplify_eq; cbn [withdraw_reserve] in Hr.
  - apply res_bind_Ok in Hr as (x & Hx%check_withdrawer & Hr).
    apply res_bind_Ok in Hr as (r' & Hr' & Hr). injection Hr as <- <- <-. split_and!; [done..| |done].
    destruct prevent; [apply checked_add_Ok in Hr' as [-> _]; lia|injection Hr' as ->; lia].
  - apply res_bind_Ok in Hr as (x & Hx%check_withdrawer & Hr).
    apply res_bind_Ok in Hr as (r' & Hr' & Hr). injection Hr as <- <- <-.
    apply checked_add_Ok in Hr' as [-> _]. by split_and!.
Qed.

(** A withdrawal from an initialized or delegated stake account needs the
    withdraw authority's signature and, while the lockup is in force, the
    custodian's; it takes no more than the balance; the locked stake and the
    reserve stay; and if nothing is locked, either everything goes or the
    reserve stays. *)
Theorem stake_withdraw_guard k l to clock h auth cust prevent (s s' : gmap nat Account) u a st meta :
  withdraw k l to clock h auth cust prevent s = (s', Ok u) →
  s !! account k = Some a → deserialize (data a) = Some st → StakeState_meta st = Some meta →
  wf st →
  signer_key auth = Some (withdrawer (authorized meta)) ∧
  (is_in_force (lockup meta) clock None = false ∨
   ∃ c, cust = Some c ∧ signer_key c = Some (lk_custodian (lockup meta))) ∧
  l <= lamports a ∧
  (l = lamports a ∨ rent_exempt_reserve meta <= lamports a - l) ∧
  (∀ stake, st = StakeSt meta stake → locked_stake stake clock h ≠ 0 →
     locked_stake stake clock h + rent_exempt_reserve meta <= lamports a - l).
Proof.
  intros Hrun Ha Hd Hm Hw. unfold withdraw in Hrun. acc_inv. state_inv.
  match goal with x : (Lockup * Z * bool)%type |- _ => destruct x as [[lk r] staked] end. acc_inv.
  match goal with H : Ok _ = withdraw_reserve _ _ _ _ _ _ |- _ => symmetry in H; rename H into Hr end.
  match goal with H : Ok _ = checked_add _ _ |- _ => symmetry in H; apply checked_add_Ok in H as [-> _] end.
  simplify_eq. apply (withdraw_reserve_spec _ _ _ _ _ _ _ _ _ meta) in Hr as (-> & -> & Hst); [|done].
  match goal with H : s !! account k = Some ?x |- _ => rename x into a, H into Ha end.
  match goal with H : ka_sub_lamports _ _ _ = _ |- _ => apply ka_sub_lamports_Ok in H as (b & Hb & Hlb & _) end.
  assert (Hc1 : l = lamports a ∨ l + r <= lamports a).
  { match goal with H : (if negb (l =? _) && _ then _ else _) _ = _ |- _ => rename H into Hif end.
    destruct (Z.eqb_spec l (lamports a)); [by left|]. right. cbn in Hif.
    destruct (Z.ltb_spec (lamports a) (l + r)); [destruct (negb staked); by acc_inv|done]. }
  match goal with H : (if ?b then if negb staked then _ else _ else _) ?s0 = (?s1, _) |- _ =>
    assert (s1 = s0) as -> by (destruct b; [destruct staked|]; by acc_inv) end.
  assert (Hc2 : staked = true → l + r <= lamports a) by (intros ->; cbn in *; bool_prop; done).
  split_and!; [done| | | |].
  - bool_prop. match goal with H : is_in_force _ _ _ = false |- _ => apply in_force_custodian in H as [?|Hc] end; [by left|].
    right. apply bind_Some in Hc as (c & -> & Hc). by exists c.
  - match goal with H : (if l =? _ then _ else _) _ = _ |- _ => destruct (Z.eqb_spec l (lamports a)); [lia|acc_inv] end.
    by simplify_eq.
  - destruct Hc1 as [?|Hc1]; [by left|right]. destruct (StakeState_cases _ _ Hm) as [->|[stake ->]].
    + cbn in Hst. lia.
    + destruct Hst as [-> _]. pose proof (locked_stake_nonneg stake clock h (proj2 Hw)). lia.
  - intros stake -> Hne. destruct Hst as [-> ->]. destruct (Z.eqb_spec (locked_stake stake clock h) 0); [done|].
    specialize (Hc2 eq_refl). lia.
Qed.

(** ** Backing *)

Context `{!CodecOk StakeState, !CodecOk VoteStateVersions, !CodecOk Clock, !CodecOk Config,
          !CodecOk StakeInstruction}.

(** The keyed accounts of a frame name each cell by one key. *)
Definition one_key (ks : list KeyedAccount) : Prop :=
  Forall (λ k1, Forall (λ k2, account k1 = account k2 → key k1 = key k2) ks) ks.

(** The clock has not reached the last epoch, which stands for "never". *)
Definition clock_ok (ks : list KeyedAccount) (s : gmap nat Account) : Prop :=
  Forall (λ k, match (from_keyed_account Clock k s).2 with
               | Ok c => clock_epoch c <? u64_max
               | _ => true
               end = true) ks.

Lemma one_key_spec ks i j k1 k2 :
  one_key ks → ks !! i = Some k1 → ks !! j = Some k2 → account k1 = account k2 → key k1 = key k2.
Proof.
  unfold one_key. intros Hone H1 H2. rewrite Forall_lookup in Hone. specialize (Hone i k1 H1).
  rewrite Forall_lookup in Hone. by apply (Hone j).
Qed.

Lemma clock_ok_spec ks (s s' : gmap nat Account) i k c :
  clock_ok ks s → from_keyed_account Clock k s = (s', Ok c) → ks !! i = Some k → clock_epoch c < u64_max.
Proof.
  intros Hc Hr Hi. pose proof (proj1 (Forall_lookup _ _) Hc i k Hi) as Hk. cbv beta in Hk.
  rewrite Hr in Hk. by apply Z.ltb_lt.
Qed.

Lemma config_from_wf k (s s' : gmap nat Account) c :
  config_from_keyed_account k s = (s', Ok c) → s' = s ∧ wf c.
Proof.
  unfold config_from_keyed_account. intros Hr. acc_inv. split; [done|].
  match goal with H : _ ≫= deserialize = Some _ |- _ => apply bind_Some in H as (d & _ & H);
    by eapply deserialize_wf end.
Qed.

Lemma index_key ks i k : keys_ok ks → ks !! i = Some k → is_key (key k).
Proof. intros Hk Hi. by eapply (proj1 (Forall_lookup _ _) Hk). Qed.

Lemma signer_index_key ks i k p : signer_key k = Some p → keys_ok ks → ks !! i = Some k → is_key p.
Proof. intros (_ & <-)%signer_key_Some Hk Hi. by eapply index_key. Qed.

Lemma wf_Lockup_default : wf_lockup Lockup_default.
Proof. split; [done|]. split; [apply is_u64_0|apply is_key_0]. Qed.

Ltac sysvar_wf :=
  repeat match goal with
  | H : from_keyed_account Clock _ _ = (?s', Ok _) |- _ =>
      let H' := fresh in pose proof H as H'; apply from_keyed_account_wf in H' as [? ?]; subst s';
      revert H
  | H : from_keyed_account _ _ _ = (_, Ok _) |- _ => apply from_keyed_account_same in H as ->
  | H : config_from_keyed_account _ _ = (_, Ok _) |- _ => apply config_from_wf in H as [-> ?]
  end; intros.

(** C9. Delegations stay backed.  As long as deactivation cannot be reversed
    ([stake_program_v4] off) and the clock is before the last epoch, every
    successful instruction on accounts with [u64] balances, each under one key,
    keeps, on every account of the stake program that holds an initialized or
    delegated stake: the balance covers the rent reserve, a delegation that has
    not been deactivated is covered by the balance above the reserve, and the
    account has at least the 200 bytes of the state (and at most 10 MiB).  The
    size is part of what must hold before: splitting an account that is
    shorter gives the new one a larger reserve than its source's. *)
Theorem stake_accounts_backed ic d (s s' : gmap nat Account) u :
  is_feature_active ic feature_set.stake_program_v4 = false →
  keys_ok (get_keyed_accounts ic) → one_key (get_keyed_accounts ic) →
  clock_ok (get_keyed_accounts ic) s → lamports_ok s → backed s →
  process_instruction ic d s = (s', Ok u) → backed s'.
Proof.
  intros Hv4 Hkeys Hone Hclk Hlam Hs Hrun. unfold process_instruction in Hrun. rewrite Hv4 in Hrun. acc_inv.
  match goal with H : get_keyed_accounts ic !! 0%nat = Some ?m |- _ => rename m into me, H into Hme end.
  match goal with H : Ok ?i = limited_deserialize _ |- _ => symmetry in H; apply limited_deserialize_wf in H;
    rename H into Hwi; rename i into ins end.
  assert (Hown : ∀ a, s !! account me = Some a → owner a = id).
  { intros a Ha. bool_prop. by simplify_eq. }
  destruct ins; acc_inv; sysvar_wf;
  repeat (match goal with H : (if is_feature_active ?ic ?f then _ else _) _ = (_, Ok _) |- _ =>
    destruct (is_feature_active ic f) end; acc_inv; sysvar_wf).
  - destruct Hwi. by eapply initialize_backed.
  - by eapply authorize_backed.
  - by eapply authorize_backed.
  - eapply delegate_backed; [|done..]. by eapply index_key.
  - by eapply split_backed.
  - eapply withdraw_backed; [apply Hwi| |done..]. by eapply clock_ok_spec.
  - by eapply deactivate_backed.
  - by eapply set_lockup_backed.
  - eapply merge_backed; [done|done| |done..]. by eapply one_key_spec.
  - destruct Hwi. by eapply authorize_with_seed_backed; [|exact Hrun|].
  - destruct Hwi. by eapply authorize_with_seed_backed; [|exact Hrun|].
  - eapply initialize_backed; [|apply wf_Lockup_default|done..].
    split; cbn; [by eapply index_key|by eapply signer_index_key].
  - eapply authorize_backed; [by eapply signer_index_key|done..].
  - eapply authorize_with_seed_backed; [by eapply signer_index_key|done..].
  - match goal with H : match at_index_ok ?l ?i with _ => _ end _ = _ |- _ =>
      destruct (at_index_ok l i) eqn:Ei end; acc_inv.
    + eapply set_lockup_backed; [|done..]. destruct Hwi. split_and!; cbn; [done..|by eapply signer_index_key].
    + eapply set_lockup_backed; [|done..]. destruct Hwi. by split_and!.
Qed.
End properties.

(** ** A concrete stake account

    Key 10 holds 100 staked lamports and a reserve of 50, delegated to vote
    account 20 at epoch 3; at epoch 4 the history lets 62 of them be effective. *)

Module example.
#[export] Instance wf_history : Wf (list (Z * StakeHistoryEntry)) := λ _, True.
#[export] Instance wf_keys : Wf (list (Z * bool)) := λ _, True.
#[export] Instance state_codec : Codec StakeState := serial_codec _.
#[export] Instance versions_codec : Codec VoteStateVersions := serial_codec _.
#[export] Instance clock_codec : Codec Clock := serial_codec _.
#[export] Instance history_codec : Codec (list (Z * StakeHistoryEntry)) := serial_codec _.
#[export] Instance config_codec : Codec Config := serial_codec _.
#[export] Instance keys_codec : Codec (list (Z * bool)) := serial_codec _.
#[export] Instance instruction_codec : Codec StakeInstruction := serial_codec _.
#[export] Instance rent_codec : Codec Rent := Build_Codec Rent (λ _, []) (λ l, Some (Rent_default, l)).
#[export] Instance sha : Sha256 := λ _, 0.
#[export] Instance state_ok : CodecOk StakeState := serial_codec_ok _.
#[export] Instance versions_ok : CodecOk VoteStateVersions := serial_codec_ok _.
#[export] Instance clock_codec_ok : CodecOk Clock := serial_codec_ok _.
#[export] Instance config_ok : CodecOk Config := serial_codec_ok _.
#[export] Instance instruction_ok : CodecOk StakeInstruction := serial_codec_ok _.

Definition clock : Clock := mkClock 70 0 4 5 100.
Definition meta : Meta := mkMeta 50 (mkAuthorized 11 12) Lockup_default.
Definition stake0 : Stake :=
  mkStake (Delegation_new 20 100 3 DEFAULT_WARMUP_COOLDOWN_RATE) 0.
Definition pad (n : nat) (l : list Byte.byte) : list Byte.byte := l ++ replicate (n - length l) Byte.x00.

Definition config_data : list Byte.byte := bincode_ser (@nil (Z * bool)) ++ bincode_ser Config_default.

Definition store : gmap nat Account :=
  {[ 0%nat := mkAccount 150 (pad 200 (bincode_ser (StakeSt meta stake0))) id false 0;
     1%nat := mkAccount 1 (bincode_ser (Current VoteState_default)) vote_program_id false 0;
     2%nat := mkAccount 1 (bincode_ser clock) 0 false 0;
     3%nat := mkAccount 1 (bincode_ser [(3, mkStakeHistoryEntry 1000 400 0)]) 0 false 0;
     4%nat := mkAccount 1 config_data 0 false 0;
     5%nat := mkAccount 1 [] 0 false 0;
     6%nat := mkAccount 0 (pad 200 (bincode_ser Uninitialized)) id false 0 ]}.

Definition stake_ka := mkKeyed false true 10 0.
Definition vote_ka := mkKeyed false false 20 1.
Definition clock_ka := mkKeyed false false sysvar_clock_id 2.
Definition history_ka := mkKeyed false false sysvar_stake_history_id 3.
Definition config_ka := mkKeyed false false stake_config_id 4.
Definition to_ka := mkKeyed false true 30 5.
Definition split_ka := mkKeyed false true 40 6.
Definition staker_ka := mkKeyed true false 11 7.
Definition withdrawer_ka := mkKeyed true false 12 8.

Definition ctx (v4 : bool) (ks : list KeyedAccount) : InvokeContext :=
  mkInvokeContext ks (λ f, v4 || negb (f =? feature_set.stake_program_v4)) (λ _, None).

Definition run (v4 : bool) (ks : list KeyedAccount) (i : StakeInstruction) (s : gmap nat Account) :=
  process_instruction (ctx v4 ks) (bincode_ser i) s.

Definition stake_at (s : gmap nat Account) : option (Z * option Stake) :=
  a ← s !! 0%nat; st ← deserialize (data a); Some (lamports a, StakeState_stake st).

Lemma store_backed : backed store.
Proof. apply (bool_decide_unpack (map_Forall (λ _ a, cell_ok a) store)). vm_compute. exact I. Qed.

Lemma store_lamports : lamports_ok store.
Proof.
  apply (bool_decide_unpack (map_Forall (λ _ a, is_u64 (lamports a)) store)). vm_compute. exact I.
Qed.

Definition split_ks : list KeyedAccount := [stake_ka; split_ka; staker_ka].

Lemma stake_accounts_backed_witness :
  (run false split_ks (Split 60) store).2 = Ok tt ∧ backed (run false split_ks (Split 60) store).1.
Proof.
  assert (H : (run false split_ks (Split 60) store).2 = Ok tt) by (vm_compute; reflexivity).
  split; [exact H|].
  refine (stake_accounts_backed (ctx false split_ks) (bincode_ser (Split 60)) store _ tt _ _ _ _
            store_lamports store_backed (run_ok _ _ _ H)).
  - reflexivity.
  - apply (bool_decide_unpack (Forall _ _)). vm_compute. exact I.
  - apply (bool_decide_unpack (Forall _ _)). vm_compute. exact I.
  - apply (bool_decide_unpack (Forall _ _)). vm_compute. exact I.
Defined.

Lemma stake_lamports_conserved_witness :
  (run false split_ks (Split 60) store).2 = Ok tt ∧
  total_lamports (run false split_ks (Split 60) store).1 = 155.
Proof.
  assert (H : (run false split_ks (Split 60) store).2 = Ok tt) by (vm_compute; reflexivity).
  split; [exact H|].
  rewrite (stake_lamports_conserved (ctx false split_ks) (bincode_ser (Split 60)) store _ tt (run_ok _ _ _ H)).
  vm_compute. reflexivity.
Defined.

(** An account whose stake was deactivated at epoch 4, when 62 was effective. *)
Definition stake1 : Stake := mkStake (with_deactivation 4 (delegation stake0)) 0.
Definition store1 : gmap nat Account :=
  <[0%nat := mkAccount 150 (pad 200 (bincode_ser (StakeSt meta stake1))) id false 0]> store.
Definition h0 : list (Z * StakeHistoryEntry) := [(3, mkStakeHistoryEntry 1000 400 0)].

Lemma stake_withdraw_guard_witness :
  (withdraw stake_ka 38 to_ka clock h0 withdrawer_ka None true store1).2 = Ok tt ∧
  locked_stake stake1 clock h0 = 62 ∧ 62 + 50 <= 150 - 38.
Proof.
  assert (H : (withdraw stake_ka 38 to_ka clock h0 withdrawer_ka None true store1).2 = Ok tt)
    by (vm_compute; reflexivity).
  split; [exact H|]. split; [vm_compute; reflexivity|].
  refine (proj2 (proj2 (proj2 (proj2 (stake_withdraw_guard stake_ka 38 to_ka clock h0 withdrawer_ka None true
    store1 _ tt (mkAccount 150 (pad 200 (bincode_ser (StakeSt meta stake1))) id false 0) (StakeSt meta stake1)
    meta (run_ok _ _ _ H) eq_refl _ eq_refl _)))) stake1 eq_refl _).
  - vm_compute. reflexivity.
  - apply (bool_decide_unpack (wf (StakeSt meta stake1))). vm_compute. exact I.
  - vm_compute. discriminate.
Defined.

(** Three instructions in a row, their outcomes and the stake account after. *)
Definition reverse_scenario :=
  let '(s1, r1) := run true [stake_ka; clock_ka; staker_ka] Deactivate store in
  let '(s2, r2) := run true [stake_ka; to_ka; clock_ka; history_ka; withdrawer_ka] (Withdraw 38) s1 in
  let '(s3, r3) :=
    run true [stake_ka; vote_ka; clock_ka; history_ka; config_ka; staker_ka] DelegateStake s2 in
  (r1, r2, r3, stake_at s3).

(** Reversing a deactivation can leave a delegation unbacked.  With
    [stake_program_v4] active, a staker whose stake is still warming up can, in
    one epoch, deactivate, withdraw the part that is not yet effective, and
    delegate again to the same vote account: the deactivation is reversed and
    the delegation is 100 again, over a balance of 112 that covers, above the
    reserve of 50, only 62 of it. *)
Theorem reversed_deactivation_unbacked :
  backed store ∧ reverse_scenario = (Ok tt, Ok tt, Ok tt, Some (112, Some stake0)) ∧
  deactivation_epoch (delegation stake0) = u64_max ∧
  112 < d_stake (delegation stake0) + rent_exempt_reserve meta.
Proof. split_and!; [apply store_backed|vm_compute; reflexivity|done|done]. Qed.
End example.
End stake_safety.
