(* ===== verification/VoteStakeTracker.v ===== *)
(** * The stake that voted for a block

    Models [core/src/vote_stake_tracker.rs]: the votes seen for a block, each
    account counted once, and which of some fractions of the total stake a vote
    has just reached.  Optimistic confirmation acts on that report, so it must
    come exactly once. *)

From S2P Require Import Prelude F64 Account.

Module vote_stake_tracker.

Record VoteStakeTracker : Type := mkTracker {
  voted : gset Pubkey;
  stake : Z;
}.

Definition VoteStakeTracker_default : VoteStakeTracker := mkTracker ∅ 0.

Definition threshold_stake (total_stake : Z) (threshold : f64) : Z := f64_to_u64 (f64_mul (f64_of_Z total_stake) threshold).

(** The new tracker, the thresholds the vote reached, and whether it is new. *)
Definition add_vote_pubkey (vote_pubkey : Pubkey) (vote_stake total_stake : Z) (thresholds_to_check : list f64) (t : VoteStakeTracker)
  : VoteStakeTracker * (list bool * bool) :=
  let is_new := negb (bool_decide (vote_pubkey ∈ voted t)) in
  if is_new then
    let old_stake := stake t in
    let new_stake := add64 (stake t) vote_stake in
    (mkTracker ({[vote_pubkey]} ∪ voted t) new_stake,
     ((λ threshold,
         let s := threshold_stake total_stake threshold in
         (old_stake <=? s) && (s <? new_stake)) <$> thresholds_to_check, is_new))
  else (t, (replicate (length thresholds_to_check) false, is_new)).

(** ** Sequences of votes *)

Section votes.
Context (total_stake : Z) (thresholds : list f64).

Fixpoint add_votes (l : list (Pubkey * Z)) (t : VoteStakeTracker) : VoteStakeTracker * list (list bool * bool) :=
  match l with
  | [] => (t, [])
  | (k, s) :: l' =>
      let '(t, r) := add_vote_pubkey k s total_stake thresholds t in
      let '(t, rs) := add_votes l' t in (t, r :: rs)
  end.

(** The first vote of every account. *)
Fixpoint first_votes (seen : gset Pubkey) (l : list (Pubkey * Z)) : list (Pubkey * Z) :=
  match l with
  | [] => []
  | (k, s) :: l' => if decide (k ∈ seen) then first_votes seen l' else (k, s) :: first_votes ({[k]} ∪ seen) l'
  end.

(** How often the threshold at [i] is reported. *)
Definition reports (i : nat) (rs : list (list bool * bool)) : nat := length (filter (λ r, r.1 !! i = Some true) rs).

Lemma add_votes_spec l t :
  0 <= stake t → Forall (λ x, 0 <= x.2) l → stake t + sum_with snd l <= u64_max →
  let '(t', rs) := add_votes l t in
  stake t' = stake t + sum_with snd (first_votes (voted t) l) ∧ stake t <= stake t' ∧ voted t' = voted t ∪ list_to_set l.*1 ∧
  (∀ i th, thresholds !! i = Some th →
    let s := threshold_stake total_stake th in
    reports i rs = if decide (stake t <= s < stake t') then 1%nat else 0%nat).
Proof.
  intros H0 Hl. revert t H0. induction Hl as [|[k s] l Hs Hl IH]; intros t H0 Hb; cbn [add_votes].
  { split_and!; [unfold sum_with; cbn; lia|lia|set_solver|]. intros i th _. cbn zeta. rewrite decide_False by lia. done. }
  assert (0 <= sum_with snd l) by (by apply sum_with_nonneg). cbn [snd] in Hs.
  assert (sum_with snd ((k, s) :: l) = s + sum_with snd l) as Hsum by done. unfold add_vote_pubkey. cbn [first_votes].
  destruct (bool_decide_reflect (k ∈ voted t)) as [Hk|Hk]; cbn [negb].
  - specialize (IH t H0 ltac:(lia)). destruct (add_votes l t) as [t' rs]. destruct IH as (H1 & H2 & H3 & H4).
    rewrite decide_True by done. split_and!; [done|done|set_solver|].
    intros i th Hi. cbn zeta. specialize (H4 i th Hi). cbn zeta in H4. rewrite <-H4. unfold reports.
    rewrite filter_cons_False; [done|]. cbn. intros [? _]%lookup_replicate. done.
  - assert (add64 (stake t) s = stake t + s) as Hadd by (unfold add64, wrap64; rewrite Z.mod_small; unfold u64_max in *; lia).
    rewrite Hadd. specialize (IH (mkTracker ({[k]} ∪ voted t) (stake t + s))). cbn [stake voted] in IH.
    specialize (IH ltac:(lia) ltac:(lia)). destruct (add_votes l _) as [t' rs]. destruct IH as (H1 & H2 & H3 & H4).
    rewrite decide_False by done. split_and!.
    + rewrite H1. change (sum_with snd ((k, s) :: ?x)) with (s + sum_with snd x). lia.
    + lia.
    + set_solver.
    + intros i th Hi. cbn zeta. specialize (H4 i th Hi). cbn zeta in H4. unfold reports in *. set (ts := threshold_stake total_stake th) in *.
      rewrite filter_cons. cbn [fst]. rewrite list_lookup_fmap, Hi. cbn [fmap option_fmap option_map]. fold ts.
      destruct (Z.leb_spec (stake t) ts), (Z.ltb_spec ts (stake t + s)); cbn [andb];
        destruct (decide (Some _ = Some true)); try done; cbn [length]; rewrite H4; repeat case_decide; try done; lia.
Qed.

(** C29. However often and in whatever order accounts vote, the tracked stake
    is that of the first vote of every account, and each threshold is reported
    exactly once if the stake passes it, and never otherwise.  The stakes add
    up within [u64]. *)
Theorem thresholds_reached_once l :
  Forall (λ x, 0 <= x.2) l → sum_with snd l <= u64_max →
  let '(t, rs) := add_votes l VoteStakeTracker_default in
  voted t = list_to_set l.*1 ∧ stake t = sum_with snd (first_votes ∅ l) ∧
  ∀ i th, thresholds !! i = Some th →
    reports i rs = if decide (threshold_stake total_stake th < stake t) then 1%nat else 0%nat.
Proof.
  intros Hl Hb. pose proof (add_votes_spec l VoteStakeTracker_default ltac:(done) Hl Hb) as H.
  destruct (add_votes l _) as [t rs]. destruct H as (H1 & _ & H3 & H4). cbn [stake voted VoteStakeTracker_default] in *.
  split_and!; [set_solver|lia|]. intros i th Hi. rewrite (H4 i th Hi). cbn zeta. apply decide_ext.
  pose proof (f64_to_u64_range (f64_mul (f64_of_Z total_stake) th)) as [? _]. unfold threshold_stake. lia.
Qed.
End votes.

(** ** Four votes

    Ten lamports of total stake; two thirds of it are six. *)

Module example.
Definition two_thirds : f64 := Eval vm_compute in f64_of_ratio 2 3.
Definition seen : list (Pubkey * Z) := [(1, 4); (2, 2); (1, 4); (3, 1); (4, 3)].

Lemma thresholds_reached_once_witness :
  let '(t, rs) := add_votes 10 [two_thirds; f64_of_Z 0] seen VoteStakeTracker_default in
  stake t = 10 ∧ reports 0 rs = 1%nat.
Proof.
  pose proof (thresholds_reached_once 10 [two_thirds; f64_of_Z 0] seen) as H.
  specialize (H ltac:(apply (bool_decide_unpack _); vm_compute; exact I) ltac:(vm_compute; done)).
  assert (stake (add_votes 10 [two_thirds; f64_of_Z 0] seen VoteStakeTracker_default).1 = 10) as Hs by (vm_compute; done).
  destruct (add_votes 10 [two_thirds; f64_of_Z 0] seen VoteStakeTracker_default) as [t rs].
  destruct H as (_ & _ & H). cbn in Hs. split; [exact Hs|]. rewrite (H 0%nat two_thirds eq_refl), Hs.
  assert (threshold_stake 10 two_thirds = 6) as -> by (vm_compute; done). done.
Defined.
End example.
End vote_stake_tracker.
