(* ===== verification/Commitment.v ===== *)
(** * The commitment of blocks

    Models [runtime/src/commitment.rs] and [core/src/commitment_service.rs]:
    from the vote accounts of a bank, how much stake is locked out at which
    depth on each of its ancestors, the highest slot and root the cluster has
    confirmed, and the slots the RPC service reads.  The service's thread and
    its channels are left out; an aggregation is one call of
    [update_commitment_cache]. *)

From S2P Require Import Prelude F64 Account Sysvar VoteState.

Module commitment.

(** ** The commitment of a block *)

Definition VOTE_THRESHOLD_SIZE : f64 := Eval vm_compute in f64_of_ratio 2 3.

(** [[u64; MAX_LOCKOUT_HISTORY + 1]] *)
#[local] Abbreviation BlockCommitment := (list Z).
Definition BlockCommitment_default : BlockCommitment := replicate (S MAX_LOCKOUT_HISTORY) 0.

Definition confirmation_count_ok (n : Z) : bool := (0 <? n) && (n <=? Z.of_nat MAX_LOCKOUT_HISTORY).

Definition increase_confirmation_stake (confirmation_count stake : Z) (c : BlockCommitment) : res Empty_set BlockCommitment :=
  if confirmation_count_ok confirmation_count
  then Ok (alter (λ x, add64 x stake) (Z.to_nat (confirmation_count - 1)) c) else Panic.
Definition get_confirmation_stake (confirmation_count : Z) (c : BlockCommitment) : res Empty_set Z :=
  if confirmation_count_ok confirmation_count then unwrap (c !! Z.to_nat (confirmation_count - 1)) else Panic.
Definition increase_rooted_stake (stake : Z) (c : BlockCommitment) : BlockCommitment :=
  alter (λ x, add64 x stake) MAX_LOCKOUT_HISTORY c.
Definition get_rooted_stake (c : BlockCommitment) : res Empty_set Z := unwrap (c !! MAX_LOCKOUT_HISTORY).

(** ** The cache *)

Record CommitmentSlots : Type := mkCommitmentSlots {
  cs_slot : Slot;
  cs_root : Slot;
  cs_highest_confirmed_slot : Slot;
  cs_highest_confirmed_root : Slot;
}.

Record BlockCommitmentCache : Type := mkCache {
  block_commitment : gmap Slot BlockCommitment;
  commitment_slots : CommitmentSlots;
  cache_total_stake : Z;
}.

Definition with_slots (s : CommitmentSlots) (c : BlockCommitmentCache) : BlockCommitmentCache :=
  mkCache (block_commitment c) s (cache_total_stake c).
Definition set_highest_confirmed_slot (s : Slot) (c : BlockCommitmentCache) : BlockCommitmentCache :=
  let cs := commitment_slots c in
  with_slots (mkCommitmentSlots (cs_slot cs) (cs_root cs) s (cs_highest_confirmed_root cs)) c.
Definition set_highest_confirmed_root (r : Slot) (c : BlockCommitmentCache) : BlockCommitmentCache :=
  let cs := commitment_slots c in
  with_slots (mkCommitmentSlots (cs_slot cs) (cs_root cs) (cs_highest_confirmed_slot cs) r) c.
Definition initialize_slots (s : Slot) (c : BlockCommitmentCache) : BlockCommitmentCache :=
  let cs := commitment_slots c in
  with_slots (mkCommitmentSlots s s (cs_highest_confirmed_slot cs) (cs_highest_confirmed_root cs)) c.
Definition set_all_slots (s r : Slot) (c : BlockCommitmentCache) : BlockCommitmentCache :=
  with_slots (mkCommitmentSlots s r s r) c.

Inductive CommitmentLevel : Type := Max | Recent | Root | Single | SingleGossip | Processed | Confirmed | Finalized.

Definition slot_with_commitment (l : CommitmentLevel) (c : BlockCommitmentCache) : Slot :=
  let cs := commitment_slots c in
  match l with
  | Recent | Processed => cs_slot cs
  | Root => cs_root cs
  | Single => cs_highest_confirmed_slot cs
  | SingleGossip | Confirmed => cs_highest_confirmed_slot cs
  | Max | Finalized => cs_highest_confirmed_root cs
  end.

(** [sum as f64 / total as f64 > threshold] *)
Definition exceeds (threshold : f64) (total_stake sum : Z) : bool := f64_lt threshold (f64_div (f64_of_Z sum) (f64_of_Z total_stake)).

(** From the highest level down: [stakes] are those of the levels below [i],
    last first. *)
Fixpoint lockout_level (threshold : f64) (total_stake sum : Z) (stakes : list Z) : Z :=
  match stakes with
  | [] => 0
  | stake :: stakes' =>
      let sum := add64 sum stake in
      if exceeds threshold total_stake sum then Z.of_nat (length stakes') + 1
      else lockout_level threshold total_stake sum stakes'
  end.

Definition get_lockout_count (slot : Slot) (minimum_stake_percentage : f64) (c : BlockCommitmentCache) : option Z :=
  (λ b, lockout_level minimum_stake_percentage (cache_total_stake c) 0 (reverse b)) <$> block_commitment c !! slot.

Definition get_confirmation_count (slot : Slot) (c : BlockCommitmentCache) : option Z :=
  get_lockout_count slot VOTE_THRESHOLD_SIZE c.

Fixpoint first_confirmed (confirmation_count : Z) (c : BlockCommitmentCache) (slots : list Slot) : option Slot :=
  match slots with
  | [] => None
  | s :: slots' =>
      match get_confirmation_count s c with
      | Some count => if confirmation_count <=? count then Some s else first_confirmed confirmation_count c slots'
      | None => first_confirmed confirmation_count c slots'
      end
  end.

Definition highest_slot_with_confirmation_count (confirmation_count : Z) (c : BlockCommitmentCache) : res Empty_set Slot :=
  if confirmation_count_ok confirmation_count then
    let cs := commitment_slots c in
    Ok (default (cs_root cs) (first_confirmed confirmation_count c (reverse (seqZ (cs_root cs) (cs_slot cs - cs_root cs)))))
  else Panic.

Definition calculate_highest_confirmed_slot (c : BlockCommitmentCache) : res Empty_set Slot :=
  highest_slot_with_confirmation_count 1 c.

(** ** Aggregation *)

#[local] Abbreviation Commitments := (gmap Slot BlockCommitment).

Definition at_slot (a : Slot) (c : Commitments) : BlockCommitment := default BlockCommitment_default (c !! a).

(** The ancestors up to the root are rooted; the index of the first one after
    it is returned, zero if there is none. *)
Fixpoint rooted_ancestors (root : Slot) (lamports : Z) (i : nat) (ancestors : list Slot) (c : Commitments) : Commitments * nat :=
  match ancestors with
  | [] => (c, 0%nat)
  | a :: l =>
      if a <=? root then rooted_ancestors root lamports (S i) l (<[a := increase_rooted_stake lamports (at_slot a c)]> c)
      else (c, i)
  end.

(** The [while] loop of one vote, on the ancestors from [ancestors_index] on;
    it leaves none when the function returns. *)
Fixpoint confirm_while (vote : Lockout) (lamports : Z) (rest : list Slot) (c : Commitments) : res Empty_set (list Slot * Commitments) :=
  match rest with
  | [] => Ok ([], c)
  | a :: l =>
      if a <=? slot vote then
        b ← increase_confirmation_stake (confirmation_count vote) lamports (at_slot a c);
        confirm_while vote lamports l (<[a := b]> c)
      else Ok (rest, c)
  end.

Fixpoint confirm_votes (votes : list Lockout) (lamports : Z) (rest : list Slot) (c : Commitments) : res Empty_set Commitments :=
  match votes, rest with
  | [], _ => Ok c
  | _, [] => Ok c
  | vote :: votes', _ =>
      '(rest, c) ← confirm_while vote lamports rest c;
      confirm_votes votes' lamports rest c
  end.

Definition aggregate_commitment_for_vote_account (c : Commitments) (rooted_stake : list (Slot * Z)) (vote_state : VoteState)
    (ancestors : list Slot) (lamports : Z) : res Empty_set (Commitments * list (Slot * Z)) :=
  if bool_decide (ancestors = []) then Panic
  else
    let '(c, ancestors_index, rooted_stake) :=
      match root_slot vote_state with
      | Some root =>
          let '(c, i) := rooted_ancestors root lamports 0 ancestors c in
          (c, i, rooted_stake ++ [(root, lamports)])
      | None => (c, 0%nat, rooted_stake)
      end in
    c ← confirm_votes (votes vote_state) lamports (drop ancestors_index ancestors) c;
    Ok (c, rooted_stake).

Fixpoint increasing (l : list Slot) : bool :=
  match l with
  | a :: ((b :: _) as l') => (a <? b) && increasing l'
  | _ => true
  end.

Definition aggregate_commitment (ancestors : list Slot) (vote_accounts : list (Z * option VoteState))
  : res Empty_set (Commitments * list (Slot * Z)) :=
  if bool_decide (ancestors = []) || negb (increasing ancestors) then Panic
  else
    foldM (λ acc x,
      if x.1 =? 0 then Ok acc
      else match x.2 with
           | Some vote_state => aggregate_commitment_for_vote_account acc.1 acc.2 vote_state ancestors x.1
           | None => Ok acc
           end) (∅, []) vote_accounts.

Fixpoint highest_root_loop (total_stake stake_sum : Z) (l : list (Slot * Z)) : Slot :=
  match l with
  | [] => 0
  | (root, stake) :: l' =>
      let stake_sum := add64 stake_sum stake in
      if exceeds VOTE_THRESHOLD_SIZE total_stake stake_sum then root else highest_root_loop total_stake stake_sum l'
  end.

Definition get_highest_confirmed_root (rooted_stake : list (Slot * Z)) (total_stake : Z) : Slot :=
  highest_root_loop total_stake 0 (sort_by (λ a b : Slot * Z, b.1 <=? a.1) rooted_stake).

Record CommitmentAggregationData : Type := mkAggregation {
  agg_slot : Slot;
  agg_vote_accounts : list (Z * option VoteState);
  agg_root : Slot;
  agg_total_stake : Z;
}.

Definition update_commitment_cache (d : CommitmentAggregationData) (ancestors : list Slot) : ST BlockCommitmentCache Empty_set CommitmentSlots :=
  '(block_commitment, rooted_stake) ← lift (aggregate_commitment ancestors (agg_vote_accounts d));
  let highest_confirmed_root := get_highest_confirmed_root rooted_stake (agg_total_stake d) in
  let new := mkCache block_commitment
    (mkCommitmentSlots (agg_slot d) (agg_root d) (agg_root d) highest_confirmed_root) (agg_total_stake d) in
  highest_confirmed_slot ← lift (calculate_highest_confirmed_slot new);
  let new := set_highest_confirmed_slot highest_confirmed_slot new in
  old ← get;
  put (set_highest_confirmed_root
         (Z.max (cs_highest_confirmed_root (commitment_slots new)) (cs_highest_confirmed_root (commitment_slots old))) new);;
  gets commitment_slots.

(** ** What is aggregated *)

Implicit Types (c : Commitments) (v : VoteState).

(** The level of an ancestor in the votes of an account: the last one if it is
    rooted, else the confirmations of the first vote at or after it. *)
Definition vote_level (vs : list Lockout) (a : Slot) : option nat :=
  (λ x, Z.to_nat (confirmation_count x - 1)) <$> head (filter (λ x, a <= slot x) vs).
Definition level v (a : Slot) : option nat :=
  match root_slot v with
  | Some r => if a <=? r then Some MAX_LOCKOUT_HISTORY else vote_level (votes v) a
  | None => vote_level (votes v) a
  end.

Definition stake_at c (a : Slot) (i : nat) : Z := default 0 (at_slot a c !! i).
Definition sized c : Prop := ∀ a, length (at_slot a c) = S MAX_LOCKOUT_HISTORY.

(** One account added [lamports] to the level [f a] of every ancestor. *)
Definition added (f : Slot → option nat) (l : list Slot) (lamports : Z) c c' : Prop :=
  sized c' ∧
  ∀ a i, stake_at c' a i = if decide (a ∈ l ∧ f a = Some i) then add64 (stake_at c a i) lamports else stake_at c a i.

Lemma sized_empty : sized ∅.
Proof. intros a. unfold at_slot. by rewrite lookup_empty. Qed.

Lemma added_one a0 i0 lamports c :
  sized c → (i0 <= MAX_LOCKOUT_HISTORY)%nat →
  added (λ _, Some i0) [a0] lamports c (<[a0 := alter (λ x, add64 x lamports) i0 (at_slot a0 c)]> c).
Proof.
  intros Hc Hi. unfold added, sized, stake_at, at_slot. split.
  - intros a. destruct (decide (a = a0)) as [->|Hne]; [rewrite lookup_insert_eq|rewrite lookup_insert_ne by done; apply Hc].
    change (default _ (Some ?x)) with x. rewrite length_alter. apply Hc.
  - intros a i. destruct (decide (a = a0)) as [->|Hne].
    + rewrite lookup_insert_eq. change (default _ (Some ?x)) with x. destruct (decide (i = i0)) as [->|Hne].
      * rewrite decide_True by (split; [by left|done]). rewrite list_lookup_alter_eq.
        destruct (lookup_lt_is_Some_2 (at_slot a0 c) i0) as [x Hx]; [rewrite (Hc a0); lia|]. unfold at_slot in Hx. by rewrite Hx.
      * rewrite decide_False by (intros [_ [=]]; congruence). by rewrite list_lookup_alter_ne by congruence.
    + rewrite lookup_insert_ne by done. rewrite decide_False; [done|]. intros [?%list_elem_of_singleton _]. done.
Qed.

Lemma added_nil f lamports c : sized c → added f [] lamports c c.
Proof. intros Hc. split; [done|]. intros a i. rewrite decide_False; [done|]. intros [?%elem_of_nil _]. done. Qed.

Lemma added_app f g h l l' lamports c c1 c2 :
  added f l lamports c c1 → added g l' lamports c1 c2 →
  (∀ a, a ∈ l → (a ∉ l') ∧ h a = f a) → (∀ a, a ∈ l' → h a = g a) →
  added h (l ++ l') lamports c c2.
Proof.
  intros [_ H1] [Hs H2] Hl Hl'. split; [done|]. intros a i. rewrite H2, H1.
  destruct (decide (a ∈ l)) as [Ha|Ha].
  - destruct (Hl a Ha) as [Hn Hh]. rewrite (decide_False (P := (a ∈ l' ∧ _))) by tauto.
    apply decide_ext. rewrite elem_of_app, Hh. tauto.
  - rewrite (decide_False (P := (a ∈ l ∧ _))) by tauto. apply decide_ext. rewrite elem_of_app. split.
    + intros [? ?]. rewrite Hl' by done. tauto.
    + intros [[?|?] Hh]; [done|]. rewrite Hl' in Hh by done. tauto.
Qed.

Lemma added_cons f h a0 i0 l lamports c c1 c2 :
  added (λ _, Some i0) [a0] lamports c c1 → added f l lamports c1 c2 → a0 ∉ l → h a0 = Some i0 → (∀ a, a ∈ l → h a = f a) →
  added h (a0 :: l) lamports c c2.
Proof.
  intros H1 H2 Hn Ha Hl. apply (added_app (λ _, Some i0) f h [a0] l lamports c c1 c2 H1 H2); [|done].
  intros a ->%list_elem_of_singleton. done.
Qed.

(** An increasing list splits at a slot. *)
Lemma sorted_head_notin (a : Slot) l : StronglySorted Z.lt (a :: l) → (a ∉ l) ∧ StronglySorted Z.lt l ∧ Forall (λ b, a < b) l.
Proof.
  intros H. inversion H as [|? ? Hs Hf]; subst. split_and!; [|done|done]. intros Hin. apply (proj1 (Forall_forall _ _) Hf) in Hin. lia.
Qed.

Lemma rooted_ancestors_spec r lamports i l c :
  StronglySorted Z.lt l → sized c → (∃ a, last l = Some a ∧ r < a) →
  ∃ pre post c', rooted_ancestors r lamports i l c = (c', (i + length pre)%nat) ∧ l = pre ++ post ∧ post ≠ [] ∧
    (∀ a, a ∈ pre → a <= r) ∧ (∀ a, a ∈ post → r < a) ∧ added (λ _, Some MAX_LOCKOUT_HISTORY) pre lamports c c'.
Proof.
  intros Hs. revert i c. induction l as [|a l IH]; intros i c Hc (z & Hz & Hr); [done|].
  destruct (sorted_head_notin _ _ Hs) as (Hn & Hs' & Hf). cbn [rooted_ancestors]. destruct (Z.leb_spec a r) as [Hle|Hlt].
  - assert (∃ z, last l = Some z ∧ r < z) as Hl by (destruct l; [injection Hz as <-; lia|exists z; done]).
    unfold increase_rooted_stake. pose proof (added_one a MAX_LOCKOUT_HISTORY lamports c Hc ltac:(done)) as H1.
    destruct (IH Hs' (S i) _ (proj1 H1) Hl) as (pre & post & c' & -> & -> & Hp & Hpre & Hpost & Hadd).
    exists (a :: pre), post, c'. split_and!; [f_equal; cbn; lia|done|done|intros ? [->|?]%elem_of_cons; auto|done|].
    eapply added_cons; [exact H1|exact Hadd|set_solver|done|done].
  - exists [], (a :: l), c. split_and!; [f_equal; cbn; lia|done|done|set_solver| |by apply added_nil].
    intros b [->|Hb]%elem_of_cons; [done|]. apply (proj1 (Forall_forall _ _) Hf) in Hb. lia.
Qed.

Lemma confirm_while_spec x lamports l c :
  StronglySorted Z.lt l → sized c → confirmation_count_ok (confirmation_count x) = true →
  ∃ pre post c', confirm_while x lamports l c = Ok (post, c') ∧ l = pre ++ post ∧
    (∀ a, a ∈ pre → a <= slot x) ∧ (∀ a, a ∈ post → slot x < a) ∧
    added (λ _, Some (Z.to_nat (confirmation_count x - 1))) pre lamports c c'.
Proof.
  intros Hs. revert c. induction l as [|a l IH]; intros c Hc Hok; [exists [], [], c; split_and!; try set_solver; by apply added_nil|].
  destruct (sorted_head_notin _ _ Hs) as (Hn & Hs' & Hf). cbn [confirm_while]. destruct (Z.leb_spec a (slot x)) as [Hle|Hlt].
  - unfold increase_confirmation_stake. rewrite Hok. cbn [mbind res_bind].
    assert (Z.to_nat (confirmation_count x - 1) <= MAX_LOCKOUT_HISTORY)%nat as Hb by (unfold confirmation_count_ok in Hok; lia).
    pose proof (added_one a _ lamports c Hc Hb) as H1.
    destruct (IH Hs' _ (proj1 H1) Hok) as (pre & post & c' & -> & -> & Hpre & Hpost & Hadd).
    exists (a :: pre), post, c'. split_and!; [done|done|intros ? [->|?]%elem_of_cons; auto|done|].
    eapply added_cons; [exact H1|exact Hadd|set_solver|done|done].
  - exists [], (a :: l), c. split_and!; [done|done|set_solver| |by apply added_nil].
    intros b [->|Hb]%elem_of_cons; [done|]. apply (proj1 (Forall_forall _ _) Hf) in Hb. lia.
Qed.

Lemma sorted_app_r (l l' : list Slot) : StronglySorted Z.lt (l ++ l') → StronglySorted Z.lt l'.
Proof. induction l as [|a l IH]; [done|]. intros H. inversion H; subst. by apply IH. Qed.

Lemma confirm_votes_spec vs lamports l c :
  StronglySorted Z.lt l → sized c → Forall (λ x, confirmation_count_ok (confirmation_count x) = true) vs →
  ∃ c', confirm_votes vs lamports l c = Ok c' ∧ added (vote_level vs) l lamports c c'.
Proof.
  intros Hs Hc Hvs. revert l c Hs Hc. induction Hvs as [|x vs Hx Hvs IH]; intros l c Hs Hc; cbn [confirm_votes].
  { exists c. split; [done|split; [done|]]. intros a i. rewrite decide_False; [done|]. intros [_ [=]]. }
  assert (∃ c', ('(rest, c) ← confirm_while x lamports l c; confirm_votes vs lamports rest c) = Ok c' ∧
    added (vote_level (x :: vs)) l lamports c c') as (c' & Hr & Ha).
  { destruct (confirm_while_spec x lamports l c Hs Hc Hx) as (pre & post & c1 & -> & -> & Hpre & Hpost & H1).
    destruct (IH post c1 (sorted_app_r _ _ Hs) (proj1 H1)) as (c2 & H2 & Ha). exists c2. split; [exact H2|].
    eapply added_app; [exact H1|exact Ha| |].
    - intros a Hin. specialize (Hpre a Hin). split; [intros Hp%Hpost; lia|]. unfold vote_level. by rewrite filter_cons_True.
    - intros a Hin%Hpost. unfold vote_level. rewrite filter_cons_False by lia. done. }
  destruct l; [|eauto]. exists c. split; [done|]. by apply added_nil.
Qed.

(** The root is at or above every ancestor. *)
Definition rooted_all (ancestors : list Slot) v : bool :=
  match root_slot v with Some r => forallb (λ a, a <=? r) ancestors | None => false end.

(** What an account adds to a level of an ancestor.  An account that has
    rooted all ancestors is counted a second time, with its votes. *)
Definition contribution (ancestors : list Slot) v (lamports : Z) (a : Slot) (i : nat) : Z :=
  (if decide (level v a = Some i) then lamports else 0) +
  (if decide (rooted_all ancestors v = true ∧ vote_level (votes v) a = Some i) then lamports else 0).

Lemma rooted_ancestors_all r lamports i l c :
  StronglySorted Z.lt l → sized c → Forall (λ a, a <= r) l →
  ∃ c', rooted_ancestors r lamports i l c = (c', 0%nat) ∧ added (λ _, Some MAX_LOCKOUT_HISTORY) l lamports c c'.
Proof.
  intros Hs. revert i c. induction l as [|a l IH]; intros i c Hc Hl; [exists c; split; [done|by apply added_nil]|].
  destruct (sorted_head_notin _ _ Hs) as (Hn & Hs' & Hf). apply Forall_cons in Hl as [Ha Hl]. cbn [rooted_ancestors].
  rewrite (proj2 (Z.leb_le a r)) by done. unfold increase_rooted_stake. pose proof (added_one a MAX_LOCKOUT_HISTORY lamports c Hc ltac:(done)) as H1.
  destruct (IH Hs' (S i) _ (proj1 H1) Hl) as (c' & -> & Hadd). exists c'. split; [done|].
  eapply added_cons; [exact H1|exact Hadd|done|done|done].
Qed.

(** Not all of them are rooted: the last one is not. *)
Lemma not_rooted_last r l :
  StronglySorted Z.lt l → l ≠ [] → forallb (λ a, a <=? r) l = false → ∃ a, last l = Some a ∧ r < a.
Proof.
  induction l as [|a l IH]; intros Hs Hne Hf; [done|]. destruct (sorted_head_notin _ _ Hs) as (_ & Hs' & Hl).
  destruct l as [|b l]; [cbn in Hf; exists a; split; [done|lia]|].
  cbn [forallb] in Hf. destruct (Z.leb_spec a r) as [Ha|Ha].
  - destruct (IH Hs' ltac:(done) Hf) as (z & Hz & ?). by exists z.
  - destruct (last (b :: l)) as [z|] eqn:Hz; [|by apply last_None in Hz]. exists z. split; [done|].
    apply last_Some_elem_of, (proj1 (Forall_forall _ _) Hl) in Hz. lia.
Qed.

Lemma added_stake f l n c c' :
  0 <= n → (∀ a i, 0 <= stake_at c a i ∧ stake_at c a i + n <= u64_max) → added f l n c c' →
  ∀ a i, stake_at c' a i = stake_at c a i + if decide (a ∈ l ∧ f a = Some i) then n else 0.
Proof.
  intros Hn Hb [_ H] a i. rewrite H. specialize (Hb a i). case_decide; [|lia].
  unfold add64, wrap64. rewrite Z.mod_small; [done|]. unfold u64_max in *. lia.
Qed.

(** One pass over the ancestors adds what a level tells. *)
Lemma added_contribution ancestors v n c c' :
  rooted_all ancestors v = false → 0 <= n → (∀ a i, 0 <= stake_at c a i ∧ stake_at c a i + n <= u64_max) →
  added (level v) ancestors n c c' →
  ∀ a i, stake_at c' a i = stake_at c a i + if decide (a ∈ ancestors) then contribution ancestors v n a i else 0.
Proof.
  intros Hr Hn Hb H a i. rewrite (added_stake _ _ _ _ _ Hn Hb H). unfold contribution. rewrite Hr.
  rewrite (decide_False (P := false = true ∧ _)) by naive_solver. repeat case_decide; naive_solver lia.
Qed.

Lemma for_vote_account_spec c rs v ancestors n :
  ancestors ≠ [] → StronglySorted Z.lt ancestors → sized c →
  Forall (λ x, confirmation_count_ok (confirmation_count x) = true) (votes v) →
  0 <= n → (∀ a i, 0 <= stake_at c a i ∧ stake_at c a i + 2 * n <= u64_max) →
  ∃ c', aggregate_commitment_for_vote_account c rs v ancestors n
          = Ok (c', rs ++ from_option (λ r, [(r, n)]) [] (root_slot v)) ∧ sized c' ∧
        ∀ a i, stake_at c' a i = stake_at c a i + if decide (a ∈ ancestors) then contribution ancestors v n a i else 0.
Proof.
  intros Hne Hs Hc Hvs Hn Hb. unfold aggregate_commitment_for_vote_account. rewrite bool_decide_false by done.
  assert (Hb1 : ∀ a i, 0 <= stake_at c a i ∧ stake_at c a i + n <= u64_max) by (intros a i; specialize (Hb a i); lia).
  destruct (root_slot v) as [r|] eqn:Hroot; cbn [from_option]; [destruct (forallb (λ a, a <=? r) ancestors) eqn:Hall|].
  - assert (Hle : Forall (λ a, a <= r) ancestors).
    { apply Forall_forall. intros a Ha%list_elem_of_In. rewrite forallb_forall in Hall. specialize (Hall a Ha). lia. }
    destruct (rooted_ancestors_all r n 0 ancestors c Hs Hc Hle) as (c1 & -> & H1). rewrite drop_0.
    destruct (confirm_votes_spec (votes v) n ancestors c1) as (c2 & -> & H2); [done|apply H1|done|].
    exists c2. split; [done|]. split; [apply H2|]. intros a i. pose proof (added_stake _ _ _ _ _ Hn Hb1 H1) as E1.
    assert (Hb2 : ∀ a i, 0 <= stake_at c1 a i ∧ stake_at c1 a i + n <= u64_max).
    { intros a' i'. rewrite E1. specialize (Hb a' i'). case_decide; lia. }
    rewrite (added_stake _ _ _ _ _ Hn Hb2 H2), E1. unfold contribution, rooted_all, level. rewrite Hroot, Hall.
    destruct (decide (a ∈ ancestors)) as [Ha|Ha]; [|rewrite !decide_False by tauto; lia].
    rewrite (proj2 (Z.leb_le a r)) by (by apply (proj1 (Forall_forall _ _) Hle)). repeat case_decide; naive_solver lia.
  - destruct (rooted_ancestors_spec r n 0 ancestors c Hs Hc) as (pre & post & c1 & -> & -> & Hp & Hpre & Hpost & H1); [by apply not_rooted_last|].
    rewrite Nat.add_0_l, drop_app_length.
    destruct (confirm_votes_spec (votes v) n post c1) as (c2 & -> & H2); [by eapply sorted_app_r|apply H1|done|].
    exists c2. split; [done|]. split; [apply H2|]. apply added_contribution; [by unfold rooted_all; rewrite Hroot|done|done|].
    eapply added_app; [exact H1|exact H2| |]; unfold level; rewrite Hroot.
    + intros a Ha. specialize (Hpre a Ha). split; [intros ?%Hpost; lia|]. by rewrite (proj2 (Z.leb_le a r)).
    + intros a Ha%Hpost. by rewrite (proj2 (Z.leb_gt a r)).
  - rewrite drop_0, app_nil_r. destruct (confirm_votes_spec (votes v) n ancestors c) as (c2 & -> & H2); [done..|].
    exists c2. split; [done|]. split; [apply H2|]. apply added_contribution; [by unfold rooted_all; rewrite Hroot|done|done|].
    destruct H2 as [H2 H3]. split; [done|]. intros a i. rewrite H3. unfold level. by rewrite Hroot.
Qed.

(** What the accounts add to a level of an ancestor. *)
Definition counted (ancestors : list Slot) (a : Slot) (i : nat) (x : Z * option VoteState) : Z :=
  match x.2 with Some v => contribution ancestors v x.1 a i | None => 0 end.
Definition account_roots (accounts : list (Z * option VoteState)) : list (Slot * Z) :=
  omap (λ x, if x.1 =? 0 then None else v ← x.2; r ← root_slot v; Some (r, x.1)) accounts.

Lemma increasing_sorted l : increasing l = true → StronglySorted Z.lt l.
Proof.
  intros H. apply Sorted_StronglySorted; [intros ? ? ?; lia|]. revert H.
  induction l as [|a [|b l] IH]; [constructor|by repeat constructor|]. intros [Hab Hl]%andb_true_iff.
  constructor; [by apply IH|]. constructor. lia.
Qed.

Section aggregate.
Context (ancestors : list Slot) (Hne : ancestors ≠ []) (Hinc : increasing ancestors = true).

Definition accounts_ok (accounts : list (Z * option VoteState)) : Prop :=
  Forall (λ x, 0 <= x.1 ∧
    ∀ v, x.2 = Some v → Forall (λ y, confirmation_count_ok (confirmation_count y) = true) (votes v)) accounts.

Lemma aggregate_loop accounts c rs :
  accounts_ok accounts → sized c →
  (∀ a i, 0 <= stake_at c a i ∧ stake_at c a i + 2 * sum_with fst accounts <= u64_max) →
  ∃ c', foldM (λ acc x,
      if x.1 =? 0 then Ok acc
      else match x.2 with
           | Some vote_state => aggregate_commitment_for_vote_account acc.1 acc.2 vote_state ancestors x.1
           | None => Ok acc
           end) (c, rs) accounts = Ok (E := Empty_set) (c', rs ++ account_roots accounts) ∧
    ∀ a i, stake_at c' a i = stake_at c a i + if decide (a ∈ ancestors) then sum_with (counted ancestors a i) accounts else 0.
Proof.
  intros Hok. revert c rs. induction Hok as [|[n o] accounts [Hn Hv] Hok IH]; intros c rs Hc Hb.
  { exists c. unfold account_roots. cbn. rewrite app_nil_r. split; [done|]. intros a i. case_decide; lia. }
  cbn [fst snd] in *. assert (0 <= sum_with fst accounts) as Hrest.
  { apply sum_with_nonneg. eapply Forall_impl; [exact Hok|]. cbn. tauto. }
  assert (∀ a i, stake_at c a i + 2 * n + 2 * sum_with fst accounts <= u64_max) as Hb'.
  { intros a i. destruct (Hb a i) as [_ H]. unfold sum_with in *. cbn [foldr fst] in H. lia. }
  assert (Hsum : ∀ a i, sum_with (counted ancestors a i) ((n, o) :: accounts) =
    match o with Some v => contribution ancestors v n a i | None => 0 end + sum_with (counted ancestors a i) accounts) by done.
  unfold account_roots. cbn [foldM omap list_omap fst snd]. fold (account_roots accounts).
  destruct (Z.eqb_spec n 0) as [->|Hn0]; [|destruct o as [v|]]; cbn [mbind res_bind option_bind].
  - destruct (IH c rs Hc) as (c' & H & Hs'); [intros a i; specialize (Hb a i); specialize (Hb' a i); lia|].
    exists c'. split; [exact H|]. intros a i. rewrite Hs', Hsum. destruct o; unfold contribution; repeat case_decide; lia.
  - destruct (for_vote_account_spec c rs v ancestors n) as (c1 & -> & Hc1 & H1);
      [done|by apply increasing_sorted|done|by apply Hv|done|intros a i; specialize (Hb a i); specialize (Hb' a i); lia|].
    cbn [mbind res_bind fst snd].
    destruct (IH c1 (rs ++ from_option (λ r, [(r, n)]) [] (root_slot v)) Hc1) as (c' & H & Hs').
    { intros a i. rewrite H1. specialize (Hb a i). specialize (Hb' a i). unfold contribution. repeat case_decide; lia. }
    exists c'. split.
    + rewrite H. do 2 f_equal. rewrite <-app_assoc. f_equal. by destruct (root_slot v).
    + intros a i. rewrite Hs', H1, Hsum. case_decide; lia.
  - destruct (IH c rs Hc) as (c' & H & Hs'); [intros a i; specialize (Hb a i); specialize (Hb' a i); lia|].
    exists c'. split; [exact H|]. intros a i. rewrite Hs', Hsum. case_decide; lia.
Qed.

(** C14. The commitment of an ancestor holds, at each depth, exactly the stake
    of the vote accounts that lock it out at that depth: at the last one if the
    account has rooted it, else at the confirmations of the account's first
    vote at or after it.  An account that has rooted all the ancestors is
    counted twice: at the last depth, and again at the confirmations of its
    first vote at or after the ancestor.  No other slot gets stake, and the
    roots are those of the accounts with stake.  The ancestors are a nonempty
    increasing list (or the call panics), the votes have between 1 and 31
    confirmations, and twice the stake fits [u64]. *)
Theorem commitment_exact accounts :
  accounts_ok accounts → 2 * sum_with fst accounts <= u64_max →
  ∃ c rooted_stake, aggregate_commitment ancestors accounts = Ok (c, rooted_stake) ∧
    (∀ a i, a ∈ ancestors →
       stake_at c a i =
       sum_with (λ x, match x.2 with
         | Some v =>
             (if decide (level v a = Some i) then x.1 else 0) +
             (if decide (rooted_all ancestors v = true ∧ vote_level (votes v) a = Some i) then x.1 else 0)
         | None => 0
         end) accounts) ∧
    (∀ a i, a ∉ ancestors → stake_at c a i = 0) ∧
    rooted_stake = account_roots accounts.
Proof.
  intros Hok Hle.
  assert (∀ a i, stake_at ∅ a i = 0) as H0.
  { intros a i. unfold stake_at, at_slot. rewrite lookup_empty. cbn [default]. unfold BlockCommitment_default.
    destruct (replicate _ 0 !! i) eqn:H; [|done]. apply lookup_replicate in H as [-> _]. done. }
  destruct (aggregate_loop accounts ∅ [] Hok sized_empty) as (c & H & Hs); [intros a i; rewrite H0; lia|].
  exists c, (account_roots accounts). unfold aggregate_commitment. rewrite bool_decide_false, Hinc by done. cbn [orb negb].
  split_and!; [exact H| | |done]; intros a i Ha; rewrite Hs, H0.
  - by rewrite decide_True.
  - by rewrite decide_False.
Qed.
End aggregate.

(** ** The highest confirmed root *)

Definition stake_from (r : Slot) (l : list (Slot * Z)) : Z := sum_with (λ x, if r <=? x.1 then x.2 else 0) l.

Lemma stake_from_nonneg r l : Forall (λ x, 0 <= x.2) l → 0 <= stake_from r l.
Proof. intros H. apply sum_with_nonneg. eapply Forall_impl; [exact H|]. cbn. intros x ?. case_match; lia. Qed.

Lemma highest_root_loop_spec total acc l :
  StronglySorted (λ x y, y.1 <= x.1) l → Forall (λ x, 0 <= x.2) l → 0 <= acc → acc + sum_with snd l <= u64_max →
  let r := highest_root_loop total acc l in
  (∀ r', r' ∈ l.*1 → r < r' → exceeds VOTE_THRESHOLD_SIZE total (acc + stake_from r' l) = false) ∧
  (r = 0 ∨ r ∈ l.*1 ∧ ∃ s, acc <= s <= acc + stake_from r l ∧ exceeds VOTE_THRESHOLD_SIZE total s = true).
Proof.
  intros Hs Hl. revert acc. induction Hs as [|[x s] l Hs IH Hall]; intros acc Hacc Hb; cbn zeta; [split; [set_solver|by left]|].
  inversion Hl as [|? ? Hs0 Hl']; subst. cbn [snd] in Hs0. assert (0 <= sum_with snd l) by (by apply sum_with_nonneg).
  assert (sum_with snd ((x, s) :: l) = s + sum_with snd l) as Hsum by done.
  assert (∀ r', r' <= x → stake_from r' ((x, s) :: l) = s + stake_from r' l) as Hfrom.
  { intros r' Hr'. unfold stake_from, sum_with. cbn [foldr fst snd]. by rewrite (proj2 (Z.leb_le r' x)). }
  assert (∀ r', r' ∈ ((x, s) :: l).*1 → r' <= x) as Hmax.
  { intros r' [->|([y t] & -> & Hin)%list_elem_of_fmap]%elem_of_cons; [cbn; lia|]. apply (proj1 (Forall_forall _ _) Hall) in Hin. exact Hin. }
  cbn [highest_root_loop]. assert (add64 acc s = acc + s) as Hadd by (unfold add64, wrap64; rewrite Z.mod_small; unfold u64_max in *; lia).
  rewrite Hadd. destruct (exceeds VOTE_THRESHOLD_SIZE total (acc + s)) eqn:He.
  - split; [intros r' Hr'%Hmax; lia|]. right. split; [by left|]. exists (acc + s). rewrite Hfrom by lia. pose proof (stake_from_nonneg x l Hl'). split; [lia|done].
  - destruct (IH Hl' (acc + s)) as [IH1 IH2]; [lia|lia|]. split.
    + intros r' Hin Hr'. pose proof (Hmax r' Hin). rewrite Hfrom, Z.add_assoc by done.
      destruct (decide (r' ∈ l.*1)) as [?|Hno]; [by apply IH1|].
      apply elem_of_cons in Hin as [->|?]; [|done]. cbn [fst] in *.
      assert (stake_from x l = 0) as ->; [|by rewrite Z.add_0_r]. unfold stake_from.
      rewrite (sum_with_ext _ (λ _, 0)); [clear; unfold sum_with; induction l; cbn; lia|].
      intros [y t] Hy. cbn. pose proof (proj1 (Forall_forall _ _) Hall _ Hy) as Hyx. cbn in Hyx.
      destruct (Z.leb_spec x y); [|done]. destruct Hno. assert (x = y) as -> by lia. apply (list_elem_of_fmap_2 fst _ _ Hy).
    + destruct IH2 as [?|(Hin & t & Ht & ?)]; [by left|right]. split; [by right|]. exists t. split; [|done].
      rewrite Hfrom by (apply Hmax; by right). lia.
Qed.

(** No root above the highest confirmed root is confirmed: the stake of the
    accounts that have rooted it or a later slot does not exceed the threshold.
    The highest confirmed root itself is reached with some of the stake from it
    on. *)
Theorem highest_confirmed_root_spec rooted_stake total_stake :
  Forall (λ x, 0 <= x.2) rooted_stake → sum_with snd rooted_stake <= u64_max →
  let r := get_highest_confirmed_root rooted_stake total_stake in
  (∀ r', r' ∈ rooted_stake.*1 → r < r' → exceeds VOTE_THRESHOLD_SIZE total_stake (stake_from r' rooted_stake) = false) ∧
  (r = 0 ∨ r ∈ rooted_stake.*1 ∧ ∃ s, 0 <= s <= stake_from r rooted_stake ∧ exceeds VOTE_THRESHOLD_SIZE total_stake s = true).
Proof.
  intros Hl Hb. unfold get_highest_confirmed_root. set (le := λ a b : Slot * Z, b.1 <=? a.1).
  pose proof (sort_by_Permutation le rooted_stake) as Hp.
  destruct (highest_root_loop_spec total_stake 0 (sort_by le rooted_stake)) as [H1 H2].
  - eapply StronglySorted_weaken; [|apply sort_by_sorted]; subst le; cbn; intros; rewrite ?Is_true_true in *; lia.
  - by rewrite Hp.
  - done.
  - rewrite (sum_with_perm _ _ _ Hp). lia.
  - assert (∀ r, stake_from r (sort_by le rooted_stake) = stake_from r rooted_stake) as Hf by (intros; by apply sum_with_perm).
    assert (∀ r, r ∈ (sort_by le rooted_stake).*1 ↔ r ∈ rooted_stake.*1) as Hin by (intros; by rewrite Hp).
    set (r := highest_root_loop _ _ _) in *. split.
    + intros r' Hr'%Hin Hlt. specialize (H1 r' Hr' Hlt). by rewrite Hf in H1.
    + by rewrite Hf, Hin in H2.
Qed.

(** ** Four vote accounts

    On ancestors 3 to 11: one account has rooted slot 4, one has rooted
    nothing, one has no stake, and one has rooted all of them. *)

Module example.
Definition voted (root : option Slot) (l : list (Slot * Z)) : VoteState :=
  mkVoteState Pubkey_default Pubkey_default 0 ((λ x, mkLockout x.1 x.2) <$> l) root [] (CircBuf_default (0, 0, 0)) []
    (mkBlockTimestamp 0 0).
Definition ancestors : list Slot := [3; 4; 5; 7; 9; 10; 11].
Definition accounts : list (Z * option VoteState) :=
  [(5, Some (voted (Some 4) [(6, 3); (9, 2); (10, 1)])); (7, Some (voted None [(5, 2); (7, 1)])); (0, Some (voted (Some 5) []));
   (2, Some (voted (Some 11) [(12, 2); (13, 1)]))].

Lemma accounts_countable : accounts_ok accounts.
Proof.
  unfold accounts_ok, accounts. rewrite !Forall_cons. split_and!; try done; cbn [snd]; intros v [= <-];
    apply (bool_decide_unpack _); vm_compute; exact I.
Qed.

Lemma commitment_exact_witness :
  ∃ c rs, aggregate_commitment ancestors accounts = Ok (c, rs) ∧ stake_at c 4 31 = 7 ∧ stake_at c 5 1 = 9 ∧ rs = [(4, 5); (11, 2)].
Proof.
  destruct (commitment_exact ancestors ltac:(done) eq_refl accounts accounts_countable ltac:(vm_compute; done))
    as (c & rs & H & Hs & _ & Hr).
  exists c, rs. split; [exact H|]. split; [rewrite Hs by (apply (bool_decide_unpack _); vm_compute; exact I); vm_compute; done|].
  split; [rewrite Hs by (apply (bool_decide_unpack _); vm_compute; exact I); vm_compute; done|exact Hr].
Defined.

(** When an account has rooted every ancestor the index stays zero, and its
    next votes count its stake a second time. *)
Theorem rooted_ancestors_counted_twice :
  match aggregate_commitment [3; 4; 5] [(5, Some (voted (Some 5) [(6, 2); (7, 1)]))] with
  | Ok (c, _) => stake_at c 4 31 = 5 ∧ stake_at c 4 1 = 5
  | _ => False
  end.
Proof. vm_compute. done. Qed.
End example.
End commitment.
