(* ===== verification/BankForks.v ===== *)
(** * The banks of the forks

    Models [runtime/src/bank_forks.rs]: the banks that are not yet rooted or
    dropped, by slot, with the descendants of every slot, which replay hands
    to fork choice and to the tower.  The descendants are kept up to date by
    [insert] and [remove]; here they are shown to be always the converse of
    the ancestors of the banks, and a new root to keep exactly the banks of
    the rooted paths.

    Of a bank the component reads its slot, its ancestors, its epoch, the
    epochs it has the stakes of, its height, its hash and whether it is frozen.  The chain of parents a bank
    still points to, which squashing cuts, is an argument. *)

From S2P Require Import Prelude Account Sysvar.

Module bank_forks.

(** ** Banks *)

Record ForkBank : Type := mkForkBank {
  fb_slot : Slot;
  fb_ancestors : gset Slot;
  fb_epoch : Epoch;
  fb_epoch_stakes : gset Epoch;
  fb_block_height : Z;
  fb_hash : Hash;
  fb_frozen : bool;
}.

Definition proper_ancestors (b : ForkBank) : list Slot := filter (λ s, s ≠ fb_slot b) (elements (fb_ancestors b)).

Record BankForks : Type := mkBankForks {
  banks : gmap Slot ForkBank;
  descendants : gmap Slot (gset Slot);
  root : Slot;
  snapshot_config : bool;
  accounts_hash_interval_slots : Z;
  last_accounts_hash_slot : Slot;
}.

Definition with_banks (m : gmap Slot ForkBank) (f : BankForks) : BankForks :=
  mkBankForks m (descendants f) (root f) (snapshot_config f) (accounts_hash_interval_slots f) (last_accounts_hash_slot f).
Definition with_descendants (m : gmap Slot (gset Slot)) (f : BankForks) : BankForks :=
  mkBankForks (banks f) m (root f) (snapshot_config f) (accounts_hash_interval_slots f) (last_accounts_hash_slot f).
Definition with_root (r : Slot) (f : BankForks) : BankForks :=
  mkBankForks (banks f) (descendants f) r (snapshot_config f) (accounts_hash_interval_slots f) (last_accounts_hash_slot f).
Definition with_last_accounts_hash_slot (s : Slot) (f : BankForks) : BankForks :=
  mkBankForks (banks f) (descendants f) (root f) (snapshot_config f) (accounts_hash_interval_slots f) s.
Definition set_snapshot_config (c : bool) (f : BankForks) : BankForks :=
  mkBankForks (banks f) (descendants f) (root f) c (accounts_hash_interval_slots f) (last_accounts_hash_slot f).
Definition set_accounts_hash_interval_slots (n : Z) (f : BankForks) : BankForks :=
  mkBankForks (banks f) (descendants f) (root f) (snapshot_config f) n (last_accounts_hash_slot f).

Definition BF (A : Type) : Type := ST BankForks Empty_set A.

(** ** Reading *)

(** [Index]: panics on a slot without a bank. *)
Definition index (s : Slot) (f : BankForks) : res Empty_set ForkBank := unwrap (banks f !! s).

Definition ancestors (f : BankForks) : gmap Slot (gset Slot) :=
  (λ b, list_to_set (filter (λ k, root f <= k) (proper_ancestors b))) <$> banks f.

Definition frozen_banks (f : BankForks) : gmap Slot ForkBank := filter (λ x, fb_frozen x.2 = true) (banks f).
Definition active_banks (f : BankForks) : list Slot := (filter (λ x, fb_frozen x.2 = false) (map_to_list (banks f))).*1.

Definition get_with_checked_hash (s : Slot) (expected_hash : Hash) (f : BankForks) : res Empty_set (option ForkBank) :=
  match banks f !! s with
  | Some b => if fb_hash b =? expected_hash then Ok (Some b) else Panic
  | None => Ok None
  end.

Definition bank_hash (s : Slot) (f : BankForks) : option Hash := fb_hash <$> banks f !! s.
Definition root_bank (f : BankForks) : res Empty_set ForkBank := index (root f) f.

Definition max_slot (l : list Slot) : option Slot :=
  match l with [] => None | s :: l' => Some (foldl Z.max s l') end.
Definition highest_slot (f : BankForks) : res Empty_set Slot := unwrap (max_slot (fb_slot <$> (map_to_list (banks f)).*2)).
Definition working_bank (f : BankForks) : res Empty_set ForkBank := s ← highest_slot f; index s f.

(** ** Inserting *)

(** [entry(k).or_default()], and inserting into the entry. *)
Definition or_default (k : Slot) (m : gmap Slot (gset Slot)) : gmap Slot (gset Slot) := <[k := default ∅ (m !! k)]> m.
Definition add_descendant (slot : Slot) (m : gmap Slot (gset Slot)) (parent : Slot) : gmap Slot (gset Slot) :=
  <[parent := {[slot]} ∪ default ∅ (m !! parent)]> m.
Definition link (slot : Slot) (b : ForkBank) (m : gmap Slot (gset Slot)) : gmap Slot (gset Slot) :=
  foldl (add_descendant slot) (or_default slot m) (proper_ancestors b).

(** The parents of a fork, up to one that is already there. *)
Fixpoint insert_parents (parents : list ForkBank) (m : gmap Slot ForkBank) : gmap Slot ForkBank :=
  match parents with
  | [] => m
  | p :: l => match m !! fb_slot p with Some _ => m | None => insert_parents l (<[fb_slot p := p]> m) end
  end.

(** Every initial fork comes with the parents it points to. *)
Definition new_from_banks (initial_forks : list (ForkBank * list ForkBank)) (root : Slot) : BankForks :=
  let banks := foldl (λ m x, insert_parents x.2 (<[fb_slot x.1 := x.1]> m)) ∅ initial_forks in
  let descendants := foldl (λ m x, link x.1 x.2 m) ∅ (map_to_list banks) in
  mkBankForks banks descendants root false u64_max root.

Definition new (b : ForkBank) (parents : list ForkBank) : BankForks := new_from_banks [(b, parents)] (fb_slot b).

Definition insert (b : ForkBank) : BF ForkBank :=
  f ← get;
  let prev := banks f !! fb_slot b in
  put (with_banks (<[fb_slot b := b]> (banks f)) f);;
  assert_ (bool_decide (prev = None));;
  modify (λ f, with_descendants (link (fb_slot b) b (descendants f)) f);;
  mret b.

(** ** Removing *)

Fixpoint remove_links (slot : Slot) (banks : gmap Slot ForkBank) (parents : list Slot) (m : gmap Slot (gset Slot))
  : res Empty_set (gmap Slot (gset Slot)) :=
  match parents with
  | [] => Ok m
  | p :: l =>
      d ← (unwrap (m !! p) : res Empty_set (gset Slot));
      let d' : gset Slot := d ∖ {[slot]} in
      remove_links slot banks l
        (if bool_decide (d' = ∅) && bool_decide (banks !! p = None) then delete p m else <[p := d']> m)
  end.

Definition remove (slot : Slot) : BF (option ForkBank) :=
  f ← get;
  match banks f !! slot with
  | None => mret None
  | Some b =>
      put (with_banks (delete slot (banks f)) f);;
      f ← get;
      m ← lift (remove_links slot (banks f) (proper_ancestors b) (descendants f));
      put (with_descendants m f);;
      d ← lift (unwrap (m !! slot) : res Empty_set (gset Slot));
      (if bool_decide (d = ∅) then modify (with_descendants (delete slot m)) else mret tt);;
      mret (Some b)
  end.

(** ** A new root *)

Definition prune_keep (new_root highest_confirmed_root : Slot) (f : BankForks) (slot : Slot) : res Empty_set bool :=
  if slot =? new_root then Ok true
  else
    d ← (unwrap (descendants f !! new_root) : res Empty_set (gset Slot));
    if bool_decide (slot ∈ d) then Ok true
    else if (slot <? new_root) && (highest_confirmed_root <=? slot) then
      d ← (unwrap (descendants f !! slot) : res Empty_set (gset Slot));
      Ok (bool_decide (new_root ∈ d))
    else Ok false.

Fixpoint prune_slots (new_root highest_confirmed_root : Slot) (f : BankForks) (l : list Slot) : res Empty_set (list Slot) :=
  match l with
  | [] => Ok []
  | s :: l' =>
      keep ← prune_keep new_root highest_confirmed_root f s;
      rest ← prune_slots new_root highest_confirmed_root f l';
      Ok (if keep : bool then rest else s :: rest)
  end.

Fixpoint remove_all (l : list Slot) : BF unit :=
  match l with [] => mret tt | s :: l' => remove s;; remove_all l' end.

(** [order] is the order in which the hash map yields its keys. *)
Definition prune_non_rooted (order : gmap Slot ForkBank → list Slot) (new_root : Slot) (highest_confirmed_root : option Slot) : BF unit :=
  f ← get;
  slots ← lift (prune_slots new_root (default new_root highest_confirmed_root) f (order (banks f)));
  remove_all slots.

(** What a new root asks of the rest of the bank: squash a bank, or send a
    snapshot request for the root. *)
Inductive RootEffect : Type :=
| Squash (s : Slot)
| SendSnapshotRequest (snapshot_root : Slot) (deltas_of : Slot).

(** The first bank at the accounts hash interval is squashed. *)
Fixpoint squash_at_interval (snapshot_creation_enabled : bool) (new_root : Slot) (l : list ForkBank) : BF (list RootEffect * bool) :=
  match l with
  | [] => mret ([], false)
  | b :: l' =>
      f ← get;
      if accounts_hash_interval_slots f =? 0 then panic
      else if (fb_block_height b mod accounts_hash_interval_slots f =? 0) && (last_accounts_hash_slot f <? fb_slot b) then
        put (with_last_accounts_hash_slot (fb_slot b) f);;
        request ← (if snapshot_config f && snapshot_creation_enabled then
                     snapshot_root_bank ← lift (root_bank f);
                     mret [SendSnapshotRequest (fb_slot snapshot_root_bank) (fb_slot b)]
                   else mret []);
        mret (Squash (fb_slot b) :: request, fb_slot b =? new_root)
      else squash_at_interval snapshot_creation_enabled new_root l'
  end.

(** The arguments of [info!], which are only evaluated if the level is logged:
    the stakes of the new epoch are unwrapped. *)
Definition log_new_epoch (log_info : bool) (old_epoch : Epoch) (root_bank : ForkBank) : BF unit :=
  if log_info && negb (old_epoch =? fb_epoch root_bank) && negb (bool_decide (fb_epoch root_bank ∈ fb_epoch_stakes root_bank))
  then panic else mret tt.

(** [parents] are the parents the new root's bank still points to. *)
Definition set_root (order : gmap Slot ForkBank → list Slot) (log_info : bool) (new_root : Slot) (parents : list ForkBank)
    (snapshot_creation_enabled : bool) (highest_confirmed_root : option Slot) : BF (list RootEffect) :=
  f ← get;
  old ← lift (root_bank f);
  put (with_root new_root f);;
  b ← lift (unwrap (banks f !! new_root));
  log_new_epoch log_info (fb_epoch old) b;;
  '(effects, is_root_bank_squashed) ← squash_at_interval snapshot_creation_enabled new_root (b :: parents);
  prune_non_rooted order new_root highest_confirmed_root;;
  mret (effects ++ (if is_root_bank_squashed : bool then [] else [Squash new_root])).

(** ** The descendants are the converse of the ancestors *)

Implicit Types (bs : gmap Slot ForkBank) (m : gmap Slot (gset Slot)) (f : BankForks).

Definition linked bs (s d : Slot) : Prop := ∃ b, bs !! d = Some b ∧ s ∈ proper_ancestors b.

Record exact bs m : Prop := {
  exact_keys k b : bs !! k = Some b → fb_slot b = k;
  exact_links s d : d ∈ default ∅ (m !! s) ↔ linked bs s d;
  exact_entries s : is_Some (m !! s) ↔ is_Some (bs !! s) ∨ ∃ d, linked bs s d;
}.

Definition inv f : Prop := exact (banks f) (descendants f).

Lemma proper_ancestors_elem b s : s ∈ proper_ancestors b ↔ s ∈ fb_ancestors b ∧ s ≠ fb_slot b.
Proof. unfold proper_ancestors. rewrite list_elem_of_filter, elem_of_elements. tauto. Qed.

Lemma proper_ancestors_NoDup b : NoDup (proper_ancestors b).
Proof. apply NoDup_filter, NoDup_elements. Qed.

Lemma foldl_add_descendant slot ps m s :
  NoDup ps →
  foldl (add_descendant slot) m ps !! s =
    if decide (s ∈ ps) then Some ({[slot]} ∪ default ∅ (m !! s)) else m !! s.
Proof.
  intros Hnd. revert m. induction Hnd as [|p ps Hp Hnd IH]; intros m; cbn [foldl].
  { by rewrite decide_False by apply not_elem_of_nil. }
  rewrite IH. unfold add_descendant. destruct (decide (s = p)) as [->|Hne].
  - rewrite decide_False by done. rewrite decide_True by (by left). by rewrite lookup_insert_eq.
  - rewrite lookup_insert_ne by done. apply decide_ext. rewrite elem_of_cons. tauto.
Qed.

Lemma link_lookup slot b m s :
  fb_slot b = slot →
  link slot b m !! s =
    if decide (s ∈ proper_ancestors b) then Some ({[slot]} ∪ default ∅ (m !! s))
    else if decide (s = slot) then Some (default ∅ (m !! s)) else m !! s.
Proof.
  intros Hs. unfold link. rewrite foldl_add_descendant by apply proper_ancestors_NoDup. unfold or_default.
  destruct (decide (s = slot)) as [->|Hne]; [|by rewrite lookup_insert_ne].
  rewrite lookup_insert_eq. done.
Qed.

Lemma linked_insert bs slot b s d :
  bs !! slot = None →
  linked (<[slot := b]> bs) s d ↔ linked bs s d ∨ (d = slot ∧ s ∈ proper_ancestors b).
Proof.
  intros Hn. unfold linked. destruct (decide (d = slot)) as [->|Hne].
  - rewrite lookup_insert_eq, Hn. naive_solver.
  - rewrite lookup_insert_ne by done. naive_solver.
Qed.

Lemma exact_link bs m slot b :
  fb_slot b = slot → bs !! slot = None → exact bs m → exact (<[slot := b]> bs) (link slot b m).
Proof.
  intros Hb Hn [Hk Hl He]. split.
  - intros k b'. destruct (decide (k = slot)) as [->|?]; [rewrite lookup_insert_eq|rewrite lookup_insert_ne by done; apply Hk].
    by intros [= <-].
  - intros s d. rewrite linked_insert by done. rewrite <-Hl, link_lookup by done.
    destruct (decide (s ∈ proper_ancestors b)); [cbn; set_solver|]. destruct (decide (s = slot)); naive_solver.
  - intros s. setoid_rewrite linked_insert; [|done]. rewrite link_lookup by done.
    destruct (decide (s ∈ proper_ancestors b)) as [Hin|Hin]; [split; [right; eauto|eauto]|].
    destruct (decide (s = slot)) as [->|Hne].
    + rewrite lookup_insert_eq. split; eauto.
    + rewrite lookup_insert_ne by done. rewrite He. naive_solver.
Qed.

Lemma exact_empty : exact ∅ ∅.
Proof.
  split; [done| |].
  - intros s d. unfold linked. rewrite lookup_empty. cbn. setoid_rewrite lookup_empty. set_solver.
  - intros s. unfold linked. rewrite !lookup_empty. setoid_rewrite lookup_empty.
    split; [intros [? ?]; done|intros [[? ?]|(? & ? & ? & _)]; done].
Qed.

Lemma exact_link_all l bs m :
  NoDup l.*1 → (∀ k b, (k, b) ∈ l → fb_slot b = k ∧ bs !! k = None) → exact bs m →
  exact (foldl (λ bs x, <[x.1 := x.2]> bs) bs l) (foldl (λ m x, link x.1 x.2 m) m l).
Proof.
  revert bs m. induction l as [|[k b] l IH]; intros bs m Hnd Hl He; [done|]. cbn [foldl fst snd].
  apply NoDup_cons in Hnd as [Hk Hnd]. destruct (Hl k b ltac:(by left)) as [Hb Hn]. apply IH; [done| |by apply exact_link].
  intros k' b' Hin. destruct (Hl k' b' ltac:(by right)) as [? ?]. split; [done|].
  rewrite lookup_insert_ne; [done|]. intros <-. apply Hk. apply (list_elem_of_fmap_2 fst _ _ Hin).
Qed.

Lemma foldl_insert_lookup (l : list (Slot * ForkBank)) bs k :
  NoDup l.*1 →
  foldl (λ bs x, <[x.1 := x.2]> bs) bs l !! k =
    match (list_to_map l : gmap Slot ForkBank) !! k with Some b => Some b | None => bs !! k end.
Proof.
  revert bs. induction l as [|[k0 b0] l IH]; intros bs Hnd; [done|]. cbn [foldl fst snd].
  apply NoDup_cons in Hnd as [Hk Hnd]. rewrite IH by done. rewrite list_to_map_cons.
  destruct (decide (k = k0)) as [->|Hne]; [|by rewrite !lookup_insert_ne].
  rewrite !lookup_insert_eq. by rewrite not_elem_of_list_to_map_1.
Qed.

Lemma foldl_insert_map_to_list bs : foldl (λ bs x, <[x.1 := x.2]> bs) ∅ (map_to_list bs) = bs.
Proof.
  apply map_eq. intros k. rewrite foldl_insert_lookup by apply NoDup_fst_map_to_list.
  rewrite list_to_map_to_list. destruct (bs !! k); [done|]. apply lookup_empty.
Qed.

Definition keyed bs : Prop := ∀ k b, bs !! k = Some b → fb_slot b = k.

Lemma keyed_insert bs b : keyed bs → keyed (<[fb_slot b := b]> bs).
Proof.
  intros H k b'. destruct (decide (k = fb_slot b)) as [->|?]; [rewrite lookup_insert_eq; by intros [= <-]|].
  rewrite lookup_insert_ne by done. apply H.
Qed.

Lemma keyed_insert_parents l bs : keyed bs → keyed (insert_parents l bs).
Proof.
  revert bs. induction l as [|p l IH]; intros bs H; cbn [insert_parents]; [done|].
  case_match; [done|]. by apply IH, keyed_insert.
Qed.

Lemma new_from_banks_inv forks r : inv (new_from_banks forks r).
Proof.
  unfold inv, new_from_banks. cbn [banks descendants].
  set (bs := foldl _ _ _). assert (keyed bs) as Hk.
  { assert (keyed ∅) as H0 by (intros k b; by rewrite lookup_empty). subst bs. revert H0. generalize (∅ : gmap Slot ForkBank).
    induction forks as [|x forks IH]; intros bs H0; [done|]. cbn [foldl]. by apply IH, keyed_insert_parents, keyed_insert. }
  rewrite <-(foldl_insert_map_to_list bs) at 1. apply exact_link_all; [apply NoDup_fst_map_to_list| |apply exact_empty].
  intros k b Hin%elem_of_map_to_list. split; [by apply Hk|apply lookup_empty].
Qed.

Lemma insert_inv f f' b x :
  inv f → insert b f = (f', Ok x) →
  inv f' ∧ banks f !! fb_slot b = None ∧ banks f' = <[fb_slot b := b]> (banks f) ∧ root f' = root f.
Proof.
  intros Hi. unfold insert.
  intros (? & ? & [= <- <-] & (? & ? & [= <- <-] & (f1 & [] & Ha & (f2 & [] & [= <-] & [= <- <-])%st_bind_Ok)%st_bind_Ok)%st_bind_Ok)%st_bind_Ok.
  unfold assert_ in Ha. destruct (bool_decide_reflect (banks f !! fb_slot b = None)) as [Hn|]; [|done]. injection Ha as <-.
  split_and!; [|done..]. by apply exact_link.
Qed.

(** ** Removing a bank *)

Lemma remove_links_spec slot bs ps m :
  NoDup ps → (∀ p, p ∈ ps → is_Some (m !! p)) →
  ∃ m', remove_links slot bs ps m = Ok m' ∧
    ∀ s, m' !! s = if decide (s ∈ ps)
                   then let d := default ∅ (m !! s) ∖ {[slot]} in
                        if bool_decide (d = ∅) && bool_decide (bs !! s = None) then None else Some d
                   else m !! s.
Proof.
  intros Hnd. revert m. induction Hnd as [|p ps Hp Hnd IH]; intros m Hm; cbn [remove_links].
  { exists m. split; [done|]. intros s. by rewrite decide_False by apply not_elem_of_nil. }
  destruct (Hm p ltac:(by left)) as [d Hd]. rewrite Hd. cbn [unwrap mbind res_bind].
  match goal with |- context [remove_links _ _ _ ?x] => set (m1 := x) end.
  assert (∀ s, s ≠ p → m1 !! s = m !! s) as Hm1.
  { intros s Hs. subst m1. case_match; [by rewrite lookup_delete_ne|by rewrite lookup_insert_ne]. }
  destruct (IH m1) as (m' & Hr & Hm').
  { intros q Hq. rewrite Hm1 by (intros ->; done). apply Hm. by right. }
  exists m'. split; [exact Hr|]. intros s. rewrite Hm'. destruct (decide (s = p)) as [->|Hne].
  - rewrite decide_False by done. rewrite decide_True by (by left). rewrite Hd. cbn [default from_option id]. subst m1. cbn zeta.
    change (default ∅ (Some d)) with d.
    destruct (_ && _); [apply lookup_delete_eq|apply lookup_insert_eq].
  - rewrite Hm1 by done. apply decide_ext. rewrite elem_of_cons. tauto.
Qed.

Lemma linked_delete bs slot s d : linked (delete slot bs) s d ↔ linked bs s d ∧ d ≠ slot.
Proof.
  unfold linked. destruct (decide (d = slot)) as [->|Hne].
  - rewrite lookup_delete_eq. naive_solver.
  - rewrite lookup_delete_ne by done. naive_solver.
Qed.

(** The converse links and the entries, from a description of the entries. *)
Lemma exact_intro bs m :
  keyed bs → (∀ s d, d ∈ default ∅ (m !! s) ↔ linked bs s d) →
  (∀ s, is_Some (bs !! s) → is_Some (m !! s)) → (∀ s, m !! s = Some ∅ → is_Some (bs !! s)) → exact bs m.
Proof.
  intros Hk Hl Hi He. split; [done|done|]. intros s. split.
  - intros [D HD]. destruct (decide (D = ∅)) as [->|[d Hd]%set_choose_L]; [left; by apply He|].
    right. exists d. apply Hl. by rewrite HD.
  - intros [?|[d Hd%Hl]]; [by apply Hi|]. destruct (m !! s); [eauto|]. cbn in Hd. set_solver.
Qed.

Lemma exact_delete bs m m' slot b :
  exact bs m → bs !! slot = Some b →
  (∀ s, m' !! s = if decide (s ∈ proper_ancestors b)
                  then let d := default ∅ (m !! s) ∖ {[slot]} in
                       if bool_decide (d = ∅) && bool_decide (delete slot bs !! s = None) then None else Some d
                  else m !! s) →
  exact (delete slot bs) (if decide (m' !! slot = Some ∅) then delete slot m' else m').
Proof.
  intros [Hk Hl He] Hb Hm'.
  assert (slot ∉ proper_ancestors b) as Hself by (rewrite proper_ancestors_elem, (Hk _ _ Hb); tauto).
  assert (∀ s d, d ∈ default ∅ (m' !! s) ↔ linked bs s d ∧ d ≠ slot) as Hl'.
  { intros s d. rewrite Hm', <-Hl. destruct (decide (s ∈ proper_ancestors b)) as [Hs|Hs].
    - cbn zeta. destruct (bool_decide_reflect (default ∅ (m !! s) ∖ {[slot]} = ∅)); cbn [andb];
        [destruct (bool_decide _)|]; cbn; set_solver.
    - split; [|tauto]. intros Hd. split; [done|]. intros ->. apply Hl in Hd as (b' & Hb' & ?). congruence. }
  set (m2 := if decide _ then _ else _).
  assert (∀ s, s ≠ slot → m2 !! s = m' !! s) as Hne by (intros s ?; subst m2; case_decide; [by rewrite lookup_delete_ne|done]).
  assert (default ∅ (m2 !! slot) = default ∅ (m' !! slot) ∧ m2 !! slot ≠ Some ∅) as [Heq Hno].
  { subst m2. case_decide as H; [rewrite lookup_delete_eq, H; done|done]. }
  apply exact_intro.
  - intros k b' [_ ?]%lookup_delete_Some. by apply Hk.
  - intros s d. rewrite linked_delete, <-Hl'. destruct (decide (s = slot)) as [->|?]; [by rewrite Heq|by rewrite Hne].
  - intros s. destruct (decide (s = slot)) as [->|Hs]; [rewrite lookup_delete_eq; by intros [? ?]|].
    rewrite Hne, Hm' by done. intros Hi. rewrite (bool_decide_false (delete slot bs !! s = None)) by (destruct Hi; congruence).
    cbn zeta. rewrite ?andb_false_r. case_decide; [eauto|]. apply He. left. by rewrite lookup_delete_ne in Hi.
  - intros s. destruct (decide (s = slot)) as [->|Hs]; [done|]. rewrite Hne, Hm' by done. case_decide as Hin.
    + cbn zeta. destruct (bool_decide_reflect (delete slot bs !! s = None)) as [|Hn]; [|intros _; by apply not_eq_None_Some].
      destruct (bool_decide_reflect (default ∅ (m !! s) ∖ {[slot]} = ∅)); cbn; [done|congruence].
    + intros Hms. rewrite lookup_delete_ne by done. destruct (proj1 (He s) ltac:(eauto)) as [?|[d Hd%Hl]]; [done|].
      rewrite Hms in Hd. cbn in Hd. set_solver.
Qed.

Lemma forks_remove_spec slot f :
  inv f →
  ∃ f', remove slot f = (f', Ok (banks f !! slot)) ∧ inv f' ∧ banks f' = delete slot (banks f) ∧ root f' = root f.
Proof.
  intros Hi. unfold remove. unfold mbind at 1, st_bind. cbn [get]. destruct (banks f !! slot) as [b|] eqn:Hb.
  2: { exists f. split_and!; [done|done|by rewrite delete_id|done]. }
  destruct (remove_links_spec slot (delete slot (banks f)) (proper_ancestors b) (descendants f)) as (m' & Hr & Hm').
  { apply proper_ancestors_NoDup. }
  { intros p Hp. apply (exact_entries _ _ Hi). right. exists slot, b. done. }
  pose proof (exact_delete _ _ _ _ _ Hi Hb Hm') as He. pose proof (Hm' slot) as Hs.
  rewrite decide_False in Hs by (rewrite proper_ancestors_elem, (exact_keys _ _ Hi _ _ Hb); tauto).
  destruct (proj2 (exact_entries _ _ Hi slot) ltac:(left; eauto)) as [D HD]. rewrite HD in Hs.
  unfold mbind, st_bind, put, get, lift, modify. cbn [banks with_banks descendants]. rewrite Hr. cbn [fst snd].
  rewrite Hs. cbn [unwrap]. rewrite Hs in He.
  destruct (bool_decide_reflect (D = ∅)) as [->|Hne].
  - rewrite decide_True in He by done. eexists. split_and!; [done|exact He|done|done].
  - rewrite decide_False in He by congruence. eexists. split_and!; [done|exact He|done|done].
Qed.

(** ** A new root *)

(** A bank is on a rooted path: the root, a bank after it, or a bank before it
    that is not below the highest confirmed root. *)
Definition rooted (r hcr : Slot) (rb : ForkBank) (s : Slot) (b : ForkBank) : Prop :=
  s = r ∨ r ∈ fb_ancestors b ∨ (s < r ∧ hcr <= s ∧ s ∈ fb_ancestors rb).

#[export] Instance rooted_dec r hcr rb s b : Decision (rooted r hcr rb s b).
Proof. unfold rooted. apply _. Defined.

Lemma linked_known bs s d b : bs !! d = Some b → fb_slot b = d → linked bs s d ↔ s ∈ fb_ancestors b ∧ s ≠ d.
Proof. intros Hd Hb. unfold linked. rewrite Hd, <-Hb. setoid_rewrite proper_ancestors_elem. naive_solver. Qed.

Lemma prune_keep_spec r hcr f rb s b :
  inv f → banks f !! r = Some rb → banks f !! s = Some b →
  prune_keep r hcr f s = Ok (bool_decide (rooted r hcr rb s b)).
Proof.
  intros Hi Hr Hs. pose proof (exact_keys _ _ Hi) as Hk. unfold prune_keep, rooted.
  destruct (Z.eqb_spec s r) as [->|Hne]; [by rewrite bool_decide_true by tauto|].
  pose proof (linked_known _ r s b Hs (Hk _ _ Hs)) as Hrs. pose proof (linked_known _ s r rb Hr (Hk _ _ Hr)) as Hsr.
  rewrite <-(exact_links _ _ Hi) in Hrs, Hsr.
  destruct (proj2 (exact_entries _ _ Hi r) ltac:(left; eauto)) as [D HD].
  destruct (proj2 (exact_entries _ _ Hi s) ltac:(left; eauto)) as [D' HD'].
  rewrite HD in Hrs. rewrite HD' in Hsr. rewrite HD. cbn [unwrap mbind res_bind default from_option id] in *.
  change (default ∅ (Some D)) with D in Hrs. change (default ∅ (Some D')) with D' in Hsr.
  destruct (bool_decide_reflect (s ∈ D)) as [Hin|Hin].
  { rewrite bool_decide_true; [done|]. naive_solver. }
  destruct (Z.ltb_spec s r); [destruct (Z.leb_spec hcr s)|]; cbn [andb].
  - rewrite HD'. cbn. f_equal. apply bool_decide_ext. naive_solver lia.
  - rewrite bool_decide_false; [done|]. naive_solver lia.
  - rewrite bool_decide_false; [done|]. naive_solver lia.
Qed.

Lemma prune_slots_spec r hcr f rb l :
  inv f → banks f !! r = Some rb → (∀ s, s ∈ l → is_Some (banks f !! s)) →
  ∃ ps, prune_slots r hcr f l = Ok ps ∧
    ∀ s, s ∈ ps ↔ s ∈ l ∧ ∃ b, banks f !! s = Some b ∧ ¬ rooted r hcr rb s b.
Proof.
  intros Hi Hr. induction l as [|s l IH]; intros Hl; cbn [prune_slots]; [exists []; set_solver|].
  destruct (Hl s ltac:(by left)) as [b Hb]. rewrite (prune_keep_spec r hcr f rb s b) by done.
  destruct IH as (ps & -> & Hps); [intros; apply Hl; by right|]. cbn [mbind res_bind].
  eexists. split; [done|]. intros s'. destruct (bool_decide_reflect (rooted r hcr rb s b)) as [Hy|Hn].
  - rewrite Hps, elem_of_cons. naive_solver.
  - rewrite !elem_of_cons, Hps. naive_solver.
Qed.

Lemma remove_all_spec l f :
  inv f →
  ∃ f', remove_all l f = (f', Ok tt) ∧ inv f' ∧ root f' = root f ∧
    ∀ s, banks f' !! s = if decide (s ∈ l) then None else banks f !! s.
Proof.
  revert f. induction l as [|s l IH]; intros f Hi; cbn [remove_all].
  { exists f. split_and!; [done..|]. intros s. by rewrite decide_False by apply not_elem_of_nil. }
  destruct (forks_remove_spec s f Hi) as (f1 & H1 & Hi1 & Hb1 & Hr1). destruct (IH f1 Hi1) as (f' & H' & Hi' & Hr' & Hb').
  exists f'. split_and!; [unfold mbind, st_bind; by rewrite H1|done|congruence|].
  intros s'. rewrite Hb', Hb1. destruct (decide (s' = s)) as [->|Hne].
  - rewrite lookup_delete_eq. rewrite (decide_True (P:=s ∈ s :: l)) by (by left). by case_decide.
  - rewrite lookup_delete_ne by done. apply decide_ext. rewrite elem_of_cons. tauto.
Qed.

Section set_root.
Context (order : gmap Slot ForkBank → list Slot) (Horder : ∀ bs, order bs ≡ₚ (map_to_list bs).*1).

Lemma order_elem bs s : s ∈ order bs ↔ is_Some (bs !! s).
Proof.
  rewrite Horder, list_elem_of_fmap. split.
  - intros ([k b] & -> & Hin%elem_of_map_to_list). eauto.
  - intros [b Hb]. exists (s, b). split; [done|]. by apply elem_of_map_to_list.
Qed.

Lemma prune_non_rooted_spec r hcr f rb :
  inv f → banks f !! r = Some rb →
  ∃ f', prune_non_rooted order r hcr f = (f', Ok tt) ∧ inv f' ∧ root f' = root f ∧
    ∀ s b, banks f' !! s = Some b ↔ banks f !! s = Some b ∧ rooted r (default r hcr) rb s b.
Proof.
  intros Hi Hr. destruct (prune_slots_spec r (default r hcr) f rb (order (banks f))) as (ps & Hps & Hin); [done|done|by intros s ?%order_elem|].
  destruct (remove_all_spec ps f Hi) as (f' & H & Hi' & Hr' & Hb). exists f'.
  split_and!; [|done|done|].
  - unfold prune_non_rooted, mbind, st_bind, get, lift. by rewrite Hps.
  - intros s b. rewrite Hb. destruct (decide (s ∈ ps)) as [Hp|Hp].
    + apply Hin in Hp as (_ & b' & Hb' & Hn). split; [done|]. intros [? ?]. congruence.
    + split; [|tauto]. intros Hs. split; [done|]. destruct (decide (rooted r (default r hcr) rb s b)); [done|].
      destruct Hp. apply Hin. split; [apply order_elem; eauto|eauto].
Qed.

Lemma squash_at_interval_spec enabled r l f :
  accounts_hash_interval_slots f ≠ 0 → is_Some (banks f !! root f) →
  ∃ f' x, squash_at_interval enabled r l f = (f', Ok x) ∧ banks f' = banks f ∧ descendants f' = descendants f ∧ root f' = root f.
Proof.
  intros H0 [rb Hrb]. apply Z.eqb_neq in H0. induction l as [|b l IH]; cbn [squash_at_interval]; [by eexists _, _|].
  unfold mbind at 1, st_bind at 1. cbn [get]. rewrite H0. destruct (_ && _); [|exact IH].
  unfold mbind, st_bind, put, lift, root_bank, index. rewrite Hrb.
  destruct (snapshot_config f && enabled); by eexists _, _.
Qed.

(** The stakes of the new root's epoch are there if they are logged. *)
Definition stakes_known (log_info : bool) (ob rb : ForkBank) : Prop :=
  log_info = true → fb_epoch ob ≠ fb_epoch rb → fb_epoch rb ∈ fb_epoch_stakes rb.

Lemma log_new_epoch_spec log ob rb f :
  (stakes_known log ob rb → log_new_epoch log (fb_epoch ob) rb f = (f, Ok tt)) ∧
  (¬ stakes_known log ob rb → log_new_epoch log (fb_epoch ob) rb f = (f, Panic)).
Proof.
  unfold log_new_epoch, stakes_known. destruct log, (Z.eqb_spec (fb_epoch ob) (fb_epoch rb)),
    (bool_decide_reflect (fb_epoch rb ∈ fb_epoch_stakes rb)); cbn; split; intros H; try done; exfalso; naive_solver.
Qed.

Lemma set_root_unfold log r ps enabled hcr f ob rb :
  banks f !! root f = Some ob → banks f !! r = Some rb →
  set_root order log r ps enabled hcr f =
  (log_new_epoch log (fb_epoch ob) rb;;
   '(effects, is_root_bank_squashed) ← squash_at_interval enabled r (rb :: ps);
   prune_non_rooted order r hcr;;
   mret (effects ++ (if is_root_bank_squashed : bool then [] else [Squash r]))) (with_root r f).
Proof.
  intros Hob Hr. unfold set_root, get, lift, put, root_bank, index. unfold mbind at 1 2 3 4, st_bind at 1 2 3 4.
  rewrite Hob. cbn [unwrap]. by rewrite Hr.
Qed.

Lemma set_root_spec log r ps enabled hcr f ob rb :
  inv f → accounts_hash_interval_slots f ≠ 0 → banks f !! root f = Some ob → banks f !! r = Some rb → stakes_known log ob rb →
  ∃ f' x, set_root order log r ps enabled hcr f = (f', Ok x) ∧ inv f' ∧ root f' = r ∧
    ∀ s b, banks f' !! s = Some b ↔ banks f !! s = Some b ∧ rooted r (default r hcr) rb s b.
Proof.
  intros Hi H0 Hob Hr Hs. rewrite (set_root_unfold _ _ _ _ _ _ ob rb) by done.
  destruct (squash_at_interval_spec enabled r (rb :: ps) (with_root r f)) as (f1 & [e q] & H1 & Hb1 & Hd1 & Hr1); [done|cbn; eauto|].
  destruct (prune_non_rooted_spec r hcr f1 rb) as (f' & H' & Hi' & Hr' & Hb'); [unfold inv; by rewrite Hb1, Hd1|by rewrite Hb1|].
  eexists f', _. split_and!; [|done|by rewrite Hr', Hr1|intros s b; by rewrite Hb', Hb1].
  unfold mbind, st_bind. rewrite (proj1 (log_new_epoch_spec _ _ _ _) Hs), H1, H'. done.
Qed.

Lemma set_root_inv log r ps enabled hcr f f' x :
  inv f → set_root order log r ps enabled hcr f = (f', Ok x) → inv f'.
Proof.
  intros Hi H. destruct (banks f !! root f) as [ob|] eqn:Hob.
  2: { unfold set_root, mbind, st_bind, get, lift, root_bank, index in H. by rewrite Hob in H. }
  destruct (banks f !! r) as [rb|] eqn:Hr.
  2: { unfold set_root, mbind, st_bind, get, lift, put, root_bank, index in H. rewrite Hob in H. cbn [unwrap] in H. by rewrite Hr in H. }
  assert (Hs : stakes_known log ob rb ∧ accounts_hash_interval_slots f ≠ 0).
  { rewrite (set_root_unfold _ _ _ _ _ _ ob rb) in H by done. apply st_bind_Ok in H as (f1 & [] & Hl & H).
    assert (Hs : stakes_known log ob rb).
    { destruct (decide (fb_epoch rb ∈ fb_epoch_stakes rb)); [by intros ? ?|]. intros -> Hne.
      rewrite (proj2 (log_new_epoch_spec _ _ _ _)) in Hl; [done|]. intros Hs. by specialize (Hs eq_refl Hne). }
    split; [done|]. rewrite (proj1 (log_new_epoch_spec _ _ _ _) Hs) in Hl. injection Hl as <-. intros H0.
    apply st_bind_Ok in H as (f2 & y & Hy & _). cbn [squash_at_interval] in Hy. unfold mbind, st_bind, get in Hy. cbn in Hy. by rewrite H0 in Hy. }
  destruct (set_root_spec log r ps enabled hcr f ob rb) as (f2 & x2 & H2 & Hi2 & _); [done|apply Hs|done|done|apply Hs|]. congruence.
Qed.

(** C23. A new root succeeds when the old and the new root have banks, the
    hash interval is not zero, and, if the root enters another epoch and the
    info level is logged, the new root's bank has the stakes of its epoch.  In
    whatever order the hash map is walked, the banks kept are exactly the
    root, the banks that descend from it, and its ancestors from the highest
    confirmed root on.  Where the stakes are missing it panics.  It starts in
    any state in which [descendants] is the converse of the ancestors, as
    [descendants_exact] shows of every state in use. *)
Theorem set_root_keeps_rooted log r ps enabled hcr f ob rb :
  inv f → accounts_hash_interval_slots f ≠ 0 → banks f !! root f = Some ob → banks f !! r = Some rb →
  let stakes_missing := log = true ∧ fb_epoch ob ≠ fb_epoch rb ∧ fb_epoch rb ∉ fb_epoch_stakes rb in
  (stakes_missing → (set_root order log r ps enabled hcr f).2 = Panic) ∧
  (¬ stakes_missing →
   ∃ f' x, set_root order log r ps enabled hcr f = (f', Ok x) ∧ root f' = r ∧
    (∀ s b, banks f' !! s = Some b ↔
       banks f !! s = Some b ∧ (s = r ∨ r ∈ fb_ancestors b ∨ (s < r ∧ default r hcr <= s ∧ s ∈ fb_ancestors rb))) ∧
    (∀ s D, descendants f' !! s = Some D → ∀ d, d ∈ D → is_Some (banks f' !! d))).
Proof.
  intros Hi H0 Ho Hr. cbn zeta. split.
  { intros (Hl & He & Hn). rewrite (set_root_unfold _ _ _ _ _ _ ob rb) by done. unfold mbind at 1, st_bind at 1.
    rewrite (proj2 (log_new_epoch_spec _ _ _ _)); [done|]. intros Hs. by apply Hn, Hs. }
  intros Hs. assert (Hk : stakes_known log ob rb).
  { intros Hl He. destruct (decide (fb_epoch rb ∈ fb_epoch_stakes rb)); [done|tauto]. }
  destruct (set_root_spec log r ps enabled hcr f ob rb) as (f' & x & H & Hi' & Hr' & Hb); [done..|].
  exists f', x. split_and!; [done|done|done|]. intros s D HD d Hd.
  destruct (proj1 (exact_links _ _ Hi' s d)) as (b & ? & _); [by rewrite HD|]. eauto.
Qed.
End set_root.

(** ** Reachable forks *)

Inductive reachable : BankForks → Prop :=
| reach_new forks r : reachable (new_from_banks forks r)
| reach_insert f f' b x : reachable f → insert b f = (f', Ok x) → reachable f'
| reach_remove f f' s x : reachable f → remove s f = (f', Ok x) → reachable f'
| reach_set_root f f' order log r ps enabled hcr x :
    reachable f → (∀ bs, order bs ≡ₚ (map_to_list bs).*1) →
    set_root order log r ps enabled hcr f = (f', Ok x) → reachable f'
| reach_snapshot_config f c : reachable f → reachable (set_snapshot_config c f)
| reach_hash_interval f n : reachable f → reachable (set_accounts_hash_interval_slots n f).

Lemma reachable_inv f : reachable f → inv f.
Proof.
  induction 1 as [forks r|f f' b x _ IH H|f f' s x _ IH H|f f' order log r ps enabled hcr x _ IH Ho H|f c _ IH|f n _ IH].
  - apply new_from_banks_inv.
  - by eapply insert_inv.
  - destruct (forks_remove_spec s f IH) as (f2 & H2 & ? & _). congruence.
  - by eapply set_root_inv.
  - exact IH.
  - exact IH.
Qed.

(** C13. After any inserts, removals and new roots, the descendants of a slot
    are exactly the banks that have it as an ancestor, and there is an entry
    exactly for the banks and their ancestors; from the root on they are the
    converse of [ancestors].  So no removal finds an entry missing. *)
Theorem descendants_exact f :
  reachable f →
  (∀ s d, (∃ D, descendants f !! s = Some D ∧ d ∈ D) ↔ ∃ b, banks f !! d = Some b ∧ s ∈ fb_ancestors b ∧ s ≠ d) ∧
  (∀ s, is_Some (descendants f !! s) ↔ ∃ d b, banks f !! d = Some b ∧ (s = d ∨ s ∈ fb_ancestors b)) ∧
  (∀ s d, root f <= s →
     (∃ D, descendants f !! s = Some D ∧ d ∈ D) ↔ ∃ A, ancestors f !! d = Some A ∧ s ∈ A) ∧
  ∀ slot, ∃ f', remove slot f = (f', Ok (banks f !! slot)) ∧ banks f' = delete slot (banks f).
Proof.
  intros Hi%reachable_inv. pose proof (exact_keys _ _ Hi) as Hk.
  assert (∀ s d, linked (banks f) s d ↔ ∃ b, banks f !! d = Some b ∧ s ∈ fb_ancestors b ∧ s ≠ d) as Hlk.
  { intros s d. unfold linked. setoid_rewrite proper_ancestors_elem. split; intros (b & Hb & ?); pose proof (Hk _ _ Hb); naive_solver. }
  assert (∀ s d, (∃ D, descendants f !! s = Some D ∧ d ∈ D) ↔ linked (banks f) s d) as Hl.
  { intros s d. rewrite <-(exact_links _ _ Hi). destruct (descendants f !! s); cbn; [naive_solver|set_solver]. }
  split_and!.
  - intros s d. rewrite Hl. apply Hlk.
  - intros s. rewrite (exact_entries _ _ Hi). setoid_rewrite Hlk. split.
    + intros [[b Hb]|(d & b & ? & ? & _)]; [exists s, b; tauto|exists d, b; tauto].
    + intros (d & b & Hb & Hs). destruct (decide (s = d)) as [->|]; [left; eauto|right; exists d, b; tauto].
  - intros s d Hrs. rewrite Hl. unfold ancestors. setoid_rewrite lookup_fmap. unfold linked.
    destruct (banks f !! d) as [b|]; cbn; [|naive_solver].
    setoid_rewrite (inj_iff Some). split; [intros (? & <- & ?)|intros (? & <- & Hin)].
    + eexists. split; [done|]. apply elem_of_list_to_set, list_elem_of_filter. done.
    + apply elem_of_list_to_set, list_elem_of_filter in Hin as [_ ?]. eauto.
  - intros slot. destruct (forks_remove_spec slot f Hi) as (f' & ? & _ & ? & _). eauto.
Qed.

(** ** The forks of the source's comment

    Slots 0 to 6 with root 3 and the highest confirmed root 0: the banks of
    slots 2 and 4 go. *)

Module example.
Definition bank_at (s : Slot) (a : list Slot) : ForkBank := mkForkBank s (list_to_set (s :: a)) (if s <? 3 then 0 else 1) {[1]} s s true.
Definition forks : BankForks :=
  new_from_banks [(bank_at 6 [3; 1; 0], [bank_at 3 [1; 0]; bank_at 1 [0]; bank_at 0 []]);
                  (bank_at 5 [3; 1; 0], [bank_at 3 [1; 0]]); (bank_at 4 [2; 0], [bank_at 2 [0]; bank_at 0 []])] 0.
Definition order (bs : gmap Slot ForkBank) : list Slot := (map_to_list bs).*1.

Lemma set_root_keeps_rooted_witness :
  ∃ f' x, set_root order true 3 [bank_at 1 [0]; bank_at 0 []] true (Some 0) forks = (f', Ok x) ∧
    banks f' !! 4 = None ∧ is_Some (banks f' !! 1).
Proof.
  destruct (set_root_keeps_rooted order (λ bs, reflexivity _) true 3 [bank_at 1 [0]; bank_at 0 []] true (Some 0) forks
    (bank_at 0 []) (bank_at 3 [1; 0])) as [_ (f' & x & H & _ & Hb & _)].
  - apply reachable_inv, reach_new.
  - done.
  - vm_compute. done.
  - vm_compute. done.
  - intros (_ & _ & Hn). apply Hn. apply (bool_decide_unpack _). vm_compute. exact I.
  - exists f', x. split; [exact H|]. split.
    + destruct (banks f' !! 4) as [b|] eqn:E; [|done]. apply Hb in E as [E Hk]. exfalso.
      assert (banks forks !! 4 = Some (bank_at 4 [2; 0])) as E' by (vm_compute; done). rewrite E' in E. injection E as <-.
      assert (3 ∉ fb_ancestors (bank_at 4 [2; 0])) as Hno by (apply (bool_decide_unpack _); vm_compute; exact I).
      destruct Hk as [Hk|[Hk|[Hk _]]]; [done|exact (Hno Hk)|lia].
    + exists (bank_at 1 [0]). refine (proj2 (Hb _ _) _). split; [vm_compute; done|]. right. right. apply (bool_decide_unpack _). vm_compute. exact I.
Defined.

Lemma descendants_exact_witness :
  ∃ D, descendants forks !! 3 = Some D ∧ 6 ∈ D.
Proof.
  refine (proj2 (proj1 (descendants_exact forks (reach_new _ _)) 3 6) _). exists (bank_at 6 [3; 1; 0]).
  split; [vm_compute; done|]. apply (bool_decide_unpack _). vm_compute. exact I.
Defined.
End example.
End bank_forks.
