(* ===== verification/ForkChoice.v ===== *)
(** * Fork choice

    Models [core/src/heaviest_subtree_fork_choice.rs], the tree walk of
    [core/src/tree_diff.rs], the stake lookup of [runtime/src/epoch_stakes.rs]
    and [core/src/latest_validator_votes_for_frozen_banks.rs].  The timed
    logging of [add_new_leaf_slot] is left out.  Walks over the tree take as
    fuel the number of its nodes (one more where they start outside); a walk
    that runs out of fuel panics or stops. *)

From S2P Require Import Prelude Account Sysvar.

Module fork_choice.

(** ** Keys, labels and operations *)

Abbreviation SlotHashKey := (Z * Z)%type (only parsing).

(** The derived [Ord] of pairs. *)
Definition key_ltb (a b : SlotHashKey) : bool :=
  (a.1 <? b.1) || ((a.1 =? b.1) && (a.2 <? b.2)).

Definition SlotHashKey_default : SlotHashKey := (0, Hash_default).

Inductive UpdateLabel : Type :=
| L_Aggregate
| L_Add
| L_MarkValid (slot : Slot)
| L_MarkInvalid (slot : Slot)
| L_Subtract.

(** The derived [Ord] compares the constructors' positions, then the slots. *)
Definition label_code (l : UpdateLabel) : Z * Z :=
  match l with
  | L_Aggregate => (0, 0)
  | L_Add => (1, 0)
  | L_MarkValid s => (2, s)
  | L_MarkInvalid s => (3, s)
  | L_Subtract => (4, 0)
  end.

Definition label_decode (c : Z * Z) : option UpdateLabel :=
  match c.1 with
  | 0 => Some L_Aggregate
  | 1 => Some L_Add
  | 2 => Some (L_MarkValid c.2)
  | 3 => Some (L_MarkInvalid c.2)
  | 4 => Some L_Subtract
  | _ => None
  end.

#[export] Instance UpdateLabel_eq_dec : EqDecision UpdateLabel.
Proof. solve_decision. Defined.
#[export] Program Instance UpdateLabel_countable : Countable UpdateLabel :=
  inj_countable label_code label_decode _.
Next Obligation. by intros []. Qed.

Inductive UpdateOperation : Type :=
| Add (stake : Z)
| MarkValid (slot : Slot)
| MarkInvalid (slot : Slot)
| Subtract (stake : Z)
| Aggregate.

Definition update_stake {E : Type} (new_stake : Z) (op : UpdateOperation) : res E UpdateOperation :=
  match op with
  | Aggregate | MarkValid _ | MarkInvalid _ => Panic
  | Add stake => Ok (Add (add64 stake new_stake))
  | Subtract stake => Ok (Subtract (add64 stake new_stake))
  end.

(** The [BTreeMap] of operations; its order matters for iteration only. *)
Abbreviation UpdateOperations := (gmap (SlotHashKey * UpdateLabel) UpdateOperation) (only parsing).

(** Operations in decreasing order of their labelled keys. *)
Definition op_after (x y : SlotHashKey * UpdateLabel * UpdateOperation) : bool :=
  let '(k, l, _) := x in
  let '(k', l', _) := y in
  key_ltb k' k || (bool_decide (k = k') && negb (key_ltb (label_code l) (label_code l'))).

Definition into_iter_rev (ops : UpdateOperations) : list (SlotHashKey * UpdateLabel * UpdateOperation) :=
  sort_by op_after (map_to_list ops).

(** ** Fork infos *)

Record ForkInfo : Type := mkForkInfo {
  stake_voted_at : Z;
  stake_voted_subtree : Z;
  best_slot : SlotHashKey;
  parent : option SlotHashKey;
  children : list SlotHashKey;
  latest_invalid_ancestor : option Slot;
  is_duplicate_confirmed : bool;
}.

Definition with_stakes (at_ subtree : Z) (i : ForkInfo) : ForkInfo :=
  mkForkInfo at_ subtree (best_slot i) (parent i) (children i) (latest_invalid_ancestor i)
    (is_duplicate_confirmed i).
Definition with_best_slot (b : SlotHashKey) (i : ForkInfo) : ForkInfo :=
  mkForkInfo (stake_voted_at i) (stake_voted_subtree i) b (parent i) (children i)
    (latest_invalid_ancestor i) (is_duplicate_confirmed i).
Definition with_parent (p : option SlotHashKey) (i : ForkInfo) : ForkInfo :=
  mkForkInfo (stake_voted_at i) (stake_voted_subtree i) (best_slot i) p (children i)
    (latest_invalid_ancestor i) (is_duplicate_confirmed i).
Definition push_child (c : SlotHashKey) (i : ForkInfo) : ForkInfo :=
  mkForkInfo (stake_voted_at i) (stake_voted_subtree i) (best_slot i) (parent i) (children i ++ [c])
    (latest_invalid_ancestor i) (is_duplicate_confirmed i).
Definition with_validity (invalid : option Slot) (confirmed : bool) (i : ForkInfo) : ForkInfo :=
  mkForkInfo (stake_voted_at i) (stake_voted_subtree i) (best_slot i) (parent i) (children i)
    invalid confirmed.

Definition info_is_unconfirmed_duplicate (my_slot : Slot) (i : ForkInfo) : bool :=
  match latest_invalid_ancestor i with
  | Some ancestor => ancestor =? my_slot
  | None => false
  end.

Definition info_is_candidate (i : ForkInfo) : bool := bool_decide (latest_invalid_ancestor i = None).

Definition set_duplicate_confirmed (i : ForkInfo) : ForkInfo := with_validity None true i.

Definition update_with_newly_valid_ancestor (newly_valid_ancestor : Slot) (i : ForkInfo) : ForkInfo :=
  match latest_invalid_ancestor i with
  | Some l => if l <=? newly_valid_ancestor then with_validity None (is_duplicate_confirmed i) i else i
  | None => i
  end.

Definition update_with_newly_invalid_ancestor {E : Type} (newly_invalid_ancestor : Slot) (i : ForkInfo)
    : res E ForkInfo :=
  if is_duplicate_confirmed i then Panic
  else if match latest_invalid_ancestor i with
          | Some l => l <? newly_invalid_ancestor
          | None => true
          end
  then Ok (with_validity (Some newly_invalid_ancestor) (is_duplicate_confirmed i) i)
  else Ok i.

(** ** The tree *)

Record HeaviestSubtreeForkChoice : Type := mkForkChoice {
  fork_infos : gmap SlotHashKey ForkInfo;
  latest_votes : gmap Pubkey SlotHashKey;
  root : SlotHashKey;
}.
Abbreviation Tree := (gmap (Z * Z) ForkInfo) (only parsing).

(** Methods do not return errors; they may panic. *)
Abbreviation FC := (ST HeaviestSubtreeForkChoice Empty_set) (only parsing).

Definition with_infos (m : Tree) (f : HeaviestSubtreeForkChoice) : HeaviestSubtreeForkChoice :=
  mkForkChoice m (latest_votes f) (root f).
Definition with_votes (v : gmap Pubkey SlotHashKey) (f : HeaviestSubtreeForkChoice)
    : HeaviestSubtreeForkChoice :=
  mkForkChoice (fork_infos f) v (root f).
Definition with_root (k : SlotHashKey) (f : HeaviestSubtreeForkChoice) : HeaviestSubtreeForkChoice :=
  mkForkChoice (fork_infos f) (latest_votes f) k.
Definition update_infos (g : Tree → Tree) : FC unit := modify (λ f, with_infos (g (fork_infos f)) f).

Section queries.
Implicit Types m : Tree.

Definition contains_block m (k : SlotHashKey) : bool := bool_decide (is_Some (m !! k)).
Definition fc_best_slot m (k : SlotHashKey) : option SlotHashKey := best_slot <$> m !! k.
Definition fc_stake_voted_subtree m (k : SlotHashKey) : option Z := stake_voted_subtree <$> m !! k.
Definition fc_stake_voted_at m (k : SlotHashKey) : option Z := stake_voted_at <$> m !! k.
Definition fc_latest_invalid_ancestor m (k : SlotHashKey) : option Slot :=
  m !! k ≫= latest_invalid_ancestor.
Definition fc_is_duplicate_confirmed m (k : SlotHashKey) : option bool := is_duplicate_confirmed <$> m !! k.
Definition is_unconfirmed_duplicate m (k : SlotHashKey) : option bool :=
  info_is_unconfirmed_duplicate k.1 <$> m !! k.
Definition is_candidate m (k : SlotHashKey) : option bool := info_is_candidate <$> m !! k.
Definition fc_parent m (k : SlotHashKey) : option SlotHashKey := m !! k ≫= parent.
Definition fc_children m (k : SlotHashKey) : option (list SlotHashKey) := children <$> m !! k.

(** [Ordering::Less] for [Lt]. *)
Definition max_by_weight {E : Type} m (slot1 slot2 : SlotHashKey) : res E comparison :=
  weight1 ← unwrap (fc_stake_voted_subtree m slot1);
  weight2 ← unwrap (fc_stake_voted_subtree m slot2);
  Ok (if weight1 =? weight2
      then if key_ltb slot1 slot2 then Gt else if key_ltb slot2 slot1 then Lt else Eq
      else weight1 ?= weight2).

(** The ancestor iterator: parents, from the node's own upwards. *)
Fixpoint ancestors_loop m (fuel : nat) (k : SlotHashKey) : list SlotHashKey :=
  match fuel with
  | O => []
  | S fuel' =>
      match fc_parent m k with
      | Some p => p :: ancestors_loop m fuel' p
      | None => []
      end
  end.

Definition ancestor_iterator m (k : SlotHashKey) : list SlotHashKey :=
  ancestors_loop m (S (size m)) k.

Definition is_strict_ancestor m (maybe_ancestor_key node_key : SlotHashKey) : bool :=
  if bool_decide (maybe_ancestor_key = node_key) then false
  else if node_key.1 <? maybe_ancestor_key.1 then false
  else bool_decide (maybe_ancestor_key ∈ ancestor_iterator m node_key).

Fixpoint subtree_loop {E : Type} m (root2 : SlotHashKey) (fuel : nat) (pending_keys : list SlotHashKey)
    (reachable_set : gset SlotHashKey) : res E (gset SlotHashKey) :=
  match pending_keys with
  | [] => Ok reachable_set
  | current_key :: pending_keys =>
      match fuel with
      | O => Panic
      | S fuel' =>
          if bool_decide (current_key = root2) then subtree_loop m root2 fuel' pending_keys reachable_set
          else
            cs ← unwrap (fc_children m current_key);
            subtree_loop m root2 fuel' (reverse cs ++ pending_keys) ({[current_key]} ∪ reachable_set)
      end
  end.

(** The vector's end, where keys are pushed and popped, is the list's head. *)
Definition subtree_diff {E : Type} m (root1 root2 : SlotHashKey) : res E (gset SlotHashKey) :=
  if negb (contains_block m root1) then Ok ∅ else subtree_loop m root2 (size m) [root1] ∅.

Fixpoint no_better_child {E : Type} m (k : SlotHashKey) (weight : Z) (cs : list SlotHashKey) : res E bool :=
  match cs with
  | [] => Ok true
  | child :: cs' =>
      child_weight ← unwrap (fc_stake_voted_subtree m child);
      candidate ← unwrap (is_candidate m child);
      if negb candidate then no_better_child m k weight cs'
      else if (weight <? child_weight) || ((weight =? child_weight) && key_ltb child k) then Ok false
      else no_better_child m k weight cs'
  end.

Definition is_best_child {E : Type} m (maybe_best_child : SlotHashKey) : res E bool :=
  weight ← unwrap (fc_stake_voted_subtree m maybe_best_child);
  match fc_parent m maybe_best_child with
  | None => Ok true
  | Some p => cs ← unwrap (fc_children m p); no_better_child m maybe_best_child weight cs
  end.
End queries.

Definition best_overall_slot : FC SlotHashKey :=
  f ← get; lift (unwrap (fc_best_slot (fork_infos f) (root f))).

(** ** Adding and removing nodes *)

Fixpoint propagate_loop {E : Type} (k old_best : SlotHashKey) (fuel : nat) (ancestor : option SlotHashKey)
    (m : Tree) : res E Tree :=
  match ancestor with
  | None => Ok m
  | Some a =>
      match fuel with
      | O => Panic
      | S fuel' =>
          i ← unwrap (m !! a);
          if bool_decide (best_slot i = old_best)
          then propagate_loop k old_best fuel' (parent i) (<[a := with_best_slot k i]> m)
          else Ok m
      end
  end.

Definition propagate_new_leaf (slot_hash_key parent_slot_hash_key : SlotHashKey) : FC unit :=
  f ← get;
  let m := fork_infos f in
  parent_best_slot_hash_key ← lift (unwrap (fc_best_slot m parent_slot_hash_key));
  best ← lift (is_best_child m slot_hash_key);
  if best : bool then
    m' ← lift (propagate_loop slot_hash_key parent_best_slot_hash_key (size m)
                 (Some parent_slot_hash_key) m);
    update_infos (λ _, m')
  else mret tt.

Definition leaf_info (slot_hash_key : SlotHashKey) (p : option SlotHashKey) (invalid : option Slot)
    : ForkInfo :=
  mkForkInfo 0 0 slot_hash_key p [] invalid (bool_decide (p = None)).

Definition add_new_leaf_slot (slot_hash_key : SlotHashKey) (p : option SlotHashKey) : FC unit :=
  f ← get;
  if contains_block (fork_infos f) slot_hash_key then mret tt
  else
    let parent_latest_invalid_ancestor := p ≫= fc_latest_invalid_ancestor (fork_infos f) in
    update_infos (λ m, <[slot_hash_key := leaf_info slot_hash_key p parent_latest_invalid_ancestor]> m);;
    match p with
    | None => mret tt
    | Some p =>
        f ← get;
        i ← lift (unwrap (fork_infos f !! p));
        update_infos (λ m, <[p := push_child slot_hash_key i]> m);;
        propagate_new_leaf slot_hash_key p
    end.

(** [HeaviestSubtreeForkChoice::new] *)
Definition fork_choice_new (r : SlotHashKey) : HeaviestSubtreeForkChoice :=
  (add_new_leaf_slot r None (mkForkChoice ∅ ∅ r)).1.

(** What is read of a bank. *)
Record BankInfo : Type := mkBankInfo {
  bank_slot : Slot;
  bank_hash : Hash;
  bank_parent_slot : Slot;
  bank_parent_hash : Hash;
  bank_is_frozen : bool;
}.

Fixpoint add_frozen_banks (root_slot prev_slot : Slot) (banks : list BankInfo) : FC unit :=
  match banks with
  | [] => mret tt
  | b :: banks' =>
      assert_ (bank_is_frozen b);;
      if root_slot <? bank_slot b then
        assert_ (prev_slot <? bank_slot b);;
        assert_ (negb (bank_hash b =? Hash_default));;
        assert_ (negb (bank_parent_hash b =? Hash_default));;
        add_new_leaf_slot (bank_slot b, bank_hash b) (Some (bank_parent_slot b, bank_parent_hash b));;
        add_frozen_banks root_slot (bank_slot b) banks'
      else add_frozen_banks root_slot prev_slot banks'
  end.

Definition new_from_frozen_banks (r : SlotHashKey) (frozen_banks : list BankInfo)
    : HeaviestSubtreeForkChoice * res Empty_set unit :=
  add_frozen_banks r.1 r.1 frozen_banks (fork_choice_new r).

Definition set_root (new_root : SlotHashKey) : FC unit :=
  f ← get;
  remove_set ← lift (subtree_diff (fork_infos f) (root f) new_root);
  m ← lift (foldM (λ m k, _ ← unwrap (m !! k); Ok (delete k m)) (fork_infos f) (elements remove_set));
  update_infos (λ _, m);;
  i ← lift (unwrap (m !! new_root));
  update_infos (λ m, <[new_root := with_parent None i]> m);;
  modify (with_root new_root).

Definition add_root_parent (root_parent : SlotHashKey) : FC unit :=
  f ← get;
  assert_ (root_parent.1 <? (root f).1);;
  assert_ (negb (contains_block (fork_infos f) root_parent));;
  i ← lift (unwrap (fork_infos f !! root f));
  update_infos (λ m,
    <[root_parent := mkForkInfo 0 (stake_voted_subtree i) (best_slot i) None [root f] None
                       (is_duplicate_confirmed i)]>
    (<[root f := with_parent (Some root_parent) i]> m));;
  modify (with_root root_parent).

(** ** Update operations *)

Definition do_insert_aggregate_operation (modify_fork_validity : option UpdateOperation)
    (k : SlotHashKey) (ops : UpdateOperations) : bool * UpdateOperations :=
  if bool_decide (is_Some (ops !! (k, L_Aggregate))) then (false, ops)
  else
    let ops :=
      match modify_fork_validity with
      | Some (MarkValid slot) => <[(k, L_MarkValid slot) := MarkValid slot]> ops
      | Some (MarkInvalid slot) => <[(k, L_MarkInvalid slot) := MarkInvalid slot]> ops
      | _ => ops
      end in
    (true, <[(k, L_Aggregate) := Aggregate]> ops).

Fixpoint do_insert_aggregate_operations_across_ancestors (modify_fork_validity : option UpdateOperation)
    (ancestors : list SlotHashKey) (ops : UpdateOperations) : UpdateOperations :=
  match ancestors with
  | [] => ops
  | a :: ancestors' =>
      let '(inserted, ops) := do_insert_aggregate_operation modify_fork_validity a ops in
      if inserted then do_insert_aggregate_operations_across_ancestors modify_fork_validity ancestors' ops
      else ops
  end.

Definition insert_aggregate_operations (m : Tree) (k : SlotHashKey) (ops : UpdateOperations)
    : UpdateOperations :=
  do_insert_aggregate_operations_across_ancestors None (ancestor_iterator m k) ops.

(** The loop over the children in [aggregate_slot]. *)
Record Aggregated : Type := mkAggregated {
  agg_stake : Z;
  agg_best_child_stake : Z;
  agg_best_child : SlotHashKey;
  agg_best_slot : SlotHashKey;
  agg_confirmed : bool;
}.

Definition aggregate_child {E : Type} (m : Tree) (k : SlotHashKey) (a : Aggregated) (child_key : SlotHashKey)
    : res E Aggregated :=
  child ← unwrap (m !! child_key);
  let child_stake := stake_voted_subtree child in
  let confirmed := agg_confirmed a || is_duplicate_confirmed child in
  let stake := add64 (agg_stake a) child_stake in
  Ok (if info_is_candidate child &&
         (bool_decide (agg_best_child a = k) || (agg_best_child_stake a <? child_stake) ||
          ((child_stake =? agg_best_child_stake a) && key_ltb child_key (agg_best_child a)))
      then mkAggregated stake child_stake child_key (best_slot child) confirmed
      else mkAggregated stake (agg_best_child_stake a) (agg_best_child a) (agg_best_slot a) confirmed).

Definition aggregate_info (a : Aggregated) (i : ForkInfo) : ForkInfo :=
  let i := if agg_confirmed a then set_duplicate_confirmed i else i in
  with_best_slot (agg_best_slot a) (with_stakes (stake_voted_at i) (agg_stake a) i).

Definition aggregate_slot (k : SlotHashKey) : FC unit :=
  f ← get;
  match fork_infos f !! k with
  | None => mret tt
  | Some i =>
      a ← lift (foldM (aggregate_child (fork_infos f) k)
                  (mkAggregated (stake_voted_at i) 0 k k false) (children i));
      update_infos (λ m, <[k := aggregate_info a i]> m)
  end.

Definition mark_fork_valid (fork_to_modify_key : SlotHashKey) (valid_slot : Slot) : FC unit :=
  update_infos (λ m,
    match m !! fork_to_modify_key with
    | Some i =>
        let i := update_with_newly_valid_ancestor valid_slot i in
        <[fork_to_modify_key :=
            if fork_to_modify_key.1 =? valid_slot
            then with_validity (latest_invalid_ancestor i) true i else i]> m
    | None => m
    end).

Definition mark_fork_invalid (fork_to_modify_key : SlotHashKey) (invalid_slot : Slot) : FC unit :=
  f ← get;
  match fork_infos f !! fork_to_modify_key with
  | Some i =>
      i ← lift (update_with_newly_invalid_ancestor invalid_slot i);
      update_infos (λ m, <[fork_to_modify_key := i]> m)
  | None => mret tt
  end.

Definition add_slot_stake (k : SlotHashKey) (stake : Z) : FC unit :=
  update_infos (alter (λ i,
    with_stakes (add64 (stake_voted_at i) stake) (add64 (stake_voted_subtree i) stake) i) k).

Definition subtract_slot_stake (k : SlotHashKey) (stake : Z) : FC unit :=
  update_infos (alter (λ i,
    with_stakes (sub64 (stake_voted_at i) stake) (sub64 (stake_voted_subtree i) stake) i) k).

Definition process_operation (k : SlotHashKey) (op : UpdateOperation) : FC unit :=
  match op with
  | MarkValid valid_slot => mark_fork_valid k valid_slot
  | MarkInvalid invalid_slot => mark_fork_invalid k invalid_slot
  | Aggregate => aggregate_slot k
  | Add stake => add_slot_stake k stake
  | Subtract stake => subtract_slot_stake k stake
  end.

Fixpoint process_operations (l : list (SlotHashKey * UpdateLabel * UpdateOperation)) : FC unit :=
  match l with
  | [] => mret tt
  | (k, _, op) :: l' => process_operation k op;; process_operations l'
  end.

Definition process_update_operations (ops : UpdateOperations) : FC unit :=
  process_operations (into_iter_rev ops).

(** ** Votes *)

(** The stakes of an epoch, by vote account. *)
Abbreviation EpochStakes := (gmap Pubkey Z) (only parsing).

Definition vote_account_stake (stakes : EpochStakes) (vote_account : Pubkey) : Z :=
  default 0 (stakes !! vote_account).

Section votes.
Context (epoch_stakes : gmap Epoch EpochStakes) (epoch_schedule : EpochSchedule).

(** The stake behind a vote for a slot. *)
Definition stake_update (pk : Pubkey) (slot : Slot) : Z :=
  match epoch_stakes !! get_epoch epoch_schedule slot with
  | Some stakes => vote_account_stake stakes pk
  | None => 0
  end.

(** [entry(..).and_modify(..).or_insert(..)] *)
Definition upsert_stake {E : Type} (label : SlotHashKey * UpdateLabel) (stake : Z) (op : UpdateOperation)
    (ops : UpdateOperations) : res E UpdateOperations :=
  match ops !! label with
  | Some old => new ← update_stake stake old; Ok (<[label := new]> ops)
  | None => Ok (<[label := op]> ops)
  end.

(** Whether a validator's new vote is no newer than its latest one. *)
Definition is_outdated (latest : option SlotHashKey) (new : SlotHashKey) : bool :=
  match latest with
  | Some old => (new.1 <? old.1) || ((new.1 =? old.1) && (old.2 <=? new.2))
  | None => false
  end.

(** Removes the stake from the validator's previous vote. *)
Definition retract_vote {E : Type} (m : Tree) (pk : Pubkey) (old new : SlotHashKey) (ops : UpdateOperations)
    : res E UpdateOperations :=
  if negb (if new.1 =? old.1 then new.2 <? old.2 else old.1 <? new.1) then Panic
  else
    let stake := stake_update pk old.1 in
    if 0 <? stake then
      ops ← upsert_stake (old, L_Subtract) stake (Subtract stake) ops;
      Ok (insert_aggregate_operations m old ops)
    else Ok ops.

Fixpoint generate_loop (pubkey_votes : list (Pubkey * SlotHashKey)) (observed_pubkeys : gmap Pubkey Slot)
    (ops : UpdateOperations) : FC UpdateOperations :=
  match pubkey_votes with
  | [] => mret ops
  | (pk, new) :: votes' =>
      f ← get;
      if new.1 <? (root f).1 then generate_loop votes' observed_pubkeys ops
      else
        assert_ (bool_decide (observed_pubkeys !! pk = None));;
        let observed_pubkeys := <[pk := new.1]> observed_pubkeys in
        let latest := latest_votes f !! pk in
        if is_outdated latest new then generate_loop votes' observed_pubkeys ops
        else
          modify (λ f, with_votes (<[pk := new]> (latest_votes f)) f);;
          ops ← match latest with
                | Some old => lift (retract_vote (fork_infos f) pk old new ops)
                | None => mret ops
                end;
          let stake := stake_update pk new.1 in
          ops ← lift (upsert_stake (new, L_Add) stake (Add stake) ops);
          generate_loop votes' observed_pubkeys (insert_aggregate_operations (fork_infos f) new ops)
  end.

Definition generate_update_operations (pubkey_votes : list (Pubkey * SlotHashKey)) : FC UpdateOperations :=
  generate_loop pubkey_votes ∅ ∅.

Definition add_votes (pubkey_votes : list (Pubkey * SlotHashKey)) : FC SlotHashKey :=
  update_operations_batch ← generate_update_operations pubkey_votes;
  process_update_operations update_operations_batch;;
  best_overall_slot.

Fixpoint add_leaves (l : list (SlotHashKey * SlotHashKey)) : FC unit :=
  match l with
  | [] => mret tt
  | (k, p) :: l' => add_new_leaf_slot k (Some p);; add_leaves l'
  end.

(** The nodes of another tree, its root below [merge_leaf]. *)
Definition merge_nodes (other : Tree) (merge_leaf : SlotHashKey) : list (SlotHashKey * SlotHashKey) :=
  sort_by (λ x y, negb (key_ltb y.1 x.1))
    ((λ x, (x.1, default merge_leaf (parent x.2))) <$> map_to_list other).

Definition merge (other : HeaviestSubtreeForkChoice) (merge_leaf : SlotHashKey) : FC unit :=
  f ← get;
  assert_ (contains_block (fork_infos f) merge_leaf);;
  add_leaves (merge_nodes (fork_infos other) merge_leaf);;
  add_votes (map_to_list (latest_votes other));;
  mret tt.
End votes.

(** ** Duplicate slots *)

(** Marks every node of a subtree, in the order of [nodes]. *)
Definition insert_mark_operations (mark : UpdateOperation) (nodes : list SlotHashKey)
    (ops : UpdateOperations) : UpdateOperations :=
  foldl (λ ops k, (do_insert_aggregate_operation (Some mark) k ops).2) ops nodes.

Definition mark_fork_invalid_candidate (invalid_slot_hash_key : SlotHashKey) : FC unit :=
  f ← get;
  match fork_infos f !! invalid_slot_hash_key with
  | None => mret tt
  | Some i =>
      assert_ (negb (is_duplicate_confirmed i));;
      nodes ← lift (subtree_diff (fork_infos f) invalid_slot_hash_key SlotHashKey_default);
      let ops := insert_mark_operations (MarkInvalid invalid_slot_hash_key.1) (elements nodes) ∅ in
      process_update_operations
        (insert_aggregate_operations (fork_infos f) invalid_slot_hash_key ops)
  end.

(** The ancestors that are not yet duplicate confirmed. *)
Definition newly_confirmed {E : Type} (m : Tree) (acc : list SlotHashKey) (k : SlotHashKey)
    : res E (list SlotHashKey) :=
  confirmed ← unwrap (fc_is_duplicate_confirmed m k);
  Ok (if confirmed : bool then acc else acc ++ [k]).

Definition mark_fork_valid_candidate (valid_slot_hash_key : SlotHashKey) : FC (list SlotHashKey) :=
  f ← get;
  newly_duplicate_confirmed_ancestors ←
    lift (foldM (newly_confirmed (fork_infos f)) []
            (valid_slot_hash_key :: ancestor_iterator (fork_infos f) valid_slot_hash_key));
  nodes ← lift (subtree_diff (fork_infos f) valid_slot_hash_key SlotHashKey_default);
  let ops := insert_mark_operations (MarkValid valid_slot_hash_key.1) (elements nodes) ∅ in
  process_update_operations (insert_aggregate_operations (fork_infos f) valid_slot_hash_key ops);;
  mret newly_duplicate_confirmed_ancestors.

(** The heaviest slot on the fork of the tower's last vote. *)
Definition heaviest_slot_on_same_voted_fork {E : Type} (m : Tree) (last_voted_slot_hash : option SlotHashKey)
    (is_stray_last_vote : bool) : res E (option SlotHashKey) :=
  match last_voted_slot_hash with
  | None => Ok None
  | Some last =>
      match fc_best_slot m last with
      | None => if is_stray_last_vote then Ok None else Panic
      | Some heaviest => Ok (if bool_decide (heaviest = last) then None else Some heaviest)
      end
  end.

(** ** The latest votes for frozen banks *)

Record LatestValidatorVotesForFrozenBanks : Type := mkLatestVotes {
  max_gossip_frozen_votes : gmap Pubkey (Slot * list Hash);
  max_replay_frozen_votes : gmap Pubkey (Slot * list Hash);
  fork_choice_dirty_set : gmap Pubkey (Slot * list Hash);
}.

Definition latest_votes_default : LatestValidatorVotesForFrozenBanks := mkLatestVotes ∅ ∅ ∅.

Definition set_frozen_vote (is_replay_vote : bool) (pk : Pubkey) (v : Slot * list Hash)
    (l : LatestValidatorVotesForFrozenBanks) : LatestValidatorVotesForFrozenBanks :=
  if is_replay_vote
  then mkLatestVotes (max_gossip_frozen_votes l) (<[pk := v]> (max_replay_frozen_votes l))
         (fork_choice_dirty_set l)
  else mkLatestVotes (<[pk := v]> (max_gossip_frozen_votes l)) (max_replay_frozen_votes l)
         (fork_choice_dirty_set l).

Definition set_dirty (pk : Pubkey) (v : Slot * list Hash) (l : LatestValidatorVotesForFrozenBanks)
    : LatestValidatorVotesForFrozenBanks :=
  mkLatestVotes (max_gossip_frozen_votes l) (max_replay_frozen_votes l)
    (<[pk := v]> (fork_choice_dirty_set l)).

Definition check_add_vote (vote_pubkey : Pubkey) (vote_slot : Slot) (frozen_hash : option Hash)
    (is_replay_vote : bool) : ST LatestValidatorVotesForFrozenBanks Empty_set (bool * option Slot) :=
  l ← get;
  let vote_map := if is_replay_vote then max_replay_frozen_votes l else max_gossip_frozen_votes l in
  match frozen_hash, vote_map !! vote_pubkey with
  | Some hash, Some (latest_slot, latest_hashes) =>
      if latest_slot <? vote_slot then
        (if is_replay_vote then modify (set_dirty vote_pubkey (vote_slot, [hash])) else mret tt);;
        modify (set_frozen_vote is_replay_vote vote_pubkey (vote_slot, [hash]));;
        mret (true, Some vote_slot)
      else if (vote_slot =? latest_slot) && negb (bool_decide (hash ∈ latest_hashes)) then
        (if is_replay_vote then
           let '(dirty_slot, dirty_hashes) := default (0, []) (fork_choice_dirty_set l !! vote_pubkey) in
           assert_ (negb (bool_decide (hash ∈ dirty_hashes)));;
           modify (set_dirty vote_pubkey (dirty_slot, dirty_hashes ++ [hash]))
         else mret tt);;
        modify (set_frozen_vote is_replay_vote vote_pubkey (latest_slot, latest_hashes ++ [hash]));;
        mret (true, Some vote_slot)
      else mret (false, Some latest_slot)
  | Some hash, None =>
      modify (set_frozen_vote is_replay_vote vote_pubkey (vote_slot, [hash]));;
      (if is_replay_vote then modify (set_dirty vote_pubkey (vote_slot, [hash])) else mret tt);;
      mret (true, Some vote_slot)
  | None, latest => mret (false, fst <$> latest)
  end.

(** The votes come in the order of the hash map. *)
Definition take_votes_dirty_set (r : Slot)
    : ST LatestValidatorVotesForFrozenBanks Empty_set (list (Pubkey * SlotHashKey)) :=
  l ← get;
  put (mkLatestVotes (max_gossip_frozen_votes l) (max_replay_frozen_votes l) ∅);;
  mret (concat ((λ x : Z * (Z * list Z), (λ h, (x.1, (x.2.1, h))) <$> x.2.2) <$>
        filter (λ x : Z * (Z * list Z), r <= x.2.1) (map_to_list (fork_choice_dirty_set l)))).

(** [compute_bank_stats]; the metrics are left out. *)
Definition compute_bank_stats (epoch_stakes : gmap Epoch (gmap Pubkey Z)) (epoch_schedule : EpochSchedule)
    (l : LatestValidatorVotesForFrozenBanks) : FC LatestValidatorVotesForFrozenBanks :=
  f ← get;
  x ← run_local (take_votes_dirty_set (root f).1) l;
  add_votes epoch_stakes epoch_schedule x.1;;
  mret x.2.
End fork_choice.
