(* ===== verification/ForkTree.v ===== *)
(** * The tree of forks

    The shape of the fork choice's tree: parents and children agree and slots
    grow towards the leaves.  The walks of the model then terminate with their
    fuel: the ancestor iterator lists all ancestors and [subtree_diff] finds
    the nodes of one subtree outside another. *)

From S2P Require Import Prelude Account Sysvar ForkChoice.

Module fork_tree.
Import fork_choice.
Implicit Types (m : gmap (Z * Z) ForkInfo) (k p c a b r : Z * Z) (i j : ForkInfo).

#[global] Arguments ancestor_iterator : simpl never.
#[global] Arguments insert_aggregate_operations : simpl never.

Record tree_ok m r : Prop := {
  t_root : ∃ i, m !! r = Some i ∧ parent i = None;
  t_only_root k i : m !! k = Some i → parent i = None → k = r;
  t_parent k i p : m !! k = Some i → parent i = Some p → ∃ j, m !! p = Some j ∧ k ∈ children j;
  t_child k i c : m !! k = Some i → c ∈ children i → ∃ j, m !! c = Some j ∧ parent j = Some k;
  t_nodup k i : m !! k = Some i → NoDup (children i);
  t_slots k i p : m !! k = Some i → parent i = Some p → p.1 < k.1;
  t_nonneg k i : m !! k = Some i → 0 <= k.1;
}.

(** Two trees that differ in what their nodes hold only. *)
Definition shape (i : ForkInfo) : option (Z * Z) * list (Z * Z) := (parent i, children i).
Definition same_shape m m' : Prop := shape <$> m = shape <$> m'.

Lemma same_shape_lookup m m' k i :
  same_shape m m' → m' !! k = Some i → ∃ j, m !! k = Some j ∧ shape j = shape i.
Proof.
  intros Hs Hi. apply (f_equal (.!! k)) in Hs. rewrite !lookup_fmap, Hi in Hs. cbn in Hs.
  destruct (m !! k) as [j|]; [|done]. injection Hs as Hp Hc. exists j. unfold shape. by rewrite Hp, Hc.
Qed.

Lemma same_shape_sym m m' : same_shape m m' → same_shape m' m.
Proof. done. Qed.

Lemma same_shape_None m m' k : same_shape m m' → m' !! k = None → m !! k = None.
Proof.
  intros Hs Hk. apply (f_equal (.!! k)) in Hs. rewrite !lookup_fmap, Hk in Hs. by destruct (m !! k).
Qed.

Lemma tree_ok_shape m m' r : same_shape m m' → tree_ok m r → tree_ok m' r.
Proof.
  intros Hs [H1 H2 H3 H4 H5 H6 H7].
  assert (Hto : ∀ k i, m' !! k = Some i → ∃ j, m !! k = Some j ∧ parent j = parent i ∧ children j = children i).
  { intros k i (j & Hj & [= ? ?])%(same_shape_lookup m m' k i Hs). eauto. }
  assert (Hfrom : ∀ k i, m !! k = Some i → ∃ j, m' !! k = Some j ∧ parent j = parent i ∧ children j = children i).
  { intros k i (j & Hj & [= ? ?])%(same_shape_lookup m' m k i (same_shape_sym _ _ Hs)). eauto. }
  split.
  - destruct H1 as (i & (j & ? & ? & ?)%Hfrom & ?). exists j. split; congruence.
  - intros k i (j & ? & Hp & _)%Hto ?. eapply H2; [done|congruence].
  - intros k i p (j & ? & Hp & _)%Hto ?. destruct (H3 k j p) as (q & (q' & ? & _ & Hc)%Hfrom & ?); [done|congruence|].
    exists q'. by rewrite Hc.
  - intros k i c (j & ? & _ & Hc)%Hto ?. destruct (H4 k j c) as (q & (q' & ? & Hp & _)%Hfrom & ?); [done|congruence|].
    exists q'. by rewrite Hp.
  - intros k i (j & ? & _ & Hc)%Hto. rewrite <-Hc. by eapply H5.
  - intros k i p (j & ? & Hp & _)%Hto ?. eapply H6; [done|congruence].
  - intros k i (j & ? & _)%Hto. by eapply H7.
Qed.

Lemma fc_parent_Some m k p : fc_parent m k = Some p ↔ ∃ i, m !! k = Some i ∧ parent i = Some p.
Proof. unfold fc_parent. rewrite bind_Some. done. Qed.

Lemma fc_parent_shape m m' k : same_shape m m' → fc_parent m k = fc_parent m' k.
Proof.
  intros Hs. unfold fc_parent. apply (f_equal (.!! k)) in Hs. rewrite !lookup_fmap in Hs.
  destruct (m !! k), (m' !! k); cbn in *; [by injection Hs|done..].
Qed.

Lemma elem_reverse_1 {A} (x : A) l : x ∈ reverse l → x ∈ l.
Proof. by rewrite elem_of_reverse. Qed.

(** ** Ancestors *)

(** How many nodes have a smaller slot. *)
Definition below m k : nat := size (filter (λ x : (Z * Z) * ForkInfo, x.1.1 < k.1) m).
Definition above m k : nat := size (filter (λ x : (Z * Z) * ForkInfo, k.1 < x.1.1) m).

Lemma filter_size_lt (P Q : (Z * Z) * ForkInfo → Prop)
    `{!∀ x, Decision (P x), !∀ x, Decision (Q x)} m k i :
  (∀ x, P x → Q x) → m !! k = Some i → Q (k, i) → ¬ P (k, i) → (size (filter P m) < size (filter Q m))%nat.
Proof.
  intros HPQ Hk HQ HP. apply map_subset_size. split.
  - apply map_filter_subseteq_ext. auto.
  - intros Hsub. apply HP. assert (HQk : filter Q m !! k = Some i) by (by apply map_lookup_filter_Some).
    apply (lookup_weaken _ (filter P m)) in HQk; [|done]. by apply map_lookup_filter_Some in HQk as [_ ?].
Qed.

Lemma below_size m k : (below m k <= size m)%nat.
Proof. apply map_size_filter. Qed.

Section tree.
Context m r (T : tree_ok m r).

Lemma parent_below k p : fc_parent m k = Some p → (below m p < below m k)%nat.
Proof.
  intros (i & Hi & Hp)%fc_parent_Some. destruct (t_parent _ _ T k i p Hi Hp) as (j & Hj & _).
  pose proof (t_slots _ _ T k i p Hi Hp). eapply filter_size_lt; [|exact Hj|..]; cbn; [intros; lia|lia..].
Qed.

Lemma child_above k i c : m !! k = Some i → c ∈ children i → (above m c < above m k)%nat.
Proof.
  intros Hi Hc. destruct (t_child _ _ T k i c Hi Hc) as (j & Hj & Hp).
  pose proof (t_slots _ _ T c j k Hj Hp). eapply filter_size_lt; [|exact Hj|..]; cbn; [intros; lia|lia..].
Qed.

(** Induction from the root down and from the leaves up. *)
Lemma tree_ind_up (P : Z * Z → Prop) :
  (∀ k, (∀ p, fc_parent m k = Some p → P p) → P k) → ∀ k, P k.
Proof.
  intros H k. remember (below m k) as n eqn:Hn. revert k Hn.
  induction n as [n IH] using lt_wf_ind. intros k ->. apply H. intros p Hp.
  eapply IH; [|reflexivity]. by apply parent_below.
Qed.

Lemma tree_ind_down (P : Z * Z → Prop) :
  (∀ k i, m !! k = Some i → (∀ c, c ∈ children i → P c) → P k) → ∀ k i, m !! k = Some i → P k.
Proof.
  intros H k. remember (above m k) as n eqn:Hn. revert k Hn.
  induction n as [n IH] using lt_wf_ind. intros k -> i Hi. apply (H k i Hi). intros c Hc.
  destruct (t_child _ _ T k i c Hi Hc) as (j & Hj & _). eapply IH; [|reflexivity|exact Hj]. by eapply child_above.
Qed.

Lemma tree_ind_infos (P : Z * Z → ForkInfo → Prop) :
  (∀ k i, m !! k = Some i → (∀ c j, c ∈ children i → m !! c = Some j → P c j) → P k i) →
  ∀ k i, m !! k = Some i → P k i.
Proof.
  intros H k i Hi. refine (tree_ind_down (λ k, ∀ i, m !! k = Some i → P k i) _ k i Hi i Hi).
  intros k' i' Hi' IH i'' Hi''. simplify_eq. apply H; [done|]. intros c j Hc. by apply IH.
Qed.

Lemma ancestors_loop_fuel n n' k :
  (below m k < n)%nat → (below m k < n')%nat → ancestors_loop m n k = ancestors_loop m n' k.
Proof.
  revert n' k. induction n as [|n IH]; intros n' k Hn Hn'; [lia|]. destruct n' as [|n']; [lia|]. cbn.
  destruct (fc_parent m k) as [p|] eqn:Hp; [|done]. apply parent_below in Hp. f_equal. apply IH; lia.
Qed.

(** The iterator is not cut short. *)
Lemma ancestor_iterator_eq k :
  ancestor_iterator m k = match fc_parent m k with Some p => p :: ancestor_iterator m p | None => [] end.
Proof.
  unfold ancestor_iterator. cbn [ancestors_loop]. destruct (fc_parent m k) as [p|] eqn:Hp; [|done]. f_equal.
  pose proof (below_size m k). pose proof (parent_below k p Hp).
  apply (ancestors_loop_fuel _ (S (size m))); lia.
Qed.

(** [k] is in the subtree at [a]. *)
Definition under a k : Prop := k = a ∨ a ∈ ancestor_iterator m k.
#[local] Instance under_dec a k : Decision (under a k).
Proof. unfold under. apply _. Defined.

Lemma under_eq a k : under a k ↔ k = a ∨ ∃ p, fc_parent m k = Some p ∧ under a p.
Proof.
  unfold under at 1. rewrite ancestor_iterator_eq. destruct (fc_parent m k) as [p|].
  - rewrite elem_of_cons. unfold under. naive_solver.
  - rewrite elem_of_nil. naive_solver.
Qed.

Lemma under_refl k : under k k.
Proof. by left. Qed.

Lemma under_parent a k p : fc_parent m k = Some p → under a p → under a k.
Proof. intros. apply under_eq. eauto. Qed.

Lemma under_in a k : is_Some (m !! k) → under a k → is_Some (m !! a).
Proof.
  revert k. apply (tree_ind_up (λ k, is_Some (m !! k) → under a k → is_Some (m !! a))).
  intros k IH Hk [->|(p & Hp & Hu)]%under_eq; [done|]. apply (IH p Hp); [|done].
  apply fc_parent_Some in Hp as (i & Hi & Hp). destruct (t_parent _ _ T k i p Hi Hp) as (j & ? & _). eauto.
Qed.

Lemma under_trans a b k : under a b → under b k → under a k.
Proof.
  intros Hab. revert k. apply (tree_ind_up (λ k, under b k → under a k)).
  intros k IH [->|(p & Hp & Hu)]%under_eq; [done|]. eapply under_parent; [done|]. by apply IH.
Qed.

Lemma under_slot a k : under a k → k = a ∨ a.1 < k.1.
Proof.
  revert k. apply (tree_ind_up (λ k, under a k → k = a ∨ a.1 < k.1)).
  intros k IH [->|(p & Hp & Hu)]%under_eq; [by left|]. right.
  pose proof Hp as (i & Hi & Hpp)%fc_parent_Some. pose proof (t_slots _ _ T k i p Hi Hpp).
  destruct (IH p Hp Hu) as [->|]; lia.
Qed.

Lemma under_antisym a b : under a b → under b a → a = b.
Proof.
  intros H1 H2. apply under_slot in H1 as [?|H1]; [done|]. apply under_slot in H2 as [?|H2]; [done|lia].
Qed.

Lemma under_linear a b k : under a k → under b k → under a b ∨ under b a.
Proof.
  revert k. apply (tree_ind_up (λ k, under a k → under b k → under a b ∨ under b a)).
  intros k IH Ha Hb. pose proof Ha as Ha'. pose proof Hb as Hb'.
  apply under_eq in Ha as [->|(p & Hp & Hu)]; [by right|].
  apply under_eq in Hb as [->|(p' & Hp' & Hu')]; [by left|].
  rewrite Hp in Hp'. injection Hp' as <-. by apply (IH p).
Qed.

Lemma child_parent k i c : m !! k = Some i → c ∈ children i → fc_parent m c = Some k.
Proof. intros Hi Hc. apply fc_parent_Some. by apply (t_child _ _ T k i c). Qed.

(** A node's subtree is the node and its children's subtrees. *)
Lemma under_child k i a : m !! k = Some i → under k a ↔ a = k ∨ ∃ c, c ∈ children i ∧ under c a.
Proof.
  intros Hi. split.
  - revert a. apply (tree_ind_up (λ a, under k a → a = k ∨ ∃ c, c ∈ children i ∧ under c a)).
    intros a IH [->|(p & Hp & Hu)]%under_eq; [by left|]. right.
    destruct (IH p Hp Hu) as [->|(c & Hc & Hcp)]; [|by exists c; eauto using under_parent].
    exists a. split; [|by apply under_refl]. apply fc_parent_Some in Hp as (j & Hj & Hp).
    destruct (t_parent _ _ T a j k Hj Hp) as (i' & Hi' & ?). by simplify_eq.
  - intros [->|(c & Hc & Hu)]; [apply under_refl|]. eapply under_trans; [|exact Hu].
    eapply under_parent; [by eapply child_parent|]. apply under_refl.
Qed.

Lemma child_not_under k i c : m !! k = Some i → c ∈ children i → ¬ under c k.
Proof.
  intros Hi Hc Hu. destruct (t_child _ _ T k i c Hi Hc) as (j & Hj & Hp).
  pose proof (t_slots _ _ T c j k Hj Hp). destruct (under_slot c k Hu) as [->|]; lia.
Qed.

(** The subtrees of siblings are disjoint. *)
Lemma siblings_disjoint k i c c' a :
  m !! k = Some i → c ∈ children i → c' ∈ children i → under c a → under c' a → c = c'.
Proof.
  intros Hi Hc Hc' Ha Ha'.
  assert (H : ∀ x y, x ∈ children i → y ∈ children i → under x y → x = y).
  { intros x y Hx Hy [->|(p & Hp & Hu)]%under_eq; [done|]. exfalso.
    rewrite (child_parent k i y Hi Hy) in Hp. injection Hp as <-. by eapply (child_not_under k i x). }
  destruct (under_linear c c' a Ha Ha') as [?|?]; [by apply H|symmetry; by apply H].
Qed.

Lemma root_under k : is_Some (m !! k) → under r k.
Proof.
  revert k. apply (tree_ind_up (λ k, is_Some (m !! k) → under r k)). intros k IH [i Hi].
  destruct (parent i) as [p|] eqn:Hp.
  - destruct (t_parent _ _ T k i p Hi Hp) as (j & Hj & _).
    assert (Hkp : fc_parent m k = Some p) by (apply fc_parent_Some; eauto).
    eapply under_parent; [exact Hkp|]. apply IH; eauto.
  - rewrite (t_only_root _ _ T k i Hi Hp). apply under_refl.
Qed.

(** ** Subtrees *)

(** No key of the list is in the subtree of another. *)
Definition apart (l : list (Z * Z)) : Prop :=
  NoDup l ∧ ∀ a b, a ∈ l → b ∈ l → under a b → a = b.

(** The nodes under the keys of a list. *)
Definition covered (l : list (Z * Z)) : gmap (Z * Z) ForkInfo :=
  filter (λ x : (Z * Z) * ForkInfo, Exists (λ a, under a x.1) l) m.

Lemma covered_elem l k : is_Some (covered l !! k) ↔ is_Some (m !! k) ∧ ∃ a, a ∈ l ∧ under a k.
Proof.
  unfold covered, is_Some. setoid_rewrite map_lookup_filter_Some. cbn. setoid_rewrite Exists_exists.
  naive_solver.
Qed.

Lemma covered_size l l' k :
  (∀ a, a ∈ l' → ∃ b, b ∈ l ∧ under b a) → is_Some (m !! k) → k ∈ l → (∀ a, a ∈ l' → ¬ under a k) →
  (size (covered l') < size (covered l))%nat.
Proof.
  intros Hsub [i Hi] Hk Hno. eapply (filter_size_lt _ _ _ k i); [|done|..]; cbn.
  - intros x [a [Ha Hu]]%Exists_exists. apply Exists_exists. destruct (Hsub a Ha) as (b & Hb & Hba).
    exists b. split; [done|]. by eapply under_trans.
  - apply Exists_exists. exists k. split; [done|apply under_refl].
  - intros [a [Ha Hu]]%Exists_exists. by eapply Hno.
Qed.

Lemma apart_tail k l : apart (k :: l) → apart l ∧ ∀ a, a ∈ l → ¬ under a k ∧ ¬ under k a.
Proof.
  intros [[Hk Hn]%NoDup_cons Hap]. split.
  - split; [done|]. intros a b Ha Hb. apply Hap; by apply elem_of_cons; right.
  - intros a Ha. split; intros Hu.
    + assert (a = k) as ->; [|done]. apply Hap; [by right|by left|done].
    + assert (k = a) as <-; [|done]. apply Hap; [by left|by right|done].
Qed.

Lemma apart_children k i l :
  m !! k = Some i → apart (k :: l) → apart (reverse (children i) ++ l).
Proof.
  intros Hi Hap. destruct (apart_tail k l Hap) as [[Hn Hl] Hk].
  assert (Hc : ∀ c, c ∈ children i → under k c).
  { intros c Hc. eapply under_parent; [by eapply child_parent|apply under_refl]. }
  split.
  - apply NoDup_app. split_and!; [|intros c Hc'%elem_reverse_1 Hl'|done].
    + rewrite reverse_Permutation. by eapply t_nodup.
    + destruct (Hk c Hl') as [_ []]. by apply Hc.
  - intros a b. rewrite !elem_of_app, !elem_of_reverse. intros [Ha|Ha] [Hb|Hb] Hu.
    + by eapply (siblings_disjoint k i a b b Hi Ha Hb Hu), under_refl.
    + exfalso. destruct (Hk b Hb) as [_ []]. eapply under_trans; [by apply Hc|done].
    + exfalso. destruct (Hk a Ha) as [Hn1 Hn2]. apply under_eq in Hu as [->|(p & Hp & Hu)].
      * apply Hn2. by apply Hc.
      * rewrite (child_parent k i b Hi Hb) in Hp. by injection Hp as <-.
    + by apply Hl.
Qed.

Lemma subtree_loop_spec {E} root2 n l S :
  apart l → (∀ a, a ∈ l → is_Some (m !! a)) → (size (covered l) <= n)%nat →
  ∃ S', subtree_loop (E:=E) m root2 n l S = Ok S' ∧
    ∀ k, k ∈ S' ↔ k ∈ S ∨ is_Some (m !! k) ∧ ∃ a, a ∈ l ∧ under a k ∧ ¬ (under a root2 ∧ under root2 k).
Proof.
  revert l S. induction n as [|n IH]; intros l S Hap Hin Hn; destruct l as [|k l]; cbn.
  1,3: exists S; split; [done|]; intros x; split; [by left|]; intros [?|(_ & a & Ha%elem_of_nil & _)]; done.
  - exfalso. assert (Hk : is_Some (covered (k :: l) !! k)).
    { apply covered_elem. split; [apply Hin; by left|]. exists k. split; [by left|apply under_refl]. }
    assert (E0 : covered (k :: l) = ∅) by (apply map_size_empty_inv; lia). rewrite E0 in Hk. by destruct Hk.
  - destruct (apart_tail k l Hap) as [Hap' Hk]. assert (Hkin : is_Some (m !! k)) by (apply Hin; by left).
    assert (Hin' : ∀ a, a ∈ l → is_Some (m !! a)) by (intros; apply Hin; by right).
    case_bool_decide as Hr.
    + subst k. destruct (IH l S Hap' Hin') as (S' & -> & HS').
      { apply PeanoNat.Nat.lt_succ_r. eapply Nat.lt_le_trans; [|exact Hn].
        apply (covered_size _ _ root2); [|done|by left|by intros; apply Hk].
        intros a Ha. exists a. split; [by right|apply under_refl]. }
      exists S'. split; [done|]. intros x. rewrite HS'. split; [intros [?|(? & a & ? & ?)]; [by left|]|].
      * right. split; [done|]. exists a. split; [by right|done].
      * intros [?|(Hx & a & [->|Ha]%elem_of_cons & Hu & Hnot)]; [by left| |]; [|by right; eauto].
        exfalso. apply Hnot. split; [apply under_refl|done].
    + destruct Hkin as [i Hi]. unfold fc_children. rewrite Hi. cbn.
      destruct (IH (reverse (children i) ++ l) ({[k]} ∪ S)) as (S' & -> & HS').
      * by eapply apart_children.
      * intros a [Ha%elem_reverse_1|?]%elem_of_app; [|by apply Hin'].
        destruct (t_child _ _ T k i a Hi Ha) as (j & ? & _). eauto.
      * apply PeanoNat.Nat.lt_succ_r. eapply Nat.lt_le_trans; [|exact Hn].
        apply (covered_size _ _ k); [|eauto|by left|].
        -- intros a [Ha%elem_reverse_1|Ha]%elem_of_app; [|by exists a; split; [right|apply under_refl]].
           exists k. split; [by left|]. eapply under_parent; [by eapply child_parent|apply under_refl].
        -- intros a [Ha%elem_reverse_1|Ha]%elem_of_app; [by eapply child_not_under|by apply Hk].
      * exists S'. split; [done|]. intros x. rewrite HS', elem_of_union, elem_of_singleton. split.
        -- intros [[->|?]|(Hx & a & Ha & Hu & Hnot)]; [|by left|].
           ++ right. split; [eauto|]. exists k. split; [by left|]. split; [apply under_refl|].
              intros [H1 H2]. apply Hr. by apply under_antisym.
           ++ right. split; [done|]. apply elem_of_app in Ha as [Ha%elem_reverse_1|Ha]; [|by exists a; split; [right|]].
              exists k. split; [by left|].
              assert (Hka : under k a) by (eapply under_parent; [by eapply child_parent|apply under_refl]).
              split; [by eapply under_trans|]. intros [H1 H2]. apply Hnot. split; [|done].
              apply (under_child k i _ Hi) in H1 as [->|(c & Hc & Hcr)]; [done|].
              assert (a = c) as ->; [|done]. eapply (siblings_disjoint k i a c x); eauto using under_trans.
        -- intros [?|(Hx & a & [->|Ha]%elem_of_cons & Hu & Hnot)]; [by left; right| |].
           ++ apply (under_child k i _ Hi) in Hu as [->|(c & Hc & Hcx)]; [by left; left|]. right. split; [done|].
              exists c. rewrite elem_of_app, elem_of_reverse. split; [by left|]. split; [done|].
              intros [H1 H2]. apply Hnot. split; [|done]. apply (under_child k i _ Hi). eauto.
           ++ right. split; [done|]. exists a. split; [by apply elem_of_app; right|done].
Qed.

(** [subtree_diff] returns the nodes under [a] that are not under [b]. *)
Lemma subtree_diff_spec {E} a b :
  ∃ S, subtree_diff (E:=E) m a b = Ok S ∧
    ∀ k, k ∈ S ↔ is_Some (m !! k) ∧ under a k ∧ ¬ (under a b ∧ under b k).
Proof.
  unfold subtree_diff, contains_block. case_bool_decide as Ha; cbn.
  - destruct (subtree_loop_spec (E:=E) b (size m) [a] ∅) as (S & -> & HS).
    + split; [apply NoDup_singleton|]. intros x y ->%list_elem_of_singleton ->%list_elem_of_singleton. done.
    + by intros x ->%list_elem_of_singleton.
    + apply map_size_filter.
    + exists S. split; [done|]. intros k. rewrite HS, elem_of_empty. setoid_rewrite list_elem_of_singleton. naive_solver.
  - exists ∅. split; [done|]. intros k. rewrite elem_of_empty. split; [done|]. intros (Hk & Hu & _).
    apply Ha. by eapply under_in.
Qed.
End tree.
#[export] Existing Instance under_dec.
End fork_tree.
