(* ===== verification/ForkOps.v ===== *)
(** * Batches of update operations

    An operation changes the node it names only, and an aggregation reads the
    node's children, whose keys are greater.  Processed from the greatest key
    down, a batch therefore leaves every node as its own operations make it
    from its old state and the final state of its children. *)

From S2P Require Import Prelude Account Sysvar ForkChoice ForkTree.

Module fork_ops.
Import fork_choice fork_tree.
Implicit Types (m : gmap (Z * Z) ForkInfo) (k p c a b r : Z * Z) (i j : ForkInfo).

(** ** The order of keys *)

Lemma key_ltb_spec a b : key_ltb a b = true ↔ a.1 < b.1 ∨ a.1 = b.1 ∧ a.2 < b.2.
Proof.
  unfold key_ltb. rewrite orb_true_iff, andb_true_iff, !Z.ltb_lt, Z.eqb_eq. done.
Qed.

Lemma key_ltb_false a b : key_ltb a b = false ↔ b.1 < a.1 ∨ a.1 = b.1 ∧ b.2 <= a.2.
Proof. rewrite <-not_true_iff_false, key_ltb_spec. lia. Qed.

Lemma key_eq_spec a b : a = b ↔ a.1 = b.1 ∧ a.2 = b.2.
Proof. destruct a, b; cbn. naive_solver. Qed.

Lemma key_ltb_irrefl a : key_ltb a a = false.
Proof. rewrite key_ltb_false. lia. Qed.

Lemma key_ltb_trans a b c : key_ltb a b = true → key_ltb b c = true → key_ltb a c = true.
Proof. rewrite !key_ltb_spec. lia. Qed.

Lemma key_ltb_total a b : key_ltb a b = false → key_ltb b a = true ∨ a = b.
Proof. rewrite key_ltb_false, key_ltb_spec, key_eq_spec. lia. Qed.

Abbreviation Op := ((Z * Z) * UpdateLabel * UpdateOperation)%type (only parsing).

Lemma op_after_spec (x y : Op) :
  op_after x y = true ↔
  key_ltb y.1.1 x.1.1 = true ∨ x.1.1 = y.1.1 ∧ key_ltb (label_code x.1.2) (label_code y.1.2) = false.
Proof.
  destruct x as [[k l] o], y as [[k' l'] o']. cbn.
  rewrite orb_true_iff, andb_true_iff, bool_decide_eq_true, negb_true_iff. done.
Qed.

Lemma op_after_total (x y : Op) : op_after x y = false → op_after y x = true.
Proof.
  rewrite <-not_true_iff_false, !op_after_spec, <-!not_true_iff_false, !key_ltb_spec, !key_eq_spec.
  destruct x as [[k l] o], y as [[k' l'] o']. cbn. lia.
Qed.

Lemma op_after_trans (x y z : Op) : op_after x y = true → op_after y z = true → op_after x z = true.
Proof.
  rewrite !op_after_spec, <-!not_true_iff_false, !key_ltb_spec, !key_eq_spec.
  destruct x as [[k l] o], y as [[k' l'] o'], z as [[k'' l''] o'']. cbn. lia.
Qed.

Lemma into_iter_rev_sorted (ops : gmap ((Z * Z) * UpdateLabel) UpdateOperation) :
  StronglySorted op_after (into_iter_rev ops).
Proof. apply sort_by_sorted; [apply op_after_total|apply op_after_trans]. Qed.

Lemma into_iter_rev_elem (ops : gmap ((Z * Z) * UpdateLabel) UpdateOperation) k l op :
  (k, l, op) ∈ into_iter_rev ops ↔ ops !! (k, l) = Some op.
Proof. unfold into_iter_rev. rewrite sort_by_elem. apply elem_of_map_to_list. Qed.

Lemma into_iter_rev_NoDup (ops : gmap ((Z * Z) * UpdateLabel) UpdateOperation) : NoDup (into_iter_rev ops).
Proof. unfold into_iter_rev. rewrite sort_by_Permutation. apply NoDup_map_to_list. Qed.

(** ** One operation *)

Definition aggregation {E : Type} m k i : res E Aggregated :=
  foldM (aggregate_child m k) (mkAggregated (stake_voted_at i) 0 k k false) (children i).

Definition valid_info k (valid_slot : Slot) i : ForkInfo :=
  let i := update_with_newly_valid_ancestor valid_slot i in
  if k.1 =? valid_slot then with_validity (latest_invalid_ancestor i) true i else i.

(** What an operation makes of the node it names. *)
Definition op_info {E : Type} m k (op : UpdateOperation) i : res E ForkInfo :=
  match op with
  | MarkValid s => Ok (valid_info k s i)
  | MarkInvalid s => update_with_newly_invalid_ancestor s i
  | Aggregate => a ← aggregation m k i; Ok (aggregate_info a i)
  | Add s => Ok (with_stakes (add64 (stake_voted_at i) s) (add64 (stake_voted_subtree i) s) i)
  | Subtract s => Ok (with_stakes (sub64 (stake_voted_at i) s) (sub64 (stake_voted_subtree i) s) i)
  end.

Definition run_op {E : Type} m (x : Op) : res E (gmap (Z * Z) ForkInfo) :=
  match m !! x.1.1 with
  | None => Ok m
  | Some i => i' ← op_info m x.1.1 x.2 i; Ok (<[x.1.1 := i']> m)
  end.

Lemma with_infos_id f : with_infos (fork_infos f) f = f.
Proof. by destruct f. Qed.

Lemma alter_insert (g : ForkInfo → ForkInfo) m k i : m !! k = Some i → alter g k m = <[k := g i]> m.
Proof.
  intros Hi. apply map_eq. intros k'. destruct (decide (k = k')) as [->|].
  - by rewrite lookup_alter_eq, Hi, lookup_insert_eq.
  - by rewrite lookup_alter_ne, lookup_insert_ne.
Qed.

Lemma alter_None (g : ForkInfo → ForkInfo) m k : m !! k = None → alter g k m = m.
Proof.
  intros Hi. apply map_eq. intros k'. destruct (decide (k = k')) as [->|].
  - by rewrite lookup_alter_eq, Hi.
  - by rewrite lookup_alter_ne.
Qed.

Lemma process_operation_run k l op f :
  match run_op (E:=Empty_set) (fork_infos f) (k, l, op) with
  | Ok m' => process_operation k op f = (with_infos m' f, Ok tt)
  | Err _ => False
  | Panic => process_operation k op f = (f, Panic)
  end.
Proof.
  unfold run_op. cbn [fst snd].
  unfold process_operation, add_slot_stake, subtract_slot_stake, mark_fork_valid, mark_fork_invalid, aggregate_slot,
    update_infos, modify, lift, get, mbind, st_bind, mret, st_ret.
  destruct (fork_infos f !! k) as [i|] eqn:Hi.
  - destruct op as [s|s|s|s|]; cbn.
    + by rewrite (alter_insert _ _ _ _ Hi).
    + by rewrite Hi.
    + unfold update_with_newly_invalid_ancestor.
      rewrite Hi. destruct (is_duplicate_confirmed i); [done|].
      by destruct (latest_invalid_ancestor i) as [l0|]; [destruct (l0 <? s)|].
    + by rewrite (alter_insert _ _ _ _ Hi).
    + rewrite Hi. fold (aggregation (E:=Empty_set) (fork_infos f) k i).
      by destruct (aggregation (fork_infos f) k i) as [a|[]|].
  - by destruct op as [s|s|s|s|]; cbn; rewrite ?alter_None, ?Hi, ?with_infos_id by done.
Qed.

Lemma op_info_shape {E} m k op i i' : op_info (E:=E) m k op i = Ok i' → shape i' = shape i.
Proof.
  destruct op as [s|s|s|s|]; cbn; [by intros [= <-]| | |by intros [= <-]|].
  - intros [= <-]. unfold valid_info, update_with_newly_valid_ancestor.
    destruct (latest_invalid_ancestor i) as [l|]; [destruct (l <=? s)|]; by destruct (k.1 =? s).
  - unfold update_with_newly_invalid_ancestor. destruct (is_duplicate_confirmed i); [done|].
    destruct (latest_invalid_ancestor i) as [l|]; [destruct (l <? s)|]; by intros [= <-].
  - intros (a & _ & [= <-])%res_bind_Ok. unfold aggregate_info. by destruct (agg_confirmed a).
Qed.

Lemma run_op_shape {E} m x m' : run_op (E:=E) m x = Ok m' → same_shape m m'.
Proof.
  unfold run_op. destruct (m !! x.1.1) as [i|] eqn:Hi; [|by intros [= <-]].
  intros (i' & Hop%op_info_shape & [= <-])%res_bind_Ok. unfold same_shape.
  rewrite fmap_insert, Hop. symmetry. apply insert_id. by rewrite lookup_fmap, Hi.
Qed.

Lemma run_op_other {E} m x m' k : run_op (E:=E) m x = Ok m' → k ≠ x.1.1 → m' !! k = m !! k.
Proof.
  unfold run_op. destruct (m !! x.1.1) as [i|] eqn:Hi; [|by intros [= <-]].
  intros (i' & _ & [= <-])%res_bind_Ok Hk. by apply lookup_insert_ne.
Qed.

(** ** Lists of operations *)

Definition run_ops {E : Type} m (l : list Op) : res E (gmap (Z * Z) ForkInfo) := foldM run_op m l.

Lemma process_operations_run l f :
  match run_ops (E:=Empty_set) (fork_infos f) l with
  | Ok m' => process_operations l f = (with_infos m' f, Ok tt)
  | Err _ => False
  | Panic => ∃ f', process_operations l f = (f', Panic)
  end.
Proof.
  unfold run_ops. revert f. induction l as [|[[k lb] op] l IH]; intros f; cbn [foldM process_operations].
  { by rewrite with_infos_id. }
  pose proof (process_operation_run k lb op f) as H.
  destruct (run_op (fork_infos f) (k, lb, op)) as [m1|[]|]; cbn [mbind res_bind].
  - unfold mbind, st_bind. rewrite H. specialize (IH (with_infos m1 f)). cbn [fork_infos with_infos] in IH.
    by destruct (foldM run_op m1 l) as [m2|[]|].
  - unfold mbind, st_bind. rewrite H. by exists f.
Qed.

Lemma run_ops_shape {E} m l m' : run_ops (E:=E) m l = Ok m' → same_shape m m'.
Proof.
  unfold run_ops. revert m. induction l as [|x l IH]; intros m; cbn; [by intros [= <-]|].
  intros (m1 & H1%run_op_shape & H2%IH)%res_bind_Ok. by etrans.
Qed.

Lemma run_ops_other {E} m l m' k :
  run_ops (E:=E) m l = Ok m' → (∀ x, x ∈ l → x.1.1 ≠ k) → m' !! k = m !! k.
Proof.
  unfold run_ops. revert m. induction l as [|x l IH]; intros m; cbn; [by intros [= <-]|].
  intros (m1 & H1 & H2)%res_bind_Ok Hk. rewrite (IH m1 H2); [|intros; apply Hk; by right].
  eapply run_op_other; [done|]. intros ->. by eapply Hk; [left|].
Qed.

Lemma op_info_ext {E} m m' k op i :
  (∀ c, c ∈ children i → m !! c = m' !! c) → op_info (E:=E) m k op i = op_info m' k op i.
Proof.
  intros H. destruct op; cbn; try done. unfold aggregation. f_equal.
  apply foldM_ext. intros a c Hc. unfold aggregate_child. by rewrite H.
Qed.

(** The operations on one node. *)
Definition ops_at (l : list Op) k : list Op := filter (λ x : Op, x.1.1 = k) l.

Lemma run_ops_local {E} m r l m' :
  tree_ok m r → StronglySorted op_after l → run_ops (E:=E) m l = Ok m' →
  ∀ k i, m !! k = Some i → ∃ i', m' !! k = Some i' ∧
    foldM (λ i x, op_info (E:=E) m' k x.2 i) i (ops_at l k) = Ok i'.
Proof.
  intros HT Hs. revert m HT. induction Hs as [|x l Hs IH Hx]; intros m HT Hrun k i Hi; cbn in Hrun.
  { injection Hrun as <-. by exists i. }
  apply res_bind_Ok in Hrun as (m1 & H1 & H2). pose proof (run_op_shape _ _ _ H1) as Hshape.
  pose proof (tree_ok_shape _ _ _ Hshape HT) as HT1. unfold ops_at. rewrite filter_cons.
  destruct (decide (x.1.1 = k)) as [Hk|Hk]; cbn.
  - unfold run_op in H1. rewrite Hk, Hi in H1. apply res_bind_Ok in H1 as (i1 & Hop & [= <-]).
    destruct (IH _ HT1 H2 k i1) as (i' & Hi' & Hf); [apply lookup_insert_eq|]. exists i'. split; [done|].
    rewrite (op_info_ext m' m); [rewrite Hop; exact Hf|]. intros c Hc.
    destruct (t_child _ _ HT k i c Hi Hc) as (j & Hj & Hp). pose proof (t_slots _ _ HT c j k Hj Hp).
    rewrite (run_ops_other _ _ _ c H2); [apply lookup_insert_ne; intros ->; lia|].
    intros y Hy <-. rewrite Forall_forall in Hx. specialize (Hx y Hy). apply Is_true_true in Hx.
    apply op_after_spec in Hx as [Hx|[Hx _]]; [apply key_ltb_spec in Hx|]; rewrite Hk in Hx; [lia|].
    rewrite <-Hx in *. lia.
  - apply (IH m1 HT1 H2). by rewrite (run_op_other _ _ _ k H1).
Qed.

Lemma ops_at_labels (ops : gmap ((Z * Z) * UpdateLabel) UpdateOperation) k (ls : list UpdateLabel) :
  StronglySorted (λ l l', key_ltb (label_code l') (label_code l) = true) ls →
  (∀ l, is_Some (ops !! (k, l)) → l ∈ ls) →
  ops_at (into_iter_rev ops) k = omap (λ l, (λ op, (k, l, op)) <$> ops !! (k, l)) ls.
Proof.
  intros Hls Hin.
  assert (Helem : ∀ x, x ∈ omap (λ l, (λ op, (k, l, op)) <$> ops !! (k, l)) ls ↔
                       x.1.1 = k ∧ x ∈ into_iter_rev ops).
  { intros [[k' l] op]. rewrite list_elem_of_omap, into_iter_rev_elem. split.
    - intros (l' & _ & (op' & Hop & [= -> -> ->])%fmap_Some). done.
    - cbn. intros [-> Hop]. exists l. rewrite Hop. split; [|done]. apply Hin. eauto. }
  apply (StronglySorted_unique_strong op_after).
  - intros [[k1 l1] o1] [[k2 l2] o2] [Hk1 H1]%list_elem_of_filter [Hk2 H2]%Helem Ha Hb. cbn in Hk1, Hk2. subst k1 k2.
    apply Is_true_true in Ha, Hb. apply op_after_spec in Ha, Hb. cbn in Ha, Hb. rewrite key_ltb_irrefl in Ha, Hb.
    assert (label_code l1 = label_code l2) as Hl.
    { destruct Ha as [|[_ Ha]], Hb as [|[_ Hb]]; try done. apply key_ltb_total in Ha as [Ha|Ha]; [|done].
      by rewrite Ha in Hb. }
    assert (l1 = l2) as <-. { apply (f_equal label_decode) in Hl. by destruct l1, l2; cbn in Hl; simplify_eq. }
    apply into_iter_rev_elem in H1, H2. by simplify_eq.
  - eapply StronglySorted_filter; [|apply into_iter_rev_sorted]. done.
  - clear Hin Helem. induction Hls as [|l ls Hls IH HF]; cbn; [constructor|].
    destruct (ops !! (k, l)) as [op|]; cbn; [|done]. constructor; [done|]. apply Forall_forall.
    intros x (l' & Hl' & (op' & _ & ->)%fmap_Some)%list_elem_of_omap. apply Is_true_true, op_after_spec. right.
    split; [done|]. cbn. rewrite Forall_forall in HF. specialize (HF l' Hl').
    apply not_true_iff_false. intros Hlt. pose proof (key_ltb_trans _ _ _ Hlt HF) as Hii. by rewrite key_ltb_irrefl in Hii.
  - apply NoDup_Permutation.
    + apply NoDup_filter, into_iter_rev_NoDup.
    + assert (Hn : NoDup ls).
      { clear -Hls. induction Hls as [|l ls Hls IH HF]; constructor; [|done]. intros Hl.
        rewrite Forall_forall in HF. specialize (HF l Hl). by rewrite key_ltb_irrefl in HF. }
      clear -Hn. induction Hn as [|l ls Hl Hn IH]; cbn; [constructor|].
      destruct (ops !! (k, l)) as [op|]; cbn; [|done]. constructor; [|done].
      intros (l' & Hl' & (op' & _ & [= ->])%fmap_Some)%list_elem_of_omap. done.
    + intros x. unfold ops_at. by rewrite Helem, list_elem_of_filter.
Qed.
End fork_ops.
