(* ===== verification/ForkInv.v ===== *)
(** * The invariant of the fork choice

    Every node holds the stake voted for it, the stake of its subtree and, as
    long as no ancestor is marked invalid, the leaf that following the heaviest
    valid child leads to.  A batch of operations that aggregates the ancestors
    of all it changes keeps this. *)

From S2P Require Import Prelude Account Sysvar ForkChoice ForkTree ForkOps.

Module fork_inv.
Import fork_choice fork_tree fork_ops.
Implicit Types (m : gmap (Z * Z) ForkInfo) (k p c r : Z * Z) (i j : ForkInfo).

(** ** The heaviest child *)

Definition weight m c : Z := default 0 (fc_stake_voted_subtree m c).

(** The node and its ancestors are valid. *)
Definition cand m c : Prop := ∃ i, m !! c = Some i ∧ latest_invalid_ancestor i = None.

(** The marks of a node. *)
Definition status m k : option (option Slot * bool) := (λ i, (latest_invalid_ancestor i, is_duplicate_confirmed i)) <$> m !! k.

Definition heaviest (w : Z * Z → Z) m (cs : list (Z * Z)) c : Prop :=
  c ∈ cs ∧ cand m c ∧
  ∀ c', c' ∈ cs → cand m c' → w c' < w c ∨ w c' = w c ∧ key_ltb c' c = false.

Lemma weight_lookup m c i : m !! c = Some i → weight m c = stake_voted_subtree i.
Proof. intros Hi. unfold weight, fc_stake_voted_subtree. by rewrite Hi. Qed.

Lemma cand_lookup m c i : m !! c = Some i → cand m c ↔ info_is_candidate i = true.
Proof.
  intros Hi. unfold cand, info_is_candidate. rewrite bool_decide_eq_true, Hi. naive_solver.
Qed.

(** The best child and slot after some children. *)
Definition best_so_far m k (seen : list (Z * Z)) (a : Aggregated) : Prop :=
  ((∀ c, c ∈ seen → ¬ cand m c) ∧ agg_best_child a = k ∧ agg_best_slot a = k) ∨
  (heaviest (weight m) m seen (agg_best_child a) ∧ agg_best_child_stake a = weight m (agg_best_child a) ∧
   fc_best_slot m (agg_best_child a) = Some (agg_best_slot a)).

Lemma best_so_far_step {E} m k seen a c a' :
  k ∉ seen ++ [c] → best_so_far m k seen a → aggregate_child (E:=E) m k a c = Ok a' →
  best_so_far m k (seen ++ [c]) a'.
Proof.
  intros Hk Ha (i & Hi & [= <-])%res_bind_Ok. destruct (m !! c) as [i'|] eqn:Hc; [|done]. injection Hi as ->.
  pose proof (weight_lookup _ _ _ Hc) as Hw. pose proof (cand_lookup _ _ _ Hc) as Hcand. rewrite <-Hw.
  assert (Hbest : fc_best_slot m c = Some (best_slot i)) by (unfold fc_best_slot; by rewrite Hc).
  destruct (info_is_candidate i) eqn:Hci; cbn [andb].
  - destruct Ha as [(Hno & -> & Hs)|((Hin & Hcb & Hmax) & Hst & Hs)].
    + rewrite bool_decide_eq_true_2 by done. cbn. right. split_and!; [|done..]. split_and!; [set_solver|by apply Hcand|].
      intros c' [Hc'| ->%list_elem_of_singleton]%elem_of_app Hcc; [by apply Hno in Hc'|]. right. by rewrite key_ltb_irrefl.
    + rewrite bool_decide_eq_false_2 by (intros Heq; rewrite Heq in Hin; set_solver). cbn [orb]. rewrite Hst.
      destruct ((weight m (agg_best_child a) <? weight m c) ||
                ((weight m c =? weight m (agg_best_child a)) && key_ltb c (agg_best_child a))) eqn:Hbetter; right; cbn.
      * split_and!; [|done..]. split_and!; [set_solver|by apply Hcand|].
        intros c' [Hc'| ->%list_elem_of_singleton]%elem_of_app Hcc; [|right; by rewrite key_ltb_irrefl].
        specialize (Hmax c' Hc' Hcc). apply orb_true_iff in Hbetter as [?|[? Hlt]%andb_true_iff]; bool_prop; [lia|].
        destruct Hmax as [?|[? Hge]]; [lia|]. right. split; [lia|].
        apply not_true_iff_false. intros Hcc'. pose proof (key_ltb_trans _ _ _ Hcc' Hlt). congruence.
      * split_and!; [|done..]. split_and!; [set_solver|done|].
        intros c' [Hc'| ->%list_elem_of_singleton]%elem_of_app Hcc; [by apply Hmax|].
        apply orb_false_iff in Hbetter as [H1 [H2|H2]%andb_false_iff]; bool_prop; [lia|].
        destruct (Z.eq_dec (weight m c) (weight m (agg_best_child a))); [by right|lia].
  - assert (Hnc : ¬ cand m c) by (rewrite Hcand; done).
    destruct Ha as [(Hno & Hb & Hs)|((Hin & Hcb & Hmax) & Hst & Hs)]; [left|right]; cbn; split_and!; try done.
    + intros c' [Hc'| ->%list_elem_of_singleton]%elem_of_app; [by apply Hno|done].
    + split_and!; [set_solver|done|]. intros c' [Hc'| ->%list_elem_of_singleton]%elem_of_app Hcc; [by apply Hmax|done].
Qed.

Lemma wrap64_add_wrap_l x y : wrap64 (wrap64 x + y) = wrap64 (x + y).
Proof. unfold wrap64. by rewrite Zplus_mod_idemp_l. Qed.

Lemma aggregate_fold {E} m k cs seen a :
  (∀ c, c ∈ cs → is_Some (m !! c)) → k ∉ seen ++ cs → best_so_far m k seen a → is_u64 (agg_stake a) →
  ∃ a', foldM (aggregate_child (E:=E) m k) a cs = Ok a' ∧
    agg_stake a' = wrap64 (agg_stake a + sum_with (weight m) cs) ∧
    agg_confirmed a' = agg_confirmed a || existsb (λ c, default false (fc_is_duplicate_confirmed m c)) cs ∧
    best_so_far m k (seen ++ cs) a'.
Proof.
  revert seen a. induction cs as [|c cs IH]; intros seen a Hin Hk Ha Hu; cbn.
  { exists a. rewrite app_nil_r, orb_false_r, Z.add_0_r, wrap64_id; done. }
  destruct (Hin c ltac:(by left)) as [i Hi].
  destruct (aggregate_child (E:=E) m k a c) as [a1|e|] eqn:Hstep; cbn.
  - assert (Hs1 : agg_stake a1 = add64 (agg_stake a) (weight m c) ∧
                  agg_confirmed a1 = agg_confirmed a || is_duplicate_confirmed i).
    { unfold aggregate_child in Hstep. rewrite Hi in Hstep. cbn in Hstep. rewrite (weight_lookup _ _ _ Hi).
      injection Hstep as <-. by destruct (_ && _). }
    destruct Hs1 as [Hs1 Hc1]. apply best_so_far_step with (seen := seen) in Hstep; [|set_solver|done].
    destruct (IH (seen ++ [c]) a1) as (a' & Hf & Hst & Hcf & Hb); [set_solver| |done| |].
    + by rewrite <-app_assoc.
    + rewrite Hs1. apply wrap64_range.
    + exists a'. rewrite <-app_assoc in Hb. split_and!; [done| | |done].
      * rewrite Hst, Hs1. unfold add64. rewrite wrap64_add_wrap_l. f_equal. unfold sum_with. cbn. lia.
      * unfold fc_is_duplicate_confirmed at 1. rewrite Hcf, Hc1, Hi. cbn. by rewrite orb_assoc.
  - unfold aggregate_child in Hstep. by rewrite Hi in Hstep.
  - unfold aggregate_child in Hstep. by rewrite Hi in Hstep.
Qed.

(** ** The invariant of a node *)

Definition best_ok (w : Z * Z → Z) m k i : Prop :=
  ((∀ c, c ∈ children i → ¬ cand m c) ∧ best_slot i = k) ∨
  ∃ c, heaviest w m (children i) c ∧ fc_best_slot m c = Some (best_slot i).

(** Marks: an invalid node is not confirmed; children of an invalid node are
    invalid, with a mark at least as late; ancestors of a confirmed node are
    confirmed. *)
Definition marks_ok m k i : Prop :=
  (∀ x, latest_invalid_ancestor i = Some x → x <= k.1 ∧ is_duplicate_confirmed i = false) ∧
  ∀ c j, c ∈ children i → m !! c = Some j →
    (∀ x, latest_invalid_ancestor i = Some x → ∃ y, latest_invalid_ancestor j = Some y ∧ x <= y) ∧
    (is_duplicate_confirmed j = true → is_duplicate_confirmed i = true).

Record node_ok m k i : Prop := {
  n_at : is_u64 (stake_voted_at i);
  n_subtree : stake_voted_subtree i = wrap64 (stake_voted_at i + sum_with (weight m) (children i));
  n_best : latest_invalid_ancestor i = None → best_ok (weight m) m k i;
  n_under : under m k (best_slot i) ∧ is_Some (m !! best_slot i);
  n_marks : marks_ok m k i;
}.

Definition nodes_ok m : Prop := ∀ k i, m !! k = Some i → node_ok m k i.

(** ** Batches *)

(** What a batch does to a node: the node is aggregated; or its stake changes
    by some amount and its children do not change. *)
Inductive batch_node m m' k i i' : Prop :=
| node_aggregated i0 a :
    shape i0 = shape i → stake_voted_at i0 = stake_voted_at i' →
    aggregation (E:=Empty_set) m' k i0 = Ok a → i' = aggregate_info a i0 → batch_node m m' k i i'
| node_shifted d :
    (∀ c, c ∈ children i → m' !! c = m !! c) →
    stake_voted_at i' = wrap64 (stake_voted_at i + d) →
    stake_voted_subtree i' = wrap64 (stake_voted_subtree i + d) →
    best_slot i' = best_slot i → latest_invalid_ancestor i' = latest_invalid_ancestor i →
    is_duplicate_confirmed i' = is_duplicate_confirmed i → batch_node m m' k i i'.

Section batch.
Context m m' r (T : tree_ok m r) (Hok : nodes_ok m) (Hshape : same_shape m m').
Context (Hbatch : ∀ k i i', m !! k = Some i → m' !! k = Some i' → batch_node m m' k i i').
Context (Hat : ∀ k i', m' !! k = Some i' → is_u64 (stake_voted_at i')).

#[local] Lemma T' : tree_ok m' r.
Proof. by eapply tree_ok_shape. Qed.

Lemma under_shape a k : under m a k ↔ under m' a k.
Proof.
  revert k. apply (tree_ind_up m r T (λ k, under m a k ↔ under m' a k)). intros k IH.
  rewrite (under_eq m r T), (under_eq m' r T'), (fc_parent_shape m m' k Hshape).
  split; (intros [?|(p & Hp & Hu)]; [by left|right; exists p; split; [done|]; apply IH; [|done]]);
    by rewrite (fc_parent_shape m m').
Qed.

Lemma lookup_old k i' : m' !! k = Some i' → ∃ i, m !! k = Some i ∧ parent i = parent i' ∧ children i = children i'.
Proof. intros (i & Hi & [= ? ?])%(same_shape_lookup m m'); [|done]. eauto. Qed.

Lemma not_own_child k i : m !! k = Some i → k ∉ children i.
Proof.
  intros Hi Hc. destruct (t_child _ _ T k i k Hi Hc) as (j & Hj & Hp).
  pose proof (t_slots _ _ T k j k Hj Hp). lia.
Qed.

Lemma children_in k i' c : m' !! k = Some i' → c ∈ children i' → is_Some (m' !! c).
Proof. intros Hi Hc. destruct (t_child _ _ T' k i' c Hi Hc) as (j & ? & _). eauto. Qed.

Lemma aggregated_spec k i i0 a :
  m !! k = Some i → shape i0 = shape i → is_u64 (stake_voted_at i0) →
  aggregation (E:=Empty_set) m' k i0 = Ok a →
  agg_stake a = wrap64 (stake_voted_at i0 + sum_with (weight m') (children i)) ∧
  agg_confirmed a = existsb (λ c, default false (fc_is_duplicate_confirmed m' c)) (children i) ∧
  best_so_far m' k (children i) a.
Proof.
  intros Hi Hs Hu Ha. assert (Hc0 : children i0 = children i) by (unfold shape in Hs; congruence).
  destruct (same_shape_lookup m' m k i (same_shape_sym _ _ Hshape) Hi) as (i' & Hi' & [= _ Hc']).
  unfold aggregation in Ha. rewrite Hc0 in Ha.
  destruct (aggregate_fold (E:=Empty_set) m' k (children i) []
    (mkAggregated (stake_voted_at i0) 0 k k false)) as (a' & Ha' & H1 & H2 & H3).
  - intros c Hc. eapply children_in; [exact Hi'|by rewrite Hc'].
  - by apply not_own_child.
  - left. cbn. split; [set_solver|done].
  - done.
  - rewrite Ha in Ha'. injection Ha' as <-. done.
Qed.

Lemma batch_under k i' : m' !! k = Some i' → under m' k (best_slot i') ∧ is_Some (m' !! best_slot i').
Proof.
  revert k i'. apply (tree_ind_infos m' r T' (λ k i', under m' k (best_slot i') ∧ is_Some (m' !! best_slot i'))).
  intros k i' Hi' IH.
  destruct (lookup_old k i' Hi') as (i & Hi & _ & Hc).
  destruct (Hbatch k i i' Hi Hi') as [i0 a Hs0 Hat0 Ha ->|d Hsame _ _ Hb _ _].
  - destruct (aggregated_spec k i i0 a Hi Hs0) as (_ & _ & Hbest); [rewrite Hat0; by eapply Hat|done|].
    assert (Hbs : best_slot (aggregate_info a i0) = agg_best_slot a) by (unfold aggregate_info; by destruct (agg_confirmed a)).
    rewrite Hbs. destruct Hbest as [(_ & _ & ->)|((Hin & _) & _ & Hcb)]; [split; [by left|eauto]|].
    unfold fc_best_slot in Hcb. apply fmap_Some in Hcb as (j & Hj & ->). rewrite Hc in Hin.
    destruct (IH _ j Hin Hj) as [Hu ?]. split; [|done].
    apply (under_trans m' r T' k (agg_best_child a)); [|done].
    apply (under_parent m' r T' k _ k); [by eapply (child_parent m' r T')|by left].
  - rewrite Hb. destruct (n_under _ _ _ (Hok k i Hi)) as [Hu [j Hj]]. split; [by apply under_shape|].
    destruct (same_shape_lookup m' m _ j (same_shape_sym _ _ Hshape) Hj) as (j' & ? & _). eauto.
Qed.

(** A batch keeps the nodes' invariant if it keeps that of the marks. *)
Lemma batch_nodes_ok : (∀ k i', m' !! k = Some i' → marks_ok m' k i') → nodes_ok m'.
Proof.
  intros Hmarks k i' Hi'. destruct (lookup_old k i' Hi') as (i & Hi & _ & Hc).
  pose proof (Hok k i Hi) as [Hu Hsub Hbest _ _].
  destruct (Hbatch k i i' Hi Hi') as [i0 a Hs0 Hat0 Ha Hi0|d Hsame Hat' Hsub' Hb Hl _].
  - assert (Hu0 : is_u64 (stake_voted_at i0)) by (rewrite Hat0; by eapply Hat).
    destruct (aggregated_spec k i i0 a Hi Hs0 Hu0 Ha) as (Hst & _ & Hbsf).
    assert (Hfields : stake_voted_at i' = stake_voted_at i0 ∧ stake_voted_subtree i' = agg_stake a ∧
              best_slot i' = agg_best_slot a) by (rewrite Hi0; unfold aggregate_info; by destruct (agg_confirmed a)).
    destruct Hfields as (F1 & F2 & F3). split; [by eapply Hat| | |by eapply batch_under|by eapply Hmarks].
    + by rewrite F2, Hst, F1, Hc.
    + intros _. unfold best_ok. rewrite F3, <-Hc. destruct Hbsf as [(? & _ & ->)|(Hh & _ & ?)]; eauto.
  - assert (Hw : ∀ c, c ∈ children i → weight m' c = weight m c)
      by (intros c Hcc; unfold weight, fc_stake_voted_subtree; by rewrite Hsame).
    assert (Hcd : ∀ c, c ∈ children i → cand m' c ↔ cand m c) by (intros c Hcc; unfold cand; by rewrite Hsame).
    split; [by eapply Hat| | |by eapply batch_under|by eapply Hmarks].
    + rewrite Hsub', Hsub, Hat', <-Hc, !wrap64_add_wrap_l. f_equal.
      assert (Hsum : sum_with (weight m') (children i) = sum_with (weight m) (children i)).
      { clear -Hw. induction (children i) as [|c cs IH]; [done|]. unfold sum_with in *. cbn.
        rewrite IH by (intros; apply Hw; by right). by rewrite Hw by (by left). }
      rewrite Hsum. lia.
    + rewrite Hl. intros Hv. unfold best_ok. rewrite Hb, <-Hc.
      destruct (Hbest Hv) as [[Hno ->]|(c & (Hin & Hcc & Hmax) & Hcb)]; [left|right].
      * split; [|done]. intros c Hcin. by rewrite Hcd; [apply Hno|].
      * exists c. unfold fc_best_slot in *. rewrite Hsame by done. split; [|done].
        split_and!; [done|by apply Hcd|]. intros c' Hc' Hcc'%Hcd; [|done]. rewrite !Hw by done. by apply Hmax.
Qed.
End batch.
End fork_inv.
