(* ===== verification/ForkVotes.v ===== *)
(** * Adding votes

    The operations generated for new votes account for every vote that is
    added, moved or dropped, and aggregate the ancestors of all nodes they
    change; processed, they keep the fork choice's invariant. *)

From S2P Require Import Prelude Account Sysvar ForkChoice ForkTree ForkOps ForkInv.

Module fork_votes.
Import fork_choice fork_tree fork_ops fork_inv.
Implicit Types (m : gmap (Z * Z) ForkInfo) (k p c r : Z * Z) (i j : ForkInfo) (lv : gmap Z (Z * Z))
  (ops : gmap ((Z * Z) * UpdateLabel) UpdateOperation).

(** ** Totality *)

Lemma aggregation_total {E} m r k i :
  tree_ok m r → m !! k = Some i → ∃ a, aggregation (E:=E) m k i = Ok a.
Proof.
  intros T Hi. unfold aggregation. generalize (mkAggregated (stake_voted_at i) 0 k k false).
  assert (Hin : ∀ c, c ∈ children i → is_Some (m !! c)).
  { intros c Hc. destruct (t_child _ _ T k i c Hi Hc) as (j & ? & _). eauto. }
  induction (children i) as [|c cs IH]; intros a; cbn; [eauto|].
  destruct (Hin c ltac:(by left)) as [j Hj].
  assert (Hstep : ∃ a1, aggregate_child (E:=E) m k a c = Ok a1)
    by (unfold aggregate_child; rewrite Hj; cbn; eauto).
  destruct Hstep as [a1 ->]. apply IH. intros; apply Hin; by right.
Qed.

Definition confirmed_at m k : bool := default false (fc_is_duplicate_confirmed m k).

Lemma confirmed_lookup m k i : m !! k = Some i → confirmed_at m k = is_duplicate_confirmed i.
Proof. intros Hi. unfold confirmed_at, fc_is_duplicate_confirmed. by rewrite Hi. Qed.

(** A node is confirmed by an aggregation if it was, or one of its children. *)
Lemma aggregation_confirmed {E} m k i a :
  aggregation (E:=E) m k i = Ok a → agg_confirmed a = existsb (confirmed_at m) (children i).
Proof.
  unfold aggregation. intros Ha.
  assert (H : ∀ cs a0, foldM (aggregate_child (E:=E) m k) a0 cs = Ok a →
            agg_confirmed a = agg_confirmed a0 || existsb (confirmed_at m) cs); [|by apply H in Ha].
  clear Ha. induction cs as [|c cs IH]; intros a0; cbn; [intros [= ->]; by rewrite orb_false_r|].
  intros (a1 & (j & Hj & [= <-])%res_bind_Ok & H2)%res_bind_Ok. apply IH in H2. rewrite H2, orb_assoc. f_equal.
  destruct (m !! c) as [j'|] eqn:Hc; [|done]. injection Hj as ->. rewrite (confirmed_lookup _ _ _ Hc).
  by destruct (_ && _).
Qed.

Lemma aggregate_info_marks a i :
  is_duplicate_confirmed (aggregate_info a i) = agg_confirmed a || is_duplicate_confirmed i ∧
  latest_invalid_ancestor (aggregate_info a i) = (if agg_confirmed a then None else latest_invalid_ancestor i).
Proof. unfold aggregate_info. by destruct (agg_confirmed a). Qed.

(** Batches do not panic if only unconfirmed nodes with unconfirmed children
    are marked invalid. *)
Lemma run_ops_total {E} m r (l : list Op) (D : Z * Z → Prop) :
  tree_ok m r →
  (∀ x s, x ∈ l → x.2 = MarkInvalid s → D x.1.1) →
  (∀ x s, x ∈ l → x.2 = MarkValid s → ∀ k, ¬ D k) →
  (∀ k i c, D k → m !! k = Some i → c ∈ children i → D c) →
  (∀ k, D k → confirmed_at m k = false) →
  ∃ m', run_ops (E:=E) m l = Ok m'.
Proof.
  unfold run_ops. revert m. induction l as [|x l IH]; intros m T Hinv Hval Hcl Hun; cbn [foldM]; [eauto|].
  assert (Hstep : ∃ m1, run_op (E:=E) m x = Ok m1 ∧ ∀ k, D k → confirmed_at m1 k = false).
  { unfold run_op. destruct (m !! x.1.1) as [i|] eqn:Hi; [|eauto].
    assert (Hinfo : ∃ i', op_info (E:=E) m x.1.1 x.2 i = Ok i' ∧ (D x.1.1 → is_duplicate_confirmed i' = false)).
    { assert (Hdi : D x.1.1 → is_duplicate_confirmed i = false) by (intros HD; by rewrite <-(confirmed_lookup _ _ _ Hi), Hun).
      destruct x.2 as [s|s|s|s|] eqn:Ho; cbn [op_info].
      - eauto.
      - eexists. split; [done|]. intros HD. exfalso. by eapply Hval; [left|exact Ho|].
      - unfold update_with_newly_invalid_ancestor. rewrite Hdi by (eapply Hinv; [left|exact Ho]).
        destruct (latest_invalid_ancestor i) as [y|]; [destruct (y <? s)|]; eauto.
      - eauto.
      - destruct (aggregation_total (E:=E) m r _ i T Hi) as [a Ha]. rewrite Ha. eexists. split; [done|].
        intros HD. rewrite (proj1 (aggregate_info_marks a i)), Hdi by done. rewrite orb_false_r.
        rewrite (aggregation_confirmed _ _ _ _ Ha). apply not_true_iff_false. intros (c & Hc & Hcc)%existsb_exists.
        apply list_elem_of_In in Hc. by rewrite Hun in Hcc by (by eapply Hcl). }
    destruct Hinfo as (i' & -> & Hi'). cbn. eexists. split; [done|]. intros k Hk. unfold confirmed_at, fc_is_duplicate_confirmed.
    rewrite lookup_insert. case_decide as Heq; [subst k; by apply Hi'|by apply Hun]. }
  destruct Hstep as (m1 & Hm1 & Hun1). rewrite Hm1. cbn. pose proof (run_op_shape _ _ _ Hm1) as Hs.
  apply IH; [by eapply tree_ok_shape|..|done].
  - intros y s Hy. apply Hinv. by right.
  - intros y s Hy. apply Hval. by right.
  - intros k i c HD (j & Hj & [= _ Hcc])%(same_shape_lookup m m1 k i Hs) Hc. eapply Hcl; [done..|by rewrite Hcc].
Qed.

(** ** Operations across ancestors *)

Definition agg ops k : Prop := is_Some (ops !! (k, L_Aggregate)).

Lemma ancestor_suffix m r k l1 p l2 :
  tree_ok m r → ancestor_iterator m k = l1 ++ p :: l2 → l2 = ancestor_iterator m p.
Proof.
  intros T. revert k. induction l1 as [|x l1 IH]; intros k; rewrite (ancestor_iterator_eq m r T);
    destruct (fc_parent m k) as [q|]; cbn; [by intros [= -> <-]|done|intros [= -> H]; by eapply IH|done].
Qed.

Lemma ancestor_slots m r k p : tree_ok m r → p ∈ ancestor_iterator m k → p.1 < k.1.
Proof.
  intros T. revert k. apply (tree_ind_up m r T (λ k, p ∈ ancestor_iterator m k → p.1 < k.1)). intros k IH.
  rewrite (ancestor_iterator_eq m r T). destruct (fc_parent m k) as [q|] eqn:Hq; [|by intros ?%elem_of_nil].
  pose proof Hq as (i & Hi & Hp)%fc_parent_Some. pose proof (t_slots _ _ T k i q Hi Hp).
  intros [->|Hin]%elem_of_cons; [done|]. specialize (IH q eq_refl Hin). lia.
Qed.

Lemma ancestors_NoDup m r k : tree_ok m r → NoDup (ancestor_iterator m k).
Proof.
  intros T. revert k. apply (tree_ind_up m r T (λ k, NoDup (ancestor_iterator m k))). intros k IH.
  rewrite (ancestor_iterator_eq m r T). destruct (fc_parent m k) as [q|] eqn:Hq; [|constructor].
  constructor; [|by apply IH]. intros Hin. pose proof (ancestor_slots m r q q T Hin). lia.
Qed.

Lemma across_lookup (l : list (Z * Z)) ops :
  (∀ l1 a l2, l = l1 ++ a :: l2 → agg ops a → ∀ b, b ∈ l2 → agg ops b) → NoDup l →
  (∀ k op, ops !! (k, L_Aggregate) = Some op → op = Aggregate) →
  ∀ x, do_insert_aggregate_operations_across_ancestors None l ops !! x =
       if decide (x.2 = L_Aggregate ∧ x.1 ∈ l) then Some Aggregate else ops !! x.
Proof.
  revert ops. induction l as [|a l IH]; intros ops Hch Hn Hop x; cbn.
  { rewrite decide_False; [done|]. intros [_ ?%elem_of_nil]. done. }
  apply NoDup_cons in Hn as [Ha Hn]. unfold do_insert_aggregate_operation. case_bool_decide as Hagg.
  - case_decide as Hx; [|done]. destruct Hx as [Hx1 Hx2]. destruct x as [k lb]; cbn in *; subst lb.
    assert (Hk : agg ops k). { apply elem_of_cons in Hx2 as [->|Hk]; [done|]. by eapply (Hch [] a l). }
    destruct Hk as [op Hk]. by rewrite Hk, (Hop k op Hk).
  - rewrite IH; [| |done|].
    + destruct x as [k lb]; cbn. destruct (decide (lb = L_Aggregate ∧ k ∈ l)) as [[-> Hk]|Hx].
      * rewrite decide_True; [done|]. split; [done|by right].
      * rewrite lookup_insert. destruct (decide ((a, L_Aggregate) = (k, lb))) as [[= <- <-]|Hne].
        -- rewrite decide_True; [done|]. split; [done|by left].
        -- rewrite decide_False; [done|]. intros [-> [->|?]%elem_of_cons]; [done|]. by apply Hx.
    + intros l1 b l2 -> Hb c Hc. unfold agg in *. rewrite lookup_insert_is_Some' in Hb |- *.
      destruct Hb as [[= ->]|Hb]; [exfalso; apply Ha; apply elem_of_app; right; by left|].
      right. by eapply (Hch (a :: l1) b l2).
    + intros k op. rewrite lookup_insert. case_decide; [by intros [= <-]|apply Hop].
Qed.

(** All ancestors of an aggregated node are aggregated. *)
Definition agg_closed m ops : Prop := ∀ k p, agg ops k → fc_parent m k = Some p → agg ops p.

Lemma agg_closed_ancestors m r ops k p :
  tree_ok m r → agg_closed m ops → agg ops k → p ∈ ancestor_iterator m k → agg ops p.
Proof.
  intros T Hcl. revert k. apply (tree_ind_up m r T (λ k, agg ops k → p ∈ ancestor_iterator m k → agg ops p)).
  intros k IH Hk. rewrite (ancestor_iterator_eq m r T).
  destruct (fc_parent m k) as [q|] eqn:Hq; [|by intros ?%elem_of_nil].
  assert (Hagg : agg ops q) by (by eapply Hcl). intros [->|?]%elem_of_cons; [done|]. by apply (IH q).
Qed.

Lemma insert_agg_lookup m r k ops :
  tree_ok m r → (∀ k op, ops !! (k, L_Aggregate) = Some op → op = Aggregate) →
  (∀ a b, a ∈ ancestor_iterator m k → agg ops a → b ∈ ancestor_iterator m a → agg ops b) →
  ∀ x, insert_aggregate_operations m k ops !! x =
       if decide (x.2 = L_Aggregate ∧ x.1 ∈ ancestor_iterator m k) then Some Aggregate else ops !! x.
Proof.
  intros T Hop Hcl. apply across_lookup; [|by eapply ancestors_NoDup|done].
  intros l1 a l2 Hl Ha b Hb. eapply (Hcl a); [rewrite Hl; apply elem_of_app; right; by left|done|].
  by rewrite <-(ancestor_suffix _ _ _ _ _ _ T Hl).
Qed.

(** ** Generating the operations *)

Definition amount ops k (l : UpdateLabel) : Z :=
  match ops !! (k, l) with Some (Add s) | Some (Subtract s) => s | _ => 0 end.

(** Labels and operations agree, and the parent of every node named is
    aggregated. *)
Definition typed ops : Prop := ∀ k l op, ops !! (k, l) = Some op →
  match l, op with L_Add, Add _ | L_Subtract, Subtract _ | L_Aggregate, Aggregate => True | _, _ => False end.
Definition closed m ops : Prop := ∀ k l p, is_Some (ops !! (k, l)) → fc_parent m k = Some p → agg ops p.

Lemma typed_agg ops k op : typed ops → ops !! (k, L_Aggregate) = Some op → op = Aggregate.
Proof. intros Ht Hk. specialize (Ht _ _ _ Hk). by destruct op. Qed.

Definition stake_op (l : UpdateLabel) (s : Z) : UpdateOperation :=
  match l with L_Subtract => Subtract s | _ => Add s end.

Lemma wrap64_wrap64 x : wrap64 (wrap64 x) = wrap64 x.
Proof. unfold wrap64. by rewrite Zmod_mod. Qed.

(** Adding stake to the operation of a label, with its aggregations. *)
Lemma push_stake {E} m r ops k l s :
  tree_ok m r → typed ops → closed m ops → l = L_Add ∨ l = L_Subtract →
  ∃ ops1, upsert_stake (E:=E) (k, l) s (stake_op l s) ops = Ok ops1 ∧
    let ops2 := insert_aggregate_operations m k ops1 in
    typed ops2 ∧ closed m ops2 ∧
    (∀ k' l', l' ≠ L_Aggregate → (k', l') ≠ (k, l) → amount ops2 k' l' = amount ops k' l') ∧
    wrap64 (amount ops2 k l) = wrap64 (amount ops k l + s).
Proof.
  intros T Ht Hcl Hl.
  assert (Hup : ∃ s1, upsert_stake (E:=E) (k, l) s (stake_op l s) ops = Ok (<[(k, l) := stake_op l s1]> ops) ∧
                      wrap64 s1 = wrap64 (amount ops k l + s)).
  { unfold upsert_stake, amount. destruct (ops !! (k, l)) as [op|] eqn:Ho.
    - pose proof (Ht _ _ _ Ho) as Hop. destruct Hl as [->| ->], op as [x|x|x|x|]; try done; cbn;
        (exists (add64 x s); split; [done|]; unfold add64; apply wrap64_wrap64).
    - by exists s. }
  destruct Hup as (s1 & -> & Hs1). eexists. split; [done|].
  set (ops1 := <[(k, l) := stake_op l s1]> ops).
  assert (Hlag : l ≠ L_Aggregate) by (by destruct Hl as [->| ->]).
  assert (Hagg1 : ∀ q, agg ops1 q ↔ agg ops q).
  { intros q. unfold agg, ops1. rewrite lookup_insert_ne; [done|]. by intros [= _ ?]. }
  assert (Hop1 : ∀ q op, ops1 !! (q, L_Aggregate) = Some op → op = Aggregate).
  { intros q op. unfold ops1. rewrite lookup_insert_ne; [by apply typed_agg|]. by intros [= _ ?]. }
  assert (Hcl1 : ∀ x y, x ∈ ancestor_iterator m k → agg ops1 x → y ∈ ancestor_iterator m x → agg ops1 y).
  { intros x y Hx Hxa Hy. apply Hagg1. eapply (agg_closed_ancestors m r _ x); [done| |by apply Hagg1|done].
    intros q q' Hq. by apply Hcl with (l := L_Aggregate). }
  pose proof (insert_agg_lookup m r k ops1 T Hop1 Hcl1) as Hlook.
  cbn zeta. split_and!.
  - intros k' l' op. rewrite Hlook. case_decide as Hx; [destruct Hx as [Hx _]; cbn in Hx; subst l'; by intros [= <-]|].
    unfold ops1. rewrite lookup_insert. case_decide as He; [|apply Ht]. injection He as <- <-. intros [= <-].
    by destruct Hl as [->| ->].
  - intros k' l' p Hk' Hp. unfold agg. rewrite Hlook. case_decide as Hx; [done|]. rewrite Hlook in Hk'.
    apply Hagg1. destruct (decide ((k', l').2 = L_Aggregate ∧ (k', l').1 ∈ ancestor_iterator m k)) as [[Hl' Hin]|_].
    + exfalso. apply Hx. split; [done|]. cbn [fst snd] in *. subst l'. apply list_elem_of_split in Hin as (l1 & l2 & Hin).
      rewrite Hin. apply elem_of_app. right. right.
      rewrite (ancestor_suffix _ _ _ _ _ _ T Hin), (ancestor_iterator_eq m r T), Hp. by left.
    + unfold ops1 in Hk'. rewrite lookup_insert in Hk'. case_decide as He; [|by eapply Hcl].
      injection He as <- <-. exfalso. apply Hx. split; [done|]. cbn [fst]. rewrite (ancestor_iterator_eq m r T), Hp. by left.
  - intros k' l' Hl' Hne. unfold amount. rewrite Hlook, decide_False by (by intros [? _]).
    unfold ops1. by rewrite lookup_insert_ne by done.
  - unfold amount at 1. rewrite Hlook, decide_False by (by intros [? _]). unfold ops1. rewrite lookup_insert_eq.
    rewrite <-Hs1. by destruct Hl as [->| ->].
Qed.

(** ** Processing the operations of votes *)

Section vote_batch.
Context m m' r ops (T : tree_ok m r) (Hok : nodes_ok m) (Ht : typed ops) (Hcl : closed m ops).
Context (Hrun : run_ops (E:=Empty_set) m (into_iter_rev ops) = Ok m').

#[local] Lemma Hshape : same_shape m m'.
Proof. by eapply run_ops_shape. Qed.

Definition shifted k i : ForkInfo :=
  let d := amount ops k L_Add - amount ops k L_Subtract in
  with_stakes (wrap64 (stake_voted_at i + d)) (wrap64 (stake_voted_subtree i + d)) i.

Lemma vote_node k i :
  m !! k = Some i → ∃ i', m' !! k = Some i' ∧
    ((agg ops k ∧ ∃ a, aggregation (E:=Empty_set) m' k (shifted k i) = Ok a ∧ i' = aggregate_info a (shifted k i)) ∨
     (¬ agg ops k ∧ i' = shifted k i)).
Proof.
  intros Hi. destruct (run_ops_local m r _ m' T (into_iter_rev_sorted ops) Hrun k i Hi) as (i' & Hi' & Hf).
  exists i'. split; [done|].
  rewrite (ops_at_labels ops k [L_Subtract; L_Add; L_Aggregate]) in Hf.
  2: { repeat constructor. }
  2: { intros l [op Hop]. specialize (Ht _ _ _ Hop). destruct l; set_solver. }
  destruct (Hok k i Hi) as [Hu Hsub _ _ _].
  assert (Hu2 : wrap64 (stake_voted_subtree i) = stake_voted_subtree i) by (rewrite Hsub; apply wrap64_wrap64).
  assert (Hshift : ∀ l, foldM (λ i x, op_info (E:=Empty_set) m' k x.2 i) i
            (omap (λ l, (λ op, (k, l, op)) <$> ops !! (k, l)) [L_Subtract; L_Add] ++ l) =
          foldM (λ i x, op_info (E:=Empty_set) m' k x.2 i) (shifted k i) l).
  { intros l. pose proof (Ht k L_Subtract) as HtS. pose proof (Ht k L_Add) as HtA.
    unfold shifted, amount. cbn.
    destruct (ops !! (k, L_Subtract)) as [[| | |s|]|], (ops !! (k, L_Add)) as [[t| | | |]|];
      try (by specialize (HtS _ eq_refl)); try (by specialize (HtA _ eq_refl)); cbn.
    - f_equal. unfold with_stakes, add64, sub64. cbn. rewrite !wrap64_add_wrap_l, <-!Z.add_opp_r, <-!Z.add_assoc.
      by rewrite (Z.add_comm (- s) t).
    - by rewrite Z.sub_0_r.
    - f_equal. rewrite !Z.add_0_r, Hu2, (wrap64_id _ Hu). by destruct i. }
  change [L_Subtract; L_Add; L_Aggregate] with ([L_Subtract; L_Add] ++ [L_Aggregate]) in Hf.
  rewrite omap_app, Hshift in Hf. cbn in Hf. unfold agg.
  destruct (ops !! (k, L_Aggregate)) as [op|] eqn:Hag; cbn in Hf.
  - rewrite (typed_agg _ _ _ Ht Hag) in Hf. left. split; [eauto|].
    apply res_bind_Ok in Hf as (i1 & (a & Ha & [= <-])%res_bind_Ok & [= <-]). eauto.
  - right. split; [by intros []|]. by injection Hf as <-.
Qed.

(** Votes change no marks. *)
Lemma vote_marks k i' :
  m' !! k = Some i' → ∀ i, m !! k = Some i →
  latest_invalid_ancestor i' = latest_invalid_ancestor i ∧ is_duplicate_confirmed i' = is_duplicate_confirmed i.
Proof.
  revert k i'. apply (tree_ind_infos m' r (tree_ok_shape _ _ _ Hshape T)
    (λ k i', ∀ i, m !! k = Some i → latest_invalid_ancestor i' = latest_invalid_ancestor i ∧
                  is_duplicate_confirmed i' = is_duplicate_confirmed i)).
  intros k i' Hi' IH i Hi. destruct (vote_node k i Hi) as (i1 & Hi1 & [(_ & a & Ha & ->)|(_ & ->)]); simplify_eq; [|done].
  pose proof (aggregate_info_marks a (shifted k i)) as [Hc Hl]. rewrite Hc, Hl.
  destruct (agg_confirmed a) eqn:Hca; [|done]. rewrite (aggregation_confirmed _ _ _ _ Ha) in Hca.
  apply existsb_exists in Hca as (c & Hcin & Hcc). apply list_elem_of_In in Hcin. cbn in Hcin.
  destruct (t_child _ _ T k i c Hi Hcin) as (j & Hj & _).
  destruct (same_shape_lookup m' m c j (same_shape_sym _ _ Hshape) Hj) as (j' & Hj' & _).
  rewrite (confirmed_lookup _ _ _ Hj') in Hcc.
  destruct (IH c j') with (i := j) as [_ Hcj]; [|done..|].
  { unfold aggregate_info, shifted. by destruct (agg_confirmed a). }
  destruct (n_marks _ _ _ (Hok k i Hi)) as [Hinv Hch].
  assert (Hci : is_duplicate_confirmed i = true) by (eapply Hch; [done..|congruence]). rewrite Hci. cbn.
  split; [|done]. destruct (latest_invalid_ancestor i) as [x|] eqn:Hx; [|done].
  destruct (Hinv x eq_refl). congruence.
Qed.

Lemma vote_cand k : cand m' k ↔ cand m k.
Proof.
  unfold cand. split; intros (i & Hi & Hl).
  - destruct (same_shape_lookup m m' k i Hshape Hi) as (j & Hj & _). exists j. split; [done|].
    by rewrite <-(proj1 (vote_marks k i Hi j Hj)).
  - destruct (same_shape_lookup m' m k i (same_shape_sym _ _ Hshape) Hi) as (j & Hj & _). exists j. split; [done|].
    by rewrite (proj1 (vote_marks k j Hj i Hi)).
Qed.

Lemma vote_batch_node k i i' : m !! k = Some i → m' !! k = Some i' → batch_node m m' k i i'.
Proof.
  intros Hi Hi'. destruct (vote_node k i Hi) as (i1 & Hi1 & Hcase). rewrite Hi' in Hi1. injection Hi1 as <-.
  destruct Hcase as [(_ & a & Ha & Hia)|(Hna & ->)].
  - eapply (node_aggregated _ _ _ _ _ (shifted k i) a); [done| |done..].
    rewrite Hia. unfold aggregate_info. by destruct (agg_confirmed a).
  - eapply (node_shifted _ _ _ _ _ (amount ops k L_Add - amount ops k L_Subtract)); [|done..].
    intros c Hc. eapply run_ops_other; [done|]. intros [[c' l] op] Hx Heq. cbn in Heq. subst c'.
    apply into_iter_rev_elem in Hx. apply Hna. eapply (Hcl c l); [eauto|]. by eapply child_parent.
Qed.

Lemma vote_at k i i' :
  m !! k = Some i → m' !! k = Some i' →
  stake_voted_at i' = wrap64 (stake_voted_at i - amount ops k L_Subtract + amount ops k L_Add).
Proof.
  intros Hi Hi'. destruct (vote_node k i Hi) as (i1 & Hi1 & Hcase). rewrite Hi' in Hi1. injection Hi1 as <-.
  assert (Hs : stake_voted_at i' = stake_voted_at (shifted k i)).
  { destruct Hcase as [(_ & a & _ & ->)|(_ & ->)]; [|done]. unfold aggregate_info. by destruct (agg_confirmed a). }
  rewrite Hs. cbn. f_equal. lia.
Qed.

Lemma vote_batch_ok : nodes_ok m'.
Proof.
  eapply (batch_nodes_ok m m' r T Hok Hshape vote_batch_node).
  - intros k i' Hi'. destruct (same_shape_lookup m m' k i' Hshape Hi') as (i & Hi & _).
    rewrite (vote_at k i i' Hi Hi'). apply wrap64_range.
  - intros k i' Hi'. destruct (same_shape_lookup m m' k i' Hshape Hi') as (i & Hi & [= _ Hc]).
    destruct (n_marks _ _ _ (Hok k i Hi)) as [H1 H2]. destruct (vote_marks k i' Hi' i Hi) as [El Ec].
    unfold marks_ok. rewrite El, Ec. split; [done|]. intros c j' Hcin Hj'.
    destruct (same_shape_lookup m m' c j' Hshape Hj') as (j & Hj & _).
    destruct (vote_marks c j' Hj' j Hj) as [-> ->]. apply (H2 c j); [by rewrite Hc|done].
Qed.
End vote_batch.

Section votes.
Context (ES : gmap Epoch (gmap Pubkey Z)) (sched : EpochSchedule).
Context (stake_nonneg : ∀ pk slot, 0 <= stake_update ES sched pk slot).

(** The stake of the votes for the keys with a property. *)
Definition vsum (P : Z * Z → Prop) `{!∀ k, Decision (P k)} lv : Z :=
  map_fold (λ pk v n, (if decide (P v) then stake_update ES sched pk v.1 else 0) + n) 0 lv.

Lemma vsum_insert_new (P : Z * Z → Prop) `{!∀ k, Decision (P k)} lv pk v :
  lv !! pk = None →
  vsum P (<[pk := v]> lv) = (if decide (P v) then stake_update ES sched pk v.1 else 0) + vsum P lv.
Proof. intros Hn. unfold vsum. rewrite map_fold_insert_L; [done| |done]. intros. lia. Qed.

Lemma vsum_delete (P : Z * Z → Prop) `{!∀ k, Decision (P k)} lv pk v :
  lv !! pk = Some v →
  vsum P lv = (if decide (P v) then stake_update ES sched pk v.1 else 0) + vsum P (delete pk lv).
Proof.
  intros Hv. rewrite <-(insert_id lv pk v) at 1 by done. rewrite <-insert_delete_eq.
  apply vsum_insert_new, lookup_delete_eq.
Qed.

Lemma vsum_insert (P : Z * Z → Prop) `{!∀ k, Decision (P k)} lv pk v :
  vsum P (<[pk := v]> lv) =
  vsum P lv - match lv !! pk with
              | Some o => if decide (P o) then stake_update ES sched pk o.1 else 0
              | None => 0
              end + (if decide (P v) then stake_update ES sched pk v.1 else 0).
Proof.
  destruct (lv !! pk) as [o|] eqn:Ho.
  - rewrite <-insert_delete_eq, vsum_insert_new by apply lookup_delete_eq. rewrite (vsum_delete P lv pk o Ho). lia.
  - rewrite vsum_insert_new by done. lia.
Qed.

(** The stake of the latest votes for a node. *)
Definition votes_at lv k : Z := vsum (λ v, v = k) lv.

Record gen_ok m lv ops : Prop := {
  g_typed : typed ops;
  g_closed : closed m ops;
  g_at k i : m !! k = Some i →
    wrap64 (stake_voted_at i - amount ops k L_Subtract + amount ops k L_Add) = wrap64 (votes_at lv k);
}.

Lemma wrap64_sub_congr x y z : wrap64 x = wrap64 y → wrap64 (z - x) = wrap64 (z - y).
Proof. unfold wrap64. intros H. by rewrite Zminus_mod, H, <-Zminus_mod. Qed.

Lemma wrap64_add_congr x y z : wrap64 x = wrap64 y → wrap64 (z + x) = wrap64 (z + y).
Proof. unfold wrap64. intros H. by rewrite Zplus_mod, H, <-Zplus_mod. Qed.

(** The latest votes after a batch. *)
Definition latest_after r lv (x : Z * (Z * Z)) : gmap Z (Z * Z) :=
  if (x.2.1 <? r.1) || is_outdated (lv !! x.1) x.2 then lv else <[x.1 := x.2]> lv.

Lemma not_outdated old new :
  is_outdated (Some old) new = false → (if new.1 =? old.1 then new.2 <? old.2 else old.1 <? new.1) = true.
Proof.
  cbn. intros [H1 H2]%orb_false_iff. apply andb_false_iff in H2. destruct (Z.eqb_spec new.1 old.1); [|bool_prop; lia].
  destruct H2 as [?|?]; [done|]. bool_prop. by apply Z.ltb_lt.
Qed.

(** One vote: its stake moves from the validator's old vote to the new one. *)
Lemma move_vote {E} m r lv ops pk new :
  tree_ok m r → gen_ok m lv ops → is_outdated (lv !! pk) new = false →
  ∃ ops1 ops2,
    match lv !! pk with
    | Some old => retract_vote (E:=E) ES sched m pk old new ops = Ok ops1
    | None => ops1 = ops
    end ∧
    let s := stake_update ES sched pk new.1 in
    upsert_stake (E:=E) (new, L_Add) s (Add s) ops1 = Ok ops2 ∧
    gen_ok m (<[pk := new]> lv) (insert_aggregate_operations m new ops2).
Proof.
  intros T [Ht Hcl Hat] Hnew.
  assert (Hret : ∃ ops1, match lv !! pk with
      | Some old => retract_vote (E:=E) ES sched m pk old new ops = Ok ops1 | None => ops1 = ops end ∧
      typed ops1 ∧ closed m ops1 ∧ ∀ k i, m !! k = Some i →
        wrap64 (stake_voted_at i - amount ops1 k L_Subtract + amount ops1 k L_Add) =
        wrap64 (votes_at lv k - match lv !! pk with
          | Some o => if decide (o = k) then stake_update ES sched pk o.1 else 0 | None => 0 end)).
  { destruct (lv !! pk) as [old|]; [|exists ops; split_and!; [done..|]; intros; rewrite Z.sub_0_r; by apply Hat].
    unfold retract_vote. rewrite (not_outdated old new Hnew). cbn [negb].
    destruct (Z.ltb_spec 0 (stake_update ES sched pk old.1)) as [Hpos|Hz].
    - destruct (push_stake (E:=E) m r ops old L_Subtract (stake_update ES sched pk old.1) T Ht Hcl)
        as (ops1 & Hup & Ht1 & Hcl1 & Hsame & Ham); [by right|]. cbn [stake_op] in Hup. rewrite Hup. cbn.
      eexists. split; [done|]. split_and!; [done..|]. intros k i Hi. specialize (Hat k i Hi).
      rewrite (Hsame k L_Add) by done. destruct (decide (old = k)) as [<-|Hne].
      + transitivity (wrap64 (stake_voted_at i + amount ops old L_Add -
                        (amount ops old L_Subtract + stake_update ES sched pk old.1))).
        * rewrite <-(wrap64_sub_congr _ _ _ Ham). f_equal. lia.
        * transitivity (wrap64 ((stake_voted_at i - amount ops old L_Subtract + amount ops old L_Add) -
                                stake_update ES sched pk old.1)); [f_equal; lia|].
          unfold wrap64 in *. by rewrite Zminus_mod, Hat, <-Zminus_mod.
      + rewrite (Hsame k L_Subtract); [by rewrite Z.sub_0_r|done|]. by intros [= ?].
    - exists ops. split_and!; [done..|]. intros k i Hi. rewrite (Hat k i Hi). f_equal.
      pose proof (stake_nonneg pk old.1). case_decide; lia. }
  destruct Hret as (ops1 & Hr & Ht1 & Hcl1 & Hat1).
  destruct (push_stake (E:=E) m r ops1 new L_Add (stake_update ES sched pk new.1) T Ht1 Hcl1)
    as (ops2 & Hup & Ht2 & Hcl2 & Hsame & Ham); [by left|].
  exists ops1, ops2. split; [done|]. split; [done|]. split; [done..|]. intros k i Hi. specialize (Hat1 k i Hi).
  unfold votes_at at 1. rewrite vsum_insert. fold (votes_at lv k). rewrite (Hsame k L_Subtract) by done.
  destruct (decide (new = k)) as [<-|Hne].
  - rewrite (wrap64_add_congr _ _ _ Ham), Z.add_assoc. unfold wrap64 in *. by rewrite Zplus_mod, Hat1, <-Zplus_mod.
  - rewrite Hsame; [|done|by intros [= ?]]. by rewrite Z.add_0_r.
Qed.

Lemma generate_loop_ok r0 votes obs f ops :
  tree_ok (fork_infos f) r0 → gen_ok (fork_infos f) (latest_votes f) ops →
  NoDup votes.*1 → (∀ pk, pk ∈ votes.*1 → obs !! pk = None) →
  ∃ ops', generate_loop ES sched votes obs ops f =
            (fork_choice.with_votes (foldl (latest_after (root f)) (latest_votes f) votes) f, Ok ops') ∧
    gen_ok (fork_infos f) (foldl (latest_after (root f)) (latest_votes f) votes) ops'.
Proof.
  intros T. revert obs f ops T. induction votes as [|[pk new] votes IH]; intros obs f ops T Hg Hn Hobs.
  { exists ops. cbn. by destruct f. }
  apply NoDup_cons in Hn as [Hpk Hn]. cbn [generate_loop foldl]. unfold mbind, st_bind, get. cbn [fst snd].
  unfold latest_after at 2 4. cbn [fst snd]. destruct (new.1 <? (root f).1); cbn [orb].
  { apply IH; [done..|]. intros q Hq. apply Hobs. by right. }
  unfold assert_. rewrite bool_decide_eq_true_2 by (apply Hobs; by left). unfold mret, st_ret.
  assert (Hobs' : ∀ q, q ∈ votes.*1 → <[pk := new.1]> obs !! q = None).
  { intros q Hq. rewrite lookup_insert_ne by (intros ->; done). apply Hobs. by right. }
  destruct (is_outdated (latest_votes f !! pk) new) eqn:Hout; [by apply IH|].
  destruct (move_vote (E:=Empty_set) _ r0 _ ops pk new T Hg Hout) as (ops1 & ops2 & Hret & Hup & Hg2).
  destruct (IH (<[pk := new.1]> obs) (fork_choice.with_votes (<[pk := new]> (latest_votes f)) f)
    (insert_aggregate_operations (fork_infos f) new ops2)) as (ops' & Hl & Hg'); [done..|].
  exists ops'. split; [|done]. unfold modify, lift.
  destruct (latest_votes f !! pk) as [old|]; [rewrite Hret|subst ops1]; cbn in Hup |- *; rewrite Hup; apply Hl.
Qed.

(** ** The invariant of the fork choice *)

Record fc_ok f : Prop := {
  ok_tree : tree_ok (fork_infos f) (root f);
  ok_nodes : nodes_ok (fork_infos f);
  ok_at k i : fork_infos f !! k = Some i → stake_voted_at i = wrap64 (votes_at (latest_votes f) k);
  ok_root : cand (fork_infos f) (root f);
}.

Lemma gen_start f : fc_ok f → gen_ok (fork_infos f) (latest_votes f) ∅.
Proof.
  intros [_ _ Hat _]. split.
  - by intros k l op Hop.
  - by intros k l p [? Hop].
  - intros k i Hi. unfold amount. rewrite !lookup_empty, Z.sub_0_r, Z.add_0_r, (Hat k i Hi). apply wrap64_wrap64.
Qed.

Lemma best_overall_slot_ok f :
  fc_ok f → ∃ i, fork_infos f !! root f = Some i ∧ best_overall_slot f = (f, Ok (best_slot i)).
Proof.
  intros [[(i & Hi & _) _ _ _ _ _ _] _ _ _]. exists i. split; [done|].
  unfold best_overall_slot, mbind, st_bind, get, lift, fc_best_slot. by rewrite Hi.
Qed.

Lemma add_votes_ok f votes :
  fc_ok f → NoDup votes.*1 →
  ∃ f' b, add_votes ES sched votes f = (f', Ok b) ∧ fc_ok f' ∧ root f' = root f ∧
    same_shape (fork_infos f) (fork_infos f') ∧
    (∀ k, status (fork_infos f') k = status (fork_infos f) k) ∧
    latest_votes f' = foldl (latest_after (root f)) (latest_votes f) votes.
Proof.
  intros Hf Hn. pose proof (ok_tree _ Hf) as T.
  destruct (generate_loop_ok (root f) votes ∅ f ∅ T (gen_start f Hf) Hn) as (ops & Hgen & [Ht Hcl Hat]); [done|].
  set (lv := foldl (latest_after (root f)) (latest_votes f) votes) in *. set (f1 := fork_choice.with_votes lv f) in *.
  destruct (run_ops_total (E:=Empty_set) (fork_infos f1) (root f) (into_iter_rev ops) (λ _, False) T) as [m' Hm'].
  { intros [[k l] op] s Hx%into_iter_rev_elem Hop. cbn in Hop. subst op. specialize (Ht _ _ _ Hx). by destruct l. }
  { auto. }
  { done. }
  { done. }
  pose proof (process_operations_run (into_iter_rev ops) f1) as Hp. rewrite Hm' in Hp.
  pose proof (run_ops_shape _ _ _ Hm') as Hs.
  assert (Hf' : fc_ok (with_infos m' f1)).
  { split.
    - by eapply tree_ok_shape.
    - by eapply (vote_batch_ok (fork_infos f) m' (root f) ops T (ok_nodes _ Hf) Ht Hcl).
    - cbn. intros k i' Hi'. destruct (same_shape_lookup _ _ k i' Hs Hi') as (i & Hi & _).
      rewrite (vote_at (fork_infos f) m' (root f) ops T (ok_nodes _ Hf) Ht Hcl Hm' k i i' Hi Hi'). by apply Hat.
    - cbn. eapply (vote_cand (fork_infos f) m' (root f) ops T (ok_nodes _ Hf) Ht Hcl Hm'). apply (ok_root _ Hf). }
  destruct (best_overall_slot_ok _ Hf') as (i & _ & Hb).
  exists (with_infos m' f1), (best_slot i). split; [|split_and!; [done..| |done]].
  2: { change (fork_infos f1) with (fork_infos f) in *. intros k. unfold status. cbn. destruct (m' !! k) as [i'|] eqn:Hi'; [|by rewrite (same_shape_None _ _ _ Hs Hi')].
       destruct (same_shape_lookup _ _ k i' Hs Hi') as (j & Hj & _).
       destruct (vote_marks (fork_infos f) m' (root f) ops T (ok_nodes _ Hf) Ht Hcl Hm' k i' Hi' j Hj) as [E1 E2].
       rewrite Hj. cbn. by rewrite E1, E2. }
  unfold add_votes, generate_update_operations, process_update_operations, mbind, st_bind.
  by rewrite Hgen, Hp, Hb.
Qed.
End votes.
End fork_votes.
