(* ===== verification/ForkMarks.v ===== *)
(** * Marking forks invalid and valid

    Marking a slot invalid makes its subtree invalid; marking it valid clears
    the marks of its subtree up to its slot and confirms it and its ancestors.
    Both keep the fork choice's invariant. *)

From S2P Require Import Prelude Account Sysvar ForkChoice ForkTree ForkOps ForkInv ForkVotes.

Module fork_marks.
Import fork_choice fork_tree fork_ops fork_inv fork_votes.
Implicit Types (m : gmap (Z * Z) ForkInfo) (k p c r : Z * Z) (i j : ForkInfo)
  (ops : gmap ((Z * Z) * UpdateLabel) UpdateOperation).

(** ** The operations *)

Definition mark_label (mark : UpdateOperation) : UpdateLabel :=
  match mark with MarkValid s => L_MarkValid s | MarkInvalid s => L_MarkInvalid s | _ => L_Aggregate end.
Definition is_mark (mark : UpdateOperation) : Prop :=
  match mark with MarkValid _ | MarkInvalid _ => True | _ => False end.

Lemma insert_mark_lookup mark nodes ops k l :
  is_mark mark → NoDup nodes → (∀ k, k ∈ nodes → ops !! (k, L_Aggregate) = None) →
  insert_mark_operations mark nodes ops !! (k, l) =
  if decide (k ∈ nodes ∧ l = mark_label mark) then Some mark
  else if decide (k ∈ nodes ∧ l = L_Aggregate) then Some Aggregate else ops !! (k, l).
Proof.
  intros Hm. revert ops. induction nodes as [|n nodes IH]; intros ops Hn Hops; cbn.
  { rewrite !decide_False by (by intros [?%elem_of_nil _]). done. }
  apply NoDup_cons in Hn as [Hnn Hn].
  assert (Hop : (do_insert_aggregate_operation (Some mark) n ops).2 =
                <[(n, L_Aggregate) := Aggregate]> (<[(n, mark_label mark) := mark]> ops)).
  { unfold do_insert_aggregate_operation. rewrite bool_decide_eq_false_2 by (rewrite Hops by (by left); by intros []).
    by destruct mark. }
  assert (Hne : mark_label mark ≠ L_Aggregate) by (by destruct mark).
  unfold insert_mark_operations in IH. rewrite Hop, IH; [|done|].
  - pose proof (elem_of_cons nodes k n) as Hcons. rewrite !lookup_insert.
    repeat case_decide; destruct_and?; simplify_eq; try done; try tauto; naive_solver.
  - intros q Hq. rewrite !lookup_insert_ne; [apply Hops; by right| |]; intros Heq; by simplify_eq.
Qed.

(** ** Processing them *)

Section mark_batch.
Context m r (kv : Z * Z) (mark : UpdateOperation) (nodes : gset (Z * Z)).
Context (T : tree_ok m r) (Hok : nodes_ok m) (Hmark : is_mark mark).
(** The nodes marked are the subtree at [kv], or none. *)
Context (Hunder : ∀ k, k ∈ nodes → is_Some (m !! k) ∧ under m kv k).
Context (Hdown : ∀ k i c, k ∈ nodes → m !! k = Some i → c ∈ children i → c ∈ nodes).
Context (Hup : ∀ k p, k ∈ nodes → k ≠ kv → fc_parent m k = Some p → p ∈ nodes).

Definition mark_ops : gmap ((Z * Z) * UpdateLabel) UpdateOperation :=
  insert_aggregate_operations m kv (insert_mark_operations mark (elements nodes) ∅).

Lemma ancestor_not_marked k : k ∈ ancestor_iterator m kv → k ∉ nodes.
Proof using T Hunder.
  intros Ha%(ancestor_slots m r kv k T) [_ [->|Hs]%(under_slot m r T)]%Hunder; lia.
Qed.

Lemma mark_ops_lookup k l :
  mark_ops !! (k, l) =
  if decide (k ∈ nodes ∧ l = mark_label mark) then Some mark
  else if decide (l = L_Aggregate ∧ (k ∈ nodes ∨ k ∈ ancestor_iterator m kv)) then Some Aggregate else None.
Proof using T Hmark Hunder.
  assert (Hl : ∀ k l, insert_mark_operations mark (elements nodes) ∅ !! (k, l) =
    if decide (k ∈ nodes ∧ l = mark_label mark) then Some mark
    else if decide (k ∈ nodes ∧ l = L_Aggregate) then Some Aggregate else None).
  { intros k' l'. rewrite insert_mark_lookup; [|done|apply NoDup_elements|done].
    rewrite lookup_empty. pose proof (elem_of_elements nodes k'). repeat case_decide; naive_solver. }
  assert (Hne : mark_label mark ≠ L_Aggregate) by (by destruct mark).
  unfold mark_ops. rewrite (insert_agg_lookup m r kv _ T).
  - cbn. rewrite Hl. pose proof (ancestor_not_marked k). repeat case_decide; naive_solver.
  - intros q op. rewrite Hl. repeat case_decide; naive_solver.
  - intros a b Ha%ancestor_not_marked [op Hagg]. rewrite Hl in Hagg. repeat case_decide; naive_solver.
Qed.

Definition marked k i : res Empty_set ForkInfo :=
  if decide (k ∈ nodes) then op_info m k mark i else Ok i.

Definition aggregated_here k : Prop := k ∈ nodes ∨ k ∈ ancestor_iterator m kv.

Context m' (Hrun : run_ops (E:=Empty_set) m (into_iter_rev mark_ops) = Ok m').

#[local] Lemma mark_shape : same_shape m m'.
Proof using Hrun. by eapply run_ops_shape. Qed.

Lemma mark_node k i :
  m !! k = Some i → ∃ i0 i', m' !! k = Some i' ∧ marked k i = Ok i0 ∧
    ((aggregated_here k ∧ ∃ a, aggregation (E:=Empty_set) m' k i0 = Ok a ∧ i' = aggregate_info a i0) ∨
     (¬ aggregated_here k ∧ i0 = i ∧ i' = i)).
Proof using T Hmark Hunder Hrun.
  clear Hok Hdown Hup. intros Hi. destruct (run_ops_local m r _ m' T (into_iter_rev_sorted mark_ops) Hrun k i Hi) as (i' & Hi' & Hf).
  assert (Hne : mark_label mark ≠ L_Aggregate) by (by destruct mark).
  rewrite (ops_at_labels mark_ops k [mark_label mark; L_Aggregate]) in Hf.
  2: { repeat constructor. by destruct mark. }
  2: { intros l [op Hop]. rewrite mark_ops_lookup in Hop. repeat case_decide; set_solver. }
  cbn [omap list_omap] in Hf. rewrite !mark_ops_lookup in Hf.
  rewrite (decide_False (P := _ ∧ L_Aggregate = mark_label mark)) in Hf by naive_solver.
  rewrite (decide_False (P := mark_label mark = L_Aggregate ∧ _)) in Hf by naive_solver.
  unfold marked, aggregated_here. destruct (decide (k ∈ nodes)) as [Hk|Hk].
  - rewrite decide_True, decide_True in Hf by auto. cbn in Hf. apply res_bind_Ok in Hf as (i0 & Hop & Hf).
    exists i0, i'. split_and!; [done|by destruct mark|].
    left. split; [by left|]. apply res_bind_Ok in Hf as (i1 & (a & Ha & [= <-])%res_bind_Ok & [= <-]). eauto.
  - rewrite (decide_False (P := k ∈ nodes ∧ _)) in Hf by naive_solver. exists i, i'. split_and!; [done..|].
    destruct (decide (k ∈ ancestor_iterator m kv)) as [Ha|Ha].
    + rewrite decide_True in Hf by auto. cbn in Hf. left. split; [by right|].
      apply res_bind_Ok in Hf as (i1 & (a & Hag & [= <-])%res_bind_Ok & [= <-]). eauto.
    + rewrite decide_False in Hf by naive_solver. cbn in Hf. injection Hf as <-. right. naive_solver.
Qed.

Lemma marked_same k i i0 :
  marked k i = Ok i0 → shape i0 = shape i ∧ stake_voted_at i0 = stake_voted_at i ∧
    stake_voted_subtree i0 = stake_voted_subtree i ∧ best_slot i0 = best_slot i.
Proof using Hmark.
  unfold marked. case_decide; [|by intros [= <-]]. destruct mark as [s|s|s|s|]; cbn; try done.
  - intros [= <-]. unfold valid_info, update_with_newly_valid_ancestor.
    destruct (latest_invalid_ancestor i) as [l|]; [destruct (l <=? s)|]; by destruct (k.1 =? s).
  - unfold update_with_newly_invalid_ancestor. destruct (is_duplicate_confirmed i); [done|].
    destruct (latest_invalid_ancestor i) as [l|]; [destruct (l <? s)|]; by intros [= <-].
Qed.

Lemma mark_at k i i' : m !! k = Some i → m' !! k = Some i' → stake_voted_at i' = stake_voted_at i.
Proof using T Hmark Hunder Hrun.
  intros Hi Hi'. destruct (mark_node k i Hi) as (i0 & i1 & Hi1 & Hm & Hcase). rewrite Hi' in Hi1. injection Hi1 as <-.
  destruct (marked_same k i i0 Hm) as (_ & Ha & _). destruct Hcase as [(_ & a & _ & ->)|(_ & -> & ->)]; [|done].
  rewrite <-Ha. unfold aggregate_info. by destruct (agg_confirmed a).
Qed.

(** A node whose child has an operation is aggregated. *)
Lemma child_untouched k i c :
  m !! k = Some i → ¬ aggregated_here k → c ∈ children i → m' !! c = m !! c.
Proof using T Hmark Hunder Hup Hrun.
  clear Hok Hdown. intros Hi Hna Hc. eapply run_ops_other; [done|]. intros [[c' l] op] Hx Heq. cbn in Heq. subst c'.
  apply into_iter_rev_elem in Hx. rewrite mark_ops_lookup in Hx. apply Hna.
  pose proof (child_parent m r T k i c Hi Hc) as Hp.
  assert (Hanc : c ∈ ancestor_iterator m kv → k ∈ ancestor_iterator m kv).
  { intros Hin. apply list_elem_of_split in Hin as (l1 & l2 & Hin). rewrite Hin. apply elem_of_app. right. right.
    rewrite (ancestor_suffix _ _ _ _ _ _ T Hin), (ancestor_iterator_eq m r T), Hp. by left. }
  assert (Hn : c ∈ nodes → aggregated_here k).
  { intros Hcn. destruct (decide (c = kv)) as [->|]; [|left; by eapply Hup].
    right. rewrite (ancestor_iterator_eq m r T), Hp. by left. }
  unfold aggregated_here in *. repeat case_decide; naive_solver.
Qed.

Lemma mark_batch_node k i i' : m !! k = Some i → m' !! k = Some i' → batch_node m m' k i i'.
Proof using T Hok Hmark Hunder Hup Hrun.
  intros Hi Hi'. pose proof (mark_at k i i' Hi Hi') as Hat.
  destruct (mark_node k i Hi) as (i0 & i1 & Hi1 & Hm & Hcase). rewrite Hi' in Hi1. injection Hi1 as <-.
  destruct (marked_same k i i0 Hm) as (Hs & Ha0 & _). destruct Hcase as [(_ & a & Ha & Hia)|(Hna & _ & ->)].
  - eapply (node_aggregated _ _ _ _ _ i0 a); [done|congruence|done..].
  - destruct (Hok k i Hi) as [Hu Hsub _ _ _].
    apply (node_shifted _ _ _ _ _ 0); try done.
    + intros c Hc. by eapply child_untouched.
    + by rewrite Z.add_0_r, wrap64_id.
    + by rewrite Z.add_0_r, Hsub, wrap64_wrap64.
Qed.

Lemma mark_nodes_ok : (∀ k i', m' !! k = Some i' → marks_ok m' k i') → nodes_ok m'.
Proof using T Hok Hmark Hunder Hup Hrun.
  apply (batch_nodes_ok m m' r T Hok mark_shape mark_batch_node).
  intros k i' Hi'. destruct (same_shape_lookup m m' k i' mark_shape Hi') as (i & Hi & _).
  rewrite (mark_at k i i' Hi Hi'). apply (n_at _ _ _ (Hok k i Hi)).
Qed.

(** The marks of a node that is aggregated but not marked, none of whose
    children was confirmed anew. *)
Lemma unmarked_confirmed k i i0 a :
  m !! k = Some i → children i0 = children i →
  (∀ c j j', c ∈ children i → m !! c = Some j → m' !! c = Some j' →
     is_duplicate_confirmed j' = true → is_duplicate_confirmed j = true) →
  aggregation (E:=Empty_set) m' k i0 = Ok a → agg_confirmed a = true →
  is_duplicate_confirmed i = true ∧ latest_invalid_ancestor i = None.
Proof using T Hok Hrun.
  intros Hi Hc0 Hkeep Ha Hca. rewrite (aggregation_confirmed _ _ _ _ Ha), Hc0 in Hca.
  apply existsb_exists in Hca as (c & Hcin & Hcc). apply list_elem_of_In in Hcin.
  destruct (t_child _ _ T k i c Hi Hcin) as (j & Hj & _).
  destruct (same_shape_lookup m' m c j (same_shape_sym _ _ mark_shape) Hj) as (j' & Hj' & _).
  rewrite (confirmed_lookup _ _ _ Hj') in Hcc. destruct (n_marks _ _ _ (Hok k i Hi)) as [Hinv Hch].
  assert (Hci : is_duplicate_confirmed i = true) by (eapply Hch; [done..|by eapply Hkeep]). split; [done|].
  destruct (latest_invalid_ancestor i) as [x|]; [|done]. destruct (Hinv x eq_refl). congruence.
Qed.
End mark_batch.

(** ** Marking invalid *)

Definition later (s : Z) (o : option Z) : option Z :=
  Some match o with Some x => Z.max x s | None => s end.

Section invalid.
Context m r (kv : Z * Z) (nodes : gset (Z * Z)) (T : tree_ok m r) (Hok : nodes_ok m).
Context (Hunder : ∀ k, k ∈ nodes → is_Some (m !! k) ∧ under m kv k).
Context (Hdown : ∀ k i c, k ∈ nodes → m !! k = Some i → c ∈ children i → c ∈ nodes).
Context (Hup : ∀ k p, k ∈ nodes → k ≠ kv → fc_parent m k = Some p → p ∈ nodes).
Context m' (Hrun : run_ops (E:=Empty_set) m (into_iter_rev (mark_ops m kv (MarkInvalid kv.1) nodes)) = Ok m').

Lemma invalid_marks k i' :
  m' !! k = Some i' → ∀ i, m !! k = Some i →
  is_duplicate_confirmed i' = is_duplicate_confirmed i ∧
  latest_invalid_ancestor i' =
    (if decide (k ∈ nodes) then later kv.1 (latest_invalid_ancestor i) else latest_invalid_ancestor i).
Proof using T Hok Hunder Hrun.
  assert (Hsh : same_shape m m') by (by eapply run_ops_shape).
  revert k i'. apply (tree_ind_infos m' r (tree_ok_shape _ _ _ Hsh T)
    (λ k i', ∀ i, m !! k = Some i → is_duplicate_confirmed i' = is_duplicate_confirmed i ∧
      latest_invalid_ancestor i' =
        (if decide (k ∈ nodes) then later kv.1 (latest_invalid_ancestor i) else latest_invalid_ancestor i))).
  intros k i' Hi' IH i Hi.
  destruct (mark_node m r kv (MarkInvalid kv.1) nodes T I Hunder m' Hrun k i Hi) as (i0 & i1 & Hi1 & Hm & Hcase).
  rewrite Hi' in Hi1. injection Hi1 as <-.
  assert (H0 : (k ∈ nodes → is_duplicate_confirmed i = false) ∧ is_duplicate_confirmed i0 = is_duplicate_confirmed i ∧
    latest_invalid_ancestor i0 =
      (if decide (k ∈ nodes) then later kv.1 (latest_invalid_ancestor i) else latest_invalid_ancestor i)).
  { unfold marked in Hm. destruct (decide (k ∈ nodes)); [|by injection Hm as <-]. cbn in Hm.
    unfold update_with_newly_invalid_ancestor in Hm. destruct (is_duplicate_confirmed i) eqn:Hci; [done|].
    split; [done|]. unfold later. destruct (latest_invalid_ancestor i) as [x|] eqn:Hx.
    - destruct (Z.ltb_spec x kv.1); injection Hm as <-; cbn; rewrite ?Hx; split; try done; f_equal; lia.
    - injection Hm as <-. done. }
  destruct H0 as (Hn & H01 & H02). destruct Hcase as [(_ & a & Ha & ->)|(_ & -> & ->)]; [|done].
  pose proof (aggregate_info_marks a i0) as [Hc Hl]. rewrite Hc, Hl. destruct (agg_confirmed a) eqn:Hca; [|done].
  destruct (marked_same m (MarkInvalid kv.1) nodes I k i i0 Hm) as (Hs0 & _).
  destruct (unmarked_confirmed m r kv _ nodes T Hok m' Hrun k i i0 a Hi) as [Hci Hli]; [by injection Hs0| |done..|].
  { intros c j j' Hcin Hj Hj' Hjc. rewrite <-Hjc. symmetry. eapply IH; [|done..].
    assert (Hcc : children (aggregate_info a i0) = children i0) by (unfold aggregate_info; by destruct (agg_confirmed a)).
    rewrite Hcc. by injection Hs0 as _ ->. }
  destruct (decide (k ∈ nodes)) as [Hk|Hk]; [by rewrite Hn in Hci|]. by rewrite Hci, Hli.
Qed.

Lemma invalid_nodes_ok : nodes_ok m'.
Proof using T Hok Hunder Hdown Hup Hrun.
  assert (Hsh : same_shape m m') by (by eapply run_ops_shape).
  eapply (mark_nodes_ok m r kv (MarkInvalid kv.1) nodes); [done..|].
  intros k i' Hi'. destruct (same_shape_lookup m m' k i' Hsh Hi') as (i & Hi & [= _ Hc]).
  destruct (n_marks _ _ _ (Hok k i Hi)) as [H1 H2]. destruct (invalid_marks k i' Hi' i Hi) as [Ec El]. split.
  - intros x Hx. rewrite Ec. rewrite El in Hx. case_decide as Hk; [|by apply H1].
    unfold marked in *. unfold later in Hx. injection Hx as <-. destruct (Hunder k Hk) as [_ Hu].
    assert (kv.1 <= k.1) by (apply (under_slot m r T) in Hu as [->|]; lia).
    assert (Hnc : is_duplicate_confirmed i = false).
    { destruct (mark_node m r kv (MarkInvalid kv.1) nodes T I Hunder m' Hrun k i Hi) as (i0 & _ & _ & Hm & _).
      unfold marked in Hm. rewrite decide_True in Hm by done. cbn in Hm. unfold update_with_newly_invalid_ancestor in Hm.
      by destruct (is_duplicate_confirmed i). }
    split; [|done]. destruct (latest_invalid_ancestor i) as [y|] eqn:Hy; [|done]. destruct (H1 y eq_refl). lia.
  - intros c j' Hcin Hj'. destruct (same_shape_lookup m m' c j' Hsh Hj') as (j & Hj & _).
    rewrite <-Hc in Hcin. destruct (H2 c j Hcin Hj) as [H3 H4].
    destruct (invalid_marks c j' Hj' j Hj) as [Ecj Elj]. rewrite Ec, El, Ecj, Elj. split; [|done]. intros x.
    destruct (decide (k ∈ nodes)) as [Hk|Hk].
    + rewrite decide_True by (by eapply Hdown). unfold later. intros [= <-].
      destruct (latest_invalid_ancestor i) as [y|].
      * destruct (H3 y eq_refl) as (z & -> & Hz). eexists. split; [done|]. lia.
      * eexists. split; [done|]. destruct (latest_invalid_ancestor j); lia.
    + intros (y & Hy & Hxy)%H3. case_decide; [|by exists y]. unfold later. rewrite Hy. eexists. split; [done|]. lia.
Qed.
End invalid.

(** ** Marking valid *)

Definition cleared (s : Z) (o : option Z) : option Z :=
  match o with Some x => if x <=? s then None else Some x | None => None end.

Section valid.
Context m r (kv : Z * Z) (nodes : gset (Z * Z)) (T : tree_ok m r) (Hok : nodes_ok m).
Context (Hunder : ∀ k, k ∈ nodes → is_Some (m !! k) ∧ under m kv k).
Context (Hdown : ∀ k i c, k ∈ nodes → m !! k = Some i → c ∈ children i → c ∈ nodes).
Context (Hup : ∀ k p, k ∈ nodes → k ≠ kv → fc_parent m k = Some p → p ∈ nodes).
Context m' (Hrun : run_ops (E:=Empty_set) m (into_iter_rev (mark_ops m kv (MarkValid kv.1) nodes)) = Ok m').

(** The nodes that are confirmed. *)
Definition confirms k : Prop := kv ∈ nodes ∧ under m k kv.
#[local] Instance confirms_dec k : Decision (confirms k).
Proof. unfold confirms. apply _. Defined.

Lemma confirms_parent k i c : m !! k = Some i → c ∈ children i → confirms c → confirms k.
Proof using T.
  intros Hi Hc [Hn Hu]. split; [done|]. eapply (under_trans m r T); [|exact Hu].
  apply (under_parent m r T k _ k); [by eapply child_parent|by left].
Qed.

Lemma confirms_marked k : k ∈ nodes → confirms k → k = kv.
Proof using T Hunder.
  intros Hk [_ Hu]. destruct (Hunder k Hk) as [_ Hu']. by apply (under_antisym m r T).
Qed.

Lemma confirms_child_marked k i c :
  m !! k = Some i → c ∈ children i → c ∈ nodes → k ∉ nodes → confirms c.
Proof using T Hup.
  intros Hi Hc Hcn Hk. destruct (decide (c = kv)) as [->|Hne]; [split; [done|by left]|].
  exfalso. apply Hk. eapply Hup; [done..|]. by eapply child_parent.
Qed.

(** The node before it is aggregated. *)
Lemma valid_marked k i i0 :
  m !! k = Some i → marked m (MarkValid kv.1) nodes k i = Ok i0 →
  is_duplicate_confirmed i0 = is_duplicate_confirmed i || bool_decide (k ∈ nodes ∧ k = kv) ∧
  latest_invalid_ancestor i0 =
    (if decide (k ∈ nodes) then cleared kv.1 (latest_invalid_ancestor i) else latest_invalid_ancestor i).
Proof using T Hunder.
  intros Hi. unfold marked. destruct (decide (k ∈ nodes)) as [Hk|Hk].
  - cbn. intros [= <-]. unfold valid_info, update_with_newly_valid_ancestor, cleared.
    assert (Hkv : (k.1 =? kv.1) = bool_decide (k ∈ nodes ∧ k = kv)).
    { destruct (Hunder k Hk) as [_ [->|Hs]%(under_slot m r T)].
      - by rewrite Z.eqb_refl, bool_decide_eq_true_2.
      - rewrite bool_decide_eq_false_2 by (intros [_ ->]; lia). apply Z.eqb_neq. lia. }
    rewrite Hkv. destruct (latest_invalid_ancestor i) as [x|] eqn:Hx; [destruct (x <=? kv.1)|];
      case_bool_decide; cbn; rewrite ?orb_true_r, ?orb_false_r, ?Hx; done.
  - intros [= <-]. rewrite bool_decide_eq_false_2 by (by intros [? _]). by rewrite orb_false_r.
Qed.

Lemma valid_marks k i' :
  m' !! k = Some i' → ∀ i, m !! k = Some i →
  is_duplicate_confirmed i' = is_duplicate_confirmed i || bool_decide (confirms k) ∧
  latest_invalid_ancestor i' =
    (if decide (confirms k) then None
     else if decide (k ∈ nodes) then cleared kv.1 (latest_invalid_ancestor i) else latest_invalid_ancestor i).
Proof using T Hok Hunder Hdown Hup Hrun.
  assert (Hsh : same_shape m m') by (by eapply run_ops_shape).
  revert k i'. apply (tree_ind_infos m' r (tree_ok_shape _ _ _ Hsh T)
    (λ k i', ∀ i, m !! k = Some i → is_duplicate_confirmed i' = is_duplicate_confirmed i || bool_decide (confirms k) ∧
      latest_invalid_ancestor i' = (if decide (confirms k) then None
        else if decide (k ∈ nodes) then cleared kv.1 (latest_invalid_ancestor i) else latest_invalid_ancestor i))).
  intros k i' Hi' IH i Hi.
  destruct (mark_node m r kv (MarkValid kv.1) nodes T I Hunder m' Hrun k i Hi) as (i0 & i1 & Hi1 & Hm & Hcase).
  rewrite Hi' in Hi1. injection Hi1 as <-. destruct (valid_marked k i i0 Hi Hm) as [H01 H02].
  destruct (marked_same m (MarkValid kv.1) nodes I k i i0 Hm) as ([= _ Hc0] & _).
  destruct Hcase as [(Hagg & a & Ha & ->)|(Hna & -> & ->)].
  2: { unfold aggregated_here in Hna.
       assert (Hnc : ¬ confirms k) by (intros [Hn [->|Hu]]; naive_solver).
       rewrite decide_False, (decide_False (P := k ∈ nodes)), bool_decide_eq_false_2 by naive_solver. by rewrite orb_false_r. }
  pose proof (aggregate_info_marks a i0) as [Hc Hl]. rewrite Hc, Hl.
  assert (Hch : children (aggregate_info a i0) = children i) by (rewrite <-Hc0; unfold aggregate_info; by destruct (agg_confirmed a)).
  rewrite Hch in IH. destruct (decide (confirms k)) as [Hcf|Hncf].
  - rewrite (bool_decide_eq_true_2 (confirms k)) by done. rewrite orb_true_r. destruct Hcf as [Hkv Hu].
    destruct (agg_confirmed a) eqn:Hca; [done|]. cbn.
    assert (k = kv) as ->.
    { destruct (decide (k = kv)) as [|Hne]; [done|]. exfalso. apply (under_child m r T k i kv Hi) in Hu as [->|(c & Hcin & Hu)]; [done|].
      rewrite (aggregation_confirmed _ _ _ _ Ha), Hc0 in Hca. apply not_true_iff_false in Hca. apply Hca, existsb_exists.
      exists c. split; [by apply list_elem_of_In|]. destruct (t_child _ _ T k i c Hi Hcin) as (j & Hj & _).
      destruct (same_shape_lookup m' m c j (same_shape_sym _ _ Hsh) Hj) as (j' & Hj' & _).
      rewrite (confirmed_lookup _ _ _ Hj'), (proj1 (IH c j' Hcin Hj' j Hj)), bool_decide_eq_true_2 by done. apply orb_true_r. }
    rewrite H01, H02, bool_decide_eq_true_2, decide_True, orb_true_r by done. split; [done|]. unfold cleared.
    destruct (latest_invalid_ancestor i) as [x|] eqn:Hx; [|done].
    destruct (n_marks _ _ _ (Hok kv i Hi)) as [Hinv _]. destruct (Hinv x Hx) as [Hle _].
    by rewrite (proj2 (Z.leb_le _ _) Hle).
  - assert (Hne : ¬ (k ∈ nodes ∧ k = kv)) by (intros [Hk ->]; apply Hncf; split; [done|by left]).
    rewrite (bool_decide_eq_false_2 (confirms k)) by done.
    rewrite H01, (bool_decide_eq_false_2 (k ∈ nodes ∧ k = kv)), !orb_false_r by done.
    destruct (agg_confirmed a) eqn:Hca; [|by rewrite H02].
    destruct (unmarked_confirmed m r kv _ nodes T Hok m' Hrun k i i0 a Hi Hc0) as [Hci Hli]; [|done..|].
    { intros c j j' Hcin Hj Hj' Hjc. rewrite (proj1 (IH c j' Hcin Hj' j Hj)) in Hjc.
      apply orb_true_iff in Hjc as [?|Hcf%bool_decide_eq_true]; [done|]. exfalso. apply Hncf. by apply (confirms_parent k i c). }
    rewrite Hci, Hli. by destruct (decide (k ∈ nodes)).
Qed.

Lemma valid_nodes_ok : nodes_ok m'.
Proof using T Hok Hunder Hdown Hup Hrun.
  assert (Hsh : same_shape m m') by (by eapply run_ops_shape).
  eapply (mark_nodes_ok m r kv (MarkValid kv.1) nodes); [done..|].
  intros k i' Hi'. destruct (same_shape_lookup m m' k i' Hsh Hi') as (i & Hi & [= _ Hc]).
  destruct (n_marks _ _ _ (Hok k i Hi)) as [H1 H2]. destruct (valid_marks k i' Hi' i Hi) as [Ec El].
  assert (Hsome : ∀ x, latest_invalid_ancestor i' = Some x → ¬ confirms k ∧ latest_invalid_ancestor i = Some x ∧
    (k ∈ nodes → kv.1 < x)).
  { intros x Hx. rewrite El in Hx. destruct (decide (confirms k)); [done|]. split; [done|].
    destruct (decide (k ∈ nodes)); [|done]. unfold cleared in Hx. destruct (latest_invalid_ancestor i) as [y|]; [|done].
    destruct (Z.leb_spec y kv.1); [done|]. injection Hx as <-. done. }
  split.
  - intros x (Hn & Hx & _)%Hsome. destruct (H1 x Hx) as [? Hcf]. split; [done|].
    by rewrite Ec, Hcf, bool_decide_eq_false_2.
  - intros c j' Hcin Hj'. destruct (same_shape_lookup m m' c j' Hsh Hj') as (j & Hj & _). rewrite <-Hc in Hcin.
    destruct (H2 c j Hcin Hj) as [H3 H4]. destruct (valid_marks c j' Hj' j Hj) as [Ecj Elj]. split.
    + intros x (Hn & Hx & Hlt)%Hsome. destruct (H3 x Hx) as (y & Hy & Hxy). exists y. split; [|done].
      assert (Hnc : ¬ confirms c) by (intros ?; apply Hn; by apply (confirms_parent k i c)).
      rewrite Elj, decide_False by done. destruct (decide (c ∈ nodes)) as [Hcn|]; [|done].
      unfold cleared. rewrite Hy. destruct (decide (k ∈ nodes)) as [Hk|Hk].
      * specialize (Hlt Hk). destruct (Z.leb_spec y kv.1); [lia|done].
      * exfalso. apply Hnc. by apply (confirms_child_marked k i c).
    + rewrite Ec, Ecj. intros [?|Hcf%bool_decide_eq_true]%orb_true_iff; apply orb_true_iff; [left; by apply H4|right].
      apply bool_decide_eq_true. by apply (confirms_parent k i c).
Qed.
End valid.
End fork_marks.
