(* ===== verification/ForkEdit.v ===== *)
(** * Adding and removing forks

    A new leaf, a new root and a parent for the root keep the fork choice's
    invariant.  A new leaf that is its parent's best child becomes the best
    slot of just those ancestors whose best slot was the parent's. *)

From S2P Require Import Prelude Account Sysvar ForkChoice ForkTree ForkOps ForkInv ForkVotes.

Module fork_edit.
Import fork_choice fork_tree fork_ops fork_inv fork_votes.
Implicit Types (m : gmap (Z * Z) ForkInfo) (k p c r : Z * Z) (i j : ForkInfo).

(** ** Propagating a best slot *)

(** All nodes from [x] down to [a] have the best slot [b]. *)
Definition all_best m (b a x : Z * Z) : Prop :=
  under m x a ∧ ∀ y, under m x y → under m y a → fc_best_slot m y = Some b.

Lemma under_same_shape m m' r a k : tree_ok m r → same_shape m m' → under m a k ↔ under m' a k.
Proof. intros T Hs. by eapply (under_shape m m' r). Qed.

Lemma insert_best_shape m k b i : m !! k = Some i → same_shape m (<[k := with_best_slot b i]> m).
Proof.
  intros Hi. unfold same_shape. rewrite fmap_insert. symmetry. apply insert_id. by rewrite lookup_fmap, Hi.
Qed.

(** One step up. *)
Lemma all_best_step m r b a q i x :
  tree_ok m r → m !! a = Some i → best_slot i = b → parent i = Some q →
  all_best m b a x ↔ x = a ∨ all_best m b q x.
Proof.
  intros T Hi Hb Hp. assert (Hpa : fc_parent m a = Some q) by (apply fc_parent_Some; eauto).
  assert (Hba : fc_best_slot m a = Some b) by (unfold fc_best_slot; by rewrite Hi; cbn; rewrite Hb).
  assert (Hqa : under m q a) by (eapply (under_parent m r T); [done|by left]). split.
  - intros [Hu Hall]. apply (under_eq m r T) in Hu as [<-|(q' & Hq' & Hu)]; [by left|right].
    rewrite Hpa in Hq'. injection Hq' as <-. split; [done|]. intros y Hy1 Hy2. apply Hall; [done|].
    by apply (under_trans m r T y q a).
  - intros [->|[Hu Hall]].
    + split; [by left|]. intros y H1 H2. by rewrite (under_antisym m r T y a H2 H1).
    + split; [by apply (under_trans m r T x q a)|]. intros y Hy1 Hy2.
      apply (under_eq m r T) in Hy2 as [<-|(q' & Hq' & Hy2)]; [done|].
      rewrite Hpa in Hq'. injection Hq' as <-. by apply Hall.
Qed.

Lemma propagate_loop_spec {E} m r (k b : Z * Z) n a i :
  tree_ok m r → m !! a = Some i → (below m a < n)%nat →
  ∃ m', propagate_loop (E:=E) k b n (Some a) m = Ok m' ∧ same_shape m m' ∧
    ∀ x j, m !! x = Some j → ∃ j', m' !! x = Some j' ∧
      (all_best m b a x ∧ j' = with_best_slot k j ∨ ¬ all_best m b a x ∧ j' = j).
Proof.
  revert m a i. induction n as [|n IH]; intros m a i T Hi Hn; [lia|]. cbn. rewrite Hi. cbn.
  case_bool_decide as Hb.
  - assert (Hs := insert_best_shape m a k i Hi). pose proof (tree_ok_shape _ _ _ Hs T) as T1.
    destruct (parent i) as [q|] eqn:Hp.
    + destruct (t_parent _ _ T a i q Hi Hp) as (iq & Hq & _). pose proof (t_slots _ _ T a i q Hi Hp) as Hlt.
      assert (Hqa : q ≠ a) by (intros ->; lia).
      destruct (IH (<[a := with_best_slot k i]> m) q iq T1) as (m' & Hm' & Hs' & Hspec); [by rewrite lookup_insert_ne| |].
      { assert (Hpa : fc_parent m a = Some q) by (apply fc_parent_Some; eauto).
        pose proof (parent_below m r T a q Hpa). assert (below (<[a := with_best_slot k i]> m) q <= below m q)%nat; [|lia].
        unfold below. apply map_subseteq_size. apply map_subseteq_spec. intros x y [Hx Hxl]%map_lookup_filter_Some.
        cbn in Hxl. rewrite lookup_insert_ne in Hx by (intros <-; lia). by apply map_lookup_filter_Some. }
      exists m'. split; [done|]. split; [by etrans|].
      assert (Hsame : ∀ x, x ≠ a → all_best (<[a := with_best_slot k i]> m) b q x ↔ all_best m b q x).
      { assert (Hu : ∀ y z, under m y z ↔ under (<[a := with_best_slot k i]> m) y z)
          by (intros; by apply (under_same_shape m _ r)).
        assert (Hbs : ∀ y, under m y q → fc_best_slot (<[a := with_best_slot k i]> m) y = fc_best_slot m y).
        { intros y Hy. unfold fc_best_slot. rewrite lookup_insert_ne; [done|].
          intros <-. apply (under_slot m r T) in Hy as [?|?]; [done|lia]. }
        intros x Hxa. split; intros [H1 H2]; (split; [by apply Hu|]); intros y Hy1 Hy2.
        - rewrite <-Hbs by done. by apply H2; apply Hu.
        - rewrite Hbs by (by apply Hu). by apply H2; apply Hu. }
      intros x j Hj. pose proof (all_best_step m r b a q i x T Hi Hb Hp) as Hst. destruct (decide (x = a)) as [->|Hxa].
      * rewrite Hi in Hj. injection Hj as <-. destruct (Hspec a (with_best_slot k i)) as (j' & Hj' & Hc); [apply lookup_insert_eq|].
        exists j'. split; [done|]. left. split; [apply Hst; by left|]. destruct Hc as [[_ ->]|[_ ->]]; done.
      * destruct (Hspec x j) as (j' & Hj' & Hc); [by rewrite lookup_insert_ne|]. exists j'. split; [done|].
        rewrite (Hsame x Hxa) in Hc. naive_solver.
    + exists (<[a := with_best_slot k i]> m). split; [by destruct n|]. split; [done|]. intros x j Hj.
      assert (Hroot : ∀ y, under m y a → y = a).
      { intros y [->|(q & Hq & _)]%(under_eq m r T); [done|]. apply fc_parent_Some in Hq as (i' & Hi' & ?). congruence. }
      destruct (decide (x = a)) as [->|Hxa].
      * rewrite Hi in Hj. injection Hj as <-. exists (with_best_slot k i). split; [apply lookup_insert_eq|]. left.
        split; [|done]. split; [by left|]. intros y _ ->%Hroot. unfold fc_best_slot. rewrite Hi. cbn. by rewrite Hb.
      * exists j. split; [by rewrite lookup_insert_ne|]. right. split; [|done]. by intros [?%Hroot _].
  - exists m. split; [done|]. split; [done|]. intros x j Hj. exists j. split; [done|]. right. split; [|done]. intros [Hu Hall].
    specialize (Hall a Hu ltac:(by left)). unfold fc_best_slot in Hall. rewrite Hi in Hall. cbn in Hall. congruence.
Qed.

(** ** A new leaf *)

Lemma no_better_child_spec {E} m k w cs :
  (∀ c, c ∈ cs → is_Some (m !! c)) →
  ∃ b, no_better_child (E:=E) m k w cs = Ok b ∧
    (b = true ↔ ∀ c, c ∈ cs → cand m c → ¬ (w < weight m c ∨ w = weight m c ∧ key_ltb c k = true)).
Proof.
  induction cs as [|c cs IH]; intros Hin; cbn.
  { exists true. split; [done|]. split; [|done]. intros _ c ?%elem_of_nil. done. }
  destruct (Hin c ltac:(by left)) as [i Hi]. destruct IH as (b & Hb & Hspec); [intros; apply Hin; by right|].
  unfold fc_stake_voted_subtree, is_candidate. rewrite Hi. cbn.
  pose proof (weight_lookup _ _ _ Hi) as Hw. pose proof (cand_lookup _ _ _ Hi) as Hc.
  destruct (info_is_candidate i); cbn.
  - rewrite <-Hw. destruct ((w <? weight m c) || ((w =? weight m c) && key_ltb c k)) eqn:Hbetter.
    + exists false. split; [done|]. split; [done|]. intros H. exfalso. apply (H c); [by left|by apply Hc|].
      apply orb_true_iff in Hbetter as [?|[? ?]%andb_true_iff]; bool_prop; auto.
    + exists b. split; [done|]. rewrite Hspec. split; intros H c' Hc'; [|by apply H; right].
      apply elem_of_cons in Hc' as [->|?]; [|by apply H]. intros _.
      apply orb_false_iff in Hbetter as [? Hf]. apply andb_false_iff in Hf.
      intros [?|[? Hlt]]; [bool_prop; lia|]. destruct Hf as [?|?]; bool_prop; [done|congruence].
  - exists b. split; [done|]. rewrite Hspec. split; intros H c' Hc'; [|by apply H; right].
    apply elem_of_cons in Hc' as [->|?]; [|by apply H]. intros Hcc%Hc. done.
Qed.

Section new_leaf.
Context m r (k p : Z * Z) (ip : ForkInfo) (T : tree_ok m r) (Hok : nodes_ok m).
Context (Hk : m !! k = None) (Hp : m !! p = Some ip) (Hlt : p.1 < k.1).

Definition leaf : ForkInfo := leaf_info k (Some p) (latest_invalid_ancestor ip).
Definition grown : gmap (Z * Z) ForkInfo := <[p := push_child k ip]> (<[k := leaf]> m).

Lemma leaf_ne : p ≠ k.
Proof using Hlt. intros E%(f_equal fst). lia. Qed.

Lemma grown_leaf : grown !! k = Some leaf.
Proof using Hlt. unfold grown. rewrite lookup_insert_ne by apply leaf_ne. apply lookup_insert_eq. Qed.

Lemma grown_parent : grown !! p = Some (push_child k ip).
Proof. apply lookup_insert_eq. Qed.

Lemma grown_other x : x ≠ k → x ≠ p → grown !! x = m !! x.
Proof. intros. unfold grown. by rewrite !lookup_insert_ne. Qed.

(** The nodes of the larger tree. *)
Lemma grown_inv x i :
  grown !! x = Some i → x = k ∧ i = leaf ∨ x = p ∧ i = push_child k ip ∨ x ≠ k ∧ x ≠ p ∧ m !! x = Some i.
Proof using Hlt.
  destruct (decide (x = k)) as [->|]; [rewrite grown_leaf; intros [= <-]; by left|].
  destruct (decide (x = p)) as [->|]; [rewrite grown_parent; intros [= <-]; by right; left|].
  rewrite grown_other by done. auto.
Qed.

(** A node of the smaller tree and what became of it. *)
Lemma grown_old x i :
  m !! x = Some i → ∃ i', grown !! x = Some i' ∧ x ≠ k ∧ parent i' = parent i ∧
    children i' = children i ++ (if decide (x = p) then [k] else []).
Proof using Hk Hp.
  intros Hi. assert (x ≠ k) by congruence. destruct (decide (x = p)) as [->|Hx].
  - rewrite Hp in Hi. injection Hi as <-. exists (push_child k ip). by rewrite grown_parent.
  - exists i. rewrite grown_other, app_nil_r by done. done.
Qed.

Lemma leaf_not_child x i : m !! x = Some i → k ∉ children i.
Proof using T Hk. intros Hi Hc. destruct (t_child _ _ T x i k Hi Hc) as (j & ? & _). congruence. Qed.

Lemma grown_tree : tree_ok grown r.
Proof using T Hk Hp Hlt.
  split.
  - destruct (t_root _ _ T) as (i & Hi & Hpn). destruct (grown_old r i Hi) as (i' & ? & _ & ? & _). exists i'. split; congruence.
  - intros x i [(_ & ->)|[(-> & ->)|(_ & _ & Hi)]]%grown_inv Hn; [done| |]; by eapply (t_only_root _ _ T).
  - intros x i q [(-> & ->)|[(-> & ->)|(_ & _ & Hi)]]%grown_inv Hq.
    + injection Hq as <-. exists (push_child k ip). split; [apply grown_parent|]. cbn. apply elem_of_app. right. by left.
    + destruct (t_parent _ _ T p ip q Hp Hq) as (j & Hj & Hin). destruct (grown_old q j Hj) as (j' & ? & _ & _ & Hc).
      exists j'. split; [done|]. rewrite Hc. apply elem_of_app. by left.
    + destruct (t_parent _ _ T x i q Hi Hq) as (j & Hj & Hin). destruct (grown_old q j Hj) as (j' & ? & _ & _ & Hc).
      exists j'. split; [done|]. rewrite Hc. apply elem_of_app. by left.
  - intros x i c [(-> & ->)|[(-> & ->)|(_ & _ & Hi)]]%grown_inv Hc; [by apply elem_of_nil in Hc| |].
    + cbn in Hc. apply elem_of_app in Hc as [Hc|Hc].
      * destruct (t_child _ _ T p ip c Hp Hc) as (j & Hj & ?). destruct (grown_old c j Hj) as (j' & ? & _ & ? & _).
        exists j'. split; congruence.
      * apply list_elem_of_singleton in Hc as ->. exists leaf. split; [apply grown_leaf|done].
    + destruct (t_child _ _ T x i c Hi Hc) as (j & Hj & ?). destruct (grown_old c j Hj) as (j' & ? & _ & ? & _).
      exists j'. split; congruence.
  - intros x i [(-> & ->)|[(-> & ->)|(_ & _ & Hi)]]%grown_inv; [constructor| |by eapply (t_nodup _ _ T)].
    cbn. apply NoDup_app. split_and!; [by eapply (t_nodup _ _ T)| |apply NoDup_singleton].
    intros c Hc ->%list_elem_of_singleton. by eapply leaf_not_child.
  - intros x i q [(-> & ->)|[(-> & ->)|(_ & _ & Hi)]]%grown_inv Hq; [by injection Hq as <-| |]; by eapply (t_slots _ _ T).
  - pose proof (t_nonneg _ _ T p ip Hp).
    intros x i [(-> & ->)|[(-> & ->)|(_ & _ & Hi)]]%grown_inv; [lia|lia|by eapply (t_nonneg _ _ T)].
Qed.

Lemma grown_fc_parent x : x ≠ k → fc_parent grown x = fc_parent m x.
Proof using Hp.
  intros Hx. unfold fc_parent. destruct (decide (x = p)) as [->|]; [by rewrite grown_parent, Hp|].
  by rewrite grown_other.
Qed.

Lemma grown_under a x : x ≠ k → under grown a x ↔ under m a x.
Proof using T Hk Hp Hlt.
  revert x. apply (tree_ind_up m r T (λ x, x ≠ k → under grown a x ↔ under m a x)). intros x IH Hx.
  rewrite (under_eq grown r grown_tree), (under_eq m r T), (grown_fc_parent x Hx).
  assert (Hq : ∀ q, fc_parent m x = Some q → q ≠ k).
  { intros q (i & Hi & Hq)%fc_parent_Some ->. destruct (t_parent _ _ T x i k Hi Hq) as (j & ? & _). congruence. }
  split; (intros [?|(q & Hxq & Hu)]; [by left|right; exists q; split; [done|]]); apply (IH q); auto.
Qed.

Lemma grown_under_leaf a : under grown a k ↔ k = a ∨ under m a p.
Proof using T Hk Hp Hlt.
  rewrite (under_eq grown r grown_tree). unfold fc_parent. rewrite grown_leaf. cbn.
  rewrite <-(grown_under a p leaf_ne). naive_solver.
Qed.

Lemma grown_weight x : weight grown x = if decide (x = k) then 0 else weight m x.
Proof using Hp Hlt.
  unfold weight, fc_stake_voted_subtree. case_decide as Hx; [subst x; by rewrite grown_leaf|].
  destruct (decide (x = p)) as [->|]; [by rewrite grown_parent, Hp|by rewrite grown_other].
Qed.

Lemma grown_cand x : x ≠ k → cand grown x ↔ cand m x.
Proof using Hp.
  intros Hx. unfold cand. destruct (decide (x = p)) as [->|]; [|by rewrite grown_other].
  rewrite grown_parent, Hp. split; intros (i & [= <-] & ?); eauto.
Qed.

Lemma grown_cand_leaf : cand grown k ↔ cand m p.
Proof using Hp Hlt.
  unfold cand. rewrite grown_leaf, Hp. split; intros (i & [= <-] & ?); eauto.
Qed.

(** *** The new best slots *)

Context (best : bool) m3.
Context (Hbest : best = true ↔ ∀ c, c ∈ children ip ++ [k] → cand grown c →
  ¬ (0 < weight grown c ∨ 0 = weight grown c ∧ key_ltb c k = true)).
Definition passed x : Prop := best = true ∧ all_best grown (best_slot ip) p x.
Context (Hshape3 : same_shape grown m3).
Context (Hm3 : ∀ x i, grown !! x = Some i → ∃ i3, m3 !! x = Some i3 ∧
  (passed x ∧ i3 = with_best_slot k i ∨ ¬ passed x ∧ i3 = i)).

Lemma grown3_inv x i3 :
  m3 !! x = Some i3 → ∃ i, grown !! x = Some i ∧
    (passed x ∧ i3 = with_best_slot k i ∨ ¬ passed x ∧ i3 = i).
Proof using Hshape3 Hm3.
  intros Hi3. destruct (same_shape_lookup _ _ _ _ Hshape3 Hi3) as (i & Hi & _).
  destruct (Hm3 x i Hi) as (i3' & Hi3' & Hc). rewrite Hi3 in Hi3'. injection Hi3' as <-. eauto.
Qed.

Lemma grown3_same x i3 i :
  m3 !! x = Some i3 → grown !! x = Some i →
  stake_voted_at i3 = stake_voted_at i ∧ stake_voted_subtree i3 = stake_voted_subtree i ∧
  children i3 = children i ∧ latest_invalid_ancestor i3 = latest_invalid_ancestor i ∧
  is_duplicate_confirmed i3 = is_duplicate_confirmed i.
Proof using Hshape3 Hm3.
  intros (i' & Hi' & Hc)%grown3_inv Hi. rewrite Hi in Hi'. injection Hi' as <-.
  destruct Hc as [[_ ->]|[_ ->]]; done.
Qed.

Lemma grown3_weight x : weight m3 x = weight grown x.
Proof using Hshape3 Hm3.
  unfold weight, fc_stake_voted_subtree. destruct (m3 !! x) as [i3|] eqn:H3.
  - destruct (grown3_inv x i3 H3) as (i & Hi & _). rewrite Hi. cbn. by apply (grown3_same x i3 i).
  - by rewrite (same_shape_None _ _ _ Hshape3 H3).
Qed.

Lemma grown3_cand x : cand m3 x ↔ cand grown x.
Proof using Hshape3 Hm3.
  split; intros (i & Hi & Hv).
  - destruct (grown3_inv x i Hi) as (j & Hj & _). exists j. split; [done|].
    destruct (grown3_same x i j Hi Hj) as (_ & _ & _ & <- & _). done.
  - destruct (Hm3 x i Hi) as (j & Hj & _). exists j. split; [done|].
    destruct (grown3_same x j i Hj Hi) as (_ & _ & _ & -> & _). done.
Qed.

Lemma grown3_under a x : under m3 a x ↔ under grown a x.
Proof using T Hk Hp Hlt Hshape3. symmetry. by apply (under_same_shape grown m3 r _ _ grown_tree). Qed.

Lemma grown_best_slot x : x ≠ k → fc_best_slot grown x = fc_best_slot m x.
Proof using Hp.
  intros Hx. unfold fc_best_slot. destruct (decide (x = p)) as [->|]; [by rewrite grown_parent, Hp|].
  by rewrite grown_other.
Qed.

Lemma passed_under x : passed x → under m x p ∧ fc_best_slot m x = Some (best_slot ip) ∧ x ≠ k.
Proof using T Hk Hp Hlt.
  intros (_ & Hu & Hall). specialize (Hall x ltac:(by left) Hu).
  assert (Hxk : x ≠ k).
  { intros ->. apply (under_slot grown r grown_tree) in Hu as [?|?]; [by apply leaf_ne|lia]. }
  split_and!; [by apply (grown_under x p leaf_ne)|by rewrite <-(grown_best_slot x Hxk)|done].
Qed.

Lemma passed_parent_node : best = true → passed p.
Proof using T Hk Hp Hlt.
  intros Hb. split; [done|]. split; [by left|]. intros y H1 H2.
  rewrite (under_antisym grown r grown_tree y p H2 H1). unfold fc_best_slot. by rewrite grown_parent.
Qed.

(** A passed child passes its parent on, and a passed node but the leaf's
    parent has a passed child. *)
Lemma passed_up x i c :
  m !! x = Some i → c ∈ children i → passed c → fc_best_slot m x = Some (best_slot ip) → passed x.
Proof using T Hk Hp Hlt.
  intros Hi Hc [Hb [Hu Hall]] Hbx. split; [done|].
  assert (Hxk : x ≠ k) by congruence.
  assert (Hpc : fc_parent grown c = Some x).
  { rewrite grown_fc_parent by (intros ->; by eapply leaf_not_child). by eapply (child_parent m r T). }
  assert (Hxc : under grown x c) by (apply (under_parent grown r grown_tree x c x); [done|by left]).
  split; [by apply (under_trans grown r grown_tree x c p)|]. intros y Hxy Hyp.
  destruct (under_linear grown r grown_tree c y p Hu Hyp) as [Hcy|Hyc]; [by apply Hall|].
  apply (under_eq grown r grown_tree) in Hyc as [<-|(q & Hq & Hyq)]; [apply Hall; [by left|done]|].
  rewrite Hpc in Hq. injection Hq as <-. rewrite (under_antisym grown r grown_tree y x Hyq Hxy).
  by rewrite grown_best_slot.
Qed.

Lemma passed_down x i :
  m !! x = Some i → x ≠ p → passed x → ∃ c, c ∈ children i ∧ passed c ∧ under m c p.
Proof using T Hk Hp Hlt.
  intros Hi Hxp Hpx. destruct (passed_under x Hpx) as (Hu & _ & _). destruct Hpx as (Hb & _ & Hall).
  apply (under_child m r T x i p Hi) in Hu as [->|(c & Hc & Hu)]; [done|]. exists c. split; [done|]. split; [|done].
  split; [done|]. split; [by apply (grown_under c p leaf_ne)|]. intros y Hcy Hyp. apply Hall; [|done].
  assert (Hpc : fc_parent grown c = Some x).
  { rewrite grown_fc_parent by (intros ->; by eapply leaf_not_child). by eapply (child_parent m r T). }
  eapply (under_trans grown r grown_tree); [|exact Hcy].
  apply (under_parent grown r grown_tree x c x); [done|by left].
Qed.

Lemma best3_passed x : passed x → is_Some (m !! x) → fc_best_slot m3 x = Some k.
Proof using Hk Hp Hm3.
  intros Hx [i Hi]. destruct (grown_old x i Hi) as (i' & Hi' & _).
  destruct (Hm3 x i' Hi') as (i3 & Hi3 & [[_ ->]|[? _]]); [|done]. unfold fc_best_slot. by rewrite Hi3.
Qed.

Lemma best3_kept x : ¬ passed x → x ≠ k → is_Some (m !! x) → fc_best_slot m3 x = fc_best_slot m x.
Proof using Hk Hp Hm3.
  intros Hx Hxk [i Hi]. rewrite <-(grown_best_slot x Hxk). destruct (grown_old x i Hi) as (i' & Hi' & _).
  destruct (Hm3 x i' Hi') as (i3 & Hi3 & [[? _]|[_ ->]]); [done|]. unfold fc_best_slot. by rewrite Hi3, Hi'.
Qed.

Lemma child_grown x i c : m !! x = Some i → c ∈ children i →
  c ≠ k ∧ is_Some (m !! c) ∧ weight m3 c = weight m c ∧ (cand m3 c ↔ cand m c).
Proof using T Hk Hp Hlt Hshape3 Hm3.
  intros Hi Hc. assert (Hck : c ≠ k) by (intros ->; by eapply leaf_not_child). split; [done|].
  destruct (t_child _ _ T x i c Hi Hc) as (j & Hj & _). split; [eauto|].
  rewrite grown3_weight, grown_weight, decide_False, grown3_cand, grown_cand by done. done.
Qed.

(** The best child stays the best. *)
Lemma heaviest_kept x i c :
  m !! x = Some i → heaviest (weight m) m (children i) c → heaviest (weight m3) m3 (children i) c.
Proof using T Hk Hp Hlt Hshape3 Hm3.
  intros Hi (Hin & Hc & Hmax). destruct (child_grown x i c Hi Hin) as (_ & _ & Hw & Hcc).
  split_and!; [done|by apply Hcc|]. intros c' Hc'. destruct (child_grown x i c' Hi Hc') as (_ & _ & Hw' & Hcc').
  rewrite Hw, Hw', Hcc'. by apply Hmax.
Qed.

Lemma other_best_ok x i i3 :
  m !! x = Some i → x ≠ p → m3 !! x = Some i3 → best_ok (weight m) m x i → best_ok (weight m3) m3 x i3.
Proof using T Hok Hk Hp Hlt Hshape3 Hm3.
  intros Hi Hxp Hi3 Hb. assert (Hxk : x ≠ k) by congruence.
  assert (Hx : fc_best_slot m x = Some (best_slot i)) by (unfold fc_best_slot; by rewrite Hi).
  assert (Hx3 : fc_best_slot m3 x = Some (best_slot i3)) by (unfold fc_best_slot; by rewrite Hi3).
  assert (Hc3 : children i3 = children i).
  { destruct (grown3_same x i3 i Hi3) as (_ & _ & -> & _); [by rewrite grown_other|done]. }
  unfold best_ok. rewrite Hc3. destruct (n_under _ _ _ (Hok p ip Hp)) as [Hbp _].
  destruct Hb as [[Hno Hbx]|(c & Hh & Hcb)].
  - left. split; [intros c Hc; destruct (child_grown x i c Hi Hc) as (_ & _ & _ & ->); by apply Hno|].
    assert (Hnp : ¬ passed x).
    { intros (Hu & Hbs & _)%passed_under. rewrite Hx in Hbs. injection Hbs as Hbs. rewrite Hbx in Hbs. rewrite <-Hbs in Hbp.
      apply Hxp. by apply (under_antisym m r T). }
    rewrite (best3_kept x Hnp Hxk) in Hx3 by eauto. congruence.
  - right. exists c. split; [by eapply heaviest_kept|]. destruct Hh as (Hin & _).
    destruct (child_grown x i c Hi Hin) as (Hck & Hcin & _).
    assert (Hiff : passed c ↔ passed x).
    { split; intros Hps.
      - apply (passed_up x i c Hi Hin Hps). destruct (passed_under c Hps) as (_ & Hbs & _). congruence.
      - destruct (passed_down x i Hi Hxp Hps) as (c0 & Hin0 & Hps0 & Hu0). assert (c = c0) as ->; [|done].
        destruct (passed_under x Hps) as (_ & Hbs & _). destruct Hcin as [j Hj].
        destruct (n_under _ _ _ (Hok c j Hj)) as [Hcu _].
        assert (best_slot j = best_slot ip) as Hjb.
        { unfold fc_best_slot in Hcb. rewrite Hj in Hcb. cbn in Hcb. congruence. }
        rewrite Hjb in Hcu. apply (siblings_disjoint m r T x i c c0 (best_slot ip)); [done..|].
        by apply (under_trans m r T c0 p). }
    destruct (decide (fc_best_slot m3 x = Some k)) as [Hk3|Hk3].
    + destruct (decide (fc_best_slot m3 c = Some k)) as [->|Hc3k]; [congruence|]. exfalso.
      assert (Hnc : ¬ passed c) by (intros ?; by apply Hc3k, best3_passed).
      rewrite (best3_kept x) in Hk3; [|by rewrite <-Hiff|done|eauto].
      destruct (n_under _ _ _ (Hok x i Hi)) as [_ [j Hj]]. rewrite Hx in Hk3. injection Hk3 as Hk3. congruence.
    + assert (Hnx : ¬ passed x) by (intros ?; apply Hk3, best3_passed; eauto).
      rewrite (best3_kept c), <-Hx3, (best3_kept x); [congruence|done|done|eauto|by rewrite Hiff|done|done].
Qed.

Lemma weight_nonneg x : 0 <= weight m x.
Proof using Hok.
  unfold weight, fc_stake_voted_subtree. destruct (m !! x) as [i|] eqn:Hi; cbn; [|done].
  rewrite (n_subtree _ _ _ (Hok x i Hi)). apply wrap64_range.
Qed.

Lemma parent_best_ok i3 :
  latest_invalid_ancestor ip = None → m3 !! p = Some i3 → best_ok (weight m3) m3 p i3.
Proof using T Hok Hk Hp Hlt Hbest Hshape3 Hm3.
  intros Hv Hi3. pose proof (n_best _ _ _ (Hok p ip Hp) Hv) as Hb.
  assert (Hx3 : fc_best_slot m3 p = Some (best_slot i3)) by (unfold fc_best_slot; by rewrite Hi3).
  assert (Hcp : cand m p) by (by exists ip). assert (Hck : cand m3 k) by (by apply grown3_cand, grown_cand_leaf).
  assert (Hwk : weight m3 k = 0) by (by rewrite grown3_weight, grown_weight, decide_True).
  assert (Hc3 : children i3 = children ip ++ [k]).
  { destruct (grown3_same p i3 (push_child k ip) Hi3 grown_parent) as (_ & _ & -> & _). done. }
  unfold best_ok. rewrite Hc3, <-Hx3. destruct best eqn:Hbst.
  - right. exists k. split.
    + split_and!; [apply elem_of_app; right; by left|done|]. intros c Hc Hcc. rewrite Hwk.
      pose proof (proj1 Hbest eq_refl c Hc) as Hn. rewrite <-grown3_cand, <-grown3_weight in Hn. specialize (Hn Hcc).
      assert (0 <= weight m3 c).
      { rewrite grown3_weight, grown_weight. case_decide; [done|apply weight_nonneg]. }
      assert (weight m3 c = 0) by lia. right. split; [done|]. apply not_true_iff_false. intros Hlt'. apply Hn. auto.
    + rewrite (best3_passed p); [|by apply passed_parent_node|eauto]. destruct (Hm3 k leaf grown_leaf) as (j & Hj & Hcase).
      unfold fc_best_slot. rewrite Hj. destruct Hcase as [[_ ->]|[_ ->]]; done.
  - assert (Hnp : ∀ x, ¬ passed x) by (intros x [Hf _]; congruence).
    rewrite (best3_kept p) by eauto using leaf_ne.
    assert (Hself : ¬ (0 < weight grown k ∨ 0 = weight grown k ∧ key_ltb k k = true)).
    { rewrite grown_weight, decide_True, key_ltb_irrefl by done. intros [?|[_ ?]]; [lia|done]. }
    destruct Hb as [[Hno _]|(c & Hh & Hcb)].
    { exfalso. enough (false = true) by done. apply Hbest. intros c [Hc|Hc]%elem_of_app Hcc.
      - exfalso. destruct (child_grown p ip c Hp Hc) as (_ & _ & _ & Hcd). rewrite grown3_cand in Hcd. by apply (Hno c Hc), Hcd.
      - by apply list_elem_of_singleton in Hc as ->. }
    right. exists c. pose proof (heaviest_kept p ip c Hp Hh) as (Hin & Hcc & Hmax).
    destruct (child_grown p ip c Hp Hin) as (Hck' & Hcin & Hw & _). split.
    + split_and!; [by apply elem_of_app; left|done|]. intros c' [Hc'|Hc']%elem_of_app Hcc'; [by apply Hmax|].
      apply list_elem_of_singleton in Hc' as ->. rewrite Hwk. pose proof (weight_nonneg c). rewrite <-Hw in *.
      destruct (decide (weight m3 c = 0)) as [Hz|]; [|lia]. right. split; [done|].
      apply not_true_iff_false. intros Hkc. enough (false = true) by done. apply Hbest.
      intros c' [Hc'|Hc']%elem_of_app Hcd; [|by apply list_elem_of_singleton in Hc' as ->].
      rewrite <-grown3_weight, <-grown3_cand in *. specialize (Hmax c' Hc' Hcd).
      intros [?|[_ Hck2]]; [lia|]. destruct Hmax as [?|[_ Hge]].
      * destruct (child_grown p ip c' Hp Hc') as (_ & _ & Hw' & _). pose proof (weight_nonneg c'). lia.
      * by rewrite (key_ltb_trans _ _ _ Hck2 Hkc) in Hge.
    + rewrite (best3_kept c), Hcb by eauto. unfold fc_best_slot. by rewrite Hp.
Qed.

Lemma grown_nodes_ok : nodes_ok m3.
Proof using T Hok Hk Hp Hlt Hbest Hshape3 Hm3.
  intros x i3 Hi3. destruct (grown3_inv x i3 Hi3) as (i & Hi & Hcase).
  destruct (grown3_same x i3 i Hi3 Hi) as (E1 & E2 & E3 & E4 & E5).
  assert (Hw : ∀ y j, m !! y = Some j → sum_with (weight m3) (children j) = sum_with (weight m) (children j)).
  { intros y j Hj. assert (H : ∀ c, c ∈ children j → weight m3 c = weight m c) by (intros c Hc; by apply (child_grown y j c)).
    clear -H. induction (children j) as [|c cs IH]; [done|]. unfold sum_with in *. cbn.
    rewrite IH by (intros; apply H; by right). by rewrite H by (by left). }
  assert (Hm3k : ∀ j, m3 !! k = Some j → latest_invalid_ancestor j = latest_invalid_ancestor ip ∧ is_duplicate_confirmed j = false).
  { intros j Hj. destruct (grown3_same k j leaf Hj grown_leaf) as (_ & _ & _ & -> & ->). done. }
  assert (Hold : ∀ c j3, c ≠ k → m3 !! c = Some j3 → ∃ j, m !! c = Some j ∧
    latest_invalid_ancestor j3 = latest_invalid_ancestor j ∧ is_duplicate_confirmed j3 = is_duplicate_confirmed j).
  { intros c j3 Hck Hj3. destruct (grown3_inv c j3 Hj3) as (j & Hj & _).
    destruct (grown3_same c j3 j Hj3 Hj) as (_ & _ & _ & El & Ec).
    apply grown_inv in Hj as [(-> & _)|[(-> & ->)|(_ & _ & Hj)]]; [done|by exists ip|by exists j]. }
  assert (Hunder3 : under m3 x (best_slot i3) ∧ is_Some (m3 !! best_slot i3)).
  { destruct Hcase as [[Hps ->]|[_ ->]]; cbn.
    - destruct (passed_under x Hps) as (Hu & _). split; [|destruct (Hm3 k leaf grown_leaf) as (j & ? & _); eauto].
      apply grown3_under, grown_under_leaf. by right.
    - apply grown_inv in Hi as [(-> & ->)|Hi]; [split; [by left|destruct (Hm3 k leaf grown_leaf) as (j & ? & _); eauto]|].
      assert (Hx : ∃ j, m !! x = Some j ∧ best_slot i = best_slot j).
      { destruct Hi as [(-> & ->)|(_ & _ & Hi)]; eauto. }
      destruct Hx as (j & Hj & ->). destruct (n_under _ _ _ (Hok x j Hj)) as [Hu [jb Hjb]]. split.
      + apply grown3_under, grown_under; [congruence|done].
      + destruct (grown_old _ _ Hjb) as (jb' & Hjb' & _). destruct (Hm3 _ _ Hjb') as (? & ? & _). eauto. }
  apply grown_inv in Hi as [(-> & ->)|[(-> & ->)|(Hxk & Hxp & Hi)]].
  - (* the leaf *)
    split; [by rewrite E1| | |done|].
    + by rewrite E1, E2, E3.
    + intros _. left. rewrite E3. split; [by intros c ?%elem_of_nil|]. by destruct Hcase as [[_ ->]|[_ ->]].
    + unfold marks_ok. rewrite E3, E4, E5. split.
      * intros y Hy. cbn in Hy. destruct (proj1 (n_marks _ _ _ (Hok p ip Hp)) y Hy). split; [lia|done].
      * intros c j Hc. by apply elem_of_nil in Hc.
  - (* its parent *)
    destruct (Hok p ip Hp) as [Hu Hs _ _ [Hmk1 Hmk2]]. cbn in E1, E2, E3, E4, E5.
    split; [by rewrite E1| |rewrite E4; intros; by apply parent_best_ok|done|].
    + assert (Hk0 : sum_with (weight m3) [k] = 0).
      { unfold sum_with. cbn. by rewrite grown3_weight, grown_weight, decide_True. }
      rewrite E1, E2, E3, Hs, sum_with_app, (Hw p ip Hp), Hk0. f_equal. lia.
    + unfold marks_ok. rewrite E3, E4, E5. split; [done|]. intros c j3 [Hc|Hc]%elem_of_app Hj3.
      * destruct (Hold c j3) as (j & Hj & -> & ->); [by apply (child_grown p ip c)|done|]. by apply (Hmk2 c j).
      * apply list_elem_of_singleton in Hc as ->. destruct (Hm3k j3 Hj3) as [-> ->]. split; [|done]. intros y Hy. exists y. split; [done|lia].
  - (* another node *)
    destruct (Hok x i Hi) as [Hu Hs Hb _ [Hmk1 Hmk2]].
    split; [by rewrite E1| |rewrite E4; intros; by eapply other_best_ok; eauto|done|].
    + by rewrite E1, E2, E3, Hs, (Hw x i Hi).
    + unfold marks_ok. rewrite E3, E4, E5. split; [done|]. intros c j3 Hc Hj3.
      destruct (Hold c j3) as (j & Hj & -> & ->); [by apply (child_grown x i c)|done|]. by apply (Hmk2 c j).
Qed.
End new_leaf.

(** Editing the map away from the children of a node keeps the node. *)
Definition same_fields (i j : ForkInfo) : Prop :=
  stake_voted_at i = stake_voted_at j ∧ stake_voted_subtree i = stake_voted_subtree j ∧ children i = children j ∧
  best_slot i = best_slot j ∧ latest_invalid_ancestor i = latest_invalid_ancestor j ∧
  is_duplicate_confirmed i = is_duplicate_confirmed j.

Lemma with_parent_fields (P : Prop) `{Decision P} (p : option (Z * Z)) j :
  same_fields (if decide P then with_parent p j else j) j.
Proof. by case_decide. Qed.

Lemma sum_weight_ext (w w' : Z * Z → Z) l : (∀ c, c ∈ l → w c = w' c) → sum_with w l = sum_with w' l.
Proof.
  induction l as [|c l IH]; intros Hw; [done|]. unfold sum_with in *. cbn.
  by rewrite IH, (Hw c) by (intros; try apply Hw; by constructor).
Qed.

Lemma node_ok_moved m m' x i j :
  node_ok m x j → same_fields i j →
  (∀ c, c ∈ children j → weight m' c = weight m c ∧ (cand m' c ↔ cand m c) ∧ fc_best_slot m' c = fc_best_slot m c) →
  (∀ c jc, c ∈ children j → m' !! c = Some jc → ∃ jc', m !! c = Some jc' ∧ same_fields jc jc') →
  under m' x (best_slot j) → is_Some (m' !! best_slot j) → node_ok m' x i.
Proof.
  intros [Hat Hs Hb _ [Hm1 Hm2]] (E1 & E2 & E3 & E4 & E5 & E6) Hf Hcs Hu Hin.
  split; [by rewrite E1| | |by rewrite E4|].
  - rewrite E1, E2, E3, Hs. do 2 f_equal. apply sum_weight_ext. intros c Hc. symmetry. by apply Hf.
  - rewrite E5. intros Hv. unfold best_ok. rewrite E3, E4.
    destruct (Hb Hv) as [[Hno ->]|(c & (Hcin & Hcc & Hmax) & Hcb)]; [left|right].
    + split; [|done]. intros c Hc. destruct (Hf c Hc) as (_ & -> & _). by apply Hno.
    + exists c. destruct (Hf c Hcin) as (Hw & Hcd & ->). split; [|done]. split_and!; [done|by apply Hcd|].
      intros c' Hc'. destruct (Hf c' Hc') as (-> & -> & _). rewrite Hw. by apply Hmax.
  - unfold marks_ok. rewrite E3, E5, E6. split; [done|]. intros c jc Hc Hjc.
    destruct (Hcs c jc Hc Hjc) as (jc' & Hjc' & _ & _ & _ & _ & -> & ->). by apply (Hm2 c jc').
Qed.

(** ** A new root *)

Section cut.
Context m r (nr : Z * Z) (inr : ForkInfo) (T : tree_ok m r) (Hok : nodes_ok m) (Hnr : m !! nr = Some inr).

Definition cut : gmap (Z * Z) ForkInfo :=
  <[nr := with_parent None inr]> (filter (λ x : (Z * Z) * ForkInfo, under m nr x.1) m).

Lemma cut_inv x i :
  cut !! x = Some i → ∃ j, m !! x = Some j ∧ under m nr x ∧
    i = if decide (x = nr) then with_parent None j else j.
Proof using Hnr.
  unfold cut. rewrite lookup_insert. case_decide as Hx.
  - intros [= <-]. subst x. exists inr. rewrite decide_True by done. split_and!; [done|by left|done].
  - intros [Hi Hu]%map_lookup_filter_Some. exists i. rewrite decide_False by done. done.
Qed.

Lemma cut_lookup x j :
  m !! x = Some j → under m nr x → cut !! x = Some (if decide (x = nr) then with_parent None j else j).
Proof using Hnr.
  intros Hj Hu. unfold cut. rewrite lookup_insert. destruct (decide (nr = x)) as [<-|Hx].
  - rewrite decide_True by done. congruence.
  - rewrite decide_False by done. by apply map_lookup_filter_Some.
Qed.

Lemma under_child_kept x i c : m !! x = Some i → under m nr x → c ∈ children i → under m nr c ∧ c ≠ nr.
Proof using T.
  intros Hi Hu Hc. split.
  - apply (under_parent m r T nr c x); [by eapply child_parent|done].
  - intros ->. by eapply (child_not_under m r T x i nr).
Qed.

Lemma cut_tree : tree_ok cut nr.
Proof using T Hnr.
  split.
  - exists (with_parent None inr). split; [|done]. unfold cut. apply lookup_insert_eq.
  - intros x i (j & Hj & Hu & ->)%cut_inv. case_decide as Hx; [done|]. intros Hp.
    apply (under_eq m r T) in Hu as [?|(q & (j' & Hj' & ?)%fc_parent_Some & _)]; [done|]. congruence.
  - intros x i q (j & Hj & Hu & ->)%cut_inv Hq. case_decide as Hx; [done|].
    destruct (t_parent _ _ T x j q Hj Hq) as (jq & Hjq & Hin).
    apply (under_eq m r T) in Hu as [?|(q' & (j' & Hj' & ?)%fc_parent_Some & Hu)]; [done|]. simplify_eq.
    eexists. split; [by apply cut_lookup|]. by case_decide.
  - intros x i c (j & Hj & Hu & ->)%cut_inv Hc.
    assert (Hcj : c ∈ children j) by (by case_decide). destruct (under_child_kept x j c Hj Hu Hcj) as [Huc Hcn].
    destruct (t_child _ _ T x j c Hj Hcj) as (jc & Hjc & ?). exists jc. rewrite (cut_lookup c jc Hjc Huc).
    by rewrite decide_False.
  - intros x i (j & Hj & Hu & ->)%cut_inv. case_decide; by eapply (t_nodup _ _ T x j).
  - intros x i q (j & Hj & Hu & ->)%cut_inv Hq. case_decide; [done|]. by eapply (t_slots _ _ T x j).
  - intros x i (j & Hj & Hu & ->)%cut_inv. by eapply (t_nonneg _ _ T x j).
Qed.

Lemma cut_under a x : is_Some (m !! x) → under m nr x → under m nr a → under m a x → under cut a x.
Proof using T Hnr.
  revert x. apply (tree_ind_up m r T (λ x, is_Some (m !! x) → under m nr x → under m nr a → under m a x → under cut a x)).
  intros x IH [j Hj] Hx Ha Hax. apply (under_eq m r T) in Hax as [->|(q & Hq & Hu)]; [by left|].
  assert (Hxn : x ≠ nr).
  { intros ->. pose proof Hq as (i & Hi & Hp)%fc_parent_Some. pose proof (t_slots _ _ T nr i q Hi Hp).
    pose proof (under_trans m r T nr a q Ha Hu) as [->|?]%(under_slot m r T); lia. }
  assert (Hqn : under m nr q).
  { apply (under_eq m r T) in Hx as [?|(q' & Hq' & ?)]; [done|]. rewrite Hq in Hq'. by injection Hq' as <-. }
  apply (under_parent cut nr cut_tree a x q).
  - apply fc_parent_Some. exists j. split; [|apply fc_parent_Some in Hq as (? & ? & ?); congruence].
    rewrite (cut_lookup x j Hj Hx). by rewrite decide_False.
  - apply fc_parent_Some in Hq as Hq2. destruct Hq2 as (i & Hi & Hp). destruct (t_parent _ _ T x i q Hi Hp) as (jq & ? & _).
    apply (IH q Hq); eauto.
Qed.

Lemma cut_under_inv a x : under cut a x → under m a x.
Proof using T Hnr.
  pose proof cut_tree as Tc. revert x. apply (tree_ind_up cut nr Tc (λ x, under cut a x → under m a x)).
  intros x IH [->|(q & Hq & Hu)]%(under_eq cut nr Tc); [by left|]. specialize (IH q Hq Hu).
  apply fc_parent_Some in Hq as (i & (j & Hj & _ & ->)%cut_inv & Hp). case_decide; [done|].
  apply (under_parent m r T a x q); [|done]. apply fc_parent_Some. eauto.
Qed.

Lemma cut_fields x : under m nr x →
  weight cut x = weight m x ∧ (cand cut x ↔ cand m x) ∧ fc_best_slot cut x = fc_best_slot m x.
Proof using Hnr.
  intros Hu. unfold weight, fc_stake_voted_subtree, cand, fc_best_slot. destruct (m !! x) as [j|] eqn:Hj.
  - rewrite (cut_lookup x j Hj Hu). case_decide; (split_and!; [done| |done]); split; intros (i & [= <-] & ?); eauto.
  - destruct (cut !! x) as [i|] eqn:Hi; [apply cut_inv in Hi as (j & ? & _); congruence|]. done.
Qed.

Lemma cut_nodes_ok : nodes_ok cut.
Proof using T Hok Hnr.
  intros x i (j & Hj & Hu & ->)%cut_inv. pose proof (Hok x j Hj) as Hn. destruct (n_under _ _ _ Hn) as [Hub [jb Hjb]].
  assert (Hnb : under m nr (best_slot j)) by (by apply (under_trans m r T nr x)).
  apply (node_ok_moved m cut x _ j Hn (with_parent_fields _ _ _)).
  - intros c Hc. apply cut_fields. exact (proj1 (under_child_kept x j c Hj Hu Hc)).
  - intros c jc _ (j2 & Hj2 & _ & ->)%cut_inv. exists j2. split; [done|apply with_parent_fields].
  - apply cut_under; eauto.
  - rewrite (cut_lookup _ _ Hjb Hnb). eauto.
Qed.

Lemma delete_all {E} (l : list (Z * Z)) m0 :
  NoDup l → (∀ x, x ∈ l → is_Some (m0 !! x)) →
  foldM (E:=E) (λ m k, _ ← unwrap (m !! k); Ok (delete k m)) m0 l = Ok (filter (λ x : (Z * Z) * ForkInfo, x.1 ∉ l) m0).
Proof.
  revert m0. induction l as [|x l IH]; intros m0 Hn Hin; cbn.
  { f_equal. symmetry. apply map_filter_id. intros. apply not_elem_of_nil. }
  apply NoDup_cons in Hn as [Hx Hn]. destruct (Hin x ltac:(by left)) as [i Hi]. rewrite Hi. cbn. rewrite IH; [|done|].
  - f_equal. apply map_eq. intros y. apply option_eq. intros j. rewrite !map_lookup_filter_Some, lookup_delete_Some. cbn.
    rewrite not_elem_of_cons. naive_solver.
  - intros y Hy. rewrite lookup_delete_ne by (intros ->; done). apply Hin. by right.
Qed.
End cut.

(** ** A parent for the root *)

Section extend.
Context m r (rp : Z * Z) (ir : ForkInfo) (T : tree_ok m r) (Hok : nodes_ok m) (Hr : m !! r = Some ir).
Context (Hrp : m !! rp = None) (Hlt : rp.1 < r.1) (Hpos : 0 <= rp.1) (Hcand : latest_invalid_ancestor ir = None).

Definition rp_info : ForkInfo :=
  mkForkInfo 0 (stake_voted_subtree ir) (best_slot ir) None [r] None (is_duplicate_confirmed ir).
Definition extended : gmap (Z * Z) ForkInfo := <[rp := rp_info]> (<[r := with_parent (Some rp) ir]> m).

Lemma ext_ne : rp ≠ r.
Proof using Hlt. intros E%(f_equal fst). lia. Qed.

Lemma ext_inv x i :
  extended !! x = Some i → x = rp ∧ i = rp_info ∨
    x ≠ rp ∧ ∃ j, m !! x = Some j ∧ i = if decide (x = r) then with_parent (Some rp) j else j.
Proof using Hr.
  unfold extended. rewrite !lookup_insert. destruct (decide (rp = x)) as [<-|Hx]; [intros [= <-]; by left|]. right.
  split; [done|]. destruct (decide (r = x)) as [<-|Hrx].
  - exists ir. rewrite decide_True by done. by simplify_eq.
  - exists i. by rewrite decide_False.
Qed.

Lemma ext_lookup x j :
  m !! x = Some j → extended !! x = Some (if decide (x = r) then with_parent (Some rp) j else j).
Proof using Hr Hrp.
  clear Hpos Hlt Hcand. intros Hj. unfold extended. rewrite lookup_insert_ne by (intros ->; congruence). rewrite lookup_insert.
  destruct (decide (r = x)) as [<-|]; [rewrite decide_True by done; congruence|by rewrite decide_False].
Qed.

Lemma ext_rp : extended !! rp = Some rp_info.
Proof. apply lookup_insert_eq. Qed.

Lemma ext_root_parent : parent ir = None.
Proof using T Hr. destruct (t_root _ _ T) as (i & Hi & ?). congruence. Qed.

Lemma ext_tree : tree_ok extended rp.
Proof using T Hr Hrp Hlt Hpos.
  split.
  - exists rp_info. split; [apply ext_rp|done].
  - intros x i [[-> _]|(Hx & j & Hj & ->)]%ext_inv; [done|]. case_decide as Hxr; [done|].
    intros Hp. by rewrite (t_only_root _ _ T x j Hj Hp) in Hxr.
  - intros x i q [[-> ->]|(Hx & j & Hj & ->)]%ext_inv Hq; [done|]. case_decide as Hxr.
    + injection Hq as <-. exists rp_info. split; [apply ext_rp|]. rewrite Hxr. cbn. by left.
    + destruct (t_parent _ _ T x j q Hj Hq) as (jq & Hjq & Hin). rewrite (ext_lookup q jq Hjq). eexists. split; [done|]. by case_decide.
  - intros x i c [[-> ->]|(Hx & j & Hj & ->)]%ext_inv Hc.
    + apply list_elem_of_singleton in Hc as ->. rewrite (ext_lookup r ir Hr), decide_True by done. eauto.
    + assert (Hcj : c ∈ children j) by (by case_decide). destruct (t_child _ _ T x j c Hj Hcj) as (jc & Hjc & Hp).
      rewrite (ext_lookup c jc Hjc). rewrite decide_False; [eauto|]. intros ->. rewrite Hr in Hjc. injection Hjc as <-.
      by rewrite ext_root_parent in Hp.
  - intros x i [[-> ->]|(Hx & j & Hj & ->)]%ext_inv; [apply NoDup_singleton|]. case_decide; by eapply (t_nodup _ _ T x j).
  - intros x i q [[-> ->]|(Hx & j & Hj & ->)]%ext_inv Hq; [done|]. case_decide as Hxr; [|by eapply (t_slots _ _ T x j)].
    injection Hq as <-. by rewrite Hxr.
  - intros x i [[-> ->]|(Hx & j & Hj & ->)]%ext_inv; [done|by eapply (t_nonneg _ _ T x j)].
Qed.

Lemma ext_under a x : x ≠ rp → under m a x → under extended a x.
Proof using T Hr Hrp Hlt Hpos.
  revert x. apply (tree_ind_up m r T (λ x, x ≠ rp → under m a x → under extended a x)).
  intros x IH Hx [->|(q & Hq & Hu)]%(under_eq m r T); [by left|]. pose proof Hq as (i & Hi & Hp)%fc_parent_Some.
  destruct (t_parent _ _ T x i q Hi Hp) as (jq & Hjq & _).
  apply (under_parent extended rp ext_tree a x q); [|apply (IH q Hq); [congruence|done]].
  apply fc_parent_Some. rewrite (ext_lookup x i Hi). eexists. split; [done|]. case_decide as Hxr; [|done].
  subst x. rewrite Hr in Hi. injection Hi as <-. by rewrite ext_root_parent in Hp.
Qed.

Lemma ext_fields x : x ≠ rp →
  weight extended x = weight m x ∧ (cand extended x ↔ cand m x) ∧ fc_best_slot extended x = fc_best_slot m x.
Proof using Hr Hrp.
  intros Hx. unfold weight, fc_stake_voted_subtree, cand, fc_best_slot. destruct (m !! x) as [j|] eqn:Hj.
  - rewrite (ext_lookup x j Hj). case_decide; (split_and!; [done| |done]); split; intros (i & [= <-] & ?); eauto.
  - destruct (extended !! x) as [i|] eqn:Hi; [apply ext_inv in Hi as [[? _]|(_ & j & ? & _)]; congruence|]. done.
Qed.

Lemma ext_nodes_ok : nodes_ok extended.
Proof using T Hok Hr Hrp Hlt Hpos Hcand.
  destruct (Hok r ir Hr) as [Hratt Hrs _ [Hru [jb Hjb]] [Hrm1 Hrm2]].
  assert (Hrne : r ≠ rp) by (apply not_eq_sym, ext_ne). destruct (ext_fields r Hrne) as (Hrw & Hrc & Hrb).
  intros x i [[-> ->]|(Hx & j & Hj & Hij)]%ext_inv.
  - split; cbn.
    + done.
    + unfold sum_with. cbn. rewrite Hrw, (weight_lookup _ _ _ Hr), Z.add_0_r, Hrs. symmetry. apply wrap64_wrap64.
    + intros _. right. exists r. cbn. split; [|rewrite Hrb; unfold fc_best_slot; by rewrite Hr].
      split_and!; [by left|apply Hrc; by exists ir|]. intros c ->%list_elem_of_singleton _. right. by rewrite key_ltb_irrefl.
    + assert (Hbn : best_slot ir ≠ rp) by congruence. split; [|rewrite (ext_lookup _ _ Hjb); eauto].
      apply (under_trans extended rp ext_tree rp r); [|by apply ext_under].
      apply (under_parent extended rp ext_tree rp r rp); [|by left]. apply fc_parent_Some.
      rewrite (ext_lookup r ir Hr), decide_True by done. eauto.
    + split; [done|]. cbn. intros c j' ->%list_elem_of_singleton Hj'. rewrite (ext_lookup r ir Hr), decide_True in Hj' by done.
      by injection Hj' as <-.
  - rewrite Hij. pose proof (Hok x j Hj) as Hn. destruct (n_under _ _ _ Hn) as [Hub [jb' Hjb']].
    assert (Hcn : ∀ c, c ∈ children j → c ≠ rp).
    { intros c Hc ->. destruct (t_child _ _ T x j rp Hj Hc) as (? & ? & _). congruence. }
    apply (node_ok_moved m extended x _ j Hn (with_parent_fields _ _ _)).
    + intros c Hc. by apply ext_fields, Hcn.
    + intros c jc Hc [[-> _]|(_ & j2 & Hj2 & ->)]%ext_inv; [by apply Hcn in Hc|].
      exists j2. split; [done|apply with_parent_fields].
    + apply ext_under; [congruence|done].
    + rewrite (ext_lookup _ _ Hjb'). eauto.
Qed.
End extend.

Lemma below_lt m k i : m !! k = Some i → (below m k < size m)%nat.
Proof.
  intros Hi. unfold below. rewrite <-(map_filter_id (λ _, True) m) at 2 by done.
  eapply (filter_size_lt _ _ _ k i); cbn; [done..|lia].
Qed.

Section operations.
Context (ES : gmap Epoch (gmap Pubkey Z)) (sched : EpochSchedule).

Lemma votes_at_none lv k : (∀ pk, lv !! pk ≠ Some k) → votes_at ES sched lv k = 0.
Proof.
  unfold votes_at. induction lv as [|pk v lv Hpk Hfr IH] using map_first_key_ind; intros Hn.
  { unfold vsum. by rewrite map_fold_empty. }
  rewrite vsum_insert_new by done. rewrite decide_False, IH; [done| |].
  - intros pk' Hpk'. apply (Hn pk'). rewrite lookup_insert_ne; [done|]. intros ->. congruence.
  - intros ->. apply (Hn pk). apply lookup_insert_eq.
Qed.

Lemma add_new_leaf_slot_ok f k p :
  fc_ok ES sched f → is_Some (fork_infos f !! p) → p.1 < k.1 → (∀ pk, latest_votes f !! pk ≠ Some k) →
  ∃ f', add_new_leaf_slot k (Some p) f = (f', Ok tt) ∧ fc_ok ES sched f' ∧ root f' = root f ∧
    latest_votes f' = latest_votes f ∧
    (fork_infos f !! k = None → ∀ ip, fork_infos f !! p = Some ip →
       same_shape (grown (fork_infos f) k p ip) (fork_infos f') ∧
       ∀ x, status (fork_infos f') x = status (grown (fork_infos f) k p ip) x).
Proof.
  intros [T Hok Hat Hr] [ip Hp] Hlt Hnv. unfold add_new_leaf_slot, mbind, st_bind, get, contains_block.
  case_bool_decide as Hc.
  { exists f. split_and!; try done. intros Hk. rewrite Hk in Hc. by destruct Hc. }
  assert (Hk : fork_infos f !! k = None) by (apply eq_None_not_Some; done).
  cbn [update_infos modify with_infos fork_infos]. unfold update_infos, modify. cbn [fork_infos with_infos].
  assert (Hpk : p ≠ k) by (intros E%(f_equal fst); lia).
  assert (Hlia : fc_latest_invalid_ancestor (fork_infos f) p = latest_invalid_ancestor ip)
    by (unfold fc_latest_invalid_ancestor; by rewrite Hp).
  unfold mbind, option_bind. rewrite Hlia.
  set (m1 := <[k := leaf_info k (Some p) (latest_invalid_ancestor ip)]> (fork_infos f)).
  assert (Hm1 : m1 !! p = Some ip) by (unfold m1; by rewrite lookup_insert_ne).
  unfold lift, with_infos. cbn [fork_infos latest_votes root]. rewrite Hm1. cbn [unwrap].
  change (<[p := push_child k ip]> m1) with (grown (fork_infos f) k p ip).
  unfold propagate_new_leaf, update_infos, modify, mbind, st_bind, get, lift, with_infos. cbn [fork_infos latest_votes root].
  set (g := grown (fork_infos f) k p ip).
  pose proof (grown_tree (fork_infos f) (root f) k p ip T Hk Hp Hlt) as Tg. fold g in Tg.
  assert (Hgp : g !! p = Some (push_child k ip)) by apply grown_parent.
  assert (Hgk : g !! k = Some (leaf k p ip)) by (by apply grown_leaf).
  assert (Hbp : fc_best_slot g p = Some (best_slot ip)) by (unfold fc_best_slot; by rewrite Hgp).
  rewrite Hbp. cbn [unwrap].
  assert (Hbest : ∃ b, is_best_child (E:=Empty_set) g k = Ok b ∧
    (b = true ↔ ∀ c, c ∈ children ip ++ [k] → cand g c → ¬ (0 < weight g c ∨ 0 = weight g c ∧ key_ltb c k = true))).
  { unfold is_best_child, fc_stake_voted_subtree, fc_parent, fc_children. rewrite Hgk. cbn. rewrite Hgp. cbn.
    apply no_better_child_spec. intros c Hcin. destruct (t_child _ _ Tg p (push_child k ip) c Hgp Hcin) as (j & ? & _). eauto. }
  destruct Hbest as (b & -> & Hb).
  assert (Hfinal : ∀ m3, same_shape g m3 →
    (∀ x i, g !! x = Some i → ∃ i3, m3 !! x = Some i3 ∧
       (passed (fork_infos f) k p ip b x ∧ i3 = with_best_slot k i ∨ ¬ passed (fork_infos f) k p ip b x ∧ i3 = i)) →
    fc_ok ES sched (mkForkChoice m3 (latest_votes f) (root f))).
  { intros m3 Hs3 Hm3. split; cbn [fork_infos root latest_votes].
    - by eapply tree_ok_shape.
    - by eapply (grown_nodes_ok (fork_infos f) (root f) k p ip T Hok Hk Hp Hlt b m3).
    - intros x i3 Hi3. destruct (grown3_inv (fork_infos f) k p ip b m3 Hs3 Hm3 x i3 Hi3) as (i & Hi & _).
      destruct (grown3_same (fork_infos f) k p ip b m3 Hs3 Hm3 x i3 i Hi3 Hi) as (-> & _).
      apply (grown_inv (fork_infos f) k p ip Hlt) in Hi as [(-> & ->)|[(-> & ->)|(_ & _ & Hi)]].
      + by rewrite votes_at_none.
      + exact (Hat p ip Hp).
      + by apply Hat.
    - apply (grown3_cand (fork_infos f) k p ip b m3 Hs3 Hm3), grown_cand; [done| |done].
      destruct (t_root _ _ T) as (i & Hi & _). congruence. }
  assert (Hstatus : ∀ m3, same_shape g m3 →
    (∀ x i, g !! x = Some i → ∃ i3, m3 !! x = Some i3 ∧
       (passed (fork_infos f) k p ip b x ∧ i3 = with_best_slot k i ∨ ¬ passed (fork_infos f) k p ip b x ∧ i3 = i)) →
    ∀ x, status m3 x = status g x).
  { intros m3 Hs3 Hm3 x. unfold status. destruct (m3 !! x) as [i3|] eqn:Hi3; [|by rewrite (same_shape_None _ _ _ Hs3 Hi3)].
    destruct (grown3_inv (fork_infos f) k p ip b m3 Hs3 Hm3 x i3 Hi3) as (i & Hi & _).
    destruct (grown3_same (fork_infos f) k p ip b m3 Hs3 Hm3 x i3 i Hi3 Hi) as (_ & _ & _ & El & Ec).
    fold g in Hi. rewrite Hi. cbn. by rewrite El, Ec. }
  destruct b.
  - destruct (propagate_loop_spec (E:=Empty_set) g (root f) k (best_slot ip) (size g) p _ Tg Hgp) as (m3 & -> & Hs3 & Hm3);
      [by eapply below_lt|].
    assert (Hm3' : ∀ x i, g !! x = Some i → ∃ i3, m3 !! x = Some i3 ∧
       (passed (fork_infos f) k p ip true x ∧ i3 = with_best_slot k i ∨ ¬ passed (fork_infos f) k p ip true x ∧ i3 = i)).
    { intros x i Hi. destruct (Hm3 x i Hi) as (i3 & Hi3 & Hcase). exists i3. split; [done|]. unfold passed. naive_solver. }
    eexists. split; [reflexivity|]. split; [by apply Hfinal|split_and!; [done..|]].
    intros _ ip' Hip'. rewrite Hp in Hip'. injection Hip' as <-. split; [done|by apply Hstatus].
  - eexists. split; [reflexivity|]. split; [|split_and!; [done..|]].
    + apply Hfinal; [done|]. intros x i Hi. exists i. split; [done|]. right. split; [|done]. by intros [? _].
    + intros _ ip' Hip'. rewrite Hp in Hip'. by injection Hip' as <-.
Qed.

Lemma set_root_ok f nr :
  fc_ok ES sched f → cand (fork_infos f) nr →
  ∃ f', set_root nr f = (f', Ok tt) ∧ fc_ok ES sched f' ∧ root f' = nr ∧ latest_votes f' = latest_votes f ∧
    (∀ x, is_Some (fork_infos f' !! x) ↔ is_Some (fork_infos f !! x) ∧ under (fork_infos f) nr x) ∧
    (∀ x, is_Some (fork_infos f' !! x) → status (fork_infos f') x = status (fork_infos f) x) ∧
    (∀ a x, is_Some (fork_infos f' !! x) → under (fork_infos f') a x → under (fork_infos f) a x).
Proof.
  intros [T Hok Hat Hr] (inr & Hnr & Hc). unfold set_root, mbind, st_bind, get, lift.
  destruct (subtree_diff_spec (E:=Empty_set) (fork_infos f) (root f) T (root f) nr) as (S & -> & HS); [eauto..|].
  assert (HS' : ∀ x, x ∈ elements S ↔ is_Some (fork_infos f !! x) ∧ ¬ under (fork_infos f) nr x).
  { intros x. rewrite elem_of_elements, HS. split; intros (Hx & Hn); split; try done.
    - intros Hu. apply Hn. split; [|done]. apply (root_under _ _ T). eauto.
    - split; [by apply (root_under _ _ T)|]. by intros [_ ?]. }
  assert (Hdel : ∀ x, x ∈ elements S → is_Some (fork_infos f !! x)) by (intros x Hx; by apply HS').
  pose proof (delete_all (E:=Empty_set) _ _ (NoDup_elements S) Hdel) as Hd. unfold mbind in Hd. rewrite Hd.
  assert (Hm : filter (λ x : (Z * Z) * ForkInfo, x.1 ∉ elements S) (fork_infos f) =
               filter (λ x : (Z * Z) * ForkInfo, under (fork_infos f) nr x.1) (fork_infos f)).
  { apply map_filter_ext. intros x i Hi. cbn. rewrite HS'. split; [|tauto].
    intros Hn. destruct (decide (under (fork_infos f) nr x)); [done|]. destruct Hn. eauto. }
  rewrite Hm. cbn [update_infos modify with_infos fork_infos]. unfold update_infos, modify, with_infos, with_root.
  cbn [fork_infos latest_votes root].
  assert (Hl : filter (λ x : (Z * Z) * ForkInfo, under (fork_infos f) nr x.1) (fork_infos f) !! nr = Some inr).
  { apply map_lookup_filter_Some. split; [done|]. by left. }
  rewrite Hl. cbn [unwrap fork_infos latest_votes root].
  change (<[nr := with_parent None inr]> _) with (cut (fork_infos f) nr inr).
  eexists. split; [reflexivity|]. split; [|split_and!; [done|done| | |]].
  - split; cbn.
    + by eapply cut_tree.
    + by eapply cut_nodes_ok.
    + intros x i (j & Hj & _ & ->)%(cut_inv _ _ _ Hnr). rewrite <-(Hat x j Hj). by case_decide.
    + apply (cut_fields _ _ _ Hnr); [by left|]. by exists inr.
  - intros x. cbn. split.
    + intros [i (j & Hj & Hu & _)%(cut_inv _ _ _ Hnr)]. eauto.
    + intros [[j Hj] Hu]. rewrite (cut_lookup _ _ _ Hnr x j Hj Hu). eauto.
  - intros x [i Hi]. cbn in *. unfold status. rewrite Hi. apply (cut_inv _ _ _ Hnr) in Hi as (j & -> & _ & ->). by case_decide.
  - intros a x _. cbn. by apply (cut_under_inv _ (root f)).
Qed.

Lemma add_root_parent_ok f rp :
  fc_ok ES sched f → 0 <= rp.1 → rp.1 < (root f).1 → fork_infos f !! rp = None → (∀ pk, latest_votes f !! pk ≠ Some rp) →
  ∃ f', add_root_parent rp f = (f', Ok tt) ∧ fc_ok ES sched f' ∧ root f' = rp ∧ latest_votes f' = latest_votes f ∧
    (∀ x, is_Some (fork_infos f' !! x) ↔ x = rp ∨ is_Some (fork_infos f !! x)).
Proof.
  intros [T Hok Hat Hr] Hpos Hlt Hrp Hnv. destruct Hr as (ir & Hir & Hc).
  unfold add_root_parent, mbind, st_bind, get, lift, assert_, contains_block.
  rewrite (proj2 (Z.ltb_lt _ _) Hlt). rewrite Hrp. cbn. rewrite Hir. cbn [unwrap].
  unfold update_infos, modify, with_infos, with_root. cbn [fork_infos latest_votes root].
  change (<[rp := _]> (<[root f := _]> (fork_infos f))) with (extended (fork_infos f) (root f) rp ir).
  eexists. split; [reflexivity|]. split; [|split_and!; [done..|]].
  - split; cbn.
    + by apply ext_tree.
    + by apply ext_nodes_ok.
    + intros x i [[-> ->]|(_ & j & Hj & ->)]%(ext_inv _ _ _ _ Hir).
      * by rewrite votes_at_none.
      * rewrite <-(Hat x j Hj). by case_decide.
    + exists (rp_info (root f) ir). split; [apply ext_rp|done].
  - intros x. cbn. split.
    + intros [i [[-> _]|(_ & j & Hj & _)]%(ext_inv _ _ _ _ Hir)]; eauto.
    + intros [->|[j Hj]]; [rewrite ext_rp; eauto|]. rewrite (ext_lookup _ _ _ _ Hir Hrp x j Hj). eauto.
Qed.
End operations.
End fork_edit.
