(* ===== verification/ForkProps.v ===== *)
(** * The fork choice picks the GHOST slot

    When the public operations of the fork choice panic, and that the slot it
    recommends is the one that starting at the root and following the heaviest
    valid child leads to, where the weight of a fork is the stake of the
    validators whose latest vote is on it. *)

From S2P Require Import Prelude Account Sysvar ForkChoice ForkTree ForkOps ForkInv ForkVotes ForkMarks ForkEdit.

Module fork_props.
Import fork_choice fork_tree fork_ops fork_inv fork_votes fork_marks fork_edit.
Implicit Types (m : gmap (Z * Z) ForkInfo) (k p c r kv : Z * Z) (i j : ForkInfo).

(** ** The nodes a mark reaches *)

(** The subtree at a key; the walk stops at the default key. *)
Definition reached m kv k : Prop := is_Some (m !! k) ∧ under m kv k ∧ kv ≠ SlotHashKey_default.

Lemma reached_nodes {E} m r kv :
  tree_ok m r → is_Some (m !! kv) →
  ∃ S, subtree_diff (E:=E) m kv SlotHashKey_default = Ok S ∧ ∀ k, k ∈ S ↔ reached m kv k.
Proof.
  intros T Hkv. destruct (subtree_diff_spec (E:=E) m r T kv SlotHashKey_default) as (S & HS & Hin).
  exists S. split; [done|]. intros k. rewrite Hin. unfold reached. split; intros (Hk & Hu & Hn); split_and!; try done.
  - intros ->. apply Hn. split; [by left|done].
  - intros [Hd _]. apply (under_slot m r T) in Hd as [<-|Hs]; [done|].
    destruct Hkv as [i Hi]. pose proof (t_nonneg _ _ T kv i Hi). cbn in Hs. lia.
Qed.

Section reached.
Context m r kv (S : gset (Z * Z)) (T : tree_ok m r) (HS : ∀ k, k ∈ S ↔ reached m kv k).

Lemma reached_under k : k ∈ S → is_Some (m !! k) ∧ under m kv k.
Proof using HS. intros (? & ? & _)%HS. done. Qed.

Lemma reached_down k i c : k ∈ S → m !! k = Some i → c ∈ children i → c ∈ S.
Proof using T HS.
  intros (_ & Hu & Hne)%HS Hi Hc. apply HS. split_and!; [|by eapply under_parent, Hu; [done|by eapply child_parent]|done].
  destruct (t_child _ _ T k i c Hi Hc) as (j & -> & _). eauto.
Qed.

Lemma reached_up k p : k ∈ S → k ≠ kv → fc_parent m k = Some p → p ∈ S.
Proof using T HS.
  intros (_ & Hu & Hne)%HS Hk Hp. apply HS. pose proof Hp as (i & Hi & Hpi)%fc_parent_Some.
  destruct (t_parent _ _ T k i p Hi Hpi) as (j & Hj & _). split_and!; [eauto| |done].
  apply (under_eq m r T) in Hu as [?|(p' & Hp' & Hu)]; [done|]. congruence.
Qed.
End reached.

(** Descendants of an unconfirmed node are unconfirmed. *)
Lemma unconfirmed_under m r a k :
  tree_ok m r → nodes_ok m → is_Some (m !! k) → under m a k → confirmed_at m a = false → confirmed_at m k = false.
Proof.
  intros T Hok Hk Hu Ha. revert k Hk Hu.
  apply (tree_ind_up m r T (λ k, is_Some (m !! k) → under m a k → confirmed_at m k = false)).
  intros k IH [i Hi] [->|(p & Hp & Hu)]%(under_eq m r T); [done|]. pose proof Hp as (i' & Hi' & Hpi)%fc_parent_Some.
  rewrite Hi in Hi'. injection Hi' as <-. destruct (t_parent _ _ T k i p Hi Hpi) as (j & Hj & Hin).
  specialize (IH p Hp ltac:(eauto) Hu). rewrite (confirmed_lookup _ _ _ Hj) in IH. rewrite (confirmed_lookup _ _ _ Hi).
  destruct (n_marks _ _ _ (Hok p j Hj)) as [_ Hc]. destruct (Hc k i Hin Hi) as [_ Hci].
  destruct (is_duplicate_confirmed i); [by rewrite Hci in IH|done].
Qed.

Lemma newly_confirmed_spec {E} m l acc :
  (∀ k, k ∈ l → is_Some (m !! k)) →
  foldM (newly_confirmed (E:=E) m) acc l = Ok (acc ++ filter (λ k, confirmed_at m k = false) l).
Proof.
  revert acc. induction l as [|k l IH]; intros acc Hin; cbn [foldM]; [by rewrite app_nil_r|].
  destruct (Hin k ltac:(by left)) as [i Hi].
  assert (Hk : newly_confirmed (E:=E) m acc k = Ok (if is_duplicate_confirmed i then acc else acc ++ [k]))
    by (unfold newly_confirmed, fc_is_duplicate_confirmed; by rewrite Hi).
  rewrite Hk. cbn [mbind res_bind]. rewrite IH by (intros; apply Hin; by right). rewrite filter_cons, (confirmed_lookup _ _ _ Hi).
  destruct (is_duplicate_confirmed i).
  - by rewrite decide_False.
  - rewrite decide_True by done. by rewrite <-app_assoc.
Qed.

Section operations.
Context (ES : gmap Epoch (gmap Pubkey Z)) (sched : EpochSchedule).

(** A batch of marks. *)
Lemma process_marks f ops m' :
  run_ops (E:=Empty_set) (fork_infos f) (into_iter_rev ops) = Ok m' →
  process_update_operations ops f = (with_infos m' f, Ok tt).
Proof.
  intros Hm. pose proof (process_operations_run (into_iter_rev ops) f) as Hp. by rewrite Hm in Hp.
Qed.

Lemma mark_fork_invalid_candidate_ok f kv :
  fc_ok ES sched f → kv ≠ root f → confirmed_at (fork_infos f) kv = false →
  ∃ f', mark_fork_invalid_candidate kv f = (f', Ok tt) ∧ fc_ok ES sched f' ∧ root f' = root f ∧
    latest_votes f' = latest_votes f ∧ same_shape (fork_infos f) (fork_infos f') ∧
    (∀ k i i', fork_infos f !! k = Some i → fork_infos f' !! k = Some i' →
       is_duplicate_confirmed i' = is_duplicate_confirmed i ∧
       (reached (fork_infos f) kv k → latest_invalid_ancestor i' = later kv.1 (latest_invalid_ancestor i)) ∧
       (¬ reached (fork_infos f) kv k → latest_invalid_ancestor i' = latest_invalid_ancestor i)).
Proof.
  intros [T Hok Hat Hr] Hne Hun. unfold mark_fork_invalid_candidate, mbind, st_bind, get, lift, assert_.
  destruct (fork_infos f !! kv) as [ikv|] eqn:Hkv.
  2: { exists f. split_and!; try done. intros k i i' Hi Hi'. rewrite Hi in Hi'. injection Hi' as <-. split_and!; try done.
       intros (Hk & Hu & _). destruct (under_in _ _ T kv k Hk Hu) as [? ?]. congruence. }
  rewrite (confirmed_lookup _ _ _ Hkv) in Hun. rewrite Hun. cbn [negb]. unfold mret, st_ret.
  destruct (reached_nodes (E:=Empty_set) (fork_infos f) (root f) kv T) as (S & -> & HS); [eauto|].
  pose proof (reached_under _ _ _ HS) as Hunder. pose proof (reached_down _ _ _ _ T HS) as Hdown.
  pose proof (reached_up _ _ _ _ T HS) as Hup.
  fold (mark_ops (fork_infos f) kv (MarkInvalid kv.1) S).
  destruct (run_ops_total (E:=Empty_set) (fork_infos f) (root f)
    (into_iter_rev (mark_ops (fork_infos f) kv (MarkInvalid kv.1) S)) (λ k, k ∈ S) T) as [m' Hm'].
  { intros [[k l] op] s Hx%into_iter_rev_elem Hop. cbn in *. subst op.
    rewrite (mark_ops_lookup _ _ _ (MarkInvalid kv.1) S T I Hunder) in Hx. repeat case_decide; naive_solver. }
  { intros [[k l] op] s Hx%into_iter_rev_elem Hop. cbn in *. subst op.
    rewrite (mark_ops_lookup _ _ _ (MarkInvalid kv.1) S T I Hunder) in Hx. repeat case_decide; naive_solver. }
  { intros k i c. apply Hdown. }
  { intros k [Hk Hu]%Hunder. apply (unconfirmed_under _ _ kv k T Hok Hk Hu). by rewrite (confirmed_lookup _ _ _ Hkv). }
  rewrite (process_marks f _ m' Hm'). pose proof (run_ops_shape _ _ _ Hm') as Hs.
  pose proof (invalid_marks _ _ _ S T Hok Hunder m' Hm') as Hmk.
  exists (with_infos m' f). split; [done|]. split; [|split_and!; try done].
  - split; cbn.
    + by eapply tree_ok_shape.
    + by eapply (invalid_nodes_ok (fork_infos f) (root f) kv S).
    + intros k i' Hi'. destruct (same_shape_lookup _ _ k i' Hs Hi') as (i & Hi & _).
      rewrite (mark_at _ _ _ (MarkInvalid kv.1) S T I Hunder m' Hm' k i i' Hi Hi'). by apply Hat.
    + destruct Hr as (i & Hi & Hli). destruct (same_shape_lookup _ _ _ i (same_shape_sym _ _ Hs) Hi) as (i' & Hi' & _).
      exists i'. split; [done|]. destruct (Hmk _ _ Hi' _ Hi) as [_ ->]. rewrite decide_False; [done|].
      intros [_ Hu]%Hunder. apply Hne. apply (under_antisym _ _ T); [done|]. apply (root_under _ _ T). eauto.
  - cbn. intros k i i' Hi Hi'. destruct (Hmk _ _ Hi' _ Hi) as [-> ->]. rewrite <-HS. split_and!; [done|..]; by case_decide.
Qed.

Lemma mark_fork_valid_candidate_ok f kv :
  fc_ok ES sched f → is_Some (fork_infos f !! kv) →
  ∃ f', mark_fork_valid_candidate kv f =
          (f', Ok (filter (λ k, confirmed_at (fork_infos f) k = false) (kv :: ancestor_iterator (fork_infos f) kv))) ∧
    fc_ok ES sched f' ∧ root f' = root f ∧ latest_votes f' = latest_votes f ∧
    same_shape (fork_infos f) (fork_infos f') ∧
    (∀ k i i', fork_infos f !! k = Some i → fork_infos f' !! k = Some i' → kv ≠ SlotHashKey_default →
       (under (fork_infos f) k kv → is_duplicate_confirmed i' = true ∧ latest_invalid_ancestor i' = None) ∧
       (¬ under (fork_infos f) k kv → is_duplicate_confirmed i' = is_duplicate_confirmed i ∧
          (reached (fork_infos f) kv k → latest_invalid_ancestor i' = cleared kv.1 (latest_invalid_ancestor i)) ∧
          (¬ reached (fork_infos f) kv k → latest_invalid_ancestor i' = latest_invalid_ancestor i))).
Proof.
  intros [T Hok Hat Hr] Hkv. unfold mark_fork_valid_candidate, mbind, st_bind, get, lift.
  rewrite newly_confirmed_spec.
  2: { intros k Hk. apply (under_in _ _ T k kv Hkv). by apply elem_of_cons in Hk as [->|?]; [left|right]. }
  destruct (reached_nodes (E:=Empty_set) (fork_infos f) (root f) kv T Hkv) as (S & -> & HS).
  pose proof (reached_under _ _ _ HS) as Hunder. pose proof (reached_down _ _ _ _ T HS) as Hdown.
  pose proof (reached_up _ _ _ _ T HS) as Hup.
  fold (mark_ops (fork_infos f) kv (MarkValid kv.1) S).
  destruct (run_ops_total (E:=Empty_set) (fork_infos f) (root f)
    (into_iter_rev (mark_ops (fork_infos f) kv (MarkValid kv.1) S)) (λ _, False) T) as [m' Hm'].
  { intros [[k l] op] s Hx%into_iter_rev_elem Hop. cbn in *. subst op.
    rewrite (mark_ops_lookup _ _ _ (MarkValid kv.1) S T I Hunder) in Hx. repeat case_decide; naive_solver. }
  { auto. }
  { done. }
  { done. }
  rewrite (process_marks f _ m' Hm'). pose proof (run_ops_shape _ _ _ Hm') as Hs.
  pose proof (valid_marks _ _ _ S T Hok Hunder Hdown Hup m' Hm') as Hmk.
  exists (with_infos m' f). split; [done|]. split; [|split_and!; try done].
  - split; cbn.
    + by eapply tree_ok_shape.
    + by eapply (valid_nodes_ok (fork_infos f) (root f) kv S).
    + intros k i' Hi'. destruct (same_shape_lookup _ _ k i' Hs Hi') as (i & Hi & _).
      rewrite (mark_at _ _ _ (MarkValid kv.1) S T I Hunder m' Hm' k i i' Hi Hi'). by apply Hat.
    + destruct Hr as (i & Hi & Hli). destruct (same_shape_lookup _ _ _ i (same_shape_sym _ _ Hs) Hi) as (i' & Hi' & _).
      exists i'. split; [done|]. destruct (Hmk _ _ Hi' _ Hi) as [_ ->]. rewrite Hli. by repeat case_decide.
  - cbn. intros k i i' Hi Hi' Hd. destruct (Hmk _ _ Hi' _ Hi) as [-> ->].
    assert (Hcf : confirms (fork_infos f) kv S k ↔ under (fork_infos f) k kv).
    { unfold confirms. rewrite HS. unfold reached. split; [tauto|]. intros ?. split_and!; try done. by left. }
    split; intros Hu.
    + rewrite bool_decide_eq_true_2, orb_true_r, decide_True by (by apply Hcf). done.
    + rewrite bool_decide_eq_false_2, orb_false_r, decide_False by (by rewrite Hcf). rewrite <-HS.
      split_and!; [done|..]; by case_decide.
Qed.

Lemma fork_choice_new_ok r : 0 <= r.1 → fc_ok ES sched (fork_choice_new r).
Proof.
  intros Hr. assert (Hnew : fork_choice_new r = mkForkChoice {[r := leaf_info r None None]} ∅ r) by done.
  rewrite Hnew. split; cbn.
  - split.
    + exists (leaf_info r None None). split; [apply lookup_singleton_eq|done].
    + by intros k i [<- <-]%lookup_singleton_Some.
    + by intros k i p [<- <-]%lookup_singleton_Some.
    + by intros k i c [<- <-]%lookup_singleton_Some ?%elem_of_nil.
    + intros k i [<- <-]%lookup_singleton_Some. constructor.
    + by intros k i p [<- <-]%lookup_singleton_Some.
    + by intros k i [<- <-]%lookup_singleton_Some.
  - intros k i [<- <-]%lookup_singleton_Some. split; cbn; [done|done| | |].
    + intros _. left. split; [|done]. by intros c ?%elem_of_nil.
    + split; [by left|]. rewrite lookup_singleton_eq. eauto.
    + split; [done|]. by intros c j ?%elem_of_nil.
  - intros k i [<- <-]%lookup_singleton_Some. done.
  - exists (leaf_info r None None). split; [apply lookup_singleton_eq|done].
Qed.
End operations.

(** ** The GHOST rule *)

Section ghost.
Context (ES : gmap Epoch (gmap Pubkey Z)) (sched : EpochSchedule).
Implicit Types (lv : gmap Pubkey (Z * Z)).

(** The stake whose latest vote is for the key or a descendant. *)
Definition stake_on m lv k : Z := vsum ES sched (under m k) lv.
Definition all_votes lv : Z := vsum ES sched (λ _, True) lv.

(** From a key, follow the valid child with the most votes, the smaller key
    among equals, to a node with no valid child. *)
Inductive ghost m lv : Z * Z → Z * Z → Prop :=
  | ghost_leaf k i : m !! k = Some i → (∀ c, c ∈ children i → ¬ cand m c) → ghost m lv k k
  | ghost_child k i c b :
      m !! k = Some i → heaviest (stake_on m lv) m (children i) c → ghost m lv c b → ghost m lv k b.

Lemma heaviest_unique w m cs c c' : heaviest w m cs c → heaviest w m cs c' → c = c'.
Proof.
  intros (Hc & Hcc & Hm) (Hc' & Hcc' & Hm'). destruct (Hm c' Hc' Hcc') as [?|[? H1]], (Hm' c Hc Hcc) as [?|[? H2]]; try lia.
  destruct c as [x y], c' as [x' y']. unfold key_ltb in *. cbn in *.
  apply orb_false_iff in H1 as [? H1], H2 as [? H2]. apply andb_false_iff in H1, H2. bool_prop.
  assert (x = x') by lia. subst x'. f_equal. destruct H1 as [?|?], H2 as [?|?]; bool_prop; lia.
Qed.

Lemma ghost_unique m lv k b b' : ghost m lv k b → ghost m lv k b' → b = b'.
Proof.
  intros H. revert b'. induction H as [k i Hi Hno|k i c b Hi Hh _ IH]; intros b' H'; inversion H' as [? i' Hi'|? i' c' ? Hi' Hh']; subst.
  - done.
  - rewrite Hi in Hi'. injection Hi' as <-. destruct Hh' as (Hin & Hc & _). by apply Hno in Hin.
  - rewrite Hi in Hi'. injection Hi' as <-. destruct Hh as (Hin & Hc & _). naive_solver.
  - rewrite Hi in Hi'. injection Hi' as <-. rewrite <-(heaviest_unique _ _ _ _ _ Hh Hh') in *. by apply IH.
Qed.

Lemma ghost_cand m lv k b : ghost m lv k b → cand m k → cand m b.
Proof. induction 1 as [|k i c b _ (_ & Hc & _) _ IH]; auto. Qed.

(** *** The recorded stake of a fork *)

Lemma one_child (P : Z * Z → Prop) `{!∀ c, Decision (P c)} (s : Z) cs :
  NoDup cs → (∀ c c', c ∈ cs → c' ∈ cs → P c → P c' → c = c') →
  sum_with (λ c, if decide (P c) then s else 0) cs = if decide (Exists P cs) then s else 0.
Proof.
  induction cs as [|c cs IH]; intros Hn Hu.
  { rewrite decide_False; [done|]. intros H'. inversion H'. }
  apply NoDup_cons in Hn as [Hc Hn]. unfold sum_with in *. cbn [foldr]. rewrite IH; [|done|].
  2: { intros a b Ha Hb. apply Hu; by right. }
  pose proof (Exists_cons P c cs) as He. destruct (decide (P c)) as [HP|HP].
  - rewrite (decide_True (P := Exists P (c :: cs))) by tauto. rewrite decide_False; [lia|].
    intros (a & Ha & HPa)%Exists_exists. apply Hc.
    rewrite (Hu c a); [done|by left|by right|done..].
  - repeat case_decide; try lia; tauto.
Qed.

Lemma sum_with_plus (w w' : Z * Z → Z) cs : sum_with (λ c, w c + w' c) cs = sum_with w cs + sum_with w' cs.
Proof. unfold sum_with. induction cs as [|c cs IH]; cbn; lia. Qed.

Lemma stake_on_children m r lv k i :
  tree_ok m r → m !! k = Some i →
  stake_on m lv k = votes_at ES sched lv k + sum_with (stake_on m lv) (children i).
Proof.
  intros T Hi. unfold stake_on, votes_at. induction lv as [|pk v lv Hpk Hfr IH] using map_first_key_ind.
  { rewrite (sum_weight_ext _ (λ _, 0)) by (intros; unfold vsum; by rewrite map_fold_empty).
    unfold vsum. rewrite !map_fold_empty. unfold sum_with. induction (children i); cbn; lia. }
  rewrite !vsum_insert_new by done. rewrite IH. set (s := stake_update ES sched pk v.1).
  rewrite (sum_weight_ext (λ c, vsum ES sched (under m c) (<[pk := v]> lv))
    (λ c, (if decide (under m c v) then s else 0) + vsum ES sched (under m c) lv)) by (intros; by rewrite vsum_insert_new).
  rewrite sum_with_plus, (one_child (λ c, under m c v)).
  2: { by eapply t_nodup. }
  2: { intros c c' Hc Hc'. by apply (siblings_disjoint m r T k i). }
  assert (Hv : (if decide (under m k v) then s else 0) =
    (if decide (v = k) then s else 0) + (if decide (Exists (λ c, under m c v) (children i)) then s else 0)).
  { pose proof (under_child m r T k i v Hi) as Hu. pose proof (Exists_exists (λ c, under m c v) (children i)) as He.
    rewrite <-He in Hu. repeat case_decide; try lia; try tauto.
    subst v. apply He in H1 as (c & Hc & Hcu). by apply (child_not_under m r T k i c) in Hcu. }
  rewrite Hv. lia.
Qed.

Lemma recorded_weight f k i :
  fc_ok ES sched f → fork_infos f !! k = Some i →
  stake_voted_subtree i = wrap64 (stake_on (fork_infos f) (latest_votes f) k).
Proof.
  intros [T Hok Hat _]. revert k i. apply (tree_ind_infos (fork_infos f) (root f) T
    (λ k i, stake_voted_subtree i = wrap64 (stake_on (fork_infos f) (latest_votes f) k))).
  intros k i Hi IH. rewrite (stake_on_children _ _ _ k i T Hi), (n_subtree _ _ _ (Hok k i Hi)), (Hat k i Hi).
  rewrite wrap64_add_wrap_l. rewrite (Z.add_comm (votes_at _ _ _ _)), (Z.add_comm (votes_at _ _ _ _)).
  assert (Hsum : ∀ cs, (∀ c, c ∈ cs → c ∈ children i) → ∀ n,
    wrap64 (n + sum_with (weight (fork_infos f)) cs) = wrap64 (n + sum_with (stake_on (fork_infos f) (latest_votes f)) cs)).
  { induction cs as [|c cs IHc]; intros Hin n; [done|]. unfold sum_with in *. cbn.
    destruct (t_child _ _ T k i c Hi (Hin c ltac:(by left))) as (j & Hj & _).
    rewrite (weight_lookup _ _ _ Hj), (IH c j (Hin c ltac:(by left)) Hj), !Z.add_assoc.
    rewrite IHc by (intros; apply Hin; by right). rewrite (Z.add_comm n), <-Z.add_assoc, wrap64_add_wrap_l. f_equal. lia. }
  rewrite Z.add_comm, (Z.add_comm (sum_with (stake_on _ _) _)). by apply Hsum.
Qed.

Context (stake_nonneg : ∀ pk slot, 0 <= stake_update ES sched pk slot).

Lemma vsum_bounds (P : Z * Z → Prop) `{!∀ k, Decision (P k)} lv : 0 <= vsum ES sched P lv <= all_votes lv.
Proof.
  unfold all_votes. induction lv as [|pk v lv Hpk Hfr IH] using map_first_key_ind.
  { unfold vsum. rewrite !map_fold_empty. lia. }
  rewrite !vsum_insert_new by done. rewrite (decide_True (P := True)) by done.
  pose proof (stake_nonneg pk v.1). case_decide; lia.
Qed.

(** The best slot of every valid node is the GHOST slot from it. *)
Lemma best_slot_ghost f k i :
  fc_ok ES sched f → all_votes (latest_votes f) <= u64_max → fork_infos f !! k = Some i →
  latest_invalid_ancestor i = None → ghost (fork_infos f) (latest_votes f) k (best_slot i).
Proof.
  intros Hf Hmax. pose proof (ok_tree _ _ _ Hf) as T. revert k i.
  apply (tree_ind_infos (fork_infos f) (root f) T (λ k i, latest_invalid_ancestor i = None →
    ghost (fork_infos f) (latest_votes f) k (best_slot i))). intros k i Hi IH Hv.
  assert (Hw : ∀ c, c ∈ children i → weight (fork_infos f) c = stake_on (fork_infos f) (latest_votes f) c).
  { intros c Hc. destruct (t_child _ _ T k i c Hi Hc) as (j & Hj & _).
    rewrite (weight_lookup _ _ _ Hj), (recorded_weight f c j Hf Hj). apply wrap64_id.
    pose proof (vsum_bounds (under (fork_infos f) c) (latest_votes f)). unfold stake_on, is_u64. lia. }
  destruct (n_best _ _ _ (ok_nodes _ _ _ Hf k i Hi) Hv) as [[Hno ->]|(c & (Hin & (j & Hj & Hjv) & Hm) & Hb)].
  - by eapply ghost_leaf.
  - eapply (ghost_child _ _ k i c); [done| |].
    + split_and!; [done|by exists j|]. intros c' Hc'. rewrite <-!Hw by done. by apply Hm.
    + unfold fc_best_slot in Hb. rewrite Hj in Hb. injection Hb as <-. by apply IH.
Qed.
End ghost.

(** ** The fork choice in use *)

(** The calls that change it. *)
Inductive call : Type :=
  | NewLeaf (k p : Z * Z)
  | NewVotes (votes : list (Pubkey * (Z * Z)))
  | NewRoot (k : Z * Z)
  | NewRootParent (k : Z * Z)
  | MarkedInvalid (k : Z * Z)
  | MarkedValid (k : Z * Z)
  | NewStakes (ES : gmap Epoch (gmap Pubkey Z)).

Record world : Type := mkWorld {
  stakes : gmap Epoch (gmap Pubkey Z);
  choice : HeaviestSubtreeForkChoice;
}.

#[export] Instance cand_dec m k : Decision (cand m k).
Proof.
  refine (cast_if (decide (is_Some (m !! k) ∧ fc_latest_invalid_ancestor m k = None))); unfold cand, fc_latest_invalid_ancestor in *.
  - destruct a as [[i Hi] Hl]. exists i. by rewrite Hi in *.
  - intros (i & Hi & Hl). apply n. rewrite Hi. eauto.
Defined.

(** ** Batches of votes

    Votes below the root are ignored.  Of the others, a validator may have one
    in a batch: the second is a panic. *)

Definition live f (votes : list (Pubkey * (Z * Z))) : list (Pubkey * (Z * Z)) := filter (λ v, (root f).1 <= v.2.1) votes.

Lemma generate_loop_live ES sched votes obs ops f :
  generate_loop ES sched votes obs ops f = generate_loop ES sched (live f votes) obs ops f.
Proof.
  revert obs ops f. induction votes as [|[pk v] votes IH]; intros obs ops f; [done|].
  unfold live. rewrite filter_cons. cbn [snd]. cbn [generate_loop]. unfold mbind, st_bind, get.
  destruct (Z.ltb_spec v.1 (root f).1) as [Hlt|Hge]; case_decide; [lia|apply IH| |lia].
  cbn [generate_loop]. unfold mbind, st_bind, get. rewrite (proj2 (Z.ltb_ge _ _) Hge). unfold assert_.
  case_bool_decide; [|done]. unfold mret, st_ret. destruct (is_outdated _ v); [apply IH|]. unfold modify, lift.
  set (f1 := fork_choice.with_votes _ f). change (filter _ votes) with (live f1 votes).
  destruct (match latest_votes f !! pk with Some _ => _ | None => _ end) as [f2 [ops1|[]|]] eqn:Hm; [|done].
  assert (f2 = f1) as -> by (destruct (latest_votes f !! pk); [destruct (retract_vote _ _ _ _ _ _ _)|]; by injection Hm).
  destruct (upsert_stake _ _ _ ops1) as [ops2|[]|]; [|done]. apply IH.
Qed.

Lemma add_votes_live ES sched votes f : add_votes ES sched votes f = add_votes ES sched (live f votes) f.
Proof. unfold add_votes, generate_update_operations, mbind, st_bind. by rewrite generate_loop_live. Qed.

Lemma generate_loop_twice ES sched votes obs ops f :
  Forall (λ v, (root f).1 <= v.2.1) votes → ¬ NoDup votes.*1 ∨ (∃ pk, pk ∈ votes.*1 ∧ is_Some (obs !! pk)) →
  ∃ f', generate_loop ES sched votes obs ops f = (f', Panic).
Proof.
  revert obs ops f. induction votes as [|[pk v] votes IH]; intros obs ops f HF Hd.
  { destruct Hd as [Hd|(pk & Hpk%not_elem_of_nil & _)]; [|done]. destruct Hd. apply NoDup_nil_2. }
  apply Forall_cons in HF as [Hv HF]. cbn in Hv. cbn [generate_loop]. unfold mbind, st_bind, get.
  rewrite (proj2 (Z.ltb_ge _ _) Hv). unfold assert_. case_bool_decide as Ho; [|eauto]. unfold mret, st_ret.
  assert (Hd' : ¬ NoDup votes.*1 ∨ ∃ q, q ∈ votes.*1 ∧ is_Some (<[pk := v.1]> obs !! q)).
  { destruct (decide (pk ∈ votes.*1)) as [Hin|Hin]; [right; exists pk; split; [done|]; rewrite lookup_insert_eq; eauto|].
    destruct Hd as [Hd|(q & [->|Hq]%elem_of_cons & Hobs)].
    - left. intros Hn. apply Hd. by constructor.
    - cbn in Hobs. rewrite Ho in Hobs. by destruct Hobs.
    - right. exists q. split; [done|]. rewrite lookup_insert_ne; [done|]. by intros ->. }
  destruct (is_outdated _ v); [by apply IH|]. unfold modify, lift. set (f1 := fork_choice.with_votes _ f).
  destruct (match latest_votes f !! pk with Some _ => _ | None => _ end) as [f2 [ops1|[]|]] eqn:Hm; [|eauto].
  assert (f2 = f1) as -> by (destruct (latest_votes f !! pk); [destruct (retract_vote _ _ _ _ _ _ _)|]; by injection Hm).
  destruct (upsert_stake _ _ _ ops1) as [ops2|[]|]; [|eauto]. by apply IH.
Qed.

Lemma add_votes_twice ES sched votes f :
  ¬ NoDup (live f votes).*1 → ∃ f', add_votes ES sched votes f = (f', Panic).
Proof.
  intros Hd. rewrite add_votes_live. unfold add_votes, generate_update_operations, mbind, st_bind.
  destruct (generate_loop_twice ES sched (live f votes) ∅ ∅ f) as [f' ->]; [|by left|eauto].
  apply Forall_forall. intros v [Hv _]%list_elem_of_filter. done.
Qed.

Section in_use.
Context (sched : EpochSchedule).

Definition stakes_ok (ES : gmap Epoch (gmap Pubkey Z)) : Prop := map_Forall (λ _, map_Forall (λ _ s, 0 <= s)) ES.
Definition not_voted k f : Prop := map_Forall (λ _ v, v ≠ k) (latest_votes f).

(** What the callers see to: the parent of a new slot is known and older; a
    slot is added before votes for it are counted; a validator has one vote
    that counts in a batch; the new root is a valid slot; only slots after the root that are not
    duplicate confirmed are marked invalid; the stakes of an epoch are fixed. *)
Definition pre (w : world) (c : call) : Prop :=
  let f := choice w in
  match c with
  | NewLeaf k p => is_Some (fork_infos f !! p) ∧ p.1 < k.1 ∧ not_voted k f
  | NewVotes votes => NoDup (live f votes).*1
  | NewRoot k => cand (fork_infos f) k
  | NewRootParent k => 0 <= k.1 ∧ k.1 < (root f).1 ∧ fork_infos f !! k = None ∧ not_voted k f
  | MarkedInvalid k => k ≠ root f ∧ confirmed_at (fork_infos f) k = false
  | MarkedValid k => is_Some (fork_infos f !! k)
  | NewStakes ES => stakes_ok ES ∧
      map_Forall (λ pk v, stake_update ES sched pk v.1 = stake_update (stakes w) sched pk v.1) (latest_votes f)
  end.
#[export] Instance pre_dec w (x : call) : Decision (pre w x).
Proof. unfold pre, stakes_ok, not_voted, live. destruct x; apply _. Defined.

Definition done_ {A} (ES : gmap Epoch (gmap Pubkey Z)) (x : HeaviestSubtreeForkChoice * res Empty_set A)
    : world * res Empty_set unit :=
  (mkWorld ES x.1, match x.2 with Ok _ => Ok tt | Err e => Err e | Panic => Panic end).

Definition exec (c : call) (w : world) : world * res Empty_set unit :=
  let f := choice w in
  match c with
  | NewLeaf k p => done_ (stakes w) (add_new_leaf_slot k (Some p) f)
  | NewVotes votes => done_ (stakes w) (add_votes (stakes w) sched votes f)
  | NewRoot k => done_ (stakes w) (set_root k f)
  | NewRootParent k => done_ (stakes w) (add_root_parent k f)
  | MarkedInvalid k => done_ (stakes w) (mark_fork_invalid_candidate k f)
  | MarkedValid k => done_ (stakes w) (mark_fork_valid_candidate k f)
  | NewStakes ES => (mkWorld ES f, Ok tt)
  end.

Inductive reachable : world → Prop :=
  | reach_new ES r : stakes_ok ES → 0 <= r.1 → reachable (mkWorld ES (fork_choice_new r))
  | reach_call w (c : call) w' : reachable w → pre w c → exec c w = (w', Ok tt) → reachable w'.

Definition world_ok (w : world) : Prop := stakes_ok (stakes w) ∧ fc_ok (stakes w) sched (choice w).

Lemma stakes_ok_nonneg ES pk slot : stakes_ok ES → 0 <= stake_update ES sched pk slot.
Proof.
  intros Hs. unfold stake_update, vote_account_stake. destruct (ES !! _) as [e|] eqn:He; cbn; [|done].
  destruct (e !! pk) as [s|] eqn:Hp; cbn; [|done]. exact (Hs _ _ He _ _ Hp).
Qed.

Lemma vsum_ext ES ES' (P : Z * Z → Prop) `{!∀ k, Decision (P k)} lv :
  map_Forall (λ pk v, stake_update ES' sched pk v.1 = stake_update ES sched pk v.1) lv →
  vsum ES' sched P lv = vsum ES sched P lv.
Proof.
  induction lv as [|pk v lv Hpk Hfr IH] using map_first_key_ind; intros Hs; [by unfold vsum; rewrite !map_fold_empty|].
  apply map_Forall_insert in Hs as [Hv Hs]; [|done]. by rewrite !vsum_insert_new, IH, Hv by done.
Qed.

Lemma not_voted_Some k f : not_voted k f → ∀ pk, latest_votes f !! pk ≠ Some k.
Proof. intros Hn pk Hk. by apply (Hn pk k Hk). Qed.

Lemma exec_ok w (c : call) : world_ok w → pre w c → ∃ w', exec c w = (w', Ok tt) ∧ world_ok w'.
Proof.
  destruct w as [ES f]. intros [Hs Hf] Hp. unfold exec, done_, world_ok. cbn [stakes choice] in *.
  pose proof (λ pk slot, stakes_ok_nonneg ES pk slot Hs) as Hnn. destruct c as [k p|votes|k|k|k|k|ES']; cbn in Hp.
  - destruct Hp as (Hp & Hlt & Hn). destruct (add_new_leaf_slot_ok ES sched f k p Hf Hp Hlt (not_voted_Some _ _ Hn)) as (f' & -> & Hf' & _).
    eexists. split; [reflexivity|]. by split.
  - rewrite add_votes_live. destruct (add_votes_ok ES sched Hnn f (live f votes) Hf Hp) as (f' & b & -> & Hf' & _). eexists. split; [reflexivity|]. by split.
  - destruct (set_root_ok ES sched f k Hf Hp) as (f' & -> & Hf' & _). eexists. split; [reflexivity|]. by split.
  - destruct Hp as (H1 & H2 & H3 & H4).
    destruct (add_root_parent_ok ES sched f k Hf H1 H2 H3 (not_voted_Some _ _ H4)) as (f' & -> & Hf' & _).
    eexists. split; [reflexivity|]. by split.
  - destruct Hp as [H1 H2]. destruct (mark_fork_invalid_candidate_ok ES sched f k Hf H1 H2) as (f' & -> & Hf' & _).
    eexists. split; [reflexivity|]. by split.
  - destruct (mark_fork_valid_candidate_ok ES sched f k Hf Hp) as (f' & -> & Hf' & _). eexists. split; [reflexivity|]. by split.
  - destruct Hp as [H1 H2]. eexists. split; [reflexivity|]. split; [done|]. cbn.
    destruct Hf as [T Hok Hat Hr]. split; [done..| |done]. intros k i Hi. rewrite (Hat k i Hi). f_equal. symmetry. by apply vsum_ext.
Qed.

Lemma reachable_ok w : reachable w → world_ok w.
Proof.
  induction 1 as [ES r Hs Hr|w c w' _ IH Hp He]; [split; [done|by apply fork_choice_new_ok]|].
  destruct (exec_ok w c IH Hp) as (w1 & H1 & H2). by rewrite He in H1; injection H1 as <-.
Qed.

(** Below the ancestors of a valid slot everything stays reachable for it. *)
Lemma cand_up m r a k : tree_ok m r → nodes_ok m → under m a k → cand m k → cand m a.
Proof.
  intros T Hok. revert k. apply (tree_ind_up m r T (λ k, under m a k → cand m k → cand m a)).
  intros k IH [->|(p & Hp & Hu)]%(under_eq m r T); [done|]. intros (i & Hi & Hl). apply (IH p Hp Hu).
  pose proof Hp as (i' & Hi' & Hpi)%fc_parent_Some. rewrite Hi in Hi'. injection Hi' as <-.
  destruct (t_parent _ _ T k i p Hi Hpi) as (j & Hj & Hin). exists j. split; [done|].
  destruct (latest_invalid_ancestor j) as [x|] eqn:Hx; [|done]. destruct (n_marks _ _ _ (Hok p j Hj)) as [_ Hc].
  destruct (Hc k i Hin Hi) as [Hci _]. destruct (Hci x Hx) as (y & ? & _). congruence.
Qed.

Lemma vsum_iff ES (P Q : Z * Z → Prop) `{!∀ k, Decision (P k), !∀ k, Decision (Q k)} lv :
  (∀ k, P k ↔ Q k) → vsum ES sched P lv = vsum ES sched Q lv.
Proof.
  intros HPQ. unfold vsum. induction lv as [|pk v lv Hpk Hfr IH] using map_first_key_ind; [by rewrite !map_fold_empty|].
  pose proof (HPQ v). fold (vsum ES sched P (<[pk:=v]> lv)) (vsum ES sched Q (<[pk:=v]> lv)).
  rewrite !vsum_insert_new by done. unfold vsum. rewrite IH. repeat case_decide; tauto || lia.
Qed.

Lemma ghost_same ES m m' r lv k b :
  tree_ok m r → same_shape m m' → (∀ c, cand m' c ↔ cand m c) → ghost ES sched m lv k b → ghost ES sched m' lv k b.
Proof.
  intros T Hs Hc. induction 1 as [k i Hi Hno|k i c b Hi (Hin & Hcc & Hm) _ IH];
    destruct (same_shape_lookup m' m k i (same_shape_sym _ _ Hs) Hi) as (i' & Hi' & [= _ Hch]).
  - eapply ghost_leaf; [done|]. rewrite Hch. intros c Hcin Hcc%Hc. by apply (Hno c).
  - assert (Hw : ∀ x, stake_on ES sched m' lv x = stake_on ES sched m lv x).
    { intros x. apply vsum_iff. intros y. symmetry. by apply (under_shape m m' r T). }
    eapply ghost_child; [done| |done]. rewrite Hch. split_and!; [done|by apply Hc|].
    intros c' Hc' Hcc'%Hc. rewrite !Hw. by apply Hm.
Qed.

(** The slot recommended. *)
Lemma best_overall_ghost w :
  reachable w → all_votes (stakes w) sched (latest_votes (choice w)) <= u64_max →
  ∃ b, best_overall_slot (choice w) = (choice w, Ok b) ∧
    ghost (stakes w) sched (fork_infos (choice w)) (latest_votes (choice w)) (root (choice w)) b ∧
    cand (fork_infos (choice w)) b.
Proof.
  intros [Hs Hf]%reachable_ok Hmax. destruct (best_overall_slot_ok _ _ _ Hf) as (i & Hi & Hb).
  destruct (ok_root _ _ _ Hf) as (i' & Hi' & Hl). pose proof Hi' as Hi2. rewrite Hi in Hi2. injection Hi2 as <-.
  assert (Hg : ghost (stakes w) sched (fork_infos (choice w)) (latest_votes (choice w)) (root (choice w)) (best_slot i)).
  { apply best_slot_ghost; [|done..]. intros. by apply stakes_ok_nonneg. }
  exists (best_slot i). split_and!; [done..|]. eapply ghost_cand; [done|apply (ok_root _ _ _ Hf)].
Qed.

Lemma marked_twice f kv ES :
  fc_ok ES sched f → kv ≠ root f → confirmed_at (fork_infos f) kv = false → is_Some (fork_infos f !! kv) →
  kv ≠ SlotHashKey_default → (∀ k, reached (fork_infos f) kv k → cand (fork_infos f) k) →
  ∃ f1 f2 l, mark_fork_invalid_candidate kv f = (f1, Ok tt) ∧ mark_fork_valid_candidate kv f1 = (f2, Ok l) ∧
    root f2 = root f ∧ latest_votes f2 = latest_votes f ∧ same_shape (fork_infos f) (fork_infos f2) ∧
    (∀ k, cand (fork_infos f2) k ↔ cand (fork_infos f) k).
Proof.
  intros Hf Hne Hun Hkv Hd Hcand. pose proof (ok_tree _ _ _ Hf) as T.
  destruct (mark_fork_invalid_candidate_ok ES sched f kv Hf Hne Hun) as (f1 & Hf1 & Hok1 & Hr1 & Hl1 & Hs1 & Hm1).
  assert (Hkv1 : is_Some (fork_infos f1 !! kv)).
  { destruct Hkv as [i Hi]. destruct (same_shape_lookup _ _ kv i (same_shape_sym _ _ Hs1) Hi) as (? & ? & _). eauto. }
  destruct (mark_fork_valid_candidate_ok ES sched f1 kv Hok1 Hkv1) as (f2 & Hf2 & Hok2 & Hr2 & Hl2 & Hs2 & Hm2).
  assert (Hs : same_shape (fork_infos f) (fork_infos f2)) by (unfold same_shape in *; congruence).
  exists f1, f2. eexists. split_and!; [done..|congruence|congruence|done|].
  assert (Heq : ∀ k i i2, fork_infos f !! k = Some i → fork_infos f2 !! k = Some i2 →
    latest_invalid_ancestor i2 = latest_invalid_ancestor i).
  { intros k i i2 Hi Hi2. destruct (same_shape_lookup _ _ k i (same_shape_sym _ _ Hs1) Hi) as (i1 & Hi1 & _).
    destruct (Hm1 k i i1 Hi Hi1) as (_ & Hin & Hout). destruct (Hm2 k i1 i2 Hi1 Hi2 Hd) as [Hup Hrest].
    pose proof (under_shape _ _ _ T Hs1) as Hus. destruct (decide (under (fork_infos f) k kv)) as [Hu|Hu].
    - destruct (Hup ltac:(by apply Hus)) as [_ ->].
      destruct (cand_up _ _ k kv T (ok_nodes _ _ _ Hf) Hu) as (i' & Hi' & Hl); [|congruence].
      apply Hcand. split_and!; [done|by left|done].
    - destruct (Hrest ltac:(by rewrite <-Hus)) as (_ & Hin2 & Hout2).
      destruct (decide (under (fork_infos f) kv k)) as [Hk|Hk].
      + assert (Hre : reached (fork_infos f) kv k) by (split_and!; eauto). rewrite Hin2, Hin by (done || (split_and!; [eauto|by apply Hus|done])).
        destruct (Hcand k Hre) as (i' & Hi' & Hl). rewrite Hi in Hi'. injection Hi' as <-. rewrite Hl. cbn. by rewrite Z.leb_refl.
      + rewrite Hout2, Hout; [done|by intros (_ & ? & _)|]. intros (_ & Hx & _). apply Hk. by apply Hus. }
  intros k. unfold cand. split; intros (i & Hi & Hl).
  - destruct (same_shape_lookup _ _ k i Hs Hi) as (j & Hj & _). exists j. split; [done|]. by rewrite <-(Heq k j i).
  - destruct (same_shape_lookup _ _ k i (same_shape_sym _ _ Hs) Hi) as (j & Hj & _). exists j. split; [done|]. by rewrite (Heq k i j).
Qed.

(** C36. When the fork choice panics.  From a fresh tree, after any sequence
    of calls that returned: counting a batch of votes panics if, and only if,
    one validator has two votes in it that are not below the root (the batches
    the replay stage makes can have two, see [two_versions_panic]).  Every other
    call returns, provided that a new slot has a known older parent, that no
    vote was counted for it before, that a new root is a known slot on no fork
    marked invalid, that a parent given to the root is older and unknown, that a
    slot marked invalid is neither the root nor duplicate confirmed, that a slot
    marked valid is known, and that new stakes agree with the old ones on the
    votes counted. *)
Theorem fork_choice_outcomes w (c : call) :
  reachable w →
  match c with
  | NewVotes votes =>
      (NoDup (live (choice w) votes).*1 ∧ ∃ w', exec c w = (w', Ok tt) ∧ reachable w') ∨
      (¬ NoDup (live (choice w) votes).*1 ∧ ∃ w', exec c w = (w', Panic))
  | NewLeaf k p =>
      is_Some (fork_infos (choice w) !! p) → p.1 < k.1 → not_voted k (choice w) → ∃ w', exec c w = (w', Ok tt) ∧ reachable w'
  | NewRoot k => cand (fork_infos (choice w)) k → ∃ w', exec c w = (w', Ok tt) ∧ reachable w'
  | NewRootParent k =>
      0 <= k.1 → k.1 < (root (choice w)).1 → fork_infos (choice w) !! k = None → not_voted k (choice w) →
      ∃ w', exec c w = (w', Ok tt) ∧ reachable w'
  | MarkedInvalid k =>
      k ≠ root (choice w) → confirmed_at (fork_infos (choice w)) k = false → ∃ w', exec c w = (w', Ok tt) ∧ reachable w'
  | MarkedValid k => is_Some (fork_infos (choice w) !! k) → ∃ w', exec c w = (w', Ok tt) ∧ reachable w'
  | NewStakes ES =>
      stakes_ok ES →
      map_Forall (λ pk v, stake_update ES sched pk v.1 = stake_update (stakes w) sched pk v.1) (latest_votes (choice w)) →
      ∃ w', exec c w = (w', Ok tt) ∧ reachable w'
  end.
Proof.
  intros Hw. assert (Hok : pre w c → ∃ w', exec c w = (w', Ok tt) ∧ reachable w').
  { intros Hp. destruct (exec_ok w c (reachable_ok w Hw) Hp) as (w' & He & _). exists w'. split; [done|]. by eapply reach_call. }
  destruct c as [k p|votes|k|k|k|k|ES]; [by intros; apply Hok| |by intros; apply Hok..].
  destruct (decide (NoDup (live (choice w) votes).*1)) as [Hn|Hn]; [left|right]; (split; [done|]); [by apply Hok|].
  destruct (add_votes_twice (stakes w) sched votes (choice w) Hn) as [f' Hf']. unfold exec, done_. rewrite Hf'. by eexists.
Qed.

(** C4. The fork choice refines the GHOST rule: after any sequence of calls,
    if the stakes of the latest votes sum within 64 bits, the slot it
    recommends is the one slot that starting at the root and moving to the
    valid child whose subtree has the most stake of latest votes, the smaller
    key among equals, leads to; and the slot is not on a fork marked invalid.
    The calls are those that return, on arguments as [pre] lists them. *)
Theorem fork_choice_ghost w :
  reachable w → all_votes (stakes w) sched (latest_votes (choice w)) <= u64_max →
  ∃ b, best_overall_slot (choice w) = (choice w, Ok b) ∧
    (∀ b', ghost (stakes w) sched (fork_infos (choice w)) (latest_votes (choice w)) (root (choice w)) b' ↔ b' = b) ∧
    (∀ a, under (fork_infos (choice w)) a b → cand (fork_infos (choice w)) a).
Proof.
  intros Hw Hmax. destruct (best_overall_ghost w Hw Hmax) as (b & Hb & Hg & Hc). exists b. split_and!; [done|..].
  - intros b'. split; [|by intros ->]. intros Hg'. by eapply ghost_unique.
  - intros a Hu. apply reachable_ok in Hw as [_ Hf]. by eapply (cand_up _ _ a b (ok_tree _ _ _ Hf) (ok_nodes _ _ _ Hf)).
Qed.

(** Marking a fork invalid is undone by marking it valid: if no slot of the
    fork was marked before, then after both calls the recommended slot is the
    one recommended at first, and in between it is off the fork. *)
Theorem invalid_valid_roundtrip w kv :
  reachable w → all_votes (stakes w) sched (latest_votes (choice w)) <= u64_max →
  pre w (MarkedInvalid kv) → is_Some (fork_infos (choice w) !! kv) → kv ≠ SlotHashKey_default →
  (∀ k, reached (fork_infos (choice w)) kv k → cand (fork_infos (choice w)) k) →
  ∃ f1 f2 l b b1,
    best_overall_slot (choice w) = (choice w, Ok b) ∧
    mark_fork_invalid_candidate kv (choice w) = (f1, Ok tt) ∧
    best_overall_slot f1 = (f1, Ok b1) ∧ ¬ under (fork_infos f1) kv b1 ∧
    mark_fork_valid_candidate kv f1 = (f2, Ok l) ∧
    best_overall_slot f2 = (f2, Ok b).
Proof.
  destruct w as [ES f]. intros Hw Hmax Hpre Hkv Hd Hcand. cbn [stakes choice] in *. destruct (reachable_ok _ Hw) as [_ Hf].
  pose proof Hpre as [Hne Hun]. cbn [stakes choice] in *. pose proof (ok_tree _ _ _ Hf) as T.
  destruct (marked_twice f kv ES Hf Hne Hun Hkv Hd Hcand) as (f1 & f2 & l & H1 & H2 & Hr & Hl & Hs & Hc).
  destruct (best_overall_ghost _ Hw Hmax) as (b & Hb & Hg & _). cbn [stakes choice] in *.
  assert (Hw1 : reachable (mkWorld ES f1)).
  { eapply (reach_call _ _ _ Hw Hpre). unfold exec, done_. cbn. by rewrite H1. }
  assert (Hkv1 : is_Some (fork_infos f1 !! kv) ∧ latest_votes f1 = latest_votes f ∧ ¬ cand (fork_infos f1) kv).
  { destruct (mark_fork_invalid_candidate_ok ES sched f kv Hf Hne Hun) as (f1' & H1' & _ & _ & Hl1 & Hs1 & Hm1).
    rewrite H1 in H1'. injection H1' as <-. destruct Hkv as [i Hi].
    destruct (same_shape_lookup _ _ kv i (same_shape_sym _ _ Hs1) Hi) as (i1 & Hi1 & _). split_and!; [eauto|done|].
    intros (i' & Hi' & Hl'). rewrite Hi1 in Hi'. injection Hi' as <-. destruct (Hm1 kv i i1 Hi Hi1) as (_ & Hin & _).
    rewrite Hin in Hl' by (split_and!; [eauto|by left|done]). done. }
  destruct Hkv1 as (Hkv1 & Hl1 & Hnc).
  assert (Hw2 : reachable (mkWorld ES f2)).
  { eapply (reach_call _ (MarkedValid kv) _ Hw1 Hkv1). unfold exec, done_. cbn. by rewrite H2. }
  destruct (best_overall_ghost _ Hw1) as (b1 & Hb1 & _ & Hc1); [cbn; by rewrite Hl1|].
  destruct (best_overall_ghost _ Hw2) as (b2 & Hb2 & Hg2 & _); [cbn; by rewrite Hl|]. cbn [stakes choice] in *.
  rewrite Hr, Hl in Hg2. pose proof (ghost_same ES _ _ _ _ _ _ T Hs Hc Hg) as Hg'.
  rewrite (ghost_unique _ _ _ _ _ _ _ Hg2 Hg') in Hb2. exists f1, f2, l, b, b1. split_and!; [done..| |done|done].
  intros Hu. apply Hnc. apply reachable_ok in Hw1 as [_ Hf1].
  by eapply (cand_up _ _ kv b1 (ok_tree _ _ _ Hf1) (ok_nodes _ _ _ Hf1)).
Qed.

(** A sequence of calls, each in a state that allows it. *)
Fixpoint run (calls : list call) (w : world) : option world :=
  match calls with
  | [] => Some w
  | c :: calls' =>
      if decide (pre w c) then
        match exec c w with (w', Ok _) => run calls' w' | _ => None end
      else None
  end.

Lemma run_reachable calls w w' : reachable w → run calls w = Some w' → reachable w'.
Proof.
  revert w. induction calls as [|c calls IH]; cbn; intros w Hw; [by intros [= <-]|].
  case_decide; [|done]. destruct (exec c w) as [w1 [[]|[]|]] eqn:He; [|done..]. apply IH. by eapply reach_call.
Qed.
End in_use.

(** ** A run *)

Module example.
Definition schedule : EpochSchedule := mkEpochSchedule 400 400 false 0 0.
Definition start : world := mkWorld {[0 := {[1 := 100; 2 := 50]}]} (fork_choice_new (1, 1)).
(** Two forks, one with a slot more; the validator with more stake is on the
    other; the stakes of the next epoch become known; the root moves. *)
Definition calls : list call :=
  [NewRootParent (0, 9); NewLeaf (2, 2) (1, 1); NewLeaf (3, 3) (1, 1); NewLeaf (4, 4) (3, 3);
   NewVotes [(1, (3, 3)); (2, (4, 4))]; NewVotes [(1, (4, 5))]; NewLeaf (5, 5) (2, 2);
   NewVotes [(1, (5, 5))]; NewStakes {[0 := {[1 := 100; 2 := 50]}; 1 := {[1 := 60]}]}; NewRoot (1, 1)].
Definition after : world := Eval vm_compute in default start (run schedule calls start).

Lemma after_reachable : reachable schedule after.
Proof.
  apply (run_reachable schedule calls start after); [|vm_compute; reflexivity].
  apply reach_new; [|discriminate]. unfold stakes_ok. apply (bool_decide_unpack _). vm_compute. exact I.
Qed.

Lemma fork_choice_outcomes_witness :
  (∃ w', exec schedule (MarkedInvalid (2, 2)) after = (w', Ok tt) ∧ reachable schedule w') ∧
  ∃ w', exec schedule (NewVotes [(1, (5, 5)); (1, (5, 4))]) after = (w', Panic).
Proof.
  split.
  - apply (fork_choice_outcomes schedule after (MarkedInvalid (2, 2)) after_reachable); [discriminate|vm_compute; reflexivity].
  - destruct (fork_choice_outcomes schedule after (NewVotes [(1, (5, 5)); (1, (5, 4))]) after_reachable) as [[Hn _]|[_ Hp]]; [|exact Hp].
    exfalso. revert Hn. apply (bool_decide_unpack _). vm_compute. exact I.
Defined.

Lemma fork_choice_ghost_witness :
  ∃ b, best_overall_slot (choice after) = (choice after, Ok b) ∧
    (∀ b', ghost (stakes after) schedule (fork_infos (choice after)) (latest_votes (choice after)) (root (choice after)) b' ↔ b' = b) ∧
    (∀ a, under (fork_infos (choice after)) a b → cand (fork_infos (choice after)) a).
Proof. apply (fork_choice_ghost schedule after after_reachable). vm_compute. discriminate. Defined.

Lemma invalid_valid_roundtrip_witness :
  ∃ f1 f2 l b b1,
    best_overall_slot (choice after) = (choice after, Ok b) ∧
    mark_fork_invalid_candidate (2, 2) (choice after) = (f1, Ok tt) ∧
    best_overall_slot f1 = (f1, Ok b1) ∧ ¬ under (fork_infos f1) (2, 2) b1 ∧
    mark_fork_valid_candidate (2, 2) f1 = (f2, Ok l) ∧
    best_overall_slot f2 = (f2, Ok b).
Proof.
  apply (invalid_valid_roundtrip schedule after (2, 2) after_reachable).
  - vm_compute. discriminate.
  - split; [discriminate|vm_compute; reflexivity].
  - vm_compute. eauto.
  - discriminate.
  - intros k [[i Hi] _].
    assert (Hall : map_Forall (λ k _, cand (fork_infos (choice after)) k) (fork_infos (choice after)))
      by (apply (bool_decide_unpack _); vm_compute; exact I). exact (Hall k i Hi).
Defined.
End example.

(** ** Votes for two versions of a slot *)

Section two_versions.
Implicit Types (l : LatestValidatorVotesForFrozenBanks).

(** A replayed vote for a second version of the slot a validator voted for
    last, seen after the fork choice took the votes, is reported as added but
    kept for the fork choice under slot 0, so that no later update with a root
    above 0 counts it. *)
Theorem second_version_vote_lost l pk slot h h' (new_root : Z) :
  max_replay_frozen_votes l !! pk = Some (slot, [h]) → fork_choice_dirty_set l !! pk = None → h ≠ h' → 0 < new_root →
  ∃ l' l'' votes, check_add_vote pk slot (Some h') true l = (l', Ok (true, Some slot)) ∧
    fork_choice_dirty_set l' !! pk = Some (0, [h']) ∧
    take_votes_dirty_set new_root l' = (l'', Ok votes) ∧ ∀ v, (pk, v) ∉ votes.
Proof.
  intros Hr Hd Hne Hpos. unfold check_add_vote, mbind, st_bind, get. rewrite Hr, Hd.
  rewrite Z.ltb_irrefl, Z.eqb_refl, bool_decide_eq_false_2 by (intros ?%list_elem_of_singleton; done). cbn.
  do 3 eexists. split; [reflexivity|]. cbn. split; [apply lookup_insert_eq|]. split; [reflexivity|]. cbn.
  intros v Hv. apply list_elem_of_In, in_concat in Hv as (xs & Hxs%list_elem_of_In & Hv%list_elem_of_In).
  apply list_elem_of_fmap in Hxs as ([pk' [s hs]] & -> & [Hle Hin]%list_elem_of_filter).
  apply list_elem_of_fmap in Hv as (h2 & [= -> ->] & _). apply elem_of_map_to_list in Hin.
  rewrite lookup_insert_eq in Hin. injection Hin as <- _. cbn in Hle. lia.
Qed.

Lemma take_one (g p : gmap Pubkey (Z * list Z)) pk slot hs (new_root : Z) :
  new_root <= slot →
  take_votes_dirty_set new_root (mkLatestVotes g p {[pk := (slot, hs)]}) =
  (mkLatestVotes g p ∅, Ok ((λ h, (pk, (slot, h))) <$> hs)).
Proof.
  intros Hle. unfold take_votes_dirty_set, mbind, st_bind, get, put, mret, st_ret. cbn [fork_choice_dirty_set].
  rewrite map_to_list_singleton. unfold filter, list_filter. cbn. rewrite decide_True by done. cbn. by rewrite app_nil_r.
Qed.

(** Two versions of a slot replayed before the votes are taken are handed
    to the fork choice in one batch, which panics on the second. *)
Theorem two_versions_panic ES sched f pk slot h h' :
  h ≠ h' → (root f).1 <= slot →
  ∃ l l', check_add_vote pk slot (Some h) true latest_votes_default = (l, Ok (true, Some slot)) ∧
    check_add_vote pk slot (Some h') true l = (l', Ok (true, Some slot)) ∧
    ∃ f', compute_bank_stats ES sched l' f = (f', Panic).
Proof.
  intros Hne Hle. unfold check_add_vote, mbind, st_bind, get. cbn. rewrite lookup_empty. cbn.
  do 2 eexists. split; [reflexivity|]. cbn. rewrite lookup_insert_eq, Z.ltb_irrefl, Z.eqb_refl.
  rewrite bool_decide_eq_false_2 by (intros ?%list_elem_of_singleton; done). cbn.
  unfold assert_. rewrite bool_decide_eq_false_2 by (intros ?%list_elem_of_singleton; done). cbn.
  split; [reflexivity|]. rewrite !insert_insert_eq, insert_empty.
  unfold compute_bank_stats, run_local, mbind, st_bind, get. rewrite take_one by done.
  destruct (add_votes_twice ES sched [(pk, (slot, h)); (pk, (slot, h'))] f) as [f' Hf']; [|cbn [fst snd fmap list_fmap]; rewrite Hf'; eauto].
  unfold live. rewrite !filter_cons, filter_nil. cbn [snd fst]. rewrite decide_True by done. cbn. rewrite decide_True by done. cbn.
  intros [Hin _]%NoDup_cons. apply Hin. by left.
Qed.
End two_versions.

Lemma second_version_vote_lost_witness :
  let l := mkLatestVotes ∅ {[1 := (5, [7])]} ∅ in
  ∃ l' l'' votes, check_add_vote 1 5 (Some 6) true l = (l', Ok (true, Some 5)) ∧
    fork_choice_dirty_set l' !! 1 = Some (0, [6]) ∧
    take_votes_dirty_set 2 l' = (l'', Ok votes) ∧ ∀ v, (1, v) ∉ votes.
Proof.
  apply (second_version_vote_lost (mkLatestVotes ∅ {[1 := (5, [7])]} ∅) 1 5 7 6 2); [reflexivity|reflexivity|discriminate|reflexivity].
Defined.

Lemma two_versions_panic_witness :
  ∃ l l', check_add_vote 1 5 (Some 7) true latest_votes_default = (l, Ok (true, Some 5)) ∧
    check_add_vote 1 5 (Some 6) true l = (l', Ok (true, Some 5)) ∧
    ∃ f', compute_bank_stats ∅ example.schedule l' (fork_choice_new (1, 1)) = (f', Panic).
Proof.
  apply (two_versions_panic ∅ example.schedule (fork_choice_new (1, 1)) 1 5 7 6); [discriminate|vm_compute; discriminate].
Defined.
End fork_props.
