(* ===== verification/Tower.v ===== *)
(** * The tower: when a validator may vote

    Models [core/src/consensus.rs] and what it reads of
    [core/src/progress_map.rs].  The tower is the validator's own copy of its
    lockout stack.  Before voting on a bank the validator checks that it is not
    locked out of the bank's fork, that enough stake is on the fork of an older
    vote, and, when it leaves the fork of its last vote, that enough stake is
    locked out of that fork.  After a restart the saved tower is adjusted to the
    slots the replayed bank has.

    A bank is what is read of it: its slot, its hash and the vote accounts.  The
    wall clock is an argument.  Files are their contents; file names, logging
    and metrics are left out, and so is [reconcile_blockstore_roots_with_tower],
    which works on the blockstore. *)

From S2P Require Import Prelude F64 Account Sysvar SlotHistory BTreeMap VoteState VoteProgram ForkChoice.

Module consensus.
Import vote_program fork_choice slot_history.

(** ** Decisions *)

Inductive SwitchForkDecision : Type :=
  | SwitchProof (h : Hash)
  | SameFork
  | FailedSwitchThreshold (locked_out_stake total_stake : Z)
  | FailedSwitchDuplicateRollback (s : Slot).
#[export] Instance SwitchForkDecision_eq_dec : EqDecision SwitchForkDecision.
Proof. solve_decision. Defined.

(** The instruction's data; its accounts are filled in by its builder. *)
Definition to_vote_instruction (d : SwitchForkDecision) (vote : Vote) : res Empty_set (option VoteInstruction) :=
  match d with
  | FailedSwitchThreshold _ total_stake => if total_stake =? 0 then Panic else Ok None
  | FailedSwitchDuplicateRollback _ => Ok None
  | SameFork => Ok (Some (VoteIx vote))
  | SwitchProof switch_proof_hash => Ok (Some (VoteSwitch vote switch_proof_hash))
  end.

Definition can_vote (d : SwitchForkDecision) : bool :=
  match d with
  | FailedSwitchThreshold _ _ | FailedSwitchDuplicateRollback _ => false
  | SameFork | SwitchProof _ => true
  end.

Definition VOTE_THRESHOLD_DEPTH : nat := 8.
Definition SWITCH_FORK_THRESHOLD : f64 := f64_of_ratio 38 100.
Definition VOTE_THRESHOLD_SIZE : f64 := f64_div (f64_of_Z 2) (f64_of_Z 3).

Abbreviation Ancestors := (gmap Slot (gset Slot)) (only parsing).
Abbreviation VotedStakes := (gmap Slot Z) (only parsing).
Abbreviation LockoutIntervals := (list (Slot * list (Slot * Pubkey))) (only parsing).

(** [stake as f64 / total as f64 > threshold] *)
Definition stake_above (threshold : f64) (stake total : Z) : bool :=
  f64_lt threshold (f64_div (f64_of_Z stake) (f64_of_Z total)).

(** ** What the votes in a bank say *)

Record ComputedBankState : Type := mkComputedBankState {
  voted_stakes : VotedStakes;
  total_stake : Z;
  bank_weight : Z;
  lockout_intervals : LockoutIntervals;
  my_latest_landed_vote : option Slot;
}.

Definition populate_ancestor_voted_stakes (vote_slots : list Slot) (ancestors : Ancestors)
    (stakes : VotedStakes) : VotedStakes :=
  let or_default (m : VotedStakes) (s : Slot) := <[s := default 0 (m !! s)]> m in
  foldl (λ m vote_slot,
    match ancestors !! vote_slot with
    | Some slot_ancestors => foldl or_default (or_default m vote_slot) (elements slot_ancestors)
    | None => m
    end) stakes vote_slots.

Definition update_ancestor_voted_stakes (voted_slot : Slot) (voted_stake : Z) (ancestors : Ancestors)
    (stakes : VotedStakes) : VotedStakes :=
  let add_stake (m : VotedStakes) (s : Slot) := <[s := add64 (default 0 (m !! s)) voted_stake]> m in
  match ancestors !! voted_slot with
  | Some vote_slot_ancestors => foldl add_stake (add_stake stakes voted_slot) (elements vote_slot_ancestors)
  | None => stakes
  end.

Definition push_interval (key : Pubkey) (m : LockoutIntervals) (vote : Lockout) : LockoutIntervals :=
  bt_insert (last_locked_out_slot vote)
    (default [] (bt_get (last_locked_out_slot vote) m) ++ [(slot vote, key)]) m.

Definition add128 (a b : Z) : Z := wrap128 (a + b).

(** The weight of one more vote of an account, and the slot voted on. *)
Definition weigh (voted_stake : Z) (acc : Z * gset Slot) (vote : Lockout) : Z * gset Slot :=
  (add128 acc.1 (wrap128 (lockout vote * voted_stake)), {[slot vote]} ∪ acc.2).

Definition root_vote (r : Slot) : Lockout := mkLockout r (Z.of_nat MAX_LOCKOUT_HISTORY).

Section collect.
Context (vote_account_pubkey : Pubkey) (bank_slot : Slot) (ancestors : Ancestors).
Context (get_frozen_hash : Slot → option Hash).

(** One vote account; its vote state is [None] if it does not deserialize. *)
Definition collect_account (acc : ComputedBankState * gset Slot) (x : Pubkey * (Z * option VoteState))
    : ST LatestValidatorVotesForFrozenBanks Empty_set (ComputedBankState * gset Slot) :=
  let '(c, vote_slots) := acc in
  let '(key, (voted_stake, account)) := x in
  if voted_stake =? 0 then mret acc
  else match account with
  | None => mret acc
  | Some vote_state =>
      let intervals := foldl (push_interval key) (lockout_intervals c) (votes vote_state) in
      let my_latest :=
        if bool_decide (key = vote_account_pubkey) then slot <$> nth_recent_vote vote_state 0
        else my_latest_landed_vote c in
      let start_root := root_slot vote_state in
      (match last_voted_slot vote_state with
       | Some last_landed_voted_slot =>
           check_add_vote key last_landed_voted_slot (get_frozen_hash last_landed_voted_slot) true;; mret tt
       | None => mret tt
       end);;
      let vote_state := process_slot_vote_unchecked bank_slot vote_state in
      let w := foldl (weigh voted_stake) (bank_weight c, vote_slots) (votes vote_state) in
      let w :=
        if bool_decide (start_root = root_slot vote_state) then w
        else match start_root with Some r => weigh voted_stake w (root_vote r) | None => w end in
      let w := match root_slot vote_state with Some r => weigh voted_stake w (root_vote r) | None => w end in
      assert_ (bool_decide (slot <$> nth_recent_vote vote_state 0 = Some bank_slot));;
      let stakes :=
        match nth_recent_vote vote_state 1 with
        | Some vote => update_ancestor_voted_stakes (slot vote) voted_stake ancestors (voted_stakes c)
        | None => voted_stakes c
        end in
      mret (mkComputedBankState stakes (add64 (total_stake c) voted_stake) w.1 intervals my_latest, w.2)
  end.

Fixpoint collect_accounts (acc : ComputedBankState * gset Slot) (l : list (Pubkey * (Z * option VoteState)))
    : ST LatestValidatorVotesForFrozenBanks Empty_set (ComputedBankState * gset Slot) :=
  match l with
  | [] => mret acc
  | x :: l' => acc ← collect_account acc x; collect_accounts acc l'
  end.

Definition collect_vote_lockouts (vote_accounts : list (Pubkey * (Z * option VoteState)))
    : ST LatestValidatorVotesForFrozenBanks Empty_set ComputedBankState :=
  x ← collect_accounts (mkComputedBankState ∅ 0 0 [] None, ∅) vote_accounts;
  let '(c, vote_slots) := x in
  mret (mkComputedBankState (populate_ancestor_voted_stakes (elements vote_slots) ancestors (voted_stakes c))
          (total_stake c) (bank_weight c) (lockout_intervals c) (my_latest_landed_vote c)).
End collect.

(** ** The tower *)

Record Tower : Type := mkTower {
  node_pubkey : Pubkey;
  threshold_depth : nat;
  threshold_size : f64;
  vote_state : VoteState;
  last_vote : Vote;
  last_vote_tx_blockhash : Hash;
  tower_last_timestamp : BlockTimestamp;
  stray_restored_slot : option Slot;
  last_switch_threshold_check : option (Slot * SwitchForkDecision);
}.

Definition with_vote_state (v : VoteState) (t : Tower) : Tower :=
  mkTower (node_pubkey t) (threshold_depth t) (threshold_size t) v (last_vote t) (last_vote_tx_blockhash t)
    (tower_last_timestamp t) (stray_restored_slot t) (last_switch_threshold_check t).
Definition with_last_vote (v : Vote) (t : Tower) : Tower :=
  mkTower (node_pubkey t) (threshold_depth t) (threshold_size t) (vote_state t) v (last_vote_tx_blockhash t)
    (tower_last_timestamp t) (stray_restored_slot t) (last_switch_threshold_check t).
Definition with_tx_blockhash (h : Hash) (t : Tower) : Tower :=
  mkTower (node_pubkey t) (threshold_depth t) (threshold_size t) (vote_state t) (last_vote t) h
    (tower_last_timestamp t) (stray_restored_slot t) (last_switch_threshold_check t).
Definition with_timestamp (x : BlockTimestamp) (t : Tower) : Tower :=
  mkTower (node_pubkey t) (threshold_depth t) (threshold_size t) (vote_state t) (last_vote t)
    (last_vote_tx_blockhash t) x (stray_restored_slot t) (last_switch_threshold_check t).
Definition with_stray (s : option Slot) (t : Tower) : Tower :=
  mkTower (node_pubkey t) (threshold_depth t) (threshold_size t) (vote_state t) (last_vote t)
    (last_vote_tx_blockhash t) (tower_last_timestamp t) s (last_switch_threshold_check t).
Definition with_switch_check (c : option (Slot * SwitchForkDecision)) (t : Tower) : Tower :=
  mkTower (node_pubkey t) (threshold_depth t) (threshold_size t) (vote_state t) (last_vote t)
    (last_vote_tx_blockhash t) (tower_last_timestamp t) (stray_restored_slot t) c.
Definition with_node (p : Pubkey) (t : Tower) : Tower :=
  mkTower p (threshold_depth t) (threshold_size t) (vote_state t) (last_vote t) (last_vote_tx_blockhash t)
    (tower_last_timestamp t) (stray_restored_slot t) (last_switch_threshold_check t).

Definition Vote_default : Vote := mkVote [] Hash_default None.
#[export] Instance Vote_eq_dec : EqDecision Vote.
Proof. solve_decision. Defined.

Definition Tower_default : Tower :=
  mkTower Pubkey_default VOTE_THRESHOLD_DEPTH VOTE_THRESHOLD_SIZE
    (with_root_slot (Some 0) VoteState_default) Vote_default Hash_default (mkBlockTimestamp 0 0) None None.

Definition Vote_last_voted_slot_hash (v : Vote) : option (Slot * Hash) :=
  (λ s, (s, vote_hash v)) <$> last (vote_slots v).

Definition initialize_root (r : Slot) (t : Tower) : Tower :=
  with_vote_state (with_root_slot (Some r) (vote_state t)) t.

Definition initialize_lockouts (should_retain : Lockout → bool) (t : Tower) : Tower :=
  with_vote_state (VoteState.with_votes (filter (λ l, should_retain l = true) (votes (vote_state t))) (vote_state t)) t.

(** The vote account in the bank, if there is one: its stake and its state,
    [None] if it does not deserialize. *)
Definition initialize_lockouts_from_bank {E : Type} (r : Slot) (account : option (Z * option VoteState))
    (t : Tower) : res E Tower :=
  match account with
  | Some (_, state) =>
      v ← unwrap state;
      Ok (initialize_lockouts (λ l, r <? slot l) (initialize_root r (with_vote_state v t)))
  | None => Ok (initialize_root r t)
  end.

Definition Tower_new {E : Type} (node : Pubkey) (r : Slot) (account : option (Z * option VoteState)) : res E Tower :=
  initialize_lockouts_from_bank r account (with_node node Tower_default).

Definition is_slot_confirmed (s : Slot) (stakes : VotedStakes) (total : Z) (t : Tower) : bool :=
  match stakes !! s with Some stake => stake_above (threshold_size t) stake total | None => false end.

Definition tower_slots (t : Tower) : list Slot := tower (vote_state t).
Definition voted_slots (t : Tower) : list Slot := slot <$> votes (vote_state t).
Definition refresh_last_vote_tx_blockhash (h : Hash) (t : Tower) : Tower := with_tx_blockhash h t.
Definition tower_last_voted_slot (t : Tower) : option Slot := Vote_last_voted_slot (last_vote t).
Definition last_voted_slot_hash (t : Tower) : option (Slot * Hash) := Vote_last_voted_slot_hash (last_vote t).

Definition tower_root {E : Type} (t : Tower) : res E Slot := unwrap (root_slot (vote_state t)).

Definition is_recent (s : Slot) (t : Tower) : bool :=
  match last_voted_slot (vote_state t) with Some l => negb (s <=? l) | None => true end.

Definition has_voted (s : Slot) (t : Tower) : bool := existsb (λ vote, s =? slot vote) (votes (vote_state t)).

Definition is_locked_out {E : Type} (s : Slot) (ancestors : gset Slot) (t : Tower) : res E bool :=
  if negb (is_recent s t) then Ok true
  else
    let v := process_slot_vote_unchecked s (vote_state t) in
    if existsb (λ vote, negb (s =? slot vote) && negb (bool_decide (slot vote ∈ ancestors))) (votes v) then Ok true
    else match root_slot v with
    | Some r => if negb (s =? r) && negb (bool_decide (r ∈ ancestors)) then Panic else Ok false
    | None => Ok false
    end.

Definition is_stray_last_vote (t : Tower) : bool :=
  match tower_last_voted_slot t, stray_restored_slot t with
  | Some last_voted, Some stray => stray =? last_voted
  | _, _ => false
  end.

(** ** Recording a vote *)

Fixpoint skip_while (f : Slot → bool) (l : list Slot) : list Slot :=
  match l with
  | [] => []
  | x :: l' => if f x then skip_while f l' else l
  end.

Definition apply_vote_and_generate_vote_diff (local_vote_state : VoteState) (s : Slot) (h : Hash)
    (last_voted_slot_in_bank : option Slot) : VoteState * Vote :=
  let v := process_vote_unchecked (Vote_new [s] h) local_vote_state in
  let slots :=
    match last_voted_slot_in_bank with
    | Some last => skip_while (λ s, s <=? last) (slot <$> votes v)
    | None => slot <$> votes v
    end in
  (v, Vote_new slots h).

Definition maybe_timestamp (now : UnixTimestamp) (current_slot : Slot) : ST Tower Empty_set (option UnixTimestamp) :=
  t ← get;
  let l := tower_last_timestamp t in
  if (ts_slot l <? current_slot) || ((ts_slot l =? 0) && (current_slot =? ts_slot l)) then
    if ts_timestamp l <=? now then
      put (with_timestamp (mkBlockTimestamp current_slot now) t);; mret (Some now)
    else mret None
  else mret None.

Definition record_bank_vote_and_update_lockouts (now : UnixTimestamp) (vote_slot : Slot) (vote_hash : Hash)
    (last_voted_slot_in_bank : option Slot) : ST Tower Empty_set (option Slot) :=
  t ← get;
  old_root ← lift (tower_root t);
  let '(v, new_vote) := apply_vote_and_generate_vote_diff (vote_state t) vote_slot vote_hash last_voted_slot_in_bank in
  put (with_vote_state v t);;
  timestamp ← maybe_timestamp now (default 0 (tower_last_voted_slot t));
  modify (with_last_vote (mkVote (vote_slots new_vote) (VoteState.vote_hash new_vote) timestamp));;
  t ← get;
  new_root ← lift (tower_root t);
  mret (if bool_decide (old_root = new_root) then None else Some new_root).

Definition last_voted_slot_in_bank (account : option (Z * option VoteState)) : option Slot :=
  '(_, state) ← account; v ← state; last_voted_slot v.

Definition record_bank_vote (now : UnixTimestamp) (bank_slot : Slot) (bank_hash : Hash)
    (account : option (Z * option VoteState)) : ST Tower Empty_set (option Slot) :=
  record_bank_vote_and_update_lockouts now bank_slot bank_hash (last_voted_slot_in_bank account).

(** ** Switching forks *)

(** What is read of a slot's progress. *)
Record ForkStats : Type := mkForkStats {
  computed : bool;
  stats_lockout_intervals : LockoutIntervals;
  stats_bank_hash : option Hash;
}.
Abbreviation ProgressMap := (gmap Slot ForkStats) (only parsing).

Definition get_hash (progress : ProgressMap) (s : Slot) : option Hash := progress !! s ≫= stats_bank_hash.
Definition is_computed (progress : ProgressMap) (s : Slot) : bool :=
  match progress !! s with Some stats => computed stats | None => false end.

Definition is_candidate_slot_descendant_of_last_vote (candidate_slot last_voted : Slot) (ancestors : Ancestors)
    : option bool :=
  (λ a : gset Slot, bool_decide (last_voted ∈ a)) <$> ancestors !! candidate_slot.

(** The stake counted so far and the vote accounts it is of.  An early return
    of the decision is an error of these loops. *)
Abbreviation Counted := (Z * gset Pubkey)%type (only parsing).

Section switch.
Context (total : Z) (epoch_vote_accounts : gmap Pubkey Z).

Definition count_account (vote_account_pubkey : Pubkey) (acc : Counted) : res SwitchForkDecision Counted :=
  let locked_out_stake := add64 acc.1 (default 0 (epoch_vote_accounts !! vote_account_pubkey)) in
  if stake_above SWITCH_FORK_THRESHOLD locked_out_stake total then Err (SwitchProof Hash_default)
  else Ok (locked_out_stake, {[vote_account_pubkey]} ∪ acc.2).

Context (r last_voted : Slot) (ancestors descendants : Ancestors) (progress : ProgressMap).
Context (last_vote_ancestors : gset Slot).

Definition count_interval (acc : Counted) (x : Slot * Pubkey) : res SwitchForkDecision Counted :=
  let '(lockout_interval_start, vote_account_pubkey) := x in
  if bool_decide (vote_account_pubkey ∈ acc.2) then Ok acc
  else if negb (bool_decide (lockout_interval_start ∈ last_vote_ancestors)) && (r <? lockout_interval_start)
  then count_account vote_account_pubkey acc
  else Ok acc.

(** Whether a slot is not looked at for lockouts. *)
Definition skip_candidate {E : Type} (candidate_slot : Slot) (ds : gset Slot) : res E bool :=
  if negb (is_computed progress candidate_slot) then Ok true
  else if existsb (is_computed progress) (elements ds) then Ok true
  else if candidate_slot =? last_voted then Ok true
  else
    d ← unwrap (is_candidate_slot_descendant_of_last_vote candidate_slot last_voted ancestors);
    Ok (d || (candidate_slot <=? r)).

Definition count_candidate (acc : Counted) (x : Slot * gset Slot) : res SwitchForkDecision Counted :=
  let '(candidate_slot, ds) := x in
  skip ← skip_candidate candidate_slot ds;
  if skip : bool then Ok acc
  else if bool_decide (candidate_slot ∈ last_vote_ancestors) then Panic
  else
    stats ← unwrap (progress !! candidate_slot);
    foldM count_interval acc
      (concat (snd <$> filter (λ e, last_voted <= e.1) (stats_lockout_intervals stats))).

Definition count_gossip (acc : Counted) (x : Pubkey * (Slot * list Hash)) : res SwitchForkDecision Counted :=
  let '(vote_account_pubkey, (candidate_latest_frozen_vote, _)) := x in
  if bool_decide (vote_account_pubkey ∈ acc.2) then Ok acc
  else if (last_voted <? candidate_latest_frozen_vote) &&
          negb (default true (is_candidate_slot_descendant_of_last_vote candidate_latest_frozen_vote last_voted ancestors))
  then count_account vote_account_pubkey acc
  else Ok acc.

Definition count_locked_out (gossip : gmap Pubkey (Slot * list Hash)) : res SwitchForkDecision Counted :=
  acc ← foldM count_candidate (0, ∅) (map_to_list descendants);
  foldM count_gossip acc (map_to_list gossip).
End switch.

Definition make_check_switch_threshold_decision (switch_slot : Slot) (ancestors descendants : Ancestors)
    (progress : ProgressMap) (total : Z) (epoch_vote_accounts : gmap Pubkey Z)
    (latest : LatestValidatorVotesForFrozenBanks) (f : HeaviestSubtreeForkChoice) (t : Tower)
    : res Empty_set SwitchForkDecision :=
  match last_voted_slot_hash t with
  | None => Ok SameFork
  | Some (last_voted, last_hash) =>
      r ← tower_root t;
      switch_hash ← unwrap (get_hash progress switch_slot);
      let early :=
        match fc_latest_invalid_ancestor (fork_infos f) (last_voted, last_hash) with
        | Some latest_duplicate_ancestor =>
            if is_strict_ancestor (fork_infos f) (switch_slot, switch_hash) (last_voted, last_hash)
            then Some (FailedSwitchDuplicateRollback latest_duplicate_ancestor)
            else if negb (bool_decide (get_hash progress last_voted = Some last_hash))
            then Some (SwitchProof Hash_default)
            else None
        | None => None
        end in
      match early with
      | Some d => Ok d
      | None =>
          last_vote_ancestors ←
            match ancestors !! last_voted with
            | Some a => Ok a
            | None => if is_stray_last_vote t then Ok ∅ else Panic
            end;
          switch_slot_ancestors ← unwrap (ancestors !! switch_slot);
          if (switch_slot =? last_voted) || bool_decide (last_voted ∈ (switch_slot_ancestors : gset Slot)) then Ok SameFork
          else if bool_decide (switch_slot ∈ (last_vote_ancestors : gset Slot)) then
            if is_stray_last_vote t then Ok (FailedSwitchThreshold 0 total) else Panic
          else
            match count_locked_out total epoch_vote_accounts r last_voted ancestors descendants progress
                    last_vote_ancestors (max_gossip_frozen_votes latest) with
            | Ok (locked_out_stake, _) => Ok (FailedSwitchThreshold locked_out_stake total)
            | Err d => Ok d
            | Panic => Panic
            end
      end
  end.

Definition check_switch_threshold (switch_slot : Slot) (ancestors descendants : Ancestors)
    (progress : ProgressMap) (total : Z) (epoch_vote_accounts : gmap Pubkey Z)
    (latest : LatestValidatorVotesForFrozenBanks) (f : HeaviestSubtreeForkChoice)
    : ST Tower Empty_set SwitchForkDecision :=
  t ← get;
  decision ← lift (make_check_switch_threshold_decision switch_slot ancestors descendants progress total
                     epoch_vote_accounts latest f t);
  let new_check := Some (switch_slot, decision) in
  (if bool_decide (new_check = last_switch_threshold_check t) then mret tt
   else modify (with_switch_check new_check));;
  mret decision.

Definition check_vote_stake_threshold (s : Slot) (stakes : VotedStakes) (total : Z) (t : Tower) : bool :=
  let v := process_slot_vote_unchecked s (vote_state t) in
  match nth_recent_vote v (threshold_depth t) with
  | Some vote =>
      match stakes !! slot vote with
      | Some fork_stake =>
          if (Z.of_nat (threshold_depth t) <? confirmation_count vote) &&
             existsb (λ old_vote, (slot old_vote =? slot vote) && (confirmation_count old_vote =? confirmation_count vote))
               (votes (vote_state t))
          then true
          else stake_above (threshold_size t) fork_stake total
      | None => false
      end
  | None => true
  end.

(** ** After a restart *)

Inductive Inconsistency : Type := DivergedAncestor | TimeWarped | NotTooOldAfterTooOld | NoCommonSlot.

Inductive TowerError : Type :=
  | IoError
  | SerializeError
  | InvalidSignature
  | WrongTower
  | TooOldTower (newest_in_tower oldest_in_history : Slot)
  | FatallyInconsistent (why : Inconsistency)
  | HardFork (s : Slot).

Section restart.
Context `{BV : !BitVec}.

(** The variables of the walk from the newest slot of the tower to its root. *)
Record Walk : Type := mkWalk {
  retain_flags : list bool;
  still_in_future : bool;
  past_outside_history : bool;
  checked_slot : option Slot;
  anchored_slot : option Slot;
}.

Definition walk_start : Walk := mkWalk [] true false None None.

Definition walk_slot (tower_root : Slot) (h : SlotHistory) (w : Walk) (slot_in_tower : Slot) : res TowerError Walk :=
  let c := check slot_in_tower h in
  anchored ←
    (if bool_decide (anchored_slot w = None) && bool_decide (c = Found) then Ok (Some slot_in_tower)
     else if negb (bool_decide (anchored_slot w = None)) && bool_decide (c = NotFound)
     then Err (FatallyInconsistent DivergedAncestor)
     else Ok (anchored_slot w));
  future ←
    (if still_in_future w && negb (bool_decide (c = Future)) then Ok false
     else if negb (still_in_future w) && bool_decide (c = Future) then Err (FatallyInconsistent TimeWarped)
     else Ok (still_in_future w));
  past ←
    (if negb (past_outside_history w) && bool_decide (c = TooOld) then Ok true
     else if past_outside_history w && negb (bool_decide (c = TooOld))
     then Err (FatallyInconsistent NotTooOldAfterTooOld)
     else Ok (past_outside_history w));
  (match checked_slot w with
   | Some checked =>
       let voting_for_root := (slot_in_tower =? checked) && (slot_in_tower =? tower_root) in
       if negb voting_for_root && negb (slot_in_tower <? checked) then Panic else Ok tt
   | None => Ok tt
   end);;
  Ok (mkWalk (retain_flags w ++ [bool_decide (anchored = None)]) future past (Some slot_in_tower) anchored).

(** [Vec::retain] with flags for the elements in order. *)
Fixpoint retain_by {A : Type} (flags : list bool) (l : list A) : list A :=
  match flags, l with
  | b :: flags', x :: l' => if b : bool then x :: retain_by flags' l' else retain_by flags' l'
  | _, _ => []
  end.

Definition adjust_lockouts_with_slot_history (h : SlotHistory) : ST Tower TowerError unit :=
  t ← get;
  root ← lift (tower_root t);
  let slots_in_tower := root :: voted_slots t in
  w ← lift (foldM (walk_slot root h) walk_start (reverse slots_in_tower));
  ensureS (negb (bool_decide (anchored_slot w = None))) (FatallyInconsistent NoCommonSlot);;
  assert_ (bool_decide (length slots_in_tower = length (retain_flags w)));;
  let flags := reverse (take (length (retain_flags w) - 1) (retain_flags w)) in
  let v := vote_state t in
  put (with_vote_state (VoteState.with_votes (retain_by flags (votes v)) v) t);;
  t ← get;
  if bool_decide (votes (vote_state t) = []) then put (with_last_vote Vote_default t)
  else
    last_in_vote ← lift (unwrap (tower_last_voted_slot t));
    last_in_tower ← lift (unwrap (last (voted_slots t)));
    assert_ (last_in_vote =? last_in_tower);;
    put (with_stray (Some last_in_vote) t).

Definition adjust_lockouts_after_replay (replayed_root : Slot) (slot_history : SlotHistory) : ST Tower TowerError unit :=
  t ← get;
  root ← lift (tower_root t);
  assert_ (bool_decide (check replayed_root slot_history = Found));;
  assert_ (eqb (bool_decide (last_vote t = Vote_default)) (bool_decide (votes (vote_state t) = [])));;
  match tower_last_voted_slot t with
  | Some last_voted =>
      if root <=? replayed_root then
        ensureS (negb (bool_decide (check last_voted slot_history = TooOld)))
          (TooOldTower last_voted (oldest slot_history));;
        adjust_lockouts_with_slot_history slot_history;;
        modify (initialize_root replayed_root)
      else adjust_lockouts_with_slot_history (slot_history.add root slot_history)
  | None => assert_ (root =? replayed_root)
  end.
End restart.
End consensus.
