(* ===== verification/TowerProps.v ===== *)
(** * Safety of the tower

    A validator that votes only where its tower is not locked out never votes
    against an earlier vote of its own that still binds it, and all its votes
    lie on one fork; a proof for switching forks counts every vote account once
    and only such as are locked out of the validator's fork; after a restart
    exactly the votes not on the replayed chain are kept. *)

From S2P Require Import Prelude F64 Account Sysvar SlotHistory BTreeMap VoteState VoteTower VoteProps VoteProgram ForkChoice Tower.

Module tower_props.
Import fork_choice slot_history consensus.

(** ** One vote *)

Lemma process_single v s h :
  process_vote_unchecked (Vote_new [s] h) v = process_next_vote_slot s (current_epoch v) v.
Proof.
  unfold process_vote_unchecked, VoteState_process_vote, mbind, st_bind, get, lift, ensureS, ensure. cbn.
  unfold check_slots_are_valid. cbn. destruct (last_voted_slot v) as [l|] eqn:Hl.
  - destruct (Z.leb_spec s l); cbn; [|by rewrite !Z.eqb_refl; cbn; rewrite Z.eqb_refl].
    rewrite process_next_vote_slot_stale; [done|]. unfold stale. by rewrite Hl.
  - rewrite Z.eqb_refl. cbn. by rewrite Z.eqb_refl.
Qed.

Lemma push_vote_slots s l : slot <$> push_vote s l = (slot <$> l) ++ [s].
Proof.
  unfold push_vote. rewrite fmap_app. f_equal. apply list_eq. intros i.
  rewrite !list_lookup_fmap, list_lookup_imap. destruct (l !! i); [|done]. cbn. unfold bump. by destruct (_ <? _).
Qed.

(** What voting on a new slot does to the slots of the stack: expired votes go
    from the top, and of a full stack the oldest becomes the root. *)
Lemma next_slots s epoch v :
  tower_inv (votes v) → ¬ stale s v →
  let v' := process_next_vote_slot s epoch v in
  tower_inv (votes v') ∧
  ∃ kept dropped, votes v = kept ++ dropped ∧ Forall (λ x, last_locked_out_slot x < s) dropped ∧
    (slot <$> votes v' = (slot <$> kept) ++ [s] ∧ root_slot v' = root_slot v ∨
     ∃ o rest, kept = o :: rest ∧ slot <$> votes v' = (slot <$> rest) ++ [s] ∧ root_slot v' = Some (slot o)).
Proof.
  intros Hinv Hst. cbn zeta. destruct (pop_expired_votes_spec s v) as (k & Hk & HF).
  pose proof (fresh_above s v Hinv Hst) as Hab. rewrite Hk in Hab. apply Forall_app in Hab as [Hab _].
  assert (Hkept : tower_inv (votes (pop_expired_votes s v))) by (rewrite Hk in Hinv; by apply tower_inv_app in Hinv).
  destruct (process_next_vote_slot_cases s epoch v Hinv)
    as [[? _]|[(_ & Hlen & Hv & Hr & _)|(_ & o & rest & Hko & Hlen & Hv & Hr & _)]]; [done|..]; rewrite Hv, push_vote_slots.
  - split; [by apply tower_inv_push|]. eexists _, k. split_and!; [done..|]. by left.
  - rewrite Hko in Hkept, Hlen, Hab, Hk. apply tower_inv_tail in Hkept. apply Forall_cons in Hab as [_ Hab]. split.
    + apply tower_inv_push; [done| |done]. cbn in Hlen. unfold MAX_LOCKOUT_HISTORY in *. lia.
    + eexists _, k. split_and!; [done..|]. right. eauto.
Qed.

Lemma is_recent_stale s t : is_recent s t = true ↔ ¬ stale s (vote_state t).
Proof.
  unfold is_recent, stale. destruct (last_voted_slot (vote_state t)) as [l|]; [|naive_solver].
  rewrite negb_true_iff, Z.leb_gt. lia.
Qed.

(** What a negative answer of [is_locked_out] says. *)
Lemma not_locked_out {E} s (a : gset Slot) t :
  is_locked_out (E:=E) s a t = Ok false →
  ¬ stale s (vote_state t) ∧
  let v' := process_next_vote_slot s (current_epoch (vote_state t)) (vote_state t) in
  Forall (λ y, slot y = s ∨ slot y ∈ a) (votes v') ∧ ∀ r, root_slot v' = Some r → r = s ∨ r ∈ a.
Proof.
  unfold is_locked_out, process_slot_vote_unchecked. rewrite process_single.
  destruct (is_recent s t) eqn:Hr; cbn [negb]; [|done]. apply is_recent_stale in Hr.
  set (v' := process_next_vote_slot _ _ _). destruct (existsb _ (votes v')) eqn:He; [done|]. intros H. split; [done|]. cbn zeta. split.
  - apply Forall_forall. intros y Hy. apply not_true_iff_false in He. rewrite existsb_exists in He.
    destruct (decide (slot y = s)); [by left|]. destruct (decide (slot y ∈ a)); [by right|]. exfalso. apply He. exists y.
    split; [by apply list_elem_of_In|]. rewrite bool_decide_eq_false_2 by done. rewrite andb_true_r. apply negb_true_iff, Z.eqb_neq. lia.
  - intros r Hroot. rewrite Hroot in H. destruct (Z.eqb_spec s r) as [->|]; [by left|]. cbn in H.
    case_bool_decide; [by right|done].
Qed.

(** What recording a vote does. *)
Lemma record_vote now s h lv t t' r :
  record_bank_vote_and_update_lockouts now s h lv t = (t', Ok r) →
  vote_state t' = process_next_vote_slot s (current_epoch (vote_state t)) (vote_state t).
Proof.
  unfold record_bank_vote_and_update_lockouts, apply_vote_and_generate_vote_diff, maybe_timestamp.
  cbv [mbind st_bind mret st_ret get put modify lift tower_root unwrap].
  destruct (root_slot (vote_state t)) as [old|]; [|done]. rewrite process_single. cbn.
  destruct (_ || _); [destruct (_ <=? now)|]; cbn; destruct (root_slot (process_next_vote_slot _ _ _)); naive_solver.
Qed.

Lemma record_total now s h lv t :
  is_Some (root_slot (vote_state t)) → tower_inv (votes (vote_state t)) →
  ∃ t' r, record_bank_vote_and_update_lockouts now s h lv t = (t', Ok r) ∧ is_Some (root_slot (vote_state t')).
Proof.
  intros [old Hold] Hinv.
  assert (Hnew : is_Some (root_slot (process_next_vote_slot s (current_epoch (vote_state t)) (vote_state t)))).
  { destruct (decide (stale s (vote_state t))) as [Hst|Hst].
    - rewrite process_next_vote_slot_stale by done. eauto.
    - destruct (next_slots s (current_epoch (vote_state t)) (vote_state t) Hinv Hst)
        as (_ & _ & _ & _ & _ & [[_ ->]|(o & rest & _ & _ & ->)]); eauto. }
  unfold record_bank_vote_and_update_lockouts, apply_vote_and_generate_vote_diff, maybe_timestamp.
  cbv [mbind st_bind mret st_ret get put modify lift tower_root unwrap]. rewrite Hold, process_single.
  destruct Hnew as [new Hnew]. cbn. destruct (_ || _); [destruct (_ <=? now)|]; cbn; rewrite Hnew; eauto.
Qed.

(** ** A validator's votes *)

Section run.
(** The strict ancestors of each slot. *)
Context (anc : Slot → gset Slot).
Context (anc_trans : ∀ a b c, a ∈ anc b → b ∈ anc c → a ∈ anc c).

(** Votes cast where the tower was not locked out, each with the tower before. *)
Inductive voting (t0 : Tower) : list (Tower * Slot) → Tower → Prop :=
  | voting_start : voting t0 [] t0
  | voting_vote tr t s now h lv t' r :
      voting t0 tr t →
      is_locked_out (E:=Empty_set) s (anc s) t = Ok false →
      record_bank_vote_and_update_lockouts now s h lv t = (t', Ok r) →
      voting t0 (tr ++ [(t, s)]) t'.

(** The votes lie on one fork, above the root. *)
Record on_one_fork (t : Tower) : Prop := {
  of_inv : tower_inv (votes (vote_state t));
  of_chain : StronglySorted (λ a b, a ∈ anc b) (voted_slots t);
  of_root r : root_slot (vote_state t) = Some r → Forall (λ x, r = x ∨ r ∈ anc x) (voted_slots t);
}.

Lemma fork_step t s now h lv t' r :
  on_one_fork t → is_locked_out (E:=Empty_set) s (anc s) t = Ok false →
  record_bank_vote_and_update_lockouts now s h lv t = (t', Ok r) → on_one_fork t'.
Proof using anc_trans.
  intros [Hinv Hch Hroot] [Hst [Hall Hr']]%not_locked_out Hrec. pose proof (record_vote _ _ _ _ _ _ _ Hrec) as Hv.
  destruct (next_slots s (current_epoch (vote_state t)) (vote_state t) Hinv Hst) as (Hinv' & kept & dropped & Hk & _ & Hcase).
  rewrite <-Hv in Hinv', Hall, Hr', Hcase. unfold voted_slots in *. rewrite Hk, fmap_app in Hch, Hroot.
  apply StronglySorted_app in Hch as (_ & Hch & _).
  assert (Hroot1 : ∀ q, root_slot (vote_state t) = Some q → Forall (λ x, q = x ∨ q ∈ anc x) (slot <$> kept))
    by (intros q Hq; by apply (Forall_app _ (slot <$> kept) (slot <$> dropped)), Hroot).
  assert (Hall' : Forall (λ x, x = s ∨ x ∈ anc s) (slot <$> votes (vote_state t'))) by (by apply Forall_fmap).
  assert (Hsort : ∀ l, StronglySorted (λ a b, a ∈ anc b) l → Forall (λ x, x < s) l →
    slot <$> votes (vote_state t') = l ++ [s] → StronglySorted (λ a b, a ∈ anc b) (slot <$> votes (vote_state t'))).
  { intros l Hl Hlt Heq. rewrite Heq in Hall' |- *. apply Forall_app in Hall' as [Hall1 _].
    apply StronglySorted_app. split_and!; [|done|repeat constructor]. intros x y Hx ->%list_elem_of_singleton.
    rewrite Forall_forall in Hall1. rewrite Forall_forall in Hlt. specialize (Hlt x Hx). destruct (Hall1 x Hx); [lia|done]. }
  pose proof (fresh_above s _ Hinv Hst) as Hab. rewrite Hk in Hab. apply Forall_app in Hab as [Hab1 _].
  assert (Hab : Forall (λ x, x < s) (slot <$> kept)) by (by apply Forall_fmap).
  split; [done|..]; unfold voted_slots.
  - destruct Hcase as [[Hsl _]|(o & rest & -> & Hsl & _)]; [by eapply Hsort|].
    cbn in Hch, Hab. inversion Hch; subst. apply Forall_cons in Hab as [_ Hab]. by eapply Hsort.
  - intros q Hq. specialize (Hr' q Hq). destruct Hcase as [[Hsl Hrs]|(o & rest & -> & Hsl & Hrs)]; rewrite Hsl.
    + apply Forall_app. split; [apply Hroot1; congruence|]. apply Forall_singleton. tauto.
    + rewrite Hrs in Hq. injection Hq as <-. apply Forall_app. split; [|apply Forall_singleton; tauto].
      cbn in Hch. inversion Hch as [|? ? _ Hf]; subst. eapply Forall_impl; [exact Hf|]. auto.
Qed.

(** The lockout of an earlier vote on [a] had run out when some vote was cast. *)
Definition expired (tr : list (Tower * Slot)) (i j : nat) (a : Slot) : Prop :=
  ∃ m tm s x, (i < m ≤ j)%nat ∧ tr !! m = Some (tm, s) ∧ x ∈ votes (vote_state tm) ∧ slot x = a ∧
    last_locked_out_slot x < s.

(** What became of a vote on [a]. *)
Definition accounted (tr : list (Tower * Slot)) (i : nat) (t : Tower) (a : Slot) : Prop :=
  a ∈ voted_slots t ∨
  (∃ r, root_slot (vote_state t) = Some r ∧ (a = r ∨ a ∈ anc r)) ∨
  expired tr i (length tr) a.

Lemma expired_app tr x i j j' a : (j ≤ j')%nat → expired tr i j a → expired (tr ++ [x]) i j' a.
Proof.
  intros Hj (m & tm & s & y & Hm & Htm & H). exists m, tm, s, y. split_and!; [lia|lia| |apply H..]. by apply lookup_app_l_Some.
Qed.

Lemma accounted_step tr t s now h lv t' r i a :
  on_one_fork t → is_locked_out (E:=Empty_set) s (anc s) t = Ok false →
  record_bank_vote_and_update_lockouts now s h lv t = (t', Ok r) →
  (i < length tr)%nat → accounted tr i t a → accounted (tr ++ [(t, s)]) i t' a.
Proof using anc_trans.
  intros [Hinv _ Hroot] [Hst _]%not_locked_out Hrec Hi Ha. pose proof (record_vote _ _ _ _ _ _ _ Hrec) as Hv.
  destruct (next_slots s (current_epoch (vote_state t)) (vote_state t) Hinv Hst) as (_ & kept & dropped & Hk & Hexp & Hcase).
  rewrite <-Hv in Hcase. unfold voted_slots in *. destruct Ha as [Ha|[(q & Hq & Ha)|Ha]].
  - apply list_elem_of_fmap in Ha as (x & -> & Hx). rewrite Hk in Hx. apply elem_of_app in Hx as [Hx|Hx].
    + destruct Hcase as [[Hsl _]|(o & rest & -> & Hsl & Hrs)]; unfold accounted, voted_slots; rewrite Hsl.
      * left. apply elem_of_app. left. by apply list_elem_of_fmap_2.
      * apply elem_of_cons in Hx as [->|Hx]; [right; left; eauto|]. left. apply elem_of_app. left. by apply list_elem_of_fmap_2.
    + right. right. exists (length tr), t, s, x. rewrite length_app. cbn. rewrite Forall_forall in Hexp.
      split_and!; [lia|lia|by apply list_lookup_middle|rewrite Hk; set_solver|done|by apply Hexp].
  - right. left. destruct Hcase as [[_ Hrs]|(o & rest & -> & _ & Hrs)]; [exists q; by rewrite Hrs|].
    exists (slot o). split; [done|]. specialize (Hroot q Hq). rewrite Hk in Hroot. cbn in Hroot.
    apply Forall_cons in Hroot as [[->|Hqo] _]; [done|]. right. destruct Ha as [->|Ha]; [done|by eapply anc_trans].
  - right. right. eapply expired_app; [|exact Ha]. rewrite length_app. lia.
Qed.

Lemma voting_history t0 tr t :
  on_one_fork t0 → voting t0 tr t →
  on_one_fork t ∧ ∀ i ti a, tr !! i = Some (ti, a) →
    accounted tr i t a ∧ ∃ l, last_voted_slot (vote_state t) = Some l ∧ a <= l.
Proof using anc_trans.
  intros H0. induction 1 as [|tr t s now h lv t' r _ [IHf IH] Hlo Hrec]; [split; [done|by intros ?]|].
  split; [by eapply fork_step|]. pose proof (record_vote _ _ _ _ _ _ _ Hrec) as Hv.
  pose proof Hlo as [Hst _]%not_locked_out.
  destruct (next_slots s (current_epoch (vote_state t)) (vote_state t) (of_inv _ IHf) Hst) as (_ & kept & dropped & _ & _ & Hcase).
  rewrite <-Hv in Hcase.
  assert (Hlast : last (slot <$> votes (vote_state t')) = Some s)
    by (destruct Hcase as [[-> _]|(o & rest & _ & -> & _)]; by rewrite last_snoc).
  assert (Hl : last_voted_slot (vote_state t') = Some s) by (unfold last_voted_slot, last_lockout; by rewrite <-fmap_last).
  intros i ti a [Hi|[Hge Hi]]%lookup_app_Some.
  - destruct (IH i ti a Hi) as [Ha (l & Hll & Hle)]. split.
    + eapply accounted_step; [done..| |done]. by eapply lookup_lt_Some.
    + exists s. split; [done|]. unfold stale in Hst. rewrite Hll in Hst. lia.
  - apply list_lookup_singleton_Some in Hi as [_ [= <- <-]]. split; [|eexists; split; [exact Hl|lia]]. left. unfold voted_slots.
    rewrite last_Some in Hlast. destruct Hlast as [l ->]. set_solver.
Qed.

(** C5. A validator that votes only where its tower is not locked out never
    contradicts itself: of any two of its votes the later is for a descendant
    of the earlier, or the earlier one's lockout had run out by then.  The
    tower it starts with has its votes on one fork. *)
Theorem votes_never_conflict t0 tr t i j ti tj a b :
  on_one_fork t0 → voting t0 tr t → tr !! i = Some (ti, a) → tr !! j = Some (tj, b) → (i < j)%nat →
  a ∈ anc b ∨ expired tr i j a.
Proof using anc_trans.
  intros H0 Hv Hi Hj Hij. revert i j ti tj a b Hi Hj Hij.
  induction Hv as [|tr t s now h lv t' r Hv IH Hlo Hrec]; intros i j ti tj a b Hi Hj Hij; [done|].
  destruct (voting_history t0 tr t H0 Hv) as [Hf Hh].
  apply lookup_app_Some in Hj as [Hj|[Hge Hj]].
  { pose proof (lookup_lt_Some _ _ _ Hj). rewrite lookup_app_l in Hi by lia.
    destruct (IH i j ti tj a b Hi Hj Hij) as [?|He]; [by left|right]. exact (expired_app _ _ _ _ _ _ (le_n _) He). }
  apply list_lookup_singleton_Some in Hj as [Hj0 [= <- <-]]. assert (j = length tr) as -> by lia. clear Hge Hj0.
  rewrite lookup_app_l in Hi by lia. destruct (Hh i ti a Hi) as [Ha (l & Hl & Hle)].
  destruct (accounted_step tr t s now h lv t' r i a Hf Hlo Hrec Hij Ha) as [Ha'|[(q & Hq & Ha')|Ha']].
  all: pose proof Hlo as [Hst [Hall Hroot]]%not_locked_out; rewrite <-(record_vote _ _ _ _ _ _ _ Hrec) in Hall, Hroot.
  all: assert (Has : a < s) by (unfold stale in Hst; rewrite Hl in Hst; lia).
  - left. apply list_elem_of_fmap in Ha' as (x & -> & Hx). rewrite Forall_forall in Hall. destruct (Hall x Hx); [lia|done].
  - left. destruct (Hroot q Hq) as [->|Hqs]; destruct Ha' as [->|Ha']; [lia|done|done|by eapply anc_trans].
  - right. rewrite length_app in Ha'. destruct Ha' as (m & tm & q & x & Hm & Htm & H). exists m, tm, q, x.
    split_and!; [lia| |done|apply H..]. apply lookup_lt_Some in Htm. rewrite length_app in Htm. cbn in Htm. lia.
Qed.
End run.

(** ** Switch proofs *)

Section switch.
Context (total : Z) (accounts : gmap Pubkey Z).
Implicit Types (acc : Z * gset Pubkey) (Q : Pubkey → Prop).

(** The stake of a set of vote accounts. *)
Definition stake_of (pk : Pubkey) : Z := default 0 (accounts !! pk).
Definition stake_sum (S : gset Pubkey) : Z := sum_with stake_of (elements S).
Definition enough (S : gset Pubkey) : bool := stake_above SWITCH_FORK_THRESHOLD (wrap64 (stake_sum S)) total.

Lemma stake_sum_add pk S : pk ∉ S → stake_sum ({[pk]} ∪ S) = stake_of pk + stake_sum S.
Proof.
  intros Hn. unfold stake_sum.
  assert (Hp : ∀ l l', l ≡ₚ l' → sum_with stake_of l = sum_with stake_of l').
  { unfold sum_with. induction 1; cbn; lia. }
  by rewrite (Hp _ _ (elements_union_singleton S pk Hn)).
Qed.

Definition counted acc : Prop := acc.1 = wrap64 (stake_sum acc.2) ∧ (acc.2 = ∅ ∨ enough acc.2 = false).

(** What a counting loop may return that meets the accounts with [Q]: all of
    them counted and not enough, or some of them and enough. *)
Definition outcome Q acc (r : res SwitchForkDecision (Z * gset Pubkey)) : Prop :=
  match r with
  | Ok acc' => counted acc' ∧ ∀ pk, pk ∈ acc'.2 ↔ pk ∈ acc.2 ∨ Q pk
  | Err d => d = SwitchProof Hash_default ∧ ∃ S, (∀ pk, pk ∈ S → pk ∈ acc.2 ∨ Q pk) ∧ enough S = true
  | Panic => True
  end.

Lemma outcome_skip acc : counted acc → outcome (λ _, False) acc (Ok acc).
Proof. intros H. split; [done|]. naive_solver. Qed.

Lemma outcome_iff Q Q' acc r : (∀ pk, Q pk ↔ Q' pk) → outcome Q acc r → outcome Q' acc r.
Proof.
  intros HQ. unfold outcome. destruct r as [acc'|d|]; [|intros [-> (S & HS & ?)]|done].
  - intros [? H]. split; [done|]. intros pk. rewrite H, HQ. done.
  - split; [done|]. exists S. split; [|done]. intros pk Hpk. rewrite <-HQ. by apply HS.
Qed.

Lemma outcome_bind Q Q' acc r f :
  outcome Q acc r → (∀ acc', counted acc' → outcome Q' acc' (f acc')) →
  outcome (λ pk, Q pk ∨ Q' pk) acc (r ≫= f).
Proof.
  intros Hr Hf. destruct r as [acc'|d|]; cbn; [|destruct Hr as [-> (S & HS & He)]|done].
  - destruct Hr as [Hc HS]. specialize (Hf acc' Hc). destruct (f acc') as [acc2|d|]; cbn in *; [|destruct Hf as [-> (S & HS' & He)]|done].
    + destruct Hf as [Hc2 HS2]. split; [done|]. intros pk. rewrite HS2, HS. tauto.
    + split; [done|]. exists S. split; [|done]. intros pk [Hpk%HS|?]%HS'; tauto.
  - split; [done|]. exists S. split; [|done]. intros pk Hpk. destruct (HS pk Hpk); tauto.
Qed.

(** An account is counted once, if it qualifies. *)
Lemma outcome_account pk (q : bool) acc :
  counted acc →
  outcome (λ x, x = pk ∧ q = true) acc
    (if bool_decide (pk ∈ acc.2) then Ok acc else if q then count_account total accounts pk acc else Ok acc).
Proof.
  intros [Hst Hle]. case_bool_decide as Hin; [split; [done|naive_solver]|]. destruct q; [|split; [done|naive_solver]].
  unfold count_account. assert (Hsum : add64 acc.1 (default 0 (accounts !! pk)) = wrap64 (stake_sum ({[pk]} ∪ acc.2))).
  { rewrite stake_sum_add, Hst by done. unfold add64, wrap64, stake_of. rewrite Zplus_mod_idemp_l. f_equal. lia. }
  rewrite Hsum. fold (enough ({[pk]} ∪ acc.2)). destruct (enough ({[pk]} ∪ acc.2)) eqn:He; cbn.
  - split; [done|]. exists ({[pk]} ∪ acc.2). split; [|done].
    intros x [->%elem_of_singleton|?]%elem_of_union; [by right|by left].
  - split; [split; [done|by right]|]. intros x. rewrite elem_of_union, elem_of_singleton. tauto.
Qed.

Lemma outcome_fold {A} (f : Z * gset Pubkey → A → res SwitchForkDecision (Z * gset Pubkey)) (Q : A → Pubkey → Prop) l acc :
  counted acc → (∀ acc x, x ∈ l → counted acc → outcome (Q x) acc (f acc x)) →
  outcome (λ pk, ∃ x, x ∈ l ∧ Q x pk) acc (foldM f acc l).
Proof.
  revert acc. induction l as [|x l IH]; intros acc Hc Hf; cbn [foldM].
  - eapply outcome_iff; [|by apply outcome_skip]. cbn. intros pk. split; [done|]. by intros (x & ?%elem_of_nil & _).
  - eapply outcome_iff; [|eapply (outcome_bind (Q x) (λ pk, ∃ y, y ∈ l ∧ Q y pk)); [apply Hf; [by left|done]|]].
    + intros pk. cbn. setoid_rewrite elem_of_cons. naive_solver.
    + intros acc' Hc'. apply IH; [done|]. intros acc2 y Hy. apply Hf. by right.
Qed.

Context (r last_voted : Slot) (ancestors descendants : gmap Slot (gset Slot)) (progress : gmap Slot ForkStats).
Context (last_vote_ancestors : gset Slot).

(** The stats of a slot are computed. *)
Definition has_stats (s : Slot) : Prop := ∃ stats, progress !! s = Some stats ∧ computed stats = true.

(** The slot is after the root and on another fork than the last vote: neither
    the slot of the last vote, nor an ancestor or a descendant of it. *)
Definition on_other_fork (s : Slot) : Prop :=
  r < s ∧ s ≠ last_voted ∧ (s ∉ last_vote_ancestors) ∧ ∃ a, ancestors !! s = Some a ∧ last_voted ∉ a.

(** The newest bank of another fork: it has stats, and no descendant of it has. *)
Definition other_tip (s : Slot) : Prop :=
  on_other_fork s ∧ has_stats s ∧ ∃ ds, descendants !! s = Some ds ∧ ∀ d, d ∈ ds → ¬ has_stats d.

(** The account has, in the newest bank of another fork, a vote for a slot
    that is after the root and not on the fork of the last vote, and the vote's
    lockout includes the slot of the last vote. *)
Definition locked_out_elsewhere (pk : Pubkey) : Prop :=
  ∃ candidate stats e l start, other_tip candidate ∧
    progress !! candidate = Some stats ∧ (e, l) ∈ stats_lockout_intervals stats ∧ (start, pk) ∈ l ∧
    last_voted <= e ∧ r < start ∧ start ∉ last_vote_ancestors.

(** The account's latest vote seen in gossip is newer than the last vote and
    known to be on another fork. *)
Definition voted_elsewhere (gossip : gmap Pubkey (Slot * list Hash)) (pk : Pubkey) : Prop :=
  ∃ s hs a, gossip !! pk = Some (s, hs) ∧ last_voted < s ∧ ancestors !! s = Some a ∧ last_voted ∉ a.

Lemma is_computed_spec s : is_computed progress s = true ↔ has_stats s.
Proof. unfold is_computed, has_stats. destruct (progress !! s); naive_solver. Qed.

(** The guards of the loop leave the newest banks of other forks. *)
Lemma skip_candidate_spec candidate ds :
  descendants !! candidate = Some ds → candidate ∉ last_vote_ancestors →
  skip_candidate (E:=SwitchForkDecision) r last_voted ancestors progress candidate ds = Ok false ↔ other_tip candidate.
Proof.
  intros Hds Hlva. unfold skip_candidate, other_tip, on_other_fork, is_candidate_slot_descendant_of_last_vote.
  pose proof (is_computed_spec candidate) as Hc. destruct (is_computed progress candidate); cbn [negb]; [|naive_solver].
  destruct (existsb (is_computed progress) (elements ds)) eqn:Hex.
  { apply existsb_exists in Hex as (d & Hd%list_elem_of_In%elem_of_elements & Hdc%is_computed_spec). naive_solver. }
  assert (Hno : ∀ d, d ∈ ds → ¬ has_stats d).
  { intros d Hd%elem_of_elements%list_elem_of_In Hst%is_computed_spec.
    assert (existsb (is_computed progress) (elements ds) = true) by (apply existsb_exists; eauto). congruence. }
  destruct (Z.eqb_spec candidate last_voted); [naive_solver|].
  destruct (ancestors !! candidate) as [a|]; cbn; [|naive_solver].
  split.
  - intros [= Hb]. apply orb_false_iff in Hb as [Hb1%bool_decide_eq_false Hb2]. naive_solver lia.
  - intros ((Hr & _ & _ & a' & [= <-] & Hn) & _). f_equal. rewrite bool_decide_eq_false_2 by done. cbn. lia.
Qed.

Lemma count_interval_outcome acc x :
  counted acc →
  outcome (λ pk, pk = x.2 ∧ r < x.1 ∧ x.1 ∉ last_vote_ancestors) acc (count_interval total accounts r last_vote_ancestors acc x).
Proof.
  intros Hc. destruct x as [start pk]. unfold count_interval. cbn [fst snd].
  eapply outcome_iff; [|by apply outcome_account]. cbn. intros y.
  rewrite andb_true_iff, negb_true_iff, bool_decide_eq_false, Z.ltb_lt. tauto.
Qed.

Lemma count_candidate_outcome acc candidate ds :
  counted acc → descendants !! candidate = Some ds →
  outcome (λ pk, ∃ stats e l start, other_tip candidate ∧
      progress !! candidate = Some stats ∧ (e, l) ∈ stats_lockout_intervals stats ∧ (start, pk) ∈ l ∧
      last_voted <= e ∧ r < start ∧ start ∉ last_vote_ancestors) acc
    (count_candidate total accounts r last_voted ancestors progress last_vote_ancestors acc (candidate, ds)).
Proof.
  intros Hc Hds. unfold count_candidate. pose proof (skip_candidate_spec candidate ds Hds) as Hspec.
  destruct (skip_candidate (E:=SwitchForkDecision) r last_voted ancestors progress candidate ds) as [skip|d|] eqn:Hsk; cbn [mbind res_bind].
  - destruct skip.
    { eapply outcome_iff; [|by apply outcome_skip]. cbn. intros pk. split; [done|]. intros (stats & e & l & start & Htip & _).
      pose proof Htip as [(_ & _ & Hn & _) _]. by apply Hspec in Htip. }
    case_bool_decide as Hlva; [done|]. specialize (Hspec Hlva).
    destruct (progress !! candidate) as [stats|] eqn:Hp; cbn [mbind res_bind unwrap]; [|done].
    eapply outcome_iff; [|apply outcome_fold; [done|intros; by apply count_interval_outcome]].
    intros pk. split.
    + intros ([start pk'] & Hx & -> & Hr & Hn). apply list_elem_of_In, in_concat in Hx as (l & Hl%list_elem_of_In & Hx%list_elem_of_In).
      apply list_elem_of_fmap in Hl as ([e l'] & -> & [He Hin]%list_elem_of_filter). naive_solver.
    + intros (stats' & e & l & start & _ & [= <-] & Hin & Hx & He & Hr & Hn). exists (start, pk). split_and!; try done.
      apply list_elem_of_In, in_concat. exists l. split; [|by apply list_elem_of_In]. apply list_elem_of_In, list_elem_of_fmap.
      exists (e, l). split; [done|]. by apply list_elem_of_filter.
  - exfalso. unfold skip_candidate in Hsk. repeat (match goal with H : (if ?b then _ else _) = _ |- _ => destruct b; [done|] end).
    by destruct (is_candidate_slot_descendant_of_last_vote _ _ _).
  - done.
Qed.

Lemma count_gossip_outcome acc pk v :
  counted acc →
  outcome (λ x, x = pk ∧ last_voted < v.1 ∧ ∃ a, ancestors !! v.1 = Some a ∧ last_voted ∉ a) acc
    (count_gossip total accounts last_voted ancestors acc (pk, v)).
Proof.
  intros Hc. destruct v as [s hs]. unfold count_gossip. cbn [fst snd]. eapply outcome_iff; [|by apply outcome_account]. cbn. intros y.
  rewrite andb_true_iff, negb_true_iff, Z.ltb_lt. unfold is_candidate_slot_descendant_of_last_vote.
  destruct (ancestors !! s) as [a|]; cbn; [|naive_solver]. rewrite bool_decide_eq_false. naive_solver.
Qed.

Lemma count_locked_out_outcome gossip :
  outcome (λ pk, locked_out_elsewhere pk ∨ voted_elsewhere gossip pk) (0, ∅)
    (count_locked_out total accounts r last_voted ancestors descendants progress last_vote_ancestors gossip).
Proof.
  assert (H0 : counted (0, ∅)) by (split; [done|by left]).
  unfold count_locked_out. eapply outcome_bind.
  - eapply outcome_iff; [|apply (outcome_fold _ (λ x pk, ∃ stats e l start, other_tip x.1 ∧
      progress !! x.1 = Some stats ∧ (e, l) ∈ stats_lockout_intervals stats ∧ (start, pk) ∈ l ∧
      last_voted <= e ∧ r < start ∧ start ∉ last_vote_ancestors)); [done|]].
    + intros pk. unfold locked_out_elsewhere. split.
      * intros ([c ds] & Hx%elem_of_map_to_list & H). naive_solver.
      * intros (c & stats & e & l & start & Htip & H). pose proof Htip as (_ & _ & ds & Hds & _).
        exists (c, ds). split; [by apply elem_of_map_to_list|]. cbn. eauto 10.
    + intros acc [c ds] Hx%elem_of_map_to_list Hc. by apply count_candidate_outcome.
  - intros acc Hc. eapply outcome_iff; [|apply (outcome_fold _ (λ x pk, pk = x.1 ∧ last_voted < x.2.1 ∧
      ∃ a, ancestors !! x.2.1 = Some a ∧ last_voted ∉ a)); [done|]].
    + intros pk. unfold voted_elsewhere. split.
      * intros ([pk' [s hs]] & Hx%elem_of_map_to_list & -> & Hs & a & Ha). cbn in *. eauto 10.
      * intros (s & hs & a & Hg & H). exists (pk, (s, hs)). split; [by apply elem_of_map_to_list|]. cbn. naive_solver.
    + intros acc' [pk v] _. apply count_gossip_outcome.
Qed.
End switch.

(** C15. Leaving the fork of the last vote takes a proof.  As long as the last
    vote is on no fork marked invalid: a vote is allowed without proof only for
    the last voted slot and its descendants; a proof exists only if a set of
    vote accounts has more than 38% of the stake, each of which is locked out
    of the last vote's slot in the newest bank of another fork, by a vote after
    the root that is not on the last vote's fork, or was seen in gossip voting
    later on another fork; and a refusal reports the stake of all such
    accounts, each counted once (modulo 2^64).  The exception is a stray last
    vote, restored from a saved tower and not in the ledger: switching to an
    ancestor of it is refused, reporting zero. *)
Theorem switch_threshold_decides switch_slot ancestors descendants progress total accounts latest f t lv lh r d :
  make_check_switch_threshold_decision switch_slot ancestors descendants progress total accounts latest f t = Ok d →
  last_voted_slot_hash t = Some (lv, lh) → root_slot (vote_state t) = Some r →
  fc_latest_invalid_ancestor (fork_infos f) (lv, lh) = None →
  let lva := default ∅ (ancestors !! lv) in
  let Q pk := locked_out_elsewhere r lv ancestors descendants progress lva pk ∨
              voted_elsewhere lv ancestors (max_gossip_frozen_votes latest) pk in
  match d with
  | SameFork => switch_slot = lv ∨ ∃ a, ancestors !! switch_slot = Some a ∧ lv ∈ a
  | SwitchProof _ => ∃ S, (∀ pk, pk ∈ S → Q pk) ∧ enough total accounts S = true
  | FailedSwitchThreshold n tot =>
      tot = total ∧
      (n = 0 ∧ is_stray_last_vote t = true ∧ switch_slot ∈ lva ∨
       ∃ S, (∀ pk, pk ∈ S ↔ Q pk) ∧ n = wrap64 (stake_sum accounts S) ∧ (S = ∅ ∨ enough total accounts S = false))
  | FailedSwitchDuplicateRollback _ => False
  end.
Proof.
  unfold make_check_switch_threshold_decision, tower_root. intros Hd Hl Hr Hi. rewrite Hl, Hr in Hd. cbn in Hd.
  destruct (get_hash progress switch_slot) as [sh|]; cbn in Hd; [|done]. rewrite Hi in Hd. cbn zeta.
  assert (Hlva : ∃ lva, default ∅ (ancestors !! lv) = lva ∧
    (match ancestors !! lv with Some a => Ok a | None => if is_stray_last_vote t then Ok ∅ else Panic end) = Ok (E:=Empty_set) lva).
  { destruct (ancestors !! lv); [eauto|]. destruct (is_stray_last_vote t); [eauto|done]. }
  destruct Hlva as (lva & -> & Heq). rewrite Heq in Hd. cbn in Hd.
  destruct (ancestors !! switch_slot) as [sa|] eqn:Hsa; cbn in Hd; [|done].
  destruct (Z.eqb_spec switch_slot lv) as [->|Hne]; cbn in Hd; [injection Hd as <-; by left|].
  case_bool_decide as Hsame; [injection Hd as <-; right; eauto|].
  case_bool_decide as Hold.
  { destruct (is_stray_last_vote t) eqn:Hstray; [|done]. injection Hd as <-. split; [done|]. by left. }
  pose proof (count_locked_out_outcome total accounts r lv ancestors descendants progress lva (max_gossip_frozen_votes latest)) as Ho.
  destruct (count_locked_out _ _ _ _ _ _ _ _ _) as [[n S]|d'|] eqn:Hcount; [| |done].
  all: injection Hd as <-.
  - destruct Ho as [[Hn He] HS]. split; [done|]. right. exists S. split_and!; [|done|done]. intros pk. rewrite (HS pk). cbn. rewrite elem_of_empty. tauto.
  - destruct Ho as [-> (S & HS & He)]. exists S. split; [|done]. intros pk Hpk. destruct (HS pk Hpk) as [[]%elem_of_empty|?]; done.
Qed.

(** ** After a restart *)

Section restart.
Context `{BV : !BitVec}.

Lemma walk_anchored root h w l w' :
  is_Some (anchored_slot w) → foldM (walk_slot root h) w l = Ok w' →
  retain_flags w' = retain_flags w ++ replicate (length l) false ∧ anchored_slot w' = anchored_slot w ∧
  Forall (λ s, check s h ≠ NotFound) l.
Proof.
  revert w. induction l as [|s l IH]; intros w Ha; cbn.
  { intros [= <-]. by rewrite app_nil_r. }
  intros (w1 & Hw & Hl)%res_bind_Ok. destruct Ha as [a Ha]. unfold walk_slot in Hw. rewrite Ha in Hw. cbn in Hw.
  assert (Hnf : check s h ≠ NotFound) by (intros Hnf; by rewrite Hnf in Hw).
  rewrite (bool_decide_eq_false_2 (check s h = NotFound)) in Hw by done. cbn in Hw.
  apply res_bind_Ok in Hw as (fu & _ & (pa & _ & (_ & _ & [= <-])%res_bind_Ok)%res_bind_Ok).
  apply IH in Hl as (H1 & H2 & H3); [|cbn; eauto]. cbn in H1, H2. rewrite H1, H2, Ha, <-app_assoc. split_and!; [done|done|].
  by constructor.
Qed.

Lemma walk_flags root h w l w' :
  anchored_slot w = None → foldM (walk_slot root h) w l = Ok w' →
  ∃ pre post, l = pre ++ post ∧ Forall (λ s, check s h ≠ Found) pre ∧
    retain_flags w' = retain_flags w ++ replicate (length pre) true ++ replicate (length post) false ∧
    anchored_slot w' = head post ∧ (∀ a, head post = Some a → check a h = Found) ∧
    Forall (λ s, check s h ≠ NotFound) post.
Proof.
  revert w. induction l as [|s l IH]; intros w Ha; cbn.
  { intros [= <-]. exists [], []. cbn. rewrite app_nil_r. by split_and!. }
  intros (w1 & Hw & Hl)%res_bind_Ok. unfold walk_slot in Hw. rewrite Ha in Hw. cbn in Hw.
  destruct (decide (check s h = Found)) as [Hf|Hf];
    [rewrite (bool_decide_eq_true_2 (check s h = Found)) in Hw by done|rewrite (bool_decide_eq_false_2 (check s h = Found)) in Hw by done];
    cbn in Hw; apply res_bind_Ok in Hw as (fu & _ & (pa & _ & (_ & _ & [= <-])%res_bind_Ok)%res_bind_Ok).
  - apply walk_anchored in Hl as (H1 & H2 & H3); [|cbn; eauto]. exists [], (s :: l). cbn in H1, H2.
    rewrite H1, <-app_assoc. split_and!; try done; [by intros a [= <-]|]. constructor; [by rewrite Hf|done].
  - apply IH in Hl as (pre & post & -> & Hp & H1 & H2 & H3); [|done]. exists (s :: pre), post. cbn in H1.
    rewrite H1, <-app_assoc. split_and!; try done; [by constructor|apply H3..].
Qed.

Lemma retain_by_replicate {A} n (l : list A) :
  (n ≤ length l)%nat → retain_by (replicate n false ++ replicate (length l - n) true) l = drop n l.
Proof.
  revert l. induction n as [|n IH]; intros l Hl; cbn.
  - rewrite Nat.sub_0_r. clear Hl. induction l as [|x l IH]; cbn; [done|]. by rewrite IH.
  - destruct l as [|x l]; cbn in *; [lia|]. apply IH. lia.
Qed.

(** What the walk keeps: the votes above the newest slot of the tower the
    history holds. *)
Lemma walk_keeps r h (vs : list Lockout) w :
  foldM (walk_slot r h) walk_start (reverse (r :: (slot <$> vs))) = Ok w → anchored_slot w ≠ None →
  ∃ k anchor, retain_by (reverse (take (length (retain_flags w) - 1) (retain_flags w))) vs = drop k vs ∧
    (r :: (slot <$> vs)) !! k = Some anchor ∧ check anchor h = Found ∧
    Forall (λ s, check s h ≠ NotFound) (take (S k) (r :: (slot <$> vs))) ∧
    Forall (λ x, check (slot x) h ≠ Found) (drop k vs).
Proof.
  intros Hw Hanch. apply walk_flags in Hw as (pre & post & Hl & Hpre & Hfl & Han & Hfound & Hpost); [|done].
  cbn [retain_flags walk_start app] in Hfl. rewrite Han in Hanch. destruct post as [|a post]; [done|]. clear Hanch.
  specialize (Hfound a eq_refl). set (n := length vs).
  assert (Hlen : (S n = length pre + S (length post))%nat).
  { apply (f_equal length) in Hl. rewrite length_reverse, length_app in Hl. cbn in Hl. by rewrite length_fmap in Hl. }
  assert (Hin : r :: (slot <$> vs) = reverse (a :: post) ++ reverse pre)
    by (by rewrite <-reverse_app, <-Hl, reverse_involutive).
  exists (length post), a. split_and!.
  - rewrite Hfl. cbn [length]. rewrite replicate_S_end, app_assoc, length_app. cbn [length].
    rewrite Nat.add_sub, take_app_length, reverse_app, !reverse_replicate.
    replace (length pre) with (n - length post)%nat by lia. apply retain_by_replicate. unfold n in *. lia.
  - rewrite Hin, reverse_cons, <-app_assoc. cbn [app]. by rewrite list_lookup_middle by (by rewrite length_reverse).
  - done.
  - rewrite Hin, take_app_length' by (by rewrite length_reverse). by apply Forall_reverse.
  - apply (Forall_fmap slot (λ s, check s h ≠ Found)). rewrite fmap_drop.
    change (drop (length post) (slot <$> vs)) with (drop (S (length post)) (r :: (slot <$> vs))).
    rewrite Hin, drop_app_length' by (by rewrite length_reverse). by apply Forall_reverse.
Qed.

Lemma adjust_with_history h t t' :
  adjust_lockouts_with_slot_history h t = (t', Ok tt) →
  ∃ r k anchor, root_slot (vote_state t) = Some r ∧ root_slot (vote_state t') = Some r ∧
    votes (vote_state t') = drop k (votes (vote_state t)) ∧
    (r :: voted_slots t) !! k = Some anchor ∧ check anchor h = Found ∧
    Forall (λ s, check s h ≠ NotFound) (take (S k) (r :: voted_slots t)) ∧
    Forall (λ x, check (slot x) h ≠ Found) (votes (vote_state t')) ∧
    (if bool_decide (votes (vote_state t') = []) then last_vote t' = Vote_default
     else last_vote t' = last_vote t ∧ stray_restored_slot t' = last (voted_slots t)).
Proof.
  unfold adjust_lockouts_with_slot_history, tower_root. intros H.
  apply st_bind_Ok in H as (? & ? & [= <- <-] & H). apply st_bind_Ok in H as (t1 & r & [= <- Hr] & H).
  apply st_bind_Ok in H as (t2 & w & [= <- Hw] & H). apply st_bind_Ok in H as (? & ? & (Ha & -> & ->)%ensureS_Ok & H).
  apply st_bind_Ok in H as (t3 & ? & Has & H). unfold assert_ in Has. case_bool_decide; [injection Has as <- <-|done].
  destruct (root_slot (vote_state t)) as [r1|] eqn:Hr1; [|done]. injection Hr as ->.
  apply negb_true_iff, bool_decide_eq_false in Ha. destruct (walk_keeps _ _ _ _ Hw Ha) as (k & a & Hk & Hrest).
  rewrite Hk in H. apply st_bind_Ok in H as (t4 & ? & [= <- <-] & H). apply st_bind_Ok in H as (? & ? & [= <- <-] & H).
  exists r, k, a. split; [done|].
  case_bool_decide as Hnil.
  - injection H as <-. rewrite bool_decide_eq_true_2 by done. split_and!; [exact Hr1|done|apply Hrest..|done].
  - apply st_bind_Ok in H as (? & lv & [= <- _] & H). apply st_bind_Ok in H as (? & lt & [= <- Hlt] & H).
    apply st_bind_Ok in H as (t5 & ? & Has & H). unfold assert_ in Has. destruct (Z.eqb_spec lv lt) as [->|]; [|done].
    injection Has as <- _. injection H as <-. rewrite bool_decide_eq_false_2 by done.
    split_and!; [exact Hr1|done|apply Hrest..|done|].
    cbn [stray_restored_slot with_stray]. unfold voted_slots in Hlt |- *.
    cbn [vote_state with_vote_state votes VoteState.with_votes] in Hlt, Hnil. rewrite fmap_drop in Hlt.
    destruct (last (drop k _)) as [newest_slot|] eqn:Hx in Hlt; [|done]. injection Hlt as ->.
    rewrite <-(take_drop k (slot <$> votes (vote_state t))), last_app, Hx. done.
Qed.

(** A tower restored after a restart is brought in line with the replayed
    ledger or refused.  When it is accepted, the votes that remain are the
    newest ones of the saved tower, in order and unchanged, and all for slots
    the ledger does not have; the slot of the tower just below them is one the
    ledger has, and every older one is in the ledger or older than what it
    remembers, so no vote on another fork is forgotten.  The root moves up to
    the replayed root and never down.  The last vote is kept and marked as
    stray as long as a vote remains. *)
Theorem adjusted_tower_agrees t t' replayed_root h lv :
  tower_last_voted_slot t = Some lv →
  adjust_lockouts_after_replay replayed_root h t = (t', Ok tt) →
  ∃ r k anchor, root_slot (vote_state t) = Some r ∧
    root_slot (vote_state t') = Some (Z.max r replayed_root) ∧
    votes (vote_state t') = drop k (votes (vote_state t)) ∧
    let h' := if r <=? replayed_root then h else slot_history.add r h in
    (r :: voted_slots t) !! k = Some anchor ∧ check anchor h' = Found ∧
    Forall (λ s, check s h' ≠ NotFound) (take (S k) (r :: voted_slots t)) ∧
    Forall (λ x, check (slot x) h' ≠ Found) (votes (vote_state t')) ∧
    (if bool_decide (votes (vote_state t') = []) then last_vote t' = Vote_default
     else last_vote t' = last_vote t ∧ stray_restored_slot t' = last (voted_slots t)).
Proof.
  intros Hlv H. unfold adjust_lockouts_after_replay, tower_root in H.
  apply st_bind_Ok in H as (? & ? & [= <- <-] & H). apply st_bind_Ok in H as (t1 & r & [= <- Hr] & H).
  destruct (root_slot (vote_state t)) as [r1|] eqn:Hr1; [|done]. injection Hr as ->.
  apply st_bind_Ok in H as (t1 & ? & Ha & H). unfold assert_ in Ha at 1. destruct (bool_decide _); [injection Ha as <- _|done].
  apply st_bind_Ok in H as (t1 & ? & Ha & H). unfold assert_ in Ha at 1. destruct (eqb _ _); [injection Ha as <- _|done].
  rewrite Hlv in H. destruct (Z.leb_spec r replayed_root).
  - apply st_bind_Ok in H as (? & ? & (_ & -> & ->)%ensureS_Ok & H).
    apply st_bind_Ok in H as (t1 & [] & Hadj & [= <-]).
    destruct (adjust_with_history _ _ _ Hadj) as (r' & k & a & Hr' & _ & Hv & Hrest).
    exists r, k, a. rewrite Hr1 in Hr'. injection Hr' as <-. rewrite (proj2 (Z.leb_le _ _)), Z.max_r by lia.
    split_and!; [done..|by apply Hrest].
  - destruct (adjust_with_history _ _ _ H) as (r' & k & a & Hr' & Hroot & Hv & Hrest).
    exists r, k, a. rewrite Hr1 in Hr'. injection Hr' as <-. rewrite (proj2 (Z.leb_gt _ _)), Z.max_l by lia.
    split_and!; [done..|by apply Hrest].
Qed.

Lemma foldM_snoc {E A B} (f : A → B → res E A) a l x : foldM f a (l ++ [x]) = foldM f a l ≫= λ b, f b x.
Proof.
  revert a. induction l as [|y l IH]; intros a; cbn; [by destruct (f a x)|]. by destruct (f a y); cbn.
Qed.

Lemma walk_future r h l :
  StronglySorted Z.lt l → Forall (λ s, check s h = Future) l →
  foldM (walk_slot r h) walk_start (reverse l) = Ok (mkWalk (replicate (length l) true) true false (head l) None).
Proof.
  induction l as [|x l IH]; intros Hs Hf; [done|]. apply StronglySorted_inv in Hs as [Hs Hx]. inv Hf.
  rewrite reverse_cons, foldM_snoc, IH by done. cbn [length replicate]. rewrite replicate_cons_app.
  cbn. unfold walk_slot. rewrite H1. destruct l as [|y l]; [done|]. cbn. inv Hx. rewrite (proj2 (Z.ltb_lt x y)) by done.
  cbn [negb]. by rewrite andb_false_r.
Qed.

Lemma kept_whole h t r lv :
  root_slot (vote_state t) = Some r → tower_last_voted_slot t = Some lv → last (voted_slots t) = Some lv →
  foldM (walk_slot r h) walk_start (reverse (r :: voted_slots t)) =
    Ok (mkWalk (replicate (length (voted_slots t)) true ++ [false]) false false (Some r) (Some r)) →
  adjust_lockouts_with_slot_history h t = (with_stray (Some lv) t, Ok tt).
Proof.
  intros Hroot Hlv Hlast Hw. unfold adjust_lockouts_with_slot_history.
  apply st_bind_Ok. eexists _, _. split; [reflexivity|].
  apply st_bind_Ok. exists t, r. split; [unfold lift, tower_root; by rewrite Hroot|].
  apply st_bind_Ok. eexists t, _. split; [unfold lift; by rewrite Hw|].
  apply st_bind_Ok. exists t, tt. split; [done|]. apply st_bind_Ok. exists t, tt. split.
  { rewrite bool_decide_eq_true_2; [done|]. cbn. rewrite length_app, length_replicate. cbn. lia. }
  cbn [retain_flags]. rewrite length_app. cbn [length]. rewrite Nat.add_sub, take_app_length.
  assert (length (voted_slots t) = length (votes (vote_state t))) as -> by apply length_fmap. rewrite reverse_replicate.
  pose proof (retain_by_replicate 0 (votes (vote_state t)) ltac:(lia)) as Hk. cbn in Hk. rewrite Nat.sub_0_r in Hk. rewrite Hk.
  cbv zeta. rewrite drop_0. assert (with_vote_state (VoteState.with_votes (votes (vote_state t)) (vote_state t)) t = t) as -> by (by destruct t as [??? []]).
  apply st_bind_Ok. exists t, tt. split; [done|]. apply st_bind_Ok. eexists _, _. split; [reflexivity|].
  rewrite bool_decide_eq_false_2 by (intros H; unfold voted_slots in Hlast; by rewrite H in Hlast).
  apply st_bind_Ok. exists t, lv. split; [unfold lift; by rewrite Hlv|].
  apply st_bind_Ok. exists t, lv. split; [unfold lift; by rewrite Hlast|].
  apply st_bind_Ok. exists t, tt. split; [by rewrite Z.eqb_refl|]. done.
Qed.

Context `{BVok : !BitVecOk}.

(** A tower from the future of the ledger, one with a root above the
    replayed root, is never refused and never panics: all its votes are kept
    and so is its root, and the last vote is marked as stray. *)
Theorem future_tower_kept t r lv replayed_root A n h :
  holds A n h → (∀ s, A s → s < n) → 0 < n <= r → r < u64_max →
  check replayed_root h = Found → replayed_root < r →
  root_slot (vote_state t) = Some r → StronglySorted Z.lt (r :: voted_slots t) →
  tower_last_voted_slot t = Some lv → last (voted_slots t) = Some lv →
  adjust_lockouts_after_replay replayed_root h t = (with_stray (Some lv) t, Ok tt).
Proof.
  intros Hh HA Hn Hr Hrep Hlt Hroot Hs Hlv Hlast.
  assert (Hw : foldM (walk_slot r (slot_history.add r h)) walk_start (reverse (r :: voted_slots t)) =
    Ok (mkWalk (replicate (length (voted_slots t)) true ++ [false]) false false (Some r) (Some r))).
  { pose proof (add_holds A n h r Hh ltac:(lia) Hr HA) as Hh'. apply StronglySorted_inv in Hs as [Hs Hgt].
    assert (Hb : 0 < r + 1 <= u64_max) by lia.
    rewrite reverse_cons, foldM_snoc, walk_future; [|done|].
    - cbn. unfold walk_slot. rewrite (check_holds _ _ _ r Hh' Hb) by lia.
      rewrite (proj2 (Z.leb_gt _ _)), (proj2 (Z.ltb_ge _ _)) by (unfold MAX_ENTRIES; lia).
      rewrite (proj2 (h_bits _ _ _ Hh' r ltac:(unfold MAX_ENTRIES; lia))) by (by right). cbn.
      destruct (voted_slots t) as [|y l]; [done|]. cbn. inv Hgt. rewrite (proj2 (Z.ltb_lt r y)) by done.
      by rewrite andb_false_r.
    - eapply Forall_impl; [exact Hgt|]. intros s Hrs. rewrite (check_holds _ _ _ s Hh' Hb) by lia.
      by rewrite (proj2 (Z.leb_le _ _)) by lia. }
  unfold adjust_lockouts_after_replay. apply st_bind_Ok. eexists _, _. split; [reflexivity|].
  apply st_bind_Ok. exists t, r. split; [unfold lift, tower_root; by rewrite Hroot|].
  apply st_bind_Ok. exists t, tt. split; [by rewrite bool_decide_eq_true_2 by done|].
  apply st_bind_Ok. exists t, tt. split.
  { rewrite !bool_decide_eq_false_2; [done| |]; intros H.
    - unfold voted_slots in Hlast. by rewrite H in Hlast.
    - unfold tower_last_voted_slot in Hlv. by rewrite H in Hlv. }
  rewrite Hlv, (proj2 (Z.leb_gt _ _)) by lia. by eapply kept_whole.
Qed.
End restart.

(** ** Examples *)

Module example.
(** Slots 1 and 2 in a row above the root 0, and slot 7 on a fork of its own. *)
Definition anc (s : Slot) : gset Slot :=
  if s =? 1 then {[0]} else if s =? 2 then {[0; 1]} else if s =? 7 then {[0]} else ∅.

Lemma anc_trans a b c : a ∈ anc b → b ∈ anc c → a ∈ anc c.
Proof.
  unfold anc. destruct (Z.eqb_spec c 1) as [->|]; [|destruct (Z.eqb_spec c 2) as [->|]; [|destruct (Z.eqb_spec c 7) as [->|]]].
  - intros Ha ->%elem_of_singleton. done.
  - intros Ha [->%elem_of_singleton| ->%elem_of_singleton]%elem_of_union; [done|set_solver].
  - intros Ha ->%elem_of_singleton. done.
  - set_solver.
Qed.

Definition cast (s : Slot) (t : Tower) : Tower := (record_bank_vote_and_update_lockouts 0 s 5 None t).1.
Definition t0 : Tower := Tower_default.
Definition t1 : Tower := cast 1 t0.
Definition t2 : Tower := cast 2 t1.
Definition t3 : Tower := cast 7 t2.

Lemma votes_never_conflict_witness :
  (1 ∈ anc 2 ∨ expired [(t0, 1); (t1, 2); (t2, 7)] 0 1 1) ∧
  (2 ∈ anc 7 ∨ expired [(t0, 1); (t1, 2); (t2, 7)] 1 2 2).
Proof.
  assert (H0 : on_one_fork anc t0) by (split; [apply tower_inv_nil|constructor|by constructor]).
  assert (Hv : voting anc t0 [(t0, 1); (t1, 2); (t2, 7)] t3).
  { apply (voting_vote anc t0 [(t0, 1); (t1, 2)] t2 7 0 5 None t3 None); [|vm_compute; reflexivity..].
    apply (voting_vote anc t0 [(t0, 1)] t1 2 0 5 None t2 None); [|vm_compute; reflexivity..].
    apply (voting_vote anc t0 [] t0 1 0 5 None t1 None); [|vm_compute; reflexivity..]. constructor. }
  split; eapply (votes_never_conflict anc anc_trans t0 _ t3); try done; lia.
Defined.

(** Account 10, with 40 of the stake of 100, has voted for slot 7 there. *)
Definition ancestors : gmap Slot (gset Slot) := {[ 0 := ∅; 1 := anc 1; 2 := anc 2; 7 := anc 7 ]}.
Definition descendants : gmap Slot (gset Slot) := {[ 0 := {[1; 2; 7]}; 1 := {[2]}; 2 := ∅; 7 := ∅ ]}.
Definition progress : gmap Slot ForkStats := {[ 2 := mkForkStats true [] (Some 5); 7 := mkForkStats true [(9, [(7, 10)])] (Some 6) ]}.
Definition accounts : gmap Pubkey Z := {[ 10 := 40; 11 := 60 ]}.
Definition empty_forks : HeaviestSubtreeForkChoice := mkForkChoice ∅ ∅ (0, 0).

Lemma switch_threshold_decides_witness :
  ∃ S, (∀ pk, pk ∈ S → locked_out_elsewhere 0 2 ancestors descendants progress (anc 2) pk ∨ voted_elsewhere 2 ancestors ∅ pk) ∧
    enough 100 accounts S = true.
Proof.
  exact (switch_threshold_decides 7 ancestors descendants progress 100 accounts latest_votes_default empty_forks t2 2 5 0
    (SwitchProof Hash_default) ltac:(vm_compute; reflexivity) ltac:(vm_compute; reflexivity)
    ltac:(vm_compute; reflexivity) ltac:(vm_compute; reflexivity)).
Defined.

(** The ledger has slots 0, 1 and 3; of the votes for 1 and 2 the second one
    is kept. *)
Import slot_history.example.
Definition history : SlotHistory := slot_history.add 3 (slot_history.add 1 SlotHistory_default).

Lemma adjusted_tower_agrees_witness :
  ∃ r k anchor, root_slot (vote_state t2) = Some r ∧ (r :: voted_slots t2) !! k = Some anchor ∧ check anchor history = Found.
Proof.
  destruct (adjusted_tower_agrees t2 (adjust_lockouts_after_replay 3 history t2).1 3 history 2
    ltac:(vm_compute; reflexivity) ltac:(vm_compute; reflexivity)) as (r & k & a & Hr & _ & _ & Hk & Ha & _).
  vm_compute in Hr. injection Hr as <-. exists 0, k, a. split_and!; [reflexivity|exact Hk|exact Ha].
Defined.

Definition future_tower : Tower := cast 8 (cast 6 (initialize_root 5 Tower_default)).

Lemma future_tower_kept_witness :
  adjust_lockouts_after_replay 3 history future_tower = (with_stray (Some 8) future_tower, Ok tt).
Proof.
  eapply (future_tower_kept future_tower 5 8 3 (λ s, (s = 0 ∨ s = 1) ∨ s = 3) 4 history).
  - apply (add_holds _ 2); [|lia|done|lia]. apply (add_holds _ 1); [apply default_holds|lia|done|lia].
  - lia.
  - lia.
  - done.
  - vm_compute. reflexivity.
  - lia.
  - vm_compute. reflexivity.
  - vm_compute. repeat constructor.
  - vm_compute. reflexivity.
  - vm_compute. reflexivity.
Defined.
End example.
End tower_props.
