(* ===== verification/TowerStakes.v ===== *)
(** * The stake behind every slot

    What [Tower::collect_vote_lockouts] of core/src/consensus.rs computes from
    the vote accounts of a bank: for every slot the stake of the accounts whose
    last live vote is that slot or a descendant of it, and for every vote the
    interval of slots it locks its account out of.  These are what the
    threshold check and the switch proofs are decided on. *)

From S2P Require Import Prelude F64 Account Sysvar BTreeMap VoteState VoteTower VoteProps VoteProgram ForkChoice Tower TowerProps.

Module tower_stakes.
Import fork_choice consensus tower_props.

(** ** The votes seen for frozen banks *)

(** What is reported as new has been recorded. *)
Definition latest_ok (l : LatestValidatorVotesForFrozenBanks) : Prop :=
  ∀ pk ds dh, fork_choice_dirty_set l !! pk = Some (ds, dh) →
    ∃ s hs, max_replay_frozen_votes l !! pk = Some (s, hs) ∧ ∀ h, h ∈ dh → h ∈ hs.

Lemma set_both_ok l pk ds dh s hs :
  latest_ok l → (∀ h, h ∈ dh → h ∈ hs) →
  latest_ok (set_frozen_vote true pk (s, hs) (set_dirty pk (ds, dh) l)).
Proof.
  intros Hl Hh pk' ds' dh'. cbn. destruct (decide (pk = pk')) as [->|Hne].
  - rewrite !lookup_insert_eq. intros [= <- <-]. eauto.
  - rewrite !lookup_insert_ne by done. apply Hl.
Qed.

Lemma check_add_vote_ok pk s oh l :
  latest_ok l → ∃ l' r, check_add_vote pk s oh true l = (l', Ok r) ∧ latest_ok l'.
Proof.
  intros Hl. unfold check_add_vote. cbv [mbind st_bind mret st_ret get modify]. cbn beta iota.
  destruct oh as [hash|]; [|eauto].
  destruct (max_replay_frozen_votes l !! pk) as [[ls lh]|] eqn:Hm.
  - destruct (ls <? s); [|destruct ((s =? ls) && _) eqn:Hnew].
    + do 2 eexists. split; [reflexivity|]. by apply set_both_ok.
    + apply andb_true_iff in Hnew as [_ Hnew%negb_true_iff%bool_decide_eq_false].
      destruct (fork_choice_dirty_set l !! pk) as [[ds dh]|] eqn:Hd; cbn [default].
      * destruct (Hl _ _ _ Hd) as (s1 & hs & Hm' & Hsub). rewrite Hm in Hm'. injection Hm' as <- <-.
        unfold assert_. cbn. rewrite bool_decide_eq_false_2 by auto. cbn.
        do 2 eexists. split; [reflexivity|]. apply set_both_ok; [done|]. set_solver.
      * do 2 eexists. split; [reflexivity|]. apply set_both_ok; [done|]. set_solver.
    + eauto.
  - do 2 eexists. split; [reflexivity|]. by apply (set_both_ok l pk s [hash] s [hash] Hl).
Qed.

(** ** The stakes of the slots *)

Abbreviation VoteAccountEntry := (Pubkey * (Z * option VoteState))%type (only parsing).

Section collect.
Context (bank_slot : Slot) (ancestors : gmap Slot (gset Slot)).
Context (anc_irrefl : ∀ s a, ancestors !! s = Some a → s ∉ a).

(** The last vote that still binds at [bank_slot]. *)
Definition live_vote (v : VoteState) : option Slot := slot <$> last_lockout (pop_expired_votes bank_slot v).

(** The account's last live vote is for [s] or a descendant of it. *)
Definition supports (s : Slot) (x : VoteAccountEntry) : bool :=
  match x.2.2 ≫= live_vote with
  | Some u => match ancestors !! u with Some a => bool_decide (s = u ∨ s ∈ (a : gset Slot)) | None => false end
  | None => false
  end.

Definition readable_stake (x : VoteAccountEntry) : Z := if x.2.2 is Some _ then x.2.1 else 0.
Definition supporting_stake (s : Slot) (x : VoteAccountEntry) : Z := if supports s x then x.2.1 else 0.

(** The account is locked out from [start] to [e] by one of its votes. *)
Definition locks (e start : Slot) (pk : Pubkey) (x : VoteAccountEntry) : Prop :=
  x.1 = pk ∧ x.2.1 ≠ 0 ∧ ∃ v l, x.2.2 = Some v ∧ l ∈ votes v ∧ slot l = start ∧ last_locked_out_slot l = e.

(** In a bank at [bank_slot] the accounts have voted for earlier slots only. *)
Definition account_ok (x : VoteAccountEntry) : Prop :=
  ∀ v, x.2.2 = Some v → tower_inv (votes v) ∧ ¬ stale bank_slot v.

Definition stake_at (m : gmap Slot Z) (s : Slot) : Z := default 0 (m !! s).

Lemma add_stakes st l (m : gmap Slot Z) s :
  NoDup l →
  stake_at (foldl (λ m s, <[s := add64 (default 0 (m !! s)) st]> m) m l) s =
  if bool_decide (s ∈ l) then add64 (stake_at m s) st else stake_at m s.
Proof.
  intros Hnd. revert m. induction Hnd as [|x l Hx Hnd IH]; intros m; cbn; [by rewrite bool_decide_eq_false_2 by set_solver|].
  rewrite IH. unfold stake_at. destruct (decide (x = s)) as [->|Hne].
  - rewrite lookup_insert_eq. rewrite bool_decide_eq_false_2, bool_decide_eq_true_2 by set_solver. done.
  - rewrite lookup_insert_ne by done. by rewrite (bool_decide_ext _ (s ∈ x :: l)) by set_solver.
Qed.

Lemma update_stakes u st m s :
  stake_at (update_ancestor_voted_stakes u st ancestors m) s =
  if match ancestors !! u with Some a => bool_decide (s = u ∨ s ∈ a) | None => false end
  then add64 (stake_at m s) st else stake_at m s.
Proof using anc_irrefl.
  unfold update_ancestor_voted_stakes. destruct (ancestors !! u) as [a|] eqn:Ha; [|done].
  pose proof (add_stakes st (u :: elements a) m s) as H. cbn in H |- *. rewrite H.
  - by rewrite (bool_decide_ext _ (s = u ∨ s ∈ a)) by (by rewrite elem_of_cons, elem_of_elements).
  - constructor; [|apply NoDup_elements]. rewrite elem_of_elements. by eapply anc_irrefl.
Qed.

Lemma populate_stakes l m s : stake_at (populate_ancestor_voted_stakes l ancestors m) s = stake_at m s.
Proof.
  assert (H1 : ∀ l m, stake_at (foldl (λ (m : gmap Slot Z) s, <[s := default 0 (m !! s)]> m) m l) s = stake_at m s).
  { clear. induction l as [|x l IH]; intros m; cbn; [done|]. rewrite IH. unfold stake_at.
    destruct (decide (x = s)) as [->|Hne]; [by rewrite lookup_insert_eq|by rewrite lookup_insert_ne]. }
  unfold populate_ancestor_voted_stakes. revert m. induction l as [|u l IH]; intros m; cbn; [done|]. rewrite IH.
  destruct (ancestors !! u) as [a|]; [|done].
  apply (H1 (u :: elements a) m).
Qed.

(** *** The intervals *)

Definition interval_of (m : list (Slot * list (Slot * Pubkey))) (e start : Slot) (pk : Pubkey) : Prop :=
  ∃ l, bt_get e m = Some l ∧ (start, pk) ∈ l.

Lemma push_intervals key l m e start pk :
  interval_of (foldl (push_interval key) m l) e start pk ↔
  interval_of m e start pk ∨ key = pk ∧ ∃ x, x ∈ l ∧ slot x = start ∧ last_locked_out_slot x = e.
Proof.
  revert m. induction l as [|x l IH]; intros m; cbn; [naive_solver set_solver|]. rewrite IH.
  assert (Hpush : interval_of (push_interval key m x) e start pk ↔
    interval_of m e start pk ∨ key = pk ∧ slot x = start ∧ last_locked_out_slot x = e).
  { unfold interval_of, push_interval. destruct (decide (last_locked_out_slot x = e)) as [<-|Hne].
    - rewrite bt_get_insert_eq. destruct (bt_get _ m) as [l0|]; cbn.
      + split.
        * intros (? & [= <-] & [?|[= -> ->]%list_elem_of_singleton]%elem_of_app); eauto.
        * intros [(? & [= ->] & ?)|(-> & <- & _)]; eexists; (split; [reflexivity|]); rewrite elem_of_app; [by left|right; set_solver].
      + split; [intros (? & [= <-] & [= -> ->]%list_elem_of_singleton); auto|].
        intros [(? & [=] & _)|(-> & <- & _)]. eexists. split; [reflexivity|]. set_solver.
    - rewrite bt_get_insert_ne by done. naive_solver. }
  rewrite Hpush. setoid_rewrite elem_of_cons. naive_solver.
Qed.

(** *** One account *)

Lemma simulated_vote v :
  tower_inv (votes v) → ¬ stale bank_slot v →
  let v' := process_slot_vote_unchecked bank_slot v in
  slot <$> nth_recent_vote v' 0 = Some bank_slot ∧ slot <$> nth_recent_vote v' 1 = live_vote v.
Proof.
  intros Hinv Hst. cbn zeta. unfold process_slot_vote_unchecked. rewrite process_single.
  assert (Hpush : ∃ l, slot <$> votes (process_next_vote_slot bank_slot (current_epoch v) v) = (slot <$> l) ++ [bank_slot] ∧
    last l = last (votes (pop_expired_votes bank_slot v))).
  { destruct (process_next_vote_slot_cases bank_slot (current_epoch v) v Hinv)
      as [[? _]|[(_ & Hlen & Hv & _)|(_ & o & rest & Hko & Hlen & Hv & _)]]; [done|..]; rewrite Hv, push_vote_slots; eexists; (split; [reflexivity|]).
    - done.
    - rewrite Hko in *. by destruct rest. }
  destruct Hpush as (l & Hl & Hlast). unfold live_vote, last_lockout. rewrite <-Hlast.
  set (v' := process_next_vote_slot _ _ _) in *.
  assert (Hn : length (votes v') = S (length l)).
  { rewrite <-(length_fmap slot), Hl, length_app, length_fmap. cbn. lia. }
  unfold nth_recent_vote. rewrite Hn, bool_decide_eq_true_2 by lia. rewrite <-!list_lookup_fmap.
  rewrite Hl. split; [by rewrite list_lookup_middle by (rewrite length_fmap; lia)|].
  destruct l as [|x0 l0 _] using rev_ind; [done|]. rewrite length_app in *. cbn [length] in *.
  rewrite bool_decide_eq_true_2 by lia. rewrite <-list_lookup_fmap, Hl, last_snoc, fmap_app, <-app_assoc. cbn [app fmap list_fmap].
  by rewrite list_lookup_middle by (rewrite length_fmap; lia).
Qed.

Context (me : Pubkey) (get_frozen_hash : Slot → option Hash).

Lemma wrap64_add x y : add64 (wrap64 x) y = wrap64 (x + y).
Proof. unfold add64, wrap64. by rewrite Z.add_mod_idemp_l. Qed.

(** What is known of the sums after the accounts [done] have been collected. *)
Record collected (done : list VoteAccountEntry) (c : ComputedBankState) : Prop := {
  co_total : total_stake c = wrap64 (sum_with readable_stake done);
  co_stakes s : stake_at (voted_stakes c) s = wrap64 (sum_with (supporting_stake s) done);
  co_intervals e start pk :
    interval_of (lockout_intervals c) e start pk ↔ ∃ x, x ∈ done ∧ locks e start pk x;
}.

Lemma collected_skip dn c x :
  collected dn c → x.2.1 = 0 ∨ x.2.2 = None → collected (dn ++ [x]) c.
Proof.
  intros [Ht Hs Hi] Hx. destruct x as [pk [st ov]]. cbn in Hx. split.
  - rewrite Ht, sum_with_app. cbn. unfold readable_stake. cbn. f_equal. destruct ov, Hx as [->|?]; try done; lia.
  - intros s. rewrite Hs, sum_with_app. cbn. unfold supporting_stake. f_equal.
    destruct Hx as [->| ->]; [destruct (supports _ _)|]; cbn; lia.
  - intros e start pk'. rewrite Hi. setoid_rewrite elem_of_app. unfold locks at 2.
    split; [naive_solver|]. intros (y & [Hy| ->%list_elem_of_singleton] & Hl); [eauto|].
    destruct Hl as (_ & Hst & v & _ & Hv & _). cbn in Hst, Hv. destruct Hx; congruence.
Qed.

Lemma collect_account_step dn c vs x l :
  collected dn c → account_ok x → latest_ok l →
  ∃ l' c' vs', collect_account me bank_slot ancestors get_frozen_hash (c, vs) x l = (l', Ok (c', vs')) ∧
    latest_ok l' ∧ collected (dn ++ [x]) c'.
Proof using anc_irrefl.
  intros Hc Hx Hl. destruct x as [key [st [v|]]]; cbn [collect_account]; destruct (Z.eqb_spec st 0) as [->|Hst].
  1, 3, 4: by exists l, c, vs; split_and!; [done..|apply collected_skip; auto].
  destruct (Hx v eq_refl) as [Hinv Hfresh]. destruct (simulated_vote v Hinv Hfresh) as [H0 H1].
  assert (Hadd : ∃ l', (match last_voted_slot v with
       | Some s => check_add_vote key s (get_frozen_hash s) true;; mret tt
       | None => mret tt
       end) l = (l', Ok tt) ∧ latest_ok l').
  { destruct (last_voted_slot v) as [s|]; [|by exists l].
    destruct (check_add_vote_ok key s (get_frozen_hash s) l Hl) as (l' & r & Hr & Hl'). exists l'.
    split; [|done]. unfold mbind, st_bind. by rewrite Hr. }
  destruct Hadd as (l' & Hadd & Hl').
  do 3 eexists. split_and!; [|exact Hl'|].
  { apply st_bind_Ok. exists l', tt. split; [exact Hadd|]. cbv zeta. apply st_bind_Ok. exists l', tt.
    split; [by rewrite bool_decide_eq_true_2 by done|reflexivity]. }
  destruct Hc as [Ht Hs Hi]. split; cbn [total_stake voted_stakes lockout_intervals].
  - rewrite Ht, wrap64_add, sum_with_app. unfold sum_with at 3. cbn. f_equal. unfold readable_stake. cbn. lia.
  - intros s. rewrite sum_with_app. cbn [sum_with foldr].
    unfold supporting_stake at 2, supports. cbn [fst snd mbind option_bind]. rewrite <-H1. clear H0 H1.
    destruct (nth_recent_vote _ 1) as [u|]; cbn; [rewrite update_stakes, Hs|by rewrite Hs, !Z.add_0_r].
    destruct (ancestors !! slot u); [|by rewrite !Z.add_0_r]. case_bool_decide; [|by rewrite !Z.add_0_r].
    by rewrite wrap64_add, Z.add_0_r.
  - intros e start pk. rewrite push_intervals, Hi. setoid_rewrite elem_of_app. unfold locks. split.
    + intros [(y & Hy & Hlk)|(-> & y & Hy & Hlk)]; [by exists y; auto|].
      exists (pk, (st, Some v)). split; [right; by apply list_elem_of_singleton|]. eauto 10.
    + intros (y & [Hy| ->%list_elem_of_singleton] & Hlk); [left; eauto|right].
      destruct Hlk as (Hk & _ & v' & y & [= <-] & Hlk). eauto.
Qed.

Lemma collect_accounts_spec dn c vs accounts l :
  collected dn c → Forall account_ok accounts → latest_ok l →
  ∃ l' c' vs', collect_accounts me bank_slot ancestors get_frozen_hash (c, vs) accounts l = (l', Ok (c', vs')) ∧
    latest_ok l' ∧ collected (dn ++ accounts) c'.
Proof using anc_irrefl.
  intros Hc Hall. revert dn c vs l Hc. induction Hall as [|x accounts Hx Hall IH]; intros dn c vs l Hc Hl; cbn.
  { exists l, c, vs. by rewrite app_nil_r. }
  destruct (collect_account_step dn c vs x l Hc Hx Hl) as (l1 & c1 & vs1 & Hrun & Hl1 & Hc1).
  destruct (IH _ _ vs1 _ Hc1 Hl1) as (l2 & c2 & vs2 & Hrun2 & Hl2 & Hc2). rewrite <-app_assoc in Hc2.
  exists l2, c2, vs2. split_and!; [|done..]. apply st_bind_Ok. eauto.
Qed.

(** Collecting the votes in a bank always succeeds, and yields for every
    slot the stake of the vote accounts whose last vote that still binds at
    the bank's slot is for that slot or for a descendant of it, the total
    stake of the accounts, and for every staked account and each vote in its
    state, and for nothing else, the interval of slots the vote locks out. *)
Theorem collected_stakes accounts l :
  Forall account_ok accounts → latest_ok l →
  ∃ l' c, collect_vote_lockouts me bank_slot ancestors get_frozen_hash accounts l = (l', Ok c) ∧ latest_ok l' ∧
    total_stake c = wrap64 (sum_with readable_stake accounts) ∧
    (∀ s, stake_at (voted_stakes c) s = wrap64 (sum_with (supporting_stake s) accounts)) ∧
    ∀ e start pk, interval_of (lockout_intervals c) e start pk ↔ ∃ x, x ∈ accounts ∧ locks e start pk x.
Proof using anc_irrefl.
  intros Hacc Hl.
  assert (H0 : collected [] (mkComputedBankState ∅ 0 0 [] None)).
  { split; [done|done|]. intros. unfold interval_of. cbn. set_solver. }
  destruct (collect_accounts_spec [] _ ∅ accounts l H0 Hacc Hl) as (l' & c & vs & Hrun & Hl' & [Ht Hs Hi]).
  do 2 eexists. split.
  { unfold collect_vote_lockouts. apply st_bind_Ok. exists l', (c, vs). split; [exact Hrun|reflexivity]. }
  split_and!; [exact Hl'|exact Ht| |exact Hi]. intros s. cbn [voted_stakes]. by rewrite populate_stakes.
Qed.
End collect.

Module example.
Import tower_props.example.

(** Account 10 has voted for slots 1 and 2, account 11 for slot 1. *)
Definition vote_accounts : list (Pubkey * (Z * option VoteState)) :=
  [(10, (40, Some (vote_state t2))); (11, (60, Some (vote_state t1))); (12, (5, None))].

Lemma vote_list_ok : Forall (account_ok 3) vote_accounts.
Proof.
  assert (H : ∀ l, tower_inv (votes (foldl (λ v s, process_next_vote_slot s 0 v) VoteState_default l)))
    by (intros l; apply fold_process_inv; split_and!; [apply tower_inv_nil|done|cbn; lia]).
  apply Forall_cons. split; [|apply Forall_cons; split; [|apply Forall_singleton; done]].
  - intros ? [= <-]. split; [exact (H [1; 2])|by vm_compute].
  - intros ? [= <-]. split; [exact (H [1])|by vm_compute].
Qed.

Lemma ancestors_irrefl s a : ancestors !! s = Some a → s ∉ a.
Proof.
  intros Ha. assert (Hall : map_Forall (λ s a, s ∉ a) ancestors); [|exact (Hall s a Ha)].
  apply (bool_decide_unpack (map_Forall (λ s a, s ∉ a) ancestors)). vm_compute. done.
Qed.

Lemma collected_stakes_witness :
  ∃ l' c, collect_vote_lockouts 10 3 ancestors (λ _, Some 5) vote_accounts latest_votes_default = (l', Ok c) ∧
    total_stake c = 100 ∧ stake_at (voted_stakes c) 1 = 100 ∧ stake_at (voted_stakes c) 2 = 40.
Proof.
  destruct (collected_stakes 3 ancestors ancestors_irrefl 10 (λ _, Some 5) vote_accounts latest_votes_default
    vote_list_ok ltac:(done)) as (l' & c & Hrun & _ & Ht & Hs & _).
  exists l', c. split; [exact Hrun|]. rewrite Ht, !Hs. vm_compute. done.
Defined.
End example.
End tower_stakes.
