(* ===== verification/TowerStorage.v ===== *)
(** * The tower on disk

    [Tower::save], [Tower::restore] and [SavedTower] of core/src/consensus.rs:
    a validator signs its tower and writes it to a file before it sends a vote,
    and reads it back when it starts.  The ledger directory is a map from file
    names to contents, as the operating system shows it to processes; [bincode]
    and the signatures are parameters, and every file operation may fail.  The
    process may stop at any point of a save; whatever the point, the next start
    finds the tower saved before or the new one, never a mixture.  The code
    skips the syncs, so after a loss of power the directory can hold anything;
    a start then still accepts only what the node signed. *)

From S2P Require Import Prelude F64 Account Serial BTreeMap VoteState VoteTower VoteProps VoteWf VoteProgram ForkChoice Tower.
From Stdlib Require Import Strings.Byte SpecFloat.

(** The ed25519 signatures of the sdk: what a key pair signs verifies with its
    public key. *)
Class Signing : Type := {
  Keypair : Type;
  keypair_pubkey : Keypair → Pubkey;
  sign_message : Keypair → list byte → list byte;
  signature_verify : list byte → Pubkey → list byte → bool;
}.

Class SigningOk `{!Signing} : Prop := {
  verify_signed k m : signature_verify (sign_message k m) (keypair_pubkey k) m = true;
}.

Module tower_storage.
Import consensus.

(** The fields of a tower that are written; the others carry [serde(skip)] and
    get their default values when a tower is read. *)
Record TowerFields : Type := mkTowerFields {
  f_node_pubkey : Pubkey;
  f_threshold_depth : nat;
  f_threshold_size : f64;
  f_vote_state : VoteState;
  f_last_vote : Vote;
  f_last_timestamp : BlockTimestamp;
}.

Definition Tower_fields (t : Tower) : TowerFields :=
  mkTowerFields (node_pubkey t) (threshold_depth t) (threshold_size t) (vote_state t) (last_vote t) (tower_last_timestamp t).
Definition Tower_of_fields (f : TowerFields) : Tower :=
  mkTower (f_node_pubkey f) (f_threshold_depth f) (f_threshold_size f) (f_vote_state f) (f_last_vote f) Hash_default
    (f_last_timestamp f) None None.

Record SavedTower : Type := mkSavedTower {
  signature : list byte;
  data : list byte;
}.

(** The files of one ledger directory: each node's tower and the one being
    written. *)
Inductive FileName : Type := TowerFile (node : Pubkey) | TmpFile (node : Pubkey).
#[export] Instance FileName_eq_dec : EqDecision FileName.
Proof. solve_decision. Defined.
#[export] Instance FileName_countable : Countable FileName.
Proof.
  refine (inj_countable' (λ n, match n with TowerFile p => (true, p) | TmpFile p => (false, p) end)
    (λ x, if x.1 then TowerFile x.2 else TmpFile x.2) _). by intros [].
Defined.

Abbreviation Files := (gmap FileName (list byte)) (only parsing).

Definition get_filename (node : Pubkey) : FileName := TowerFile node.
Definition get_tmp_filename (node : Pubkey) : FileName := TmpFile node.

Section storage.
Context `{!Signing, !Codec TowerFields, !Codec SavedTower}.

(** What the environment makes of the operations of a save: whether the file
    is created, the tower encoded, the file written and renamed; a write that
    fails leaves the first [n] bytes. *)
Record Io : Type := mkIo {
  io_create : bool;
  io_encode : bool;
  io_write : option nat;
  io_rename : bool;
}.

Definition Io_ok : Io := mkIo true true None true.

Definition SavedTower_new (t : Tower) (keypair : Keypair) : SavedTower :=
  let d := bincode_ser (Tower_fields t) in
  mkSavedTower (sign_message keypair d) d.

(** [SavedTower::new] with its error exit *)
Definition SavedTower_try_new (io : Io) (t : Tower) (keypair : Keypair) : res TowerError SavedTower :=
  if io_encode io then Ok (SavedTower_new t keypair) else Err SerializeError.

Definition SavedTower_verify (s : SavedTower) (pubkey : Pubkey) : bool := signature_verify (signature s) pubkey (data s).

Definition SavedTower_deserialize (s : SavedTower) : res TowerError Tower :=
  match deserialize (data s) with Some f => Ok (Tower_of_fields f) | None => Err SerializeError end.

(** [File::create], [bincode::serialize_into] and [fs::rename]; an error of the
    second is one of [bincode]. *)
Definition file_create (n : FileName) (fs : Files) : Files := <[n := []]> fs.
Definition file_append (n : FileName) (d : list byte) (fs : Files) : Files := <[n := default [] (fs !! n) ++ d]> fs.

Definition try_create (io : Io) (n : FileName) : ST Files TowerError unit := λ fs,
  if io_create io then (file_create n fs, Ok tt) else (fs, Err IoError).
Definition try_write (io : Io) (n : FileName) (d : list byte) : ST Files TowerError unit := λ fs,
  match io_write io with
  | None => (file_append n d fs, Ok tt)
  | Some len => (file_append n (take len d) fs, Err SerializeError)
  end.
Definition try_rename (io : Io) (from to : FileName) : ST Files TowerError unit := λ fs,
  if io_rename io then
    match fs !! from with
    | Some d => (<[to := d]> (delete from fs), Ok tt)
    | None => (fs, Err IoError)
    end
  else (fs, Err IoError).

(** The tower's own paths are the ones of its node. *)
Definition save (io : Io) (keypair : Keypair) (t : Tower) : ST Files TowerError unit :=
  ensureS (bool_decide (node_pubkey t = keypair_pubkey keypair)) WrongTower;;
  let filename := get_filename (node_pubkey t) in
  let new_filename := get_tmp_filename (node_pubkey t) in
  try_create io new_filename;;
  saved_tower ← lift (SavedTower_try_new io t keypair);
  try_write io new_filename (bincode_ser saved_tower);;
  try_rename io new_filename filename.

Definition restore (node : Pubkey) (fs : Files) : res TowerError Tower :=
  match fs !! get_filename node with
  | None => Err IoError
  | Some file =>
      match deserialize file with
      | None => Err SerializeError
      | Some saved_tower =>
          ensure (SavedTower_verify saved_tower node) InvalidSignature;;
          tower ← SavedTower_deserialize saved_tower;
          ensure (bool_decide (node_pubkey tower = node)) WrongTower;;
          Ok tower
      end
  end.

(** ** Crashes *)

(** The directory as the process may leave it when it stops during a save that
    starts in [fs]: before it, with any part of the new file written, or at the
    end of the save, which may have failed. *)
Inductive crash (keypair : Keypair) (t : Tower) (fs : Files) : Files → Prop :=
  | crash_before : crash keypair t fs fs
  | crash_writing part rest :
      bincode_ser (SavedTower_new t keypair) = part ++ rest →
      crash keypair t fs (file_append (get_tmp_filename (node_pubkey t)) part
        (file_create (get_tmp_filename (node_pubkey t)) fs))
  | crash_after io fs' r : save io keypair t fs = (fs', r) → crash keypair t fs fs'.

Context `{!SigningOk, !Wf TowerFields, !Wf SavedTower, !CodecOk TowerFields, !CodecOk SavedTower}.

(** The tower as it is read back. *)
Definition restored (t : Tower) : Tower := Tower_of_fields (Tower_fields t).

Lemma restore_saved fs k t :
  node_pubkey t = keypair_pubkey k → wf (Tower_fields t) → wf (SavedTower_new t k) →
  fs !! get_filename (node_pubkey t) = Some (bincode_ser (SavedTower_new t k)) →
  restore (node_pubkey t) fs = Ok (restored t).
Proof.
  intros Hk Hw1 Hw2 Hf. unfold restore. rewrite Hf. unfold deserialize at 1.
  rewrite <-(app_nil_r (bincode_ser _)), bincode_roundtrip by done. cbn [fmap option_fmap option_map fst].
  unfold SavedTower_verify. cbn [signature data SavedTower_new]. rewrite Hk at 1. rewrite verify_signed. cbn [ensure mbind res_bind].
  unfold SavedTower_deserialize. cbn [data SavedTower_new]. unfold deserialize.
  rewrite <-(app_nil_r (bincode_ser _)), bincode_roundtrip by done. cbn. by rewrite bool_decide_eq_true_2.
Qed.

(** A save ends with the new tower under its name, and returns, or with an
    error and the name as it was; no other name of a tower changes. *)
Lemma save_files io k t fs fs1 r :
  node_pubkey t = keypair_pubkey k → save io k t fs = (fs1, r) →
  (∀ p, p ≠ node_pubkey t → fs1 !! get_filename p = fs !! get_filename p) ∧
  (r = Ok tt ∧ fs1 !! get_filename (node_pubkey t) = Some (bincode_ser (SavedTower_new t k)) ∨
   (r = Err IoError ∨ r = Err SerializeError) ∧ fs1 !! get_filename (node_pubkey t) = fs !! get_filename (node_pubkey t)).
Proof.
  intros Hk. unfold save. rewrite bool_decide_eq_true_2 by done. unfold mbind, st_bind, ensureS, ensure, lift.
  unfold try_create, SavedTower_try_new, try_write, try_rename, file_append, file_create, get_filename, get_tmp_filename.
  destruct (io_create io); [|intros [= <- <-]; eauto].
  destruct (io_encode io); [|intros [= <- <-]; split; [intros p Hp; by rewrite lookup_insert_ne|right; rewrite lookup_insert_ne; eauto]].
  destruct (io_write io); [intros [= <- <-]; split; [intros p Hp; by rewrite !lookup_insert_ne|right; rewrite !lookup_insert_ne; eauto]|].
  rewrite !lookup_insert_eq. destruct (io_rename io); intros [= <- <-]; cbn [default app].
  - split; [|left; by rewrite lookup_insert_eq]. intros p Hp. rewrite lookup_insert_ne by congruence.
    rewrite lookup_delete_ne by done. by rewrite !lookup_insert_ne.
  - split; [intros p Hp; by rewrite !lookup_insert_ne|right; rewrite !lookup_insert_ne; eauto].
Qed.

Lemma restore_files p fs fs' : fs !! get_filename p = fs' !! get_filename p → restore p fs = restore p fs'.
Proof. intros Hf. unfold restore. by rewrite Hf. Qed.

Lemma restore_signed p fs t :
  restore p fs = Ok t → node_pubkey t = p ∧
  ∃ s, signature_verify (signature s) p (data s) = true ∧ SavedTower_deserialize s = Ok t.
Proof.
  intros Hr. unfold restore in Hr. destruct (fs !! _) as [file|]; [|done]. destruct (deserialize file) as [s|]; [|done].
  apply res_bind_Ok in Hr as ([] & Hv & (t1 & Hd & ([] & Hn & [= <-])%res_bind_Ok)%res_bind_Ok).
  unfold ensure in Hv, Hn. destruct (SavedTower_verify s p) eqn:Hver; [|done]. case_bool_decide; [|done]. eauto.
Qed.

(** C30. Saving a tower is safe against a crash of the process.  For a node
    that saves its own tower, with file operations any of which may fail: a
    save that returns leaves the new tower, field by field, for the next start,
    and a save in which nothing fails returns; a save that fails, with an I/O or
    serialization error, leaves the tower saved before; a process that stops at
    any point of a save leaves one of the two; no other node's tower is touched.
    The tower of another node is refused and nothing is written.  The crash is
    one of the process: what was written is kept by the operating system.  Of a
    loss of power, where the syncs the code skips may lose the write or the
    rename, only this is said: whatever the directory holds, a node restores
    only data that carries its own signature and names it. *)
Theorem save_crash_safe k t fs :
  node_pubkey t = keypair_pubkey k → wf (Tower_fields t) → wf (SavedTower_new t k) →
  (∀ io fs1, save io k t fs = (fs1, Ok tt) → restore (node_pubkey t) fs1 = Ok (restored t)) ∧
  (∃ fs1, save Io_ok k t fs = (fs1, Ok tt)) ∧
  (∀ io fs1 r, save io k t fs = (fs1, r) → r ≠ Ok tt →
    (r = Err IoError ∨ r = Err SerializeError) ∧ restore (node_pubkey t) fs1 = restore (node_pubkey t) fs) ∧
  (∀ fs', crash k t fs fs' →
    (restore (node_pubkey t) fs' = restore (node_pubkey t) fs ∨ restore (node_pubkey t) fs' = Ok (restored t)) ∧
    ∀ p, p ≠ node_pubkey t → restore p fs' = restore p fs) ∧
  (∀ io k', keypair_pubkey k' ≠ node_pubkey t → save io k' t fs = (fs, Err WrongTower)) ∧
  (∀ fs' p t', restore p fs' = Ok t' → node_pubkey t' = p ∧
    ∃ s, signature_verify (signature s) p (data s) = true ∧ SavedTower_deserialize s = Ok t').
Proof.
  intros Hk Hw1 Hw2.
  assert (Hends : ∀ io fs1 r, save io k t fs = (fs1, r) →
    (∀ p, p ≠ node_pubkey t → restore p fs1 = restore p fs) ∧
    (r = Ok tt ∧ restore (node_pubkey t) fs1 = Ok (restored t) ∨
     (r = Err IoError ∨ r = Err SerializeError) ∧ restore (node_pubkey t) fs1 = restore (node_pubkey t) fs)).
  { intros io fs1 r [Ho Hr]%save_files; [|done]. split; [intros p Hp; by apply restore_files, Ho|].
    destruct Hr as [[-> Hf]|[Hr Hf]]; [left|right]; split; [done|by apply (restore_saved fs1 k)|done|by apply restore_files]. }
  split_and!.
  - intros io fs1 [_ [[_ Hr]|[[Hr|Hr] _]]]%Hends; [exact Hr|discriminate Hr..].
  - unfold save. rewrite bool_decide_eq_true_2 by done. unfold mbind, st_bind, ensureS, ensure, lift.
    unfold try_create, SavedTower_try_new, try_write, try_rename. cbn [Io_ok io_create io_encode io_write io_rename].
    unfold file_append, file_create. rewrite !lookup_insert_eq. eauto.
  - intros io fs1 r [_ [[Hr _]|Hr]]%Hends Hne; [done|exact Hr].
  - intros fs' [|part rest Hs|io fs1 r Hr].
    + split; [by left|done].
    + split; [left|intros p Hp]; apply restore_files; unfold file_append, file_create, get_filename, get_tmp_filename;
        by rewrite !lookup_insert_ne.
    + apply Hends in Hr as [Ho Hr]. split; [|done]. destruct Hr as [[_ Hr]|[_ Hr]]; [by right|by left].
  - intros io k' Hne. unfold save. by rewrite bool_decide_eq_false_2.
  - intros fs' p t'. apply restore_signed.
Qed.
End storage.

(** ** An instance *)

Module example.
#[export] Instance f64_serial : Serial f64.
Proof.
  refine (inj_serial (A:=(bool * bool) + (unit + (bool * Z * Z)))
    (λ x, match x with
     | S754_zero s => inl (true, s) | S754_infinity s => inl (false, s) | S754_nan => inr (inl tt)
     | S754_finite s m e => inr (inr (s, Z.pos m, e)) end)
    (λ y, match y with
     | inl (true, s) => Some (S754_zero s) | inl (false, s) => Some (S754_infinity s) | inr (inl _) => Some S754_nan
     | inr (inr (s, Z.pos m, e)) => Some (S754_finite s m e) | _ => None end) _).
  abstract (by intros []).
Defined.
#[export] Instance Vote_serial : Serial Vote.
Proof.
  refine (inj_serial' (λ v, (vote_slots v, vote_hash v, vote_timestamp v)) (λ p, mkVote p.1.1 p.1.2 p.2) _).
  abstract (by intros []).
Defined.
#[export] Instance TowerFields_serial : Serial TowerFields.
Proof.
  refine (inj_serial' (λ f, (f_node_pubkey f, f_threshold_depth f, f_threshold_size f, f_vote_state f, f_last_vote f, f_last_timestamp f))
    (λ p, let '(a, b, c, d, e, g) := p in mkTowerFields a b c d e g) _).
  abstract (by intros []).
Defined.
#[export] Instance SavedTower_serial : Serial SavedTower.
Proof.
  refine (inj_serial' (λ s, (signature s, data s)) (λ p, mkSavedTower p.1 p.2) _).
  abstract (by intros []).
Defined.
#[export] Instance wf_fields : Wf TowerFields := λ _, True.
#[export] Instance wf_saved : Wf SavedTower := λ _, True.
#[export] Instance wf_fields_dec (f : TowerFields) : Decision (wf f) := left I.
#[export] Instance wf_saved_dec (s : SavedTower) : Decision (wf s) := left I.
#[export] Instance fields_codec : Codec TowerFields := serial_codec _.
#[export] Instance saved_codec : Codec SavedTower := serial_codec _.
#[export] Instance fields_ok : CodecOk TowerFields := serial_codec_ok _.
#[export] Instance saved_ok : CodecOk SavedTower := serial_codec_ok _.

(** The signature is the signer's key in front of the message. *)
#[export] Instance signing : Signing := {|
  Keypair := Z;
  keypair_pubkey := λ k, k;
  sign_message := λ k m, ser k ++ m;
  signature_verify := λ s p m, bool_decide (s = ser p ++ m);
|}.
#[export] Instance signing_ok : SigningOk.
Proof. split. intros k m. by apply bool_decide_eq_true_2. Defined.

Definition node_key : @Keypair signing := 7.
Definition tower : Tower :=
  with_last_vote (mkVote [3] 9 None) (with_vote_state (process_slot_vote_unchecked 3 VoteState_default) (with_node 7 Tower_default)).

Lemma save_crash_safe_witness :
  let fs := (save Io_ok node_key (with_node 7 Tower_default) ∅).1 in
  restore 7 (save Io_ok node_key tower fs).1 = Ok (restored tower) ∧
  restore 7 (save (mkIo true true (Some 20%nat) true) node_key tower fs).1 = Ok (restored (with_node 7 Tower_default)).
Proof.
  intros fs. assert (H0 : restore 7 fs = Ok (restored (with_node 7 Tower_default))) by (vm_compute; reflexivity).
  destruct (save_crash_safe node_key tower fs eq_refl I I) as (Hok & (fs1 & Hs) & Herr & _). split.
  - rewrite Hs. exact (Hok Io_ok fs1 Hs).
  - destruct (Herr _ _ _ (surjective_pairing (save (mkIo true true (Some 20%nat) true) node_key tower fs))) as [_ Hr]; [vm_compute; discriminate|].
    rewrite <-H0. exact Hr.
Defined.
End example.
End tower_storage.
